(* ===== verification/_CoqProject ===== *)
-Q . S2P
Prelude.v
Paths.v
Scheduler.v
Backing.v
Disk.v
Inode.v
Db.v
Manager.v
CacheIo.v
PipelineTerm.v
Preset.v
Prediction.v
Prefetch.v
Engine.v
Watch.v
Fuse.v
FuseSafe.v
FuseSpec.v
FuseDir.v
Transparency.v
Coherence.v
Fetch.v
Discovery.v
DiscoveryLog.v
Config.v
Instance.v
Daemon.v
Ipc.v
Telemetry.v
CopyTelemetry.v
Startup.v
Server.v
WatchRun.v
Tui.v
Double.v
Screen.v
Cli.v
