(* ===== verification/Prelude.v ===== *)
(** * fscache: a verification development

    fscache is a daemon that mounts itself over directories of a slow backing store (FUSE, [src/fuse])
    and keeps the files it expects to be read next on an SSD.  This library models its program
    logic, definition by definition from [src/], and proves what each part promises.

    ** The program and its parts

    A request of the kernel enters a handler of [fuse/fusefs.rs], [read.rs] or [write.rs].  The
    handler turns an inode number into a path ([fuse/inode.rs]), serves the file from the SSD when
    the cache manager ([cache/manager.rs]) says the copy is fresh and otherwise passes the call to
    the backing store ([backing_store.rs]), and reports opens and closes to the action engine
    ([engine/action.rs]) as events.  The engine holds an open back until it counts as an access,
    asks the mount's preset ([preset.rs], [presets/*.rs], [prediction_utils.rs]) what to fetch, and
    submits jobs, within the mount's budget, to the copy pipeline ([cache/io.rs]).  The pipeline
    copies while the window of [engine/scheduler.rs] is open, evicts to make room and records every
    file in the database ([cache/db.rs]).  The watcher ([backing_watch.rs]) turns inotify events
    on visited directories into aborts and validations; discovery ([discovery.rs]) counts who asks.

    One daemon serves the targets of one instance.  It is started from a file ([config.rs]), takes
    the locks of its instance and targets ([utils.rs]), clears a mount that a crash left behind and
    wires the parts of every mount ([main.rs]).  Clients attach to its socket: what the parts emit
    as tracing events is turned into messages ([ipc/broadcast_layer.rs], [ipc/recent_logs.rs]),
    relayed to them ([ipc/server.rs]) and kept as the state of a dashboard ([ipc/client.rs],
    [tui/state.rs]), whose keys ([tui/app.rs]) become commands to the daemon, as do those of the
    command line.

    ** The files

    - [Prelude]: machine integers with their reductions, [result], stable sorting, [MapOrder] (the
      unspecified order in which maps and tables enumerate), string functions of the standard
      library, tactics ([int_bounds], [to_prop]), hint databases and shared lemmas.
    - [Paths]: [std::path] as lists of components.
    - [Scheduler]: [Scheduler.parse_hhmm], [new], [is_caching_allowed].
    - [Backing]: the C library as a parameter [sys] from calls to replies over a world; [BackingStore]
      has one definition per method, [SourceMetadata] the conversions of [cache/db.rs].
    - [Disk]: the SSD below the cache directory, where single entries can refuse deletion; the walks
      of [utils.rs] and the partial-file removal of [cache/db.rs].
    - [Inode]: [InodeTable] and the kernel's half of the lookup protocol ([kstep]).
    - [Db]: [CacheDb], its three tables as finite maps, every method as a function on them.
    - [Manager]: [Manager], staleness, eviction, sweeps and statistics on [Disk * CacheDb].
    - [CacheIo]: [CacheIO] has the atomic sections of the pipeline and the copy loop, [Pipeline] the
      interleaving of its tasks as the step relation [io_step] (a worker's progress is a program
      counter).
    - [PipelineTerm]: a measure on the states of [Pipeline] and what is left when it stops.
    - [Preset], [Prediction], [Prefetch]: process capture and policy, the preset interface, and the
      two presets over a regular-expression engine given as a class.
    - [Engine]: [ActionEngine], the access filter and [process].
    - [Watch]: the watch set over an LRU interface ([LruCache] with [LruLaws], discharged by
      a list), debounce and dispatch; [WatchRun]: the loop around them with its biased choice.
    - [Fuse]: [FsCache], every handler in the monad [FsM] (a value, an errno, a panic, or a loop out
      of fuel) and [serve] from request to reply; [FuseSafe], [FuseSpec] and [FuseDir] hold its
      theorems.
    - [Transparency]: the mount as a whole, requests interleaved with the work of the cache
      ([mount_step]), over a kernel given by a view of the world and the laws of its calls;
      [Coherence]: the same while somebody changes the backing files;
      [Fetch]: an access followed through the engine and the pipeline.
    - [Discovery]: sessions, counters, flush, the drain task and the controller; [DiscoveryLog]: the
      lines it logs and their formatter.
    - [Config]: [Config.from_raw] from the sections a file sets to the configuration in force, with the
      casts of floats to integers, [load] and [validate_instance_name].
    - [Instance]: the names of caches, sockets, locks and databases, [validate_targets], the file
      locks and the reading of the mount table.
    - [Daemon]: [wire], what a mount is built from, and [dstep], several daemons starting, crashing
      and stopping on one machine; [Startup]: the order of one daemon's start and end, with the way
      back when a step fails.
    - [Ipc]: the messages, the tracing layer ([on_event]), the ring of recent log lines, the handler of
      a connection ([handle_client]) with its commands, and the client's [apply_event]; [Server]:
      the socket's server, any number of connections following one bus; [Telemetry]: what opens and
      releases emit, up to the counters of a dashboard; [CopyTelemetry]: what the pipeline emits,
      step by step, over labelled runs of [Pipeline].
    - [Tui]: the session of a dashboard ([session_step]: keys, polls, messages), the selection, the
      sort orders, and which rows are drawn ([Ui]).
    - [Double], [Screen]: the rounding of doubles as far as labels and gauges need it, and every
      [render_*] function as the list of widgets it draws.
    - [Cli]: which instance a command is for, [run_toggle], [run_stat], the greeting and the pruning.

    The names of the source are kept; a definition that stands for a piece of a longer function says
    so where it stands.  Components meet through [Store] (SSD and database), the events of [Engine],
    the interface records of [Preset] and the classes [MapOrder], [RegexEngine], [BackingView],
    [LruCache], [Channel] (a broadcast channel with its capacity and lag) and [Layout] (the solver
    of rectangles).

    ** What the theorems show

    - The mount: a file read through it is the backing file, byte for byte, served from the cached
      copy or not, whatever copies, evictions and validations happen meanwhile (as long as nobody
      writes to the backing directory).  When the backing files change, a copy that the cache
      calls fresh is the file of that size and time, and the round of validation and copy that
      follows a change replaces a stale copy.
    - The copy: a successful copy leaves exactly the bytes and the modification time of the source
      under the final name, a failed one leaves the cached file and no partial; the pipeline, in
      every interleaving, never runs two equal jobs, an abort stops the copies it names, a closed
      window starts none, expiry drops exactly the stale jobs.
    - The cache: eviction meets the budget unless deletions are refused, makes room for a copy and
      proceeds by least recent use; reconciliation makes the table mirror the disk; a sweep
      leaves only rows that agree with their source; the methods of the database round trip and a
      read-only handle writes nothing.
    - The file system: no request panics; a refused request changes nothing; lookup counts agree with
      the kernel's along every run of the protocol; a rename moves a subtree; directories are
      listed once, page after page; what was read through a handle is what its close reports.
    - Prediction and engine: predicted episodes are the next ones in order; prefetch gathers exactly
      the files that match; overlapping handles are one access; fetches stay in the budget; and what
      an access names gets into the cache, unless its copy fails or its job expires.
    - The watcher and discovery: the watch set is bounded, events in a window coalesce into one
      dispatch, a change of a watched entry reaches the kernel at the first tick after its window,
      no counted operation is lost, and a flush logs exactly what it stores.
    - The pipeline as a whole: left alone it takes a bounded number of steps and, given a permit, ends
      with nothing queued, running or remembered.
    - Daemons: every number of a loaded configuration fits its type, the files of two instances are
      apart, no two live daemons share a name or a target, and a daemon mounts and serves only
      behind its locks.
    - Clients: telemetry survives the tracing layer; the dashboard is a closed function of the events
      received, and its counters are the books of the mount and of the pipeline; every attached
      client follows the bus in order, and every handler ends when the daemon parts; evicting from the dashboard removes
      exactly the files and rows on the screen; the poll shows the database; every widget drawn lies
      on the screen, its numbers right to the digit shown; commands find the instance they name and
      report what they did.

    Lemmas that exhibit a run in which the program does not do what it means to (a leaked inode, a
    panic on an old date, a shared partial file, a cancelled access, a file hidden by a directory) stand beside these.

    ** Bounds and fuel

    Integers are [Z] at their width, with wrapping, saturation and casts written out; a double is a
    mantissa and an exponent, rounded to 53 bits by the operations of [Double], whose arguments stay
    far from overflow and underflow.  Two kinds of loops have fuel.  The walks of [Disk] take a depth, and the depth of the disk is proved enough.
    A directory stream is cut when it outlasts its fuel: [list_dir_returns_stream] and
    [readdir_pages_list_once] show that one call more than the stream has entries is enough.

    ** What is not modelled

    The texts of most log lines and the umask of the thread; SQLite's own storage and locking (a
    statement is atomic and fails only on a query-only connection); the async runtime (tasks are
    steps in any order, timers are inputs); TOML, JSON and framing (a section is the record of what
    it sets, a connection carries messages); argument parsing; and the terminal: its set-up, and how
    a widget, once handed over, becomes cells and colours.  Regular expressions, the LRU crate, the
    broadcast channel, the layout solver, system calls, [/proc] and clocks are parameters.  Text is
    bytes; paths are those with UTF-8 names, for which the lossy conversions are the identity. *)
From stdpp Require Export base tactics option list gmap strings sorting fin_maps fin_map_dom sets relations.
From Stdlib Require Export Ascii ZArith Lia.

#[global] Open Scope Z_scope.

Declare Scope fsc_scope.
Delimit Scope fsc_scope with fsc.

(** ** Machine integers

    A machine integer is a [Z] in range; each cast and each operation that can leave the range
    writes its reduction out.  Unchecked additions wrap, as in the release profile. *)
Definition U64 : Z := 2 ^ 64.
Definition I64_MAX : Z := 2 ^ 63 - 1.
Definition as_u64 (z : Z) : Z := z mod 2 ^ 64.
Definition as_u32 (z : Z) : Z := z mod 2 ^ 32.
Definition as_u16 (z : Z) : Z := z mod 2 ^ 16.
Definition as_u8 (z : Z) : Z := z mod 2 ^ 8.
Definition as_i64 (z : Z) : Z :=
  if z mod 2 ^ 64 <? 2 ^ 63 then z mod 2 ^ 64 else z mod 2 ^ 64 - 2 ^ 64.
Definition u64_add (a b : Z) : Z := as_u64 (a + b).
Definition u32_add (a b : Z) : Z := as_u32 (a + b).
Definition saturating_sub (a b : Z) : Z := Z.max 0 (a - b).
Definition saturating_add_u64 (a b : Z) : Z := Z.min (2 ^ 64 - 1) (a + b).
Definition usize_MAX : Z := 2 ^ 64 - 1.

Definition in_u64 (z : Z) : Prop := 0 <= z < 2 ^ 64.
Definition in_u32 (z : Z) : Prop := 0 <= z < 2 ^ 32.
Definition in_i64 (z : Z) : Prop := - 2 ^ 63 <= z < 2 ^ 63.

(** ** Unspecified iteration order

    A Rust [HashMap]/[DashMap] and a SQL scan without [ORDER BY] enumerate their contents in an
    order the program may not rely on.  Every definition that iterates takes the enumeration
    from this class, whose only law is that it lists each entry once. *)
Class MapOrder : Type := {
  iter : ∀ {K A : Type} `{Countable K}, gmap K A → list (K * A);
  iter_perm : ∀ {K A : Type} `{Countable K} (m : gmap K A), iter m ≡ₚ map_to_list m;
}.

(** Two concrete orders, used to evaluate the definitions. *)
#[global] Instance forward_order : MapOrder | 100.
Proof. refine {| iter := fun K A _ _ m => map_to_list m |}. intros; reflexivity. Defined.

Definition backward_order : MapOrder.
Proof.
  refine {| iter := fun K A _ _ m => reverse (map_to_list m) |}.
  intros; apply reverse_Permutation.
Defined.

(** ** Stable sorting by a boolean order *)
Section sort.
Context {A : Type} (le : A → A → bool).

Fixpoint insert_sorted (x : A) (l : list A) : list A :=
  match l with
  | [] => [x]
  | y :: l' => if le x y then x :: y :: l' else y :: insert_sorted x l'
  end.

(** [slice::sort_by_key]: elements are inserted from the right, each before the first element
    it is not greater than, which keeps equal keys in their original order. *)
Definition sort_by (l : list A) : list A := foldr insert_sorted [] l.
End sort.

Class TotalOrderb {A} (le : A → A → bool) : Prop := {
  leb_total : ∀ x y, le x y = true ∨ le y x = true;
  leb_trans : ∀ x y z, le x y = true → le y z = true → le x z = true;
}.

(** ** Small list functions of the Rust iterators *)
Fixpoint position {A} (f : A → bool) (l : list A) : option nat :=
  match l with
  | [] => None
  | x :: l' => if f x then Some O else S <$> position f l'
  end.

Definition sum_Z (l : list Z) : Z := foldr Z.add 0 l.

(** [Iterator::sum] over [u64]: wraps. *)
Definition sum_u64 (l : list Z) : Z := foldl u64_add 0 l.

(** A sum over the values of a map, in no particular order. *)
Definition sum_map {K A} `{Countable K} (f : A → Z) (m : gmap K A) : Z :=
  sum_Z ((λ kv, f kv.2) <$> map_to_list m).

(** [String::ends_with] and [str::starts_with] on byte strings. *)
Definition ends_with (suffix s : string) : bool :=
  let n := String.length s in
  let k := String.length suffix in
  if (k <=? n)%nat then bool_decide (String.substring (n - k) k s = suffix) else false.

Definition strip_prefix_str (pre s : string) : option string :=
  if String.prefix pre s
  then Some (String.substring (String.length pre) (String.length s - String.length pre) s)
  else None.

(** ** Text: the parsing functions of [str] *)
Module Text.
Definition digit (c : ascii) : option Z :=
  let n := Z.of_nat (nat_of_ascii c) in
  if (48 <=? n) && (n <=? 57) then Some (n - 48) else None.

(** The digits of an unsigned number, refused beyond [max] as Rust's checked arithmetic does. *)
Fixpoint parse_digits (max acc : Z) (s : string) : option Z :=
  match s with
  | EmptyString => Some acc
  | String c s' =>
      d ← digit c;
      let acc' := acc * 10 + d in
      if max <? acc' then None else parse_digits max acc' s'
  end.

(** [str::parse] of an unsigned integer: an optional plus sign, then at least one digit. *)
Definition parse_unsigned (max : Z) (s : string) : option Z :=
  match s with
  | EmptyString => None
  | String c s' =>
      if decide (c = "+"%char)
      then match s' with EmptyString => None | _ => parse_digits max 0 s' end
      else parse_digits max 0 s
  end.

(** [splitn(2, c)]: what precedes the first [c], and what follows it if there is one. *)
Fixpoint split_once (c : ascii) (s : string) : string * option string :=
  match s with
  | EmptyString => (EmptyString, None)
  | String d s' =>
      if decide (c = d) then (EmptyString, Some s')
      else let '(a, b) := split_once c s' in (String d a, b)
  end.

(** [str::trim] on ASCII text. *)
Definition is_space (c : ascii) : bool :=
  let n := nat_of_ascii c in (n =? 32)%nat || ((9 <=? n)%nat && (n <=? 13)%nat).

Fixpoint trim_start (s : string) : string :=
  match s with
  | EmptyString => EmptyString
  | String c s' => if is_space c then trim_start s' else s
  end.

Fixpoint trim_end (s : string) : string :=
  match s with
  | EmptyString => EmptyString
  | String c s' =>
      match trim_end s' with
      | EmptyString => if is_space c then EmptyString else String c EmptyString
      | t => String c t
      end
  end.

Definition trim (s : string) : string := trim_end (trim_start s).

(** [s.chars().all(f)], for a test that refuses every byte beyond ASCII. *)
Fixpoint all_chars (f : ascii → bool) (s : string) : bool :=
  match s with EmptyString => true | String c s' => f c && all_chars f s' end.

(** [split(c)]: the pieces between the occurrences of [c], always at least one. *)
Fixpoint split (c : ascii) (s : string) : list string :=
  match s with
  | EmptyString => [EmptyString]
  | String d s' =>
      if decide (c = d) then EmptyString :: split c s'
      else match split c s' with
           | [] => [String d EmptyString]
           | piece :: rest => String d piece :: rest
           end
  end.

(** [split_whitespace()]: the pieces between runs of white space, none of them empty. *)
Fixpoint split_spaces (s : string) : list string :=
  match s with
  | EmptyString => [EmptyString]
  | String d s' =>
      if is_space d then EmptyString :: split_spaces s'
      else match split_spaces s' with
           | [] => [String d EmptyString]
           | piece :: rest => String d piece :: rest
           end
  end.

Definition split_whitespace (s : string) : list string := filter (λ w, w ≠ ""%string) (split_spaces s).

(** [lines()]: without the line feeds and the carriage returns before them; the text may or may
    not end in a line feed, and only a line feed takes a carriage return with it. *)
Fixpoint strip_cr (s : string) : string :=
  match s with
  | EmptyString => EmptyString
  | String c EmptyString => if decide (c = "013"%char) then EmptyString else s
  | String c s' => String c (strip_cr s')
  end.

Definition lines (s : string) : list string :=
  let pieces := split "010"%char s in
  (strip_cr <$> removelast pieces)
    ++ match last pieces with Some l => if decide (l = "")%string then [] else [l] | None => [] end.

(** [join(sep)]. *)
Fixpoint join (sep : string) (l : list string) : string :=
  match l with
  | [] => ""
  | [s] => s
  | s :: l' => (s ++ sep ++ join sep l')%string
  end.
End Text.

(** ** Results and state

    [std::io::Result] with the one distinction the code makes on errors: whether there is an
    [errno] behind it ([raw_os_error]). *)
Inductive result (E A : Type) := Ok (a : A) | Err (e : E).
Arguments Ok {E A} _.
Arguments Err {E A} _.

Inductive io_error := OsError (errno : Z) | OtherError (what : string).

#[export] Instance result_ret E : MRet (result E) := λ A a, Ok a.
#[export] Instance result_bind E : MBind (result E) := λ A B f r,
  match r with Ok a => f a | Err e => Err e end.

Definition is_ok {E A} (r : result E A) : bool := match r with Ok _ => true | Err _ => false end.
Definition is_err {E A} (r : result E A) : bool := negb (is_ok r).

(** Code that runs against a world it reads and changes. *)
Definition State (W A : Type) : Type := W → A * W.
#[export] Instance state_ret W : MRet (State W) := λ A a w, (a, w).
#[export] Instance state_bind W : MBind (State W) := λ A B f m w, let '(a, w') := m w in f a w'.

(** ** Automation *)
Create HintDb fsc.
Create Rewrite HintDb fsc_bool.

#[export] Hint Rewrite andb_true_iff andb_false_iff orb_true_iff orb_false_iff negb_true_iff
  negb_false_iff Z.leb_le Z.leb_gt Z.ltb_lt Z.ltb_ge Z.eqb_eq Z.eqb_neq Nat.leb_le Nat.leb_gt
  Nat.ltb_lt Nat.ltb_ge Nat.eqb_eq Nat.eqb_neq
  @bool_decide_eq_true @bool_decide_eq_false : fsc_bool.

(** Boolean tests of the code, in hypotheses and goal, become the propositions they decide. *)
Ltac to_prop := autorewrite with fsc_bool in *.

(** Case analysis on the tests and matches the goal is stuck on. *)
Ltac step_cases := repeat (case_match || case_decide); simplify_eq/=.

Ltac int_bounds :=
  unfold in_u64, in_u32, in_i64, as_u64, as_u32, as_u16, as_i64, u64_add, u32_add, U64,
    saturating_sub, saturating_add_u64, I64_MAX, usize_MAX in *.

(** ** Integers *)
Lemma as_u64_range z : in_u64 (as_u64 z).
Proof. int_bounds. apply Z.mod_pos_bound. lia. Qed.

Lemma as_u64_id z : in_u64 z → as_u64 z = z.
Proof. int_bounds. intros; apply Z.mod_small; lia. Qed.

Lemma as_u32_id z : in_u32 z → as_u32 z = z.
Proof. int_bounds. intros; apply Z.mod_small; lia. Qed.

Lemma as_i64_id z : in_i64 z → as_i64 z = z.
Proof.
  int_bounds. intros Hz. case_match eqn:E; to_prop.
  - destruct (decide (0 <= z)); [apply Z.mod_small; lia|].
    rewrite <- (Z.mod_add z 1) in E by lia. rewrite Z.mod_small in E by lia. lia.
  - destruct (decide (0 <= z)); [rewrite Z.mod_small in E by lia; lia|].
    rewrite <- (Z.mod_add z 1) by lia. rewrite Z.mod_small by lia. lia.
Qed.

Lemma as_i64_range z : in_i64 (as_i64 z).
Proof.
  int_bounds. pose proof (Z.mod_pos_bound z (2 ^ 64) ltac:(lia)).
  case_match eqn:E; to_prop; lia.
Qed.

Lemma as_u64_as_i64 z : in_u64 z → as_u64 (as_i64 z) = z.
Proof.
  int_bounds. intros Hz. rewrite (Z.mod_small z) by lia. case_match; to_prop.
  - apply Z.mod_small; lia.
  - rewrite <- (Z.mod_add _ 1) by lia. rewrite Z.mod_small; lia.
Qed.

Lemma u64_add_small a b : 0 <= a → 0 <= b → a + b < 2 ^ 64 → u64_add a b = a + b.
Proof. intros. unfold u64_add. apply as_u64_id. int_bounds. lia. Qed.

#[export] Hint Resolve as_u64_range as_i64_range : fsc.

(** ** Iteration order *)
Section iter.
Context `{MapOrder} {K A : Type} `{Countable K}.
Implicit Types m : gmap K A.

Lemma elem_of_iter m k x : (k, x) ∈ iter m ↔ m !! k = Some x.
Proof. by rewrite iter_perm, elem_of_map_to_list. Qed.

Lemma NoDup_iter m : NoDup (iter m).
Proof. rewrite iter_perm. apply NoDup_map_to_list. Qed.

Lemma NoDup_fst_iter m : NoDup (iter m).*1.
Proof. rewrite iter_perm. apply NoDup_fst_map_to_list. Qed.

Lemma elem_of_fst_iter m k : k ∈ (iter m).*1 ↔ is_Some (m !! k).
Proof.
  rewrite list_elem_of_fmap. split.
  - intros ([k' x] & -> & Hin). apply elem_of_iter in Hin. eauto.
  - intros [x Hx]. exists (k, x). by rewrite elem_of_iter.
Qed.
End iter.

(** ** Sorting *)
Section sort_lemmas.
Context {A : Type} (le : A → A → bool).

Lemma insert_sorted_perm x l : insert_sorted le x l ≡ₚ x :: l.
Proof.
  induction l as [|y l IH]; [done|]. simpl. case_match; [done|].
  rewrite IH. constructor.
Qed.

Lemma sort_by_perm l : sort_by le l ≡ₚ l.
Proof. induction l as [|x l IH]; [done|]. simpl. by rewrite insert_sorted_perm, IH. Qed.

Lemma length_sort_by l : length (sort_by le l) = length l.
Proof. by rewrite (sort_by_perm l). Qed.

Lemma elem_of_sort_by x l : x ∈ sort_by le l ↔ x ∈ l.
Proof. by rewrite sort_by_perm. Qed.

Context `{!TotalOrderb le}.

Lemma insert_sorted_sorted x l :
  StronglySorted (λ a b, le a b = true) l →
  StronglySorted (λ a b, le a b = true) (insert_sorted le x l).
Proof.
  induction 1 as [|y l Hl IH Hy]; [by repeat constructor|].
  simpl. destruct (le x y) eqn:E.
  - repeat constructor; try done. rewrite Forall_forall in *. eauto using leb_trans.
  - constructor; [done|]. rewrite insert_sorted_perm. constructor; [|done].
    destruct (leb_total x y); congruence.
Qed.

Lemma sort_by_sorted l : StronglySorted (λ a b, le a b = true) (sort_by le l).
Proof. induction l; simpl; [constructor|]. by apply insert_sorted_sorted. Qed.
End sort_lemmas.

(** Stability, as far as the program relies on it: when every element satisfying [P] is strictly
    below every other one, sorting sorts the two groups side by side. *)
Section sort_partition.
Context {A : Type} (le : A → A → bool) (P : A → Prop) `{∀ x, Decision (P x)}.

Definition splits_order (l : list A) : Prop :=
  ∀ x y, x ∈ l → y ∈ l → P x → ¬ P y → le x y = true ∧ le y x = false.

Lemma insert_sorted_low x l k :
  (∀ y, y ∈ k → le x y = true) → insert_sorted le x (l ++ k) = insert_sorted le x l ++ k.
Proof.
  intros Hk. induction l as [|y l IH]; simpl.
  - destruct k as [|z k]; [done|]. simpl. by rewrite (Hk z (list_elem_of_here _ _)).
  - destruct (le x y); [done|]. by rewrite IH.
Qed.

Lemma insert_sorted_high x l k :
  (∀ y, y ∈ l → le x y = false) → insert_sorted le x (l ++ k) = l ++ insert_sorted le x k.
Proof.
  intros Hl. induction l as [|y l IH]; [done|]. simpl. rewrite (Hl y (list_elem_of_here _ _)).
  rewrite IH; [done|]. intros z Hz. apply Hl. by right.
Qed.

Lemma sort_by_partition l :
  splits_order l →
  sort_by le l = sort_by le (filter P l) ++ sort_by le (filter (λ x, ¬ P x) l).
Proof.
  induction l as [|x l IH]; intros Hl; [done|].
  simpl. rewrite IH by (intros a b ??; apply Hl; by right). rewrite !filter_cons.
  destruct (decide (P x)) as [Hx|Hx]; [rewrite decide_False by tauto|rewrite decide_True by tauto]; simpl.
  - apply insert_sorted_low. intros y [? Hy]%elem_of_sort_by%list_elem_of_filter.
    apply Hl; [by left|by right|done|done].
  - apply insert_sorted_high. intros y [? Hy]%elem_of_sort_by%list_elem_of_filter.
    apply Hl; [by right|by left|done|done].
Qed.
End sort_partition.

(** In a sorted list, what [take] keeps is below what [drop] leaves. *)
Lemma StronglySorted_take_drop {A} (R : relation A) n l x y :
  StronglySorted R l → x ∈ take n l → y ∈ drop n l → R x y.
Proof.
  intros Hl. revert n. induction Hl as [|z l Hl IH Hz]; intros n Hx Hy.
  - rewrite take_nil in Hx. by apply elem_of_nil in Hx.
  - destruct n as [|n]; simpl in *; [by apply elem_of_nil in Hx|].
    apply elem_of_cons in Hx as [->|Hx]; [|eauto].
    apply (Forall_drop _ n) in Hz. rewrite Forall_forall in Hz. by apply Hz.
Qed.

Lemma StronglySorted_filter {A} (R : relation A) (P : A → Prop) `{∀ x, Decision (P x)} l :
  StronglySorted R l → StronglySorted R (filter P l).
Proof.
  induction 1 as [|x l Hl IH Hx]; simpl; [constructor|].
  rewrite filter_cons. case_decide; [|done]. constructor; [done|].
  rewrite Forall_forall in *. intros y [_ ?]%list_elem_of_filter. eauto.
Qed.

Lemma StronglySorted_sublist {A} (R : relation A) l k :
  sublist k l → StronglySorted R l → StronglySorted R k.
Proof.
  induction 1 as [|x k l Hs IH|x k l Hs IH]; inversion 1; subst; [constructor| |eauto].
  constructor; [eauto|]. rewrite Forall_forall in *.
  intros y Hy. eauto using elem_of_sublist.
Qed.

Lemma StronglySorted_fmap {A B} (f : A → B) (R : relation A) (S : relation B) l :
  (∀ x y, x ∈ l → y ∈ l → R x y → S (f x) (f y)) →
  StronglySorted R l → StronglySorted S (f <$> l).
Proof.
  intros Hf Hl. induction Hl as [|x l Hl IH Hx]; simpl; [constructor|]. constructor.
  - apply IH. intros y z Hy Hz. apply Hf; by right.
  - apply Forall_forall. intros y (z & -> & Hz)%list_elem_of_fmap.
    apply Hf; [by left|by right|]. by apply (proj1 (Forall_forall _ _) Hx).
Qed.

Lemma StronglySorted_take {A} (R : relation A) k l : StronglySorted R l → StronglySorted R (take k l).
Proof. intros Hl. eapply StronglySorted_sublist, Hl. apply sublist_take. Qed.

(** ** Sums *)
#[export] Instance sum_Z_perm : Proper ((≡ₚ) ==> eq) sum_Z.
Proof. induction 1; simpl; lia. Qed.

Lemma sum_Z_cons x l : sum_Z (x :: l) = x + sum_Z l.
Proof. done. Qed.

Lemma sum_Z_app l k : sum_Z (l ++ k) = sum_Z l + sum_Z k.
Proof. induction l; simpl; lia. Qed.

Lemma sum_Z_nonneg l : Forall (λ z, 0 <= z) l → 0 <= sum_Z l.
Proof. induction 1; simpl; lia. Qed.

Section sum_map.
Context {K A : Type} `{Countable K} (f : A → Z).
Implicit Types m : gmap K A.

Lemma sum_map_empty : sum_map f (∅ : gmap K A) = 0.
Proof. unfold sum_map. by rewrite map_to_list_empty. Qed.

Lemma sum_map_insert m k x :
  m !! k = None → sum_map f (<[k:=x]> m) = f x + sum_map f m.
Proof. intros Hk. unfold sum_map. by rewrite (map_to_list_insert m k x Hk). Qed.

Lemma sum_map_delete m k x :
  m !! k = Some x → sum_map f m = f x + sum_map f (delete k m).
Proof.
  intros Hk. rewrite <- (sum_map_insert (delete k m) k x) by apply lookup_delete_eq.
  by rewrite insert_delete_id.
Qed.

Lemma sum_map_nonneg m : (∀ k x, m !! k = Some x → 0 <= f x) → 0 <= sum_map f m.
Proof.
  intros Hm. apply sum_Z_nonneg, Forall_forall. intros z Hz.
  apply list_elem_of_fmap in Hz as ([k x] & -> & Hin).
  apply elem_of_map_to_list in Hin. eauto.
Qed.

Lemma sum_map_iter `{MapOrder} m : sum_Z ((λ kv, f kv.2) <$> iter m) = sum_map f m.
Proof. unfold sum_map. by rewrite iter_perm. Qed.
End sum_map.

(** ** Strings *)
Lemma string_app_assoc (a b c : string) : ((a ++ b) ++ c)%string = (a ++ b ++ c)%string.
Proof.
  induction a as [|x a IH]; [done|].
  change (String x ((a ++ b) ++ c) = String x (a ++ b ++ c))%string. by rewrite IH.
Qed.

Lemma string_app_nil (a : string) : (a ++ "")%string = a.
Proof.
  induction a as [|x a IH]; [done|]. change (String x (a ++ "") = String x a)%string. by rewrite IH.
Qed.

Lemma string_length_app (a b : string) :
  String.length (a ++ b) = (String.length a + String.length b)%nat.
Proof.
  induction a as [|x a IH]; [done|].
  change (S (String.length (a ++ b)) = S (String.length a) + String.length b)%nat. lia.
Qed.

(** Text made of characters that pass a test. *)
Lemma all_chars_app f a b : Text.all_chars f (a ++ b) = Text.all_chars f a && Text.all_chars f b.
Proof.
  induction a as [|c a IH]; [done|].
  change (f c && Text.all_chars f (a ++ b) = f c && Text.all_chars f a && Text.all_chars f b).
  by rewrite IH, andb_assoc.
Qed.

Lemma all_chars_impl f g s :
  (∀ c, f c = true → g c = true) → Text.all_chars f s = true → Text.all_chars g s = true.
Proof. intros Hfg. induction s; simpl; [done|]. rewrite !andb_true_iff. naive_solver. Qed.

Lemma split_none c s : Text.all_chars (λ d, negb (bool_decide (c = d))) s = true → Text.split c s = [s].
Proof.
  induction s as [|d s IH]; [done|]. simpl. intros [Hd Hs]%andb_true_iff.
  rewrite negb_true_iff, bool_decide_eq_false in Hd. rewrite decide_False by done. by rewrite IH.
Qed.

Lemma split_app c a b :
  Text.all_chars (λ d, negb (bool_decide (c = d))) a = true →
  Text.split c (a ++ String c b) = a :: Text.split c b.
Proof.
  induction a as [|d a IH]; simpl.
  - intros _. by rewrite decide_True.
  - intros [Hd Ha]%andb_true_iff. rewrite negb_true_iff, bool_decide_eq_false in Hd.
    rewrite decide_False by done. fold (a ++ String c b)%string. by rewrite IH.
Qed.

(** Parts of a text. *)
Lemma substring_prefix a b : String.substring 0 (String.length a) (a ++ b) = a.
Proof.
  induction a as [|c a IH]; [by destruct b|].
  change (String c (String.substring 0 (String.length a) (a ++ b)) = String c a). by rewrite IH.
Qed.

Lemma substring_all b : String.substring 0 (String.length b) b = b.
Proof. rewrite <- (string_app_nil b) at 2. apply substring_prefix. Qed.

Lemma substring_suffix a b : String.substring (String.length a) (String.length b) (a ++ b) = b.
Proof. induction a as [|c a IH]; [apply substring_all|exact IH]. Qed.

Lemma substring_chars f n m s : Text.all_chars f s = true → Text.all_chars f (String.substring n m s) = true.
Proof.
  revert n m. induction s as [|c s IH]; intros [|n] [|m]; cbn; try done; intros [Hc Hs]%andb_true_iff.
  - apply andb_true_iff. split; [done|by apply IH].
  - by apply IH.
  - by apply IH.
Qed.

(** Lists: sums of weights, partial maps and the only element that passes a test. *)
Lemma sum_list_app {A} (f : A → nat) l k : sum_list_with f (l ++ k) = (sum_list_with f l + sum_list_with f k)%nat.
Proof. induction l; simpl; lia. Qed.

Lemma elem_of_mapM {A B} (f : A → option B) l k :
  mapM f l = Some k → ∀ y, y ∈ k ↔ ∃ x, x ∈ l ∧ f x = Some y.
Proof.
  intros Hl%mapM_Some y. induction Hl as [|x y' l k Hx _ IH].
  - split; [by intros ?%elem_of_nil|]. by intros (x & ?%elem_of_nil & _).
  - rewrite elem_of_cons, IH. setoid_rewrite elem_of_cons. naive_solver.
Qed.

Lemma mapM_total {A B} (f : A → option B) l k x : mapM f l = Some k → x ∈ l → ∃ y, f x = Some y.
Proof.
  intros Hl%mapM_Some. induction Hl as [|x' y l k Hx _ IH]; [by intros ?%elem_of_nil|].
  intros [->|?]%elem_of_cons; eauto.
Qed.

Lemma filter_single {A} (P : A → Prop) `{∀ x, Decision (P x)} (l : list A) i x :
  l !! i = Some x → P x → (∀ j y, j ≠ i → l !! j = Some y → ¬ P y) → filter P l = [x].
Proof.
  intros Hi Hx Hno. rewrite <- (take_drop_middle l i x Hi), filter_app, filter_cons_True by done.
  assert (∀ k, (∀ y, y ∈ k → ¬ P y) → filter P k = []) as Hnil.
  { induction k as [|y k IH]; intros Hk; [done|].
    rewrite filter_cons_False by (apply Hk; by left). apply IH. intros z Hz. apply Hk. by right. }
  rewrite !Hnil; [done| |].
  - intros y (j & Hj)%list_elem_of_lookup. rewrite lookup_drop in Hj. apply (Hno (S i + j)%nat); [lia|done].
  - intros y (j & Hj)%list_elem_of_lookup. apply lookup_take_Some in Hj as [Hj ?].
    apply (Hno j); [lia|done].
Qed.
