(* ===== verification/Paths.v ===== *)
(** * Paths

    [std::path::Path] as the program uses it.  [Path] compares, hashes and joins by components,
    so a path is the list of its components; the root of a mount is [[]].  Paths relative to a
    mount and absolute paths below the SSD root are both of this type, and [join] of a relative
    path is concatenation.  The text of a path (a database key, a [mount_id]) is represented by
    the path itself, which is exact for names that are valid UTF-8. *)
From S2P Require Import Prelude.

Abbreviation path := (list string).

Definition file_name (p : path) : option string := last p.

(** [path.parent().unwrap_or(Path::new(""))]. *)
Fixpoint parent (p : path) : path :=
  match p with
  | [] | [_] => []
  | c :: p' => c :: parent p'
  end.

Fixpoint strip_prefix (base p : path) : option path :=
  match base, p with
  | [], _ => Some p
  | c :: base', d :: p' => if decide (c = d) then strip_prefix base' p' else None
  | _ :: _, [] => None
  end.

(** [p.starts_with(base)]. *)
Definition starts_with (p base : path) : bool := bool_decide (is_Some (strip_prefix base p)).

(** A file name split at its last dot. *)
Fixpoint rsplit_dot (s : string) : option (string * string) :=
  match s with
  | EmptyString => None
  | String c s' =>
      match rsplit_dot s' with
      | Some (before, after) => Some (String c before, after)
      | None => if decide (c = "."%char) then Some (EmptyString, s') else None
      end
  end.

(** [Path::extension]: what follows the last dot, unless that dot starts the name. *)
Definition extension (p : path) : option string :=
  name ← file_name p;
  '(before, after) ← rsplit_dot name;
  if decide (before = ""%string) then None else Some after.

(** ** Paths from text

    Repeated and trailing slashes and [.] components do not count; joining an absolute path
    replaces. *)
Definition slash : ascii := "/"%char.

Definition components_of (s : string) : path :=
  filter (λ c, c ≠ ""%string ∧ c ≠ "."%string) (Text.split slash s).

Definition is_absolute (s : string) : bool := String.prefix "/" s.

Definition join_str (base : path) (s : string) : path :=
  if is_absolute s then components_of s else base ++ components_of s.

(** Text that is a single component of a path. *)
Definition plain (s : string) : Prop :=
  Text.all_chars (λ d, negb (bool_decide (slash = d))) s = true ∧
  s ≠ ""%string ∧ s ≠ "."%string ∧ s ≠ ".."%string.

(** ** Laws *)
Lemma components_of_plain s : plain s → components_of s = [s].
Proof. intros (Hs & ? & ? & _). unfold components_of. by rewrite split_none, filter_cons_True. Qed.

Lemma join_str_plain base s : plain s → join_str base s = base ++ [s].
Proof.
  intros Hs. unfold join_str. rewrite components_of_plain by done.
  destruct (is_absolute s) eqn:E; [|done]. destruct Hs as (Hs & _), s as [|c s]; [done|].
  apply andb_true_iff in Hs as [Hs _]. unfold is_absolute, String.prefix in E.
  destruct (ascii_dec _ c) as [<-|]; [by vm_compute in Hs|done].
Qed.

Lemma strip_prefix_Some base p s : strip_prefix base p = Some s ↔ p = base ++ s.
Proof.
  revert p. induction base as [|c base IH]; intros p; simpl; [split; congruence|].
  destruct p as [|d p]; [done|]. case_decide; [|split; congruence].
  subst. rewrite IH. split; congruence.
Qed.

Lemma strip_prefix_app base s : strip_prefix base (base ++ s) = Some s.
Proof. by apply strip_prefix_Some. Qed.

Lemma strip_prefix_refl p : strip_prefix p p = Some [].
Proof. apply strip_prefix_Some. by rewrite app_nil_r. Qed.

Lemma starts_with_true p base : starts_with p base = true ↔ ∃ s, p = base ++ s.
Proof.
  unfold starts_with. rewrite bool_decide_eq_true. unfold is_Some.
  setoid_rewrite strip_prefix_Some. done.
Qed.

Lemma parent_snoc p c : parent (p ++ [c]) = p.
Proof.
  induction p as [|d p IH]; [done|].
  change ((d :: p) ++ [c]) with (d :: (p ++ [c])).
  destruct (p ++ [c]) eqn:E; [by destruct p|]. rewrite <- E in *. simpl.
  rewrite E, <- E. by rewrite IH.
Qed.

Lemma file_name_snoc p c : file_name (p ++ [c]) = Some c.
Proof. apply last_snoc. Qed.

Lemma parent_file_name p c : file_name p = Some c → p = parent p ++ [c].
Proof.
  intros Hc. destruct p as [|d p _] using rev_ind; [done|].
  rewrite file_name_snoc in Hc. simplify_eq. by rewrite parent_snoc.
Qed.

Lemma length_parent p : p ≠ [] → length p = S (length (parent p)).
Proof.
  destruct p as [|c p _] using rev_ind; [done|]. intros _.
  rewrite parent_snoc, length_app. simpl. lia.
Qed.

Create Rewrite HintDb fsc_path.
#[export] Hint Rewrite strip_prefix_app parent_snoc file_name_snoc : fsc_path.
