(* ===== verification/Scheduler.v ===== *)
(** * The caching window

    [src/engine/scheduler.rs].  The local time of day comes from [localtime_r], a parameter. *)
From S2P Require Import Prelude Paths.

Record Scheduler := mkScheduler { start : Z * Z; end_ : Z * Z }.

(** The code's error messages are not compared; an error carries the text that was refused. *)
Abbreviation fallible A := (result string A).

Module Scheduler.
Import Text.

Definition parse_hhmm (s : string) : fallible (Z * Z) :=
  let '(hs, rest) := split_once ":"%char s in
  match parse_unsigned 255 hs with
  | None => Err s
  | Some h =>
      match rest with
      | None => Err s
      | Some ms =>
          match parse_unsigned 255 ms with
          | None => Err s
          | Some m => if (h <? 24) && (m <? 60) then Ok (h, m) else Err s
          end
      end
  end.

Definition new (start end_ : string) : fallible Scheduler :=
  a ← parse_hhmm start;
  b ← parse_hhmm end_;
  Ok (mkScheduler a b).

Definition is_allowed_at (sc : Scheduler) (h m : Z) : bool :=
  let now := h * 60 + m in
  let start := (start sc).1 * 60 + (start sc).2 in
  let end_ := (end_ sc).1 * 60 + (end_ sc).2 in
  if start <=? end_ then (start <=? now) && (now <? end_) else (start <=? now) || (now <? end_).

(** [localtime] gives the hour and minute of a Unix time in the local zone. *)
Definition is_caching_allowed (localtime : Z → Z * Z) (sc : Scheduler) (now : Z) : bool :=
  let '(h, m) := localtime now in is_allowed_at sc (as_u8 h) (as_u8 m).

(** ** What the window means

    Minutes on the 24-hour circle: allowed from [start] for as many minutes as it takes to
    reach [end_] going forward. *)
Definition minutes (t : Z * Z) : Z := t.1 * 60 + t.2.

Definition in_window (sc : Scheduler) (t : Z) : bool :=
  (t - minutes (start sc)) mod 1440 <? (minutes (end_ sc) - minutes (start sc)) mod 1440.

Definition in_day (t : Z * Z) : Prop := 0 <= t.1 < 24 ∧ 0 <= t.2 < 60.

(** A two-digit decimal. *)
Definition show_digit (n : Z) : ascii := ascii_of_nat (Z.to_nat (48 + n)).
Definition show2 (n : Z) : string := String (show_digit (n / 10)) (String (show_digit (n mod 10)) "").
Definition show_hhmm (t : Z * Z) : string := (show2 t.1 ++ String ":" (show2 t.2))%string.
End Scheduler.

Module SchedulerFacts.
Import Text Scheduler.

Lemma digit_range c d : digit c = Some d → 0 <= d <= 9.
Proof.
  unfold digit. destruct (_ && _) eqn:E; [|done]. intros [= <-]. to_prop. lia.
Qed.

Lemma parse_digits_nonneg max acc s n : 0 <= acc → parse_digits max acc s = Some n → 0 <= n.
Proof.
  revert acc. induction s as [|c s IH]; intros acc Hacc; simpl; [by intros [= <-]|].
  destruct (digit c) as [d|] eqn:Hd; [|done]. apply digit_range in Hd. simpl.
  case_match; [done|]. apply IH. lia.
Qed.

Lemma parse_unsigned_nonneg max s n : parse_unsigned max s = Some n → 0 <= n.
Proof.
  unfold parse_unsigned. destruct s as [|c s]; [done|].
  case_decide; [destruct s; [done|]|]; apply parse_digits_nonneg; lia.
Qed.

Lemma parse_hhmm_in_day s t : parse_hhmm s = Ok t → in_day t.
Proof.
  unfold parse_hhmm. destruct (split_once _ s) as [hs [ms|]];
    destruct (parse_unsigned 255 hs) as [h|] eqn:Hh; try done.
  destruct (parse_unsigned 255 ms) as [m|] eqn:Hm; [|done].
  apply parse_unsigned_nonneg in Hh, Hm. destruct (_ && _) eqn:E; [|done].
  intros [= <-]. to_prop. unfold in_day. simpl. lia.
Qed.

Lemma new_in_day a b sc : new a b = Ok sc → in_day (start sc) ∧ in_day (end_ sc).
Proof.
  unfold new, mbind, result_bind. destruct (parse_hhmm a) as [ta|] eqn:Ha; [|done].
  destruct (parse_hhmm b) as [tb|] eqn:Hb; [|done]. intros [= <-].
  split; eauto using parse_hhmm_in_day.
Qed.

Lemma allowed_in_window sc t :
  in_day (start sc) → in_day (end_ sc) → in_day t →
  is_allowed_at sc t.1 t.2 = in_window sc (minutes t).
Proof.
  unfold in_day, is_allowed_at, in_window, minutes. intros Hs He Ht.
  set (s := (start sc).1 * 60 + (start sc).2). set (e := (end_ sc).1 * 60 + (end_ sc).2).
  set (n := t.1 * 60 + t.2). assert (0 <= s < 1440) by lia. assert (0 <= e < 1440) by lia.
  assert (0 <= n < 1440) by lia.
  assert (Hmod : ∀ z, - 1440 < z < 1440 → z mod 1440 = if z <? 0 then z + 1440 else z).
  { intros z Hz. destruct (z <? 0) eqn:E; to_prop; [|apply Z.mod_small; lia].
    rewrite <- (Z.mod_add z 1) by lia. apply Z.mod_small. lia. }
  rewrite !Hmod by lia. apply eq_bool_prop_intro.
  destruct (s <=? e) eqn:E1, (n - s <? 0) eqn:E2, (e - s <? 0) eqn:E3;
    rewrite !Is_true_true; to_prop; lia.
Qed.
End SchedulerFacts.

Module SchedulerTheorems.
Import Text Scheduler SchedulerFacts.

(** The caching window is the arc of the 24-hour circle from its start to its end, whether
    or not it passes midnight: for a scheduler the configuration accepted, a minute of the day is
    allowed exactly when it is fewer minutes after the start than the end is; a window that ends
    when it starts is never open. *)
Theorem window_is_arc a b sc t :
  new a b = Ok sc → in_day t →
  is_allowed_at sc t.1 t.2 = in_window sc (minutes t) ∧
  (start sc = end_ sc → is_allowed_at sc t.1 t.2 = false).
Proof.
  intros Hnew Ht. destruct (new_in_day a b sc Hnew) as [Hs He].
  rewrite allowed_in_window by done. split; [done|]. intros Heq. unfold in_window.
  rewrite Heq, Z.sub_diag, Z.mod_0_l by lia. apply Z.ltb_ge. apply Z.mod_pos_bound. lia.
Qed.

Lemma window_is_arc_witness :
  new "22:00" "02:00" = Ok (mkScheduler (22, 0) (2, 0)) ∧
  is_allowed_at (mkScheduler (22, 0) (2, 0)) 1 59 = true.
Proof.
  split; [reflexivity|].
  destruct (window_is_arc "22:00" "02:00" (mkScheduler (22, 0) (2, 0)) (1, 59)) as [Ha _];
    [reflexivity|by unfold in_day; simpl; lia|]. etransitivity; [exact Ha|]. reflexivity.
Defined.

(** Times of day round-trip: every hour and minute, printed with two digits each, is parsed
    back, and whatever is parsed is a time of day. *)
Theorem hhmm_roundtrip t s :
  (in_day t → parse_hhmm (show_hhmm t) = Ok t) ∧ (parse_hhmm s = Ok t → in_day t).
Proof.
  split; [|apply parse_hhmm_in_day]. destruct t as [h m]. intros [Hh Hm]. simpl in Hh, Hm.
  assert (Hall : ∀ n : nat, (n < 1440)%nat →
    parse_hhmm (show_hhmm (Z.of_nat n / 60, Z.of_nat n mod 60)) = Ok (Z.of_nat n / 60, Z.of_nat n mod 60)).
  { assert (Hb : forallb (λ n, match parse_hhmm (show_hhmm (Z.of_nat n / 60, Z.of_nat n mod 60)) with
        | Ok t => bool_decide (t = (Z.of_nat n / 60, Z.of_nat n mod 60)) | Err _ => false end)
        (seq 0 1440) = true) by (vm_compute; reflexivity).
    intros n Hn. rewrite forallb_forall in Hb. specialize (Hb n).
    rewrite in_seq in Hb. specialize (Hb ltac:(lia)).
    destruct (parse_hhmm _) as [t'|]; [|done]. by apply bool_decide_eq_true in Hb as ->. }
  specialize (Hall (Z.to_nat (h * 60 + m)) ltac:(lia)). rewrite Z2Nat.id in Hall by lia.
  replace ((h * 60 + m) / 60) with h in Hall by (apply Z.div_unique with m; lia).
  replace ((h * 60 + m) mod 60) with m in Hall by (apply Z.mod_unique with h; lia). done.
Qed.

Lemma hhmm_roundtrip_witness : parse_hhmm "08:05" = Ok (8, 5).
Proof. apply (proj1 (hhmm_roundtrip (8, 5) "")). split; simpl; lia. Defined.
End SchedulerTheorems.
