(* ===== verification/Backing.v ===== *)
(** * The backing store

    [src/backing_store.rs] and the stat conversions of [src/cache/db.rs]: every operation is a
    call of the C library on the [O_PATH] descriptor of the directory below the mount, with its
    return code turned into an [io::Result].  The C library is the parameter [sys]. *)
From stdpp Require Import pretty.
From S2P Require Import Prelude Paths.

(** ** [libc::stat] and its constants *)
Record stat := mkStat {
  st_mode : Z; st_nlink : Z; st_uid : Z; st_gid : Z; st_rdev : Z;
  st_size : Z; st_blksize : Z; st_blocks : Z;
  st_atime : Z; st_atime_nsec : Z; st_mtime : Z; st_mtime_nsec : Z;
  st_ctime : Z; st_ctime_nsec : Z;
}.

Definition stat_zeroed : stat := mkStat 0 0 0 0 0 0 0 0 0 0 0 0 0 0.

Definition S_IFMT : Z := 61440.
Definition S_IFDIR : Z := 16384.
Definition S_IFREG : Z := 32768.
Definition S_IFLNK : Z := 40960.
Definition O_RDONLY : Z := 0.
Definition O_WRONLY : Z := 1.
Definition O_RDWR : Z := 2.
Definition O_ACCMODE : Z := 3.
Definition O_CREAT : Z := 64.
Definition O_EXCL : Z := 128.
Definition O_TRUNC : Z := 512.
Definition O_APPEND : Z := 1024.
Definition O_DIRECTORY : Z := 65536.
Definition O_CLOEXEC : Z := 524288.
Definition AT_SYMLINK_NOFOLLOW : Z := 256.
Definition AT_REMOVEDIR : Z := 512.
Definition AT_EMPTY_PATH : Z := 4096.
Definition EIO : Z := 5.
Definition EINVAL : Z := 22.

(** The ranges [libc::stat] has on the 64-bit targets. *)
Record stat_ok (s : stat) : Prop := {
  ok_mode : in_u32 (st_mode s); ok_nlink : in_u64 (st_nlink s); ok_uid : in_u32 (st_uid s);
  ok_gid : in_u32 (st_gid s); ok_rdev : in_u64 (st_rdev s); ok_size : in_i64 (st_size s);
  ok_blksize : in_i64 (st_blksize s); ok_blocks : in_i64 (st_blocks s);
  ok_atime : in_i64 (st_atime s); ok_atime_nsec : in_i64 (st_atime_nsec s);
  ok_mtime : in_i64 (st_mtime s); ok_mtime_nsec : in_i64 (st_mtime_nsec s);
  ok_ctime : in_i64 (st_ctime s); ok_ctime_nsec : in_i64 (st_ctime_nsec s);
}.

(** ** Source metadata snapshots *)
Record Fingerprint := mkFingerprint {
  source_mtime_secs : Z; source_mtime_nsecs : Z; fp_size_bytes : Z;
}.

Record SourceMetadata := mkSourceMetadata {
  size : Z; blocks : Z;
  atime_sec : Z; atime_nsec : Z; mtime_sec : Z; mtime_nsec : Z; ctime_sec : Z; ctime_nsec : Z;
  mode : Z; nlink : Z; uid : Z; gid : Z; rdev : Z; blksize : Z;
}.

#[export] Instance SourceMetadata_eq_dec : EqDecision SourceMetadata.
Proof. solve_decision. Defined.
#[export] Instance stat_eq_dec : EqDecision stat.
Proof. solve_decision. Defined.

Module SourceMetadata.
(** [std::fs::Metadata] holds the same C struct; its accessors cast the sizes. *)
Definition from_metadata (m : stat) : SourceMetadata := {|
  size := as_u64 (st_size m); blocks := as_u64 (st_blocks m);
  atime_sec := st_atime m; atime_nsec := st_atime_nsec m;
  mtime_sec := st_mtime m; mtime_nsec := st_mtime_nsec m;
  ctime_sec := st_ctime m; ctime_nsec := st_ctime_nsec m;
  mode := st_mode m; nlink := st_nlink m; uid := st_uid m; gid := st_gid m;
  rdev := st_rdev m; blksize := as_u32 (as_u64 (st_blksize m));
|}.

Definition from_stat (st : stat) : SourceMetadata := {|
  size := as_u64 (Z.max (st_size st) 0); blocks := as_u64 (Z.max (st_blocks st) 0);
  atime_sec := st_atime st; atime_nsec := st_atime_nsec st;
  mtime_sec := st_mtime st; mtime_nsec := st_mtime_nsec st;
  ctime_sec := st_ctime st; ctime_nsec := st_ctime_nsec st;
  mode := st_mode st; nlink := st_nlink st; uid := st_uid st; gid := st_gid st;
  rdev := st_rdev st; blksize := as_u32 (st_blksize st);
|}.

Definition has_snapshot (m : SourceMetadata) : bool := negb (mode m =? 0).

Definition attrs_match (a b : SourceMetadata) : bool :=
  (mode a =? mode b) && (uid a =? uid b) && (gid a =? gid b) && (nlink a =? nlink b)
  && (ctime_sec a =? ctime_sec b) && (ctime_nsec a =? ctime_nsec b).

(** The ranges of the Rust fields. *)
Record ok (m : SourceMetadata) : Prop := {
  sm_size : in_u64 (size m); sm_blocks : in_u64 (blocks m); sm_mode : in_u32 (mode m);
  sm_nlink : in_u64 (nlink m); sm_uid : in_u32 (uid m); sm_gid : in_u32 (gid m);
  sm_rdev : in_u64 (rdev m); sm_blksize : in_u32 (blksize m);
  sm_atime : in_i64 (atime_sec m); sm_atime_n : in_i64 (atime_nsec m);
  sm_mtime : in_i64 (mtime_sec m); sm_mtime_n : in_i64 (mtime_nsec m);
  sm_ctime : in_i64 (ctime_sec m); sm_ctime_n : in_i64 (ctime_nsec m);
}.
End SourceMetadata.

(** ** The C library *)
Inductive syscall :=
  | Fstatat (p : path) (flags : Z)
  | Openat (p : path) (flags mode : Z)
  | Close (fd : Z)
  | Fstat (fd : Z)
  | Ftruncate (fd length : Z)
  | Mkdirat (p : path) (mode : Z)
  | Unlinkat (p : path) (flags : Z)
  | Renameat (old new : path)
  | Renameat2 (old new : path) (flags : Z)
  | Linkat (old new : path)
  | Symlinkat (target : string) (p : path)
  | Mknodat (p : path) (mode rdev : Z)
  | Fchmodat (p : path) (mode : Z)
  | Fchownat (p : path) (uid gid flags : Z)
  | Utimensat (p : path) (atime mtime : Z * Z) (flags : Z)
  | Lsetxattr (p : path) (name value : string) (flags : Z)
  | Lgetxattr (p : path) (name : string) (size : Z)
  | Llistxattr (p : path) (size : Z)
  | Lremovexattr (p : path) (name : string)
  | Fdopendir (fd : Z)
  | Readdir (dir : Z)
  | Closedir (dir : Z)
  | Pwrite (fd : Z) (data : string) (offset : Z)
  | Pread (fd size offset : Z)
  | Fsync (fd : Z)
  | Fdatasync (fd : Z)
  | Readlinkat (p : path) (size : Z)
  | Faccessat (p : path) (mask : Z)
  | Open (p : path) (flags : Z)
  | Fchown (fd uid gid : Z)
  | Write (fd : Z) (data : string)
  | Fstatvfs (fd : Z)
  | Dup (fd : Z)
  | Rewinddir (dir : Z).

(** A return code with what the call left in [errno] and in its output arguments; [out_nums] are
    the [d_type] of a directory entry and the fields of [statvfs]. *)
Record reply := mkReply {
  rc : Z; errno : Z; out_stat : stat; out_bytes : string; out_nums : list Z;
}.

Definition nul : ascii := "000"%char.

Fixpoint string_mem (c : ascii) (s : string) : bool :=
  match s with
  | EmptyString => false
  | String d s' => if decide (c = d) then true else string_mem c s'
  end.

Fixpoint zero_bytes (n : nat) : string :=
  match n with O => EmptyString | S n' => String nul (zero_bytes n') end.

(** [CString::new]: refuses interior NUL bytes. *)
Definition cstring_new (s : string) : result io_error string :=
  if string_mem nul s then Err (OtherError "nul byte found in provided data") else Ok s.

Definition path_to_cstring (p : path) : result io_error path :=
  if existsb (string_mem nul) p then Err (OtherError "nul byte found in provided data") else Ok p.

(** [fuse/util.rs]: a relative path that is not a C string names the directory itself. *)
Definition rel_to_cstring (rel : path) : path :=
  if existsb (string_mem nul) rel then ["."%string] else rel.

Definition io_to_errno (e : io_error) : Z :=
  match e with OsError n => n | OtherError _ => EIO end.

(** [rc == 0] or the error in [errno]. *)
Definition syscall_unit (r : reply) : result io_error unit :=
  if rc r =? 0 then Ok tt else Err (OsError (errno r)).

Module BackingStore.
Section store.
Context {W : Type} (sys : syscall → State W reply) (fd : Z).

Definition unit_call (c : syscall) : State W (result io_error unit) :=
  r ← sys c; mret (syscall_unit r).

Definition stat (rel : path) : State W (option stat) :=
  r ← (if decide (rel = []) then sys (Fstatat [] AT_EMPTY_PATH)
       else sys (Fstatat (rel_to_cstring rel) AT_SYMLINK_NOFOLLOW));
  mret (if rc r =? 0 then Some (out_stat r) else None).

Definition open_file_with_flags (rel : path) (flags mode : Z) : State W (result io_error Z) :=
  r ← sys (Openat (rel_to_cstring rel) (Z.lor flags O_CLOEXEC) mode);
  mret (if rc r <? 0 then Err (OsError (errno r)) else Ok (rc r)).

Definition open_file (rel : path) : State W (result io_error Z) :=
  open_file_with_flags rel O_RDONLY 0.

Definition mkdir (rel : path) (mode : Z) := unit_call (Mkdirat (rel_to_cstring rel) mode).

Definition unlink_file (rel : path) := unit_call (Unlinkat (rel_to_cstring rel) 0).

Definition rmdir (rel : path) := unit_call (Unlinkat (rel_to_cstring rel) AT_REMOVEDIR).

(** The Linux build: flags need [renameat2]. *)
Definition rename (old new : path) (flags : Z) : State W (result io_error unit) :=
  let old := rel_to_cstring old in
  let new := rel_to_cstring new in
  if flags =? 0 then unit_call (Renameat old new) else unit_call (Renameat2 old new flags).

Definition link (old new : path) :=
  unit_call (Linkat (rel_to_cstring old) (rel_to_cstring new)).

Definition symlink (target : string) (link_rel : path) : State W (result io_error unit) :=
  match cstring_new target with
  | Err e => mret (Err e)
  | Ok target => unit_call (Symlinkat target (rel_to_cstring link_rel))
  end.

Definition mknod (rel : path) (mode rdev : Z) :=
  unit_call (Mknodat (rel_to_cstring rel) mode rdev).

Definition chmod (rel : path) (mode : Z) := unit_call (Fchmodat (rel_to_cstring rel) mode).

(** An absent owner is [!0], which the system call leaves alone. *)
Definition chown (rel : path) (uid gid : option Z) :=
  unit_call (Fchownat (rel_to_cstring rel) (default (2 ^ 32 - 1) uid) (default (2 ^ 32 - 1) gid)
                      AT_SYMLINK_NOFOLLOW).

Definition truncate (rel : path) (size : Z) : State W (result io_error unit) :=
  o ← open_file_with_flags rel O_WRONLY 0;
  match o with
  | Err e => mret (Err e)
  | Ok fd =>
      r ← sys (Ftruncate fd (as_i64 size));
      let err := if rc r =? 0 then None else Some (OsError (errno r)) in
      _ ← sys (Close fd);
      mret (match err with Some e => Err e | None => Ok tt end)
  end.

Definition utimens (rel : path) (atime mtime : Z * Z) :=
  unit_call (Utimensat (rel_to_cstring rel) atime mtime AT_SYMLINK_NOFOLLOW).

Definition backing_proc_path (rel : path) : path :=
  ["/"; "proc"; "self"; "fd"; pretty fd]%string ++ rel.

Definition setxattr (rel : path) (name value : string) (flags : Z) :
    State W (result io_error unit) :=
  match path_to_cstring (backing_proc_path rel), cstring_new name with
  | Ok p, Ok name => unit_call (Lsetxattr p name value flags)
  | Err e, _ | _, Err e => mret (Err e)
  end.

(** The buffer a sized query fills, cut to what the call reports; a zero size asks for the
    length, reported as that many zero bytes. *)
Definition xattr_reply (size : Z) (r : reply) : result io_error string :=
  if rc r <? 0 then Err (OsError (errno r))
  else if size =? 0 then Ok (zero_bytes (Z.to_nat (rc r)))
  else Ok (String.substring 0 (Z.to_nat (rc r)) (out_bytes r)).

Definition getxattr (rel : path) (name : string) (size : Z) : State W (result io_error string) :=
  match path_to_cstring (backing_proc_path rel), cstring_new name with
  | Ok p, Ok name => r ← sys (Lgetxattr p name size); mret (xattr_reply size r)
  | Err e, _ | _, Err e => mret (Err e)
  end.

Definition listxattr (rel : path) (size : Z) : State W (result io_error string) :=
  match path_to_cstring (backing_proc_path rel) with
  | Ok p => r ← sys (Llistxattr p size); mret (xattr_reply size r)
  | Err e => mret (Err e)
  end.

Definition removexattr (rel : path) (name : string) : State W (result io_error unit) :=
  match path_to_cstring (backing_proc_path rel), cstring_new name with
  | Ok p, Ok name => unit_call (Lremovexattr p name)
  | Err e, _ | _, Err e => mret (Err e)
  end.

Definition file_size (rel : path) : State W (option Z) :=
  o ← open_file rel;
  match o with
  | Err _ => mret None
  | Ok fd =>
      r ← sys (Fstat fd);
      let size := if rc r =? 0 then Some (as_u64 (st_size (out_stat r))) else None in
      _ ← sys (Close fd);
      mret size
  end.

Definition is_dir (rel : path) : State W bool :=
  s ← stat rel;
  mret (match s with Some s => Z.land (st_mode s) S_IFMT =? S_IFDIR | None => false end).

(** The [readdir] loop; [None] when [fuel] calls did not reach the end of the stream.  A
    directory entry is a reply with [rc = 1] and its name, the end one with [rc = 0]. *)
Fixpoint readdir_loop (fuel : nat) (dir : Z) (out : list string) : State W (option (list string)) :=
  match fuel with
  | O => mret None
  | S fuel' =>
      r ← sys (Readdir dir);
      if rc r =? 0 then mret (Some out)
      else if bool_decide (out_bytes r = "."%string) || bool_decide (out_bytes r = ".."%string)
      then readdir_loop fuel' dir out
      else readdir_loop fuel' dir (out ++ [out_bytes r])
  end.

Definition list_dir (fuel : nat) (rel_dir : path) : State W (option (list string)) :=
  let c_dir := if decide (rel_dir = []) then ["."%string] else rel_to_cstring rel_dir in
  o ← sys (Openat c_dir (Z.lor O_RDONLY O_DIRECTORY) 0);
  if rc o <? 0 then mret (Some [])
  else
    d ← sys (Fdopendir (rc o));
    if rc d =? 0 then _ ← sys (Close (rc o)); mret (Some [])
    else
      out ← readdir_loop fuel (rc d) [];
      match out with
      | None => mret None
      | Some out => _ ← sys (Closedir (rc d)); mret (Some out)
      end.
End store.
End BackingStore.

(** ** Descriptors

    The calls of an operation, recorded, and the descriptors and directory streams they leave
    open. *)
Inductive handle := FdHandle (fd : Z) | DirHandle (dir : Z).
#[export] Instance handle_eq_dec : EqDecision handle.
Proof. solve_decision. Defined.

Definition logged {W} (sys : syscall → State W reply) (c : syscall) :
    State (W * list (syscall * reply)) reply :=
  λ w, let '(r, w') := sys c w.1 in (r, (w', w.2 ++ [(c, r)])).

Definition handles_step (h : list handle) (e : syscall * reply) : list handle :=
  match e with
  | (Openat _ _ _, r) | (Open _ _, r) | (Dup _, r) => if rc r <? 0 then h else FdHandle (rc r) :: h
  | (Close fd, _) => filter (λ x, x ≠ FdHandle fd) h
  | (Fdopendir fd, r) =>
      if rc r =? 0 then h else DirHandle (rc r) :: filter (λ x, x ≠ FdHandle fd) h
  | (Closedir d, _) => filter (λ x, x ≠ DirHandle d) h
  | _ => h
  end.

Definition open_handles (tr : list (syscall * reply)) : list handle := foldl handles_step [] tr.

(** The names the stream [dir] will deliver from world [w]. *)
Fixpoint delivers {W} (sys : syscall → State W reply) (dir : Z) (w : W) (names : list string) : Prop :=
  let '(r, w') := sys (Readdir dir) w in
  match names with
  | [] => rc r = 0
  | n :: names' => rc r ≠ 0 ∧ out_bytes r = n ∧ delivers sys dir w' names'
  end.

(** ** Lemmas *)
Module BackingFacts.
Import BackingStore SourceMetadata.

Lemma from_stat_ok st : stat_ok st → ok (from_stat st).
Proof.
  intros []. split; simpl; auto with fsc. unfold as_u32. int_bounds. apply Z.mod_pos_bound. lia.
Qed.

(** Both snapshots of one inode agree: the sizes the kernel reports are never negative. *)
Lemma from_metadata_from_stat st :
  0 <= st_size st → 0 <= st_blocks st → in_i64 (st_blksize st) →
  from_metadata st = from_stat st.
Proof.
  intros Hs Hb Hk. unfold from_metadata, from_stat. rewrite !Z.max_l by lia. f_equal.
  unfold as_u32, as_u64. symmetry. rewrite (Z.div_mod (st_blksize st) (2 ^ 64)) at 1 by lia.
  replace (2 ^ 64) with (2 ^ 32 * 2 ^ 32) at 1 by lia.
  rewrite <- Z.mul_assoc, Z.add_comm, (Z.mul_comm (2 ^ 32)), Z.mod_add by lia. done.
Qed.

Lemma attrs_match_refl m : attrs_match m m = true.
Proof. unfold attrs_match. to_prop. tauto. Qed.

Lemma open_handles_app tr e : open_handles (tr ++ [e]) = handles_step (open_handles tr) e.
Proof. unfold open_handles. by rewrite foldl_app. Qed.

Section loop.
Context {W : Type} (sys : syscall → State W reply).

Lemma readdir_loop_handles fuel dir out w tr res w' tr' :
  readdir_loop (logged sys) fuel dir out (w, tr) = (res, (w', tr')) →
  open_handles tr' = open_handles tr.
Proof.
  revert out w tr. induction fuel as [|fuel IH]; intros out w tr; simpl.
  { by intros [= _ _ ->]. }
  unfold mbind, state_bind, logged at 1. simpl.
  destruct (sys (Readdir dir) w) as [r w1].
  destruct (rc r =? 0); [|case_match]; intros Heq.
  - injection Heq as _ _ <-. by rewrite open_handles_app.
  - apply IH in Heq. by rewrite Heq, open_handles_app.
  - apply IH in Heq. by rewrite Heq, open_handles_app.
Qed.

Definition not_dot (n : string) : Prop := n ≠ "."%string ∧ n ≠ ".."%string.
#[export] Instance not_dot_dec n : Decision (not_dot n).
Proof. unfold not_dot. apply _. Defined.

Lemma readdir_loop_delivers dir names out w :
  delivers sys dir w names →
  ∃ w', readdir_loop sys (S (length names)) dir out w = (Some (out ++ filter not_dot names), w').
Proof.
  revert out w. induction names as [|n names IH]; intros out w; cbn [delivers];
    cbn [readdir_loop length]; unfold mbind, state_bind;
    destruct (sys (Readdir dir) w) as [r w1] eqn:E.
  - intros ->. rewrite Z.eqb_refl, filter_nil, app_nil_r. by eexists.
  - intros (Hrc & <- & Hd). rewrite (proj2 (Z.eqb_neq _ _) Hrc). rewrite filter_cons.
    destruct (bool_decide (out_bytes r = ".") || bool_decide (out_bytes r = ".."))%string eqn:Hdot;
      to_prop.
    + rewrite decide_False by (unfold not_dot; tauto). by apply IH.
    + rewrite decide_True by (unfold not_dot; tauto).
      destruct (IH (out ++ [out_bytes r]) w1 Hd) as [w' Hw']. exists w'.
      rewrite <- app_assoc in Hw'. exact Hw'.
Qed.
End loop.
End BackingFacts.

(** ** Theorems *)
Module BackingTheorems.
Import BackingStore BackingFacts.
Section theorems.
Context {W : Type} (sys : syscall → State W reply) (fd : Z).

(** No descriptor leaks: whatever the system calls answer, the operations of the backing
    store that open something ([truncate], [file_size] and a [list_dir] that reached the end of
    its stream) have closed it when they return, on their error paths too. *)
Theorem backing_ops_release_descriptors rel size fuel w :
  (∀ res w' tr, truncate (logged sys) rel size (w, []) = (res, (w', tr)) → open_handles tr = []) ∧
  (∀ res w' tr, file_size (logged sys) rel (w, []) = (res, (w', tr)) → open_handles tr = []) ∧
  (∀ res w' tr, list_dir (logged sys) fuel rel (w, []) = (Some res, (w', tr)) →
     open_handles tr = []).
Proof.
  split_and!; intros res w' tr.
  - unfold truncate, open_file_with_flags, mbind, state_bind, logged. simpl.
    destruct (sys (Openat _ _ _) w) as [r w1]. cbn. destruct (rc r <? 0) eqn:E1; cbn.
    { intros [= _ _ <-]. cbn. by rewrite E1. }
    destruct (sys (Ftruncate _ _) w1) as [r2 w2]. cbn.
    destruct (sys (Close _) w2) as [r3 w3]. cbn. intros [= _ _ <-]. cbn.
    rewrite E1. by rewrite filter_cons_False by auto.
  - unfold file_size, open_file, open_file_with_flags, mbind, state_bind, logged. simpl.
    destruct (sys (Openat _ _ _) w) as [r w1]. cbn. destruct (rc r <? 0) eqn:E1; cbn.
    { intros [= _ _ <-]. cbn. by rewrite E1. }
    destruct (sys (Fstat _) w1) as [r2 w2]. cbn.
    destruct (sys (Close _) w2) as [r3 w3]. cbn. intros [= _ _ <-]. cbn.
    rewrite E1. by rewrite filter_cons_False by auto.
  - unfold list_dir, mbind, state_bind. simpl. unfold logged at 1. simpl.
    destruct (sys (Openat _ _ _) w) as [r w1]. simpl. destruct (rc r <? 0) eqn:E1.
    { intros [= _ _ <-]. cbn. by rewrite E1. }
    unfold logged at 1. simpl. destruct (sys (Fdopendir _) w1) as [r2 w2]. simpl.
    destruct (rc r2 =? 0) eqn:E2.
    { unfold logged. simpl. destruct (sys (Close _) w2) as [r3 w3]. intros [= _ _ <-]. cbn.
      rewrite E1, E2. by rewrite filter_cons_False by auto. }
    destruct (readdir_loop _ _ _ _ _) as [[out|] [w3 tr3]] eqn:Hloop; [|done].
    apply readdir_loop_handles in Hloop. unfold logged. simpl.
    destruct (sys (Closedir _) w3) as [r4 w4]. intros [= _ _ <-].
    rewrite open_handles_app, Hloop. cbn. rewrite E1, E2. cbn.
    by repeat (rewrite decide_False by auto; cbn).
Qed.
End theorems.

(** [list_dir] returns exactly the names the directory stream delivers, in order, without
    the two dot entries, and terminates within one call more than the stream has entries. *)
Theorem list_dir_returns_stream {W} (sys : syscall → State W reply) rel names w r1 w1 r2 w2 :
  let c_dir := if decide (rel = []) then ["."%string] else rel_to_cstring rel in
  sys (Openat c_dir (Z.lor O_RDONLY O_DIRECTORY) 0) w = (r1, w1) → 0 <= rc r1 →
  sys (Fdopendir (rc r1)) w1 = (r2, w2) → rc r2 ≠ 0 →
  delivers sys (rc r2) w2 names →
  fst (list_dir sys (S (length names)) rel w) = Some (filter not_dot names).
Proof.
  intros c_dir Hopen Hrc1 Hfd Hrc2 Hdel. unfold list_dir, mbind, state_bind. fold c_dir.
  rewrite Hopen. rewrite (proj2 (Z.ltb_ge _ _)) by done. rewrite Hfd.
  rewrite (proj2 (Z.eqb_neq _ _)) by done.
  destruct (readdir_loop_delivers sys (rc r2) names [] w2 Hdel) as [w3 ->]. simpl.
  by destruct (sys (Closedir _) w3).
Qed.

(** A kernel whose directory streams deliver the names left in the world. *)
Definition listing_kernel (c : syscall) : State (list string) reply := λ w,
  match c with
  | Readdir _ =>
      match w with
      | [] => (mkReply 0 0 stat_zeroed "" [], [])
      | n :: w' => (mkReply 1 0 stat_zeroed n [], w')
      end
  | _ => (mkReply 5 0 stat_zeroed "" [], w)
  end.

Lemma list_dir_returns_stream_witness :
  fst (list_dir listing_kernel 4 [] [".."; "a"; "b"]%string) = Some ["a"; "b"]%string.
Proof.
  apply (list_dir_returns_stream listing_kernel [] [".."; "a"; "b"]%string [".."; "a"; "b"]%string
           (mkReply 5 0 stat_zeroed "" []) [".."; "a"; "b"]%string
           (mkReply 5 0 stat_zeroed "" []) [".."; "a"; "b"]%string); simpl;
    repeat split; (reflexivity || lia || discriminate).
Defined.

Lemma list_dir_handles_witness :
  ∃ res w' tr, list_dir (logged listing_kernel) 4 [] (["a"]%string, []) = (Some res, (w', tr)) ∧
    open_handles tr = [].
Proof.
  do 3 eexists. split; [reflexivity|].
  apply (proj2 (proj2 (backing_ops_release_descriptors listing_kernel [] 0 4 ["a"]%string)) _ _ _ eq_refl).
Defined.
End BackingTheorems.
