(* ===== verification/Disk.v ===== *)
(** * The cache directory on the SSD

    The part of the file system the cache writes: regular files and directories by absolute
    path.  [undeletable] holds the entries on which the kernel refuses to act (permissions,
    immutable flags, I/O errors), so that every error branch of the code can happen.  The walks
    are those of [src/utils.rs] and [src/cache/db.rs]. *)
From S2P Require Import Prelude Paths.

Record file := mkFile {
  contents : string;
  f_mode : Z; f_uid : Z; f_gid : Z; f_atime : Z * Z; f_mtime : Z * Z;
}.

Inductive node := File (f : file) | Dir.

Record Disk := mkDisk { nodes : gmap path node; undeletable : gset path }.

Definition ENOENT : Z := 2.
Definition EACCES : Z := 13.
Definition EEXIST : Z := 17.
Definition ENOTDIR : Z := 20.
Definition EISDIR : Z := 21.

Module Disk.
Section ops.
Context `{MapOrder}.

Definition is_dir (d : Disk) (p : path) : bool :=
  if decide (p = []) then true else match nodes d !! p with Some Dir => true | _ => false end.

Definition path_exists (d : Disk) (p : path) : bool :=
  if decide (p = []) then true else bool_decide (is_Some (nodes d !! p)).

(** [fs::metadata(p).len()] of a regular file; directories report no meaningful length. *)
Definition file_len (d : Disk) (p : path) : option Z :=
  match nodes d !! p with
  | Some (File f) => Some (Z.of_nat (String.length (contents f)))
  | Some Dir => Some 0
  | None => None
  end.

Definition remove_file (d : Disk) (p : path) : result io_error Disk :=
  match nodes d !! p with
  | None => Err (OsError ENOENT)
  | Some Dir => Err (OsError EISDIR)
  | Some (File _) =>
      if decide (p ∈ undeletable d) then Err (OsError EACCES)
      else Ok (mkDisk (delete p (nodes d)) (undeletable d))
  end.

(** The result ignored: [let _ = fs::remove_file(p)]. *)
Definition try_remove (d : Disk) (p : path) : Disk :=
  match remove_file d p with Ok d' => d' | Err _ => d end.

(** The directories made before an error stay. *)
Fixpoint create_dirs (d : Disk) (base rest : path) : Disk * result io_error unit :=
  match rest with
  | [] => (d, Ok tt)
  | c :: rest' =>
      let p := base ++ [c] in
      match nodes d !! p with
      | Some Dir => create_dirs d p rest'
      | Some (File _) => (d, Err (OsError ENOTDIR))
      | None =>
          if decide (p ∈ undeletable d) then (d, Err (OsError EACCES))
          else create_dirs (mkDisk (<[p := Dir]> (nodes d)) (undeletable d)) p rest'
      end
  end.

Definition create_dir_all (d : Disk) (p : path) : Disk * result io_error unit := create_dirs d [] p.

(** [OpenOptions::new().write(true).create(true).truncate(true).open(p)]. *)
Definition open_truncate (d : Disk) (p : path) : result io_error Disk :=
  if decide (p ∈ undeletable d) then Err (OsError EACCES)
  else if is_dir d p then Err (OsError EISDIR)
  else if negb (is_dir d (parent p)) then Err (OsError ENOENT)
  else
    let f := match nodes d !! p with
             | Some (File f) => mkFile "" (f_mode f) (f_uid f) (f_gid f) (f_atime f) (f_mtime f)
             | _ => mkFile "" 420 0 0 (0, 0) (0, 0)
             end in
    Ok (mkDisk (<[p := File f]> (nodes d)) (undeletable d)).

(** A write through an open handle on [p]. *)
Definition append (d : Disk) (p : path) (chunk : string) : Disk :=
  mkDisk (alter (λ n, match n with
                      | File f => File (mkFile (contents f ++ chunk) (f_mode f) (f_uid f) (f_gid f)
                                               (f_atime f) (f_mtime f))
                      | Dir => Dir
                      end) p (nodes d)) (undeletable d).

Definition rename (d : Disk) (old new : path) : result io_error Disk :=
  match nodes d !! old with
  | None => Err (OsError ENOENT)
  | Some Dir => Err (OsError EACCES)
  | Some (File f) =>
      if decide (old ∈ undeletable d ∨ new ∈ undeletable d) then Err (OsError EACCES)
      else if is_dir d new then Err (OsError EISDIR)
      else if negb (is_dir d (parent new)) then Err (OsError ENOENT)
      else Ok (mkDisk (<[new := File f]> (delete old (nodes d))) (undeletable d))
  end.

(** [fs::read_dir]: the children, in the order the file system gives them. *)
Definition read_dir (d : Disk) (dir : path) : list path :=
  filter (λ p, p ≠ [] ∧ parent p = dir) (iter (nodes d)).*1.

(** No directory is deeper than this. *)
Definition depth (d : Disk) : nat := foldr (λ p n, Nat.max (length p) n) O (iter (nodes d)).*1.

(** ** [utils.rs] *)
Definition is_non_media_file (p : path) : bool :=
  let name := default "" (file_name p) in
  ends_with ".partial" name || ends_with ".db" name
  || ends_with ".db-wal" name || ends_with ".db-shm" name.

Fixpoint collect_cache_files_inner (d : Disk) (fuel : nat) (dir : path) : list path :=
  match fuel with
  | O => []
  | S fuel' =>
      if is_dir d dir then
        entry ← read_dir d dir;
        if is_dir d entry then collect_cache_files_inner d fuel' entry
        else if is_non_media_file entry then [] else [entry]
      else []
  end.

Definition collect_cache_files (d : Disk) (dir : path) : list path :=
  collect_cache_files_inner d (S (depth d)) dir.

(** ** [remove_partials] of [db.rs]: the count is of the files removed. *)
Definition is_partial (p : path) : bool := bool_decide (extension p = Some "partial"%string).

Fixpoint remove_partials_inner (fuel : nat) (d : Disk) (dir : path) : Disk * Z :=
  match fuel with
  | O => (d, 0)
  | S fuel' =>
      if is_dir d dir then
        foldl (λ '(d, count) entry,
          if is_dir d entry then
            let '(d', n) := remove_partials_inner fuel' d entry in (d', count + n)
          else if is_partial entry then
            match remove_file d entry with
            | Ok d' => (d', count + 1)
            | Err _ => (d, count)
            end
          else (d, count)) (d, 0) (read_dir d dir)
      else (d, 0)
  end.

Definition remove_partials (d : Disk) (dir : path) : Disk * Z :=
  remove_partials_inner (S (depth d)) d dir.

(** Every entry lies in a directory. *)
Definition wf (d : Disk) : Prop :=
  ∀ p n, nodes d !! p = Some n → p ≠ [] ∧ is_dir d (parent p) = true.
End ops.
End Disk.

(** ** Lemmas *)
Module DiskFacts.
Import Disk.
Section facts.
Context `{MapOrder}.
Implicit Types d : Disk.

Definition is_file d (p : path) : Prop := ∃ f, nodes d !! p = Some (File f).

Lemma is_dir_true d p : is_dir d p = true ↔ p = [] ∨ nodes d !! p = Some Dir.
Proof. unfold is_dir. case_decide; [naive_solver|]. destruct (nodes d !! p) as [[]|]; naive_solver. Qed.

Lemma is_dir_app d p s : s ≠ [] → is_dir d (p ++ s) = true ↔ nodes d !! (p ++ s) = Some Dir.
Proof. intros Hs. rewrite is_dir_true. split; [|auto]. by intros [[_ ?]%app_eq_nil|]. Qed.

Lemma is_dir_snoc d p c : is_dir d (p ++ [c]) = true ↔ nodes d !! (p ++ [c]) = Some Dir.
Proof. by apply is_dir_app. Qed.

Lemma is_dir_file d p : p ≠ [] → is_file d p → is_dir d p = false.
Proof. intros Hp [f Hf]. unfold is_dir. by rewrite decide_False, Hf. Qed.

Lemma elem_of_read_dir d dir k :
  k ∈ read_dir d dir ↔ ∃ c, k = dir ++ [c] ∧ is_Some (nodes d !! k).
Proof.
  unfold read_dir. rewrite list_elem_of_filter, elem_of_fst_iter. split.
  - intros [[Hk Hp] Hsome]. destruct k as [|c k _] using rev_ind; [done|].
    rewrite parent_snoc in Hp. subst. eauto.
  - intros (c & -> & Hsome). rewrite parent_snoc. split_and!; [by intros []%app_eq_nil|done|done].
Qed.

Lemma NoDup_read_dir d dir : NoDup (read_dir d dir).
Proof. apply NoDup_filter, NoDup_fst_iter. Qed.

Lemma depth_bound d p : is_Some (nodes d !! p) → (length p <= depth d)%nat.
Proof.
  intros Hp%elem_of_fst_iter. unfold depth. induction (iter (nodes d)).*1 as [|q l IH]; [by apply elem_of_nil in Hp|].
  apply elem_of_cons in Hp as [->|Hp]; simpl; [lia|]. apply IH in Hp. lia.
Qed.

(** What lies two levels down lies in a directory one level down. *)
Lemma wf_ancestor d dir c s n :
  wf d → s ≠ [] → nodes d !! (dir ++ c :: s) = Some n → nodes d !! (dir ++ [c]) = Some Dir.
Proof.
  intros Hwf. revert n. induction s as [|x s IH] using rev_ind; [done|]. intros n _ Hn.
  apply Hwf in Hn as [_ Hpar].
  replace (dir ++ c :: s ++ [x]) with ((dir ++ c :: s) ++ [x]) in Hpar by (by rewrite <- app_assoc).
  rewrite parent_snoc, is_dir_app in Hpar by done.
  destruct (decide (s = [])) as [->|Hs]; [done|eauto].
Qed.

Lemma wf_remove_file d p d' : wf d → remove_file d p = Ok d' → wf d'.
Proof.
  intros Hwf. unfold remove_file. destruct (nodes d !! p) as [[f|]|] eqn:Hp; try done.
  case_decide; [done|]. intros [= <-] q n. simpl. intros [Hne Hq]%lookup_delete_Some.
  destruct (Hwf q n Hq) as [Hq' Hdir]. split; [done|]. revert Hdir. rewrite !is_dir_true.
  intros [?|Hdir]; [by left|right]. simpl. rewrite lookup_delete_ne; congruence.
Qed.

Lemma remove_file_Ok d p d' :
  remove_file d p = Ok d' ↔
  is_file d p ∧ p ∉ undeletable d ∧ d' = mkDisk (delete p (nodes d)) (undeletable d).
Proof.
  unfold remove_file, is_file. destruct (nodes d !! p) as [[f|]|] eqn:Hp; try case_decide; naive_solver.
Qed.

(** *** The walk that lists the cached files *)
Lemma elem_of_collect_inner d n dir p :
  wf d →
  p ∈ collect_cache_files_inner d n dir ↔
  is_dir d dir = true ∧ is_file d p ∧ is_non_media_file p = false ∧
  ∃ s, p = dir ++ s ∧ s ≠ [] ∧ (length s <= n)%nat.
Proof.
  intros Hwf. revert dir. induction n as [|n IH]; intros dir; simpl.
  { rewrite elem_of_nil. split; [done|]. intros (_ & _ & _ & s & _ & Hs & Hlen).
    destruct s; simpl in *; [done|lia]. }
  destruct (is_dir d dir) eqn:Hdir; [|by rewrite elem_of_nil; split; [|intros []]].
  rewrite list_elem_of_bind. split.
  - intros (k & Hin & (c & -> & Hk)%elem_of_read_dir). destruct (is_dir d (dir ++ [c])) eqn:Hd.
    + apply IH in Hin as (_ & Hf & Hm & s & -> & Hs & Hlen). split_and!; try done.
      exists (c :: s). rewrite <- app_assoc. simpl. split_and!; [done|done|lia].
    + destruct (is_non_media_file (dir ++ [c])) eqn:Hm; [by apply elem_of_nil in Hin|].
      apply list_elem_of_singleton in Hin as ->. split_and!; [done| |done|].
      * destruct Hk as [[f|] Hk]; [by exists f|]. apply is_dir_snoc in Hk. congruence.
      * exists [c]. split_and!; [done|done|simpl; lia].
  - intros (_ & Hf & Hm & s & -> & Hs & Hlen). destruct s as [|c s]; [done|]. simpl in Hlen.
    exists (dir ++ [c]). rewrite elem_of_read_dir.
    destruct Hf as [f Hf]. destruct (decide (s = [])) as [->|Hs'].
    + rewrite (is_dir_file d (dir ++ [c])) by ((by intros []%app_eq_nil) || by exists f).
      rewrite Hm. split; [by left|eauto].
    + pose proof (wf_ancestor _ _ _ _ _ Hwf Hs' Hf) as Hc.
      rewrite (proj2 (is_dir_snoc d _ _) Hc). split; [|eauto].
      apply IH. rewrite is_dir_snoc. split_and!; [done|by exists f|done|].
      exists s. rewrite <- app_assoc. split_and!; [done|done|lia].
Qed.

Lemma NoDup_collect_inner d n dir : wf d → NoDup (collect_cache_files_inner d n dir).
Proof.
  intros Hwf. revert dir. induction n as [|n IH]; intros dir; simpl; [constructor|].
  case_match; [|constructor]. apply NoDup_bind; [|intros k _|apply NoDup_read_dir].
  - intros k1 k2 p (c1 & -> & _)%elem_of_read_dir (c2 & -> & _)%elem_of_read_dir.
    assert (Hpre : ∀ c, p ∈ (if is_dir d (dir ++ [c]) then collect_cache_files_inner d n (dir ++ [c])
        else if is_non_media_file (dir ++ [c]) then [] else [dir ++ [c]]) → ∃ s, p = dir ++ c :: s).
    { intros c. destruct (is_dir d (dir ++ [c])).
      - intros (_ & _ & _ & s & -> & _)%elem_of_collect_inner; [|done].
        exists s. by rewrite <- app_assoc.
      - destruct (is_non_media_file (dir ++ [c])); [by intros ?%elem_of_nil|].
        intros ->%list_elem_of_singleton. by exists []. }
    intros [s1 ->]%Hpre [s2 [= -> _]%app_inv_head]%Hpre. done.
  - case_match; [apply IH|]. case_match; [constructor|apply NoDup_singleton].
Qed.

(** [depth] is enough fuel: the walk finds every file. *)
Lemma elem_of_collect d dir p :
  wf d →
  p ∈ collect_cache_files d dir ↔
  is_dir d dir = true ∧ is_file d p ∧ is_non_media_file p = false ∧ ∃ s, p = dir ++ s ∧ s ≠ [].
Proof.
  intros Hwf. unfold collect_cache_files. rewrite elem_of_collect_inner by done.
  split; [intros (?&?&?&s&?&?&?)|intros (?&Hf&?&s&->&?)]; split_and!; try done; exists s;
    split_and!; try done.
  destruct Hf as [f Hf]. pose proof (depth_bound d (dir ++ s)) as Hb.
  rewrite length_app, Hf in Hb. specialize (Hb ltac:(eauto)). lia.
Qed.

Lemma NoDup_collect d dir : wf d → NoDup (collect_cache_files d dir).
Proof. apply NoDup_collect_inner. Qed.
(** *** The walk that removes interrupted copies *)
Definition partial_below d (n : nat) (k p : path) : bool :=
  match nodes d !! p, strip_prefix k p with
  | Some (File _), Some s =>
      is_partial p && bool_decide (p ∉ undeletable d) && bool_decide (length s <= n)%nat
  | _, _ => false
  end.

Definition removes d d' (P : path → bool) : Prop :=
  undeletable d' = undeletable d ∧ ∀ p, nodes d' !! p = if P p then None else nodes d !! p.

Lemma partial_below_is_file d n k p : partial_below d n k p = true → is_file d p.
Proof. unfold partial_below, is_file. destruct (nodes d !! p) as [[f|]|]; eauto; done. Qed.

Lemma wf_removes d d' P :
  wf d → removes d d' P → (∀ p, P p = true → is_file d p) → wf d'.
Proof.
  intros Hwf [_ Hd] HP p n Hp. rewrite Hd in Hp. destruct (P p); [done|].
  destruct (Hwf p n Hp) as [Hne Hdir]. split; [done|]. revert Hdir. rewrite !is_dir_true, Hd.
  intros [?|Hdir]; [by left|right]. destruct (P (parent p)) eqn:E; [|done].
  apply HP in E as [f Hf]. congruence.
Qed.

Lemma partial_below_removes d d' n k P p :
  removes d d' P → P p = false → partial_below d' n k p = partial_below d n k p.
Proof. intros [Hu Hd] HP. unfold partial_below. by rewrite Hu, Hd, HP. Qed.

(** What one call removes, and how many: the part of the specification that is inductive. *)
Definition removal_ok d d' (count : Z) (P : path → bool) : Prop :=
  removes d d' P ∧ count = Z.of_nat (size (nodes d)) - Z.of_nat (size (nodes d')).

Lemma removal_ok_nothing d P : (∀ p, P p = false) → removal_ok d d 0 P.
Proof. intros HP. split; [split; [done|]|lia]. intros p. by rewrite HP. Qed.

Lemma wf_file_leaf d k s n : wf d → is_file d k → nodes d !! (k ++ s) = Some n → s = [].
Proof.
  intros Hwf [f Hf] Hn. destruct s as [|c s]; [done|exfalso].
  destruct k as [|x k _] using rev_ind; [by apply Hwf in Hf as []|].
  rewrite <- app_assoc in Hn. apply wf_ancestor in Hn; [congruence|done|done].
Qed.

(** A file is the only thing at or below its own path. *)
Lemma partial_below_file d k n p :
  wf d → is_file d k →
  partial_below d n k p = bool_decide (p = k) && is_partial k && bool_decide (k ∉ undeletable d).
Proof.
  intros Hwf Hf. unfold partial_below. destruct (decide (p = k)) as [->|Hne].
  - rewrite strip_prefix_refl, (bool_decide_true (k = k)), (bool_decide_true (_ <= _)%nat)
      by (done || simpl; lia).
    destruct Hf as [f ->]. by rewrite andb_true_r.
  - rewrite (bool_decide_false (p = k)) by done. simpl.
    destruct (nodes d !! p) as [[g|]|] eqn:Hp; try done.
    destruct (strip_prefix k p) as [s|] eqn:Hs; [|done].
    apply strip_prefix_Some in Hs as ->. apply wf_file_leaf in Hp; [|done..].
    subst. by rewrite app_nil_r in Hne.
Qed.

Lemma removal_ok_file d k n count :
  wf d → is_file d k →
  let '(d', count') := (if is_partial k then match remove_file d k with
    | Ok d' => (d', count + 1) | Err _ => (d, count) end else (d, count)) in
  removal_ok d d' (count' - count) (partial_below d n k).
Proof.
  intros Hwf Hf. destruct (is_partial k) eqn:Hp.
  2:{ rewrite Z.sub_diag. apply removal_ok_nothing. intros p.
      rewrite partial_below_file, Hp by done. by rewrite andb_false_r. }
  destruct (remove_file d k) as [d'|e] eqn:Hr.
  - replace (count + 1 - count) with 1 by lia.
    apply remove_file_Ok in Hr as (_ & Hu & ->). destruct Hf as [f Hf]. split; [split; [done|]|].
    + intros p. rewrite partial_below_file, Hp, (bool_decide_true (k ∉ _)) by (done || by exists f).
      rewrite !andb_true_r. simpl. case_bool_decide; subst; [apply lookup_delete_eq|].
      by rewrite lookup_delete_ne.
    + simpl. rewrite map_size_delete_Some by eauto.
      assert (size (nodes d) ≠ 0)%nat; [|lia].
      intros Hz%map_size_empty_inv. by rewrite Hz in Hf.
  - rewrite Z.sub_diag. apply removal_ok_nothing. intros p.
    rewrite partial_below_file by done. rewrite (bool_decide_false (k ∉ _)); [apply andb_false_r|].
    intros Hu. assert (remove_file d k = Ok (mkDisk (delete k (nodes d)) (undeletable d)));
      [by apply remove_file_Ok|congruence].
Qed.

Lemma removal_ok_ext d d' c P Q : (∀ p, P p = Q p) → removal_ok d d' c P → removal_ok d d' c Q.
Proof.
  intros HPQ [[Hu Hd] Hc]. split; [split; [done|]|done]. intros p. by rewrite <- HPQ.
Qed.

Lemma removal_ok_wf d d' c n k : wf d → removal_ok d d' c (partial_below d n k) → wf d'.
Proof. intros Hwf [Hr _]. eapply wf_removes; eauto using partial_below_is_file. Qed.

Lemma removal_ok_seq d d1 d2 c1 c2 P (Q1 Q : path → bool) :
  removal_ok d d1 c1 P → removal_ok d1 d2 c2 Q1 → (∀ p, P p = false → Q1 p = Q p) →
  removal_ok d d2 (c1 + c2) (λ p, P p || Q p).
Proof.
  intros [[Hu1 H1] ->] [[Hu2 H2] ->] HQ. split; [|lia]. split; [congruence|]. intros p.
  rewrite H2, H1. destruct (P p) eqn:HP; simpl; [by destruct (Q1 p)|]. by rewrite HQ.
Qed.

(** One entry of a directory. *)
Definition partial_step (n : nat) : Disk * Z → path → Disk * Z :=
  λ '(d, count) entry,
    if is_dir d entry then
      let '(d', c) := remove_partials_inner n d entry in (d', count + c)
    else if is_partial entry then
      match remove_file d entry with
      | Ok d' => (d', count + 1)
      | Err _ => (d, count)
      end
    else (d, count).

Lemma partial_below_absent d n k p :
  wf d → is_dir d k = false → nodes d !! k = None → partial_below d n k p = false.
Proof.
  intros Hwf Hdir Hk. unfold partial_below. destruct (nodes d !! p) as [[g|]|] eqn:Hp; try done.
  destruct (strip_prefix k p) as [s|] eqn:Hs; [|done]. apply strip_prefix_Some in Hs as ->. exfalso.
  destruct s as [|c s]; [rewrite app_nil_r in Hp; congruence|].
  destruct k as [|x k _] using rev_ind; [done|].
  rewrite <- app_assoc in Hp. apply wf_ancestor in Hp; [congruence|done|done].
Qed.

Section step.
Context (n : nat) (IH : ∀ d k, wf d → is_dir d k = true →
  removal_ok d (remove_partials_inner n d k).1 (remove_partials_inner n d k).2 (partial_below d n k)).

Lemma partial_step_ok d c k :
  wf d → removal_ok d (partial_step n (d, c) k).1 ((partial_step n (d, c) k).2 - c)
           (partial_below d n k).
Proof.
  intros Hwf. unfold partial_step. destruct (is_dir d k) eqn:Hdir.
  { specialize (IH d k Hwf Hdir). destruct (remove_partials_inner n d k) as [d' c']. simpl in *.
    by replace (c + c' - c) with c' by lia. }
  destruct (nodes d !! k) as [[f|]|] eqn:Hk.
  - pose proof (removal_ok_file d k n c Hwf ltac:(by exists f)) as Hok. by repeat case_match.
  - by rewrite (proj2 (is_dir_true d k)) in Hdir by auto.
  - unfold remove_file. rewrite Hk. replace (_.2 - c) with 0 by (case_match; simpl; lia).
    replace (_.1) with d by (by case_match). apply removal_ok_nothing.
    intros p. by apply partial_below_absent.
Qed.

Lemma partial_fold_ok ks d c :
  wf d →
  removal_ok d (foldl (partial_step n) (d, c) ks).1 ((foldl (partial_step n) (d, c) ks).2 - c)
    (λ p, existsb (λ k, partial_below d n k p) ks).
Proof.
  revert d c. induction ks as [|k ks IHks]; intros d c Hwf; cbn [foldl existsb].
  { simpl. rewrite Z.sub_diag. by apply removal_ok_nothing. }
  pose proof (partial_step_ok d c k Hwf) as H1.
  destruct (partial_step n (d, c) k) as [d1 c1]. cbn [fst snd] in H1.
  pose proof (IHks d1 c1 (removal_ok_wf _ _ _ _ _ Hwf H1)) as H2.
  destruct (foldl (partial_step n) (d1, c1) ks) as [d2 c2]. cbn [fst snd] in *.
  replace (c2 - c) with ((c1 - c) + (c2 - c1)) by lia.
  eapply removal_ok_seq; [done..|]. intros p Hp. simpl. clear IHks H2.
  induction ks as [|k' ks IHk]; simpl; [done|].
  by rewrite IHk, (partial_below_removes d d1 n k' _ p (proj1 H1) Hp).
Qed.
End step.

Lemma partial_below_children d n dir p :
  wf d → is_dir d dir = true →
  existsb (λ k, partial_below d n k p) (read_dir d dir) = partial_below d (S n) dir p.
Proof.
  intros Hwf Hdir. apply eq_bool_prop_intro. rewrite !Is_true_true, existsb_exists. split.
  - intros (k & (c & -> & _)%list_elem_of_In%elem_of_read_dir & Hk). revert Hk.
    unfold partial_below. destruct (nodes d !! p) as [[f|]|]; try done.
    destruct (strip_prefix (dir ++ [c]) p) as [s|] eqn:Hs; [|done].
    apply strip_prefix_Some in Hs as ->. rewrite <- app_assoc, strip_prefix_app.
    simpl. rewrite !andb_true_iff, !bool_decide_eq_true. intros [? ?]. split; [done|lia].
  - unfold partial_below. destruct (nodes d !! p) as [[f|]|] eqn:Hp; try done.
    destruct (strip_prefix dir p) as [s|] eqn:Hs; [|done]. apply strip_prefix_Some in Hs as ->.
    rewrite !andb_true_iff, !bool_decide_eq_true. intros [[? ?] Hlen].
    destruct s as [|c s].
    { rewrite app_nil_r in Hp. apply is_dir_true in Hdir as [->|]; [|congruence].
      by apply Hwf in Hp as []. }
    exists (dir ++ [c]). rewrite <- list_elem_of_In, elem_of_read_dir. split.
    + exists c. split; [done|]. destruct (decide (s = [])) as [->|]; [eauto|].
      erewrite wf_ancestor by done. eauto.
    + replace (dir ++ c :: s) with ((dir ++ [c]) ++ s) in * by (by rewrite <- app_assoc).
      rewrite strip_prefix_app, !andb_true_iff, !bool_decide_eq_true. simpl in Hlen.
      split; [done|lia].
Qed.

Lemma remove_partials_inner_ok n d dir :
  wf d → is_dir d dir = true →
  removal_ok d (remove_partials_inner n d dir).1 (remove_partials_inner n d dir).2
    (partial_below d n dir).
Proof.
  revert d dir. induction n as [|n IH]; intros d dir Hwf Hdir; simpl.
  - apply removal_ok_nothing. intros p. unfold partial_below.
    destruct (nodes d !! p) as [[f|]|] eqn:Hp; try done.
    destruct (strip_prefix dir p) as [[|c s]|] eqn:Hs; [|by rewrite !andb_false_r|done].
    apply strip_prefix_Some in Hs. rewrite app_nil_r in Hs. subst.
    apply is_dir_true in Hdir as [->|]; [|congruence]. by apply Hwf in Hp as [].
  - rewrite Hdir. pose proof (partial_fold_ok n IH (read_dir d dir) d 0 Hwf) as Hok.
    rewrite Z.sub_0_r in Hok. eapply removal_ok_ext, Hok.
    intros p. by apply partial_below_children.
Qed.

(** [depth] is enough fuel: no partial file below [dir] is left, save those that resist. *)
Lemma remove_partials_ok d dir :
  wf d → is_dir d dir = true →
  removal_ok d (remove_partials d dir).1 (remove_partials d dir).2
    (λ p, match nodes d !! p with
          | Some (File _) => starts_with p dir && is_partial p && bool_decide (p ∉ undeletable d)
          | _ => false
          end).
Proof.
  intros Hwf Hdir. eapply removal_ok_ext, remove_partials_inner_ok; [|done..].
  intros p. unfold partial_below, starts_with. destruct (nodes d !! p) as [[f|]|] eqn:Hp; try done.
  destruct (strip_prefix dir p) as [s|] eqn:Hs.
  - rewrite (bool_decide_true (is_Some _)) by eauto.
    rewrite (bool_decide_true (_ <= _)%nat), andb_true_r; [done|].
    apply strip_prefix_Some in Hs as ->. pose proof (depth_bound d (dir ++ s)) as Hb.
    rewrite length_app, Hp in Hb. specialize (Hb ltac:(eauto)). lia.
  - by rewrite bool_decide_false by (intros [? [=]]).
Qed.

Lemma remove_partials_spec d dir d1 :
  wf d → is_dir d dir = true → (remove_partials d dir).1 = d1 →
  wf d1 ∧ is_dir d1 dir = true ∧ undeletable d1 = undeletable d ∧
  ∀ p, nodes d1 !! p =
    match nodes d !! p with
    | Some (File _) => if starts_with p dir && is_partial p && bool_decide (p ∉ undeletable d)
                       then None else nodes d !! p
    | n => n
    end.
Proof.
  intros Hwf Hdir <-. destruct (remove_partials_ok d dir Hwf Hdir) as [Hrem _].
  set (d1 := (remove_partials d dir).1) in *.
  assert (Hlook : ∀ p, nodes d1 !! p =
    match nodes d !! p with
    | Some (File _) => if starts_with p dir && is_partial p && bool_decide (p ∉ undeletable d)
                       then None else nodes d !! p
    | n => n
    end).
  { intros p. rewrite (proj2 Hrem p). by destruct (nodes d !! p) as [[f|]|]. }
  split_and!; [| |apply Hrem|done].
  - eapply wf_removes; [done..|]. intros p. cbn beta.
    destruct (nodes d !! p) as [[f|]|] eqn:E; try done. by exists f.
  - apply is_dir_true. apply is_dir_true in Hdir as [->|Hd]; [by left|right].
    by rewrite Hlook, Hd.
Qed.

Lemma collected_lookup {A} d dir rel (x : A) :
  wf d → is_dir d dir = true →
  (if decide (dir ++ rel ∈ collect_cache_files d dir) then Some x else None) =
  match nodes d !! (dir ++ rel) with
  | Some (File _) => if is_non_media_file (dir ++ rel) then None else Some x
  | _ => None
  end.
Proof.
  intros Hwf Hdir. case_decide as Hin.
  - apply elem_of_collect in Hin as (_ & [f ->] & -> & _); done.
  - destruct (nodes d !! (dir ++ rel)) as [[f|]|] eqn:E; try done.
    destruct (is_non_media_file _) eqn:Hm; [done|]. destruct Hin.
    apply elem_of_collect; [done|]. split_and!; [done|by exists f|done|].
    exists rel. split; [done|]. intros ->. rewrite app_nil_r in E.
    apply is_dir_true in Hdir as [->|]; [|congruence]. by apply Hwf in E as [].
Qed.

(** *** Changes that leave the rest of the disk alone *)
Definition only_changes (P : path → Prop) d d' : Prop :=
  undeletable d' = undeletable d ∧ ∀ p, ¬ P p → nodes d' !! p = nodes d !! p.

Lemma only_changes_refl P d : only_changes P d d.
Proof. done. Qed.

Lemma only_changes_trans P d1 d2 d3 :
  only_changes P d1 d2 → only_changes P d2 d3 → only_changes P d1 d3.
Proof. intros [U1 H1] [U2 H2]. split; [congruence|]. intros p Hp. rewrite H2, H1; done. Qed.

Lemma only_changes_weaken (P Q : path → Prop) d d' :
  (∀ p, P p → Q p) → only_changes P d d' → only_changes Q d d'.
Proof. intros HPQ [U Hd]. split; [done|]. intros p Hp. apply Hd. auto. Qed.

Lemma try_remove_changes d p : only_changes (λ q, q = p) d (try_remove d p).
Proof.
  unfold try_remove, remove_file. destruct (nodes d !! p) as [[f|]|]; try done.
  case_decide; [done|]. split; [done|]. intros q Hq. simpl. by rewrite lookup_delete_ne.
Qed.

Lemma try_remove_gone d p :
  p ∉ undeletable d → nodes d !! p ≠ Some Dir → nodes (try_remove d p) !! p = None.
Proof.
  intros Hu Hd. unfold try_remove, remove_file. destruct (nodes d !! p) as [[f|]|] eqn:E; [|done|done].
  rewrite decide_False by done. apply lookup_delete_eq.
Qed.

(** The directories made are on the way to the target, and were missing. *)
Definition new_dir_on d (target p : path) : Prop :=
  nodes d !! p = None ∧ starts_with target p = true.

Lemma create_dirs_changes d base rest :
  let d' := (create_dirs d base rest).1 in
  only_changes (new_dir_on d (base ++ rest)) d d' ∧
  (∀ p, nodes d' !! p = nodes d !! p ∨ nodes d' !! p = Some Dir).
Proof.
  revert d base. induction rest as [|c rest IH]; intros d base; simpl; [split; [done|by left]|].
  replace (base ++ c :: rest) with ((base ++ [c]) ++ rest) by (by rewrite <- app_assoc).
  destruct (nodes d !! (base ++ [c])) as [[f|]|] eqn:E; [by split; [|left]|apply IH|].
  case_decide as Hu; [by split; [|left]|].
  destruct (IH (mkDisk (<[base ++ [c] := Dir]> (nodes d)) (undeletable d)) (base ++ [c])) as [[HU HI] HD].
  split; [split; [done|]|].
  - intros p Hp. rewrite HI; simpl.
    + rewrite lookup_insert_ne; [done|]. intros <-. apply Hp. split; [done|].
      apply starts_with_true. eauto.
    + intros [Hn Hs]. apply Hp. split; [|done]. simpl in Hn.
      by apply lookup_insert_None in Hn as [? _].
  - intros p. destruct (HD p) as [->|]; [|by right]. simpl.
    destruct (decide (base ++ [c] = p)) as [<-|]; [right; apply lookup_insert_eq|left].
    by rewrite lookup_insert_ne.
Qed.
End facts.
End DiskFacts.
