(* ===== verification/Inode.v ===== *)
(** * The FUSE inode table

    [src/fuse/inode.rs]: the bidirectional map between the inode numbers handed to the kernel
    and mount-relative paths, with the kernel's lookup counts. *)
From S2P Require Import Prelude Paths.

Definition ROOT_INO : Z := 1.

Record InodeEntry := mkInodeEntry { entry_path : path; refcount : Z }.

Record InodeTable := mkInodeTable {
  by_ino : gmap Z InodeEntry;
  by_path : gmap path Z;
  next_ino : Z;
}.

Module InodeTable.
Section ops.
Context `{MapOrder}.

Definition new : InodeTable := {|
  by_ino := {[ROOT_INO := mkInodeEntry [] (2 ^ 64 - 1)]};
  by_path := {[([] : path) := ROOT_INO]};
  next_ino := 2;
|}.

Definition get_path (t : InodeTable) (ino : Z) : option path :=
  entry_path <$> by_ino t !! ino.

Definition get_path_ino (t : InodeTable) (p : path) : option Z := by_path t !! p.

Definition remove_path (t : InodeTable) (p : path) : InodeTable :=
  if decide (p = []) then t else
  match by_path t !! p with
  | Some ino =>
      mkInodeTable (delete ino (by_ino t)) (delete p (by_path t)) (next_ino t)
  | None => t
  end.

(** One entry moves to a new path: [by_path.remove], the entry's path, [by_path.insert]. *)
Definition move_path (old new : path) (t : InodeTable) : InodeTable :=
  match by_path t !! old with
  | Some ino =>
      mkInodeTable
        (alter (λ e, mkInodeEntry new (refcount e)) ino (by_ino t))
        (<[new := ino]> (delete old (by_path t)))
        (next_ino t)
  | None => t
  end.

Definition descendants (t : InodeTable) (old : path) : list path :=
  filter (λ p, starts_with p old = true ∧ p ≠ old) (iter (by_path t)).*1.

Definition move_descendant (old new : path) (t : InodeTable) (child : path) : InodeTable :=
  match strip_prefix old child with
  | Some suffix => move_path child (new ++ suffix) t
  | None => t
  end.

Definition rename_path (t : InodeTable) (old new : path) : InodeTable :=
  if decide (old = []) then t else
  let t1 := move_path old new (remove_path t new) in
  foldl (move_descendant old new) t1 (descendants t1 old).

Definition remove_subtree (t : InodeTable) (p : path) : InodeTable :=
  if decide (p = []) then t else
  foldl remove_path t (filter (λ q, starts_with q p = true) (iter (by_path t)).*1).

(** [None] is the panic of [by_ino.get_mut(&ino).unwrap()]. *)
Definition get_or_create (t : InodeTable) (p : path) : option (InodeTable * Z) :=
  match by_path t !! p with
  | Some ino =>
      e ← by_ino t !! ino;
      let e' := mkInodeEntry (entry_path e) (saturating_add_u64 (refcount e) 1) in
      Some (mkInodeTable (<[ino := e']> (by_ino t)) (by_path t) (next_ino t), ino)
  | None =>
      let ino := next_ino t in
      Some (mkInodeTable (<[ino := mkInodeEntry p 1]> (by_ino t))
                         (<[p := ino]> (by_path t)) (u64_add (next_ino t) 1), ino)
  end.

Definition forget (t : InodeTable) (ino nlookup : Z) : InodeTable :=
  if decide (ino = ROOT_INO) then t else
  match by_ino t !! ino with
  | Some e =>
      let e' := mkInodeEntry (entry_path e) (saturating_sub (refcount e) nlookup) in
      if refcount e' =? 0
      then mkInodeTable (delete ino (by_ino t)) (delete (entry_path e) (by_path t)) (next_ino t)
      else mkInodeTable (<[ino := e']> (by_ino t)) (by_path t) (next_ino t)
  | None => t
  end.

(** ** The table as a state machine

    The calls the FUSE handlers make on the shared table. *)
Inductive op :=
  | GetOrCreate (p : path)
  | Forget (ino nlookup : Z)
  | RemovePath (p : path)
  | RemoveSubtree (p : path)
  | RenamePath (old new : path).

Definition apply_op (t : InodeTable) (o : op) : option InodeTable :=
  match o with
  | GetOrCreate p => fst <$> get_or_create t p
  | Forget ino n => Some (forget t ino n)
  | RemovePath p => Some (remove_path t p)
  | RemoveSubtree p => Some (remove_subtree t p)
  | RenamePath old new => Some (rename_path t old new)
  end.

Fixpoint run (t : InodeTable) (ops : list op) : option InodeTable :=
  match ops with
  | [] => Some t
  | o :: ops' => t' ← apply_op t o; run t' ops'
  end.

(** A rename target is a name in a directory, never the mount root. *)
Definition op_ok (o : op) : Prop :=
  match o with RenamePath _ new => new ≠ [] | _ => True end.
End ops.

(** ** Well-formedness *)
Record wf (t : InodeTable) : Prop := {
  wf_path : ∀ p i, by_path t !! p = Some i → ∃ e, by_ino t !! i = Some e ∧ entry_path e = p;
  wf_root : by_path t !! [] = Some ROOT_INO;
  wf_only_root : ∀ i e, by_ino t !! i = Some e → entry_path e = [] → i = ROOT_INO;
  wf_fresh : ∀ i e, by_ino t !! i = Some e → 1 <= i < next_ino t;
}.

(** ** The kernel's side of the protocol

    [K] counts the lookup replies the kernel holds for each inode number.  A lookup (or create,
    or link) reply adds one; a forget gives back at most what is held; a rename onto a free name
    leaves the counts alone. *)
Inductive kstep `{MapOrder} : InodeTable * gmap Z Z → InodeTable * gmap Z Z → Prop :=
  | kstep_lookup t K p t' i :
      get_or_create t p = Some (t', i) →
      kstep (t, K) (t', <[i := default 0 (K !! i) + 1]> K)
  | kstep_forget t K i c n :
      K !! i = Some c → 0 <= n <= c →
      kstep (t, K) (forget t i n, if c =? n then delete i K else <[i := c - n]> K)
  | kstep_rename t K old new :
      new ≠ [] → by_path t !! new = None →
      kstep (t, K) (rename_path t old new, K).

(** Every inode the kernel holds is also reachable by its path. *)
Definition bijective (t : InodeTable) : Prop :=
  ∀ i e, by_ino t !! i = Some e → by_path t !! entry_path e = Some i.
End InodeTable.

(** ** Preservation *)
Module InodeFacts.
Import InodeTable.
Section facts.
Context `{MapOrder}.
Implicit Types t : InodeTable.

Lemma wf_new : wf new.
Proof.
  split; simpl.
  - intros p i [<- <-]%lookup_singleton_Some. eexists. by rewrite lookup_singleton_eq.
  - apply lookup_singleton_eq.
  - by intros i e [<- <-]%lookup_singleton_Some.
  - intros i e [<- _]%lookup_singleton_Some. unfold ROOT_INO. lia.
Qed.

Lemma wf_inj t p q i : wf t → by_path t !! p = Some i → by_path t !! q = Some i → p = q.
Proof.
  intros Hwf (e & He & <-)%(wf_path t Hwf) (e' & He' & <-)%(wf_path t Hwf). congruence.
Qed.

Lemma wf_remove_path t p : wf t → wf (remove_path t p).
Proof.
  intros Hwf. unfold remove_path. case_decide; [done|].
  destruct (by_path t !! p) as [ino|] eqn:Hp; [|done]. split; simpl.
  - intros q i [Hne Hq]%lookup_delete_Some. rewrite lookup_delete_ne; [by apply Hwf|].
    intros ->. eauto using wf_inj.
  - rewrite lookup_delete_ne by done. apply Hwf.
  - intros i e [_ He]%lookup_delete_Some. eapply Hwf; eauto.
  - intros i e [_ He]%lookup_delete_Some. eapply Hwf; eauto.
Qed.

Lemma wf_move_path t old new :
  wf t → old ≠ [] → new ≠ [] → wf (move_path old new t).
Proof.
  intros Hwf Hold Hnew. unfold move_path.
  destruct (by_path t !! old) as [ino|] eqn:Hp; [|done].
  destruct (wf_path t Hwf _ _ Hp) as (e & He & Hep). split; simpl.
  - intros q i [[<- <-]|[Hne [Hne' Hq]%lookup_delete_Some]]%lookup_insert_Some.
    + rewrite lookup_alter_eq, He. simpl. eauto.
    + rewrite lookup_alter_ne; [by apply Hwf|]. intros ->. eauto using wf_inj.
  - rewrite lookup_insert_ne, lookup_delete_ne by done. apply Hwf.
  - intros i e' [(<- & e0 & He0 & ->)|[_ He']]%lookup_alter_Some Hnil; [done|].
    eapply Hwf; eauto.
  - intros i e' [(<- & e0 & He0 & _)|[_ He']]%lookup_alter_Some;
      eapply Hwf; eauto.
Qed.

Lemma wf_fold_remove t l : wf t → wf (foldl remove_path t l).
Proof. revert t. induction l; simpl; auto using wf_remove_path. Qed.

Lemma wf_remove_subtree t p : wf t → wf (remove_subtree t p).
Proof.
  intros Hwf. unfold remove_subtree. case_decide; auto using wf_fold_remove.
Qed.

Lemma wf_move_descendants t old new l :
  wf t → old ≠ [] → new ≠ [] → wf (foldl (move_descendant old new) t l).
Proof.
  intros Hwf Hold Hnew. revert t Hwf. induction l as [|c l IH]; intros t Hwf; simpl; [done|].
  apply IH. unfold move_descendant. destruct (strip_prefix old c) as [s|] eqn:Hs; [|done].
  apply strip_prefix_Some in Hs as ->.
  apply wf_move_path; [done|..]; intros [??]%app_eq_nil; congruence.
Qed.

Lemma wf_rename_path t old new : wf t → new ≠ [] → wf (rename_path t old new).
Proof.
  intros Hwf Hnew. unfold rename_path. case_decide; [done|].
  apply wf_move_descendants; [|done..].
  apply wf_move_path; [|done..]. by apply wf_remove_path.
Qed.

(** Changing the lookup count of an inode. *)
Lemma wf_set_refcount t ino e c :
  wf t → by_ino t !! ino = Some e →
  wf (mkInodeTable (<[ino := mkInodeEntry (entry_path e) c]> (by_ino t)) (by_path t) (next_ino t)).
Proof.
  intros Hwf He. split; simpl.
  - intros q i Hq. destruct (wf_path t Hwf _ _ Hq) as (e' & He' & <-).
    destruct (decide (ino = i)) as [->|].
    + rewrite lookup_insert_eq. simplify_eq. eauto.
    + rewrite lookup_insert_ne by done. eauto.
  - apply Hwf.
  - intros i e' [[<- <-]|[_ He']]%lookup_insert_Some; simpl; eauto using wf_only_root.
  - intros i e' [[<- _]|[_ He']]%lookup_insert_Some; eauto using wf_fresh.
Qed.

Lemma wf_forget t ino n : wf t → wf (forget t ino n).
Proof.
  intros Hwf. unfold forget. case_decide as Hroot; [done|].
  destruct (by_ino t !! ino) as [e|] eqn:He; [|done].
  case_match; [|by apply wf_set_refcount]. split; simpl.
  - intros q i [Hne Hq]%lookup_delete_Some.
    destruct (wf_path t Hwf _ _ Hq) as (e' & He' & <-).
    rewrite lookup_delete_ne; [eauto|]. congruence.
  - rewrite lookup_delete_ne; [apply Hwf|]. intros Hnil.
    by eapply Hroot, (wf_only_root t Hwf).
  - intros i e' [_ He']%lookup_delete_Some. eapply Hwf; eauto.
  - intros i e' [_ He']%lookup_delete_Some. eapply Hwf; eauto.
Qed.

(** The step of the table that can panic does not. *)
Lemma get_or_create_total t p :
  wf t → next_ino t < 2 ^ 64 - 1 →
  ∃ t' i, get_or_create t p = Some (t', i) ∧ wf t' ∧ next_ino t' <= next_ino t + 1.
Proof.
  intros Hwf Hbound. unfold get_or_create. destruct (by_path t !! p) as [i|] eqn:Hp.
  - destruct (wf_path t Hwf _ _ Hp) as (e & He & <-). rewrite He. simpl.
    do 2 eexists. split; [done|]. split; [by apply wf_set_refcount|simpl; lia].
  - assert (Hpos : 2 <= next_ino t).
    { destruct (wf_path t Hwf _ _ (wf_root t Hwf)) as (e & He & _).
      apply (wf_fresh t Hwf) in He. unfold ROOT_INO in *. lia. }
    assert (Hadd : u64_add (next_ino t) 1 = next_ino t + 1) by (apply u64_add_small; lia).
    assert (Hnone : by_ino t !! next_ino t = None).
    { destruct (by_ino t !! next_ino t) eqn:E; [|done]. apply (wf_fresh t Hwf) in E. lia. }
    do 2 eexists. split; [done|]. split; [|simpl; lia]. split; simpl; rewrite ?Hadd.
    + intros q j [[<- <-]|[Hne Hq]]%lookup_insert_Some.
      * rewrite lookup_insert_eq. eauto.
      * destruct (wf_path t Hwf _ _ Hq) as (e' & He' & <-).
        rewrite lookup_insert_ne; [eauto|]. congruence.
    + rewrite lookup_insert_ne; [apply Hwf|]. intros ->. by rewrite (wf_root t Hwf) in Hp.
    + intros j e' [[<- <-]|[_ He']]%lookup_insert_Some; [|eapply Hwf; eauto].
      simpl. intros ->. by rewrite (wf_root t Hwf) in Hp.
    + intros j e' [[<- _]|[_ He']]%lookup_insert_Some; [lia|].
      apply (wf_fresh t Hwf) in He'. lia.
Qed.

Lemma next_ino_fold {A} (f : InodeTable → A → InodeTable) l t :
  (∀ t x, next_ino (f t x) = next_ino t) → next_ino (foldl f t l) = next_ino t.
Proof. intros Hf. revert t. induction l; intros t; simpl; [done|]. by rewrite IHl, Hf. Qed.

Lemma next_ino_remove_path t p : next_ino (remove_path t p) = next_ino t.
Proof. unfold remove_path. by step_cases. Qed.

Lemma next_ino_move_path old new t : next_ino (move_path old new t) = next_ino t.
Proof. unfold move_path. by step_cases. Qed.

Lemma next_ino_move_descendant old new t c :
  next_ino (move_descendant old new t c) = next_ino t.
Proof. unfold move_descendant. case_match; auto using next_ino_move_path. Qed.

Lemma next_ino_rename_path t old new : next_ino (rename_path t old new) = next_ino t.
Proof.
  unfold rename_path. case_decide; [done|].
  rewrite next_ino_fold by apply next_ino_move_descendant.
  by rewrite next_ino_move_path, next_ino_remove_path.
Qed.

Lemma next_ino_forget t i n : next_ino (forget t i n) = next_ino t.
Proof. unfold forget. by step_cases. Qed.

Lemma next_ino_remove_subtree t p : next_ino (remove_subtree t p) = next_ino t.
Proof.
  unfold remove_subtree. case_decide; auto using next_ino_fold, next_ino_remove_path.
Qed.

Lemma apply_op_total t o :
  wf t → op_ok o → next_ino t < 2 ^ 64 - 1 →
  ∃ t', apply_op t o = Some t' ∧ wf t' ∧ next_ino t' <= next_ino t + 1.
Proof.
  intros Hwf Hok Hb. destruct o as [p|i n|p|p|old new]; simpl.
  - destruct (get_or_create_total t p) as (t' & i & -> & ? & ?); [done..|]. simpl. eauto.
  - eexists; split_and!; [done|by apply wf_forget|rewrite next_ino_forget; lia].
  - eexists; split_and!; [done|by apply wf_remove_path|rewrite next_ino_remove_path; lia].
  - eexists; split_and!; [done|by apply wf_remove_subtree|rewrite next_ino_remove_subtree; lia].
  - eexists; split_and!; [done|by apply wf_rename_path|rewrite next_ino_rename_path; lia].
Qed.

Lemma run_total ops t :
  wf t → Forall op_ok ops → next_ino t + Z.of_nat (length ops) < 2 ^ 64 →
  ∃ t', run t ops = Some t' ∧ wf t'.
Proof.
  intros Hwf Hok. revert t Hwf. induction Hok as [|o ops Ho _ IH]; intros t Hwf Hlen.
  { by exists t. }
  simpl in *. destruct (apply_op_total t o) as (t' & -> & Hwf' & Hle); [done..|lia|].
  simpl. apply IH; [done|lia].
Qed.
(** *** Renaming

    One moved entry, seen through [by_path], [by_ino] and the bijection. *)
Lemma remove_path_lookup t p q :
  p ≠ [] → by_path (remove_path t p) !! q = if decide (q = p) then None else by_path t !! q.
Proof.
  intros Hp. unfold remove_path. rewrite decide_False by done.
  destruct (by_path t !! p) as [j|] eqn:E; simpl; case_decide; subst; try done.
  - apply lookup_delete_eq.
  - by rewrite lookup_delete_ne.
Qed.

Lemma move_path_lookup t old new q :
  old ≠ new → is_Some (by_path t !! old) ∨ by_path t !! new = None →
  by_path (move_path old new t) !! q =
    if decide (q = new) then by_path t !! old
    else if decide (q = old) then None else by_path t !! q.
Proof.
  intros Hne Hor. unfold move_path. destruct (by_path t !! old) as [ino|] eqn:Hino; simpl.
  - case_decide as Hq; [subst; by rewrite lookup_insert_eq|].
    rewrite lookup_insert_ne by done. case_decide; [subst; apply lookup_delete_eq|].
    by rewrite lookup_delete_ne.
  - destruct Hor as [[? ?]|Hnew]; [congruence|]. repeat case_decide; congruence.
Qed.

Lemma move_path_refcount t old new i :
  refcount <$> by_ino (move_path old new t) !! i = refcount <$> by_ino t !! i.
Proof.
  unfold move_path. case_match; [simpl|done].
  match goal with |- context [alter _ ?j _ !! _] => destruct (decide (j = i)) as [->|] end.
  - rewrite lookup_alter_eq. by destruct (by_ino t !! i).
  - by rewrite lookup_alter_ne.
Qed.

Lemma bijective_move_path t old new :
  wf t → bijective t → by_path t !! new = None → bijective (move_path old new t).
Proof.
  intros Hwf Hbij Hnew. unfold move_path.
  destruct (by_path t !! old) as [ino|] eqn:Hold; [|done].
  intros i e He; simpl in *.
  apply lookup_alter_Some in He as [(<- & e0 & He0 & ->)|[Hne He]]; simpl.
  - apply lookup_insert_eq.
  - apply Hbij in He. rewrite lookup_insert_ne, lookup_delete_ne; congruence.
Qed.

Lemma bijective_remove_path t p : wf t → bijective t → bijective (remove_path t p).
Proof.
  intros Hwf Hbij. unfold remove_path. case_decide; [done|].
  destruct (by_path t !! p) as [ino|] eqn:Hp; [|done].
  intros i e He; simpl in *. apply lookup_delete_Some in He as [Hne He]. apply Hbij in He.
  rewrite lookup_delete_ne; congruence.
Qed.

Section subtree.
Context (old new : path) (Hold : old ≠ []) (Hnew : new ≠ []).
Context (Hdisj : ∀ s s', new ++ s ≠ old ++ s').

Lemma move_descendant_app t s :
  move_descendant old new t (old ++ s) = move_path (old ++ s) (new ++ s) t.
Proof. unfold move_descendant. by rewrite strip_prefix_app. Qed.

(** Moving the children with suffixes [ss]: the new names are filled, the old ones emptied. *)
Lemma fold_move_lookup ss t q :
  NoDup ss → (∀ s, s ∈ ss → is_Some (by_path t !! (old ++ s))) →
  by_path (foldl (move_descendant old new) t (app old <$> ss)) !! q =
    match strip_prefix new q, strip_prefix old q with
    | Some s, _ => if decide (s ∈ ss) then by_path t !! (old ++ s) else by_path t !! q
    | None, Some s => if decide (s ∈ ss) then None else by_path t !! q
    | None, None => by_path t !! q
    end.
Proof.
  intros Hnd. revert t. induction Hnd as [|s ss Hs Hnd IH]; intros t Hin; simpl.
  { by repeat case_match. }
  rewrite move_descendant_app. rewrite IH; clear IH.
  2:{ intros s' Hs'. rewrite move_path_lookup by (auto; left; apply Hin; left).
      rewrite decide_False by auto. rewrite decide_False by (intros ?%app_inv_head; congruence).
      apply Hin. by right. }
  assert (Hlook := λ q, move_path_lookup t (old ++ s) (new ++ s) q
    (not_eq_sym (Hdisj s s)) (or_introl (Hin s (list_elem_of_here _ _)))).
  destruct (strip_prefix new q) as [s'|] eqn:E1;
    [|destruct (strip_prefix old q) as [s'|] eqn:E2].
  - apply strip_prefix_Some in E1 as ->. rewrite !Hlook.
    rewrite (decide_False (P := old ++ s' = new ++ s)) by auto.
    rewrite (decide_False (P := new ++ s' = old ++ s)) by auto.
    destruct (decide (s' = s)) as [->|Hne].
    + rewrite (decide_True (P := s ∈ s :: ss)) by left.
      rewrite decide_False by done. by rewrite decide_True.
    + assert (old ++ s' ≠ old ++ s) by (intros ?%app_inv_head; done).
      assert (new ++ s' ≠ new ++ s) by (intros ?%app_inv_head; done).
      rewrite !(decide_False (P := old ++ s' = _)), !(decide_False (P := new ++ s' = _)) by done.
      destruct (decide (s' ∈ ss)); [rewrite decide_True by (by right)|rewrite decide_False by (rewrite elem_of_cons; tauto)];
        done.
  - apply strip_prefix_Some in E2 as ->. rewrite !Hlook.
    rewrite (decide_False (P := old ++ s' = new ++ s)) by auto.
    destruct (decide (s' = s)) as [->|Hne].
    + rewrite (decide_True (P := s ∈ s :: ss)) by left.
      rewrite decide_False by done. by rewrite decide_True.
    + assert (old ++ s' ≠ old ++ s) by (intros ?%app_inv_head; done).
      rewrite (decide_False (P := old ++ s' = _)) by done.
      destruct (decide (s' ∈ ss)); [rewrite decide_True by (by right)|rewrite decide_False by (rewrite elem_of_cons; tauto)];
        done.
  - rewrite Hlook. rewrite !decide_False; [done|..]; intros ->;
      rewrite strip_prefix_app in *; done.
Qed.

Lemma fold_move_bijective ss t :
  NoDup ss → wf t → bijective t →
  (∀ s, s ∈ ss → is_Some (by_path t !! (old ++ s)) ∧ by_path t !! (new ++ s) = None) →
  bijective (foldl (move_descendant old new) t (app old <$> ss)).
Proof.
  intros Hnd. revert t. induction Hnd as [|s ss Hs Hnd IH]; intros t Hwf Hbij Hin; simpl; [done|].
  rewrite move_descendant_app. destruct (Hin s) as [Hsome Hnone]; [left|]. apply IH.
  - apply wf_move_path; [done|..]; intros [??]%app_eq_nil; congruence.
  - by apply bijective_move_path.
  - intros s' Hs'. destruct (Hin s') as [Hsome' Hnone']; [by right|].
    assert (s' ≠ s) by congruence.
    assert (old ++ s' ≠ old ++ s) by (intros ?%app_inv_head; done).
    assert (new ++ s' ≠ new ++ s) by (intros ?%app_inv_head; done).
    rewrite !move_path_lookup by auto.
    by rewrite !decide_False by auto.
Qed.

Lemma fold_move_refcount l t i :
  refcount <$> by_ino (foldl (move_descendant old new) t l) !! i = refcount <$> by_ino t !! i.
Proof.
  revert t. induction l as [|c l IH]; intros t; simpl; [done|].
  rewrite IH. unfold move_descendant. case_match; auto using move_path_refcount.
Qed.

(** The children collected before the loop, as suffixes. *)
Lemma descendants_suffixes t :
  ∃ ss, descendants t old = app old <$> ss ∧ NoDup ss ∧
    ∀ s, s ∈ ss ↔ s ≠ [] ∧ is_Some (by_path t !! (old ++ s)).
Proof.
  assert (Hnd : NoDup (descendants t old)) by apply NoDup_filter, NoDup_fst_iter.
  assert (Hel : ∀ p, p ∈ descendants t old ↔ (∃ s, p = old ++ s) ∧ p ≠ old ∧ is_Some (by_path t !! p)).
  { intros p. unfold descendants. rewrite list_elem_of_filter, elem_of_fst_iter, starts_with_true.
    tauto. }
  assert (Hss : ∃ ss, descendants t old = app old <$> ss).
  { assert (Hall : ∀ p, p ∈ descendants t old → ∃ s, p = old ++ s) by (intros p ?%Hel; tauto).
    clear Hnd Hel. induction (descendants t old) as [|p l IH]; [by exists []|].
    destruct (Hall p) as [s ->]; [left|]. destruct IH as [ss ->]; [intros; apply Hall; by right|].
    by exists (s :: ss). }
  destruct Hss as [ss Hss]. exists ss. rewrite Hss in *. split_and!; [done|..].
  - by eapply NoDup_fmap_1.
  - intros s. assert (Hs : s ∈ ss ↔ old ++ s ∈ app old <$> ss).
    { rewrite list_elem_of_fmap. split; [eauto|]. by intros (s' & ->%app_inv_head & ?). }
    rewrite Hs, Hel; clear Hs. split; [intros ([s' Heq] & Hne & Hs)|intros [Hne Hs]].
    + split; [|done]. intros ->. by rewrite app_nil_r in Hne.
    + split_and!; [eauto| |done]. intros Heq. rewrite <- (app_nil_r old) in Heq at 2.
      by apply app_inv_head in Heq.
Qed.
End subtree.
Lemma rename_path_refcount t old new i :
  by_path t !! new = None →
  refcount <$> by_ino (rename_path t old new) !! i = refcount <$> by_ino t !! i.
Proof.
  intros Hnew. unfold rename_path. case_decide; [done|].
  rewrite fold_move_refcount, move_path_refcount.
  unfold remove_path. case_decide; [done|]. by rewrite Hnew.
Qed.

Lemma forget_refcount t i c j :
  j ≠ ROOT_INO →
  refcount <$> by_ino (forget t i c) !! j =
    if decide (i = j)
    then n ← refcount <$> by_ino t !! j;
         if saturating_sub n c =? 0 then None else Some (saturating_sub n c)
    else refcount <$> by_ino t !! j.
Proof.
  intros Hj. unfold forget. destruct (decide (i = ROOT_INO)) as [->|Hi].
  { by rewrite decide_False. }
  destruct (decide (i = j)) as [->|Hne].
  - destruct (by_ino t !! j) as [e|] eqn:He; simpl; [|by rewrite He].
    case_match; simpl; [by rewrite lookup_delete_eq|by rewrite lookup_insert_eq].
  - destruct (by_ino t !! i) as [e|] eqn:He; simpl; [|done].
    case_match; simpl; [by rewrite lookup_delete_ne|by rewrite lookup_insert_ne].
Qed.

Lemma get_or_create_refcount t p t' i j :
  wf t → next_ino t < 2 ^ 64 - 1 → get_or_create t p = Some (t', i) →
  refcount <$> by_ino t' !! j =
    if decide (i = j)
    then Some (default 1 ((λ n, saturating_add_u64 n 1) <$> (refcount <$> by_ino t !! j)))
    else refcount <$> by_ino t !! j.
Proof.
  intros Hwf Hb. unfold get_or_create. destruct (by_path t !! p) as [k|] eqn:Hp; simpl.
  - destruct (by_ino t !! k) as [e|] eqn:He; intros [= <- <-]; simpl.
    destruct (decide (k = j)) as [->|]; [|by rewrite lookup_insert_ne].
    by rewrite lookup_insert_eq, He.
  - intros [= <- <-]; simpl. case_decide as Hj; [|by rewrite lookup_insert_ne].
    rewrite Hj, lookup_insert_eq. simpl. destruct (by_ino t !! j) as [e|] eqn:He; [|done].
    apply (wf_fresh t Hwf) in He. lia.
Qed.

(** The counts the table and the kernel keep agree, in every reachable pair. *)
Record agree (n : nat) (t : InodeTable) (K : gmap Z Z) : Prop := {
  agree_wf : wf t;
  agree_next : next_ino t <= 2 + Z.of_nat n;
  agree_bound : ∀ i c, K !! i = Some c → 0 < c <= Z.of_nat n;
  agree_count : ∀ i, i ≠ ROOT_INO → refcount <$> by_ino t !! i = K !! i;
}.

Lemma agree_new : agree 0 new ∅.
Proof.
  split; [apply wf_new|simpl; lia|done|].
  intros i Hi. simpl. by rewrite lookup_singleton_ne by done.
Qed.

Lemma agree_step n t K t' K' :
  Z.of_nat n < 2 ^ 64 - 3 → agree n t K → kstep (t, K) (t', K') → agree (S n) t' K'.
Proof.
  intros Hn [Hwf Hnext HK Hc] Hstep.
  inversion Hstep as [? ? p t1 i Hgoc|? ? i c k Hi Hk|? ? old new0 Hnew Hfree]; subst.
  - destruct (get_or_create_total t p) as (t2 & i2 & Heq & Hwf2 & Hle); [done|lia|].
    rewrite Hgoc in Heq. injection Heq as <- <-. split; [done|lia|..].
    + intros j c [[-> <-]|[_ Hj%HK]]%lookup_insert_Some; [|lia].
      destruct (K !! j) eqn:E; simpl; [apply HK in E|]; lia.
    + intros j Hj. rewrite (get_or_create_refcount t p t' i j) by (done || lia).
      rewrite Hc by done. destruct (decide (i = j)) as [->|];
        [rewrite lookup_insert_eq|by rewrite lookup_insert_ne].
      destruct (K !! j) as [c|] eqn:E; [|done]. apply HK in E.
      cbn. unfold saturating_add_u64. f_equal. lia.
  - split.
    + by apply wf_forget.
    + rewrite next_ino_forget. lia.
    + apply HK in Hi. intros j c'. case_match; to_prop.
      * intros [_ ?%HK]%lookup_delete_Some. lia.
      * intros [[<- <-]|[_ ?%HK]]%lookup_insert_Some; lia.
    + intros j Hj. rewrite forget_refcount, Hc by done.
      destruct (decide (i = j)) as [->|].
      * rewrite Hi. simpl. apply HK in Hi. unfold saturating_sub.
        destruct (c =? k) eqn:E; to_prop.
        -- rewrite lookup_delete_eq. case_match; to_prop; [done|lia].
        -- rewrite lookup_insert_eq. case_match; to_prop; [lia|]. f_equal. lia.
      * case_match; [by rewrite lookup_delete_ne|by rewrite lookup_insert_ne].
  - split; [by apply wf_rename_path|rewrite next_ino_rename_path; lia|..].
    + intros j c ?%HK. lia.
    + intros j Hj. by rewrite rename_path_refcount, Hc.
Qed.

Lemma agree_reachable n t K :
  Z.of_nat n < 2 ^ 64 - 2 → nsteps kstep n (new, ∅) (t, K) → agree n t K.
Proof.
  revert t K. induction n as [|n IH]; intros t K Hn Hsteps.
  - inversion Hsteps; subst. apply agree_new.
  - apply nsteps_inv_r in Hsteps as ([t1 K1] & Hsteps & Hstep).
    eapply agree_step, Hstep; [lia|]. apply IH; [lia|done].
Qed.

Lemma prefixes_disjoint old new :
  starts_with new old = false → starts_with old new = false → ∀ s s', new ++ s ≠ old ++ s'.
Proof.
  intros H1 H2 s s' Heq. apply app_eq_app in Heq as (l & [[-> _]|[-> _]]).
  - by rewrite (proj2 (starts_with_true (old ++ l) old)) in H1 by eauto.
  - by rewrite (proj2 (starts_with_true (new ++ l) new)) in H2 by eauto.
Qed.

Lemma app_ne_self {A} (p s : list A) : s ≠ [] → p ++ s ≠ p.
Proof. intros Hs Heq. rewrite <- (app_nil_r p) in Heq at 2. by apply app_inv_head in Heq. Qed.

Section rename.
Context t (old new : path) (Hwf : wf t) (Hbij : bijective t) (Hold : old ≠ []) (Hnew : new ≠ []).
Context (Hdisj : ∀ s s', new ++ s ≠ old ++ s').
Context (Hfree : ∀ s, s ≠ [] → by_path t !! (new ++ s) = None).

Lemma old_ne_new s : old ++ s ≠ new.
Proof. intros Heq. apply (Hdisj [] s). by rewrite app_nil_r. Qed.

Lemma new_ne_old s : new ++ s ≠ old.
Proof. intros Heq. apply (Hdisj s []). by rewrite app_nil_r. Qed.

Let t1 := move_path old new (remove_path t new).

Lemma rename_first_lookup q :
  by_path t1 !! q = if decide (q = new) then by_path t !! old
    else if decide (q = old) then None else by_path t !! q.
Proof.
  assert (old ≠ new) by (intros <-; by apply (Hdisj [] [])).
  assert (by_path (remove_path t new) !! new = None).
  { rewrite remove_path_lookup by done. by apply decide_True. }
  unfold t1. rewrite move_path_lookup by auto.
  rewrite !remove_path_lookup, (decide_False (P := old = new)) by done. by repeat case_decide.
Qed.

Lemma rename_first_bijective : bijective t1.
Proof.
  apply bijective_move_path; [by apply wf_remove_path|by apply bijective_remove_path|].
  rewrite remove_path_lookup by done. by apply decide_True.
Qed.

Lemma rename_first_below_old s : s ≠ [] → by_path t1 !! (old ++ s) = by_path t !! (old ++ s).
Proof.
  intros Hs. by rewrite rename_first_lookup, !decide_False by auto using old_ne_new, app_ne_self.
Qed.

Lemma rename_first_below_new s : s ≠ [] → by_path t1 !! (new ++ s) = None.
Proof.
  intros Hs. rewrite rename_first_lookup, !decide_False by auto using new_ne_old, app_ne_self.
  auto.
Qed.

(** A whole rename: the first move, then the children. *)
Lemma rename_path_lookup :
  bijective (rename_path t old new) ∧ ∀ q, by_path (rename_path t old new) !! q =
    match strip_prefix new q, strip_prefix old q with
    | Some s, _ => by_path t !! (old ++ s)
    | None, Some _ => None
    | None, None => by_path t !! q
    end.
Proof.
  unfold rename_path. rewrite decide_False by done. fold t1.
  destruct (descendants_suffixes old t1) as (ss & -> & Hnd & Hss).
  assert (Hwf1 : wf t1) by (apply wf_move_path; auto using wf_remove_path).
  split.
  { apply fold_move_bijective; auto using rename_first_bijective.
    intros s [Hs Hsome]%Hss. auto using rename_first_below_new. }
  intros q. rewrite fold_move_lookup by (done || (intros s ?%Hss; tauto)).
  destruct (strip_prefix new q) as [s|] eqn:E1; [|destruct (strip_prefix old q) as [s|] eqn:E2].
  - apply strip_prefix_Some in E1 as ->. destruct (decide (s = [])) as [->|Hs].
    + rewrite decide_False by (intros []%Hss; done).
      rewrite !app_nil_r, rename_first_lookup. by apply decide_True.
    + rewrite rename_first_below_old, rename_first_below_new by done. case_decide as Hin; [done|].
      destruct (by_path t !! (old ++ s)) eqn:E; [|done]. exfalso. apply Hin, Hss.
      rewrite rename_first_below_old, E by done. eauto.
  - apply strip_prefix_Some in E2 as ->. case_decide as Hin; [done|].
    destruct (decide (s = [])) as [->|Hs].
    + rewrite app_nil_r, rename_first_lookup, decide_False, decide_True; [done..|].
      intros ->. by apply (Hdisj [] []).
    + destruct (by_path t1 !! (old ++ s)) eqn:E; [|done].
      destruct Hin. apply Hss. rewrite E. eauto.
  - rewrite rename_first_lookup, !decide_False; [done|..]; intros ->.
    + rewrite <- (app_nil_r old) in E2 at 2. by rewrite strip_prefix_app in E2.
    + rewrite <- (app_nil_r new) in E1 at 2. by rewrite strip_prefix_app in E1.
Qed.
End rename.
End facts.
End InodeFacts.

(** ** Theorems *)
Module InodeTheorems.
Import InodeTable InodeFacts.
Section theorems.
Context `{MapOrder}.

(** Whatever sequence of table calls the FUSE handlers make from a fresh mount, in whatever
    hash order, no call panics (the [unwrap] of [get_or_create] is always on a present entry),
    and afterwards every known path has its inode entry, the root keeps inode 1, and the next
    inode number is unused. *)
Theorem inode_ops_never_panic (ops : list op) :
  Forall op_ok ops → Z.of_nat (length ops) < 2 ^ 64 - 2 →
  ∃ t, run new ops = Some t ∧ wf t.
Proof. intros Hok Hlen. apply run_total; [apply wf_new|done|simpl; lia]. Qed.


End theorems.

(** A lookup of [n/f] that failed has left an entry behind (inode 5): the lookup handler numbers
    a path before it asks the backing store.  Then [d] (with [d/f], inode 3) is renamed to [n]. *)
Definition stale_ops : list op :=
  [GetOrCreate ["d"]; GetOrCreate ["d"; "f"]; GetOrCreate ["n"]; GetOrCreate ["n"; "f"];
   RenamePath ["d"] ["n"]]%string.

(** A rename whose target has a stale child breaks the bijection: two inode numbers resolve
    to the same path, and when the kernel forgets the stale one, the live one, still referenced,
    is no longer found by its path. *)
Theorem rename_over_stale_child_breaks_bijection :
  ∃ t, run new stale_ops = Some t ∧ wf t ∧ ¬ bijective t ∧
    get_path t 3 = Some ["n"; "f"]%string ∧ get_path t 5 = Some ["n"; "f"]%string ∧
    get_path_ino t ["n"; "f"]%string = Some 3 ∧
    get_path (forget t 5 1) 3 = Some ["n"; "f"]%string ∧
    get_path_ino (forget t 5 1) ["n"; "f"]%string = None.
Proof.
  destruct (run_total stale_ops new) as (t & Hrun & Hwf).
  { apply wf_new. } { repeat constructor. done. } { done. }
  exists t. vm_compute in Hrun. injection Hrun as <-.
  split_and!; [done|done| |done..].
  intros Hb. specialize (Hb 5 (mkInodeEntry ["n"; "f"]%string 1) eq_refl). by vm_compute in Hb.
Qed.

(** ** Witnesses *)
Lemma inode_ops_never_panic_witness : ∃ t, run new stale_ops = Some t ∧ wf t.
Proof.
  apply (@inode_ops_never_panic forward_order stale_ops); [|done]. repeat constructor. done.
Defined.


Definition subtree_table : InodeTable :=
  mkInodeTable
    (<[2 := mkInodeEntry ["d"]%string 1]> (<[3 := mkInodeEntry ["d"; "f"]%string 2]> (by_ino new)))
    (<[["d"]%string := 2]> (<[["d"; "f"]%string := 3]> (by_path new))) 4.

End InodeTheorems.
