(* ===== verification/Db.v ===== *)
(** * The cache database

    [src/cache/db.rs]: the three SQLite tables behind [CacheDb], one definition per method.
    A table is a finite map from its primary key; a statement is a function on the tables; a
    query scans a table in an unspecified order ([MapOrder]) unless it has an [ORDER BY].
    Statements succeed unless the connection is query-only, where every write is refused (and
    the methods that ignore their result do nothing).  The clock is the argument [now]. *)
From S2P Require Import Prelude Paths Backing Disk.

(** A row of [cache_files]; [source] holds the [source_*] columns as SQLite stores them, signed. *)
Record FileRow := mkFileRow {
  size_bytes : Z; cached_at : Z; last_hit_at : Z; hit_count : Z; source : SourceMetadata;
}.

(** A row of [process_access] without its key (bucket, process, kind). *)
Record AccessRow := mkAccessRow {
  count : Z; first_seen : Z; last_seen : Z;
  sample_cmdline : option string; sample_ancestors : option string;
}.

Record Tables := mkTables {
  cache_files : gmap (path * path) FileRow;
  deferred_events : gmap path (path * Z);
  process_access : gmap (Z * string * string) AccessRow;
}.

Record Pragmas := mkPragmas { cache_size_kb : Z; mmap_size : Z; query_only : bool }.

Record CacheDb := mkCacheDb { tables : Tables; pragmas : Pragmas }.

Record ProcessAccessRow := mkProcessAccessRow {
  par_bucket_epoch : Z; par_process_name : string; par_op_kind : string; par_count : Z;
  par_cmdline : option string; par_ancestors : option string;
}.

Record ProcessSummary := mkProcessSummary {
  process_name : string; hit : Z; miss : Z; meta : Z; total : Z; ps_first_seen : Z;
  ps_cmdline : option string; ps_ancestors : option string;
}.

Module CacheDb.

(** ** Columns *)
Definition no_source : SourceMetadata := mkSourceMetadata 0 0 0 0 0 0 0 0 0 0 0 0 0 0.

Definition to_columns (m : SourceMetadata) : SourceMetadata := {|
  size := as_i64 (size m); blocks := as_i64 (blocks m);
  atime_sec := atime_sec m; atime_nsec := atime_nsec m;
  mtime_sec := mtime_sec m; mtime_nsec := mtime_nsec m;
  ctime_sec := ctime_sec m; ctime_nsec := ctime_nsec m;
  mode := as_i64 (mode m); nlink := as_i64 (nlink m);
  uid := as_i64 (uid m); gid := as_i64 (gid m);
  rdev := as_i64 (rdev m); blksize := as_i64 (blksize m);
|}.

(** [row.get::<_, i64>(i)?.max(0) as u64] (or [as u32]). *)
Definition col_u64 (z : Z) : Z := as_u64 (Z.max z 0).
Definition col_u32 (z : Z) : Z := as_u32 (Z.max z 0).

Definition of_columns (m : SourceMetadata) : SourceMetadata := {|
  size := col_u64 (size m); blocks := col_u64 (blocks m);
  atime_sec := atime_sec m; atime_nsec := atime_nsec m;
  mtime_sec := mtime_sec m; mtime_nsec := mtime_nsec m;
  ctime_sec := ctime_sec m; ctime_nsec := ctime_nsec m;
  mode := col_u32 (mode m); nlink := col_u64 (nlink m);
  uid := col_u32 (uid m); gid := col_u32 (gid m);
  rdev := col_u64 (rdev m); blksize := col_u32 (blksize m);
|}.

(** ** Opening *)
Definition apply_common_pragmas (cache_size_mb : Z) (query_only : bool) : Pragmas :=
  mkPragmas (- (cache_size_mb * 1024)) (cache_size_mb * (1024 * 1024)) query_only.

(** [CREATE TABLE IF NOT EXISTS] and the additive migrations keep what a file already holds. *)
Definition open_with_config (on_disk : option Tables) (cache_size_mb : Z) : CacheDb :=
  mkCacheDb (default (mkTables ∅ ∅ ∅) on_disk) (apply_common_pragmas cache_size_mb false).

Definition open_readonly_with_config (on_disk : option Tables) (cache_size_mb : Z) : CacheDb :=
  mkCacheDb (default (mkTables ∅ ∅ ∅) on_disk) (apply_common_pragmas cache_size_mb true).

(** A write statement. *)
Definition execute (f : Tables → Tables) (db : CacheDb) : CacheDb :=
  if query_only (pragmas db) then db else mkCacheDb (f (tables db)) (pragmas db).

Definition on_files (f : gmap (path * path) FileRow → gmap (path * path) FileRow) (t : Tables) :=
  mkTables (f (cache_files t)) (deferred_events t) (process_access t).

Definition on_deferred (f : gmap path (path * Z) → gmap path (path * Z)) (t : Tables) :=
  mkTables (cache_files t) (f (deferred_events t)) (process_access t).

Definition on_access (f : gmap (Z * string * string) AccessRow → gmap (Z * string * string) AccessRow)
    (t : Tables) :=
  mkTables (cache_files t) (deferred_events t) (f (process_access t)).

(** ** Writers of [cache_files] *)
Definition mark_cached (now : Z) (rel_path mount_id : path) (source : SourceMetadata) :
    CacheDb → CacheDb :=
  let now := as_i64 now in
  execute (on_files (insert (rel_path, mount_id)
    (mkFileRow (as_i64 (size source)) now now 1 (to_columns source)))).

Definition update_source_metadata (rel_path mount_id : path) (source : SourceMetadata) :
    CacheDb → CacheDb :=
  execute (on_files (alter (λ r,
    mkFileRow (size_bytes r) (cached_at r) (last_hit_at r) (hit_count r) (to_columns source))
    (rel_path, mount_id))).

Definition mark_hit (now : Z) (rel_path mount_id : path) : CacheDb → CacheDb :=
  execute (on_files (alter (λ r,
    mkFileRow (size_bytes r) (cached_at r) (as_i64 now) (hit_count r + 1) (source r))
    (rel_path, mount_id))).

Definition remove (rel_path mount_id : path) : CacheDb → CacheDb :=
  execute (on_files (delete (rel_path, mount_id))).

Section queries.
Context `{MapOrder}.

(** [LIMIT n]: a negative limit is no limit. *)
Definition sql_limit {A} (n : Z) (l : list A) : list A :=
  if as_i64 n <? 0 then l else take (Z.to_nat (as_i64 n)) l.

(** The rows of a mount in scan order. *)
Definition mount_rows (db : CacheDb) (mount_id : path) : list (path * FileRow) :=
  omap (λ '((rel, m), r), if decide (m = mount_id) then Some (rel, r) else None)
       (iter (cache_files (tables db))).

Definition older (a b : path * FileRow) : bool := last_hit_at a.2 <=? last_hit_at b.2.

Definition sized (x : path * FileRow) : path * Z := (x.1, col_u64 (size_bytes x.2)).

Definition eviction_candidates (db : CacheDb) (mount_id : path) (limit : Z) : list (path * Z) :=
  sized <$> sql_limit limit (sort_by older (mount_rows db mount_id)).

Definition expired_files (now : Z) (db : CacheDb) (mount_id : path) (expiry_secs : Z) :
    list (path * Z) :=
  let cutoff := as_i64 (saturating_sub now expiry_secs) in
  sized <$> filter (λ x, last_hit_at x.2 < cutoff) (mount_rows db mount_id).

(** [COALESCE(SUM(size_bytes), 0)]: an integer overflow is a query error, read as 0. *)
Definition sql_sum (s : Z) : Z :=
  if (- 2 ^ 63 <=? s) && (s <? 2 ^ 63) then as_u64 (Z.max s 0) else 0.

Definition total_cached_bytes (db : CacheDb) (mount_id : path) : Z :=
  sql_sum (sum_Z ((λ x, size_bytes x.2) <$> mount_rows db mount_id)).

Definition total_cached_bytes_global (db : CacheDb) : Z :=
  sql_sum (sum_map size_bytes (cache_files (tables db))).

(** ** Startup reconciliation

    Interrupted copies are removed, rows without a file are deleted, files without a row get
    one (with no source columns, so that validation will backfill them). *)
Definition delete_orphans (d : Disk) (cache_dir mount_id : path) (db : CacheDb) : CacheDb :=
  foldl (λ db rel,
    if Disk.path_exists d (cache_dir ++ rel) then db else remove rel mount_id db)
    db (mount_rows db mount_id).*1.

Definition recover_file (now : Z) (d : Disk) (cache_dir mount_id : path) (db : CacheDb)
    (abs_path : path) : CacheDb :=
  match strip_prefix cache_dir abs_path with
  | None => db
  | Some rel =>
      match cache_files (tables db) !! (rel, mount_id) with
      | Some _ => db
      | None =>
          let size := as_i64 (default 0 (Disk.file_len d abs_path)) in
          execute (on_files (insert (rel, mount_id)
            (mkFileRow size (as_i64 now) (as_i64 now) 0 no_source))) db
      end
  end.

Definition reconcile_with_disk (now : Z) (cache_dir mount_id : path) (s : Disk * CacheDb) :
    Disk * CacheDb :=
  let '(d, db) := s in
  let d1 := (Disk.remove_partials d cache_dir).1 in
  let db1 := delete_orphans d1 cache_dir mount_id db in
  (d1, foldl (recover_file now d1 cache_dir mount_id) db1 (Disk.collect_cache_files d1 cache_dir)).

(** ** Deferred events: keyed by path, for all mounts *)
Definition save_deferred (key p : path) (timestamp : Z) : CacheDb → CacheDb :=
  execute (on_deferred (insert key (p, as_i64 timestamp))).

Definition load_deferred (now : Z) (db : CacheDb) (ttl_minutes : Z) : list (path * path * Z) :=
  let cutoff := as_i64 (saturating_sub now (as_u64 (ttl_minutes * 60))) in
  (λ '(key, (p, ts)), (key, p, as_u64 ts)) <$>
    filter (λ x, cutoff <= x.2.2) (iter (deferred_events (tables db))).

Definition remove_deferred (key : path) : CacheDb → CacheDb :=
  execute (on_deferred (delete key)).

(** ** Readers for the clients *)
Definition client_files_for_mount (db : CacheDb) (mount_id : path) :
    Z * list (path * Z * Z * Z) :=
  let rows := (λ x, (x.1, col_u64 (size_bytes x.2), col_u64 (cached_at x.2),
                     col_u64 (last_hit_at x.2))) <$> mount_rows db mount_id in
  (sum_u64 ((λ x, x.1.1.2) <$> rows), rows).

Definition file_timestamps (db : CacheDb) (mount_id : path) : gmap path (Z * Z) :=
  list_to_map ((λ x, (x.1, (col_u64 (cached_at x.2), col_u64 (last_hit_at x.2))))
                <$> mount_rows db mount_id).

Definition source_metadata_row (db : CacheDb) (rel_path mount_id : path) : option SourceMetadata :=
  r ← cache_files (tables db) !! (rel_path, mount_id);
  let m := of_columns (source r) in
  if SourceMetadata.has_snapshot m then Some m else None.

Definition row_fingerprint (r : FileRow) : Fingerprint :=
  mkFingerprint (mtime_sec (source r)) (mtime_nsec (source r)) (col_u64 (size_bytes r)).

Definition fingerprint_row (db : CacheDb) (rel_path mount_id : path) : option Fingerprint :=
  row_fingerprint <$> cache_files (tables db) !! (rel_path, mount_id).

Definition all_fingerprints (db : CacheDb) (mount_id : path) : list (path * Fingerprint) :=
  (λ x, (x.1, row_fingerprint x.2)) <$> mount_rows db mount_id.

Definition set_last_hit_at_for_test (rel_path mount_id : path) (timestamp_secs : Z) :
    CacheDb → CacheDb :=
  execute (on_files (alter (λ r,
    mkFileRow (size_bytes r) (cached_at r) timestamp_secs (hit_count r) (source r))
    (rel_path, mount_id))).

(** ** Process discovery *)
Definition coalesce {A} (a b : option A) : option A := match a with Some _ => a | None => b end.

Definition upsert_row (t : gmap (Z * string * string) AccessRow) (row : ProcessAccessRow) :
    gmap (Z * string * string) AccessRow :=
  let key := (par_bucket_epoch row, par_process_name row, par_op_kind row) in
  let n := as_i64 (par_count row) in
  match t !! key with
  | None =>
      <[key := mkAccessRow n (par_bucket_epoch row) (par_bucket_epoch row)
                 (par_cmdline row) (par_ancestors row)]> t
  | Some old =>
      <[key := mkAccessRow (count old + n) (first_seen old)
                 (Z.max (last_seen old) (par_bucket_epoch row))
                 (coalesce (sample_cmdline old) (par_cmdline row))
                 (coalesce (sample_ancestors old) (par_ancestors row))]> t
  end.

Definition query_only_error : io_error := OtherError "attempt to write a readonly database".

Definition upsert_process_access (rows : list ProcessAccessRow) (db : CacheDb) :
    result io_error CacheDb :=
  match rows with
  | [] => Ok db
  | _ => if query_only (pragmas db) then Err query_only_error
         else Ok (execute (on_access (λ t, foldl upsert_row t rows)) db)
  end.

(** [MAX] of a text column: NULLs are skipped, strings compare by bytes. *)
Definition max_text (a b : option string) : option string :=
  match a, b with
  | Some x, Some y => if String.ltb x y then Some y else Some x
  | Some x, None => Some x
  | None, b => b
  end.

Definition kind_total (kind : string) (rows : list (string * AccessRow)) : Z :=
  sum_Z ((λ x, if decide (x.1 = kind) then count x.2 else 0) <$> rows).

(** One group of the [GROUP BY process_name]. *)
Definition summarize (name : string) (rows : list (string * AccessRow)) : ProcessSummary :=
  mkProcessSummary name
    (col_u64 (kind_total "hit" rows)) (col_u64 (kind_total "miss" rows))
    (col_u64 (kind_total "meta" rows)) (col_u64 (sum_Z ((λ x, count x.2) <$> rows)))
    (foldr Z.min (2 ^ 63 - 1) ((λ x, first_seen x.2) <$> rows))
    (foldr max_text None ((λ x, sample_cmdline x.2) <$> rows))
    (foldr max_text None ((λ x, sample_ancestors x.2) <$> rows)).

Definition group_rows (t : gmap (Z * string * string) AccessRow) (since : Z) (name : string) :
    list (string * AccessRow) :=
  omap (λ '((epoch, n, kind), r),
    if decide (since <= epoch ∧ n = name) then Some (kind, r) else None) (iter t).

Definition group_names (t : gmap (Z * string * string) AccessRow) (since : Z) : list string :=
  remove_dups (omap (λ '((epoch, n, _), _), if decide (since <= epoch) then Some n else None)
                    (iter t)).

Definition busier (a b : string * list (string * AccessRow)) : bool :=
  sum_Z ((λ x, count x.2) <$> b.2) <=? sum_Z ((λ x, count x.2) <$> a.2).

Definition kind_matches (kind : string) (s : ProcessSummary) : bool :=
  if decide (kind = "hit"%string) then 0 <? hit s
  else if decide (kind = "miss"%string) then 0 <? miss s
  else if decide (kind = "meta"%string) then 0 <? meta s
  else true.

Definition top_processes (db : CacheDb) (since_epoch : Z) (kind_filter : option string)
    (limit : Z) : list ProcessSummary :=
  let t := process_access (tables db) in
  let groups := (λ n, (n, group_rows t since_epoch n)) <$> group_names t since_epoch in
  let rows := (λ g, summarize g.1 g.2) <$> sql_limit limit (sort_by busier groups) in
  match kind_filter with
  | Some kind => filter (λ s, kind_matches kind s = true) rows
  | None => rows
  end.

Definition prune_process_access (cutoff_epoch : Z) (db : CacheDb) : result io_error (CacheDb * Z) :=
  if query_only (pragmas db) then Err query_only_error
  else
    let old := filter (λ x, x.1.1.1 < cutoff_epoch) (iter (process_access (tables db))) in
    Ok (execute (on_access (λ t, filter (λ x, ¬ x.1.1.1 < cutoff_epoch) t)) db,
        Z.of_nat (length old)).
End queries.
End CacheDb.

(** ** Lemmas *)
Module DbFacts.
Import CacheDb.

Lemma query_only_execute f db : query_only (pragmas (execute f db)) = query_only (pragmas db).
Proof. unfold execute. by case_match. Qed.

Lemma execute_writable f db :
  query_only (pragmas db) = false → tables (execute f db) = f (tables db).
Proof. unfold execute. by intros ->. Qed.

(** Columns give back what was stored, below the sign bit. *)
Lemma col_u64_as_i64 z : 0 <= z < 2 ^ 63 → col_u64 (as_i64 z) = z.
Proof.
  intros Hz. rewrite as_i64_id by (int_bounds; lia). unfold col_u64.
  rewrite Z.max_l by lia. apply as_u64_id. int_bounds. lia.
Qed.

Lemma col_u32_as_i64 z : in_u32 z → col_u32 (as_i64 z) = z.
Proof.
  intros Hz. rewrite as_i64_id by (int_bounds; lia). unfold col_u32.
  rewrite Z.max_l by (int_bounds; lia). by apply as_u32_id.
Qed.

Lemma of_to_columns m :
  SourceMetadata.ok m → size m < 2 ^ 63 → blocks m < 2 ^ 63 → nlink m < 2 ^ 63 →
  rdev m < 2 ^ 63 → of_columns (to_columns m) = m.
Proof.
  intros [] ????. unfold in_u64 in *. unfold of_columns, to_columns. simpl.
  rewrite !col_u64_as_i64, !col_u32_as_i64 by (done || lia). by destruct m.
Qed.

Lemma col_u64_nonneg z : 0 <= col_u64 z.
Proof. unfold col_u64, as_u64. apply Z.mod_pos_bound. lia. Qed.

Section facts.
Context `{MapOrder}.
Implicit Types db : CacheDb.

Lemma elem_of_mount_rows db m rel r :
  (rel, r) ∈ mount_rows db m ↔ cache_files (tables db) !! (rel, m) = Some r.
Proof.
  unfold mount_rows. rewrite list_elem_of_omap. split.
  - intros ([[rel' m'] r'] & Hin & Heq). case_decide; simplify_eq. by apply elem_of_iter.
  - intros Hr. exists ((rel, m), r). rewrite elem_of_iter, decide_True by done. done.
Qed.

Lemma NoDup_mount_rows db m : NoDup (mount_rows db m).*1.
Proof.
  unfold mount_rows. pose proof (NoDup_fst_iter (cache_files (tables db))) as Hnd.
  induction (iter _) as [|[[rel m'] r] l IH]; simpl in *; [constructor|].
  apply NoDup_cons in Hnd as [Hnin Hnd]. case_decide; [|auto]. simpl. constructor; [|auto].
  subst. intros ([rel' r'] & -> & Hin)%list_elem_of_fmap.
  apply list_elem_of_omap in Hin as ([[rel2 m2] r2] & Hin & Heq). case_decide; simplify_eq.
  apply Hnin. apply list_elem_of_fmap. exists ((rel', m), r'). done.
Qed.

Lemma elem_of_mount_paths db m rel :
  rel ∈ (mount_rows db m).*1 ↔ is_Some (cache_files (tables db) !! (rel, m)).
Proof.
  rewrite list_elem_of_fmap. split.
  - intros ([rel' r] & -> & Hin%elem_of_mount_rows). eauto.
  - intros [r Hr]. exists (rel, r). by rewrite elem_of_mount_rows.
Qed.

#[export] Instance older_order : TotalOrderb older.
Proof. split; unfold older; intros; to_prop; lia. Qed.

#[export] Instance busier_order : TotalOrderb busier.
Proof. split; unfold busier; intros; to_prop; lia. Qed.

Lemma sql_limit_all {A} (l : list A) : sql_limit usize_MAX l = l.
Proof. done. Qed.

(** *** Reconciliation *)
Lemma query_only_delete_orphans d dir m db :
  query_only (pragmas (delete_orphans d dir m db)) = query_only (pragmas db).
Proof.
  unfold delete_orphans. generalize (mount_rows db m).*1. intros l. revert db.
  induction l as [|rel l IH]; intros db; simpl; [done|].
  rewrite IH. case_match; [done|apply query_only_execute].
Qed.

Lemma delete_orphans_fold d dir m l db rel m' :
  query_only (pragmas db) = false →
  cache_files (tables (foldl (λ db rel,
    if Disk.path_exists d (dir ++ rel) then db else remove rel m db) db l)) !! (rel, m') =
  if decide (m' = m ∧ rel ∈ l ∧ Disk.path_exists d (dir ++ rel) = false) then None
  else cache_files (tables db) !! (rel, m').
Proof.
  revert db. induction l as [|rel0 l IH]; intros db Hw; simpl.
  { rewrite decide_False; [done|]. intros (_ & ?%elem_of_nil & _). done. }
  rewrite IH by (destruct (Disk.path_exists d (dir ++ rel0)); [done|];
    unfold remove; by rewrite query_only_execute).
  destruct (Disk.path_exists d (dir ++ rel0)) eqn:E.
  - apply decide_ext. rewrite elem_of_cons. split; [tauto|].
    intros (? & [->|?] & ?); [congruence|auto].
  - unfold remove. rewrite execute_writable by done. simpl.
    destruct (decide (m' = m ∧ rel ∈ l ∧ _)) as [Hin|Hnin].
    + rewrite decide_True; [done|]. rewrite elem_of_cons. tauto.
    + destruct (decide ((rel, m') = (rel0, m))) as [Heq|Hne].
      * simplify_eq. rewrite lookup_delete_eq, decide_True; [done|].
        split_and!; [done|by left|done].
      * rewrite lookup_delete_ne by done. rewrite decide_False; [done|].
        rewrite elem_of_cons. intros (-> & [->|?] & ?); [done|tauto].
Qed.

Lemma delete_orphans_lookup d dir m db rel m' :
  query_only (pragmas db) = false →
  cache_files (tables (delete_orphans d dir m db)) !! (rel, m') =
  if decide (m' = m ∧ Disk.path_exists d (dir ++ rel) = false) then None
  else cache_files (tables db) !! (rel, m').
Proof.
  intros Hw. unfold delete_orphans. rewrite delete_orphans_fold by done.
  destruct (decide (m' = m ∧ Disk.path_exists d (dir ++ rel) = false)) as [[-> He]|Hn].
  - case_decide as Hc; [done|]. rewrite elem_of_mount_paths in Hc.
    destruct (cache_files (tables db) !! (rel, m)) eqn:E; [|done].
    destruct Hc. split_and!; eauto.
  - rewrite decide_False by tauto. done.
Qed.

Definition recovered_row (now : Z) (d : Disk) (p : path) : FileRow :=
  mkFileRow (as_i64 (default 0 (Disk.file_len d p))) (as_i64 now) (as_i64 now) 0 no_source.

Lemma recover_lookup now d dir m l db rel m' :
  query_only (pragmas db) = false →
  cache_files (tables (foldl (recover_file now d dir m) db l)) !! (rel, m') =
  match cache_files (tables db) !! (rel, m') with
  | Some r => Some r
  | None => if decide (m' = m ∧ dir ++ rel ∈ l) then Some (recovered_row now d (dir ++ rel)) else None
  end.
Proof.
  revert db. induction l as [|p l IH]; intros db Hw; simpl.
  { destruct (cache_files _ !! _); [done|]. rewrite decide_False; [done|].
    intros [_ ?%elem_of_nil]. done. }
  assert (Hw' : query_only (pragmas (recover_file now d dir m db p)) = false).
  { unfold recover_file. repeat case_match; by rewrite ?query_only_execute. }
  rewrite IH by done. clear IH. unfold recover_file.
  destruct (strip_prefix dir p) as [rel0|] eqn:Hs.
  2:{ destruct (cache_files (tables db) !! (rel, m')); [done|]. apply decide_ext.
      rewrite elem_of_cons. split; [tauto|]. intros [? [<-|?]]; [|auto].
      by rewrite strip_prefix_app in Hs. }
  apply strip_prefix_Some in Hs as ->.
  destruct (cache_files (tables db) !! (rel0, m)) as [r0|] eqn:H0.
  - destruct (cache_files (tables db) !! (rel, m')) eqn:E; [done|]. apply decide_ext.
    rewrite elem_of_cons. split; [tauto|]. intros [-> [->%app_inv_head|?]]; [congruence|auto].
  - rewrite execute_writable by done. simpl.
    destruct (decide ((rel0, m) = (rel, m'))) as [Heq|Hne].
    + simplify_eq. rewrite lookup_insert_eq, H0, decide_True; [done|].
      split; [done|by left].
    + rewrite lookup_insert_ne by done. destruct (cache_files (tables db) !! (rel, m')); [done|].
      apply decide_ext. rewrite elem_of_cons. split; [tauto|].
      intros [-> [->%app_inv_head|?]]; [done|auto].
Qed.
(** *** Ordering *)
Definition hit_of db (m rel : path) : Z :=
  default 0 (last_hit_at <$> cache_files (tables db) !! (rel, m)).

Lemma hit_of_row db m x : x ∈ mount_rows db m → hit_of db m x.1 = last_hit_at x.2.
Proof. destruct x as [rel r]. intros Hx%elem_of_mount_rows. unfold hit_of. simpl. by rewrite Hx. Qed.

Lemma sql_limit_split {A} n (l : list A) : ∃ k, sql_limit n l = take k l ∧
  (as_i64 n < 0 → k = length l) ∧ (0 <= as_i64 n → k = Z.to_nat (as_i64 n)).
Proof.
  unfold sql_limit. destruct (as_i64 n <? 0) eqn:E; to_prop.
  - exists (length l). rewrite firstn_all. split_and!; [done|done|lia].
  - eexists. split_and!; [done|lia|done].
Qed.

Lemma elem_of_load_deferred now db ttl k q t :
  (k, q, t) ∈ load_deferred now db ttl ↔
  ∃ ts, deferred_events (tables db) !! k = Some (q, ts) ∧ t = as_u64 ts ∧
    as_i64 (saturating_sub now (as_u64 (ttl * 60))) <= ts.
Proof.
  unfold load_deferred. rewrite list_elem_of_fmap. split.
  - intros ([k' [q' ts]] & Heq & [Hle Hin%elem_of_iter]%list_elem_of_filter). simplify_eq/=. eauto.
  - intros (ts & Hk & -> & Hle). exists (k, (q, ts)). split; [done|].
    by rewrite list_elem_of_filter, elem_of_iter.
Qed.

(** *** Process access counts *)
Definition access_total (P : Z * string * string → bool) (t : gmap (Z * string * string) AccessRow) : Z :=
  sum_Z ((λ x, if P x.1 then count x.2 else 0) <$> map_to_list t).

Lemma access_total_insert P t k r :
  t !! k = None → access_total P (<[k:=r]> t) = (if P k then count r else 0) + access_total P t.
Proof. intros Hk. unfold access_total. by rewrite (map_to_list_insert t k r Hk). Qed.

Lemma access_total_update P t k old r :
  t !! k = Some old →
  access_total P (<[k:=r]> t) = (if P k then count r - count old else 0) + access_total P t.
Proof.
  intros Hk. pose proof (access_total_insert P (delete k t) k old (lookup_delete_eq t k)) as Hd.
  rewrite insert_delete_id in Hd by done. rewrite <- insert_delete_eq.
  rewrite access_total_insert by apply lookup_delete_eq. destruct (P k); lia.
Qed.

Lemma access_total_upsert_row P t row :
  access_total P (upsert_row t row) =
    access_total P t +
    (if P (par_bucket_epoch row, par_process_name row, par_op_kind row)
     then as_i64 (par_count row) else 0).
Proof.
  unfold upsert_row. destruct (t !! _) as [old|] eqn:E.
  - rewrite (access_total_update P t _ old) by done. simpl. case_match; lia.
  - rewrite access_total_insert by done. simpl. lia.
Qed.

Lemma access_total_upsert P rows t :
  access_total P (foldl upsert_row t rows) =
    access_total P t +
    sum_Z ((λ row, if P (par_bucket_epoch row, par_process_name row, par_op_kind row)
                   then as_i64 (par_count row) else 0) <$> rows).
Proof.
  revert t. induction rows as [|row rows IH]; intros t; cbn [foldl]; [cbn; lia|].
  rewrite IH, access_total_upsert_row, fmap_cons. unfold sum_Z. cbn [foldr]. lia.
Qed.

Lemma sum_Z_omap_filter {A} (f : A → option (string * AccessRow)) (P : A → bool) (g : A → Z) l :
  (∀ x, x ∈ l → match f x with
                | Some y => P x = true ∧ count y.2 = g x
                | None => P x = false
                end) →
  sum_Z ((λ y, count y.2) <$> omap f l) = sum_Z ((λ x, if P x then g x else 0) <$> l).
Proof.
  intros Hf. induction l as [|x l IH]; [done|].
  assert (Hx := Hf x (list_elem_of_here _ _)).
  assert (IH' := IH (λ y Hy, Hf y (list_elem_of_further _ _ _ Hy))).
  rewrite fmap_cons. cbn [omap list_omap sum_Z foldr] in *. unfold sum_Z in *.
  destruct (f x) as [y|]; [|by rewrite Hx, IH'].
  destruct Hx as [HP Hc]. rewrite HP, fmap_cons. cbn [foldr]. by rewrite IH', Hc.
Qed.

Definition of_process (since : Z) (name : string) (k : Z * string * string) : bool :=
  bool_decide (since <= k.1.1 ∧ k.1.2 = name).

Lemma group_rows_total t since name :
  sum_Z ((λ x, count x.2) <$> group_rows t since name) = access_total (of_process since name) t.
Proof.
  unfold group_rows, access_total. rewrite <- (iter_perm t).
  rewrite (sum_Z_omap_filter _ (λ x, of_process since name x.1) (λ x, count x.2)); [done|].
  intros [[[e n] kind] r] _. unfold of_process. simpl. case_decide; simpl.
  - split; [by apply bool_decide_true|done].
  - by apply bool_decide_false.
Qed.

Lemma elem_of_group_names t since name :
  name ∈ group_names t since ↔ ∃ e kind r, t !! (e, name, kind) = Some r ∧ since <= e.
Proof.
  unfold group_names. rewrite elem_of_remove_dups, list_elem_of_omap. split.
  - intros ([[[e n] kind] r] & Hin%elem_of_iter & Heq). case_decide; simplify_eq. eauto.
  - intros (e & kind & r & Hr & Hle). exists ((e, name, kind), r).
    by rewrite elem_of_iter, decide_True.
Qed.

Lemma access_total_bounds P t :
  (∀ k r, t !! k = Some r → 0 <= count r) →
  0 <= access_total P t <= sum_map count t.
Proof.
  intros Hpos. unfold access_total, sum_map.
  assert (Hl : ∀ k r, (k, r) ∈ map_to_list t → 0 <= count r)
    by (intros k r Hin%elem_of_map_to_list; eauto).
  induction (map_to_list t) as [|[k r] l IH]; [simpl; lia|]. rewrite !fmap_cons.
  unfold sum_Z in *. cbn [foldr]. simpl.
  assert (0 <= count r) by (apply (Hl k); left).
  assert (IH' := IH (λ k' r' Hin, Hl k' r' (list_elem_of_further _ _ _ Hin))).
  case_match; lia.
Qed.

(** *** Sums *)
Lemma sql_sum_id s : 0 <= s < 2 ^ 63 → sql_sum s = s.
Proof.
  intros Hs. unfold sql_sum. rewrite (proj2 (Z.leb_le _ _)), (proj2 (Z.ltb_lt _ _)) by lia. simpl.
  rewrite Z.max_l by lia. apply as_u64_id. int_bounds. lia.
Qed.
End facts.
End DbFacts.

(** ** Theorems *)
Module DbTheorems.
Import CacheDb DbFacts.
Section theorems.
Context `{MapOrder}.

(** What [mark_cached] stores is what [source_metadata_row] and [fingerprint_row] give back:
    every field of the snapshot survives the signed columns (sizes, block, link and device
    numbers below 2^63; a snapshot with a mode), the hit clock is set, and no other row and no
    other table changes. *)
Theorem mark_cached_roundtrip db now rel m src :
  query_only (pragmas db) = false → SourceMetadata.ok src → SourceMetadata.has_snapshot src = true →
  size src < 2 ^ 63 → blocks src < 2 ^ 63 → nlink src < 2 ^ 63 → rdev src < 2 ^ 63 →
  let db' := mark_cached now rel m src db in
  source_metadata_row db' rel m = Some src ∧
  fingerprint_row db' rel m = Some (mkFingerprint (mtime_sec src) (mtime_nsec src) (size src)) ∧
  hit_of db' m rel = as_i64 now ∧
  (∀ k, k ≠ (rel, m) → cache_files (tables db') !! k = cache_files (tables db) !! k) ∧
  deferred_events (tables db') = deferred_events (tables db) ∧
  process_access (tables db') = process_access (tables db).
Proof.
  intros Hw Hok Hsnap ????; cbn zeta. pose proof (SourceMetadata.sm_size _ Hok) as Hsize.
  unfold source_metadata_row, fingerprint_row, hit_of, mark_cached.
  rewrite execute_writable by done. simpl. rewrite lookup_insert_eq. simpl.
  rewrite of_to_columns, Hsnap by done. unfold row_fingerprint. simpl.
  rewrite col_u64_as_i64 by (int_bounds; lia).
  split_and!; try done. intros k Hne. by rewrite lookup_insert_ne.
Qed.

(** Eviction candidates come least recently hit first, whatever order the scan has: the list
    is sorted by last hit, has each file of the mount at most once and with its recorded size,
    and a file the limit leaves out was hit no earlier than any file returned. *)
Theorem eviction_candidates_lru db m limit :
  let l := eviction_candidates db m limit in
  StronglySorted (λ a b, hit_of db m a.1 <= hit_of db m b.1) l ∧
  NoDup l.*1 ∧
  (∀ rel sz, (rel, sz) ∈ l →
     ∃ r, cache_files (tables db) !! (rel, m) = Some r ∧ sz = col_u64 (size_bytes r)) ∧
  (∀ rel sz rel' r', (rel, sz) ∈ l → cache_files (tables db) !! (rel', m) = Some r' →
     rel' ∉ l.*1 → hit_of db m rel <= last_hit_at r') ∧
  (as_i64 limit < 0 → ∀ rel, is_Some (cache_files (tables db) !! (rel, m)) → rel ∈ l.*1).
Proof.
  cbn zeta. unfold eviction_candidates. set (s := sort_by older (mount_rows db m)).
  assert (Hs : s ≡ₚ mount_rows db m) by apply sort_by_perm.
  assert (Hsort : StronglySorted (λ a b, older a b = true) s) by exact (sort_by_sorted older _).
  assert (Hin : ∀ x, x ∈ s → x ∈ mount_rows db m) by (intros x; by rewrite Hs).
  assert (Hfst : ∀ l, (sized <$> l).*1 = l.*1) by (intros l; by rewrite <- list_fmap_compose).
  destruct (sql_limit_split limit s) as (k & -> & Hk & _).
  assert (Htake : ∀ x, x ∈ take k s → x ∈ s) by (intros x Hx; eapply elem_of_sublist; [apply Hx|apply sublist_take]).
  split_and!.
  - eapply StronglySorted_fmap, StronglySorted_take, Hsort. intros x y Hx Hy. unfold older.
    rewrite Z.leb_le. simpl. rewrite !(hit_of_row db m) by auto. done.
  - rewrite Hfst, fmap_take. eapply sublist_NoDup; [|apply sublist_take].
    rewrite Hs. apply NoDup_mount_rows.
  - intros rel sz ([rel' r] & Heq & Hx)%list_elem_of_fmap. unfold sized in Heq. simplify_eq/=.
    exists r. by rewrite <- elem_of_mount_rows; auto.
  - intros rel sz rel' r' ([rel1 r] & Heq & Hx)%list_elem_of_fmap Hr' Hnin.
    unfold sized in Heq. simplify_eq/=. rewrite Hfst in Hnin.
    pose proof (hit_of_row db m _ (Hin _ (Htake _ Hx))) as Hhit. simpl in Hhit. rewrite Hhit.
    assert (Hdrop : (rel', r') ∈ drop k s).
    { apply elem_of_mount_rows in Hr'. rewrite <- Hs in Hr'.
      rewrite <- (take_drop k s) in Hr'. apply elem_of_app in Hr' as [Hr'|]; [|done].
      destruct Hnin. apply list_elem_of_fmap. by exists (rel', r'). }
    pose proof (StronglySorted_take_drop _ k s _ _ Hsort Hx Hdrop) as Hle.
    unfold older in Hle. by apply Z.leb_le in Hle.
  - intros Hneg rel Hrel%elem_of_mount_paths. rewrite Hfst, (Hk Hneg), firstn_all. by rewrite Hs.
Qed.

(** C8. Startup reconciliation makes the rows of the mount mirror the disk, whatever order
    directories and tables are listed in: every partial copy below the cache directory that can
    be deleted is gone and nothing else is; a row whose file exists is kept unchanged; a row
    without a file is deleted; a cached file without a row gets one with its length, hit now;
    there is no other row, and rows of other mounts are untouched. *)
Theorem reconcile_mirrors_disk now d db dir m :
  Disk.wf d → Disk.is_dir d dir = true → query_only (pragmas db) = false →
  let '(d', db') := reconcile_with_disk now dir m (d, db) in
  (∀ p, nodes d' !! p =
     match nodes d !! p with
     | Some (File _) =>
         if starts_with p dir && Disk.is_partial p && bool_decide (p ∉ undeletable d)
         then None else nodes d !! p
     | n => n
     end) ∧
  (∀ rel, cache_files (tables db') !! (rel, m) =
     match cache_files (tables db) !! (rel, m) with
     | Some r => if Disk.path_exists d' (dir ++ rel) then Some r else None
     | None =>
         match nodes d' !! (dir ++ rel) with
         | Some (File _) =>
             if Disk.is_non_media_file (dir ++ rel) then None
             else Some (recovered_row now d' (dir ++ rel))
         | _ => None
         end
     end) ∧
  (∀ rel m', m' ≠ m → cache_files (tables db') !! (rel, m') = cache_files (tables db) !! (rel, m')).
Proof.
  intros Hwf Hdir Hw. unfold reconcile_with_disk.
  destruct (DiskFacts.remove_partials_spec d dir _ Hwf Hdir eq_refl) as (Hwf1 & Hdir1 & _ & Hlook).
  set (d1 := (Disk.remove_partials d dir).1) in *.
  split_and!; [done|..].
  - intros rel. rewrite recover_lookup, delete_orphans_lookup
      by (by rewrite ?query_only_delete_orphans).
    rewrite <- (DiskFacts.collected_lookup d1 dir rel) by done.
    assert (Hmem : (if decide (m = m ∧ dir ++ rel ∈ Disk.collect_cache_files d1 dir)
        then Some (recovered_row now d1 (dir ++ rel)) else None) =
      if decide (dir ++ rel ∈ Disk.collect_cache_files d1 dir)
        then Some (recovered_row now d1 (dir ++ rel)) else None) by (apply decide_ext; tauto).
    rewrite Hmem. destruct (cache_files (tables db) !! (rel, m)) as [r|].
    + destruct (Disk.path_exists d1 (dir ++ rel)) eqn:He.
      * by rewrite decide_False by (intros [_ [=]]).
      * rewrite decide_True by done. apply decide_False.
        intros (_ & [f Hf] & _)%DiskFacts.elem_of_collect; [|done].
        unfold Disk.path_exists in He. case_decide; [done|].
        apply bool_decide_eq_false in He. destruct He. eauto.
    + by destruct (decide (m = m ∧ Disk.path_exists d1 (dir ++ rel) = false)).
  - intros rel m' Hne. rewrite recover_lookup, delete_orphans_lookup
      by (by rewrite ?query_only_delete_orphans).
    rewrite decide_False by tauto. destruct (cache_files _ !! _); [done|].
    apply decide_False. tauto.
Qed.

(** Deferred jobs survive a restart until their time is up: after [save_deferred] a load
    returns the job exactly when it is no older than the time to live, other jobs are returned
    as before, and [remove_deferred] makes it disappear. *)
Theorem deferred_roundtrip db now ttl key p ts k q t :
  query_only (pragmas db) = false → 0 <= ts < 2 ^ 63 → 0 <= ttl → ttl * 60 <= now < 2 ^ 63 →
  ((k, q, t) ∈ load_deferred now (save_deferred key p ts db) ttl ↔
     if decide (k = key) then q = p ∧ t = ts ∧ now - ttl * 60 <= ts
     else (k, q, t) ∈ load_deferred now db ttl) ∧
  ((k, q, t) ∈ load_deferred now (remove_deferred key db) ttl ↔
     k ≠ key ∧ (k, q, t) ∈ load_deferred now db ttl).
Proof.
  intros Hw Hts Httl Hnow.
  assert (Hload : ∀ db, (k, q, t) ∈ load_deferred now db ttl ↔
    ∃ ts, deferred_events (tables db) !! k = Some (q, ts) ∧ t = as_u64 ts ∧ now - ttl * 60 <= ts).
  { intros db'. rewrite elem_of_load_deferred. unfold saturating_sub.
    rewrite (as_u64_id (ttl * 60)) by (int_bounds; lia).
    rewrite (as_i64_id (Z.max _ _)) by (int_bounds; lia). by rewrite Z.max_r by lia. }
  rewrite (Hload (save_deferred _ _ _ _)), (Hload (remove_deferred _ _)).
  unfold save_deferred, remove_deferred. rewrite !execute_writable by done. simpl. split.
  - case_decide as Hk; [subst k|by rewrite lookup_insert_ne, Hload].
    rewrite lookup_insert_eq, (as_i64_id ts) by (int_bounds; lia).
    split; [intros (ts' & [= -> <-] & -> & Hle)|intros (-> & -> & Hle)].
    + rewrite as_u64_id by (int_bounds; lia). split_and!; [done|done|lia].
    + exists ts. rewrite as_u64_id by (int_bounds; lia). split_and!; [done|done|lia].
  - destruct (decide (k = key)) as [->|Hne].
    + rewrite lookup_delete_eq. split; [by intros (? & ? & _)|by intros []].
    + rewrite lookup_delete_ne, Hload by done. tauto.
Qed.

(** Process accounting loses nothing: a flushed batch raises the total over any set of
    (bucket, process, kind) keys by exactly the counts the batch has for those keys, whether the
    rows are new or merged, and touches no other table. *)
Theorem upsert_conserves_counts db rows db' (P : Z * string * string → bool) :
  upsert_process_access rows db = Ok db' →
  access_total P (process_access (tables db')) =
    access_total P (process_access (tables db)) +
    sum_Z ((λ row, if P (par_bucket_epoch row, par_process_name row, par_op_kind row)
                   then as_i64 (par_count row) else 0) <$> rows) ∧
  cache_files (tables db') = cache_files (tables db) ∧
  deferred_events (tables db') = deferred_events (tables db).
Proof.
  intros Hup. unfold upsert_process_access in Hup. destruct rows as [|row rows].
  { simplify_eq. simpl. split_and!; [lia|done|done]. }
  destruct (query_only (pragmas db)) eqn:Hw; [done|]. injection Hup as <-.
  rewrite execute_writable by done. split_and!; [|done|done].
  apply (access_total_upsert P (row :: rows)).
Qed.

(** [top_processes] ranks by traffic: with counts that are not negative and fit a column,
    each process appears once, its total is the sum of its counts since the epoch, the list is
    in decreasing order of total, and without a limit no process seen since the epoch is
    missing. *)
Theorem top_processes_ranks db since limit :
  let t := process_access (tables db) in
  (∀ k r, t !! k = Some r → 0 <= count r) → sum_map count t < 2 ^ 63 →
  let l := top_processes db since None limit in
  NoDup (process_name <$> l) ∧
  StronglySorted (λ a b, total b <= total a) l ∧
  (∀ s, s ∈ l → total s = access_total (of_process since (process_name s)) t) ∧
  (as_i64 limit < 0 → ∀ e name kind r, t !! (e, name, kind) = Some r → since <= e →
     name ∈ process_name <$> l).
Proof.
  intros t Hpos Hsum. cbn zeta. unfold top_processes. fold t.
  set (groups := (λ n, (n, group_rows t since n)) <$> group_names t since).
  set (s := sort_by busier groups). assert (Hs : s ≡ₚ groups) by apply sort_by_perm.
  assert (Hsort := sort_by_sorted busier groups : StronglySorted _ s).
  destruct (sql_limit_split limit s) as (k & -> & Hk & _).
  assert (Hname : ∀ l, process_name <$> ((λ g, summarize g.1 g.2) <$> l) = l.*1)
    by (intros l; by rewrite <- list_fmap_compose).
  assert (Hgroup : ∀ g, g ∈ s → g.2 = group_rows t since g.1).
  { intros g Hg. rewrite Hs in Hg. by apply list_elem_of_fmap in Hg as (n & -> & _). }
  assert (Htake : ∀ x, x ∈ take k s → x ∈ s)
    by (intros x Hx; eapply elem_of_sublist; [apply Hx|apply sublist_take]).
  assert (Htot : ∀ g, g ∈ s → total (summarize g.1 g.2) = access_total (of_process since g.1) t ∧
    sum_Z ((λ x, count x.2) <$> g.2) = access_total (of_process since g.1) t).
  { intros g Hg. simpl. rewrite (Hgroup g Hg), group_rows_total. split; [|done].
    pose proof (access_total_bounds (of_process since g.1) t Hpos).
    unfold col_u64. rewrite Z.max_l by lia. apply as_u64_id. int_bounds. lia. }
  rewrite Hname. split_and!.
  - rewrite fmap_take. eapply sublist_NoDup; [|apply sublist_take]. rewrite Hs. unfold groups.
    rewrite <- list_fmap_compose, list_fmap_id. apply NoDup_remove_dups.
  - eapply StronglySorted_fmap, StronglySorted_take, Hsort. intros x y Hx Hy Hle.
    destruct (Htot x (Htake x Hx)) as [-> Ex], (Htot y (Htake y Hy)) as [-> Ey].
    unfold busier in Hle. to_prop. lia.
  - intros x (g & -> & Hg)%list_elem_of_fmap. by destruct (Htot g (Htake g Hg)) as [-> _].
  - intros Hneg e name kind r Hr Hle. rewrite (Hk Hneg), firstn_all, Hs. unfold groups.
    rewrite <- list_fmap_compose, list_fmap_id. apply elem_of_group_names. eauto.
Qed.

(** A read-only client cannot change the daemon's data: on a query-only connection every
    writing method leaves the database as it was (those that report errors report one). *)
Theorem readonly_never_writes on_disk mb now rel m src ts key row rows cutoff d :
  let db := open_readonly_with_config on_disk mb in
  mark_cached now rel m src db = db ∧ update_source_metadata rel m src db = db ∧
  mark_hit now rel m db = db ∧ remove rel m db = db ∧ save_deferred key rel ts db = db ∧
  remove_deferred key db = db ∧ (reconcile_with_disk now rel m (d, db)).2 = db ∧
  is_err (upsert_process_access (row :: rows) db) = true ∧
  is_err (prune_process_access cutoff db) = true.
Proof.
  cbn zeta. set (db := open_readonly_with_config on_disk mb).
  assert (Hx : ∀ f, execute f db = db) by done.
  split_and!; try done. unfold reconcile_with_disk. simpl.
  assert (Ho : ∀ d1, delete_orphans d1 rel m db = db).
  { intros d1. unfold delete_orphans. induction (mount_rows db m).*1 as [|q l IH]; [done|].
    simpl. case_match; apply IH. }
  rewrite Ho. induction (Disk.collect_cache_files _ _) as [|p l IH]; [done|].
  simpl. unfold recover_file at 2. repeat case_match; rewrite ?Hx; apply IH.
Qed.
End theorems.
End DbTheorems.

(** ** Witnesses *)
Module DbWitnesses.
Import CacheDb DbFacts DbTheorems.

Definition fresh_db : CacheDb := open_with_config None 64.
Definition some_source : SourceMetadata :=
  mkSourceMetadata 700 2 10 0 1000 5 1000 5 33188 1 1000 1000 0 4096.

Lemma some_source_ok : SourceMetadata.ok some_source.
Proof. by split; unfold some_source, in_u64, in_u32, in_i64; simpl; lia. Qed.

Lemma mark_cached_roundtrip_witness :
  source_metadata_row (mark_cached 50 ["a"]%string ["m"]%string some_source fresh_db)
    ["a"]%string ["m"]%string = Some some_source.
Proof.
  apply (mark_cached_roundtrip fresh_db 50 ["a"]%string ["m"]%string some_source);
    try (vm_compute; reflexivity). apply some_source_ok.
Defined.

(** A cache directory with a finished copy, an interrupted one and a row without its file. *)
Definition some_disk : Disk := mkDisk
  {[ ["c"]%string := Dir;
     ["c"; "a"]%string := File (mkFile "xyz" 420 0 0 (0, 0) (0, 0));
     ["c"; "b.partial"]%string := File (mkFile "x" 420 0 0 (0, 0) (0, 0)) ]} ∅.

Lemma some_disk_wf : Disk.wf some_disk.
Proof.
  intros p n. unfold some_disk. simpl.
  intros [[<- _]|[_ [[<- _]|[_ [<- _]%lookup_singleton_Some]]%lookup_insert_Some]]%lookup_insert_Some;
    by vm_compute.
Qed.

Definition orphan_db : CacheDb := mark_cached 50 ["gone"]%string ["m"]%string some_source fresh_db.

Lemma reconcile_mirrors_disk_witness :
  let '(d', db') := reconcile_with_disk 99 ["c"]%string ["m"]%string (some_disk, orphan_db) in
  nodes d' !! ["c"; "b.partial"]%string = None ∧
  cache_files (tables db') !! (["gone"]%string, ["m"]%string) = None ∧
  size_bytes <$> cache_files (tables db') !! (["a"]%string, ["m"]%string) = Some 3.
Proof.
  pose proof (@reconcile_mirrors_disk forward_order 99 some_disk orphan_db ["c"]%string ["m"]%string
    some_disk_wf eq_refl eq_refl) as Hr.
  destruct (reconcile_with_disk _ _ _ _) as [d' db']. destruct Hr as (Hd & Hm & _).
  assert (Ha : nodes d' !! ["c"; "a"]%string = Some (File (mkFile "xyz" 420 0 0 (0, 0) (0, 0))))
    by (rewrite Hd; vm_compute; reflexivity).
  split_and!.
  - rewrite Hd. vm_compute. reflexivity.
  - rewrite (Hm ["gone"]%string). unfold Disk.path_exists. cbn [app]. rewrite Hd. by vm_compute.
  - rewrite (Hm ["a"]%string). cbn [app]. rewrite Ha. unfold recovered_row, Disk.file_len.
    rewrite Ha. by vm_compute.
Defined.

Lemma deferred_roundtrip_witness :
  (["k"], ["k"], 95)%string ∈ load_deferred 100 (save_deferred ["k"]%string ["k"]%string 95 fresh_db) 1.
Proof.
  destruct (@deferred_roundtrip forward_order fresh_db 100 1 ["k"]%string ["k"]%string 95
    ["k"]%string ["k"]%string 95) as [Hs _]; try (vm_compute; (reflexivity || intuition congruence)).
  apply Hs. rewrite decide_True by done. split_and!; [done|done|lia].
Defined.

Definition some_rows : list ProcessAccessRow :=
  [mkProcessAccessRow 60 "cat" "miss" 2 None None; mkProcessAccessRow 60 "plex" "hit" 9 None None;
   mkProcessAccessRow 60 "cat" "miss" 3 None None]%string.

Definition access_db : CacheDb :=
  match upsert_process_access some_rows fresh_db with Ok db => db | Err _ => fresh_db end.

Lemma upsert_conserves_counts_witness :
  access_total (λ _, true) (process_access (tables access_db)) = 14.
Proof.
  destruct (upsert_conserves_counts fresh_db some_rows access_db (λ _, true)) as [Ht _];
    [reflexivity|]. rewrite Ht. reflexivity.
Defined.

Lemma top_processes_ranks_witness :
  sum_map count (process_access (tables access_db)) = 14 ∧
  "cat"%string ∈ process_name <$> top_processes access_db 0 None usize_MAX.
Proof.
  split; [vm_compute; reflexivity|].
  destruct (@top_processes_ranks forward_order access_db 0 usize_MAX) as (_ & _ & _ & Hall).
  - intros k r. unfold access_db. vm_compute process_access.
    intros Hr%elem_of_map_to_list. vm_compute in Hr.
    repeat (apply elem_of_cons in Hr as [[= -> ->]|Hr]; [simpl; lia|]). by apply elem_of_nil in Hr.
  - vm_compute. reflexivity.
  - apply (Hall eq_refl 60 "cat"%string "miss"%string (mkAccessRow 5 60 60 None None));
      [vm_compute; reflexivity|lia].
Defined.

(** The kind filter of [top_processes] is applied after the limit: asked for the single
    busiest process with misses, it answers with nothing although there is one. *)
Theorem top_processes_filters_after_limit :
  top_processes access_db 0 (Some "miss"%string) 1 = [] ∧
  process_name <$> top_processes access_db 0 (Some "miss"%string) 2 = ["cat"%string].
Proof. split; vm_compute; reflexivity. Qed.
End DbWitnesses.
