(* ===== verification/Manager.v ===== *)
(** * The cache manager

    [src/cache/manager.rs]: staleness checks, eviction and statistics of one mount's cache.
    The state the methods change is the SSD and the database, [Disk * CacheDb]; the backing
    store is the function [stat] it answers with during the call; capacity comes from the
    parameter [statvfs]; the clock is [now].  Sizes given in gigabytes as floats enter as the
    byte counts they are cast to. *)
From S2P Require Import Prelude Paths Backing Disk Db.

Record Statvfs := mkStatvfs { f_bavail : Z; f_bsize : Z; f_blocks : Z; f_frsize : Z }.

Inductive StaleResult :=
  | Fresh (live : stat)
  | Stale
  | BackingGone
  | NotTracked
  | NeedsBackfill (live : stat).

Record CacheStats := mkCacheStats {
  cs_max_size_bytes : Z; cs_min_free_bytes : Z; cs_expiry : Z; free_space : option Z;
  used_bytes : Z; file_count : nat; files : list (path * Z * Z * Z);
}.

Record CacheManager := mkCacheManager {
  cache_dir : path;
  max_size_bytes : Z;
  expiry : Z;
  min_free_bytes : Z;
  mount_id : path;
  check_on_hit : bool;
}.

(** An eviction logged with its reason. *)
Inductive reason := Expired | SizeLimit | StaleOnHit | StalePeriodic | BackingModified.
#[export] Instance reason_eq_dec : EqDecision reason.
Proof. solve_decision. Defined.

Abbreviation Store := (Disk * CacheDb)%type.

Module Manager.
Section manager.
Context `{MapOrder}.
Context (statvfs : Disk → path → option Statvfs).

Definition free_space_bytes (d : Disk) (p : path) : option Z :=
  (λ s, as_u64 (f_bavail s * f_bsize s)) <$> statvfs d p.

Definition total_space_bytes (d : Disk) (p : path) : option Z :=
  (λ s, as_u64 (f_blocks s * f_frsize s)) <$> statvfs d p.

(** [configured] and [min_free] are the casts of [max_size_gb] and [min_free_space_gb]. *)
Definition new (d : Disk) (dir capacity_check_dir : path) (configured expiry_hours min_free : Z)
    (check : bool) : CacheManager :=
  let max_size :=
    match total_space_bytes d capacity_check_dir with
    | Some total => if (configured =? 0) || (total <? configured) then total / 2 else configured
    | None => configured
    end in
  mkCacheManager dir max_size (as_u64 (expiry_hours * 3600)) min_free dir check.

Definition cache_path (cm : CacheManager) (rel : path) : path := cache_dir cm ++ rel.

Definition is_cached (cm : CacheManager) (d : Disk) (rel : path) : bool :=
  let p := cache_path cm rel in
  Disk.path_exists d p && negb (Disk.is_partial p).

Definition mark_cached (now : Z) (cm : CacheManager) (rel : path) (source : SourceMetadata)
    (db : CacheDb) : CacheDb :=
  CacheDb.mark_cached now rel (mount_id cm) source db.

Definition source_metadata (cm : CacheManager) (db : CacheDb) (rel : path) : option SourceMetadata :=
  CacheDb.source_metadata_row db rel (mount_id cm).

Definition content_matches (fp : Fingerprint) (live : stat) : bool :=
  (source_mtime_secs fp =? st_mtime live) && (source_mtime_nsecs fp =? st_mtime_nsec live)
  && (fp_size_bytes fp =? as_u64 (st_size live)).

Definition zero_fingerprint (fp : Fingerprint) : bool :=
  (source_mtime_secs fp =? 0) && (source_mtime_nsecs fp =? 0).

Definition is_stale_with_fingerprint (backing : option (path → option stat)) (rel : path)
    (fp : Fingerprint) : StaleResult :=
  match backing with
  | None => NotTracked
  | Some stat =>
      match stat rel with
      | None => BackingGone
      | Some live =>
          if zero_fingerprint fp then NeedsBackfill live
          else if content_matches fp live then Fresh live
          else Stale
      end
  end.

Definition is_stale (cm : CacheManager) (backing : option (path → option stat)) (db : CacheDb)
    (rel : path) : StaleResult :=
  match backing with
  | None => NotTracked
  | Some _ =>
      match CacheDb.fingerprint_row db rel (mount_id cm) with
      | Some fp => is_stale_with_fingerprint backing rel fp
      | None => NotTracked
      end
  end.

Definition refresh_source_metadata (cm : CacheManager) (rel : path) (live : stat) (db : CacheDb) :
    CacheDb :=
  match CacheDb.fingerprint_row db rel (mount_id cm) with
  | None => db
  | Some fp =>
      if zero_fingerprint fp then db
      else if negb (content_matches fp live) then db
      else
        let fresh := SourceMetadata.from_stat live in
        if match CacheDb.source_metadata_row db rel (mount_id cm) with
           | Some stored => SourceMetadata.attrs_match stored fresh
           | None => false
           end
        then db
        else CacheDb.update_source_metadata rel (mount_id cm) fresh db
  end.

(** The eviction event is emitted only when a file was deleted. *)
Definition drop_stale (cm : CacheManager) (rel : path) (why : reason) (s : Store) :
    Store * list (path * reason) :=
  let '(d, db) := s in
  let abs_path := cache_dir cm ++ rel in
  let '(d', ev) := match Disk.remove_file d abs_path with
                   | Ok d' => (d', [(abs_path, why)])
                   | Err _ => (d, [])
                   end in
  ((d', CacheDb.remove rel (mount_id cm) db), ev).

Definition backfill_fingerprint (now : Z) (cm : CacheManager) (rel : path) (st : stat)
    (db : CacheDb) : CacheDb :=
  mark_cached now cm rel (SourceMetadata.from_stat st) db.

Definition sweep_row (now : Z) (cm : CacheManager) (backing : option (path → option stat))
    (acc : Store * Z * Z) (row : path * Fingerprint) : Store * Z * Z :=
  let '((d, db), checked, dropped) := acc in
  let '(rel, fp) := row in
  match is_stale_with_fingerprint backing rel fp with
  | Stale | BackingGone =>
      ((drop_stale cm rel StalePeriodic (d, db)).1, u32_add checked 1, u32_add dropped 1)
  | NeedsBackfill st =>
      ((d, backfill_fingerprint now cm rel st db), u32_add checked 1, dropped)
  | Fresh live => ((d, refresh_source_metadata cm rel live db), u32_add checked 1, dropped)
  | NotTracked => ((d, db), u32_add checked 1, dropped)
  end.

Definition sweep_stale (now : Z) (cm : CacheManager) (backing : option (path → option stat))
    (s : Store) : Store * Z * Z :=
  foldl (sweep_row now cm backing) (s, 0, 0) (CacheDb.all_fingerprints s.2 (mount_id cm)).

Definition mark_hit (now : Z) (cm : CacheManager) (rel : path) (db : CacheDb) : CacheDb :=
  CacheDb.mark_hit now rel (mount_id cm) db.

Definition startup_cleanup (now : Z) (cm : CacheManager) (s : Store) : Store :=
  CacheDb.reconcile_with_disk now (cache_dir cm) (mount_id cm) s.

(** ** Eviction

    One file: deleted from the SSD, and only then from the database. *)
Definition evict_one (cm : CacheManager) (rel : path) (s : Store) : option Store :=
  match Disk.remove_file s.1 (cache_dir cm ++ rel) with
  | Ok d' => Some (d', CacheDb.remove rel (mount_id cm) s.2)
  | Err _ => None
  end.

(** The loop over expired files: all of them; the result lists the files removed. *)
Fixpoint evict_all (cm : CacheManager) (l : list (path * Z)) (s : Store) : Store * list (path * Z) :=
  match l with
  | [] => (s, [])
  | (rel, size) :: l' =>
      match evict_one cm rel s with
      | Some s' => let '(r, gone) := evict_all cm l' s' in (r, (rel, size) :: gone)
      | None => evict_all cm l' s
      end
  end.

(** The loop over eviction candidates: until [stop] holds of the bytes freed so far.  Returns
    the bytes freed and the files removed. *)
Fixpoint evict_until (cm : CacheManager) (stop : Z → bool) (freed : Z) (l : list (path * Z))
    (s : Store) : Store * Z * list (path * Z) :=
  match l with
  | [] => (s, freed, [])
  | (rel, size) :: l' =>
      if stop freed then (s, freed, [])
      else match evict_one cm rel s with
           | Some s' =>
               let '(r, gone) := evict_until cm stop (u64_add freed size) l' s' in
               (r, (rel, size) :: gone)
           | None => evict_until cm stop freed l' s
           end
  end.

Definition evict_to_fit (cm : CacheManager) (pending_bytes : Z) (s : Store) : Store * Z :=
  let global_total := CacheDb.total_cached_bytes_global s.2 in
  let target := saturating_sub (max_size_bytes cm) pending_bytes in
  if global_total <=? target then (s, 0)
  else
    let need_to_free := global_total - target in
    (evict_until cm (λ freed, need_to_free <=? freed) 0
       (CacheDb.eviction_candidates s.2 (mount_id cm) usize_MAX) s).1.

(** The size loop of [evict_if_needed] counts down a running total instead. *)
Fixpoint evict_while_over (cm : CacheManager) (global_total : Z) (l : list (path * Z)) (s : Store) :
    Store * list (path * Z) :=
  match l with
  | [] => (s, [])
  | (rel, size) :: l' =>
      if global_total <=? max_size_bytes cm then (s, [])
      else match evict_one cm rel s with
           | Some s' =>
               let '(r, gone) := evict_while_over cm (saturating_sub global_total size) l' s' in
               (r, (rel, size) :: gone)
           | None => evict_while_over cm global_total l' s
           end
  end.

(** The files removed by each phase are the second and third results. *)
Definition evict_if_needed (now : Z) (cm : CacheManager) (s : Store) :
    Store * list (path * Z) * list (path * Z) :=
  let '(s1, expired) :=
    if expiry cm =? 0 then (s, [])
    else evict_all cm (CacheDb.expired_files now s.2 (mount_id cm) (expiry cm)) s in
  let global_total := CacheDb.total_cached_bytes_global s1.2 in
  let '(s2, oversize) :=
    if max_size_bytes cm <? global_total
    then evict_while_over cm global_total (CacheDb.eviction_candidates s1.2 (mount_id cm) usize_MAX) s1
    else (s1, []) in
  (s2, expired, oversize).

Definition has_free_space (cm : CacheManager) (d : Disk) : bool :=
  match free_space_bytes d (cache_dir cm) with
  | Some free => min_free_bytes cm <=? free
  | None => false
  end.

Definition total_cached_bytes (cm : CacheManager) (db : CacheDb) : Z :=
  CacheDb.total_cached_bytes db (mount_id cm).

(** ** Statistics *)
Definition stats_file (cm : CacheManager) (d : Disk) (timestamps : gmap path (Z * Z))
    (abs_path : path) : option (path * Z * Z * Z) :=
  size ← Disk.file_len d abs_path;
  let rel := default abs_path (strip_prefix (cache_dir cm) abs_path) in
  let '(at_, hit) := default (0, 0) (timestamps !! rel) in
  Some (rel, size, at_, hit).

Definition stats (cm : CacheManager) (s : Store) : CacheStats :=
  let timestamps := CacheDb.file_timestamps s.2 (mount_id cm) in
  let fs := omap (stats_file cm s.1 timestamps) (Disk.collect_cache_files s.1 (cache_dir cm)) in
  mkCacheStats (max_size_bytes cm) (min_free_bytes cm) (expiry cm)
    (free_space_bytes s.1 (cache_dir cm)) (sum_u64 ((λ x, x.1.1.2) <$> fs)) (length fs) fs.
End manager.
End Manager.

(** ** Lemmas *)
Module ManagerFacts.
Import Manager.
Section facts.
Context `{MapOrder}.
Context (cm : CacheManager).
Implicit Types s : Store.

Definition removable (d : Disk) (rel : path) : bool :=
  is_ok (Disk.remove_file d (cache_dir cm ++ rel)).

Definition cached_total (db : CacheDb) : Z := sum_map size_bytes (cache_files (tables db)).

(** Recorded sizes are sizes, and SQLite can add them up. *)
Record sizes_ok (db : CacheDb) : Prop := {
  sizes_nonneg : ∀ k r, cache_files (tables db) !! k = Some r → 0 <= size_bytes r;
  sizes_sum : cached_total db < 2 ^ 63;
  sizes_writable : query_only (pragmas db) = false;
}.

(** A list of files of the mount with their recorded sizes. *)
Record listed (db : CacheDb) (l : list (path * Z)) : Prop := {
  listed_nodup : NoDup l.*1;
  listed_row : ∀ rel sz, (rel, sz) ∈ l →
    ∃ r, cache_files (tables db) !! (rel, mount_id cm) = Some r ∧ size_bytes r = sz;
}.

(** [s'] is [s] without the files [gone] and their rows. *)
Record evicted s s' (gone : list (path * Z)) : Prop := {
  ev_disk : ∀ p, nodes s'.1 !! p =
    if decide (p ∈ app (cache_dir cm) <$> gone.*1) then None else nodes s.1 !! p;
  ev_undeletable : undeletable s'.1 = undeletable s.1;
  ev_rows : ∀ rel m, cache_files (tables s'.2) !! (rel, m) =
    if decide (m = mount_id cm ∧ rel ∈ gone.*1) then None
    else cache_files (tables s.2) !! (rel, m);
  ev_total : cached_total s'.2 = cached_total s.2 - sum_Z gone.*2;
  ev_writable : query_only (pragmas s'.2) = query_only (pragmas s.2);
}.

Lemma evicted_nil s : evicted s s [].
Proof.
  split; [done|done| |simpl; lia|done].
  intros rel m. rewrite decide_False; [done|]. by intros [_ ?%elem_of_nil].
Qed.

Lemma evicted_one s s' rel sz :
  query_only (pragmas s.2) = false → listed s.2 [(rel, sz)] →
  evict_one cm rel s = Some s' → evicted s s' [(rel, sz)].
Proof.
  intros Hw Hl. unfold evict_one. destruct (Disk.remove_file s.1 _) as [d'|] eqn:Hr; [|done].
  apply DiskFacts.remove_file_Ok in Hr as (_ & _ & ->). intros [= <-].
  destruct (listed_row _ _ Hl rel sz) as (r & Hr & Hsz); [by left|].
  unfold CacheDb.remove. split; cbn [fst snd].
  - intros p. cbn [nodes]. destruct (decide (p = cache_dir cm ++ rel)) as [->|Hne].
    + rewrite lookup_delete_eq, decide_True; [done|by left].
    + rewrite lookup_delete_ne, decide_False; [done| |done]. by intros ?%list_elem_of_singleton.
  - done.
  - intros rel' m. rewrite DbFacts.execute_writable by done. simpl.
    destruct (decide ((rel', m) = (rel, mount_id cm))) as [[= -> ->]|Hne].
    + rewrite lookup_delete_eq, decide_True; [done|]. split; [done|by left].
    + rewrite lookup_delete_ne, decide_False; [done| |done].
      intros [-> ->%list_elem_of_singleton]. done.
  - unfold cached_total. rewrite DbFacts.execute_writable by done. simpl.
    rewrite (sum_map_delete _ _ _ _ Hr). lia.
  - apply DbFacts.query_only_execute.
Qed.

Lemma evicted_trans s s1 s2 g1 g2 :
  evicted s s1 g1 → evicted s1 s2 g2 → evicted s s2 (g1 ++ g2).
Proof.
  intros [D1 U1 R1 T1 W1] [D2 U2 R2 T2 W2]. split.
  - intros p. rewrite D2, D1, fmap_app, fmap_app.
    destruct (decide (p ∈ app (cache_dir cm) <$> g2.*1)).
    + rewrite decide_True; [done|]. apply elem_of_app. auto.
    + apply decide_ext. rewrite elem_of_app. tauto.
  - congruence.
  - intros rel m. rewrite R2, R1, fmap_app.
    destruct (decide (m = mount_id cm ∧ rel ∈ g2.*1)).
    + rewrite decide_True; [done|]. rewrite elem_of_app. tauto.
    + apply decide_ext. rewrite elem_of_app. tauto.
  - rewrite T2, T1, fmap_app, sum_Z_app. lia.
  - congruence.
Qed.

Lemma sizes_ok_evicted s s' gone :
  sizes_ok s.2 → evicted s s' gone → (∀ rel sz, (rel, sz) ∈ gone → 0 <= sz) → sizes_ok s'.2.
Proof.
  intros [Hn Hs Hw] [_ _ HR HT HW] Hg. split; [|rewrite HT|congruence].
  - intros [rel m] r Hr. rewrite HR in Hr. case_decide; [done|]. eauto.
  - assert (0 <= sum_Z gone.*2); [|lia]. apply sum_Z_nonneg, Forall_forall.
    intros z ([rel sz] & -> & Hin)%list_elem_of_fmap. simpl. eauto.
Qed.

Lemma removable_evicted s s' gone rel :
  evicted s s' gone → rel ∉ gone.*1 → removable s'.1 rel = removable s.1 rel.
Proof.
  intros [HD HU _ _ _] Hnin. unfold removable, Disk.remove_file. rewrite HD, HU.
  rewrite decide_False; [by repeat case_match|].
  intros (rel' & Heq%app_inv_head & Hin)%list_elem_of_fmap. congruence.
Qed.

Lemma evict_one_removable s rel : is_Some (evict_one cm rel s) ↔ removable s.1 rel = true.
Proof.
  unfold evict_one, removable, is_ok. destruct (Disk.remove_file _ _); [by eauto|].
  split; [by intros [? [=]]|done].
Qed.

Lemma listed_cons db rel sz l : listed db ((rel, sz) :: l) → listed db [(rel, sz)] ∧ listed db l.
Proof.
  intros [Hnd Hrow]. apply NoDup_cons in Hnd as [Hnin Hnd]. split; split.
  - apply NoDup_singleton.
  - intros rel' sz' ?%list_elem_of_singleton. simplify_eq. apply Hrow. by left.
  - done.
  - intros rel' sz' Hin. apply Hrow. by right.
Qed.

Lemma listed_evicted s s' l gone :
  listed s.2 l → evicted s s' gone → (∀ rel, rel ∈ gone.*1 → rel ∉ l.*1) → listed s'.2 l.
Proof.
  intros [Hnd Hrow] [_ _ HR _ _] Hdisj. split; [done|]. intros rel sz Hin.
  destruct (Hrow rel sz Hin) as (r & Hr & Hsz). exists r. split; [|done].
  rewrite HR, decide_False; [done|]. intros [_ Hg]. apply (Hdisj rel Hg).
  apply list_elem_of_fmap. by exists (rel, sz).
Qed.

Lemma listed_sublist db l k : listed db l → sublist k l → listed db k.
Proof.
  intros [Hnd Hrow] Hk. split.
  - clear Hrow. induction Hk as [|x k l Hk IH|x k l Hk IH]; [constructor|..];
      rewrite !fmap_cons in *; apply NoDup_cons in Hnd as [Hnin Hnd]; [|auto].
    constructor; [|auto]. intros (y & Hy & Hin)%list_elem_of_fmap. apply Hnin.
    apply list_elem_of_fmap. exists y. split; [done|]. by eapply elem_of_sublist.
  - intros rel sz Hin. apply Hrow. by eapply elem_of_sublist.
Qed.

Lemma listed_nonneg db l rel sz : sizes_ok db → listed db l → (rel, sz) ∈ l → 0 <= sz.
Proof. intros Hok Hl (r & Hr & <-)%(listed_row _ _ Hl). by eapply sizes_nonneg. Qed.

(** *** What the loops compute

    The files an eviction loop takes, as a function of which files can be removed. *)
Fixpoint victims (stop : Z → bool) (ok : path → bool) (freed : Z) (l : list (path * Z)) :
    list (path * Z) :=
  match l with
  | [] => []
  | (rel, sz) :: l' =>
      if stop freed then []
      else if ok rel then (rel, sz) :: victims stop ok (freed + sz) l'
      else victims stop ok freed l'
  end.

Lemma victims_sublist stop ok freed l : sublist (victims stop ok freed l) l.
Proof.
  revert freed. induction l as [|[rel sz] l IH]; intros freed; simpl; [constructor|].
  destruct (stop freed); [apply sublist_nil_l|]. destruct (ok rel); by constructor.
Qed.

Lemma victims_ext stop ok ok' freed l :
  (∀ rel, rel ∈ l.*1 → ok rel = ok' rel) → victims stop ok freed l = victims stop ok' freed l.
Proof.
  revert freed. induction l as [|[rel sz] l IH]; intros freed Hok; simpl; [done|].
  rewrite (Hok rel) by by left. rewrite !IH by (intros ??; apply Hok; by right). done.
Qed.

Lemma victims_enough stop ok freed l :
  let g := victims stop ok freed l in
  stop (freed + sum_Z g.*2) = true ∨ ∀ x, x ∈ l → x ∉ g → ok x.1 = false.
Proof.
  revert freed. induction l as [|[rel sz] l IH]; intros freed; cbn [victims].
  { right. by intros x ?%elem_of_nil. }
  destruct (stop freed) eqn:Hs; [left; simpl; by rewrite Z.add_0_r|].
  destruct (ok rel) eqn:Hr; cbn zeta; [rewrite !fmap_cons; unfold sum_Z; cbn [foldr snd]; fold sum_Z|].
  - destruct (IH (freed + sz)) as [Hd|Hd]; [left|right].
    + by rewrite Z.add_assoc.
    + intros x [->|Hx]%elem_of_cons Hn; [destruct Hn; by left|]. apply Hd; [done|].
      intros ?. apply Hn. by right.
  - destruct (IH freed) as [Hd|Hd]; [by left|right].
    intros x [->|Hx]%elem_of_cons Hn; [done|]. by apply Hd.
Qed.

Lemma victims_last stop ok freed l g x :
  victims stop ok freed l = g ++ [x] → stop (freed + sum_Z g.*2) = false.
Proof.
  revert freed g. induction l as [|[rel sz] l IH]; intros freed g; cbn [victims];
    [by destruct g|].
  destruct (stop freed) eqn:Hs; [by destruct g|].
  destruct (ok rel); [|apply IH]. destruct g as [|y g]; simpl.
  - intros _. by rewrite Z.add_0_r.
  - intros [= <- Hg]. apply IH in Hg. simpl. by rewrite Z.add_assoc.
Qed.

Lemma victims_lru (R : relation (path * Z)) stop ok freed l x y :
  StronglySorted R l → x ∈ victims stop ok freed l → y ∈ l →
  y ∉ victims stop ok freed l → ok y.1 = true → R x y.
Proof.
  intros Hl. revert freed. induction Hl as [|[rel sz] l Hl IH Hx]; intros freed; cbn [victims];
    [by intros ?%elem_of_nil|].
  destruct (stop freed); [by intros ?%elem_of_nil|].
  destruct (ok rel) eqn:Hr.
  - intros [->|Hin]%elem_of_cons [->|Hy]%elem_of_cons Hn Hok.
    + destruct Hn. by left.
    + by apply (proj1 (Forall_forall _ _) Hx).
    + destruct Hn. by left.
    + eapply IH; eauto. intros ?. apply Hn. by right.
  - intros Hin [->|Hy]%elem_of_cons Hn Hok; [simpl in Hok; congruence|]. by eapply IH.
Qed.

Lemma victims_removable stop ok freed l x : x ∈ victims stop ok freed l → ok x.1 = true.
Proof.
  revert freed. induction l as [|[rel sz] l IH]; intros freed; cbn [victims];
    [by intros ?%elem_of_nil|].
  destruct (stop freed); [by intros ?%elem_of_nil|]. destruct (ok rel) eqn:Hr; [|apply IH].
  intros [->|Hin]%elem_of_cons; [done|by eapply IH].
Qed.

Lemma elem_of_fst_notin (l : list (path * Z)) rel sz : (rel, sz) ∈ l → rel ∈ l.*1.
Proof. intros Hin. apply list_elem_of_fmap. by exists (rel, sz). Qed.

(** The loop of [evict_to_fit] removes exactly the victims. *)
Lemma evict_until_ok stop freed l s :
  sizes_ok s.2 → listed s.2 l → 0 <= freed → freed + sum_Z l.*2 < 2 ^ 64 →
  let gone := victims stop (removable s.1) freed l in
  ∃ s', evict_until cm stop freed l s = (s', freed + sum_Z gone.*2, gone) ∧ evicted s s' gone.
Proof.
  revert freed s. induction l as [|[rel sz] l IH]; intros freed s Hok Hl Hf Hsum;
    cbn [evict_until victims].
  { exists s. rewrite Z.add_0_r. split; [done|apply evicted_nil]. }
  destruct (stop freed).
  { exists s. rewrite Z.add_0_r. split; [done|apply evicted_nil]. }
  destruct (listed_cons _ _ _ _ Hl) as [Hl1 Hl2].
  assert (Hsz : 0 <= sz) by (apply (listed_nonneg s.2 ((rel, sz) :: l) rel); [done|done|left]).
  assert (Hsum' : sz + (freed + sum_Z l.*2) < 2 ^ 64) by (rewrite fmap_cons in Hsum; simpl in Hsum; lia).
  assert (0 <= sum_Z l.*2).
  { apply sum_Z_nonneg, Forall_forall. intros z ([r z'] & -> & Hin)%list_elem_of_fmap.
    by eapply listed_nonneg. }
  pose proof (listed_nodup _ _ Hl) as Hnd. apply NoDup_cons in Hnd as [Hnin _].
  destruct (evict_one cm rel s) as [s1|] eqn:Hone.
  - assert (Hr : removable s.1 rel = true) by (apply evict_one_removable; by rewrite Hone).
    pose proof (evicted_one s s1 rel sz (sizes_writable _ Hok) Hl1 Hone) as He.
    rewrite Hr, u64_add_small by lia.
    destruct (IH (freed + sz) s1) as (s' & Heq & He').
    { eapply sizes_ok_evicted; [done..|]. by intros ?? ?%list_elem_of_singleton; simplify_eq. }
    { eapply listed_evicted; [done..|]. by intros r ->%list_elem_of_singleton. }
    { lia. } { lia. }
    rewrite Heq. rewrite (victims_ext _ (removable s1.1) (removable s.1)) in *.
    2,3,4: intros r Hin; eapply removable_evicted; [done|]; by intros ->%list_elem_of_singleton.
    exists s'. split; [|by apply (evicted_trans s s1 s' [(rel, sz)])].
    rewrite fmap_cons. unfold sum_Z. cbn [foldr snd]. by rewrite Z.add_assoc.
  - destruct (removable s.1 rel) eqn:Hr.
    { apply evict_one_removable in Hr as [? Hr]. congruence. }
    apply IH; [done..|lia].
Qed.

(** The other two loops are the same loop. *)
Lemma evict_all_until l s freed :
  ∃ f, evict_until cm (λ _, false) freed l s = ((evict_all cm l s).1, f, (evict_all cm l s).2).
Proof.
  revert freed s. induction l as [|[rel sz] l IH]; intros freed s; cbn [evict_until evict_all]; [eauto|].
  destruct (evict_one cm rel s) as [s1|]; [|apply IH].
  destruct (IH (u64_add freed sz) s1) as [f ->]. destruct (evict_all cm l s1). eauto.
Qed.

Lemma evict_while_over_until total freed l s :
  sizes_ok s.2 → listed s.2 l → 0 <= freed → freed + sum_Z l.*2 <= total → total < 2 ^ 64 →
  ∃ f, evict_until cm (λ freed, total - freed <=? max_size_bytes cm) freed l s =
    ((evict_while_over cm (total - freed) l s).1, f, (evict_while_over cm (total - freed) l s).2).
Proof.
  revert freed s. induction l as [|[rel sz] l IH]; intros freed s Hok Hl Hf Hsum Ht;
    cbn [evict_until evict_while_over]; [eauto|].
  destruct (total - freed <=? max_size_bytes cm); [eauto|].
  destruct (listed_cons _ _ _ _ Hl) as [Hl1 Hl2].
  assert (Hsz : 0 <= sz) by (apply (listed_nonneg s.2 ((rel, sz) :: l) rel); [done|done|left]).
  assert (Hsum' : sz + (freed + sum_Z l.*2) <= total) by (rewrite fmap_cons in Hsum; simpl in Hsum; lia).
  assert (0 <= sum_Z l.*2).
  { apply sum_Z_nonneg, Forall_forall. intros z ([r z'] & -> & Hin)%list_elem_of_fmap.
    by eapply listed_nonneg. }
  destruct (evict_one cm rel s) as [s1|] eqn:Hone; [|apply IH; [done..|lia|done]].
  pose proof (evicted_one s s1 rel sz (sizes_writable _ Hok) Hl1 Hone) as He.
  rewrite u64_add_small by lia.
  replace (saturating_sub (total - freed) sz) with (total - (freed + sz))
    by (unfold saturating_sub; lia).
  destruct (IH (freed + sz) s1) as [f ->].
  { eapply sizes_ok_evicted; [done..|]. by intros ?? ?%list_elem_of_singleton; simplify_eq. }
  { eapply listed_evicted; [done..|]. intros r ->%list_elem_of_singleton.
    pose proof (listed_nodup _ _ Hl) as Hnd. by apply NoDup_cons in Hnd as [? _]. }
  { lia. } { lia. } { lia. }
  destruct (evict_while_over cm (total - (freed + sz)) l s1). eauto.
Qed.

(** *** The lists the loops run over *)
Lemma listed_rows db l :
  sizes_ok db → NoDup l.*1 → (∀ x, x ∈ l → x ∈ CacheDb.mount_rows db (mount_id cm)) →
  listed db (CacheDb.sized <$> l).
Proof.
  intros Hok Hnd Hin. split; [by rewrite <- list_fmap_compose|].
  intros rel sz ([rel' r] & Heq & Hx)%list_elem_of_fmap. unfold CacheDb.sized in Heq. simplify_eq/=.
  apply Hin, DbFacts.elem_of_mount_rows in Hx. exists r. split; [done|].
  pose proof (sizes_nonneg _ Hok _ _ Hx). pose proof (sizes_sum _ Hok) as Hs.
  unfold cached_total in Hs. rewrite (sum_map_delete _ _ _ _ Hx) in Hs.
  assert (0 <= sum_map size_bytes (delete (rel', mount_id cm) (cache_files (tables db)))).
  { apply sum_map_nonneg. intros k r' [_ Hr']%lookup_delete_Some. by eapply sizes_nonneg. }
  unfold CacheDb.col_u64. rewrite Z.max_l, as_u64_id by (int_bounds; lia). done.
Qed.

Lemma listed_candidates db :
  sizes_ok db → listed db (CacheDb.eviction_candidates db (mount_id cm) usize_MAX).
Proof.
  intros Hok. unfold CacheDb.eviction_candidates. rewrite DbFacts.sql_limit_all.
  apply listed_rows; [done|..].
  - rewrite sort_by_perm. apply DbFacts.NoDup_mount_rows.
  - intros x. by rewrite sort_by_perm.
Qed.

Lemma listed_expired now db :
  sizes_ok db → listed db (CacheDb.expired_files now db (mount_id cm) (expiry cm)).
Proof.
  intros Hok. unfold CacheDb.expired_files. apply listed_rows; [done|..].
  - eapply sublist_NoDup; [apply (DbFacts.NoDup_mount_rows db (mount_id cm))|].
    induction (CacheDb.mount_rows db (mount_id cm)) as [|x l IH]; [constructor|].
    rewrite filter_cons. case_decide; simpl; by constructor.
  - by intros x [_ ?]%list_elem_of_filter.
Qed.

Lemma sum_keys_le (f : gmap (path * path) FileRow) m (l : list (path * Z)) :
  (∀ k r, f !! k = Some r → 0 <= size_bytes r) → NoDup l.*1 →
  (∀ rel sz, (rel, sz) ∈ l → ∃ r, f !! (rel, m) = Some r ∧ size_bytes r = sz) →
  sum_Z l.*2 <= sum_map size_bytes f.
Proof.
  revert f. induction l as [|[rel sz] l IH]; intros f Hpos Hnd Hrow.
  { by apply sum_map_nonneg. }
  rewrite !fmap_cons in *. rewrite sum_Z_cons. cbn [fst snd] in *. apply NoDup_cons in Hnd as [Hnin Hnd].
  destruct (Hrow rel sz) as (r & Hr & <-); [by left|]. rewrite (sum_map_delete _ _ _ _ Hr).
  assert (sum_Z l.*2 <= sum_map size_bytes (delete (rel, m) f)); [|lia]. apply IH; [|done|].
  - intros k r' [_ ?]%lookup_delete_Some. eauto.
  - intros rel' sz' Hin. destruct (Hrow rel' sz') as (r' & Hr' & ?); [by right|].
    exists r'. split; [|done]. rewrite lookup_delete_ne; [done|]. intros [= <-].
    by apply elem_of_fst_notin in Hin.
Qed.

Lemma listed_sum db l : sizes_ok db → listed db l → sum_Z l.*2 <= cached_total db.
Proof.
  intros Hok Hl. eapply sum_keys_le; [apply Hok|apply Hl|]. intros rel sz Hin.
  by apply (listed_row _ _ Hl).
Qed.

Lemma listed_sum_nonneg db l : sizes_ok db → listed db l → 0 <= sum_Z l.*2.
Proof.
  intros Hok Hl. apply sum_Z_nonneg, Forall_forall. intros z ([r z'] & -> & Hin)%list_elem_of_fmap.
  by eapply listed_nonneg.
Qed.

Lemma total_global db : sizes_ok db → CacheDb.total_cached_bytes_global db = cached_total db.
Proof.
  intros Hok. apply DbFacts.sql_sum_id. split; [|apply Hok]. apply sum_map_nonneg, Hok.
Qed.

(** *** What an eviction over the candidates achieves *)
Record lru_eviction s s' (gone : list (path * Z)) (stop : Z → bool) : Prop := {
  le_evicted : evicted s s' gone;
  le_listed : listed s.2 gone;
  le_enough : stop (sum_Z gone.*2) = true ∨
    ∀ rel r, cache_files (tables s'.2) !! (rel, mount_id cm) = Some r → removable s'.1 rel = false;
  le_minimal : ∀ g x, gone = g ++ [x] → stop (sum_Z g.*2) = false;
  le_lru : ∀ x rel r, x ∈ gone →
    cache_files (tables s'.2) !! (rel, mount_id cm) = Some r → removable s'.1 rel = true →
    DbFacts.hit_of s.2 (mount_id cm) x.1 <= last_hit_at r;
}.

Lemma candidates_sorted db :
  sizes_ok db →
  StronglySorted (λ a b, DbFacts.hit_of db (mount_id cm) a.1 <= DbFacts.hit_of db (mount_id cm) b.1)
    (CacheDb.eviction_candidates db (mount_id cm) usize_MAX).
Proof.
  intros Hok. unfold CacheDb.eviction_candidates. rewrite DbFacts.sql_limit_all.
  eapply StronglySorted_fmap, sort_by_sorted, DbFacts.older_order. intros x y Hx Hy.
  unfold CacheDb.older. rewrite Z.leb_le. simpl. rewrite sort_by_perm in Hx, Hy.
  by rewrite !(DbFacts.hit_of_row db (mount_id cm)).
Qed.

Lemma candidate_row db rel r :
  cache_files (tables db) !! (rel, mount_id cm) = Some r →
  (rel, CacheDb.col_u64 (size_bytes r)) ∈ CacheDb.eviction_candidates db (mount_id cm) usize_MAX.
Proof.
  intros Hr. unfold CacheDb.eviction_candidates. rewrite DbFacts.sql_limit_all.
  apply list_elem_of_fmap. exists (rel, r). by rewrite sort_by_perm, DbFacts.elem_of_mount_rows.
Qed.

Lemma evict_until_lru stop s :
  sizes_ok s.2 →
  ∃ s' gone, evict_until cm stop 0 (CacheDb.eviction_candidates s.2 (mount_id cm) usize_MAX) s =
      (s', sum_Z gone.*2, gone) ∧ lru_eviction s s' gone stop.
Proof.
  intros Hok. set (l := CacheDb.eviction_candidates s.2 (mount_id cm) usize_MAX).
  assert (Hl : listed s.2 l) by by apply listed_candidates.
  assert (Hsum := listed_sum _ _ Hok Hl). pose proof (sizes_sum _ Hok).
  destruct (evict_until_ok stop 0 l s) as (s' & Heq & He); [done|done|lia|lia|].
  set (gone := victims stop (removable s.1) 0 l) in *. exists s', gone.
  split; [by rewrite Heq|].
  assert (Hleft : ∀ rel r, cache_files (tables s'.2) !! (rel, mount_id cm) = Some r →
    cache_files (tables s.2) !! (rel, mount_id cm) = Some r ∧ rel ∉ gone.*1 ∧
    removable s'.1 rel = removable s.1 rel).
  { intros rel r Hr. rewrite (ev_rows _ _ _ He) in Hr. case_decide as Hn; [done|].
    assert (rel ∉ gone.*1) by tauto. split_and!; [done..|]. by eapply removable_evicted. }
  assert (Hnotin : ∀ (rel : path) (sz : Z), rel ∉ gone.*1 → (rel, sz) ∉ gone)
    by (intros rel sz Hn Hin; by apply Hn, (elem_of_fst_notin gone rel sz)).
  split; [done|by eapply listed_sublist, victims_sublist|..].
  - destruct (victims_enough stop (removable s.1) 0 l) as [Hd|Hd]; [by left|right].
    intros rel r Hr. destruct (Hleft rel r Hr) as (Hr0 & Hn & ->).
    apply (Hd (rel, CacheDb.col_u64 (size_bytes r))); [by apply candidate_row|auto].
  - intros g x Hg. by apply (victims_last stop (removable s.1) 0 l g x) in Hg.
  - intros x rel r Hx Hr Hrem. destruct (Hleft rel r Hr) as (Hr0 & Hn & Hrem').
    pose proof (victims_lru _ stop (removable s.1) 0 l x (rel, CacheDb.col_u64 (size_bytes r))
      (candidates_sorted s.2 Hok) Hx (candidate_row _ _ _ Hr0) (Hnotin _ _ Hn)) as Hle.
    simpl in Hle. rewrite Hrem' in Hrem. specialize (Hle Hrem).
    unfold DbFacts.hit_of in Hle at 2. by rewrite Hr0 in Hle.
Qed.

(** *** Staleness *)
Lemma row_fingerprint_columns r c m lh h :
  CacheDb.row_fingerprint (mkFileRow (size_bytes r) c lh h (CacheDb.to_columns m)) =
  mkFingerprint (mtime_sec m) (mtime_nsec m) (CacheDb.col_u64 (size_bytes r)).
Proof. done. Qed.

Lemma refresh_lookup rel live db k r :
  query_only (pragmas db) = false →
  cache_files (tables db) !! k = Some r →
  ∃ r', cache_files (tables (refresh_source_metadata cm rel live db)) !! k = Some r' ∧
    CacheDb.row_fingerprint r' = CacheDb.row_fingerprint r ∧
    size_bytes r' = size_bytes r ∧ cached_at r' = cached_at r ∧
    last_hit_at r' = last_hit_at r ∧ hit_count r' = hit_count r ∧
    (k ≠ (rel, mount_id cm) → r' = r).
Proof.
  intros Hw Hr. unfold refresh_source_metadata, CacheDb.fingerprint_row.
  destruct (cache_files (tables db) !! (rel, mount_id cm)) as [r0|] eqn:H0; simpl; [|by exists r; split_and!].
  destruct (zero_fingerprint _); [by exists r; split_and!|].
  destruct (content_matches _ live) eqn:Hm; simpl; [|by exists r; split_and!].
  case_match; [by exists r; split_and!|]. unfold CacheDb.update_source_metadata.
  rewrite DbFacts.execute_writable by done. simpl.
  destruct (decide (k = (rel, mount_id cm))) as [->|Hne].
  - rewrite lookup_alter_eq, H0. simpl. rewrite H0 in Hr. injection Hr as <-.
    eexists. split; [done|]. unfold content_matches in Hm. to_prop.
    destruct Hm as [[Hs Hn] _]. simpl in Hs, Hn.
    split_and!; try done. unfold CacheDb.row_fingerprint. simpl. by rewrite Hs, Hn.
  - rewrite lookup_alter_ne by done. by exists r; split_and!.
Qed.

Lemma refresh_lookup_None rel live db k :
  query_only (pragmas db) = false → cache_files (tables db) !! k = None →
  cache_files (tables (refresh_source_metadata cm rel live db)) !! k = None.
Proof.
  intros Hw Hk. unfold refresh_source_metadata, CacheDb.update_source_metadata.
  destruct (CacheDb.fingerprint_row _ _ _); [|done]. destruct (zero_fingerprint _); [done|].
  destruct (negb _); [done|]. case_match; [done|]. rewrite DbFacts.execute_writable by done. simpl.
  by apply lookup_alter_None.
Qed.

Lemma refresh_writable rel live db :
  query_only (pragmas (refresh_source_metadata cm rel live db)) = query_only (pragmas db).
Proof.
  unfold refresh_source_metadata, CacheDb.update_source_metadata.
  destruct (CacheDb.fingerprint_row _ _ _); [|done]. destruct (zero_fingerprint _); [done|].
  destruct (negb _); [done|]. case_match; [done|]. apply DbFacts.query_only_execute.
Qed.

Lemma stored_after_update rel live db r :
  query_only (pragmas db) = false → cache_files (tables db) !! (rel, mount_id cm) = Some r →
  stat_ok live → st_mode live ≠ 0 → st_nlink live < 2 ^ 63 → st_rdev live < 2 ^ 63 →
  CacheDb.source_metadata_row
    (CacheDb.update_source_metadata rel (mount_id cm) (SourceMetadata.from_stat live) db)
    rel (mount_id cm) = Some (SourceMetadata.from_stat live).
Proof.
  intros Hw Hr Hok Hmode Hn Hrd. unfold CacheDb.source_metadata_row, CacheDb.update_source_metadata.
  rewrite DbFacts.execute_writable by done. simpl. rewrite lookup_alter_eq, Hr. simpl.
  rewrite DbFacts.of_to_columns; [|by apply BackingFacts.from_stat_ok|..|done|done].
  - unfold SourceMetadata.has_snapshot. simpl. by rewrite (proj2 (Z.eqb_neq _ _) Hmode).
  - simpl. pose proof (ok_size _ Hok). unfold as_u64, in_i64 in *. rewrite Z.mod_small; lia.
  - simpl. pose proof (ok_blocks _ Hok). unfold as_u64, in_i64 in *. rewrite Z.mod_small; lia.
Qed.

(** A row that agrees with the backing file. *)
Definition agrees (stat : path → option Backing.stat) (rel : path) (r : FileRow) : Prop :=
  ∃ live, stat rel = Some live ∧ content_matches (CacheDb.row_fingerprint r) live = true.

Section sweep.
Context (now : Z) (stat : path → option Backing.stat).
Context (Hstat : ∀ p live, stat p = Some live → 0 <= st_size live < 2 ^ 63).

(** One row of the sweep: its own row agrees or is gone, no other key changes. *)
Lemma sweep_row_ok d db checked dropped rel r :
  query_only (pragmas db) = false →
  cache_files (tables db) !! (rel, mount_id cm) = Some r →
  let '((d', db'), _, _) :=
    sweep_row now cm (Some stat) ((d, db), checked, dropped) (rel, CacheDb.row_fingerprint r) in
  query_only (pragmas db') = false ∧
  (∀ k, k ≠ (rel, mount_id cm) → cache_files (tables db') !! k = cache_files (tables db) !! k) ∧
  (∀ r', cache_files (tables db') !! (rel, mount_id cm) = Some r' → agrees stat rel r') ∧
  (agrees stat rel r → is_Some (cache_files (tables db') !! (rel, mount_id cm)) ∧ d' = d).
Proof.
  intros Hw Hr. unfold sweep_row, is_stale_with_fingerprint.
  assert (Hdrop : ∀ st, ¬ agrees stat rel r →
    let '(d', db') := (drop_stale cm rel st (d, db)).1 in
    query_only (pragmas db') = false ∧
    (∀ k, k ≠ (rel, mount_id cm) → cache_files (tables db') !! k = cache_files (tables db) !! k) ∧
    (∀ r', cache_files (tables db') !! (rel, mount_id cm) = Some r' → agrees stat rel r') ∧
    (agrees stat rel r → is_Some (cache_files (tables db') !! (rel, mount_id cm)) ∧ d' = d)).
  { intros st Hna. unfold drop_stale. destruct (Disk.remove_file d _); simpl;
      unfold CacheDb.remove; rewrite DbFacts.query_only_execute, DbFacts.execute_writable by done;
      simpl; (split_and!; [done|intros k Hk; by rewrite lookup_delete_ne by done| |done]);
      intros r'; by rewrite lookup_delete_eq. }
  destruct (stat rel) as [live|] eqn:Hlive.
  2:{ specialize (Hdrop StalePeriodic). destruct (drop_stale cm rel StalePeriodic (d, db)).1.
      apply Hdrop. intros (live & Hl & _). congruence. }
  destruct (zero_fingerprint _) eqn:Hz.
  - unfold backfill_fingerprint, mark_cached, CacheDb.mark_cached.
    rewrite DbFacts.query_only_execute, DbFacts.execute_writable by done. simpl.
    split_and!; [done|intros k Hk; by rewrite lookup_insert_ne by done| |].
    + intros r'. rewrite lookup_insert_eq. intros [= <-]. exists live. split; [done|].
      specialize (Hstat _ _ Hlive). unfold content_matches, CacheDb.row_fingerprint. simpl.
      rewrite !Z.eqb_refl. simpl. rewrite Z.max_l, as_u64_id by (int_bounds; lia).
      rewrite DbFacts.col_u64_as_i64 by lia. apply Z.eqb_refl.
    + intros _. rewrite lookup_insert_eq. eauto.
  - destruct (content_matches _ live) eqn:Hm.
    + split_and!.
      * by rewrite refresh_writable.
      * intros k Hk. destruct (cache_files (tables db) !! k) as [r0|] eqn:H0.
        -- destruct (refresh_lookup rel live db k r0 Hw H0) as (r' & -> & _ & _ & _ & _ & _ & ->); done.
        -- by apply refresh_lookup_None.
      * intros r' Hr'. destruct (refresh_lookup rel live db _ r Hw Hr) as (r2 & H2 & Hfp & _).
        rewrite H2 in Hr'. injection Hr' as <-. exists live. by rewrite Hfp.
      * intros _. destruct (refresh_lookup rel live db _ r Hw Hr) as (r2 & -> & _). eauto.
    + specialize (Hdrop StalePeriodic). destruct (drop_stale cm rel StalePeriodic (d, db)).1.
      apply Hdrop. intros (live' & Hl & Hm'). congruence.
Qed.

Lemma sweep_fold_ok l d db c1 c2 :
  query_only (pragmas db) = false → NoDup l.*1 →
  (∀ rel fp, (rel, fp) ∈ l → ∃ r, cache_files (tables db) !! (rel, mount_id cm) = Some r ∧
     CacheDb.row_fingerprint r = fp) →
  let db' := (foldl (sweep_row now cm (Some stat)) ((d, db), c1, c2) l).1.1.2 in
  (∀ k, (∀ rel, rel ∈ l.*1 → k ≠ (rel, mount_id cm)) →
     cache_files (tables db') !! k = cache_files (tables db) !! k) ∧
  (∀ rel r', rel ∈ l.*1 → cache_files (tables db') !! (rel, mount_id cm) = Some r' →
     agrees stat rel r') ∧
  (∀ rel r, rel ∈ l.*1 → cache_files (tables db) !! (rel, mount_id cm) = Some r →
     agrees stat rel r → is_Some (cache_files (tables db') !! (rel, mount_id cm))).
Proof.
  revert d db c1 c2. induction l as [|[rel fp] l IH]; intros d db c1 c2 Hw Hnd Hrow; cbn [foldl].
  { split_and!; [done| |]; by intros ? ? ?%elem_of_nil. }
  rewrite fmap_cons in *. cbn [fst] in *. apply NoDup_cons in Hnd as [Hnin Hnd].
  destruct (Hrow rel fp) as (r & Hr & Hfp); [by left|].
  pose proof (sweep_row_ok d db c1 c2 rel r Hw Hr) as Hstep. rewrite Hfp in Hstep.
  destruct (sweep_row now cm (Some stat) (d, db, c1, c2) (rel, fp)) as [[[d1 db1] c1'] c2'].
  destruct Hstep as (Hw1 & Hother & Hagr & Hkeep).
  destruct (IH d1 db1 c1' c2' Hw1 Hnd) as (IH1 & IH2 & IH3).
  { intros rel' fp' Hin. destruct (Hrow rel' fp') as (r' & Hr' & ?); [by right|].
    exists r'. split; [|done]. rewrite Hother; [done|]. intros [= ->].
    apply Hnin, list_elem_of_fmap. by exists (rel, fp'). }
  assert (Hmine : cache_files (tables (foldl (sweep_row now cm (Some stat)) (d1, db1, c1', c2') l).1.1.2)
      !! (rel, mount_id cm) = cache_files (tables db1) !! (rel, mount_id cm)).
  { apply IH1. intros rel' Hin [= ->]. done. }
  split_and!.
  - intros k Hk. rewrite IH1 by (intros rel' Hin; apply Hk; by right).
    apply Hother, Hk. by left.
  - intros rel' r' [->|Hin]%elem_of_cons Hr'; [|eauto]. rewrite Hmine in Hr'. eauto.
  - intros rel' r' [->|Hin]%elem_of_cons Hr' Ha.
    + rewrite Hmine. rewrite Hr in Hr'. injection Hr' as <-. by apply Hkeep.
    + eapply IH3; [done| |done]. rewrite Hother; [done|]. intros [= ->]. done.
Qed.
End sweep.

(** *** The two phases of [evict_if_needed] *)
Lemma elem_of_victims_all ok freed l x :
  x ∈ victims (λ _, false) ok freed l ↔ x ∈ l ∧ ok x.1 = true.
Proof.
  revert freed. induction l as [|[rel sz] l IH]; intros freed; cbn [victims].
  { rewrite elem_of_nil. tauto. }
  destruct (ok rel) eqn:Hr; rewrite ?elem_of_cons, IH; [|].
  - split; [intros [->|[]]; auto|tauto].
  - split; [tauto|]. intros [[->|?] ?]; [simpl in *; congruence|auto].
Qed.

Lemma expiry_phase now s :
  sizes_ok s.2 →
  let '(s1, gone) := if expiry cm =? 0 then (s, [])
    else evict_all cm (CacheDb.expired_files now s.2 (mount_id cm) (expiry cm)) s in
  evicted s s1 gone ∧ sizes_ok s1.2 ∧
  ∀ rel, rel ∈ gone.*1 ↔ expiry cm ≠ 0 ∧ removable s.1 rel = true ∧
    ∃ r, cache_files (tables s.2) !! (rel, mount_id cm) = Some r ∧
      last_hit_at r < as_i64 (saturating_sub now (expiry cm)).
Proof.
  intros Hok. destruct (expiry cm =? 0) eqn:E; to_prop.
  { split_and!; [apply evicted_nil|done|]. intros rel. rewrite elem_of_nil. tauto. }
  set (l := CacheDb.expired_files now s.2 (mount_id cm) (expiry cm)).
  assert (Hl : listed s.2 l) by by apply listed_expired.
  pose proof (listed_sum _ _ Hok Hl). pose proof (sizes_sum _ Hok).
  destruct (evict_until_ok (λ _, false) 0 l s) as (s1 & Heq & He); [done|done|lia|lia|].
  destruct (evict_all_until l s 0) as [f Hall]. rewrite Heq in Hall.
  destruct (evict_all cm l s) as [s1' gone]. injection Hall as -> _ <-.
  split_and!; [done|..].
  - eapply sizes_ok_evicted; [done..|]. intros rel sz [Hin _]%elem_of_victims_all.
    by eapply listed_nonneg.
  - intros rel. rewrite list_elem_of_fmap. split.
    + intros (x & -> & [Hin Hr]%elem_of_victims_all). split_and!; [done|done|].
      apply list_elem_of_fmap in Hin as ([rel r] & -> & [Hlt Hin]%list_elem_of_filter).
      exists r. split; [|done]. by apply DbFacts.elem_of_mount_rows.
    + intros (_ & Hr & r & Hrow & Hlt). exists (CacheDb.sized (rel, r)). split; [done|].
      apply elem_of_victims_all. split; [|done]. apply list_elem_of_fmap. exists (rel, r).
      split; [done|]. apply list_elem_of_filter. by rewrite DbFacts.elem_of_mount_rows.
Qed.

Lemma size_phase s :
  sizes_ok s.2 →
  let '(s1, gone) := if max_size_bytes cm <? CacheDb.total_cached_bytes_global s.2
    then evict_while_over cm (CacheDb.total_cached_bytes_global s.2)
           (CacheDb.eviction_candidates s.2 (mount_id cm) usize_MAX) s
    else (s, []) in
  lru_eviction s s1 gone (λ freed, cached_total s.2 - freed <=? max_size_bytes cm).
Proof.
  intros Hok. rewrite total_global by done.
  destruct (evict_until_lru (λ freed, cached_total s.2 - freed <=? max_size_bytes cm) s Hok)
    as (s1 & gone & Heq & Hspec).
  set (l := CacheDb.eviction_candidates s.2 (mount_id cm) usize_MAX) in *.
  assert (Hl : listed s.2 l) by by apply listed_candidates.
  pose proof (listed_sum _ _ Hok Hl). pose proof (sizes_sum _ Hok).
  destruct (evict_while_over_until (cached_total s.2) 0 l s) as [f Hwhile]; [done|done|lia|lia|lia|].
  rewrite Z.sub_0_r in Hwhile. rewrite Heq in Hwhile.
  destruct (max_size_bytes cm <? cached_total s.2) eqn:E; to_prop.
  - destruct (evict_while_over cm (cached_total s.2) l s) as [s1' gone'].
    by injection Hwhile as -> _ ->.
  - assert (gone = [] ∧ s1 = s) as [-> ->]; [|done].
    destruct l as [|[rel sz] l']; cbn [evict_until] in Heq; [by injection Heq as -> _ ->|].
    rewrite (proj2 (Z.leb_le _ _)) in Heq by lia. by injection Heq as -> _ ->.
Qed.

(** *** What every removal respects, the evictions and the sweep respect *)
Section frame.
Context (R : relation Store) `{!PreOrder R}.

Section evictions.
Hypothesis Hevict : ∀ rel s s', evict_one cm rel s = Some s' → R s s'.

Lemma evict_all_frame l s : R s (evict_all cm l s).1.
Proof.
  revert s. induction l as [|[rel size] l IH]; intros s; simpl; [done|].
  destruct (evict_one cm rel s) as [s1|] eqn:E; [|apply IH].
  specialize (IH s1). destruct (evict_all cm l s1). etrans; [by eapply Hevict|done].
Qed.

Lemma evict_until_frame stop freed l s : R s (evict_until cm stop freed l s).1.1.
Proof.
  revert freed s. induction l as [|[rel size] l IH]; intros freed s; simpl; [done|].
  destruct (stop freed); [done|].
  destruct (evict_one cm rel s) as [s1|] eqn:E; [|apply IH].
  specialize (IH (u64_add freed size) s1). destruct (evict_until _ _ _ l s1) as [[? ?] ?].
  etrans; [by eapply Hevict|done].
Qed.

Lemma evict_while_over_frame total l s : R s (evict_while_over cm total l s).1.
Proof.
  revert total s. induction l as [|[rel size] l IH]; intros total s; simpl; [done|].
  destruct (total <=? _); [done|].
  destruct (evict_one cm rel s) as [s1|] eqn:E; [|apply IH].
  specialize (IH (saturating_sub total size) s1). destruct (evict_while_over _ _ l s1).
  etrans; [by eapply Hevict|done].
Qed.

Lemma evict_to_fit_frame pending s : R s (evict_to_fit cm pending s).1.
Proof. unfold evict_to_fit. destruct (_ <=? _); [done|apply evict_until_frame]. Qed.

Lemma evict_if_needed_frame now s : R s (evict_if_needed now cm s).1.1.
Proof.
  unfold evict_if_needed. set (r1 := if expiry cm =? 0 then _ else _).
  assert (H1 : R s r1.1) by (unfold r1; destruct (_ =? _); [done|apply evict_all_frame]).
  destruct r1 as [s1 expired]. set (r2 := if _ <? _ then _ else _).
  assert (H2 : R s1 r2.1) by (unfold r2; destruct (_ <? _); [apply evict_while_over_frame|done]).
  destruct r2 as [s2 oversize]. by etrans.
Qed.
End evictions.

Lemma sweep_stale_frame now backing s :
  (∀ row acc, row ∈ CacheDb.all_fingerprints s.2 (mount_id cm) →
     R acc.1.1 (sweep_row now cm backing acc row).1.1) →
  R s (sweep_stale now cm backing s).1.1.
Proof.
  unfold sweep_stale. generalize (CacheDb.all_fingerprints s.2 (mount_id cm)). intros l Hrow.
  change s with (s, 0, 0).1.1 at 1. generalize (s, 0, 0). clear s.
  induction l as [|row l IH]; intros acc; simpl; [done|].
  etrans; [apply Hrow; by left|]. apply IH. intros row' acc' ?. apply Hrow. by right.
Qed.
End frame.
End facts.
End ManagerFacts.

(** ** Theorems *)
Module ManagerTheorems.
Import Manager ManagerFacts.
Section theorems.
Context `{MapOrder}.
Context (cm : CacheManager).

(** C7. Periodic eviction: with sizes SQLite can add up, and in every scan order,
    [evict_if_needed] removes exactly the files it reports, with their rows, and nothing else;
    the expired ones are the removable files of the mount not hit since the cutoff; afterwards
    the instance is within its size budget, or no file of this mount that is still tracked can be
    removed; no file is taken beyond need (with the last one the budget was still exceeded);
    and a removable file that stays was hit no earlier than any file taken for size. *)
Theorem evict_if_needed_meets_budget now s :
  sizes_ok s.2 →
  let '(s', expired, oversize) := evict_if_needed now cm s in
  evicted cm s s' (expired ++ oversize) ∧
  (∀ rel, rel ∈ expired.*1 ↔ expiry cm ≠ 0 ∧ removable cm s.1 rel = true ∧
     ∃ r, cache_files (tables s.2) !! (rel, mount_id cm) = Some r ∧
       last_hit_at r < as_i64 (saturating_sub now (expiry cm))) ∧
  (cached_total s'.2 <= max_size_bytes cm ∨
   ∀ rel r, cache_files (tables s'.2) !! (rel, mount_id cm) = Some r → removable cm s'.1 rel = false) ∧
  (∀ g x, oversize = g ++ [x] → max_size_bytes cm < cached_total s'.2 + x.2) ∧
  (∀ x rel r, x ∈ oversize → cache_files (tables s'.2) !! (rel, mount_id cm) = Some r →
     removable cm s'.1 rel = true → DbFacts.hit_of s.2 (mount_id cm) x.1 <= last_hit_at r).
Proof.
  intros Hok. unfold evict_if_needed. pose proof (expiry_phase cm now s Hok) as H1.
  destruct (if expiry cm =? 0 then _ else _) as [s1 expired]. destruct H1 as (He1 & Hok1 & Hexp).
  pose proof (size_phase cm s1 Hok1) as H2.
  destruct (if max_size_bytes cm <? _ then _ else _) as [s2 oversize].
  destruct H2 as [He2 Hl2 Henough Hmin Hlru]. pose proof (ev_total _ _ _ _ He2) as Htot.
  split_and!; [by eapply evicted_trans|done|..].
  - destruct Henough as [Hd|Hd]; [left|by right]. to_prop. lia.
  - intros g x ->. specialize (Hmin g x eq_refl). to_prop.
    rewrite fmap_app, sum_Z_app in Htot. simpl in Htot. lia.
  - intros [rel' sz] rel r Hx Hr Hrem. rewrite <- (Hlru (rel', sz) rel r Hx Hr Hrem).
    destruct (listed_row _ _ _ Hl2 rel' sz Hx) as (r' & Hr' & _).
    unfold DbFacts.hit_of. simpl. rewrite Hr'. rewrite (ev_rows _ _ _ _ He1) in Hr'.
    case_decide; [done|]. by rewrite Hr'.
Qed.

(** Room for a copy: [evict_to_fit] reports the bytes it freed, which are the recorded sizes
    of the files it removed; afterwards the pending copy fits the budget, or no tracked file of
    this mount can be removed; it stops as soon as the copy fits, and takes least recently hit
    files first. *)
Theorem evict_to_fit_makes_room pending s :
  sizes_ok s.2 →
  let '(s', freed) := evict_to_fit cm pending s in
  let target := saturating_sub (max_size_bytes cm) pending in
  ∃ gone, evicted cm s s' gone ∧ freed = sum_Z gone.*2 ∧
    freed = cached_total s.2 - cached_total s'.2 ∧
    (cached_total s'.2 <= target ∨
     ∀ rel r, cache_files (tables s'.2) !! (rel, mount_id cm) = Some r → removable cm s'.1 rel = false) ∧
    (∀ g x, gone = g ++ [x] → target < cached_total s'.2 + x.2) ∧
    (∀ x rel r, x ∈ gone → cache_files (tables s'.2) !! (rel, mount_id cm) = Some r →
       removable cm s'.1 rel = true → DbFacts.hit_of s.2 (mount_id cm) x.1 <= last_hit_at r).
Proof.
  intros Hok. unfold evict_to_fit. rewrite total_global by done.
  set (target := saturating_sub (max_size_bytes cm) pending).
  destruct (cached_total s.2 <=? target) eqn:E; to_prop.
  { exists []. split_and!; [apply evicted_nil|done|simpl; lia|by left| |by intros ??? ?%elem_of_nil].
    by intros [] ?. }
  destruct (evict_until_lru cm (λ freed, cached_total s.2 - target <=? freed) s Hok)
    as (s' & gone & -> & [He _ Henough Hmin Hlru]).
  pose proof (ev_total _ _ _ _ He) as Htot. simpl. exists gone. split_and!; [done|done|lia|..|done].
  - destruct Henough as [Hd|Hd]; [left|by right]. to_prop. lia.
  - intros g x ->. specialize (Hmin g x eq_refl). to_prop.
    rewrite fmap_app, sum_Z_app in Htot. simpl in Htot. lia.
Qed.

(** C21. Coherence after a sweep: with the backing store answering [stat] throughout and sizes
    below 2^63, [sweep_stale] leaves no tracked row of the mount that disagrees with the backing
    file's modification time or size, keeps every row that already agreed, and touches no row of
    another mount. *)
Theorem sweep_stale_leaves_agreeing_rows now stat s :
  query_only (pragmas s.2) = false →
  (∀ p live, stat p = Some live → 0 <= st_size live < 2 ^ 63) →
  let db' := (sweep_stale now cm (Some stat) s).1.1.2 in
  (∀ rel r, cache_files (tables db') !! (rel, mount_id cm) = Some r → agrees stat rel r) ∧
  (∀ rel r, cache_files (tables s.2) !! (rel, mount_id cm) = Some r → agrees stat rel r →
     is_Some (cache_files (tables db') !! (rel, mount_id cm))) ∧
  (∀ rel m, m ≠ mount_id cm →
     cache_files (tables db') !! (rel, m) = cache_files (tables s.2) !! (rel, m)).
Proof.
  intros Hw Hstat. destruct s as [d db]. unfold sweep_stale. cbn [snd] in *.
  set (l := CacheDb.all_fingerprints db (mount_id cm)).
  assert (Hfst : l.*1 = (CacheDb.mount_rows db (mount_id cm)).*1)
    by (unfold l, CacheDb.all_fingerprints; by rewrite <- list_fmap_compose).
  destruct (sweep_fold_ok cm now stat Hstat l d db 0 0 Hw) as (H1 & H2 & H3).
  - rewrite Hfst. apply DbFacts.NoDup_mount_rows.
  - intros rel fp ([rel' r] & Heq & Hin)%list_elem_of_fmap. simplify_eq/=.
    apply DbFacts.elem_of_mount_rows in Hin. eauto.
  - cbn zeta. split_and!.
    + intros rel r Hr. eapply H2; [|done].
      destruct (decide (rel ∈ l.*1)) as [|Hn]; [done|]. rewrite H1 in Hr.
      * rewrite Hfst. apply DbFacts.elem_of_mount_paths. eauto.
      * intros rel' Hin [= ->]. done.
    + intros rel r Hr Ha. eapply H3; [|done|done].
      rewrite Hfst. apply DbFacts.elem_of_mount_paths. eauto.
    + intros rel m Hm. apply H1. intros rel' _ [= _ ->]. done.
Qed.

(** Refreshing attributes never hides a content change: [refresh_source_metadata] leaves
    every row's fingerprint, size, hit clock and count as they were, changes no other row, and
    when the backing file still has the row's content but other attributes, stores exactly the
    live attributes. *)
Theorem refresh_keeps_identity rel live db :
  query_only (pragmas db) = false →
  let db' := refresh_source_metadata cm rel live db in
  (∀ k r, cache_files (tables db) !! k = Some r →
     ∃ r', cache_files (tables db') !! k = Some r' ∧
       CacheDb.row_fingerprint r' = CacheDb.row_fingerprint r ∧
       size_bytes r' = size_bytes r ∧ cached_at r' = cached_at r ∧
       last_hit_at r' = last_hit_at r ∧ hit_count r' = hit_count r ∧
       (k ≠ (rel, mount_id cm) → r' = r)) ∧
  (∀ k, cache_files (tables db) !! k = None → cache_files (tables db') !! k = None) ∧
  (∀ r, cache_files (tables db) !! (rel, mount_id cm) = Some r →
     zero_fingerprint (CacheDb.row_fingerprint r) = false →
     content_matches (CacheDb.row_fingerprint r) live = true →
     stat_ok live → st_mode live ≠ 0 → st_nlink live < 2 ^ 63 → st_rdev live < 2 ^ 63 →
     ∃ m, source_metadata cm db' rel = Some m ∧
       SourceMetadata.attrs_match m (SourceMetadata.from_stat live) = true).
Proof.
  intros Hw. cbn zeta. split_and!.
  - intros k r. by apply refresh_lookup.
  - intros k. by apply refresh_lookup_None.
  - intros r Hr Hz Hm Hok Hmode Hn Hrd. unfold refresh_source_metadata, CacheDb.fingerprint_row.
    rewrite Hr. simpl. rewrite Hz, Hm. simpl. unfold source_metadata.
    destruct (CacheDb.source_metadata_row db rel (mount_id cm)) as [m|] eqn:Hrow.
    + destruct (SourceMetadata.attrs_match m _) eqn:Ha; [by exists m|].
      exists (SourceMetadata.from_stat live). rewrite (stored_after_update cm rel live db r) by done.
      split; [done|apply BackingFacts.attrs_match_refl].
    + exists (SourceMetadata.from_stat live). rewrite (stored_after_update cm rel live db r) by done.
      split; [done|apply BackingFacts.attrs_match_refl].
Qed.
End theorems.
End ManagerTheorems.

(** ** Witnesses *)
Module ManagerWitnesses.
Import Manager ManagerFacts ManagerTheorems DbWitnesses.

Definition some_manager : CacheManager := mkCacheManager ["c"]%string 5 100 0 ["c"]%string true.

(** Two files of 3 and 700 recorded bytes, the second hit later; the budget is 5 bytes. *)
Definition two_files : Store :=
  (mkDisk {[ ["c"]%string := Dir;
             ["c"; "a"]%string := File (mkFile "xyz" 420 0 0 (0, 0) (0, 0));
             ["c"; "b"]%string := File (mkFile "uvw" 420 0 0 (0, 0) (0, 0)) ]} ∅,
   mkCacheDb (mkTables
     {[ (["a"], ["c"])%string := mkFileRow 3 40 40 1 (CacheDb.to_columns some_source);
        (["b"], ["c"])%string := mkFileRow 700 50 50 1 (CacheDb.to_columns some_source) ]}
     ∅ ∅) (CacheDb.apply_common_pragmas 64 false)).

Lemma two_files_ok : sizes_ok two_files.2.
Proof.
  split; [|vm_compute; reflexivity|reflexivity].
  intros k r. unfold two_files. simpl.
  intros [[<- <-]|[_ [<- <-]%lookup_singleton_Some]]%lookup_insert_Some; simpl; lia.
Qed.

Lemma evict_if_needed_meets_budget_witness :
  let '(s', _, _) := evict_if_needed 60 some_manager two_files in
  cached_total s'.2 <= 5 ∨
  ∀ rel r, cache_files (tables s'.2) !! (rel, ["c"]%string) = Some r →
    removable some_manager s'.1 rel = false.
Proof.
  pose proof (@evict_if_needed_meets_budget forward_order some_manager 60 two_files two_files_ok) as Hs.
  destruct (evict_if_needed 60 some_manager two_files) as [[s' e] o].
  destruct Hs as (_ & _ & Hs & _). exact Hs.
Defined.

Lemma evict_to_fit_makes_room_witness :
  (evict_to_fit some_manager 2 two_files).2 = 703 ∧
  ∃ gone, evicted some_manager two_files (evict_to_fit some_manager 2 two_files).1 gone.
Proof.
  split; [vm_compute; reflexivity|].
  pose proof (@evict_to_fit_makes_room forward_order some_manager 2 two_files two_files_ok) as Hs.
  destruct (evict_to_fit some_manager 2 two_files) as [s' f]. destruct Hs as (gone & He & _).
  exists gone. exact He.
Defined.

(** The backing store still has [a] as it was cached, and has lost [b]. *)
Definition some_live : Backing.stat :=
  mkStat 33188 1 1000 1000 0 3 4096 8 10 0 1000 5 1000 5.
Definition lossy_backing (p : path) : option Backing.stat :=
  if decide (p = ["a"]%string) then Some some_live else None.

Lemma sweep_stale_leaves_agreeing_rows_witness :
  is_Some (cache_files (tables (sweep_stale 60 some_manager (Some lossy_backing) two_files).1.1.2)
    !! (["a"], ["c"])%string).
Proof.
  destruct (@sweep_stale_leaves_agreeing_rows forward_order some_manager 60 lossy_backing two_files)
    as (_ & Hkeep & _).
  - reflexivity.
  - intros p live. unfold lossy_backing. case_decide; [|done]. intros [= <-]. simpl. lia.
  - eapply Hkeep; [vm_compute; reflexivity|]. exists some_live. split; vm_compute; reflexivity.
Defined.

Lemma refresh_keeps_identity_witness :
  ∃ m, source_metadata some_manager
         (refresh_source_metadata some_manager ["a"]%string some_live two_files.2) ["a"]%string = Some m ∧
    SourceMetadata.attrs_match m (SourceMetadata.from_stat some_live) = true.
Proof.
  destruct (refresh_keeps_identity some_manager ["a"]%string some_live two_files.2 eq_refl)
    as (_ & _ & Hset).
  eapply Hset; try (vm_compute; reflexivity).
  - split; vm_compute; intuition congruence.
  - vm_compute. congruence.
Defined.
End ManagerWitnesses.
