(* ===== verification/CacheIo.v ===== *)
(** * The copy pipeline

    [src/cache/io.rs]: the queue of cache jobs, the dispatcher, the workers and the copy itself.
    The atomic sections of the async code are functions on [Io]; the tasks that interleave
    between them are the step relation [io_step] on [System].  A job's progress through its
    worker is its program counter.  What the kernel answers during a copy is a [CopyEnv]. *)
From S2P Require Import Prelude Paths Backing Disk Db Manager.

Inductive CacheJobKind := Populate | Validate | Replace.
#[export] Instance CacheJobKind_eq_dec : EqDecision CacheJobKind.
Proof. solve_decision. Defined.
#[export] Instance CacheJobKind_countable : Countable CacheJobKind.
Proof.
  refine (inj_countable' (λ k, match k with Populate => 0 | Validate => 1 | Replace => 2 end)%nat
    (λ n, match n with 0 => Populate | 1 => Validate | _ => Replace end)%nat _).
  by intros [].
Defined.

Record CacheJob := mkCacheJob { rel_path : path; kind : CacheJobKind; enqueue_ts : Z }.
#[export] Instance CacheJob_eq_dec : EqDecision CacheJob.
Proof. solve_decision. Defined.

(** [known] maps a job to the control handle of its copy once it is in flight; a handle is an
    index into the abort flags, which the watcher and the worker share. *)
Record PipelineState := mkPipelineState {
  queue : list CacheJob;
  known : gmap (path * CacheJobKind) (option nat);
}.

Record Io := mkIo {
  pipe : PipelineState;
  abort : gmap nat bool;
  next_control : nat;
  store : Store;
}.

(** What the kernel answers while one file is copied: the opening of the source with its
    metadata, the successive reads (an empty one is the end of the file), the error of the
    [i]-th write with how much of the chunk it wrote, and the later calls. *)
Record CopyEnv := mkCopyEnv {
  ce_open : result io_error stat;
  ce_reads : list (result io_error string);
  ce_write : nat → option (io_error * nat);
  ce_sync : option io_error;
  ce_aborted : bool;
  ce_final : option stat;
  ce_chmod : option io_error;
  ce_chown : option io_error;
  ce_utimens : option io_error;
}.

Module CacheIO.

(** ** The copy *)
Definition partial_path (dest : path) : path :=
  parent dest ++ [(default "" (file_name dest) ++ ".partial")%string].

Definition set_file (f : file → file) (d : Disk) (p : path) : Disk :=
  mkDisk (alter (λ n, match n with File x => File (f x) | Dir => Dir end) p (nodes d)) (undeletable d).

(** A failed [chmod] or [utimensat] is an error, a failed [lchown] is not. *)
Definition apply_source_metadata (env : CopyEnv) (d : Disk) (p : path) (m : SourceMetadata) :
    Disk * result io_error unit :=
  match ce_chmod env with
  | Some e => (d, Err e)
  | None =>
      let d1 := set_file (λ f, mkFile (contents f) (Z.land (mode m) 4095) (f_uid f) (f_gid f)
                                      (f_atime f) (f_mtime f)) d p in
      let d2 := match ce_chown env with
                | Some _ => d1
                | None => set_file (λ f, mkFile (contents f) (f_mode f) (uid m) (gid m)
                                                (f_atime f) (f_mtime f)) d1 p
                end in
      match ce_utimens env with
      | Some e => (d2, Err e)
      | None => (set_file (λ f, mkFile (contents f) (f_mode f) (f_uid f) (f_gid f)
                   (atime_sec m, atime_nsec m) (mtime_sec m, mtime_nsec m)) d2 p, Ok tt)
      end
  end.

(** The read and write loop; [i] counts the writes. *)
Fixpoint copy_loop (env : CopyEnv) (reads : list (result io_error string)) (i : nat) (d : Disk)
    (p : path) : Disk * result io_error unit :=
  match reads with
  | [] => (d, Ok tt)
  | Err e :: _ => (d, Err e)
  | Ok chunk :: reads' =>
      if decide (chunk = ""%string) then (d, Ok tt)
      else match ce_write env i with
           | Some (e, n) => (Disk.append d p (String.substring 0 n chunk), Err e)
           | None => copy_loop env reads' (S i) (Disk.append d p chunk) p
           end
  end.

Definition source_changed (initial final : stat) : bool :=
  negb ((st_size final =? st_size initial) && (st_mtime final =? st_mtime initial)
        && (st_mtime_nsec final =? st_mtime_nsec initial)).

Definition perform_copy_inner (env : CopyEnv) (d : Disk) (cache_dest partial : path) :
    Disk * result io_error SourceMetadata :=
  match ce_open env with
  | Err e => (d, Err e)
  | Ok src_meta =>
      match Disk.open_truncate d partial with
      | Err e => (d, Err e)
      | Ok d1 =>
          let '(d2, copy_result) := copy_loop env (ce_reads env) 0 d1 partial in
          match copy_result with
          | Err e => (Disk.try_remove d2 partial, Err e)
          | Ok _ =>
              match ce_sync env with
              | Some e => (Disk.try_remove d2 partial, Err e)
              | None =>
                  let stale := match ce_final env with
                               | Some s => source_changed src_meta s
                               | None => false
                               end in
                  if ce_aborted env || stale
                  then (Disk.try_remove d2 partial, Err (OtherError "backing changed during copy"))
                  else
                    let snapshot := match ce_final env with
                                    | None => SourceMetadata.from_metadata src_meta
                                    | Some s => SourceMetadata.from_stat s
                                    end in
                    let '(d3, applied) := apply_source_metadata env d2 partial snapshot in
                    match applied with
                    | Err e => (d3, Err e)
                    | Ok _ =>
                        match Disk.rename d3 partial cache_dest with
                        | Err e => (Disk.try_remove d3 partial, Err e)
                        | Ok d4 => (d4, Ok snapshot)
                        end
                    end
              end
          end
      end
  end.

Definition perform_copy (env : CopyEnv) (d : Disk) (cache_dest : path) :
    Disk * result io_error SourceMetadata :=
  match Disk.create_dir_all d (parent cache_dest) with
  | (d1, Err e) => (d1, Err e)
  | (d1, Ok _) =>
      let partial := partial_path cache_dest in
      let '(d2, r) := perform_copy_inner env d1 cache_dest partial in
      (if is_err r then Disk.try_remove d2 partial else d2, r)
  end.

(** The bytes a run of reads delivers before the end of the file. *)
Fixpoint delivered (reads : list (result io_error string)) : string :=
  match reads with
  | Ok chunk :: reads' => if decide (chunk = ""%string) then "" else (chunk ++ delivered reads')%string
  | _ => ""
  end.

(** ** The pipeline state *)
Definition job_key (j : CacheJob) : path * CacheJobKind := (rel_path j, kind j).

Definition pipeline_new : PipelineState := mkPipelineState [] ∅.

(** The loop of [spawn] over the jobs loaded from the database. *)
Definition load_job (p : PipelineState) (loaded : path * path * Z) : PipelineState :=
  let '(_, q, ts) := loaded in
  match known p !! (q, Populate) with
  | Some _ => p
  | None => mkPipelineState (queue p ++ [mkCacheJob q Populate ts])
                            (<[(q, Populate) := None]> (known p))
  end.

Definition initial_pipeline (loaded : list (path * path * Z)) : PipelineState :=
  foldl load_job pipeline_new loaded.

Section pipeline.
Context `{MapOrder} (statvfs : Disk → path → option Statvfs) (cm : CacheManager).

Definition spawn (now deferred_ttl_minutes : Z) (s : Store) : Io :=
  mkIo (initial_pipeline (CacheDb.load_deferred now s.2 deferred_ttl_minutes)) ∅ 0 s.

Definition with_db (f : CacheDb → CacheDb) (io : Io) : Io :=
  mkIo (pipe io) (abort io) (next_control io) ((store io).1, f (store io).2).

Definition with_pipe (p : PipelineState) (io : Io) : Io :=
  mkIo p (abort io) (next_control io) (store io).

Definition with_store (s : Store) (io : Io) : Io :=
  mkIo (pipe io) (abort io) (next_control io) s.

(** The part of [submit_job] under the state lock. *)
Definition submit_locked (now : Z) (rel : path) (k : CacheJobKind) (io : Io) : Io :=
  match known (pipe io) !! (rel, k) with
  | Some _ => io
  | None =>
      let io' := with_pipe (mkPipelineState (queue (pipe io) ++ [mkCacheJob rel k now])
                                            (<[(rel, k) := None]> (known (pipe io)))) io in
      if decide (k = Populate) then with_db (CacheDb.save_deferred rel rel now) io' else io'
  end.

Definition submit_job (now : Z) (rel : path) (k : CacheJobKind) (io : Io) : Io :=
  if bool_decide (k = Populate) && Manager.is_cached cm (store io).1 rel then io
  else submit_locked now rel k io.

Definition submit_cache (now : Z) (rel : path) : Io → Io := submit_job now rel Populate.
Definition submit_validation (now : Z) (rel : path) : Io → Io := submit_job now rel Validate.
Definition submit_replace (now : Z) (rel : path) : Io → Io := submit_job now rel Replace.

Definition submit_maintenance_validation (now : Z) (io : Io) : Io :=
  foldl (λ io row, submit_validation now row.1 io) io
    (CacheDb.all_fingerprints (store io).2 (mount_id cm)).

Definition abort_job (rel : path) (io : Io) (k : CacheJobKind) : Io :=
  match known (pipe io) !! (rel, k) with
  | Some (Some c) => mkIo (pipe io) (<[c := true]> (abort io)) (next_control io) (store io)
  | _ => io
  end.

Definition mark_abort (rel : path) (io : Io) : Io := foldl (abort_job rel) io [Populate; Replace].

(** The locked loop of [expire_stale]; the second result is the list of populate paths whose
    deferred rows are then removed without the lock. *)
Fixpoint expire_front (cutoff : Z) (q : list CacheJob) (k : gmap (path * CacheJobKind) (option nat)) :
    PipelineState * list path :=
  match q with
  | [] => (mkPipelineState [] k, [])
  | job :: q' =>
      if cutoff <=? enqueue_ts job then (mkPipelineState (job :: q') k, [])
      else
        let '(p, expired) := expire_front cutoff q' (delete (job_key job) k) in
        (p, if decide (kind job = Populate) then rel_path job :: expired else expired)
  end.

Definition expire_locked (now ttl_minutes : Z) (io : Io) : Io * list path :=
  if ttl_minutes =? 0 then (io, [])
  else
    let cutoff := saturating_sub now (as_u64 (ttl_minutes * 60)) in
    let '(p, expired) := expire_front cutoff (queue (pipe io)) (known (pipe io)) in
    (with_pipe p io, expired).

Definition expire_stale (now ttl_minutes : Z) (io : Io) : Io :=
  let '(io', expired) := expire_locked now ttl_minutes io in
  foldl (λ io p, with_db (CacheDb.remove_deferred p) io) io' expired.

(** ** The dispatcher *)
Fixpoint remove_at {A} (i : nat) (l : list A) : option (A * list A) :=
  match i, l with
  | _, [] => None
  | O, x :: l' => Some (x, l')
  | S i', x :: l' => '(y, l'') ← remove_at i' l'; Some (y, x :: l'')
  end.

Definition pop_next_job (q : list CacheJob) (copy_allowed : bool) : option (CacheJob * list CacheJob) :=
  if copy_allowed then
    match q with [] => None | job :: q' => Some (job, q') end
  else
    idx ← position (λ job, bool_decide (kind job = Validate)) q;
    remove_at idx q.

(** ** The workers, between their suspension points *)
Definition populate_start (rel : path) (k : CacheJobKind) (io : Io) : Io * option nat :=
  if bool_decide (k = Populate) && Manager.is_cached cm (store io).1 rel then (io, None)
  else
    let c := next_control io in
    (mkIo (mkPipelineState (queue (pipe io)) (<[(rel, k) := Some c]> (known (pipe io))))
          (<[c := false]> (abort io)) (S c) (store io), Some c).

(** On-demand eviction under [evict_lock]; the result tells whether there is room now. *)
Definition populate_room (size_bytes : Z) (io : Io) : Io * bool :=
  let s := store io in
  let s' := if Manager.has_free_space statvfs cm s.1 then s
            else (Manager.evict_to_fit cm size_bytes s).1 in
  (with_store s' io, Manager.has_free_space statvfs cm s'.1).

Definition populate_copy (env : CopyEnv) (rel : path) (io : Io) : Io * result io_error SourceMetadata :=
  let '(d, r) := perform_copy env (store io).1 (Manager.cache_path cm rel) in
  (with_store (d, (store io).2) io, r).

Definition populate_commit (now : Z) (rel : path) (r : result io_error SourceMetadata) (io : Io) : Io :=
  match r with
  | Ok m => with_db (Manager.mark_cached now cm rel m) io
  | Err _ => io
  end.

Definition finish_known_locked (rel : path) (k : CacheJobKind) (io : Io) : Io :=
  with_pipe (mkPipelineState (queue (pipe io)) (delete (rel, k) (known (pipe io)))) io.

Definition finish_known_db (rel : path) (k : CacheJobKind) (io : Io) : Io :=
  if decide (k = Populate) then with_db (CacheDb.remove_deferred rel) io else io.

Definition validate_body (now : Z) (backing : option (path → option stat)) (rel : path) (io : Io) : Io :=
  match Manager.is_stale cm backing (store io).2 rel with
  | Fresh live => with_db (Manager.refresh_source_metadata cm rel live) io
  | NotTracked => io
  | NeedsBackfill st => with_db (Manager.backfill_fingerprint now cm rel st) io
  | BackingGone => with_store (Manager.drop_stale cm rel StalePeriodic (store io)).1 io
  | Stale => submit_replace now rel io
  end.

Definition eviction_worker_tick (now : Z) (io : Io) : Io :=
  with_store (Manager.evict_if_needed now cm (store io)).1.1 io.
End pipeline.
End CacheIO.

(** ** Interleaving *)
Inductive pc :=
  | Start
  | Room (c : nat)
  | Copy (c : nat)
  | Commit (r : result io_error SourceMetadata)
  | FinishLocked
  | FinishDb.

Record Worker := mkWorker { w_job : CacheJob; w_pc : pc }.

(** The shared state, the copy job the dispatcher holds while it waits for a permit, the spawned
    workers, the free permits, and the expired paths whose rows are still to be removed. *)
Record System := mkSystem {
  io : Io; held : option CacheJob; workers : list Worker; permits : nat; expiring : list path;
}.

Module Pipeline.
Import CacheIO.
Section steps.
Context `{MapOrder} (statvfs : Disk → path → option Statvfs) (cm : CacheManager).

Definition set_io (f : Io → Io) (s : System) : System :=
  mkSystem (f (io s)) (held s) (workers s) (permits s) (expiring s).

Inductive io_step : System → System → Prop :=
  | step_submit s now rel k :
      io_step s (set_io (submit_locked now rel k) s)
  | step_abort s rel :
      io_step s (set_io (mark_abort rel) s)
  | step_outside s st :
      io_step s (set_io (with_store st) s)
  | step_expire s now ttl io' expired :
      expire_locked now ttl (io s) = (io', expired) →
      io_step s (mkSystem io' (held s) (workers s) (permits s) (expiring s ++ expired))
  | step_expire_row s p ps :
      expiring s = p :: ps →
      io_step s (mkSystem (with_db (CacheDb.remove_deferred p) (io s)) (held s) (workers s)
                          (permits s) ps)
  | step_dispatch_validate s allowed job q :
      held s = None → pop_next_job (queue (pipe (io s))) allowed = Some (job, q) →
      kind job = Validate →
      io_step s (mkSystem (with_pipe (mkPipelineState q (known (pipe (io s)))) (io s)) None
                          (workers s ++ [mkWorker job Start]) (permits s) (expiring s))
  | step_dispatch_copy s allowed job q :
      held s = None → pop_next_job (queue (pipe (io s))) allowed = Some (job, q) →
      kind job ≠ Validate →
      io_step s (mkSystem (with_pipe (mkPipelineState q (known (pipe (io s)))) (io s)) (Some job)
                          (workers s) (permits s) (expiring s))
  | step_permit s job n :
      held s = Some job → permits s = S n →
      io_step s (mkSystem (io s) None (workers s ++ [mkWorker job Start]) n (expiring s))
  | step_skip s l1 l2 job :
      workers s = l1 ++ mkWorker job Start :: l2 → kind job ≠ Validate →
      populate_start cm (rel_path job) (kind job) (io s) = (io s, None) →
      io_step s (mkSystem (io s) (held s) (l1 ++ mkWorker job FinishLocked :: l2) (permits s)
                          (expiring s))
  | step_start s l1 l2 job io' c :
      workers s = l1 ++ mkWorker job Start :: l2 → kind job ≠ Validate →
      populate_start cm (rel_path job) (kind job) (io s) = (io', Some c) →
      io_step s (mkSystem io' (held s) (l1 ++ mkWorker job (Room c) :: l2) (permits s) (expiring s))
  | step_room s l1 l2 job c size io' ok :
      workers s = l1 ++ mkWorker job (Room c) :: l2 →
      populate_room statvfs cm size (io s) = (io', ok) →
      io_step s (mkSystem io' (held s)
                   (l1 ++ mkWorker job (if ok : bool then Copy c else FinishLocked) :: l2)
                   (permits s) (expiring s))
  | step_copy s l1 l2 job c env io' r :
      workers s = l1 ++ mkWorker job (Copy c) :: l2 →
      ce_aborted env = default false (abort (io s) !! c) →
      populate_copy cm env (rel_path job) (io s) = (io', r) →
      io_step s (mkSystem io' (held s) (l1 ++ mkWorker job (Commit r) :: l2) (permits s) (expiring s))
  | step_commit s l1 l2 job r now :
      workers s = l1 ++ mkWorker job (Commit r) :: l2 →
      io_step s (mkSystem (populate_commit cm now (rel_path job) r (io s)) (held s)
                   (l1 ++ mkWorker job FinishLocked :: l2) (permits s) (expiring s))
  | step_validate s l1 l2 job now backing :
      workers s = l1 ++ mkWorker job Start :: l2 → kind job = Validate →
      io_step s (mkSystem (validate_body cm now backing (rel_path job) (io s)) (held s)
                   (l1 ++ mkWorker job FinishLocked :: l2) (permits s) (expiring s))
  | step_finish_locked s l1 l2 job :
      workers s = l1 ++ mkWorker job FinishLocked :: l2 →
      io_step s (mkSystem (finish_known_locked (rel_path job) (kind job) (io s)) (held s)
                   (l1 ++ mkWorker job FinishDb :: l2) (permits s) (expiring s))
  | step_finish_db s l1 l2 job :
      workers s = l1 ++ mkWorker job FinishDb :: l2 →
      io_step s (mkSystem (finish_known_db (rel_path job) (kind job) (io s)) (held s) (l1 ++ l2)
                   (if decide (kind job = Validate) then permits s else S (permits s)) (expiring s)).

(** A freshly spawned pipeline. *)
Definition spawned (now ttl : Z) (max_copies : nat) (st : Store) : System :=
  mkSystem (spawn now ttl st) None [] max_copies [].

Definition reachable (max_copies : nat) (s : System) : Prop :=
  ∃ now ttl st, rtc io_step (spawned now ttl max_copies st) s.

(** ** The invariant *)
Definition unfinished (w : Worker) : bool := match w_pc w with FinishDb => false | _ => true end.

Definition worker_keys (ws : list Worker) : list (path * CacheJobKind) :=
  (λ w, job_key (w_job w)) <$> filter (λ w, unfinished w = true) ws.

Definition held_keys (h : option CacheJob) : list (path * CacheJobKind) :=
  match h with Some j => [job_key j] | None => [] end.

(** Everything queued, held or in flight. *)
Definition active (s : System) : list (path * CacheJobKind) :=
  (job_key <$> queue (pipe (io s))) ++ held_keys (held s) ++ worker_keys (workers s).

Definition copying (ws : list Worker) : nat :=
  length (filter (λ w, kind (w_job w) ≠ Validate) ws).

Definition handle_of (p : pc) : option nat :=
  match p with Room c | Copy c => Some c | _ => None end.

Record pipeline_ok (max_copies : nat) (s : System) : Prop := {
  ok_nodup : NoDup (active s);
  ok_known : ∀ k, is_Some (known (pipe (io s)) !! k) ↔ k ∈ active s;
  ok_permits : (permits s + copying (workers s))%nat = max_copies;
  ok_handles : ∀ w c, w ∈ workers s → handle_of (w_pc w) = Some c →
    known (pipe (io s)) !! job_key (w_job w) = Some (Some c);
  ok_kinds : ∀ w, w ∈ workers s → is_Some (handle_of (w_pc w)) → kind (w_job w) ≠ Validate;
  ok_held : ∀ j, held s = Some j → kind j ≠ Validate;
}.
End steps.
End Pipeline.

(** ** Lemmas on the copy *)
Module CopyFacts.
Import CacheIO.
Section facts.
Context `{MapOrder}.
Implicit Types d : Disk.

(** The partial file being written, and only it, changes. *)
Definition grows (p : path) d d' (added : string) : Prop :=
  DiskFacts.only_changes (λ q, q = p) d d' ∧
  ∀ f, nodes d !! p = Some (File f) →
    ∃ f', nodes d' !! p = Some (File f') ∧ contents f' = (contents f ++ added)%string.

Lemma append_grows d p chunk : grows p d (Disk.append d p chunk) chunk.
Proof.
  split; [split; [done|]|].
  - intros q Hq. simpl. by rewrite lookup_alter_ne.
  - intros f Hf. simpl. rewrite lookup_alter_eq, Hf. simpl. eauto.
Qed.

Lemma grows_nil d p : grows p d d "".
Proof. split; [done|]. intros f Hf. exists f. by rewrite string_app_nil. Qed.

Lemma grows_trans p d1 d2 d3 a b : grows p d1 d2 a → grows p d2 d3 b → grows p d1 d3 (a ++ b)%string.
Proof.
  intros [C1 G1] [C2 G2]. split; [by eapply DiskFacts.only_changes_trans|].
  intros f Hf. destruct (G1 f Hf) as (f1 & Hf1 & E1). destruct (G2 f1 Hf1) as (f2 & Hf2 & E2).
  exists f2. split; [done|]. by rewrite E2, E1, string_app_assoc.
Qed.

Lemma copy_loop_grows env reads i d p :
  ∃ added, grows p d (copy_loop env reads i d p).1 added ∧
    (is_ok (copy_loop env reads i d p).2 = true → added = delivered reads).
Proof.
  revert i d. induction reads as [|[chunk|e] reads IH]; intros i d; simpl.
  - exists ""%string. split; [apply grows_nil|done].
  - case_decide; [exists ""%string; split; [apply grows_nil|done]|].
    destruct (ce_write env i) as [[e n]|].
    + eexists. split; [apply append_grows|done].
    + destruct (IH (S i) (Disk.append d p chunk)) as (added & Hg & Heq).
      exists (chunk ++ added)%string. split; [eapply grows_trans; [apply append_grows|done]|].
      intros Hok. by rewrite Heq.
  - exists ""%string. split; [apply grows_nil|done].
Qed.

Lemma set_file_grows f d p :
  (∀ x, contents (f x) = contents x) → grows p d (set_file f d p) "".
Proof.
  intros Hf. split; [split; [done|]|].
  - intros q Hq. simpl. by rewrite lookup_alter_ne.
  - intros x Hx. simpl. rewrite lookup_alter_eq, Hx. simpl. eexists. split; [done|].
    by rewrite Hf, string_app_nil.
Qed.

Lemma set_file_lookup f d p x :
  nodes d !! p = Some (File x) → nodes (set_file f d p) !! p = Some (File (f x)).
Proof. intros Hx. simpl. by rewrite lookup_alter_eq, Hx. Qed.

Lemma apply_grows env d p m : grows p d (apply_source_metadata env d p m).1 "".
Proof.
  unfold apply_source_metadata. destruct (ce_chmod env); [apply grows_nil|].
  set (d1 := set_file _ d p). set (d2 := match ce_chown env with Some _ => d1 | None => _ end).
  assert (G1 : grows p d d1 "") by by apply set_file_grows.
  assert (G2 : grows p d d2 "").
  { unfold d2. destruct (ce_chown env); [done|].
    apply (grows_trans p d d1 _ "" ""); [done|by apply set_file_grows]. }
  destruct (ce_utimens env); [done|]. simpl.
  apply (grows_trans p d d2 _ "" ""); [done|by apply set_file_grows].
Qed.

(** On success the partial file has the snapshot's permission bits and times. *)
Definition carries (m : SourceMetadata) (f : file) : Prop :=
  f_mode f = Z.land (mode m) 4095 ∧ f_atime f = (atime_sec m, atime_nsec m) ∧
  f_mtime f = (mtime_sec m, mtime_nsec m).

Lemma apply_carries env d p m x :
  nodes d !! p = Some (File x) → is_ok (apply_source_metadata env d p m).2 = true →
  ∃ f, nodes (apply_source_metadata env d p m).1 !! p = Some (File f) ∧ carries m f.
Proof.
  intros Hx. unfold apply_source_metadata. destruct (ce_chmod env); [done|].
  destruct (ce_utimens env); [done|]. intros _.
  destruct (ce_chown env); simpl; rewrite ?lookup_alter_eq, Hx; simpl; eexists; by split.
Qed.

Lemma open_truncate_spec d p d' :
  Disk.open_truncate d p = Ok d' →
  DiskFacts.only_changes (λ q, q = p) d d' ∧ p ∉ undeletable d ∧
  ∃ f, nodes d' !! p = Some (File f) ∧ contents f = ""%string.
Proof.
  unfold Disk.open_truncate. case_decide as Hu; [done|].
  destruct (Disk.is_dir d p); [done|]. destruct (negb _); [done|]. intros [= <-].
  split_and!; [split; [done|]|done|].
  - intros q Hq. simpl. by rewrite lookup_insert_ne.
  - simpl. rewrite lookup_insert_eq. eexists. split; [done|].
    by destruct (nodes d !! p) as [[]|].
Qed.

Lemma rename_spec d old new d' :
  Disk.rename d old new = Ok d' → old ≠ new →
  ∃ f, nodes d !! old = Some (File f) ∧ nodes d' !! new = Some (File f) ∧
    nodes d' !! old = None ∧ DiskFacts.only_changes (λ q, q = old ∨ q = new) d d'.
Proof.
  unfold Disk.rename. destruct (nodes d !! old) as [[f|]|] eqn:E; try done.
  case_decide; [done|]. destruct (Disk.is_dir d new); [done|]. destruct (negb _); [done|].
  intros [= <-] Hne. exists f. simpl. split_and!; [done|apply lookup_insert_eq| |split; [done|]].
  - rewrite lookup_insert_ne by done. apply lookup_delete_eq.
  - intros q Hq. simpl. by rewrite lookup_insert_ne, lookup_delete_ne by (intros ->; tauto).
Qed.

Lemma partial_path_ne dest : partial_path dest ≠ dest.
Proof.
  unfold partial_path. destruct dest as [|c p _] using rev_ind; [done|].
  rewrite parent_snoc, file_name_snoc. simpl. intros [_ Heq]%app_inj_tail.
  apply (f_equal String.length) in Heq. rewrite string_length_app in Heq. simpl in Heq. lia.
Qed.

(** What a copy may touch besides its destination: the partial file and missing directories on
    the way. *)
Definition copy_scratch d dest (p : path) : Prop :=
  p = partial_path dest ∨ DiskFacts.new_dir_on d (parent dest) p.

Lemma new_dir_on_ne d dest : dest ≠ [] → ¬ DiskFacts.new_dir_on d (parent dest) dest.
Proof.
  intros Hne [_ Hs]. apply starts_with_true in Hs as [s Hs].
  apply (f_equal length) in Hs. rewrite length_app in Hs.
  pose proof (length_parent dest Hne). lia.
Qed.

(** The inner copy: the destination changes only with an [Ok]. *)
Lemma perform_copy_inner_err env d dest e :
  (perform_copy_inner env d dest (partial_path dest)).2 = Err e →
  DiskFacts.only_changes (λ q, q = partial_path dest) d
    (perform_copy_inner env d dest (partial_path dest)).1.
Proof.
  unfold perform_copy_inner. set (p := partial_path dest).
  destruct (ce_open env) as [src|]; [|done].
  destruct (Disk.open_truncate d p) as [d1|] eqn:Ho; [|done].
  destruct (open_truncate_spec _ _ _ Ho) as (C1 & _ & _).
  destruct (copy_loop_grows env (ce_reads env) 0 d1 p) as (added & [C2 _] & _).
  destruct (copy_loop env (ce_reads env) 0 d1 p) as [d2 r2]. cbn [fst] in C2.
  assert (C3 : DiskFacts.only_changes (λ q, q = p) d (Disk.try_remove d2 p)).
  { exact (DiskFacts.only_changes_trans _ _ _ _ C1
      (DiskFacts.only_changes_trans _ _ _ _ C2 (DiskFacts.try_remove_changes d2 p))). }
  destruct r2; [|done]. destruct (ce_sync env); [done|]. destruct (_ || _); [done|].
  set (snap := match ce_final env with None => _ | Some _ => _ end).
  destruct (apply_grows env d2 p snap) as [C4 _].
  destruct (apply_source_metadata env d2 p snap) as [d3 r3]. cbn [fst] in C4.
  assert (C5 : DiskFacts.only_changes (λ q, q = p) d d3)
    by exact (DiskFacts.only_changes_trans _ _ _ _ C1 (DiskFacts.only_changes_trans _ _ _ _ C2 C4)).
  destruct r3; [|done]. destruct (Disk.rename d3 p dest); [done|]. intros _.
  exact (DiskFacts.only_changes_trans _ _ _ _ C5 (DiskFacts.try_remove_changes d3 p)).
Qed.

Lemma perform_copy_inner_ok env d dest d' m :
  perform_copy_inner env d dest (partial_path dest) = (d', Ok m) →
  ∃ src f,
    ce_open env = Ok src ∧ ce_aborted env = false ∧ ce_sync env = None ∧
    match ce_final env with
    | Some s => source_changed src s = false ∧ m = SourceMetadata.from_stat s
    | None => m = SourceMetadata.from_metadata src
    end ∧
    nodes d' !! dest = Some (File f) ∧ contents f = delivered (ce_reads env) ∧ carries m f ∧
    nodes d' !! partial_path dest = None ∧
    DiskFacts.only_changes (λ q, q = partial_path dest ∨ q = dest) d d'.
Proof.
  unfold perform_copy_inner. set (p := partial_path dest).
  destruct (ce_open env) as [src|]; [|done].
  destruct (Disk.open_truncate d p) as [d1|] eqn:Ho; [|done].
  destruct (open_truncate_spec _ _ _ Ho) as (C1 & _ & f1 & Hf1 & E1).
  destruct (copy_loop_grows env (ce_reads env) 0 d1 p) as (added & [C2 G2] & Hadd).
  destruct (copy_loop env (ce_reads env) 0 d1 p) as [d2 [u|]]; [|done]. cbn [fst snd] in *.
  destruct (G2 f1 Hf1) as (f2 & Hf2 & E2). rewrite E1, (Hadd eq_refl) in E2.
  destruct (ce_sync env); [done|]. destruct (_ || _) eqn:Hstop; [done|].
  apply orb_false_iff in Hstop as [Hab Hst].
  set (snap := match ce_final env with None => _ | Some _ => _ end).
  destruct (apply_grows env d2 p snap) as [C3 G3].
  pose proof (apply_carries env d2 p snap f2 Hf2) as Hcar.
  destruct (apply_source_metadata env d2 p snap) as [d3 [u'|]]; [|done]. cbn [fst snd] in *.
  destruct (G3 f2 Hf2) as (f3 & Hf3 & E3). destruct (Hcar eq_refl) as (f4 & Hf4 & Hcarries).
  destruct (Disk.rename d3 p dest) as [d4|] eqn:Hr; [|done]. intros [= <- <-].
  destruct (rename_spec _ _ _ _ Hr (partial_path_ne dest)) as (f5 & Hf5 & Hdest & Hgone & C4).
  exists src, f5. rewrite Hf3 in Hf4. injection Hf4 as ->. rewrite Hf3 in Hf5. injection Hf5 as ->.
  split_and!; try done.
  - unfold snap. destruct (ce_final env); [by split|done].
  - by rewrite E3, E2, string_app_nil.
  - eapply DiskFacts.only_changes_trans; [|apply C4].
    eapply DiskFacts.only_changes_weaken; [|eapply DiskFacts.only_changes_trans;
      [apply C1|eapply DiskFacts.only_changes_trans; [apply C2|apply C3]]]. auto.
Qed.

Lemma perform_copy_err env d dest d' e :
  perform_copy env d dest = (d', Err e) → DiskFacts.only_changes (copy_scratch d dest) d d'.
Proof.
  unfold perform_copy, Disk.create_dir_all.
  destruct (DiskFacts.create_dirs_changes d [] (parent dest)) as [C1 _].
  destruct (Disk.create_dirs d [] (parent dest)) as [d1 [u|e1]]; cbn [fst] in C1.
  2:{ intros [= <- _]. eapply DiskFacts.only_changes_weaken, C1. by right. }
  pose proof (perform_copy_inner_err env d1 dest) as C2.
  destruct (perform_copy_inner env d1 dest (partial_path dest)) as [d2 [m|e2]]; [done|].
  intros [= <- _]. specialize (C2 e2 eq_refl). cbn [fst is_err is_ok negb] in *.
  eapply DiskFacts.only_changes_trans; [eapply DiskFacts.only_changes_weaken, C1; by right|].
  eapply DiskFacts.only_changes_weaken;
    [|eapply DiskFacts.only_changes_trans; [apply C2|apply DiskFacts.try_remove_changes]].
  by left.
Qed.

(** A copy that succeeds: missing directories on the way, then the inner copy. *)
Lemma perform_copy_split env d dest d' m :
  perform_copy env d dest = (d', Ok m) →
  ∃ d1, DiskFacts.only_changes (DiskFacts.new_dir_on d (parent dest)) d d1 ∧
    perform_copy_inner env d1 dest (partial_path dest) = (d', Ok m).
Proof.
  unfold perform_copy, Disk.create_dir_all.
  destruct (DiskFacts.create_dirs_changes d [] (parent dest)) as [C _].
  destruct (Disk.create_dirs d [] (parent dest)) as [d1 [u|e1]]; [|done].
  destruct (perform_copy_inner env d1 dest (partial_path dest)) as [d2 [m'|e2]] eqn:Hi; [|done].
  intros [= <- <-]. eauto.
Qed.

Lemma perform_copy_ok_not_aborted env d dest d' m :
  perform_copy env d dest = (d', Ok m) → ce_aborted env = false.
Proof.
  intros (d1 & _ & Hi)%perform_copy_split.
  by destruct (perform_copy_inner_ok env d1 dest d' m Hi) as (src & f & _ & ? & _).
Qed.
End facts.
End CopyFacts.

Module CopyTheorems.
Import CacheIO CopyFacts.
Section theorems.
Context `{MapOrder}.

(** C9. A copy that fails leaves the cache as it was: whichever call failed, the destination and
    every other entry are unchanged, apart from missing directories on the way to it that may
    have been made, and no partial file that can be deleted is left behind. *)
Theorem failed_copy_leaves_cache env d dest d' e :
  dest ≠ [] → perform_copy env d dest = (d', Err e) →
  nodes d' !! dest = nodes d !! dest ∧
  DiskFacts.only_changes (copy_scratch d dest) d d' ∧
  (nodes d !! partial_path dest = None → partial_path dest ∉ undeletable d →
     nodes d' !! partial_path dest = None ∨ nodes d' !! partial_path dest = Some Dir).
Proof.
  intros Hne Heq. pose proof (perform_copy_err env d dest d' e Heq) as C.
  split_and!; [|done|].
  - apply C. intros [Hp|Hd]; [by apply (partial_path_ne dest)|by eapply new_dir_on_ne].
  - intros Hnone Hu. unfold perform_copy, Disk.create_dir_all in Heq.
    destruct (DiskFacts.create_dirs_changes d [] (parent dest)) as [[U1 _] C1].
    destruct (Disk.create_dirs d [] (parent dest)) as [d1 [u|e1]]; cbn [fst] in *.
    2:{ injection Heq as <- _. destruct (C1 (partial_path dest)) as [->|]; auto. }
    pose proof (perform_copy_inner_err env d1 dest) as C2.
    destruct (perform_copy_inner env d1 dest (partial_path dest)) as [d2 [m|e2]]; [done|].
    injection Heq as <- _. specialize (C2 e2 eq_refl). cbn [fst is_err is_ok negb] in *.
    destruct (nodes d2 !! partial_path dest) as [[f|]|] eqn:E.
    + left. apply DiskFacts.try_remove_gone; [|by rewrite E]. by rewrite (proj1 C2), U1.
    + right. unfold Disk.try_remove, Disk.remove_file. by rewrite E.
    + left. unfold Disk.try_remove, Disk.remove_file. by rewrite E.
Qed.

(** C3. A copy that succeeds is the backing file: it was not aborted, the backing file had the
    size and modification time it was opened with (or was gone) when the copy was committed, the
    destination holds every byte the reads delivered up to the end of the file and carries the
    permission bits and times of the snapshot returned, the partial file is gone, and nothing
    else changed but missing directories on the way. *)
Theorem successful_copy_is_faithful env d dest d' m :
  perform_copy env d dest = (d', Ok m) →
  ∃ src f,
    ce_open env = Ok src ∧ ce_aborted env = false ∧ ce_sync env = None ∧
    match ce_final env with
    | Some s => source_changed src s = false ∧ m = SourceMetadata.from_stat s
    | None => m = SourceMetadata.from_metadata src
    end ∧
    nodes d' !! dest = Some (File f) ∧ contents f = delivered (ce_reads env) ∧ carries m f ∧
    nodes d' !! partial_path dest = None ∧
    DiskFacts.only_changes (λ q, copy_scratch d dest q ∨ q = dest) d d'.
Proof.
  intros (d1 & C1 & Hi)%perform_copy_split.
  destruct (perform_copy_inner_ok env d1 dest d' m Hi) as (src & f & ? & ? & ? & ? & ? & ? & ? & ? & C2).
  exists src, f. split_and!; try done.
  eapply DiskFacts.only_changes_trans.
  - eapply DiskFacts.only_changes_weaken, C1. left. by right.
  - eapply DiskFacts.only_changes_weaken, C2. intros q [-> | ->]; [left; by left|by right].
Qed.
End theorems.

(** ** Witnesses *)
Definition some_stat : stat := mkStat 33188 1 1000 1000 0 6 4096 8 10 0 1000 5 1000 5.

(** Two reads, then the end of the file. *)
Definition good_env : CopyEnv :=
  mkCopyEnv (Ok some_stat) [Ok "abc"; Ok "def"; Ok ""]%string (λ _, None) None false
    (Some some_stat) None None None.

(** The disk fills up on the second write. *)
Definition full_env : CopyEnv :=
  mkCopyEnv (Ok some_stat) [Ok "abc"; Ok "def"]%string
    (λ i, match i with 1%nat => Some (OsError 28, 1%nat) | _ => None end) None false
    (Some some_stat) None None None.

Definition empty_disk : Disk := mkDisk {[ ["c"]%string := Dir ]} ∅.
Definition some_dest : path := ["c"; "s"; "a.mkv"]%string.

Lemma failed_copy_leaves_cache_witness :
  ∃ d' e, perform_copy full_env empty_disk some_dest = (d', Err e) ∧ nodes d' !! some_dest = None.
Proof.
  destruct (perform_copy full_env empty_disk some_dest) as [d' r] eqn:Heq.
  assert (Hr : r = Err (OsError 28)) by (apply (f_equal snd) in Heq; vm_compute in Heq; congruence).
  subst r. exists d', (OsError 28). split; [done|].
  assert (Hne : some_dest ≠ []) by done.
  destruct (failed_copy_leaves_cache full_env empty_disk some_dest d' (OsError 28) Hne Heq) as [-> _].
  vm_compute. reflexivity.
Defined.

Lemma successful_copy_is_faithful_witness :
  ∃ d' m f, perform_copy good_env empty_disk some_dest = (d', Ok m) ∧
    nodes d' !! some_dest = Some (File f) ∧ contents f = "abcdef"%string.
Proof.
  destruct (perform_copy good_env empty_disk some_dest) as [d' r] eqn:Heq.
  assert (Hr : r = Ok (SourceMetadata.from_stat some_stat))
    by (apply (f_equal snd) in Heq; vm_compute in Heq; vm_compute; congruence).
  subst r. exists d', (SourceMetadata.from_stat some_stat).
  destruct (successful_copy_is_faithful good_env empty_disk some_dest d' _ Heq)
    as (src & f & _ & _ & _ & _ & Hf & Hc & _).
  exists f. split_and!; [done|done|]. rewrite Hc. reflexivity.
Defined.
End CopyTheorems.

(** ** Lemmas on the pipeline *)
Module PipelineFacts.
Import CacheIO Pipeline.
Section facts.
Context `{MapOrder} (statvfs : Disk → path → option Statvfs) (cm : CacheManager).
Context (max : nat).
Implicit Types s : System.

Abbreviation ok := (pipeline_ok max).

Lemma worker_keys_mid l1 j p l2 :
  worker_keys (l1 ++ mkWorker j p :: l2) =
    worker_keys l1 ++ (if unfinished (mkWorker j p) then [job_key j] else []) ++ worker_keys l2.
Proof.
  unfold worker_keys. rewrite filter_app, filter_cons, fmap_app. f_equal.
  destruct (unfinished (mkWorker j p)) eqn:E;
    [rewrite decide_True by done|rewrite decide_False by congruence]; done.
Qed.

Lemma worker_keys_snoc ws j p :
  worker_keys (ws ++ [mkWorker j p]) =
    worker_keys ws ++ (if unfinished (mkWorker j p) then [job_key j] else []).
Proof. rewrite worker_keys_mid. by rewrite app_nil_r. Qed.

Lemma copying_mid l1 j p l2 :
  copying (l1 ++ mkWorker j p :: l2) =
    (copying l1 + (if decide (kind j = Validate) then 0 else 1) + copying l2)%nat.
Proof.
  unfold copying. rewrite filter_app, filter_cons, length_app. simpl.
  destruct (decide (kind j = Validate));
    [rewrite decide_False by auto|rewrite decide_True by done]; simpl; lia.
Qed.

Lemma copying_snoc ws j p :
  copying (ws ++ [mkWorker j p]) = (copying ws + (if decide (kind j = Validate) then 0 else 1))%nat.
Proof. rewrite copying_mid. unfold copying at 2. simpl. lia. Qed.

Lemma unfinished_key s w : w ∈ workers s → unfinished w = true → job_key (w_job w) ∈ active s.
Proof.
  intros Hw Hu. unfold active, worker_keys. rewrite !elem_of_app. right; right.
  apply list_elem_of_fmap. exists w. by rewrite list_elem_of_filter.
Qed.

Lemma handle_unfinished w c : handle_of (w_pc w) = Some c → unfinished w = true.
Proof. unfold unfinished. by destruct (w_pc w). Qed.

(** The invariant reads the queue, the known jobs, the held job, the workers and the permits. *)
Lemma ok_ext s s' :
  ok s → pipe (io s') = pipe (io s) → held s' = held s → workers s' = workers s →
  permits s' = permits s → ok s'.
Proof.
  intros [] Hp Hh Hw Hm. split; unfold active in *; rewrite ?Hp, ?Hh, ?Hw, ?Hm; done.
Qed.

(** A new job at the back of the queue. *)
Lemma ok_enqueue s s' j :
  ok s → known (pipe (io s)) !! job_key j = None →
  pipe (io s') = mkPipelineState (queue (pipe (io s)) ++ [j])
                                 (<[job_key j := None]> (known (pipe (io s)))) →
  held s' = held s → workers s' = workers s → permits s' = permits s → ok s'.
Proof.
  intros [Hnd Hk Hp Hhd Hkd Hkh] Hnone Hpipe Hh Hw Hm.
  assert (Hact : active s' ≡ₚ job_key j :: active s).
  { unfold active. rewrite Hpipe, Hh, Hw. simpl. rewrite fmap_app. simpl.
    rewrite <- app_assoc. symmetry. apply Permutation_middle. }
  assert (Hnin : job_key j ∉ active s) by (rewrite <- Hk, Hnone; by intros [? [=]]).
  split; rewrite ?Hpipe, ?Hw, ?Hm; simpl.
  - rewrite Hact. by constructor.
  - intros k. rewrite Hact, elem_of_cons, <- Hk, lookup_insert_is_Some'.
    split; (intros [<-|?]; [by left|by right]).
  - done.
  - intros w c Hin Hc. rewrite lookup_insert_ne; [eauto|]. intros Heq. apply Hnin. rewrite Heq.
    eauto using unfinished_key, handle_unfinished.
  - done.
  - by rewrite Hh.
Qed.

Lemma submit_locked_pipe now rel k i :
  (pipe (submit_locked now rel k i) = pipe i) ∨
  (known (pipe i) !! (rel, k) = None ∧
   pipe (submit_locked now rel k i) =
     mkPipelineState (queue (pipe i) ++ [mkCacheJob rel k now]) (<[(rel, k) := None]> (known (pipe i)))).
Proof.
  unfold submit_locked. destruct (known (pipe i) !! (rel, k)) eqn:E; [by left|right].
  split; [done|]. by case_decide.
Qed.

Lemma ok_submit s s' now rel k :
  ok s → pipe (io s') = pipe (submit_locked now rel k (io s)) →
  held s' = held s → workers s' = workers s → permits s' = permits s → ok s'.
Proof.
  intros Hok Hpipe Hh Hw Hm.
  destruct (submit_locked_pipe now rel k (io s)) as [Heq|[Hnone Heq]]; rewrite Heq in Hpipe.
  - by eapply ok_ext.
  - by eapply (ok_enqueue s s' (mkCacheJob rel k now)).
Qed.

Lemma mark_abort_pipe rel i : pipe (mark_abort rel i) = pipe i.
Proof.
  unfold mark_abort. simpl.
  assert (Ha : ∀ k i, pipe (abort_job rel i k) = pipe i) by (intros; unfold abort_job; by repeat case_match).
  by rewrite !Ha.
Qed.

(** A worker moves on without finishing. *)
Lemma ok_worker s s' l1 l2 j p p' :
  ok s → workers s = l1 ++ mkWorker j p :: l2 → workers s' = l1 ++ mkWorker j p' :: l2 →
  unfinished (mkWorker j p) = true → unfinished (mkWorker j p') = true →
  pipe (io s') = pipe (io s) → held s' = held s → permits s' = permits s →
  (∀ c, handle_of p' = Some c → handle_of p = Some c) → ok s'.
Proof.
  intros [Hnd Hk Hp Hhd Hkd Hkh] Hw Hw' Hu Hu' Hpipe Hh Hm Hc.
  assert (Hact : active s' = active s).
  { unfold active. by rewrite Hpipe, Hh, Hw, Hw', !worker_keys_mid, Hu, Hu'. }
  assert (Hold : ∀ w c, w ∈ workers s' → handle_of (w_pc w) = Some c →
    ∃ w0, w0 ∈ workers s ∧ w_job w0 = w_job w ∧ handle_of (w_pc w0) = Some c).
  { intros w c. rewrite Hw', Hw. rewrite elem_of_app, elem_of_cons.
    intros [Hin|[->|Hin]] Hh'; [exists w|exists (mkWorker j p)|exists w];
      rewrite elem_of_app, elem_of_cons; split_and!; simpl in *; auto. }
  split; rewrite ?Hact, ?Hpipe; try done.
  - rewrite Hm, Hw', copying_mid. by rewrite Hw, copying_mid in Hp.
  - intros w c Hin Hc'. destruct (Hold w c Hin Hc') as (w0 & Hin0 & <- & Hc0). eauto.
  - intros w Hin [c Hc']. destruct (Hold w c Hin Hc') as (w0 & Hin0 & <- & Hc0). eauto.
  - by rewrite Hh.
Qed.

(** A worker takes a control handle. *)
Lemma ok_start s s' l1 l2 j c :
  ok s → workers s = l1 ++ mkWorker j Start :: l2 → workers s' = l1 ++ mkWorker j (Room c) :: l2 →
  kind j ≠ Validate → held s' = held s → permits s' = permits s →
  pipe (io s') = mkPipelineState (queue (pipe (io s))) (<[job_key j := Some c]> (known (pipe (io s)))) →
  ok s'.
Proof.
  intros [Hnd Hk Hp Hhd Hkd Hkh] Hw Hw' Hkind Hh Hm Hpipe.
  assert (Hact : active s' = active s).
  { unfold active. by rewrite Hpipe, Hh, Hw, Hw', !worker_keys_mid. }
  assert (Hj : job_key j ∈ active s).
  { apply (unfinished_key s (mkWorker j Start)); [|done]. rewrite Hw. apply elem_of_app. right. left. }
  assert (Hother : ∀ w c', w ∈ l1 ++ l2 → handle_of (w_pc w) = Some c' →
    job_key (w_job w) ≠ job_key j).
  { intros w c' Hin Hc' Heq. unfold active in Hnd. rewrite Hw, worker_keys_mid in Hnd. simpl in Hnd.
    apply NoDup_app in Hnd as (_ & _ & Hnd). apply NoDup_app in Hnd as (_ & _ & Hnd).
    rewrite <- (Permutation_middle (worker_keys l1)) in Hnd. apply NoDup_cons in Hnd as [Hnin _].
    apply Hnin. rewrite <- Heq. unfold worker_keys. rewrite <- fmap_app, <- filter_app.
    apply list_elem_of_fmap. exists w. split; [done|]. apply list_elem_of_filter. eauto using handle_unfinished. }
  split; rewrite ?Hact, ?Hpipe; simpl; try done.
  - intros k. rewrite lookup_insert_is_Some', Hk. split; [by intros [<-|?]|by right].
  - rewrite Hm, Hw', copying_mid. by rewrite Hw, copying_mid in Hp.
  - intros w c'. rewrite Hw', elem_of_app, elem_of_cons. intros Hin Hc'.
    assert (Hrest : w ∈ l1 ++ l2 → <[job_key j:=Some c]> (known (pipe (io s))) !! job_key (w_job w) =
      Some (Some c')).
    { intros Hin'. rewrite lookup_insert_ne by (intros Heq; by apply (Hother w c')).
      apply Hhd; [|done]. rewrite Hw. apply elem_of_app in Hin'.
      rewrite elem_of_app, elem_of_cons. tauto. }
    destruct Hin as [Hin|[->|Hin]]; [apply Hrest, elem_of_app; by left| |apply Hrest, elem_of_app; by right].
    simpl in *. simplify_eq. apply lookup_insert_eq.
  - intros w. rewrite Hw', elem_of_app, elem_of_cons. intros Hin Hc'.
    destruct Hin as [Hin|[->|Hin]]; [|done|]; apply Hkd; try done;
      rewrite Hw, elem_of_app, elem_of_cons; auto.
  - by rewrite Hh.
Qed.

(** The job stops being known. *)
Lemma ok_finish_locked s s' l1 l2 j :
  ok s → workers s = l1 ++ mkWorker j FinishLocked :: l2 →
  workers s' = l1 ++ mkWorker j FinishDb :: l2 → held s' = held s → permits s' = permits s →
  pipe (io s') = mkPipelineState (queue (pipe (io s))) (delete (job_key j) (known (pipe (io s)))) →
  ok s'.
Proof.
  intros [Hnd Hk Hp Hhd Hkd Hkh] Hw Hw' Hh Hm Hpipe.
  assert (Hact : active s ≡ₚ job_key j :: active s').
  { unfold active. rewrite Hpipe, Hh, Hw, Hw', !worker_keys_mid. simpl.
    rewrite !app_assoc. symmetry. apply Permutation_middle. }
  rewrite Hact in Hnd. apply NoDup_cons in Hnd as [Hnin Hnd].
  assert (Hsame : ∀ w, w ∈ workers s' → is_Some (handle_of (w_pc w)) → w ∈ workers s).
  { intros w. rewrite Hw', Hw, !elem_of_app, !elem_of_cons. intros [?|[->|?]] Hc; auto.
    simpl in Hc. by destruct Hc. }
  split; rewrite ?Hpipe; simpl.
  - done.
  - intros k. rewrite lookup_delete_is_Some, Hk, Hact, elem_of_cons. split.
    + intros [Hne [->|?]]; done.
    + intros Hin. split; [|by right]. by intros <-.
  - rewrite Hm, Hw', copying_mid. by rewrite Hw, copying_mid in Hp.
  - intros w c Hin Hc. rewrite lookup_delete_ne; [eauto|]. intros Heq. apply Hnin. rewrite Heq.
    eauto using unfinished_key, handle_unfinished.
  - intros w Hin Hc. eauto.
  - by rewrite Hh.
Qed.

(** The worker returns, with its permit if it had one. *)
Lemma ok_finish_db s s' l1 l2 j :
  ok s → workers s = l1 ++ mkWorker j FinishDb :: l2 → workers s' = l1 ++ l2 →
  held s' = held s → pipe (io s') = pipe (io s) →
  permits s' = (if decide (kind j = Validate) then permits s else S (permits s)) → ok s'.
Proof.
  intros [Hnd Hk Hp Hhd Hkd Hkh] Hw Hw' Hh Hpipe Hm.
  assert (Hact : active s' = active s).
  { unfold active. rewrite Hpipe, Hh, Hw, Hw', !worker_keys_mid. unfold worker_keys.
    by rewrite filter_app, fmap_app. }
  assert (Hsame : ∀ w, w ∈ workers s' → w ∈ workers s).
  { intros w. rewrite Hw', Hw, !elem_of_app, !elem_of_cons. tauto. }
  split; rewrite ?Hact, ?Hpipe, ?Hh; eauto.
  rewrite Hw, copying_mid in Hp. rewrite Hm, Hw'. unfold copying in *.
  rewrite filter_app, length_app. destruct (decide (kind j = Validate)); lia.
Qed.

(** The dispatcher takes a job out of the queue. *)
Lemma ok_dispatch s s' j q :
  ok s → queue (pipe (io s)) ≡ₚ j :: q → held s = None →
  pipe (io s') = mkPipelineState q (known (pipe (io s))) →
  (kind j = Validate ∧ workers s' = workers s ++ [mkWorker j Start] ∧ held s' = None ∨
   kind j ≠ Validate ∧ workers s' = workers s ∧ held s' = Some j) →
  permits s' = permits s → ok s'.
Proof.
  intros [Hnd Hk Hp Hhd Hkd Hkh] Hq Hnone Hpipe Hcase Hm.
  assert (Hact : active s' ≡ₚ active s).
  { unfold active. rewrite Hpipe, Hq, Hnone. simpl.
    destruct Hcase as [(_ & -> & ->)|(_ & -> & ->)]; simpl.
    - rewrite worker_keys_snoc. simpl. rewrite app_assoc.
      rewrite (Permutation_app_comm _ [job_key j]). done.
    - by rewrite Permutation_middle. }
  assert (Hsame : ∀ w, w ∈ workers s' → is_Some (handle_of (w_pc w)) → w ∈ workers s).
  { intros w. destruct Hcase as [(_ & -> & _)|(_ & -> & _)]; [|done].
    rewrite elem_of_app. intros [?|Hin] Hc; [done|].
    apply list_elem_of_singleton in Hin as ->. simpl in Hc. by destruct Hc. }
  split; rewrite ?Hpipe; simpl.
  - by rewrite Hact.
  - intros k. by rewrite Hact.
  - rewrite Hm. destruct Hcase as [(Hv & -> & _)|(_ & -> & _)]; [|done].
    rewrite copying_snoc, decide_True by done. lia.
  - intros w c Hin Hc. eauto.
  - intros w Hin Hc. eauto.
  - intros j'. destruct Hcase as [(_ & _ & ->)|(Hv & _ & ->)]; [done|]. by intros [= <-].
Qed.

Lemma remove_at_perm {A} i (l : list A) x l' : remove_at i l = Some (x, l') → l ≡ₚ x :: l'.
Proof.
  revert i l'. induction l as [|y l IH]; intros [|i] l'; simpl; try done.
  - by intros [= -> ->].
  - destruct (remove_at i l) as [[z l'']|] eqn:E; [|done]. intros [= <- <-].
    rewrite (IH _ _ E). constructor.
Qed.

Lemma pop_next_job_perm q allowed j q' : pop_next_job q allowed = Some (j, q') → q ≡ₚ j :: q'.
Proof.
  unfold pop_next_job. destruct allowed; [destruct q; [done|by intros [= -> ->]]|].
  destruct (position _ q) as [i|]; [|done]. apply remove_at_perm.
Qed.

(** The held job gets its permit. *)
Lemma ok_permit s s' j n :
  ok s → held s = Some j → permits s = S n →
  workers s' = workers s ++ [mkWorker j Start] → held s' = None → permits s' = n →
  pipe (io s') = pipe (io s) → ok s'.
Proof.
  intros [Hnd Hk Hp Hhd Hkd Hkh] Hh Hpm Hw' Hh' Hm Hpipe.
  pose proof (Hkh j Hh) as Hkind.
  assert (Hact : active s' ≡ₚ active s).
  { unfold active. rewrite Hpipe, Hh, Hh', Hw', worker_keys_snoc. simpl.
    by rewrite (Permutation_app_comm (worker_keys (workers s))). }
  assert (Hsame : ∀ w, w ∈ workers s' → is_Some (handle_of (w_pc w)) → w ∈ workers s).
  { intros w. rewrite Hw', elem_of_app. intros [?|Hin] Hc; [done|].
    apply list_elem_of_singleton in Hin as ->. simpl in Hc. by destruct Hc. }
  split; rewrite ?Hpipe.
  - by rewrite Hact.
  - intros k. by rewrite Hact.
  - rewrite Hm, Hw', copying_snoc, decide_False by done. rewrite Hpm in Hp. lia.
  - intros w c Hin Hc. eauto.
  - intros w Hin Hc. eauto.
  - by rewrite Hh'.
Qed.

(** Expiry takes jobs off the front of the queue. *)
Lemma expire_front_spec cutoff q k :
  ∃ gone, q = gone ++ queue (expire_front cutoff q k).1 ∧
    known (expire_front cutoff q k).1 = foldl (λ k j, delete (job_key j) k) k gone ∧
    Forall (λ j, enqueue_ts j < cutoff) gone ∧
    (expire_front cutoff q k).2 = rel_path <$> filter (λ j, kind j = Populate) gone ∧
    match queue (expire_front cutoff q k).1 with [] => True | j :: _ => cutoff <= enqueue_ts j end.
Proof.
  revert k. induction q as [|j q IH]; intros k; simpl.
  { exists []. done. }
  destruct (cutoff <=? enqueue_ts j) eqn:E; to_prop.
  { exists []. done. }
  destruct (IH (delete (job_key j) k)) as (gone & Hq & Hk & Hg & He & Hf).
  destruct (expire_front cutoff q (delete (job_key j) k)) as [p expired]. simpl in *.
  exists (j :: gone). split_and!; [simpl; by f_equal|done|by constructor| |done].
  rewrite filter_cons, He. by case_decide.
Qed.

Lemma delete_keys_lookup (gone : list CacheJob) (k : gmap (path * CacheJobKind) (option nat)) x :
  is_Some (foldl (λ k j, delete (job_key j) k) k gone !! x) ↔ is_Some (k !! x) ∧ x ∉ job_key <$> gone.
Proof.
  revert k. induction gone as [|j gone IH]; intros k; cbn [foldl].
  - split; [intros ?; split; [done|by apply not_elem_of_nil]|tauto].
  - rewrite IH, lookup_delete_is_Some, fmap_cons, elem_of_cons. naive_solver.
Qed.

Lemma delete_keys_same (gone : list CacheJob) (k : gmap (path * CacheJobKind) (option nat)) x :
  x ∉ job_key <$> gone → foldl (λ k j, delete (job_key j) k) k gone !! x = k !! x.
Proof.
  revert k. induction gone as [|j gone IH]; intros k; cbn [foldl]; [done|].
  rewrite fmap_cons, not_elem_of_cons. intros [Hne Hnin]. by rewrite IH, lookup_delete_ne.
Qed.

Lemma ok_expire s s' now ttl expired :
  ok s → expire_locked now ttl (io s) = (io s', expired) →
  held s' = held s → workers s' = workers s → permits s' = permits s → ok s'.
Proof.
  intros Hok Hexp Hh Hw Hm. unfold expire_locked in Hexp.
  destruct (ttl =? 0); [injection Hexp as Heq _; eapply ok_ext; [done| |done..]; by rewrite Heq|].
  set (cutoff := saturating_sub now (as_u64 (ttl * 60))) in *.
  destruct (expire_front_spec cutoff (queue (pipe (io s))) (known (pipe (io s))))
    as (gone & Hq & Hk' & _ & _ & _).
  destruct (expire_front cutoff (queue (pipe (io s))) (known (pipe (io s)))) as [p ex].
  injection Hexp as Heq _. simpl in *.
  destruct Hok as [Hnd Hk Hp Hhd Hkd Hkh].
  assert (Hact : active s = (job_key <$> gone) ++ active s').
  { unfold active. rewrite Hq, Hh, Hw, <- Heq. simpl. by rewrite fmap_app, <- app_assoc. }
  rewrite Hact in Hnd. apply NoDup_app in Hnd as (_ & Hdisj & Hnd).
  split; rewrite <- ?Heq, ?Hw, ?Hm, ?Hh; simpl; rewrite ?Hk'; try done.
  - intros x. rewrite delete_keys_lookup, Hk, Hact, elem_of_app. split; [tauto|].
    intros Hin. split; [by right|]. intros Hg. by apply (Hdisj x).
  - intros w c Hin Hc. rewrite delete_keys_same; [eauto|]. intros Hg. apply (Hdisj _ Hg).
    apply unfinished_key; [by rewrite Hw|]. eauto using handle_unfinished.
Qed.

(** *** Every step keeps the invariant *)
Lemma populate_start_pipe rel k i i' c :
  populate_start cm rel k i = (i', Some c) →
  pipe i' = mkPipelineState (queue (pipe i)) (<[(rel, k) := Some c]> (known (pipe i))).
Proof. unfold populate_start. case_match; [done|]. by intros [= <- <-]. Qed.

Lemma validate_body_pipe now backing rel i :
  pipe (validate_body cm now backing rel i) = pipe i ∨
  pipe (validate_body cm now backing rel i) = pipe (submit_locked now rel Replace i).
Proof.
  unfold validate_body. destruct (Manager.is_stale _ _ _ _); try by left.
  right. done.
Qed.

Lemma step_ok s s' : ok s → io_step statvfs cm s s' → ok s'.
Proof.
  intros Hok Hstep. destruct Hstep.
  - by eapply ok_submit.
  - eapply ok_ext; [done|apply mark_abort_pipe|done..].
  - by eapply ok_ext.
  - by eapply ok_expire.
  - by eapply ok_ext.
  - eapply (ok_dispatch s); [done|by eapply pop_next_job_perm|done|done|by left|done].
  - eapply (ok_dispatch s); [done|by eapply pop_next_job_perm|done|done|by right|done].
  - by eapply ok_permit.
  - eapply (ok_worker s); done.
  - eapply (ok_start s); [done|done|done|done|done|done|by eapply populate_start_pipe].
  - unfold populate_room in *. simplify_eq/=.
    eapply (ok_worker s); [done|done|done|done|by case_match|done|done|done|].
    intros c' Hc'. by destruct (Manager.has_free_space _ _ _).
  - unfold populate_copy in *. case_match. simplify_eq/=. eapply (ok_worker s); done.
  - eapply (ok_worker s); [done|done|done|done|done| |done|done|done].
    unfold populate_commit. by destruct r.
  - set (s1 := mkSystem (io s) (held s) (l1 ++ mkWorker job FinishLocked :: l2) (permits s) (expiring s)).
    assert (ok s1) by (eapply (ok_worker s s1); done).
    destruct (validate_body_pipe now backing (rel_path job) (io s)) as [Heq|Heq].
    + by eapply (ok_ext s1).
    + by eapply (ok_submit s1).
  - by eapply ok_finish_locked.
  - eapply (ok_finish_db s); [done|done|done|done| |done].
    unfold finish_known_db. by case_decide.
Qed.

Lemma initial_pipeline_ok loaded p :
  NoDup (job_key <$> queue p) → (∀ k, is_Some (known p !! k) ↔ k ∈ job_key <$> queue p) →
  NoDup (job_key <$> queue (foldl load_job p loaded)) ∧
  ∀ k, is_Some (known (foldl load_job p loaded) !! k) ↔
       k ∈ job_key <$> queue (foldl load_job p loaded).
Proof.
  revert p. induction loaded as [|[[key q] ts] loaded IH]; intros p Hnd Hk; simpl; [done|].
  apply IH.
  - destruct (known p !! (q, Populate)) eqn:E; [done|]. simpl. rewrite fmap_app. simpl.
    apply NoDup_app. split_and!; [done| |apply NoDup_singleton].
    intros x Hx ->%list_elem_of_singleton. apply Hk in Hx as [? Hx].
    unfold job_key in Hx. simpl in Hx. congruence.
  - intros k. destruct (known p !! (q, Populate)) eqn:E; [apply Hk|]. simpl.
    rewrite lookup_insert_is_Some', Hk, fmap_app, elem_of_app. simpl.
    rewrite list_elem_of_singleton. unfold job_key at 3. simpl. split; intros [?|?]; auto.
Qed.

Lemma spawned_ok now ttl st : ok (spawned now ttl max st).
Proof.
  destruct (initial_pipeline_ok (CacheDb.load_deferred now st.2 ttl) pipeline_new) as [Hnd Hk].
  { constructor. } { intros k. simpl. rewrite lookup_empty. split; [by intros [? [=]]|by intros ?%elem_of_nil]. }
  split; simpl; try by intros ? ? ?%elem_of_nil.
  - unfold active. simpl. by rewrite app_nil_r.
  - intros k. unfold active. simpl. by rewrite app_nil_r.
  - unfold copying. simpl. lia.
  - by intros ? ?%elem_of_nil.
  - done.
Qed.

Lemma reachable_ok s : reachable statvfs cm max s → ok s.
Proof.
  intros (now & ttl & st & Hsteps). pose proof (spawned_ok now ttl st) as Hok.
  induction Hsteps as [|s1 s2 s3 Hstep _ IH]; [done|]. eauto using step_ok.
Qed.

(** *** The position of the first validation *)
Lemma position_split {A} (f : A → bool) l i x l' :
  position f l = Some i → remove_at i l = Some (x, l') →
  ∃ l1 l2, l = l1 ++ x :: l2 ∧ l' = l1 ++ l2 ∧ f x = true ∧ Forall (λ y, f y = false) l1.
Proof.
  revert i l'. induction l as [|y l IH]; intros i l'; simpl; [done|].
  destruct (f y) eqn:E.
  - intros [= <-] [= <- <-]. exists [], l. done.
  - destruct (position f l) as [j|]; [|done]. intros [= <-]. simpl.
    destruct (remove_at j l) as [[z l'']|] eqn:Er; [|done]. intros [= <- <-].
    destruct (IH j l'' eq_refl Er) as (l1 & l2 & -> & -> & ? & ?).
    exists (y :: l1), l2. split_and!; try done. by constructor.
Qed.

Lemma position_remove_at {A} (f : A → bool) l :
  match position f l with
  | Some i => is_Some (remove_at i l)
  | None => Forall (λ y, f y = false) l
  end.
Proof.
  induction l as [|y l IH]; simpl; [constructor|]. destruct (f y) eqn:E; [eauto|].
  destruct (position f l) as [i|]; simpl in *; [|by constructor].
  destruct IH as [[z l'] ->]. eauto.
Qed.
End facts.
End PipelineFacts.

(** ** Theorems on the pipeline *)
Module PipelineTheorems.
Import CacheIO Pipeline PipelineFacts.
Section theorems.
Context `{MapOrder} (statvfs : Disk → path → option Statvfs) (cm : CacheManager).

(** C4. Deduplication is airtight and copies are bounded: in every state the pipeline can reach,
    whatever the interleaving of submissions, expiry, dispatch, workers and aborts, no job (path
    and kind) is queued, held or in flight twice; the jobs recorded as known are exactly those;
    and the copy workers and the free permits add up to the configured number of copies. *)
Theorem pipeline_never_duplicates_work max s :
  reachable statvfs cm max s →
  NoDup (active s) ∧
  (∀ k, is_Some (known (pipe (io s)) !! k) ↔ k ∈ active s) ∧
  (copying (workers s) <= max)%nat ∧ (permits s + copying (workers s))%nat = max.
Proof. intros Hr. destruct (reachable_ok statvfs cm max s Hr) as [? ? ? ? ? ?]. split_and!; try done. lia. Qed.

(** C29. The watcher can stop any copy in flight: in every reachable state, [mark_abort] on a path
    sets the flag of each of its workers that has not yet read it, and a copy that reads a set
    flag fails and leaves the destination alone. *)
Theorem mark_abort_stops_copies max s w c :
  reachable statvfs cm max s → w ∈ workers s → handle_of (w_pc w) = Some c →
  let i := mark_abort (rel_path (w_job w)) (io s) in
  abort i !! c = Some true ∧
  ∀ env, ce_aborted env = true → Manager.cache_path cm (rel_path (w_job w)) ≠ [] →
    let '(i', r) := populate_copy cm env (rel_path (w_job w)) i in
    is_err r = true ∧
    nodes (store i').1 !! Manager.cache_path cm (rel_path (w_job w)) =
      nodes (store i).1 !! Manager.cache_path cm (rel_path (w_job w)).
Proof.
  intros Hr Hw Hc. destruct (reachable_ok statvfs cm max s Hr) as [_ _ _ Hhd Hkd _]. cbn zeta. split.
  - pose proof (Hhd w c Hw Hc) as Hk. pose proof (Hkd w Hw ltac:(eauto)) as Hv.
    unfold mark_abort. cbn [foldl]. destruct w as [[rel k ts] p]. simpl in *.
    unfold job_key in Hk. simpl in Hk. unfold abort_job. destruct k; [|done|].
    + rewrite Hk. simpl. destruct (known _ !! (rel, Replace)) as [[c'|]|]; simpl;
        try apply lookup_insert_eq.
      destruct (decide (c' = c)) as [->|]; [apply lookup_insert_eq|].
      rewrite lookup_insert_ne by done. apply lookup_insert_eq.
    + destruct (known (pipe (io s)) !! (rel, Populate)) as [[c'|]|]; simpl; rewrite Hk; simpl;
        apply lookup_insert_eq.
  - intros env Hab Hne. unfold populate_copy.
    destruct (perform_copy env _ _) as [d r] eqn:Hcopy. destruct r as [m|e]; simpl.
    + apply CopyFacts.perform_copy_ok_not_aborted in Hcopy. congruence.
    + split; [done|]. apply CopyFacts.perform_copy_err in Hcopy as [_ Hcopy]. apply Hcopy.
      intros [Hp|Hd]; [by apply (CopyFacts.partial_path_ne (Manager.cache_path cm (rel_path (w_job w))))|].
      by eapply CopyFacts.new_dir_on_ne.
Qed.

(** Outside the caching window only validations start: with copies not allowed, the
    dispatcher takes the oldest validation and leaves the order of the rest alone, and takes
    nothing exactly when there is none; with copies allowed it takes the oldest job. *)
Theorem closed_window_starts_no_copy q :
  match pop_next_job q false with
  | Some (j, q') => kind j = Validate ∧
      ∃ q1 q2, q = q1 ++ j :: q2 ∧ q' = q1 ++ q2 ∧ Forall (λ x, kind x ≠ Validate) q1
  | None => Forall (λ x, kind x ≠ Validate) q
  end ∧
  pop_next_job q true = match q with [] => None | j :: q' => Some (j, q') end.
Proof.
  split; [|done]. unfold pop_next_job. set (f := λ job, bool_decide (kind job = Validate)).
  pose proof (position_remove_at f q) as Hpos.
  destruct (position f q) as [i|] eqn:Hi; simpl.
  - destruct Hpos as [[j q'] Hr]. rewrite Hr.
    destruct (position_split f q i j q' Hi Hr) as (q1 & q2 & -> & -> & Hj & H1).
    apply bool_decide_eq_true in Hj. split; [done|]. exists q1, q2. split_and!; [done|done|].
    eapply Forall_impl; [apply H1|]. intros x Hx. by apply bool_decide_eq_false in Hx.
  - eapply Forall_impl; [apply Hpos|]. intros x Hx. by apply bool_decide_eq_false in Hx.
Qed.

(** The time-to-live sweep is complete on a queue in order of submission: it removes exactly
    the jobs older than the cutoff, in order, forgets exactly them, reports their populate paths,
    and a queue extended by later submissions stays in order. *)
Theorem expire_stale_is_complete now ttl i :
  ttl ≠ 0 → StronglySorted (λ a b, enqueue_ts a <= enqueue_ts b) (queue (pipe i)) →
  let cutoff := saturating_sub now (as_u64 (ttl * 60)) in
  let '(i', expired) := expire_locked now ttl i in
  ∃ gone, queue (pipe i) = gone ++ queue (pipe i') ∧
    (∀ j, j ∈ gone → enqueue_ts j < cutoff) ∧
    (∀ j, j ∈ queue (pipe i') → cutoff <= enqueue_ts j) ∧
    expired = rel_path <$> filter (λ j, kind j = Populate) gone ∧
    (∀ k, is_Some (known (pipe i') !! k) ↔ is_Some (known (pipe i) !! k) ∧ k ∉ job_key <$> gone) ∧
    (∀ rel k, (∀ j, j ∈ queue (pipe i') → enqueue_ts j <= now) →
       StronglySorted (λ a b, enqueue_ts a <= enqueue_ts b) (queue (pipe (submit_locked now rel k i')))).
Proof.
  intros Httl Hsort. cbn zeta. unfold expire_locked. rewrite (proj2 (Z.eqb_neq _ _) Httl).
  set (cutoff := saturating_sub now (as_u64 (ttl * 60))).
  destruct (expire_front_spec cutoff (queue (pipe i)) (known (pipe i)))
    as (gone & Hq & Hk & Hg & He & Hf).
  destruct (expire_front cutoff (queue (pipe i)) (known (pipe i))) as [p ex]. simpl in *.
  assert (Hp : StronglySorted (λ a b, enqueue_ts a <= enqueue_ts b) (queue p)).
  { rewrite Hq in Hsort. eapply StronglySorted_sublist, Hsort. apply sublist_inserts_l. done. }
  exists gone. split_and!; [done| | |done| |].
  - intros j Hj. by apply (proj1 (Forall_forall _ _) Hg).
  - intros j Hj. destruct (queue p) as [|j0 q]; [by apply elem_of_nil in Hj|].
    apply elem_of_cons in Hj as [->|Hj]; [done|]. inversion Hp as [|? ? _ Hall]; subst.
    pose proof (proj1 (Forall_forall _ _) Hall j Hj) as Hle. simpl in Hle. lia.
  - intros k. rewrite Hk. apply delete_keys_lookup.
  - intros rel k Hnow. destruct (submit_locked_pipe now rel k (with_pipe p i)) as [->|[_ ->]]; [done|].
    simpl. clear -Hp Hnow. induction Hp as [|j q Hq IH Hj]; simpl; [by repeat constructor|].
    constructor; [apply IH; intros j' ?; apply Hnow; by right|].
    apply Forall_app. split; [done|]. constructor; [|done]. apply Hnow. left.
Qed.
End theorems.

(** ** Schedules

    A schedule is a list of actions run by an executable scheduler; every action is a step. *)
Inductive action :=
  | ASubmit (now : Z) (rel : path) (k : CacheJobKind)
  | ADispatch
  | APermit
  | AStart (i : nat)
  | ARoom (i : nat)
  | AFinishLocked (i : nat)
  | AFinishDb (i : nat).

Section schedules.
Context `{MapOrder} (statvfs : Disk → path → option Statvfs) (cm : CacheManager).

Definition set_worker (i : nat) (w : Worker) (ws : list Worker) : list Worker :=
  take i ws ++ w :: drop (S i) ws.

Definition exec (a : action) (s : System) : option System :=
  match a with
  | ASubmit now rel k => Some (set_io (submit_locked now rel k) s)
  | ADispatch =>
      match held s, pop_next_job (queue (pipe (io s))) true with
      | None, Some (job, q) =>
          if decide (kind job = Validate) then None
          else Some (mkSystem (with_pipe (mkPipelineState q (known (pipe (io s)))) (io s)) (Some job)
                              (workers s) (permits s) (expiring s))
      | _, _ => None
      end
  | APermit =>
      match held s, permits s with
      | Some job, S n => Some (mkSystem (io s) None (workers s ++ [mkWorker job Start]) n (expiring s))
      | _, _ => None
      end
  | AStart i =>
      match workers s !! i with
      | Some (mkWorker job Start) =>
          if decide (kind job = Validate) then None
          else match populate_start cm (rel_path job) (kind job) (io s) with
               | (io', Some c) => Some (mkSystem io' (held s) (set_worker i (mkWorker job (Room c)) (workers s))
                                                 (permits s) (expiring s))
               | (_, None) => None
               end
      | _ => None
      end
  | ARoom i =>
      match workers s !! i with
      | Some (mkWorker job (Room c)) =>
          let '(io', ok) := populate_room statvfs cm 0 (io s) in
          Some (mkSystem io' (held s)
                  (set_worker i (mkWorker job (if ok : bool then Copy c else FinishLocked)) (workers s))
                  (permits s) (expiring s))
      | _ => None
      end
  | AFinishLocked i =>
      match workers s !! i with
      | Some (mkWorker job FinishLocked) =>
          Some (mkSystem (finish_known_locked (rel_path job) (kind job) (io s)) (held s)
                  (set_worker i (mkWorker job FinishDb) (workers s)) (permits s) (expiring s))
      | _ => None
      end
  | AFinishDb i =>
      match workers s !! i with
      | Some (mkWorker job FinishDb) =>
          Some (mkSystem (finish_known_db (rel_path job) (kind job) (io s)) (held s)
                  (take i (workers s) ++ drop (S i) (workers s))
                  (if decide (kind job = Validate) then permits s else S (permits s)) (expiring s))
      | _ => None
      end
  end.

Definition exec_all (acts : list action) (s : System) : option System :=
  foldl (λ s a, s ≫= exec a) (Some s) acts.

Lemma exec_step a s s' : exec a s = Some s' → io_step statvfs cm s s'.
Proof.
  assert (Hmid : ∀ i w, workers s !! i = Some w →
    workers s = take i (workers s) ++ w :: drop (S i) (workers s))
    by (intros i w Hw; by rewrite take_drop_middle).
  destruct a as [now rel k| | |i|i|i|i]; unfold exec.
  - intros [= <-]. apply step_submit.
  - destruct (held s) eqn:Hh; [done|]. destruct (pop_next_job (queue (pipe (io s))) true) as [[job q]|] eqn:Hp; [|done].
    case_decide; [done|]. intros [= <-]. by eapply step_dispatch_copy.
  - destruct (held s) eqn:Hh; [|done]. destruct (permits s) eqn:Hp; [done|].
    intros [= <-]. by eapply step_permit.
  - destruct (workers s !! i) as [[job []]|] eqn:Hw; try done. case_decide; [done|].
    destruct (populate_start _ _ _ _) as [io' [c|]] eqn:Hs; [|done]. intros [= <-].
    unfold set_worker. eapply step_start; [by apply Hmid|done|done].
  - destruct (workers s !! i) as [[job []]|] eqn:Hw; try done.
    intros [= <-]. unfold set_worker. eapply step_room; [by apply Hmid|done].
  - destruct (workers s !! i) as [[job []]|] eqn:Hw; try done. intros [= <-].
    unfold set_worker. eapply step_finish_locked. by apply Hmid.
  - destruct (workers s !! i) as [[job []]|] eqn:Hw; try done. intros [= <-].
    eapply step_finish_db. by apply Hmid.
Qed.

Lemma exec_all_none acts : foldl (λ s a, s ≫= exec a) None acts = None.
Proof. by induction acts. Qed.

Lemma exec_all_steps acts s s' : exec_all acts s = Some s' → rtc (io_step statvfs cm) s s'.
Proof.
  unfold exec_all. revert s. induction acts as [|a acts IH]; intros s; cbn [foldl].
  - intros [= <-]. apply rtc_refl.
  - change (Some s ≫= exec a) with (exec a s). destruct (exec a s) as [s1|] eqn:E.
    + intros Hs. eapply rtc_l; [by apply (exec_step a)|auto].
    + by rewrite exec_all_none.
Qed.

(** What a schedule's outcome satisfies, some reachable state satisfies. *)
Lemma schedule_reaches acts now ttl max st (check : System → bool) :
  match exec_all acts (spawned now ttl max st) with Some s => check s | None => false end = true →
  ∃ s, reachable statvfs cm max s ∧ check s = true.
Proof.
  destruct (exec_all acts _) as [s|] eqn:E; [|done]. intros Hc. exists s. split; [|done].
  exists now, ttl, st. by apply exec_all_steps in E.
Qed.
End schedules.

(** ** Witnesses and counterexamples *)
Definition roomy (d : Disk) (p : path) : option Statvfs := Some (mkStatvfs 1000 1 1000 1).
Definition no_statvfs (d : Disk) (p : path) : option Statvfs := None.
Definition start_store : Store := (CopyTheorems.empty_disk, DbWitnesses.fresh_db).
Definition the_path : path := ["a"]%string.

(** A worker holding an abort flag, about to look for room. *)
Definition is_in_flight (ws : list Worker) : bool :=
  match ws with
  | [mkWorker job (Room 0)] => bool_decide (job = mkCacheJob the_path Populate 5)
  | _ => false
  end.

Definition both_copying (s : System) : bool :=
  match workers s with
  | [mkWorker j1 (Copy 0); mkWorker j2 (Copy 1)] =>
      bool_decide (j1 = mkCacheJob the_path Populate 5 ∧ j2 = mkCacheJob the_path Replace 5)
  | _ => false
  end.

Definition row_lost (s : System) : bool :=
  bool_decide (queue (pipe (io s)) = [mkCacheJob the_path Populate 6]) &&
  match deferred_events (tables (store (io s)).2) !! the_path with None => true | _ => false end.

Lemma in_flight :
  ∃ s, reachable roomy ManagerWitnesses.some_manager 1 s ∧
    workers s = [mkWorker (mkCacheJob the_path Populate 5) (Room 0)].
Proof.
  destruct (schedule_reaches roomy ManagerWitnesses.some_manager
    [ASubmit 5 the_path Populate; ADispatch; APermit; AStart 0] 0 0 1 start_store
    (λ s, is_in_flight (workers s))) as (s & Hr & Hc); [vm_compute; reflexivity|].
  exists s. split; [exact Hr|]. unfold is_in_flight in Hc.
  destruct (workers s) as [|[j [| [|c] | | | |]] [|]]; try discriminate Hc.
  apply bool_decide_eq_true in Hc. by rewrite Hc.
Defined.

Lemma mark_abort_stops_copies_witness :
  ∃ s, reachable roomy ManagerWitnesses.some_manager 1 s ∧
    abort (mark_abort the_path (io s)) !! 0%nat = Some true.
Proof.
  destruct in_flight as (s & Hr & Hw). exists s. split; [exact Hr|].
  assert (Hin : mkWorker (mkCacheJob the_path Populate 5) (Room 0) ∈ workers s).
  { rewrite Hw. apply list_elem_of_here. }
  exact (proj1 (mark_abort_stops_copies roomy ManagerWitnesses.some_manager 1 s _ 0%nat Hr Hin eq_refl)).
Defined.

Lemma pipeline_never_duplicates_work_witness :
  ∃ s, reachable roomy ManagerWitnesses.some_manager 1 s ∧ NoDup (active s) ∧
    (copying (workers s) <= 1)%nat.
Proof.
  destruct in_flight as (s & Hr & Hw). exists s. split; [exact Hr|].
  destruct (pipeline_never_duplicates_work roomy ManagerWitnesses.some_manager 1 s Hr)
    as (Hnd & _ & Hc & _). split; [exact Hnd|exact Hc].
Defined.

Definition aged_io : Io :=
  mkIo (mkPipelineState
          [mkCacheJob the_path Populate 10; mkCacheJob the_path Validate 900]
          {[ (the_path, Populate) := None; (the_path, Validate) := None ]}) ∅ 0 start_store.

Lemma expire_stale_is_complete_witness :
  queue (pipe (expire_locked 1000 2 aged_io).1) = [mkCacheJob the_path Validate 900] ∧
  ∃ gone, queue (pipe aged_io) = gone ++ queue (pipe (expire_locked 1000 2 aged_io).1).
Proof.
  split; [vm_compute; reflexivity|].
  pose proof (expire_stale_is_complete 1000 2 aged_io) as Hx. cbn zeta in Hx.
  destruct (expire_locked 1000 2 aged_io) as [i' ex].
  destruct Hx as (gone & Hq & _); [lia| |exists gone; exact Hq].
  simpl. repeat constructor. simpl. lia.
Defined.

(** A job submitted while the previous one for its path is finishing loses its persistence:
    the worker forgets the job under the lock but deletes the deferred row after releasing it, so
    a row saved in between is deleted, and the queued job would not survive a restart. *)
Theorem queued_job_can_lose_its_row :
  ∃ s, reachable no_statvfs ManagerWitnesses.some_manager 1 s ∧
    queue (pipe (io s)) = [mkCacheJob the_path Populate 6] ∧
    deferred_events (tables (store (io s)).2) !! the_path = None.
Proof.
  destruct (schedule_reaches no_statvfs ManagerWitnesses.some_manager
    [ASubmit 5 the_path Populate; ADispatch; APermit; AStart 0; ARoom 0; AFinishLocked 0;
     ASubmit 6 the_path Populate; AFinishDb 0] 0 0 1 start_store row_lost)
    as (s & Hr & Hc); [vm_compute; reflexivity|].
  exists s. split; [exact Hr|]. unfold row_lost in Hc. apply andb_prop in Hc as [Hq Hd].
  apply bool_decide_eq_true in Hq. split; [exact Hq|]. by destruct (_ !! the_path).
Qed.

(** Two copies can write one partial file: a populate and a replacement of the same path are
    different jobs to the deduplication, and both can be in the copying state at once, with the
    same partial path. *)
Theorem populate_and_replace_share_a_partial :
  ∃ s j1 j2 c1 c2, reachable roomy ManagerWitnesses.some_manager 2 s ∧
    workers s = [mkWorker j1 (Copy c1); mkWorker j2 (Copy c2)] ∧ j1 ≠ j2 ∧
    partial_path (Manager.cache_path ManagerWitnesses.some_manager (rel_path j1)) =
      partial_path (Manager.cache_path ManagerWitnesses.some_manager (rel_path j2)).
Proof.
  destruct (schedule_reaches roomy ManagerWitnesses.some_manager
    [ASubmit 5 the_path Populate; ASubmit 5 the_path Replace; ADispatch; APermit; ADispatch; APermit;
     AStart 0; ARoom 0; AStart 1; ARoom 1] 0 0 2 start_store both_copying)
    as (s & Hr & Hc); [vm_compute; reflexivity|].
  exists s, (mkCacheJob the_path Populate 5), (mkCacheJob the_path Replace 5), 0%nat, 1%nat.
  split; [exact Hr|]. unfold both_copying in Hc.
  destruct (workers s) as [|[j1 [| | [|c] | | |]] [|[j2 [| | [|[|c2]] | | |]] [|]]]; try discriminate Hc.
  apply bool_decide_eq_true in Hc as [-> ->]. split; [done|]. split; [discriminate|done].
Qed.
End PipelineTheorems.
