(* ===== verification/PipelineTerm.v ===== *)
(** * The pipeline comes to rest

    The steps of [CacheIo.Pipeline] are those of the dispatcher, the workers and the sweeps, and
    three that come from outside: a submission, an abort and a change of the store by someone
    else.  Without the latter the pipeline terminates, and when copies are allowed and there are
    permits it terminates with all work done. *)
From S2P Require Import Prelude Paths Scheduler Backing Disk Db Manager CacheIo.

Module PipelineTerm.
Import CacheIO Pipeline PipelineFacts.

Section measure.
Context `{MapOrder} (statvfs : Disk → path → option Statvfs) (cm : CacheManager).

(** What others do to the pipeline. *)
Inductive input : System → System → Prop :=
  | input_submit s now rel k : input s (set_io (submit_locked now rel k) s)
  | input_abort s rel : input s (set_io (mark_abort rel) s)
  | input_outside s st : input s (set_io (with_store st) s).

(** A step of the pipeline's own tasks that does something: a sweep of the queue that finds no
    expired job is none. *)
Definition work (s s' : System) : Prop := io_step statvfs cm s s' ∧ ¬ input s s' ∧ s' ≠ s.

(** Nothing queued, held or running, and no deferred row left to remove. *)
Definition at_rest (s : System) : Prop :=
  queue (pipe (io s)) = [] ∧ held s = None ∧ workers s = [] ∧ expiring s = [].

(** A bound on the steps still to come: a validation may queue a replacement once. *)
Definition queue_weight (j : CacheJob) : nat := if decide (kind j = Validate) then 16 else 8.

Definition worker_weight (w : Worker) : nat :=
  match w_pc w with
  | Start => queue_weight (w_job w) - 2
  | Room _ => 5 | Copy _ => 4 | Commit _ => 3 | FinishLocked => 2 | FinishDb => 1
  end.

Definition measure (s : System) : nat :=
  sum_list_with queue_weight (queue (pipe (io s)))
  + match held s with Some j => queue_weight j - 1 | None => 0 end
  + sum_list_with worker_weight (workers s) + length (expiring s).

Lemma queue_weight_bounds j : (8 <= queue_weight j <= 16)%nat.
Proof. unfold queue_weight. case_decide; lia. Qed.

Lemma submit_locked_queue now rel k i :
  (sum_list_with queue_weight (queue (pipe i))
   <= sum_list_with queue_weight (queue (pipe (submit_locked now rel k i)))
   <= sum_list_with queue_weight (queue (pipe i)) + queue_weight (mkCacheJob rel k now))%nat.
Proof.
  destruct (submit_locked_pipe now rel k i) as [->|[_ ->]]; [lia|].
  cbn [queue]. rewrite sum_list_app. cbn. lia.
Qed.

Lemma input_measure s s' : input s s' → (measure s <= measure s')%nat.
Proof.
  destruct 1 as [s now rel k|s rel|s st]; unfold measure, set_io; cbn [io held workers expiring].
  - pose proof (submit_locked_queue now rel k (io s)). lia.
  - by rewrite mark_abort_pipe.
  - done.
Qed.

Lemma pop_weight q allowed j q' :
  pop_next_job q allowed = Some (j, q') →
  sum_list_with queue_weight q = (queue_weight j + sum_list_with queue_weight q')%nat.
Proof. intros ->%pop_next_job_perm. done. Qed.

Lemma expire_weight now ttl i i' expired :
  expire_locked now ttl i = (i', expired) →
  (i' = i ∧ expired = []) ∨
  (sum_list_with queue_weight (queue (pipe i')) + length expired
   < sum_list_with queue_weight (queue (pipe i)))%nat.
Proof.
  unfold expire_locked. destruct (ttl =? 0); [intros [= <- <-]; by left|].
  set (cutoff := saturating_sub now (as_u64 (ttl * 60))).
  destruct (expire_front_spec cutoff (queue (pipe i)) (known (pipe i))) as (gone & Hq & Hk & _ & He & _).
  destruct (expire_front _ _ _) as [p ex]. cbn [fst snd] in *. intros [= <- <-].
  destruct gone as [|j gone].
  - left. cbn in *. destruct i as [[q k] ? ? ?], p as [q' k']. cbn in *. by subst.
  - right. cbn [pipe with_pipe]. rewrite Hq, sum_list_app, He, length_fmap.
    assert (length (filter (λ j, kind j = Populate) (j :: gone)) <= length (j :: gone))%nat by apply length_filter.
    assert (8 * length (j :: gone) <= sum_list_with queue_weight (j :: gone))%nat as Hw.
    { clear. induction (j :: gone) as [|x l IH]; [done|]. pose proof (queue_weight_bounds x). cbn in *. lia. }
    cbn [length] in *. lia.
Qed.

(** Every step is an input, changes nothing, or brings the end nearer. *)
Lemma step_measure s s' :
  io_step statvfs cm s s' → input s s' ∨ s' = s ∨ (measure s' < measure s)%nat.
Proof.
  intros Hs. destruct Hs as
    [s now rel k|s rel|s st|s now ttl i' ex Hex|s p ps Hex|s allowed job q Hh Hpop Hk|s allowed job q Hh Hpop Hk
    |s job n Hh Hp|s l1 l2 job Hw Hk Hst|s l1 l2 job i' c Hw Hk Hst|s l1 l2 job c size i' okb Hw Hr
    |s l1 l2 job c env i' r Hw Hab Hc|s l1 l2 job r now Hw|s l1 l2 job now backing Hw Hk|s l1 l2 job Hw|s l1 l2 job Hw].
  1-3: left; constructor.
  all: right; unfold measure; cbn [io held workers expiring].
  - destruct (expire_weight _ _ _ _ _ Hex) as [[-> ->]|Hlt]; [left|right].
    + rewrite app_nil_r. by destruct s.
    + rewrite length_app. lia.
  - right. rewrite Hex. cbn. lia.
  - right. apply pop_weight in Hpop. rewrite Hh, Hpop, sum_list_app. cbn [pipe with_pipe queue sum_list_with].
    unfold worker_weight. cbn. pose proof (queue_weight_bounds job). lia.
  - right. apply pop_weight in Hpop. rewrite Hh, Hpop. cbn [pipe with_pipe queue].
    pose proof (queue_weight_bounds job). lia.
  - right. rewrite Hh, sum_list_app. unfold worker_weight. cbn.
    pose proof (queue_weight_bounds job). lia.
  - right. rewrite Hw, !sum_list_app. cbn. unfold worker_weight. cbn.
    pose proof (queue_weight_bounds job). lia.
  - right. rewrite Hw, !sum_list_app. cbn. rewrite (populate_start_pipe _ _ _ _ _ _ Hst). cbn.
    unfold worker_weight. cbn. pose proof (queue_weight_bounds job). lia.
  - right. rewrite Hw, !sum_list_app.
    assert (pipe i' = pipe (io s)) as -> by (unfold populate_room in Hr; by injection Hr as <- _).
    destruct okb; cbn; unfold worker_weight; cbn; lia.
  - right. rewrite Hw, !sum_list_app. unfold populate_copy in Hc. case_match. injection Hc as <- <-. cbn.
    unfold worker_weight. cbn. lia.
  - right. rewrite Hw, !sum_list_app. destruct r; cbn; unfold worker_weight; cbn; lia.
  - right. rewrite Hw, !sum_list_app.
    assert (sum_list_with queue_weight (queue (pipe (validate_body cm now backing (rel_path job) (io s))))
      <= sum_list_with queue_weight (queue (pipe (io s))) + 8)%nat.
    { destruct (validate_body_pipe cm now backing (rel_path job) (io s)) as [->| ->]; [lia|].
      apply submit_locked_queue. }
    cbn. unfold worker_weight, queue_weight in *. cbn. rewrite decide_True by done. lia.
  - right. rewrite Hw, !sum_list_app. cbn. unfold worker_weight. cbn. lia.
  - right. rewrite Hw, !sum_list_app. unfold finish_known_db. case_decide; cbn; unfold worker_weight; cbn; lia.
Qed.

Lemma work_measure s s' : work s s' → (measure s' < measure s)%nat.
Proof. intros (Hs & Hi & Hne). by destruct (step_measure s s' Hs) as [?|[?|?]]. Qed.

Lemma measure_work s s' : io_step statvfs cm s s' → (measure s' < measure s)%nat → work s s'.
Proof.
  intros Hs Hm. split; [done|]. split; [|by intros ->; lia].
  intros Hi%input_measure. lia.
Qed.

(** Inputs leave the tasks where they are. *)
Definition tasks (s : System) : option CacheJob * list Worker * list path := (held s, workers s, expiring s).

Lemma work_intro s s' : io_step statvfs cm s s' → tasks s' ≠ tasks s → work s s'.
Proof.
  intros Hs Ht. split; [done|]. split; [|by intros ->]. intros Hi. apply Ht. by destruct Hi.
Qed.

Lemma worker_enabled s w l : workers s = w :: l → (is_Some (handle_of (w_pc w)) → kind (w_job w) ≠ Validate) →
  ∃ s', io_step statvfs cm s s' ∧ tasks s' ≠ tasks s.
Proof.
  intros Hw Hk. destruct w as [job [|c|c|r| |]]; cbn in Hk.
  - destruct (decide (kind job = Validate)) as [Hv|Hv].
    + eexists. split; [by apply (step_validate _ _ s [] l job 0 None)|].
      unfold tasks. cbn. rewrite Hw. congruence.
    + destruct (populate_start cm (rel_path job) (kind job) (io s)) as [i' [c|]] eqn:Hst.
      * eexists. split; [by eapply (step_start _ _ s [] l)|]. unfold tasks. cbn. rewrite Hw. congruence.
      * assert (i' = io s) as -> by (unfold populate_start in Hst; case_match; by injection Hst as <-).
        eexists. split; [by eapply (step_skip _ _ s [] l)|]. unfold tasks. cbn. rewrite Hw. congruence.
  - destruct (populate_room statvfs cm 0 (io s)) as [i' okb] eqn:Hr.
    eexists. split; [by eapply (step_room _ _ s [] l)|]. unfold tasks. cbn. rewrite Hw. by destruct okb.
  - set (env := mkCopyEnv (Err (OsError ENOENT)) [] (λ _, None) None (default false (abort (io s) !! c))
                  None None None None).
    destruct (populate_copy cm env (rel_path job) (io s)) as [i' r] eqn:Hc.
    eexists. split; [by eapply (step_copy _ _ s [] l job c env)|]. unfold tasks. cbn. rewrite Hw. congruence.
  - eexists. split; [by apply (step_commit _ _ s [] l job r 0)|]. unfold tasks. cbn. rewrite Hw. congruence.
  - eexists. split; [by apply (step_finish_locked _ _ s [] l)|]. unfold tasks. cbn. rewrite Hw. congruence.
  - eexists. split; [by apply (step_finish_db _ _ s [] l)|]. unfold tasks. cbn. rewrite Hw.
    intros Heq. apply (f_equal (λ x, length x.1.2)) in Heq. cbn in Heq. lia.
Qed.

Lemma work_enabled max s :
  reachable statvfs cm max s → (0 < max)%nat → at_rest s ∨ ∃ s', work s s'.
Proof.
  intros Hr Hmax. destruct (reachable_ok statvfs cm max s Hr) as [_ _ Hp _ Hkinds _].
  destruct (workers s) as [|w l] eqn:Hw.
  2: { right. destruct (worker_enabled s w l Hw) as (s' & Hs & Ht); [apply Hkinds; by left|].
       exists s'. by apply work_intro. }
  destruct (held s) as [j|] eqn:Hh.
  { right. cbn in Hp. destruct (permits s) as [|n] eqn:Hpm; [lia|].
    eexists. apply work_intro; [by eapply step_permit|]. unfold tasks. cbn. by rewrite Hh. }
  destruct (expiring s) as [|p ps] eqn:He.
  2: { right. eexists. apply work_intro; [by eapply step_expire_row|]. unfold tasks. cbn. rewrite He.
       intros Heq. apply (f_equal (λ x, length x.2)) in Heq. cbn in Heq. lia. }
  destruct (queue (pipe (io s))) as [|j q] eqn:Hq; [by left|right].
  destruct (decide (kind j = Validate)) as [Hv|Hv]; eexists; apply work_intro.
  - by eapply (step_dispatch_validate _ _ s true j q); [|rewrite Hq|].
  - unfold tasks. cbn. by rewrite Hw.
  - by eapply (step_dispatch_copy _ _ s true j q); [|rewrite Hq|].
  - unfold tasks. cbn. by rewrite Hh.
Qed.

Lemma reachable_work max s s' : reachable statvfs cm max s → rtc work s s' → reachable statvfs cm max s'.
Proof.
  intros (now & ttl & st & Hs) Hw. exists now, ttl, st. etrans; [exact Hs|].
  clear Hs. induction Hw as [|s1 s2 s3 [Hs _] _ IH]; [done|]. by eapply rtc_l.
Qed.

Lemma rest_clean max s : reachable statvfs cm max s → at_rest s → known (pipe (io s)) = ∅ ∧ permits s = max.
Proof.
  intros Hr (Hq & Hh & Hw & _). destruct (reachable_ok statvfs cm max s Hr) as [_ Hk Hp _ _ _].
  rewrite Hw in Hp. cbn in Hp. split; [|lia].
  apply map_empty. intros k. apply eq_None_not_Some. rewrite Hk. unfold active. rewrite Hq, Hh, Hw. apply not_elem_of_nil.
Qed.

Lemma work_steps_bound n s s' : nsteps work n s s' → (n + measure s' <= measure s)%nat.
Proof. induction 1 as [|n s1 s2 s3 Hw%work_measure _ IH]; lia. Qed.

Lemma drains max s : reachable statvfs cm max s → (0 < max)%nat → ∃ s', rtc work s s' ∧ at_rest s'.
Proof.
  intros Hr Hmax. remember (measure s) as n eqn:Hn. revert s Hr Hn.
  induction n as [n IH] using lt_wf_ind. intros s Hr ->.
  destruct (work_enabled max s Hr Hmax) as [Hrest|[s1 Hw]]; [by exists s|].
  destruct (IH (measure s1) (work_measure _ _ Hw) s1) as (s' & Hs & Hrest); [|done|].
  - apply (reachable_work max s); [done|by apply rtc_once].
  - exists s'. split; [by eapply rtc_l|done].
Qed.
End measure.
End PipelineTerm.

Module PipelineTermTheorems.
Import CacheIO Pipeline PipelineFacts PipelineTerm.
Section theorems.
Context `{MapOrder} (statvfs : Disk → path → option Statvfs) (cm : CacheManager).


(** Without a permit the first copy blocks the dispatcher for good, and the validations behind it:
    the job it holds is never given to a worker. *)
Lemma no_permit_no_progress s j s' :
  held s = Some j → permits s = O → Forall (λ w, kind (w_job w) = Validate) (workers s) →
  rtc (io_step statvfs cm) s s' →
  held s' = Some j ∧ permits s' = O ∧ Forall (λ w, kind (w_job w) = Validate) (workers s').
Proof.
  intros Hh Hp Hw Hs. induction Hs as [s|s s1 s2 Hstep _ IH]; [done|]. apply IH; clear IH s2.
  all: destruct Hstep; cbn in *; simplify_eq/=; try done.
  all: try congruence.
  all: match goal with Hl : workers _ = _ |- _ => rewrite Hl in Hw; clear Hl end.
  all: apply Forall_app in Hw as [? [Hj ?]%Forall_cons]; cbn in Hj.
  all: first [by rewrite decide_True | apply Forall_app; split; [done|]; first [done|by constructor]].
Qed.
End theorems.

End PipelineTermTheorems.
