(* ===== verification/Preset.v ===== *)
(** * Presets

    [src/preset.rs]: what is known of the process that opens a file, the process policy, and the
    interface a caching preset offers to the FUSE layer and to the action engine. *)
From S2P Require Import Prelude Paths.

(** What [/proc] answers: the target of [/proc/<pid>/exe], the text of [/proc/<pid>/status] and
    the bytes of [/proc/<pid>/cmdline]. *)
Record ProcFs := mkProcFs {
  proc_exe : Z → option path;
  proc_status : Z → option string;
  proc_cmdline : Z → option string;
}.

Record ProcessInfo := mkProcessInfo {
  pid : Z;
  name : option string;
  cmdline : option string;
  ancestors : list string;
}.

Module ProcessInfo.
Import Text.

Definition proc_name (proc : ProcFs) (pid : Z) : option string :=
  exe ← proc_exe proc pid;
  file_name exe.

Definition newline : ascii := "010"%char.
Definition tab : ascii := "009"%char.
Definition ppid_prefix : string := ("PPid:" ++ String tab "")%string.

(** The first line that starts with the prefix decides. *)
Fixpoint find_ppid (lines : list string) : option Z :=
  match lines with
  | [] => None
  | line :: lines' =>
      match strip_prefix_str ppid_prefix line with
      | Some ppid_str => parse_unsigned (2 ^ 32 - 1) (trim ppid_str)
      | None => find_ppid lines'
      end
  end.

Definition proc_parent_pid (proc : ProcFs) (pid : Z) : option Z :=
  status ← proc_status proc pid;
  find_ppid (split newline status).

Fixpoint ancestors_loop (n : nat) (proc : ProcFs) (current : Z) (acc : list string) : list string :=
  match n with
  | O => acc
  | S n' =>
      if current <=? 1 then acc
      else match proc_parent_pid proc current with
           | Some ppid =>
               if negb (ppid =? current) && (1 <? ppid)
               then ancestors_loop n' proc ppid
                      (match proc_name proc ppid with Some s => acc ++ [s] | None => acc end)
               else acc
           | None => acc
           end
  end.

Definition collect_ancestors (proc : ProcFs) (pid : Z) : list string :=
  ancestors_loop 16 proc pid [].

Definition capture (proc : ProcFs) (pid : Z) : ProcessInfo :=
  mkProcessInfo pid (proc_name proc pid) (proc_cmdline proc pid) (collect_ancestors proc pid).

Definition matches_opener (p : ProcessInfo) (names : list string) : bool :=
  match name p with
  | Some name => existsb (λ n, bool_decide (name = n)) names
  | None => false
  end.

Definition matches_any (p : ProcessInfo) (names : list string) : bool :=
  if matches_opener p names then true
  else existsb (λ a, existsb (λ n, bool_decide (a = n)) names) (ancestors p).

Definition is_blocked_by (p : ProcessInfo) (blocklist : list string) : bool :=
  matches_any p blocklist.
End ProcessInfo.

Record ProcessFilterPolicy := mkProcessFilterPolicy {
  allowlist : list string;
  blocklist : list string;
}.

Module ProcessFilterPolicy.
Definition is_empty {A} (l : list A) : bool := match l with [] => true | _ => false end.

Definition should_filter (policy : ProcessFilterPolicy) (process : ProcessInfo) : bool :=
  if negb (is_empty (blocklist policy)) && ProcessInfo.is_blocked_by process (blocklist policy)
  then true
  else negb (is_empty (allowlist policy))
       && negb (ProcessInfo.matches_opener process (allowlist policy)).
End ProcessFilterPolicy.

Inductive CacheAction :=
  | Cache (paths : list path)
  | Evict (paths : list path).

(** The backing store as presets and the engine see it: what [list_dir], [is_dir] and
    [file_size] answer while one event is handled.  [Backing.BackingStore] implements it. *)
Class BackingView := mkBackingView {
  list_dir : path → list string;
  is_dir : path → bool;
  file_size : path → option Z;
}.

(** The trait; a preset inherits the defaults it does not override. *)
Record CachePreset := mkCachePreset {
  preset_name : string;
  should_filter : ProcessInfo → bool;
  on_miss : BackingView → path → list CacheAction;
  on_hit : BackingView → path → list CacheAction;
  on_close : BackingView → path → Z → list CacheAction;
  on_tick : BackingView → list CacheAction;
  deduplicate_key : path → path;
}.

Definition default_preset (name : string) : CachePreset :=
  mkCachePreset name (λ _, false) (λ _ _, []) (λ _ _, []) (λ _ _ _, []) (λ _, []) (λ p, p).

(** ** Process policy *)
Module PresetFacts.
Import ProcessInfo.

Lemma existsb_eq (s : string) l : existsb (λ n, bool_decide (s = n)) l = true ↔ s ∈ l.
Proof.
  rewrite existsb_exists. split.
  - intros (x & Hx & ->%bool_decide_eq_true). by apply list_elem_of_In.
  - intros Hs. exists s. split; [by apply list_elem_of_In|]. by apply bool_decide_eq_true.
Qed.

Lemma matches_opener_spec p names : matches_opener p names = true ↔ ∃ n, name p = Some n ∧ n ∈ names.
Proof.
  unfold matches_opener. destruct (name p) as [n|]; [|split; [done|intros (? & ? & _); done]].
  rewrite existsb_eq. split; [eauto|]. by intros (? & [= ->] & ?).
Qed.

Lemma matches_any_spec p names :
  matches_any p names = true ↔ ∃ n, (name p = Some n ∨ n ∈ ancestors p) ∧ n ∈ names.
Proof.
  unfold matches_any. destruct (matches_opener p names) eqn:Ho.
  - apply matches_opener_spec in Ho as (n & ? & ?). split; [eauto|done].
  - rewrite existsb_exists. setoid_rewrite existsb_eq. setoid_rewrite <- list_elem_of_In.
    split; [intros (n & ? & ?); eauto|]. intros (n & [Hn|Hn] & Hin); [|eauto].
    assert (matches_opener p names = true) by (apply matches_opener_spec; eauto). congruence.
Qed.

Lemma is_empty_spec {A} (l : list A) : ProcessFilterPolicy.is_empty l = true ↔ l = [].
Proof. by destruct l. Qed.

(** When the policy lets a process through. *)
Lemma policy_passes policy p :
  ProcessFilterPolicy.should_filter policy p = false ↔
  (∀ n, name p = Some n ∨ n ∈ ancestors p → n ∉ blocklist policy) ∧
  (allowlist policy = [] ∨ ∃ n, name p = Some n ∧ n ∈ allowlist policy).
Proof.
  unfold ProcessFilterPolicy.should_filter, is_blocked_by. rewrite <- matches_opener_spec.
  rewrite <- is_empty_spec.
  assert ((∀ n, name p = Some n ∨ n ∈ ancestors p → n ∉ blocklist policy) ↔
          matches_any p (blocklist policy) = false) as ->.
  { rewrite <- not_true_iff_false, matches_any_spec. split; [intros H (n & ? & ?); naive_solver|].
    intros H n Hn Hb. apply H. eauto. }
  destruct (blocklist policy) as [|b l]; simpl.
  - assert (matches_any p [] = false) as ->.
    { rewrite <- not_true_iff_false, matches_any_spec. intros (n & _ & Hn). by apply elem_of_nil in Hn. }
    rewrite andb_false_iff, !negb_false_iff. naive_solver.
  - destruct (matches_any p _); [naive_solver|].
    rewrite andb_false_iff, !negb_false_iff. naive_solver.
Qed.

(** [pids] is the chain of parents above [pid], each neither itself nor init. *)
Fixpoint parent_chain (proc : ProcFs) (pid : Z) (pids : list Z) : Prop :=
  match pids with
  | [] => True
  | ppid :: pids' => 1 < pid ∧ proc_parent_pid proc pid = Some ppid ∧ ppid ≠ pid ∧ 1 < ppid
                     ∧ parent_chain proc ppid pids'
  end.

Lemma ancestors_loop_spec n proc current acc :
  ∃ pids, parent_chain proc current pids ∧ (length pids <= n)%nat ∧
    ancestors_loop n proc current acc = acc ++ omap (proc_name proc) pids ∧
    ((length pids < n)%nat → ∀ ppid, ¬ parent_chain proc current (pids ++ [ppid])).
Proof.
  revert current acc. induction n as [|n IH]; intros current acc; simpl.
  { exists []. split_and!; [done|done|by rewrite app_nil_r|simpl; lia]. }
  destruct (Z.leb_spec current 1) as [Hc|Hc].
  { exists []. split_and!; [done|simpl; lia|by rewrite app_nil_r|]. simpl. intros _ ppid. lia. }
  destruct (proc_parent_pid proc current) as [ppid|] eqn:Hp.
  - destruct (negb (ppid =? current) && (1 <? ppid)) eqn:Hb; to_prop.
    + destruct Hb as [Hne Hgt].
      destruct (IH ppid (match proc_name proc ppid with Some s => acc ++ [s] | None => acc end))
        as (pids & Hch & Hlen & -> & Hmax).
      exists (ppid :: pids). split_and!; [done|simpl; lia| |].
      * simpl. destruct (proc_name proc ppid); [by rewrite <- app_assoc|done].
      * simpl. intros Hl q (_ & _ & _ & _ & Hq). by apply (Hmax ltac:(lia) q).
    + exists []. split_and!; [done|simpl; lia|by rewrite app_nil_r|].
      simpl. intros _ q (_ & Hq & ? & ? & _). destruct Hb; simplify_eq; lia.
  - exists []. split_and!; [done|simpl; lia|by rewrite app_nil_r|].
    simpl. intros _ q (_ & Hq & _). congruence.
Qed.
End PresetFacts.

Module PresetTheorems.
Import ProcessInfo PresetFacts.

(** The process policy judges the opener and its parents: for a process captured from [/proc]
    there is a chain of parents, at most sixteen long and complete when shorter, such that the
    open is let through exactly when no executable of the process or of the chain is on the
    blocklist and the allowlist is empty or holds the executable of the process itself. *)
Theorem policy_judges_parent_chain proc pid policy :
  ∃ pids, parent_chain proc pid pids ∧ (length pids <= 16)%nat ∧
    ((length pids < 16)%nat → ∀ ppid, ¬ parent_chain proc pid (pids ++ [ppid])) ∧
    (ProcessFilterPolicy.should_filter policy (capture proc pid) = false ↔
      (∀ p exe, p ∈ pid :: pids → proc_name proc p = Some exe → exe ∉ blocklist policy) ∧
      (allowlist policy = [] ∨ ∃ exe, proc_name proc pid = Some exe ∧ exe ∈ allowlist policy)).
Proof.
  destruct (ancestors_loop_spec 16 proc pid []) as (pids & Hch & Hlen & Heq & Hmax).
  exists pids. split_and!; [done|done|done|]. rewrite policy_passes.
  apply and_iff_compat_r. unfold capture, collect_ancestors. rewrite Heq. simpl. split.
  - intros H p exe Hp He. apply H. apply elem_of_cons in Hp as [-> |Hp]; [by left|].
    right. apply list_elem_of_omap. eauto.
  - intros H n [Hn|Hn]; [apply (H pid); [by left|done]|].
    apply list_elem_of_omap in Hn as (p & Hp & He). apply (H p); [by right|done].
Qed.
End PresetTheorems.
