(* ===== verification/Prediction.v ===== *)
(** * Episode prediction

    [src/prediction_utils.rs] and [src/presets/plex_episode_prediction.rs].  The [regex] crate
    is third-party: what its matcher answers is the parameter [RegexEngine].  The patterns are the
    ones of the code; both groups of [season_ep_re] and the one of [season_dir_re] take part in
    every match, so indexing the captures does not panic. *)
From S2P Require Import Prelude Paths Preset.

(** [captures] gives the groups of the leftmost match, the whole match first. *)
Class RegexEngine := {
  regex_valid : string → bool;
  captures : string → string → option (list string);
  is_match : string → string → bool;
}.

Definition episode_t : Type := Z * Z * path.

Module Prediction.
Import Text.
Section prediction.
Context `{RegexEngine}.

Definition season_ep_re : string := "(?i)[Ss](\d{1,2})[Ee](\d{1,3})".
Definition season_dir_re : string := "(?i)^Season\s+0*(\d+)$".

Definition parse_u32 : string → option Z := parse_unsigned (2 ^ 32 - 1).

Definition parse_season_episode (name : string) : option (Z * Z) :=
  cap ← captures season_ep_re name;
  s ← cap !! 1%nat ≫= parse_u32;
  e ← cap !! 2%nat ≫= parse_u32;
  Some (s, e).

Definition parse_season_dir (name : string) : option Z :=
  cap ← captures season_dir_re name;
  cap !! 1%nat ≫= parse_u32.

Definition show_root (rel_path : path) : path := parent rel_path.

(** The order of [sort_by_key(|(s, e, _)| (s, e))]. *)
Definition episode_le (a b : episode_t) : bool :=
  (a.1.1 <? b.1.1) || ((a.1.1 =? b.1.1) && (a.1.2 <=? b.1.2)).

(** The [filter_map] over the entries of [dir] that keeps the episodes [keep] accepts. *)
Definition episodes_of (keep : Z → Z → bool) (dir : path) (entries : list string) : list episode_t :=
  omap (λ entry_name,
    '(s_num, e_num) ← parse_season_episode entry_name;
    if keep s_num e_num then Some (s_num, e_num, dir ++ [entry_name]) else None) entries.

Context `{BackingView}.

(** Phase 1. *)
Definition same_season (dir : path) (season episode : Z) (lookahead : nat) : list episode_t :=
  take lookahead (sort_by episode_le
    (episodes_of (λ s e, (s =? season) && (episode <? e)) dir (list_dir dir))).

(** The directories of the later seasons, in order of season. *)
Definition next_seasons (show_dir : path) (season : Z) : list (Z * path) :=
  sort_by (λ a b, a.1 <=? b.1)
    (omap (λ entry_name,
       s_num ← parse_season_dir entry_name;
       if season <? s_num then Some (s_num, show_dir ++ [entry_name]) else None)
     (list_dir show_dir)).

Definition season_episodes (season_dir : path) : list episode_t :=
  sort_by episode_le (episodes_of (λ _ _, true) season_dir (list_dir season_dir)).

(** The inner loop; the flag tells that it broke out of the outer one. *)
Fixpoint push_episodes (lookahead : nat) (eps candidates : list episode_t) :
    list episode_t * bool :=
  match eps with
  | [] => (candidates, false)
  | ep :: eps' =>
      if (lookahead <=? length candidates)%nat then (candidates, true)
      else push_episodes lookahead eps' (candidates ++ [ep])
  end.

Fixpoint push_seasons (lookahead : nat) (seasons : list (Z * path))
    (candidates : list episode_t) : list episode_t :=
  match seasons with
  | [] => candidates
  | (_, season_dir) :: seasons' =>
      match push_episodes lookahead (season_episodes season_dir) candidates with
      | (candidates', true) => candidates'
      | (candidates', false) => push_seasons lookahead seasons' candidates'
      end
  end.

(** The flat branch of phase 2. *)
Definition later_seasons (dir : path) (season : Z) : list episode_t :=
  sort_by episode_le (episodes_of (λ s _, season <? s) dir (list_dir dir)).

Definition find_next_episodes (rel_path : path) (lookahead : nat) : list path :=
  match file_name rel_path with
  | None => []
  | Some name =>
      match parse_season_episode name with
      | None => []
      | Some (season, episode) =>
          let dir := parent rel_path in
          let candidates := same_season dir season episode lookahead in
          let candidates :=
            if (length candidates <? lookahead)%nat then
              let needed := (lookahead - length candidates)%nat in
              let parent_dir_name := default "" (file_name dir) in
              match parse_season_dir parent_dir_name with
              | Some _ => push_seasons lookahead (next_seasons (parent dir) season) candidates
              | None => candidates ++ take needed (later_seasons dir season)
              end
            else candidates in
          (λ ep, ep.2) <$> take lookahead candidates
      end
  end.
End prediction.
End Prediction.

(** ** The preset *)
Record PlexEpisodePrediction := mkPlexEpisodePrediction {
  lookahead : nat;
  process_policy : ProcessFilterPolicy;
  rolling_buffer : bool;
}.

Module PlexEpisodePrediction.
Import Text.

Definition STREAMING_FORMATS : list string := ["dash"; "ssegment"; "mpegts"]%string.

Definition new_with_process_policy (lookahead : nat) (allow block : list string) (rolling : bool) :
    PlexEpisodePrediction :=
  mkPlexEpisodePrediction lookahead (mkProcessFilterPolicy allow block) rolling.

Definition new (lookahead : nat) (block : list string) (rolling : bool) : PlexEpisodePrediction :=
  new_with_process_policy lookahead [] block rolling.

Definition nul : Ascii.ascii := "000"%char.

Fixpoint playback_loop (prev : string) (toks : list string) : bool :=
  match toks with
  | [] => false
  | tok :: toks' =>
      if bool_decide (prev = "-f"%string) && bool_decide (tok ∈ STREAMING_FORMATS) then true
      else playback_loop tok toks'
  end.

Definition is_plex_playback_cmdline (cmdline : string) : bool :=
  playback_loop "" (split nul cmdline).

Definition should_filter (self : PlexEpisodePrediction) (process : ProcessInfo) : bool :=
  if ProcessFilterPolicy.should_filter (process_policy self) process then true
  else if bool_decide (name process = Some "Plex Transcoder"%string) then
    match cmdline process with
    | Some c => negb (is_plex_playback_cmdline c)
    | None => true
    end
  else false.

Section preset.
Context `{RegexEngine}.

Definition on_miss (self : PlexEpisodePrediction) (view : BackingView) (p : path) : list CacheAction :=
  [Cache (p :: Prediction.find_next_episodes p (lookahead self))].

Definition on_hit (self : PlexEpisodePrediction) (view : BackingView) (p : path) : list CacheAction :=
  if negb (rolling_buffer self) then [] else on_miss self view p.

Definition preset (self : PlexEpisodePrediction) : CachePreset :=
  let d := default_preset "plex_episode_prediction" in
  mkCachePreset (preset_name d) (should_filter self) (on_miss self) (on_hit self)
                (Preset.on_close d) (Preset.on_tick d) Prediction.show_root.
End preset.
End PlexEpisodePrediction.

(** ** Lemmas *)
Module PredictionFacts.
Import Prediction.

#[export] Instance episode_le_total : TotalOrderb episode_le.
Proof.
  unfold episode_le. split.
  - intros [[s e] p] [[s' e'] p']. simpl. to_prop. lia.
  - intros [[s e] p] [[s' e'] p'] [[s'' e''] p'']. simpl. to_prop. lia.
Qed.

#[export] Instance season_le_total : TotalOrderb (λ a b : Z * path, a.1 <=? b.1).
Proof. split; intros; to_prop; lia. Qed.

(** An episode after the given one in the order of watching. *)
Definition is_later (season episode s e : Z) : bool :=
  (season <? s) || ((s =? season) && (episode <? e)).

Section facts.
Context `{RegexEngine}.

Lemma elem_of_episodes_of keep dir entries s e p :
  (s, e, p) ∈ episodes_of keep dir entries ↔
  ∃ f, f ∈ entries ∧ parse_season_episode f = Some (s, e) ∧ keep s e = true ∧ p = dir ++ [f].
Proof.
  unfold episodes_of. rewrite list_elem_of_omap. split.
  - intros (f & Hf & Heq). destruct (parse_season_episode f) as [[s' e']|] eqn:E; [|done]. simpl in Heq.
    destruct (keep s' e') eqn:K; [|done]. simplify_eq. eauto.
  - intros (f & Hf & E & K & ->). exists f. rewrite E. simpl. by rewrite K.
Qed.

Lemma episodes_of_cons keep dir f entries :
  episodes_of keep dir (f :: entries) =
  match parse_season_episode f with
  | Some (s, e) => if keep s e then (s, e, dir ++ [f]) :: episodes_of keep dir entries
                   else episodes_of keep dir entries
  | None => episodes_of keep dir entries
  end.
Proof. unfold episodes_of. simpl. destruct (parse_season_episode f) as [[s e]|]; [|done]. simpl. by destruct (keep s e). Qed.

Lemma filter_episodes_of (P : episode_t → Prop) `{∀ x, Decision (P x)} keep keep' dir entries :
  (∀ s e p, keep' s e = true ↔ keep s e = true ∧ P (s, e, p)) →
  filter P (episodes_of keep dir entries) = episodes_of keep' dir entries.
Proof.
  intros Hk. induction entries as [|f entries IH]; [done|]. rewrite !episodes_of_cons.
  destruct (parse_season_episode f) as [[s e]|]; [|done].
  specialize (Hk s e (dir ++ [f])).
  destruct (keep s e) eqn:K, (keep' s e) eqn:K'; rewrite ?filter_cons, ?IH; try done.
  - rewrite decide_True; [done|]. by apply Hk.
  - rewrite decide_False; [done|]. intros HP. destruct Hk as [_ Hk]. by discriminate Hk.
  - exfalso. destruct (proj1 Hk eq_refl). done.
Qed.

(** Sorting the later episodes puts the rest of the season first. *)
Lemma later_splits season episode dir entries :
  sort_by episode_le (episodes_of (is_later season episode) dir entries) =
  sort_by episode_le (episodes_of (λ s e, (s =? season) && (episode <? e)) dir entries) ++
  sort_by episode_le (episodes_of (λ s _, season <? s) dir entries).
Proof.
  rewrite (sort_by_partition episode_le (λ ep, ep.1.1 = season)).
  - f_equal; f_equal; apply filter_episodes_of; intros s e p; unfold is_later; simpl; to_prop; lia.
  - intros [[s e] p] [[s' e'] p'] (f & _ & _ & Hx & _)%elem_of_episodes_of
      (f' & _ & _ & Hy & _)%elem_of_episodes_of. unfold is_later, episode_le in *. simpl.
    intros -> Hne. to_prop. lia.
Qed.

Context `{BackingView}.

Lemma length_same_season dir season episode n : (length (same_season dir season episode n) <= n)%nat.
Proof. unfold same_season. rewrite length_take. lia. Qed.

Lemma push_episodes_spec n eps cands :
  (length cands <= n)%nat →
  (push_episodes n eps cands).1 = take n (cands ++ eps) ∧
  ((push_episodes n eps cands).2 = true → length (push_episodes n eps cands).1 = n) ∧
  ((push_episodes n eps cands).2 = false → (push_episodes n eps cands).1 = cands ++ eps).
Proof.
  revert cands. induction eps as [|ep eps IH]; intros cands Hn; simpl.
  - rewrite app_nil_r, take_ge by done. done.
  - destruct (Nat.leb_spec n (length cands)) as [Hle|Hlt]; simpl.
    + rewrite take_app_le, take_ge by lia. split_and!; [done|lia|done].
    + destruct (IH (cands ++ [ep])) as (E1 & E2 & E3); [rewrite length_app; simpl; lia|].
      rewrite <- app_assoc in E1, E3. done.
Qed.

(** The two nested loops with their labelled break take a prefix of all the later episodes. *)
Lemma push_seasons_spec n seasons cands :
  (length cands <= n)%nat →
  push_seasons n seasons cands =
  take n (cands ++ (seasons ≫= λ sd, season_episodes sd.2)).
Proof.
  revert cands. induction seasons as [|[k d] seasons IH]; intros cands Hn; simpl.
  - by rewrite app_nil_r, take_ge by done.
  - destruct (push_episodes_spec n (season_episodes d) cands Hn) as (E1 & E2 & E3).
    destruct (push_episodes n _ cands) as [c []] eqn:Hp; simpl in *.
    + specialize (E2 eq_refl). rewrite app_assoc, take_app_le; [congruence|].
      rewrite E1, length_take in E2. lia.
    + specialize (E3 eq_refl). rewrite IH; [by rewrite E3, app_assoc|]. rewrite E1, length_take. lia.
Qed.

Lemma find_next_unfold rel name season episode n :
  file_name rel = Some name → parse_season_episode name = Some (season, episode) →
  find_next_episodes rel n = (λ ep, ep.2) <$> take n
    (sort_by episode_le (episodes_of (λ s e, (s =? season) && (episode <? e)) (parent rel)
                                     (list_dir (parent rel))) ++
     match parse_season_dir (default "" (file_name (parent rel))) with
     | Some _ => next_seasons (parent (parent rel)) season ≫= λ sd, season_episodes sd.2
     | None => later_seasons (parent rel) season
     end).
Proof.
  intros Hn Hp. unfold find_next_episodes. rewrite Hn, Hp.
  pose proof (length_same_season (parent rel) season episode n) as Hlen.
  destruct (Nat.ltb_spec (length (same_season (parent rel) season episode n)) n) as [Hlt|Hge].
  - assert (Hs : same_season (parent rel) season episode n =
                 sort_by episode_le (episodes_of (λ s e, (s =? season) && (episode <? e)) (parent rel)
                                       (list_dir (parent rel)))).
    { unfold same_season in *. apply take_ge. rewrite length_take in Hlt. lia. }
    destruct (parse_season_dir _).
    + rewrite push_seasons_spec by done. rewrite take_take, Nat.min_id. by rewrite Hs.
    + f_equal. rewrite Hs in Hlen |- *. rewrite !take_app. rewrite take_take. do 2 f_equal. lia.
  - unfold same_season in *. rewrite length_take in Hge. rewrite take_take, Nat.min_id.
    rewrite take_app_le by lia. done.
Qed.

(** *** Season directories *)
Lemma elem_of_next_seasons show season k d :
  (k, d) ∈ next_seasons show season ↔
  ∃ sd, sd ∈ list_dir show ∧ parse_season_dir sd = Some k ∧ season < k ∧ d = show ++ [sd].
Proof.
  unfold next_seasons. rewrite elem_of_sort_by, list_elem_of_omap. split.
  - intros (sd & Hsd & Heq). destruct (parse_season_dir sd) as [k'|] eqn:E; [|done]. simpl in Heq.
    destruct (Z.ltb_spec season k'); [|done]. simplify_eq. eauto.
  - intros (sd & Hsd & E & Hk & ->). exists sd. rewrite E. simpl.
    by rewrite (proj2 (Z.ltb_lt _ _) Hk).
Qed.

Lemma elem_of_season_episodes d s e p :
  (s, e, p) ∈ season_episodes d ↔
  ∃ f, f ∈ list_dir d ∧ parse_season_episode f = Some (s, e) ∧ p = d ++ [f].
Proof. unfold season_episodes. rewrite elem_of_sort_by, elem_of_episodes_of. naive_solver. Qed.

(** No two directories for one later season, each holding only the episodes of its season. *)
Record well_filed (show : path) (season : Z) : Prop := {
  filed_once : NoDup (next_seasons show season).*1;
  filed_season : ∀ k d f s e, (k, d) ∈ next_seasons show season →
    f ∈ list_dir d → parse_season_episode f = Some (s, e) → s = k;
}.

Lemma StronglySorted_episodes (seasons : list (Z * path)) :
  StronglySorted (λ a b, (a.1 <=? b.1) = true) seasons → NoDup seasons.*1 →
  (∀ k d s e p, (k, d) ∈ seasons → (s, e, p) ∈ season_episodes d → s = k) →
  StronglySorted (λ a b, episode_le a b = true) (seasons ≫= λ sd, season_episodes sd.2).
Proof.
  induction 1 as [|[k d] seasons Hs IH Hk]; intros Hnd Hf; simpl; [constructor|].
  apply NoDup_cons in Hnd as [Hnk Hnd]. apply StronglySorted_app. split_and!.
  - intros [[s e] p] [[s' e'] p'] Hx ([k' d'] & Hy & Hin)%list_elem_of_bind. simpl in Hy.
    assert (s = k) as -> by (eapply Hf; [by left|exact Hx]).
    assert (s' = k') as -> by (eapply Hf; [by right|exact Hy]).
    pose proof (proj1 (Forall_forall _ _) Hk _ Hin) as Hle. simpl in Hle.
    assert (k ≠ k') by (intros ->; apply Hnk, list_elem_of_fmap; by exists (k', d')).
    unfold episode_le. simpl. to_prop. lia.
  - apply sort_by_sorted, _.
  - apply IH; [done|]. intros ? ? ? ? ? ?. apply Hf. by right.
Qed.
End facts.
End PredictionFacts.

Module PredictionTheorems.
Import Prediction PredictionFacts.
Section theorems.
Context `{RegexEngine, BackingView}.

(** C36. In a flat layout (the directory is not named after a season) the two scans of the code
    predict what one scan would: the first [n] of all the later episodes of the directory, the
    rest of the season and the later seasons, in the order of season and episode. *)
Theorem flat_predictions_are_next_in_order rel name season episode n :
  file_name rel = Some name → parse_season_episode name = Some (season, episode) →
  parse_season_dir (default "" (file_name (parent rel))) = None →
  find_next_episodes rel n = (λ ep, ep.2) <$> take n (sort_by episode_le
    (episodes_of (is_later season episode) (parent rel) (list_dir (parent rel)))).
Proof.
  intros Hn Hp Hd. rewrite (find_next_unfold rel name season episode) by done.
  by rewrite Hd, later_splits.
Qed.

(** C35. Across season directories the predictions are again the first [n] episodes in order: when
    no later season has two directories and each directory holds its own season, there is a list
    sorted by season and episode of exactly the rest of the current season in its directory and
    the episodes of the later seasons in theirs, and its first [n] are predicted. *)
Theorem season_predictions_are_next_in_order rel name season episode k0 n :
  file_name rel = Some name → parse_season_episode name = Some (season, episode) →
  parse_season_dir (default "" (file_name (parent rel))) = Some k0 →
  well_filed (parent (parent rel)) season →
  ∃ all, find_next_episodes rel n = (λ ep, ep.2) <$> take n all ∧
    StronglySorted (λ a b, episode_le a b = true) all ∧
    ∀ s e p, (s, e, p) ∈ all ↔
      ∃ d f, p = d ++ [f] ∧ f ∈ list_dir d ∧ parse_season_episode f = Some (s, e) ∧
        ((d = parent rel ∧ s = season ∧ episode < e) ∨
         (∃ sd, d = parent (parent rel) ++ [sd] ∧ sd ∈ list_dir (parent (parent rel)) ∧
                parse_season_dir sd = Some s ∧ season < s)).
Proof.
  intros Hn Hp Hd [Honce Hfiled]. eexists.
  split; [rewrite (find_next_unfold rel name season episode) by done; by rewrite Hd|]. split.
  - apply StronglySorted_app. split_and!; [|apply sort_by_sorted, _|].
    + intros [[s e] p] [[s' e'] p'] (f & _ & _ & Hk & _)%elem_of_sort_by%elem_of_episodes_of
        ([k d] & Hy & Hin)%list_elem_of_bind.
      apply elem_of_season_episodes in Hy as (f' & Hf' & Hpf & _).
      pose proof (Hfiled k d f' s' e' Hin Hf' Hpf) as ->.
      apply elem_of_next_seasons in Hin as (sd & _ & _ & Hlt & _).
      unfold episode_le. simpl. to_prop. lia.
    + apply StronglySorted_episodes; [apply sort_by_sorted, _|done|].
      intros k d s e p Hin (f & Hf & Hpf & _)%elem_of_season_episodes. by eapply Hfiled.
  - intros s e p. rewrite elem_of_app, elem_of_sort_by, elem_of_episodes_of, list_elem_of_bind. split.
    + intros [(f & Hf & Hpf & Hk & ->)|([k d] & Hy & Hin)].
      * exists (parent rel), f. split_and!; [done..|]. left. to_prop. split; [done|lia].
      * apply elem_of_season_episodes in Hy as (f & Hf & Hpf & ->).
        pose proof (Hfiled k d f s e Hin Hf Hpf) as ->.
        apply elem_of_next_seasons in Hin as (sd & Hsd & Hps & Hlt & ->).
        eexists _, f. split_and!; [done..|]. right. eauto 10.
    + intros (d & f & -> & Hf & Hpf & [(-> & -> & Hlt)|(sd & -> & Hsd & Hps & Hlt)]).
      * left. exists f. split_and!; try done. to_prop. lia.
      * right. exists (s, parent (parent rel) ++ [sd]). split.
        -- apply elem_of_season_episodes. eauto.
        -- apply elem_of_next_seasons. eauto 10.
Qed.
End theorems.

Lemma playback_loop_spec prev toks :
  PlexEpisodePrediction.playback_loop prev toks = true ↔
  ∃ l1 l2 fmt, prev :: toks = l1 ++ "-f"%string :: fmt :: l2 ∧
    fmt ∈ PlexEpisodePrediction.STREAMING_FORMATS.
Proof.
  revert prev. induction toks as [|tok toks IH]; intros prev; simpl.
  - split; [done|]. intros (l1 & l2 & fmt & Heq & _). apply (f_equal length) in Heq.
    rewrite length_app in Heq. simpl in Heq. lia.
  - destruct (bool_decide (prev = "-f"%string) && bool_decide (tok ∈ _)) eqn:Hb.
    + to_prop. destruct Hb as [-> Htok]. split; [|done]. intros _. by exists [], toks, tok.
    + rewrite IH. split.
      * intros (l1 & l2 & fmt & Heq & Hf). exists (prev :: l1), l2, fmt. split; [|done].
        simpl. by rewrite Heq.
      * intros (l1 & l2 & fmt & Heq & Hf). destruct l1 as [|x l1]; simplify_eq/=; [|eauto].
        exfalso. by apply bool_decide_eq_false in Hb.
Qed.

(** The Plex preset lets an open through exactly when the process policy does and, if the
    opener is the Plex Transcoder, its command line is readable and asks somewhere for a
    streaming output format; a secondary output of another format does not matter. *)
Theorem plex_transcoder_needs_streaming self p :
  PlexEpisodePrediction.should_filter self p = false ↔
  ProcessFilterPolicy.should_filter (process_policy self) p = false ∧
  (name p = Some "Plex Transcoder"%string → ∃ c l1 l2 fmt, cmdline p = Some c ∧
     Text.split PlexEpisodePrediction.nul c = l1 ++ "-f"%string :: fmt :: l2 ∧
     fmt ∈ PlexEpisodePrediction.STREAMING_FORMATS).
Proof.
  unfold PlexEpisodePrediction.should_filter.
  destruct (ProcessFilterPolicy.should_filter _ p); [naive_solver|].
  case_bool_decide as Hn; [|naive_solver]. destruct (cmdline p) as [c|]; [|naive_solver].
  unfold PlexEpisodePrediction.is_plex_playback_cmdline.
  rewrite negb_false_iff, playback_loop_spec. split.
  - intros (l1 & l2 & fmt & Heq & Hf). split; [done|]. intros _.
    destruct l1 as [|x l1]; simplify_eq/=. eauto 10.
  - intros [_ Hc]. destruct (Hc Hn) as (c' & l1 & l2 & fmt & [= <-] & -> & Hf).
    by exists (""%string :: l1), l2, fmt.
Qed.

(** ** Witnesses *)

(** Enough of a matcher for the names below. *)
#[local] Instance demo_engine : RegexEngine := {|
  regex_valid := λ _, true;
  captures := λ re s,
    if decide (re = season_ep_re) then
      if decide (s = "S01E01"%string) then Some [s; "01"; "01"]%string
      else if decide (s = "S01E02"%string) then Some [s; "01"; "02"]%string
      else if decide (s = "S02E01"%string) then Some [s; "02"; "01"]%string
      else None
    else if decide (s = "Season 1"%string) then Some [s; "1"]%string
    else if decide (s = "Season 2"%string) then Some [s; "2"]%string
    else None;
  is_match := λ re s, bool_decide (re = s);
|}.

#[local] Instance demo_view : BackingView := {|
  list_dir := λ p,
    if decide (p = ["Flat"]%string) then ["S02E01"; "S01E02"; "S01E01"]%string
    else if decide (p = ["Show"]%string) then ["Season 2"; "Season 1"]%string
    else if decide (p = ["Show"; "Season 1"]%string) then ["S01E02"; "S01E01"]%string
    else if decide (p = ["Show"; "Season 2"]%string) then ["S02E01"]%string
    else [];
  is_dir := λ p, bool_decide (p = ["Show"]%string);
  file_size := λ _, None;
|}.

Lemma flat_predictions_witness :
  find_next_episodes ["Flat"; "S01E01"]%string 4 = [["Flat"; "S01E02"]; ["Flat"; "S02E01"]]%string.
Proof.
  rewrite (flat_predictions_are_next_in_order ["Flat"; "S01E01"]%string "S01E01"%string 1 1 4);
    vm_compute; reflexivity.
Defined.

Lemma season_predictions_witness :
  ∃ all, find_next_episodes ["Show"; "Season 1"; "S01E01"]%string 4 = (λ ep, ep.2) <$> take 4 all ∧
    StronglySorted (λ a b, episode_le a b = true) all.
Proof.
  destruct (season_predictions_are_next_in_order ["Show"; "Season 1"; "S01E01"]%string "S01E01"%string
    1 1 1 4) as (all & H1 & H2 & _).
  - reflexivity.
  - vm_compute; reflexivity.
  - vm_compute; reflexivity.
  - assert (Hs : next_seasons ["Show"]%string 1 = [(2, ["Show"; "Season 2"]%string)])
      by (vm_compute; reflexivity).
    change (well_filed ["Show"]%string 1). split; rewrite Hs.
    + apply NoDup_singleton.
    + intros k d f s e [= -> ->]%list_elem_of_singleton Hf.
      change (f ∈ ["S02E01"]%string) in Hf.
      apply list_elem_of_singleton in Hf as ->. vm_compute. by intros [= <- _].
  - exists all. split; [exact H1|exact H2].
Defined.
End PredictionTheorems.
