(* ===== verification/Prefetch.v ===== *)
(** * The prefetch preset

    [src/presets/prefetch.rs].  Patterns are compiled by the third-party [regex] crate
    ([Prediction.RegexEngine]); the code's error texts are not compared. *)
From S2P Require Import Prelude Paths Preset Prediction.

Inductive PrefetchMode := CacheHitOnly | CacheNeighbors | CacheParentRecursively.

Record Prefetch := mkPrefetch {
  mode : PrefetchMode;
  max_depth : nat;
  process_policy : ProcessFilterPolicy;
  whitelist : list string;
  blacklist : list string;
}.

Module Prefetch.
Definition parse_mode (s : string) : result string PrefetchMode :=
  if decide (s = "cache-hit-only"%string) then Ok CacheHitOnly
  else if decide (s = "cache-neighbors"%string) then Ok CacheNeighbors
  else if decide (s = "cache-parent-recursively"%string) then Ok CacheParentRecursively
  else Err s.

Section prefetch.
Context `{RegexEngine}.

(** Every pattern is compiled before the first use; one bad pattern refuses the preset. *)
Fixpoint compile (patterns : list string) : result string (list string) :=
  match patterns with
  | [] => Ok []
  | p :: patterns' =>
      if regex_valid p then rs ← compile patterns'; Ok (p :: rs) else Err p
  end.

Definition new_with_process_policy (mode : PrefetchMode) (max_depth : nat)
    (process_allowlist process_blocklist whitelist_patterns blacklist_patterns : list string) :
    result string Prefetch :=
  whitelist ← compile whitelist_patterns;
  blacklist ← compile blacklist_patterns;
  Ok (mkPrefetch mode max_depth (mkProcessFilterPolicy process_allowlist process_blocklist)
                 whitelist blacklist).

Definition new (mode : PrefetchMode) (max_depth : nat)
    (blocklist whitelist_patterns blacklist_patterns : list string) : result string Prefetch :=
  new_with_process_policy mode max_depth [] blocklist whitelist_patterns blacklist_patterns.

Definition passes_filter (self : Prefetch) (filename : string) : bool :=
  if negb (ProcessFilterPolicy.is_empty (whitelist self))
  then existsb (λ r, is_match r filename) (whitelist self)
  else negb (existsb (λ r, is_match r filename) (blacklist self)).

Context `{view : BackingView}.

Definition collect_neighbors (self : Prefetch) (p : path) : list path :=
  omap (λ name,
    if negb (passes_filter self name) then None
    else let candidate := parent p ++ [name] in
         if is_dir candidate then None else Some candidate)
  (list_dir (parent p)).

Fixpoint collect_recursive (self : Prefetch) (dir : path) (depth : nat) : list path :=
  match depth with
  | O => []
  | S depth' =>
      name ← list_dir dir;
      let candidate := dir ++ [name] in
      if is_dir candidate then collect_recursive self candidate depth'
      else if passes_filter self name then [candidate] else []
  end.

Definition gather_files (self : Prefetch) (p : path) : list CacheAction :=
  let files := match mode self with
               | CacheHitOnly => [p]
               | CacheNeighbors => collect_neighbors self p
               | CacheParentRecursively => collect_recursive self (parent p) (max_depth self)
               end in
  if ProcessFilterPolicy.is_empty files then [] else [Cache files].
End prefetch.

Definition preset `{RegexEngine} (self : Prefetch) : CachePreset :=
  let d := default_preset "prefetch" in
  mkCachePreset (preset_name d) (ProcessFilterPolicy.should_filter (process_policy self))
                (λ view p, gather_files (view := view) self p)
                (λ view p, gather_files (view := view) self p)
                (Preset.on_close d) (Preset.on_tick d) (Preset.deduplicate_key d).
End Prefetch.

(** ** Lemmas *)
Module PrefetchFacts.
Import Prefetch.
Section facts.
Context `{RegexEngine, view : BackingView}.

(** [names] leads from [dir] through listed directories to a listed file that passes. *)
Fixpoint file_below (self : Prefetch) (dir : path) (names : list string) : Prop :=
  match names with
  | [] => False
  | n :: names' =>
      n ∈ list_dir dir ∧
      if is_dir (dir ++ [n]) then file_below self (dir ++ [n]) names'
      else names' = [] ∧ passes_filter self n = true
  end.

Lemma elem_of_collect_recursive self dir depth q :
  q ∈ collect_recursive self dir depth ↔
  ∃ names, q = dir ++ names ∧ (length names <= depth)%nat ∧ file_below self dir names.
Proof.
  revert dir. induction depth as [|depth IH]; intros dir; cbn [collect_recursive].
  - split; [by intros ?%elem_of_nil|]. intros ([|? ?] & _ & Hlen & Hf); simpl in *; [done|lia].
  - rewrite list_elem_of_bind. split.
    + intros (n & Hq & Hn). destruct (is_dir (dir ++ [n])) eqn:Hd.
      * apply IH in Hq as (names & -> & Hlen & Hf). exists (n :: names). split_and!.
        -- by rewrite <- app_assoc.
        -- simpl. lia.
        -- simpl. by rewrite Hd.
      * destruct (passes_filter self n) eqn:Hp; [|by apply elem_of_nil in Hq].
        apply list_elem_of_singleton in Hq as ->. exists [n]. simpl. rewrite Hd. split_and!; [done|lia|done..].
    + intros ([|n names] & -> & Hlen & Hf); [done|]. simpl in Hf, Hlen. destruct Hf as [Hn Hf].
      exists n. split; [|done]. destruct (is_dir (dir ++ [n])).
      * apply IH. exists names. rewrite <- app_assoc. split_and!; [done|lia|done].
      * destruct Hf as [-> ->]. by apply list_elem_of_singleton.
Qed.

Lemma NoDup_collect_recursive self dir depth :
  (∀ d, NoDup (list_dir d)) → NoDup (collect_recursive self dir depth).
Proof.
  intros Hnd. revert dir. induction depth as [|depth IH]; intros dir; cbn [collect_recursive].
  { apply NoDup_nil_2. }
  assert (Hhead : ∀ n q, q ∈ (if is_dir (dir ++ [n]) then collect_recursive self (dir ++ [n]) depth
                    else if passes_filter self n then [dir ++ [n]] else []) →
                  ∃ rest, q = dir ++ n :: rest).
  { intros n q Hq. destruct (is_dir _).
    - apply elem_of_collect_recursive in Hq as (names & -> & _). exists names. by rewrite <- app_assoc.
    - destruct (passes_filter self n); [|by apply elem_of_nil in Hq].
      apply list_elem_of_singleton in Hq as ->. eauto. }
  apply NoDup_bind; [| |apply Hnd].
  - intros n1 n2 q _ _ (r1 & ->)%Hhead (r2 & Heq)%Hhead. by simplify_list_eq.
  - intros n _. destruct (is_dir _); [apply IH|].
    destruct (passes_filter self n); [apply NoDup_singleton|apply NoDup_nil_2].
Qed.

Lemma elem_of_collect_neighbors self p q :
  q ∈ collect_neighbors self p ↔
  ∃ n, q = parent p ++ [n] ∧ n ∈ list_dir (parent p) ∧ is_dir q = false ∧ passes_filter self n = true.
Proof.
  unfold collect_neighbors. rewrite list_elem_of_omap. split.
  - intros (n & Hn & Heq). destruct (passes_filter self n) eqn:Hp; [|done]. simpl in Heq.
    destruct (is_dir _) eqn:Hd; [done|]. simplify_eq. eauto.
  - intros (n & -> & Hn & Hd & Hp). exists n. rewrite Hp. simpl. by rewrite Hd.
Qed.
End facts.
End PrefetchFacts.

Module PrefetchTheorems.
Import Prefetch PrefetchFacts.

(** The paths a list of actions asks to cache, as the engine reads it. *)
Definition to_cache (actions : list CacheAction) : list path :=
  action ← actions; match action with Cache paths => paths | Evict _ => [] end.

Section theorems.
Context `{RegexEngine, view : BackingView}.

(** What an access makes the preset fetch, by mode: the file itself; the files of its
    directory that pass the filter; the files that pass the filter at most [max_depth] levels
    below its directory, through directories only.  The recursive walk yields no file twice when
    no listing does. *)
Theorem prefetch_gathers_matching_files self p q :
  (q ∈ to_cache (gather_files self p) ↔
    match mode self with
    | CacheHitOnly => q = p
    | CacheNeighbors => ∃ n, q = parent p ++ [n] ∧ n ∈ list_dir (parent p) ∧ is_dir q = false ∧
                             passes_filter self n = true
    | CacheParentRecursively => ∃ names, q = parent p ++ names ∧ (length names <= max_depth self)%nat ∧
                                         file_below self (parent p) names
    end) ∧
  (mode self = CacheParentRecursively → (∀ d, NoDup (list_dir d)) → NoDup (to_cache (gather_files self p))).
Proof.
  assert (Hflat : to_cache (gather_files self p) =
    match mode self with
    | CacheHitOnly => [p] | CacheNeighbors => collect_neighbors self p
    | CacheParentRecursively => collect_recursive self (parent p) (max_depth self) end).
  { unfold gather_files. destruct (mode self); simpl; [done| |].
    - destruct (collect_neighbors self p); [done|]. simpl. by rewrite app_nil_r.
    - destruct (collect_recursive _ _ _); [done|]. simpl. by rewrite app_nil_r. }
  rewrite Hflat. split.
  - destruct (mode self).
    + apply list_elem_of_singleton.
    + apply elem_of_collect_neighbors.
    + apply elem_of_collect_recursive.
  - intros -> Hnd. by apply NoDup_collect_recursive.
Qed.
End theorems.

(** In the mode [cache-hit-only] the file filter is not consulted: a file the whitelist leaves
    out, or the blacklist names, is fetched all the same. *)
Theorem hit_only_mode_ignores_the_filter :
  ∃ (E : RegexEngine) self p n (view : BackingView), file_name p = Some n ∧
    new CacheHitOnly 3 [] ["\.mkv$"%string] [] = Ok self ∧
    passes_filter self n = false ∧ gather_files self p = [Cache [p]].
Proof.
  exists {| regex_valid := λ _, true; captures := λ _ _, None; is_match := λ _ s, ends_with ".mkv" s |}.
  eexists _, ["a.nfo"]%string, "a.nfo"%string,
    {| list_dir := λ _, []; is_dir := λ _, false; file_size := λ _, None |}.
  split_and!; [reflexivity|reflexivity|vm_compute; reflexivity|reflexivity].
Qed.

Lemma prefetch_gathers_matching_files_witness :
  let E : RegexEngine := {| regex_valid := λ _, true; captures := λ _ _, None; is_match := λ _ _, true |} in
  let view : BackingView := {| list_dir := λ d, match d with [] => ["a"; "b"]%string | _ => [] end;
                               is_dir := λ _, false; file_size := λ _, None |} in
  NoDup (to_cache (gather_files (view := view)
    (mkPrefetch CacheParentRecursively 2 (mkProcessFilterPolicy [] []) [] []) ["a"]%string)).
Proof.
  intros E view. apply (prefetch_gathers_matching_files _ ["a"]%string []); [reflexivity|].
  intros d. destruct d; simpl; [|constructor].
  repeat constructor; set_solver.
Defined.
End PrefetchTheorems.
