(* ===== verification/Engine.v ===== *)
(** * The action engine

    [src/engine/action.rs]: the access filter that holds an open back until the file has been
    open long enough or was read completely, and the processing that turns an access into copy
    jobs through the preset, within the budget of the mount.  Instants are nanoseconds. *)
From S2P Require Import Prelude Paths Backing Disk Db Manager CacheIo Preset.

Inductive EventKind := Miss | Hit | Close (bytes_read : Z).
#[export] Instance EventKind_eq_dec : EqDecision EventKind.
Proof. solve_decision. Defined.

Record AccessEvent := mkAccessEvent { relative_path : path; ev_kind : EventKind }.
#[export] Instance AccessEvent_eq_dec : EqDecision AccessEvent.
Proof. solve_decision. Defined.

Record PendingEntry := mkPendingEntry {
  event : AccessEvent;
  inserted_at : Z;
  open_handles : Z;
  total_bytes_read : Z;
}.

Record ActionEngine := mkActionEngine {
  cache : CacheManager;
  preset : option CachePreset;
  max_cache_pull_bytes : Z;
  min_access_secs : Z;
  min_file_size_mb : Z;
}.

Abbreviation Pending := (gmap path PendingEntry).

(** What the loop of [run] waits for. *)
Inductive Input :=
  | Recv (now : Z) (event : AccessEvent)
  | Tick (now : Z).

Module ActionEngine.
Definition miss (p : path) : AccessEvent := mkAccessEvent p Miss.
Definition hit (p : path) : AccessEvent := mkAccessEvent p Hit.
Definition close (p : path) (bytes_read : Z) : AccessEvent := mkAccessEvent p (Close bytes_read).

Section engine.
Context `{MapOrder, BackingView} (self : ActionEngine).

Definition size_of (p : path) : Z := default 0 (file_size p).

(** ** The access filter: the new buffer and what is to be processed now *)
Definition on_close_event (ev : AccessEvent) (bytes_read : Z) (pending : Pending) :
    Pending * list AccessEvent :=
  match pending !! relative_path ev with
  | Some entry =>
      let entry := mkPendingEntry (event entry) (inserted_at entry)
                     (saturating_sub (open_handles entry) 1)
                     (u64_add (total_bytes_read entry) bytes_read) in
      if open_handles entry =? 0 then
        let size := size_of (relative_path ev) in
        (delete (relative_path ev) pending,
         if (0 <? size) && (size <=? total_bytes_read entry) then [event entry] else [])
      else (<[relative_path ev := entry]> pending, [])
  | None => (pending, [ev])
  end.

Definition passes_size_floor (p : path) : bool :=
  if 0 <? min_file_size_mb self
  then negb (size_of p <? as_u64 (min_file_size_mb self * 1048576))
  else true.

Definition on_open_event (now : Z) (ev : AccessEvent) (pending : Pending) :
    Pending * list AccessEvent :=
  if passes_size_floor (relative_path ev) then
    if 0 <? min_access_secs self then
      match pending !! relative_path ev with
      | Some entry =>
          (<[relative_path ev := mkPendingEntry (event entry) (inserted_at entry)
               (u32_add (open_handles entry) 1) (total_bytes_read entry)]> pending, [])
      | None => (<[relative_path ev := mkPendingEntry ev now 1 0]> pending, [])
      end
    else (pending, [ev])
  else (pending, []).

Definition on_recv (now : Z) (ev : AccessEvent) (pending : Pending) : Pending * list AccessEvent :=
  match ev_kind ev with
  | Close bytes_read => on_close_event ev bytes_read pending
  | _ => on_open_event now ev pending
  end.

Definition promote (acc : Pending * list AccessEvent) (key : path) : Pending * list AccessEvent :=
  match acc.1 !! key with
  | Some entry => (delete key acc.1, acc.2 ++ [event entry])
  | None => acc
  end.

Definition on_tick (now : Z) (pending : Pending) : Pending * list AccessEvent :=
  if 0 <? min_access_secs self then
    let cutoff := now - min_access_secs self * 1000000000 in
    let ready := (filter (λ kv, inserted_at kv.2 <= cutoff) (iter pending)).*1 in
    foldl promote (pending, []) ready
  else (pending, []).

Definition filter_input (i : Input) (pending : Pending) : Pending * list AccessEvent :=
  match i with
  | Recv now ev => on_recv now ev pending
  | Tick now => on_tick now pending
  end.

(** ** Processing *)
Definition paths_of (action : CacheAction) : list path :=
  match action with Cache paths => paths | Evict _ => [] end.

Definition next_paths (ev : AccessEvent) : list path :=
  match preset self with
  | Some preset =>
      let actions := match ev_kind ev with
                     | Miss => on_miss preset _ (relative_path ev)
                     | Hit => on_hit preset _ (relative_path ev)
                     | Close bytes_read => on_close preset _ (relative_path ev) bytes_read
                     end in
      actions ≫= paths_of
  | None => []
  end.

Fixpoint submit_within_budget (now running_total : Z) (first_candidate : bool) (next : list path)
    (i : Io) : Io :=
  match next with
  | [] => i
  | rel :: next' =>
      if Manager.is_cached (cache self) (store i).1 rel
      then submit_within_budget now running_total first_candidate next' i
      else if 0 <? max_cache_pull_bytes self then
        if negb first_candidate && (max_cache_pull_bytes self <? u64_add running_total (size_of rel))
        then i
        else submit_within_budget now (u64_add running_total (size_of rel)) false next'
               (CacheIO.submit_cache (cache self) now rel i)
      else submit_within_budget now running_total false next'
             (CacheIO.submit_cache (cache self) now rel i)
  end.

Definition process (now : Z) (ev : AccessEvent) (i : Io) : Io :=
  let i := if bool_decide (ev_kind ev = Hit) && check_on_hit (cache self)
           then CacheIO.submit_validation (cache self) now (relative_path ev) i else i in
  let running_total := if 0 <? max_cache_pull_bytes self
                       then Manager.total_cached_bytes (cache self) (store i).2 else 0 in
  submit_within_budget now running_total true (next_paths ev) i.

(** One turn of the loop; [secs] is the wall clock the submissions are stamped with. *)
Definition turn (secs : Z) (input : Input) (st : Pending * Io) : Pending * Io :=
  let '(pending, to_process) := filter_input input st.1 in
  (pending, foldl (λ i ev, process secs ev i) st.2 to_process).

(** A turn of the maintenance task. *)
Definition maintenance_turn (secs : Z) (i : Io) : Io :=
  CacheIO.submit_maintenance_validation (cache self) secs i.
End engine.
End ActionEngine.

(** ** Lemmas *)
Module EngineFacts.
Import ActionEngine.
Section facts.
Context `{MapOrder, BackingView} (self : ActionEngine).
Implicit Types pending : Pending.

(** *** The buffer *)
Definition pending_ok pending : Prop :=
  ∀ k e, pending !! k = Some e → relative_path (event e) = k.

Definition run_filter (inputs : list Input) (st : Pending * list AccessEvent) :
    Pending * list AccessEvent :=
  foldl (λ st i, let '(pending, out) := filter_input self i st.1 in (pending, st.2 ++ out)) st inputs.

Lemma map_to_list_filter (P : path * PendingEntry → Prop) `{∀ kv, Decision (P kv)} pending :
  map_to_list (filter P pending) ≡ₚ filter P (map_to_list pending).
Proof.
  apply NoDup_Permutation; [apply NoDup_map_to_list|apply NoDup_filter, NoDup_map_to_list|].
  intros [k e]. rewrite list_elem_of_filter, !elem_of_map_to_list, map_lookup_filter_Some. tauto.
Qed.

Lemma promote_spec keys pending outs :
  NoDup keys →
  (∀ k, (foldl promote (pending, outs) keys).1 !! k = if decide (k ∈ keys) then None else pending !! k) ∧
  (foldl promote (pending, outs) keys).2 = outs ++ omap (λ key, event <$> pending !! key) keys.
Proof.
  revert pending outs. induction keys as [|key keys IH]; intros pending outs Hnd.
  { split; [intros k; by rewrite decide_False by apply not_elem_of_nil|by rewrite app_nil_r]. }
  apply NoDup_cons in Hnd as [Hk Hnd]. cbn [foldl]. unfold promote at 2 4. simpl.
  destruct (pending !! key) as [entry|] eqn:He.
  - destruct (IH (delete key pending) (outs ++ [event entry]) Hnd) as [IH1 IH2]. split.
    + intros k. rewrite IH1. destruct (decide (k = key)) as [-> |Hne].
      * rewrite decide_False by done. rewrite lookup_delete_eq.
        by rewrite decide_True by apply list_elem_of_here.
      * rewrite lookup_delete_ne by done. destruct (decide (k ∈ keys)).
        -- rewrite decide_True; [done|by right].
        -- rewrite decide_False; [done|]. by intros [?|?]%elem_of_cons.
    + rewrite IH2. simpl. rewrite <- app_assoc. simpl. do 2 f_equal.
      apply list_omap_ext. apply Forall2_same_length_lookup_2; [done|].
      intros i a b Ha Hb. simplify_eq. rewrite lookup_delete_ne; [done|].
      intros ->. apply Hk. by eapply list_elem_of_lookup_2.
  - destruct (IH pending outs Hnd) as [IH1 IH2]. split; [|done].
    intros k. rewrite IH1. destruct (decide (k = key)) as [-> |Hne].
    + rewrite decide_False by done. by rewrite decide_True by apply list_elem_of_here.
    + destruct (decide (k ∈ keys)).
      * rewrite decide_True; [done|by right].
      * rewrite decide_False; [done|]. by intros [?|?]%elem_of_cons.
Qed.

Lemma elem_of_ready cutoff pending k :
  k ∈ (filter (λ kv : path * PendingEntry, inserted_at kv.2 <= cutoff) (iter pending)).*1 ↔
  ∃ e, pending !! k = Some e ∧ inserted_at e <= cutoff.
Proof.
  rewrite list_elem_of_fmap. split.
  - intros ([k' e] & -> & [Hle Hin]%list_elem_of_filter). apply elem_of_iter in Hin. eauto.
  - intros (e & He & Hle). exists (k, e). split; [done|]. apply list_elem_of_filter.
    by rewrite elem_of_iter.
Qed.

Lemma NoDup_ready cutoff pending :
  NoDup (filter (λ kv : path * PendingEntry, inserted_at kv.2 <= cutoff) (iter pending)).*1.
Proof.
  pose proof (NoDup_fst_iter pending) as Hnd. eapply sublist_NoDup; [exact Hnd|].
  apply fmap_sublist, sublist_filter.
Qed.

Lemma on_tick_lookup now pending k :
  0 < min_access_secs self →
  (on_tick self now pending).1 !! k =
  (e ← pending !! k; if inserted_at e <=? now - min_access_secs self * 1000000000 then None else Some e).
Proof.
  intros Hm. unfold on_tick. rewrite (proj2 (Z.ltb_lt _ _) Hm).
  set (cutoff := now - _).
  pose proof (NoDup_ready cutoff pending) as Hnd.
  rewrite (proj1 (promote_spec _ pending [] Hnd)). case_decide as Hk.
  - apply elem_of_ready in Hk as (e & -> & Hle). simpl. by rewrite (proj2 (Z.leb_le _ _) Hle).
  - destruct (pending !! k) as [e|] eqn:He; [|done]. simpl.
    destruct (Z.leb_spec (inserted_at e) cutoff); [|done]. exfalso. apply Hk, elem_of_ready. eauto.
Qed.

Lemma on_tick_outs now pending :
  0 < min_access_secs self →
  (on_tick self now pending).2 ≡ₚ
  (λ kv, event kv.2) <$>
    filter (λ kv, inserted_at kv.2 <= now - min_access_secs self * 1000000000) (map_to_list pending).
Proof.
  intros Hm. unfold on_tick. rewrite (proj2 (Z.ltb_lt _ _) Hm). set (cutoff := now - _).
  pose proof (NoDup_ready cutoff pending) as Hnd.
  rewrite (proj2 (promote_spec _ pending [] Hnd)). simpl.
  rewrite <- iter_perm. set (l := filter _ (iter pending)).
  assert (Hl : ∀ k e, (k, e) ∈ l → pending !! k = Some e).
  { intros k e [_ Hin]%list_elem_of_filter. by apply elem_of_iter. }
  clearbody l. clear Hnd. induction l as [|[k e] l IH]; [done|]. simpl.
  rewrite (Hl k e) by apply list_elem_of_here. simpl. constructor. apply IH. intros ???. apply Hl. by right.
Qed.

(** *** Well-formedness *)
Lemma on_recv_ok now ev pending : pending_ok pending → pending_ok (on_recv self now ev pending).1.
Proof.
  intros Hok k e. unfold on_recv, on_close_event, on_open_event.
  destruct (ev_kind ev); simpl; repeat (case_match; simpl);
    rewrite ?lookup_insert_Some, ?lookup_delete_Some; naive_solver.
Qed.

Lemma filter_input_ok i pending : pending_ok pending → pending_ok (filter_input self i pending).1.
Proof.
  intros Hok. destruct i as [now ev|now]; [by apply on_recv_ok|]. simpl.
  destruct (decide (0 < min_access_secs self)) as [Hm|Hm].
  - intros k e. rewrite on_tick_lookup by done. intros (e' & He' & Heq)%bind_Some.
    destruct (_ <=? _); simplify_eq. by apply Hok.
  - unfold on_tick. by rewrite (proj2 (Z.ltb_ge _ _)) by lia.
Qed.

Lemma run_filter_app is1 is2 st : run_filter (is1 ++ is2) st = run_filter is2 (run_filter is1 st).
Proof. apply foldl_app. Qed.

Lemma run_filter_ok inputs st : pending_ok st.1 → pending_ok (run_filter inputs st).1.
Proof.
  revert st. induction inputs as [|i inputs IH]; intros st Hok; [done|]. apply IH.
  pose proof (filter_input_ok i st.1 Hok) as Hi. by destruct (filter_input self i st.1).
Qed.

(** *** One path *)
Abbreviation on_path p := (filter (λ ev, relative_path ev = p)).

Lemma on_recv_other now ev pending p :
  pending_ok pending → relative_path ev ≠ p →
  (on_recv self now ev pending).1 !! p = pending !! p ∧ on_path p (on_recv self now ev pending).2 = [].
Proof.
  intros Hok Hne.
  assert (Hnil : ∀ e, relative_path e = relative_path ev → on_path p [e] = []).
  { intros e He. rewrite filter_cons, decide_False; [done|congruence]. }
  unfold on_recv, on_close_event, on_open_event.
  destruct (ev_kind ev); simpl; repeat (case_match; simpl);
    rewrite ?lookup_insert_ne, ?lookup_delete_ne by done; (split; [done|]); eauto.
Qed.

Lemma filter_nil_iff {A} (P : A → Prop) `{∀ x, Decision (P x)} (l : list A) :
  filter P l = [] ↔ ∀ x, x ∈ l → ¬ P x.
Proof.
  split.
  - intros Hl x Hx HP. assert (Hin : x ∈ filter P l) by by apply list_elem_of_filter.
    rewrite Hl in Hin. by apply elem_of_nil in Hin.
  - intros Hl. destruct (filter P l) as [|x k] eqn:E; [done|]. exfalso.
    assert (Hx : x ∈ filter P l) by (rewrite E; apply list_elem_of_here).
    apply list_elem_of_filter in Hx as [??]. by apply (Hl x).
Qed.

Lemma on_tick_young now pending p :
  pending_ok pending → 0 < min_access_secs self →
  (∀ e, pending !! p = Some e → now - min_access_secs self * 1000000000 < inserted_at e) →
  (on_tick self now pending).1 !! p = pending !! p ∧ on_path p (on_tick self now pending).2 = [].
Proof.
  intros Hok Hm Hy. split.
  - rewrite on_tick_lookup by done. destruct (pending !! p) as [e|]; [|done]. simpl.
    specialize (Hy e eq_refl). by rewrite (proj2 (Z.leb_gt _ _)).
  - apply filter_nil_iff. intros x Hx Hp. rewrite (on_tick_outs _ _ Hm) in Hx.
    apply list_elem_of_fmap in Hx as ([k e] & -> & [Hle Hin]%list_elem_of_filter). simpl in *.
    apply elem_of_map_to_list in Hin. pose proof (Hok _ _ Hin) as Hk. rewrite Hp in Hk. subst k.
    apply Hy in Hin. lia.
Qed.

(** *** Sessions

    [inputs] continues an access to [p] that began at [t0] and has [n] handles open: it closes
    them all, and any it opens meanwhile, before the threshold is seen to pass; everything else
    is about other paths. *)
Fixpoint session (p : path) (t0 n : Z) (inputs : list Input) : Prop :=
  match inputs with
  | [] => n = 0
  | Tick now :: inputs' =>
      (0 < n → now - min_access_secs self * 1000000000 < t0) ∧ session p t0 n inputs'
  | Recv _ ev :: inputs' =>
      if decide (relative_path ev = p) then
        0 < n ∧ match ev_kind ev with
                | Close bytes => 0 <= bytes ∧ session p t0 (n - 1) inputs'
                | _ => session p t0 (n + 1) inputs'
                end
      else session p t0 n inputs'
  end.

Definition closed_bytes (p : path) (i : Input) : Z :=
  match i with
  | Recv _ (mkAccessEvent q (Close bytes)) => if decide (q = p) then bytes else 0
  | _ => 0
  end.

Definition bytes_read (p : path) (inputs : list Input) : Z := sum_Z (closed_bytes p <$> inputs).

Lemma run_filter_cons i inputs pending outs :
  run_filter (i :: inputs) (pending, outs) =
  run_filter inputs ((filter_input self i pending).1, outs ++ (filter_input self i pending).2).
Proof. unfold run_filter. cbn [foldl]. simpl. by destruct (filter_input self i pending). Qed.

Lemma session_over p t0 inputs pending outs :
  pending_ok pending → 0 < min_access_secs self → pending !! p = None → session p t0 0 inputs →
  (run_filter inputs (pending, outs)).1 !! p = None ∧
  on_path p (run_filter inputs (pending, outs)).2 = on_path p outs ∧ bytes_read p inputs = 0.
Proof.
  revert pending outs. induction inputs as [|i inputs IH]; intros pending outs Hok Hm Hp Hs; [done|].
  rewrite run_filter_cons. unfold bytes_read. rewrite fmap_cons, sum_Z_cons.
  assert (Hstep : (filter_input self i pending).1 !! p = None ∧
                  on_path p (filter_input self i pending).2 = [] ∧ session p t0 0 inputs ∧
                  closed_bytes p i = 0).
  { destruct i as [now ev|now]; cbn [session] in Hs; cbn [filter_input].
    - destruct (decide (relative_path ev = p)); [lia|].
      destruct (on_recv_other now ev pending p Hok) as [-> ->]; [done|]. split_and!; try done.
      destruct ev as [q []]; simpl in *; [done|done|by rewrite decide_False].
    - destruct (on_tick_young now pending p Hok Hm) as [E1 E2]; [intros e He; congruence|].
      split_and!; [by rewrite <- Hp|done|tauto|done]. }
  destruct Hstep as (H1 & H2 & H3 & H4).
  destruct (IH _ (outs ++ (filter_input self i pending).2) (filter_input_ok i _ Hok) Hm H1 H3)
    as (IH1 & IH2 & IH3).
  split_and!; [done|rewrite IH2, filter_app, H2; apply app_nil_r|unfold bytes_read in IH3; lia].
Qed.

Lemma session_bytes_nonneg p t0 n inputs : session p t0 n inputs → 0 <= bytes_read p inputs.
Proof.
  revert n. induction inputs as [|i inputs IH]; intros n Hs; [done|].
  unfold bytes_read. rewrite fmap_cons, sum_Z_cons. unfold bytes_read in IH.
  destruct i as [now [q k]|now]; cbn [session relative_path ev_kind] in Hs; [|destruct Hs as [_ Hs]; apply IH in Hs; simpl; lia].
  destruct (decide (q = p)) as [-> |Hne].
  - destruct k; simpl; [destruct Hs as [_ Hs]; apply IH in Hs; lia..|].
    rewrite decide_True by done. destruct Hs as (_ & Hb & Hs). apply IH in Hs. lia.
  - apply IH in Hs. destruct k; simpl; [lia|lia|]. rewrite decide_False by done. lia.
Qed.

(** Another handle opens while the entry is pending. *)
Lemma on_recv_open now p k first t0 n b pending :
  (∀ x, k ≠ Close x) → passes_size_floor self p = true → 0 < min_access_secs self →
  pending !! p = Some (mkPendingEntry first t0 n b) → 0 < n → n + 1 < 2 ^ 32 →
  on_recv self now (mkAccessEvent p k) pending = (<[p := mkPendingEntry first t0 (n + 1) b]> pending, []).
Proof.
  intros Hk Hfl Hm Hp Hn Hlt.
  transitivity (on_open_event self now (mkAccessEvent p k) pending).
  { destruct k as [| |x]; [done|done|by destruct (Hk x)]. }
  unfold on_open_event. simpl. rewrite Hfl, (proj2 (Z.ltb_lt _ _) Hm), Hp. simpl.
  unfold u32_add. by rewrite as_u32_id by (int_bounds; lia).
Qed.

(** One of its handles closes. *)
Lemma on_recv_close now p bytes first t0 n b pending :
  pending !! p = Some (mkPendingEntry first t0 n b) → 0 < n → 0 <= b → 0 <= bytes → b + bytes < 2 ^ 64 →
  on_recv self now (mkAccessEvent p (Close bytes)) pending =
  if n =? 1
  then (delete p pending,
        if (0 <? size_of p) && (size_of p <=? b + bytes) then [first] else [])
  else (<[p := mkPendingEntry first t0 (n - 1) (b + bytes)]> pending, []).
Proof.
  intros Hp Hn Hb Hbs Hlt. unfold on_recv, on_close_event. simpl. rewrite Hp. simpl.
  rewrite u64_add_small by lia. replace (saturating_sub n 1) with (n - 1) by (unfold saturating_sub; lia).
  destruct (Z.eqb_spec n 1), (Z.eqb_spec (n - 1) 0); (done || lia).
Qed.

Lemma session_runs p t0 first n b inputs pending outs :
  pending_ok pending → 0 < min_access_secs self → passes_size_floor self p = true →
  pending !! p = Some (mkPendingEntry first t0 n b) → 0 < n → 0 <= b →
  session p t0 n inputs → n + Z.of_nat (length inputs) < 2 ^ 32 → b + bytes_read p inputs < 2 ^ 64 →
  (run_filter inputs (pending, outs)).1 !! p = None ∧
  on_path p (run_filter inputs (pending, outs)).2 = on_path p outs ++ on_path p
    (if (0 <? size_of p) && (size_of p <=? b + bytes_read p inputs) then [first] else []).
Proof.
  revert n b pending outs. induction inputs as [|i inputs IH];
    intros n b pending outs Hok Hm Hfl Hp Hn Hb Hs Hlen Hbytes; [simpl in Hs; lia|].
  rewrite run_filter_cons. unfold bytes_read in *. rewrite fmap_cons, sum_Z_cons in *.
  cbn [length] in Hlen. set (total := sum_Z (closed_bytes p <$> inputs)) in *.
  pose proof (filter_input_ok i _ Hok) as Hok'.
  assert (Hskip : session p t0 n inputs → closed_bytes p i = 0 →
    (filter_input self i pending).1 !! p = pending !! p → on_path p (filter_input self i pending).2 = [] →
    (run_filter inputs ((filter_input self i pending).1, outs ++ (filter_input self i pending).2)).1 !! p = None ∧
    on_path p (run_filter inputs ((filter_input self i pending).1, outs ++ (filter_input self i pending).2)).2 =
    on_path p outs ++ on_path p (if (0 <? size_of p) && (size_of p <=? b + (closed_bytes p i + total))
                                 then [first] else [])).
  { intros Hs' Hz E1 E2. rewrite Hz in *.
    destruct (IH n b _ (outs ++ (filter_input self i pending).2) Hok') as [F1 F2];
      try done; [by rewrite E1|lia|].
    split; [done|]. by rewrite F2, filter_app, E2, app_nil_r. }
  destruct i as [now ev|now]; cbn [session] in Hs.
  2: { destruct (on_tick_young now pending p Hok Hm); [intros e He; simplify_eq; by apply Hs|].
       apply Hskip; [apply Hs|done..]. }
  destruct (decide (relative_path ev = p)) as [He|Hne].
  2: { destruct (on_recv_other now ev pending p Hok Hne). apply Hskip; try done.
       destruct ev as [q []]; simpl in *; [done|done|by rewrite decide_False]. }
  clear Hskip. destruct Hs as [_ Hs]. destruct ev as [q k]. simpl in He, Hs. subst q. cbn [filter_input] in *.
  assert (Hcase : (∃ x, k = Close x) ∨ ∀ x, k ≠ Close x) by (destruct k; [by right|by right|left; eauto]).
  destruct Hcase as [[bytes ->]|Hk'].
  - destruct Hs as [Hbs Hs]. pose proof (session_bytes_nonneg _ _ _ _ Hs) as Hnn.
    unfold bytes_read in Hnn. fold total in Hnn. cbn [closed_bytes] in *. rewrite decide_True in * by done.
    rewrite (on_recv_close now p bytes first t0 n b) in * by (done || lia).
    destruct (Z.eqb_spec n 1) as [-> |Hz]; cbn [fst snd] in *.
    + destruct (session_over p t0 inputs (delete p pending)
        (outs ++ (if (0 <? size_of p) && (size_of p <=? b + bytes) then [first] else [])) Hok' Hm)
        as (E1 & E2 & E3); [apply lookup_delete_eq|done|].
      split; [done|]. rewrite E2, filter_app. unfold bytes_read in E3. fold total in E3.
      by replace (b + (bytes + total)) with (b + bytes) by lia.
    + rewrite app_nil_r. destruct (IH (n - 1) (b + bytes) _ outs Hok') as [E1 E2];
        try done; [apply lookup_insert_eq|lia..|].
      split; [done|]. by replace (b + (bytes + total)) with (b + bytes + total) by lia.
  - rewrite (on_recv_open now p k first t0 n b) in * by (done || lia). cbn [fst snd] in *. rewrite app_nil_r.
    assert (Hz : closed_bytes p (Recv now (mkAccessEvent p k)) = 0) by (destruct k as [| |x]; [done|done|by destruct (Hk' x)]).
    rewrite Hz in *. apply (IH (n + 1) b); try done; [apply lookup_insert_eq|lia| |lia].
    destruct k as [| |x]; [done|done|by destruct (Hk' x)].
Qed.
End facts.
End EngineFacts.

Module EngineTheorems.
Import ActionEngine EngineFacts.
Section theorems.
Context `{MapOrder, BackingView} (self : ActionEngine).

Lemma pending_ok_history before : pending_ok (run_filter self before (∅, [])).1.
Proof. apply run_filter_ok. intros k e Hk. simpl in Hk. by rewrite lookup_empty in Hk. Qed.


(** A tick promotes exactly the accesses that have been open for the threshold: they leave the
    buffer and their first opens are processed, each once; every other access stays as it is. *)
Theorem tick_promotes_exactly_the_old now pending :
  0 < min_access_secs self →
  let old := λ kv, inserted_at kv.2 <= now - min_access_secs self * 1000000000 in
  (on_tick self now pending).1 = filter (λ kv, ¬ old kv) pending ∧
  (on_tick self now pending).2 ≡ₚ (λ kv, event kv.2) <$> map_to_list (filter old pending).
Proof.
  intros Hm old. split.
  - apply map_eq. intros k. rewrite on_tick_lookup, map_lookup_filter by done.
    destruct (pending !! k) as [e|]; [|done]. simpl. unfold old. simpl.
    destruct (Z.leb_spec (inserted_at e) (now - min_access_secs self * 1000000000)).
    + by rewrite option_guard_False by (intros Hx; by apply Hx).
    + rewrite option_guard_True by (simpl; lia). done.
  - rewrite on_tick_outs by done. by rewrite map_to_list_filter.
Qed.

(** *** The budget *)
Lemma submit_cache_disk now rel i : (store (CacheIO.submit_cache (cache self) now rel i)).1 = (store i).1.
Proof.
  unfold CacheIO.submit_cache, CacheIO.submit_job, CacheIO.submit_locked.
  repeat (case_match || case_decide); done.
Qed.

Lemma submit_validation_store now rel i :
  store (CacheIO.submit_validation (cache self) now rel i) = store i.
Proof.
  unfold CacheIO.submit_validation, CacheIO.submit_job, CacheIO.submit_locked. simpl.
  destruct (known (pipe i) !! _); done.
Qed.

Definition uncached (i : Io) (next : list path) : list path :=
  filter (λ rel, Manager.is_cached (cache self) (store i).1 rel = false) next.

Definition sizes (l : list path) : Z := sum_Z (size_of <$> l).

Definition submit_all (now : Z) (l : list path) (i : Io) : Io :=
  foldl (λ i rel, CacheIO.submit_cache (cache self) now rel i) i l.

Lemma submit_within_budget_spec now running first next i :
  0 < max_cache_pull_bytes self → 0 <= running → (∀ p, 0 <= size_of p) →
  running + sizes next < 2 ^ 64 →
  ∃ picked rest, uncached i next = picked ++ rest ∧
    submit_within_budget self now running first next i = submit_all now picked i ∧
    (first = true → rest ≠ [] → picked ≠ []) ∧
    (picked = [] ∨ running + sizes picked <= max_cache_pull_bytes self ∨
     (first = true ∧ length picked = 1%nat)) ∧
    (∀ r rest', rest = r :: rest' → max_cache_pull_bytes self < running + sizes picked + size_of r).
Proof.
  intros Hmax Hr Hsz. revert running first i Hr.
  induction next as [|rel next IH]; intros running first i Hr Hlt.
  { exists [], []. split_and!; [done|done|done|by left|done]. }
  unfold sizes in Hlt. rewrite fmap_cons, sum_Z_cons in Hlt. fold (sizes next) in Hlt.
  pose proof (Hsz rel) as Hrel.
  assert (Hnn : 0 <= sizes next).
  { apply sum_Z_nonneg, Forall_forall. intros z (q & -> & _)%list_elem_of_fmap. apply Hsz. }
  unfold uncached. rewrite filter_cons. cbn [submit_within_budget].
  destruct (Manager.is_cached (cache self) (store i).1 rel) eqn:Hc.
  { rewrite decide_False by done. apply IH; [done|lia]. }
  rewrite decide_True by done. rewrite (proj2 (Z.ltb_lt _ _) Hmax), u64_add_small by lia.
  destruct (negb first && (max_cache_pull_bytes self <? running + size_of rel)) eqn:Hstop.
  - apply andb_prop in Hstop as [Hf Hgt]. to_prop. subst first.
    exists [], (rel :: filter (λ rel, Manager.is_cached (cache self) (store i).1 rel = false) next).
    split_and!; [done|done|done|by left|]. intros r rest' [= <- _]. unfold sizes. simpl. lia.
  - destruct (IH (running + size_of rel) false (CacheIO.submit_cache (cache self) now rel i))
      as (picked & rest & Heq & Hrun & _ & Hfit & Hrest); [lia|lia|].
    exists (rel :: picked), rest. unfold uncached in Heq. rewrite submit_cache_disk in Heq.
    unfold sizes in *. rewrite fmap_cons, sum_Z_cons. split_and!.
    + by rewrite Heq.
    + done.
    + done.
    + right. destruct Hfit as [-> |[Hfit|[? _]]]; [|left; lia|done].
      destruct first; [by right|]. left. simpl. simpl in Hstop. to_prop. simpl. lia.
    + intros r rest' Hr'. specialize (Hrest r rest' Hr'). lia.
Qed.

(** C25. The budget bounds what one access makes the engine fetch: of the candidates of the preset
    that are not cached, in order, a prefix is submitted and nothing else; the first one always
    is; beyond it the cached bytes of the mount and the sizes submitted stay within the limit;
    and the prefix stops only where the next candidate would exceed it. *)
Theorem budget_bounds_the_fetch now ev i :
  0 < max_cache_pull_bytes self → (∀ p, 0 <= size_of p) →
  let used := Manager.total_cached_bytes (cache self) (store i).2 in
  0 <= used → used + sizes (next_paths self ev) < 2 ^ 64 →
  ∃ i0 picked rest,
    i0 = (if bool_decide (ev_kind ev = Hit) && check_on_hit (cache self)
          then CacheIO.submit_validation (cache self) now (relative_path ev) i else i) ∧
    uncached i (next_paths self ev) = picked ++ rest ∧
    process self now ev i = submit_all now picked i0 ∧
    (rest ≠ [] → picked ≠ []) ∧
    ((length picked <= 1)%nat ∨ used + sizes picked <= max_cache_pull_bytes self) ∧
    (∀ r rest', rest = r :: rest' → max_cache_pull_bytes self < used + sizes picked + size_of r).
Proof.
  intros Hmax Hsz used Hu Hlt. eexists. unfold process. rewrite (proj2 (Z.ltb_lt _ _) Hmax).
  set (i0 := if _ && _ then _ else i).
  assert (Hst : store i0 = store i).
  { unfold i0. destruct (_ && _); [apply submit_validation_store|done]. }
  destruct (submit_within_budget_spec now used true (next_paths self ev) i0)
    as (picked & rest & Heq & Hrun & Hne & Hfit & Hrest); [done..|].
  unfold uncached in Heq. rewrite Hst in Heq. exists picked, rest. split_and!; try done.
  - by rewrite Hst.
  - intros Hr. by apply Hne.
  - destruct Hfit as [-> |[?|[_ Hl]]]; [left; simpl; lia|by right|left; lia].
Qed.
End theorems.

(** ** Witnesses and a counterexample *)
#[local] Instance ten_bytes : BackingView := {|
  list_dir := λ _, []; is_dir := λ _, false; file_size := λ _, Some 10 |}.

Definition file_a : path := ["a"]%string.
Definition three_paths : CachePreset :=
  let d := default_preset "three" in
  mkCachePreset (preset_name d) (should_filter d) (λ _ _, [Cache [["x"]; ["y"]; ["z"]]%string])
    (on_hit d) (on_close d) (Preset.on_tick d) (deduplicate_key d).
Definition two_second_engine : ActionEngine :=
  mkActionEngine ManagerWitnesses.some_manager (Some three_paths) 25 2 0.
Definition empty_io : Io :=
  mkIo (mkPipelineState [] ∅) ∅ 0 (CopyTheorems.empty_disk, DbWitnesses.fresh_db).


Lemma tick_promotes_witness :
  (on_tick two_second_engine 3000000000 {[ file_a := mkPendingEntry (miss file_a) 0 1 0 ]}).2
    ≡ₚ [miss file_a].
Proof.
  etransitivity; [exact (proj2 (tick_promotes_exactly_the_old two_second_engine 3000000000
    {[ file_a := mkPendingEntry (miss file_a) 0 1 0 ]} eq_refl))|]. vm_compute. reflexivity.
Defined.

(** 25 bytes allow two files of ten. *)
Lemma budget_bounds_the_fetch_witness :
  ∃ picked rest, [["x"]; ["y"]; ["z"]]%string = picked ++ rest ∧
    process two_second_engine 7 (miss file_a) empty_io = submit_all two_second_engine 7 picked empty_io ∧
    ((length picked <= 1)%nat ∨ sizes picked <= 25).
Proof.
  destruct (budget_bounds_the_fetch two_second_engine 7 (miss file_a) empty_io)
    as (i0 & picked & rest & -> & Hu & Hp & _ & Hfit & _);
    [reflexivity|intros p; vm_compute; discriminate|vm_compute; discriminate|vm_compute; reflexivity|].
  exists picked, rest. split; [exact Hu|]. split; [exact Hp|exact Hfit].
Defined.

(** The close of a handle whose access was already promoted is taken for a close of a later
    access: the file is opened, promoted by a tick while the handle is still open, and opened
    again; closing the first handle cancels the second access, whose own handle stays open. *)
Theorem late_close_cancels_a_new_access :
  run_filter two_second_engine
    [Recv 0 (miss file_a); Tick 2000000000; Recv 2500000000 (hit file_a);
     Recv 2600000000 (close file_a 0); Tick 9000000000] (∅, []) = (∅, [miss file_a]).
Proof. vm_compute. reflexivity. Qed.
End EngineTheorems.
