(* ===== verification/Watch.v ===== *)
(** * The backing watcher

    [src/backing_watch.rs]: the bounded set of inotify watches, the debounce window and the
    dispatch of a coalesced event.  The [lru] crate is the interface [LruCache] with its
    documented laws; what the kernel answers to the opening and watching of a directory is
    [AddAnswer].  Instants are milliseconds. *)
From S2P Require Import Prelude Paths Backing Disk Db Manager CacheIo.

(** ** The LRU cache *)
Class LruCache (L : Type) := {
  lru_new : nat → L;
  lru_get : path → L → option Z * L;
  lru_put : path → Z → L → L;
  lru_pop : L → option (path * Z) * L;
  lru_len : L → nat;
  (** The contents, most recently used first. *)
  lru_items : L → list (path * Z);
  lru_cap : L → nat;
}.

Definition others (k : path) (l : list (path * Z)) : list (path * Z) := filter (λ kv, kv.1 ≠ k) l.

Class LruLaws (L : Type) `{LruCache L} : Prop := {
  new_items n : lru_items (lru_new n) = [] ∧ lru_cap (lru_new n) = n;
  len_items l : lru_len l = length (lru_items l);
  get_found k v l l' : lru_get k l = (Some v, l') →
    (k, v) ∈ lru_items l ∧ lru_items l' = (k, v) :: others k (lru_items l) ∧ lru_cap l' = lru_cap l;
  get_missing k l l' : lru_get k l = (None, l') → k ∉ (lru_items l).*1 ∧ l' = l;
  put_items k v l : lru_items (lru_put k v l) = take (lru_cap l) ((k, v) :: others k (lru_items l))
    ∧ lru_cap (lru_put k v l) = lru_cap l;
  pop_some kv l l' : lru_pop l = (Some kv, l') →
    lru_items l = lru_items l' ++ [kv] ∧ lru_cap l' = lru_cap l;
  pop_none l l' : lru_pop l = (None, l') → lru_items l = [] ∧ l' = l;
}.

(** ** Data *)
Inductive Severity := CreateOrMovedIn | Attr | Modify | Delete.

Definition severity_rank (s : Severity) : Z :=
  match s with CreateOrMovedIn => 0 | Attr => 1 | Modify => 2 | Delete => 3 end.

Record PendingEvent := mkPendingEvent {
  deadline : Z; severity : Severity; parent_ino : Z; parent_rel : path;
}.

Record WdEntry := mkWdEntry { wd_rel_path : path; wd_ino : Z }.

(** The mask bits of inotify the code tests. *)
Definition IN_MODIFY : Z := 2.
Definition IN_ATTRIB : Z := 4.
Definition IN_MOVED_FROM : Z := 64.
Definition IN_DELETE : Z := 512.

Record Event := mkEvent { wd : Z; mask : Z; ev_name : option string }.

(** What opening the directory and [inotify_add_watch] answer. *)
Inductive AddAnswer := OpenFailed | AddFailed | Added (wd : Z).

Record Watcher (L : Type) := mkWatcher {
  lru : L;
  wd_map : gmap Z WdEntry;
  debounce : gmap (Z * string) PendingEvent;
  kernel_watches : gset Z;
}.
Arguments mkWatcher {L} _ _ _ _.
Arguments lru {L} _.
Arguments wd_map {L} _.
Arguments debounce {L} _.
Arguments kernel_watches {L} _.

Module BackingWatch.
Section watch.
Context {L : Type} `{LruCache L}.
Implicit Types w : Watcher L.

Definition set_lru (l : L) w : Watcher L := mkWatcher l (wd_map w) (debounce w) (kernel_watches w).

(** The oldest watch makes room. *)
Definition evict_watch (max_dirs : nat) w : Watcher L :=
  if (Nat.max max_dirs 1 <=? lru_len (lru w))%nat then
    match lru_pop (lru w) with
    | (Some (_, evicted), l) =>
        mkWatcher l (delete evicted (wd_map w)) (debounce w) (kernel_watches w ∖ {[evicted]})
    | (None, l) => set_lru l w
    end
  else w.

Definition touch_or_add (answer : path → AddAnswer) (max_dirs : nat) (rel : path) (ino : Z) w :
    Watcher L :=
  match lru_get rel (lru w) with
  | (Some _, l) => set_lru l w
  | (None, l) =>
      let w := evict_watch max_dirs (set_lru l w) in
      if bool_decide (rel ≠ []) && existsb (string_mem nul) rel then w
      else match answer rel with
           | OpenFailed | AddFailed => w
           | Added wd =>
               mkWatcher (lru_put rel wd (lru w)) (<[wd := mkWdEntry rel ino]> (wd_map w))
                         (debounce w) ({[wd]} ∪ kernel_watches w)
           end
  end.

(** The state [run] starts its loop with. *)
Definition started (answer : path → AddAnswer) (max_dirs : nat) : Watcher L :=
  touch_or_add answer max_dirs [] 1 (mkWatcher (lru_new (Nat.max max_dirs 1)) ∅ ∅ ∅).

Definition severity_of (mask : Z) : Severity :=
  if negb (Z.land mask (Z.lor IN_DELETE IN_MOVED_FROM) =? 0) then Delete
  else if negb (Z.land mask IN_MODIFY =? 0) then Modify
  else if negb (Z.land mask IN_ATTRIB =? 0) then Attr
  else CreateOrMovedIn.

Definition handle_event (now debounce_dur : Z) (ev : Event) w : Watcher L :=
  match ev_name ev with
  | None => w
  | Some name =>
      match wd_map w !! wd ev with
      | None => w
      | Some entry =>
          let s := severity_of (mask ev) in
          let key := (wd_ino entry, name) in
          let p := match debounce w !! key with
                   | Some p =>
                       if severity_rank (severity p) <? severity_rank s
                       then mkPendingEvent (deadline p) s (parent_ino p) (parent_rel p) else p
                   | None => mkPendingEvent (now + debounce_dur) s (wd_ino entry) (wd_rel_path entry)
                   end in
          mkWatcher (lru w) (wd_map w) (<[key := p]> (debounce w)) (kernel_watches w)
      end
  end.

(** *** Dispatch: the entry the kernel is told to invalidate, and the cache work *)
Definition dispatch (cm : CacheManager) (now : Z) (parent_rel : path) (parent_ino : Z)
    (name : string) (i : Io) : (Z * string) * Io :=
  let child_rel := parent_rel ++ [name] in
  ((parent_ino, name),
   if Manager.is_cached cm (store i).1 child_rel
   then CacheIO.submit_validation cm now child_rel (CacheIO.mark_abort child_rel i)
   else i).

Context `{MapOrder}.

Definition dispatch_expired (cm : CacheManager) (secs : Z)
    (acc : Watcher L * list (Z * string) * Io) (kp : (Z * string) * PendingEvent) :
    Watcher L * list (Z * string) * Io :=
  let '(w, out, i) := acc in
  let '(key, p) := kp in
  let '(notified, i') := dispatch cm secs (parent_rel p) (parent_ino p) key.2 i in
  (mkWatcher (lru w) (wd_map w) (delete key (debounce w)) (kernel_watches w), out ++ [notified], i').

Definition debounce_tick (cm : CacheManager) (now secs : Z) w (i : Io) :
    Watcher L * list (Z * string) * Io :=
  let expired := filter (λ kp, deadline kp.2 <= now) (iter (debounce w)) in
  foldl (dispatch_expired cm secs) (w, [], i) expired.
End watch.
End BackingWatch.

(** ** Lemmas *)
Module WatchFacts.
Import BackingWatch.
Section facts.
Context {L : Type} `{!LruCache L, !LruLaws L}.
Implicit Types w : Watcher L.

(** The watched directories fit the limit, and every live watch resolves to a directory the LRU
    cache still lists under that descriptor. *)
Record watch_ok (max_dirs : nat) w : Prop := {
  ok_cap : lru_cap (lru w) = Nat.max max_dirs 1;
  ok_len : (length (lru_items (lru w)) <= Nat.max max_dirs 1)%nat;
  ok_keys : NoDup (lru_items (lru w)).*1;
  ok_wd : ∀ wd e, wd_map w !! wd = Some e → (wd_rel_path e, wd) ∈ lru_items (lru w);
  ok_kernel : kernel_watches w = dom (wd_map w);
}.

Lemma others_absent k (l : list (path * Z)) : k ∉ l.*1 → others k l = l.
Proof.
  induction l as [|[k' v] l IH]; [done|]. simpl. intros Hk. unfold others. rewrite filter_cons.
  apply not_elem_of_cons in Hk as [Hne Hk]. rewrite decide_True by (simpl; congruence).
  f_equal. by apply IH.
Qed.

Lemma others_shorter k v (l : list (path * Z)) :
  (k, v) ∈ l → (length ((k, v) :: others k l) <= length l)%nat.
Proof.
  intros Hin. apply list_elem_of_split in Hin as (l1 & l2 & ->). unfold others.
  rewrite filter_app, filter_cons, decide_False by (simpl; tauto).
  simpl. rewrite !length_app. simpl.
  pose proof (length_filter (λ kv : path * Z, kv.1 ≠ k) l1).
  pose proof (length_filter (λ kv : path * Z, kv.1 ≠ k) l2). lia.
Qed.

Lemma NoDup_keys_fun (l : list (path * Z)) k v v' :
  NoDup l.*1 → (k, v) ∈ l → (k, v') ∈ l → v = v'.
Proof.
  intros Hnd H1 H2. apply list_elem_of_lookup_1 in H1 as [i Hi], H2 as [j Hj].
  assert (i = j) as -> by (eapply (NoDup_lookup _ i j k Hnd); rewrite list_lookup_fmap;
    [by rewrite Hi|by rewrite Hj]). congruence.
Qed.

Lemma get_found_ok max_dirs rel v l' w :
  watch_ok max_dirs w → lru_get rel (lru w) = (Some v, l') → watch_ok max_dirs (set_lru l' w).
Proof.
  intros [Hcap Hlen Hkeys Hwd Hker] Hget. destruct (get_found _ _ _ _ Hget) as (Hin & Hit & Hc).
  split; simpl; [congruence| | | |done].
  - rewrite Hit. pose proof (others_shorter _ _ _ Hin). lia.
  - rewrite Hit, fmap_cons. apply NoDup_cons. split.
    + intros ([k' v'] & Heq & [Hne _]%list_elem_of_filter)%list_elem_of_fmap. simpl in *. congruence.
    + eapply sublist_NoDup; [exact Hkeys|]. apply fmap_sublist, sublist_filter.
  - intros wd e He. rewrite Hit. specialize (Hwd wd e He).
    destruct (decide (wd_rel_path e = rel)) as [Heq|Hne].
    + rewrite Heq in Hwd |- *. rewrite (NoDup_keys_fun _ _ _ _ Hkeys Hwd Hin). by left.
    + right. by apply list_elem_of_filter.
Qed.

Lemma evict_watch_ok max_dirs w :
  watch_ok max_dirs w →
  watch_ok max_dirs (evict_watch max_dirs w) ∧
  (length (lru_items (lru (evict_watch max_dirs w))) < Nat.max max_dirs 1)%nat ∧
  (lru_items (lru (evict_watch max_dirs w)) `sublist_of` lru_items (lru w)).
Proof.
  intros [Hcap Hlen Hkeys Hwd Hker]. unfold evict_watch. rewrite len_items.
  destruct (Nat.leb_spec (Nat.max max_dirs 1) (length (lru_items (lru w)))) as [Hfull|Hroom].
  2: { split_and!; [done|done|done]. }
  destruct (lru_pop (lru w)) as [[[p evicted]|] l] eqn:Hpop.
  2: { apply pop_none in Hpop as [Hnil _]. rewrite Hnil in Hfull. simpl in Hfull. lia. }
  destruct (pop_some _ _ _ Hpop) as [Hit Hc]. simpl.
  rewrite Hit in Hlen, Hkeys, Hwd |- *. rewrite length_app in Hlen. simpl in Hlen.
  split_and!; [split; simpl|lia|by apply sublist_inserts_r].
  - congruence.
  - lia.
  - rewrite fmap_app in Hkeys. by apply NoDup_app in Hkeys as [? _].
  - intros wd e [Hne He]%lookup_delete_Some. apply Hwd in He.
    apply elem_of_app in He as [He|He]; [done|]. apply list_elem_of_singleton in He. congruence.
  - rewrite Hker. set_solver.
Qed.

Lemma touch_or_add_ok answer max_dirs rel ino w :
  watch_ok max_dirs w → watch_ok max_dirs (touch_or_add answer max_dirs rel ino w).
Proof.
  intros Hok. unfold touch_or_add. destruct (lru_get rel (lru w)) as [[v|] l] eqn:Hget.
  { by eapply get_found_ok. }
  apply get_missing in Hget as [Hk ->].
  replace (set_lru (lru w) w) with w by (by destruct w).
  destruct (evict_watch_ok max_dirs w Hok) as (Hok' & Hlt & Hsub).
  set (w' := evict_watch max_dirs w) in *. clearbody w'.
  destruct (bool_decide (rel ≠ []) && existsb (string_mem nul) rel); [done|].
  destruct (answer rel) as [| |wd]; [done|done|]. destruct Hok' as [Hcap Hlen Hkeys Hwd Hker].
  assert (Hk' : rel ∉ (lru_items (lru w')).*1).
  { intros Hin. apply Hk. eapply elem_of_sublist; [exact Hin|by apply fmap_sublist]. }
  destruct (put_items rel wd (lru w')) as [Hit Hc].
  rewrite others_absent, take_ge in Hit by (done || (simpl; lia)).
  split; simpl.
  - congruence.
  - rewrite Hit. simpl. lia.
  - rewrite Hit. simpl. by apply NoDup_cons.
  - intros wd' e. rewrite Hit. intros [[<- <-]|[Hne He]]%lookup_insert_Some; [by left|].
    right. by apply Hwd.
  - rewrite Hker, dom_insert_L. done.
Qed.

Lemma new_ok max_dirs : watch_ok max_dirs (mkWatcher (lru_new (Nat.max max_dirs 1)) ∅ ∅ ∅).
Proof.
  destruct (new_items (Nat.max max_dirs 1)) as [Hi Hc].
  split; simpl; rewrite ?Hi; simpl; [done|lia|apply NoDup_nil_2|done|by rewrite dom_empty_L].
Qed.

Lemma kernel_watches_bound max_dirs w :
  watch_ok max_dirs w → (base.size (kernel_watches w) <= Nat.max max_dirs 1)%nat.
Proof.
  intros [Hcap Hlen Hkeys Hwd Hker]. etransitivity; [|exact Hlen].
  rewrite <- (length_fmap snd). change (base.size (kernel_watches w)) with (length (elements (kernel_watches w))).
  apply submseteq_length, NoDup_submseteq; [apply NoDup_elements|].
  intros wd. rewrite elem_of_elements, Hker, elem_of_dom. intros [e He].
  apply list_elem_of_fmap. exists (wd_rel_path e, wd). split; [done|]. by apply Hwd.
Qed.
End facts.
End WatchFacts.

Module WatchTheorems.
Import BackingWatch WatchFacts.
Section theorems.
Context {L : Type} `{!LruCache L, !LruLaws L}.
Implicit Types w : Watcher L.

Definition touches := list ((path → AddAnswer) * path * Z).

Definition touch_all (max_dirs : nat) (ts : touches) w : Watcher L :=
  foldl (λ w t, touch_or_add t.1.1 max_dirs t.1.2 t.2 w) w ts.

(** C34. Whatever directories are touched and whatever the kernel answers, there are never more
    inotify watches than [max_dirs] (at least one), and every live watch resolves to a directory
    that the LRU cache still lists under that descriptor. *)
Theorem watches_stay_bounded answer max_dirs ts :
  let w := touch_all max_dirs ts (started answer max_dirs) in
  (base.size (kernel_watches w) <= Nat.max max_dirs 1)%nat ∧
  ∀ wd, wd ∈ kernel_watches w →
    ∃ e, wd_map w !! wd = Some e ∧ (wd_rel_path e, wd) ∈ lru_items (lru w).
Proof.
  cbn zeta. assert (Hok : watch_ok max_dirs (touch_all max_dirs ts (started answer max_dirs))).
  { unfold touch_all. assert (Hs : watch_ok max_dirs (started answer max_dirs))
      by apply touch_or_add_ok, new_ok. revert Hs. generalize (started answer max_dirs).
    induction ts as [|t ts IH]; intros w Hw; [done|]. apply IH. by apply touch_or_add_ok. }
  split; [by apply kernel_watches_bound|]. destruct Hok as [_ _ _ Hwd Hker]. rewrite Hker.
  intros wd [e He]%elem_of_dom. eauto.
Qed.

Definition key_of w (ev : Event) : option (Z * string) :=
  name ← ev_name ev; entry ← wd_map w !! wd ev; Some (wd_ino entry, name).

Definition handle_all (dur : Z) (evs : list (Z * Event)) w : Watcher L :=
  foldl (λ w te, handle_event te.1 dur te.2 w) w evs.

Definition event_rank (ev : Event) : Z := severity_rank (severity_of (mask ev)).

(** What one event does to the window of [k]. *)
Lemma handle_event_window now dur ev w k :
  wd_map (handle_event now dur ev w) = wd_map w ∧
  if decide (key_of w ev = Some k) then
    ∃ p, debounce (handle_event now dur ev w) !! k = Some p ∧
      match debounce w !! k with
      | None => deadline p = now + dur ∧ severity p = severity_of (mask ev) ∧ parent_ino p = k.1
      | Some p0 => deadline p = deadline p0 ∧ parent_ino p = parent_ino p0 ∧
          severity_rank (severity p) = Z.max (severity_rank (severity p0)) (event_rank ev)
      end
  else debounce (handle_event now dur ev w) !! k = debounce w !! k.
Proof.
  unfold handle_event, key_of, event_rank. destruct (ev_name ev) as [name|]; simpl; [|done].
  destruct (wd_map w !! wd ev) as [entry|]; simpl; [|done]. split; [done|]. case_decide as Hk.
  - simplify_eq. rewrite lookup_insert_eq. eexists. split; [done|].
    destruct (debounce w !! (wd_ino entry, name)) as [p0|]; [|done].
    destruct (Z.ltb_spec (severity_rank (severity p0)) (severity_rank (severity_of (mask ev))));
      simpl; split_and!; (done || lia).
  - rewrite lookup_insert_ne by congruence. done.
Qed.

Lemma foldr_max_init a b (l : list Z) : foldr Z.max (Z.max a b) l = Z.max b (foldr Z.max a l).
Proof. induction l; simpl; lia. Qed.

Lemma handle_all_open dur evs w k p0 :
  debounce w !! k = Some p0 →
  ∃ p, debounce (handle_all dur evs w) !! k = Some p ∧ deadline p = deadline p0 ∧
    parent_ino p = parent_ino p0 ∧
    severity_rank (severity p) =
      foldr Z.max (severity_rank (severity p0))
            ((λ te, event_rank te.2) <$> filter (λ te, key_of w te.2 = Some k) evs).
Proof.
  revert w p0. induction evs as [|[t ev] evs IH]; intros w p0 Hp; [by exists p0|]. cbn [handle_all foldl].
  destruct (handle_event_window t dur ev w k) as [Hwd Hstep]. rewrite filter_cons. simpl in *.
  assert (Hkey : ∀ ev', key_of (handle_event t dur ev w) ev' = key_of w ev')
    by (intros; unfold key_of; by rewrite Hwd).
  assert (Hf : filter (λ te : Z * Event, key_of (handle_event t dur ev w) te.2 = Some k) evs =
               filter (λ te : Z * Event, key_of w te.2 = Some k) evs).
  { apply list_filter_iff. intros [? ?]. simpl. by rewrite Hkey. }
  destruct (decide (key_of w ev = Some k)) as [Hk|Hk].
  - destruct Hstep as (p1 & Hp1 & Hrest). rewrite Hp in Hrest. destruct Hrest as (Hd & Hi & Hr).
    destruct (IH _ p1 Hp1) as (p & Hp' & Hd' & Hi' & Hr').
    exists p. split_and!; [done|congruence|congruence|]. rewrite Hr', Hf, Hr, fmap_cons.
    apply foldr_max_init.
  - destruct (IH (handle_event t dur ev w) p0) as (p & Hp' & Hd' & Hi' & Hr'); [congruence|].
    exists p. by rewrite Hf in Hr'.
Qed.

(** The debounce window coalesces: from no open window on a name, whatever other events come
    in between, the events on the name leave one pending dispatch whose deadline is fixed by the
    first of them and whose severity is the greatest of theirs; without one, there is none. *)
Theorem debounce_coalesces dur evs w k :
  debounce w !! k = None →
  let pending := debounce (handle_all dur evs w) !! k in
  match filter (λ te, key_of w te.2 = Some k) evs with
  | [] => pending = None
  | (t0, ev0) :: rest => ∃ p, pending = Some p ∧ deadline p = t0 + dur ∧ parent_ino p = k.1 ∧
      severity_rank (severity p) = foldr Z.max (event_rank ev0) ((λ te, event_rank te.2) <$> rest)
  end.
Proof.
  cbn zeta. revert w. induction evs as [|[t ev] evs IH]; intros w Hn; [done|]. cbn [handle_all foldl].
  destruct (handle_event_window t dur ev w k) as [Hwd Hstep]. rewrite filter_cons. simpl in *.
  assert (Hf : filter (λ te : Z * Event, key_of (handle_event t dur ev w) te.2 = Some k) evs =
               filter (λ te : Z * Event, key_of w te.2 = Some k) evs).
  { apply list_filter_iff. intros [? ?]. unfold key_of. simpl. by rewrite Hwd. }
  destruct (decide (key_of w ev = Some k)) as [Hk|Hk].
  - destruct Hstep as (p1 & Hp1 & Hrest). rewrite Hn in Hrest. destruct Hrest as (Hd & Hs & Hi).
    destruct (handle_all_open dur evs _ k p1 Hp1) as (p & Hp & Hd' & Hi' & Hr').
    exists p. split_and!; [done|congruence|congruence|]. rewrite Hr', Hf, Hs. done.
  - rewrite <- Hf. apply IH. congruence.
Qed.

(** *** The tick *)
Context `{MapOrder} (cm : CacheManager) (now secs : Z).

Definition dispatch_io (i : Io) (kp : (Z * string) * PendingEvent) : Io :=
  (dispatch cm secs (parent_rel kp.2) (parent_ino kp.2) kp.1.2 i).2.

Lemma dispatch_expired_spec kps w out i :
  (foldl (dispatch_expired cm secs) (w, out, i) kps) =
  (mkWatcher (lru w) (wd_map w) (foldl (λ m kp, delete kp.1 m) (debounce w) kps) (kernel_watches w),
   out ++ ((λ kp, (parent_ino kp.2, kp.1.2)) <$> kps), foldl dispatch_io i kps).
Proof.
  revert w out i. induction kps as [|[key p] kps IH]; intros w out i; cbn [foldl].
  - rewrite app_nil_r. by destruct w.
  - unfold dispatch_expired at 2. unfold dispatch. cbn iota beta. rewrite IH. simpl.
    by rewrite <- app_assoc.
Qed.

Lemma foldl_delete_lookup {A} (kps : list ((Z * string) * A)) (m : gmap (Z * string) A) k :
  foldl (λ m kp, delete kp.1 m) m kps !! k = if decide (k ∈ kps.*1) then None else m !! k.
Proof.
  revert m. induction kps as [|kp kps IH]; intros m; [done|]. cbn [foldl]. rewrite IH. simpl.
  destruct (decide (k ∈ kps.*1)) as [Hin|Hin].
  - by rewrite decide_True by (by right).
  - destruct (decide (k = kp.1)) as [-> |Hne].
    + rewrite lookup_delete_eq. by rewrite decide_True by (by left).
    + rewrite lookup_delete_ne by done. rewrite decide_False; [done|]. by intros [?|?]%elem_of_cons.
Qed.

(** A tick of the watcher closes exactly the windows whose deadline has passed: each of them
    is dispatched once, telling the kernel about the name and handing the path to the cache, and
    the other windows and the watches stay as they are. *)
Theorem tick_dispatches_the_expired w i :
  let '(w', notified, i') := debounce_tick cm now secs w i in
  debounce w' = filter (λ kp, ¬ deadline kp.2 <= now) (debounce w) ∧
  wd_map w' = wd_map w ∧ kernel_watches w' = kernel_watches w ∧
  ∃ expired, expired ≡ₚ filter (λ kp, deadline kp.2 <= now) (map_to_list (debounce w)) ∧
    notified = (λ kp, (parent_ino kp.2, kp.1.2)) <$> expired ∧ i' = foldl dispatch_io i expired.
Proof.
  unfold debounce_tick. rewrite dispatch_expired_spec. simpl.
  set (expired := filter _ (iter (debounce w))). split_and!; [|done|done|].
  - apply map_eq. intros k. rewrite foldl_delete_lookup, map_lookup_filter.
    assert (Hk : k ∈ expired.*1 ↔ ∃ p, debounce w !! k = Some p ∧ deadline p <= now).
    { unfold expired. rewrite list_elem_of_fmap. split.
      - intros ([k' p] & -> & [Hle Hin]%list_elem_of_filter). apply elem_of_iter in Hin. eauto.
      - intros (p & Hp & Hle). exists (k, p). split; [done|]. apply list_elem_of_filter.
        by rewrite elem_of_iter. }
    case_decide as Hin.
    + apply Hk in Hin as (p & -> & Hle). simpl. by rewrite option_guard_False by (intros Hx; by apply Hx).
    + destruct (debounce w !! k) as [p|] eqn:Hp; [|done]. simpl.
      rewrite option_guard_True; [done|]. intros Hle. apply Hin, Hk. eauto.
  - exists expired. split_and!; [|done|done]. unfold expired. by rewrite iter_perm.
Qed.
End theorems.

(** The watcher aborts no first copy: for a path that is not cached yet, which is where a populate
    copy runs, a dispatched event changes nothing, and the abort flag of the copy stays down. *)
Lemma first_copies_are_not_aborted cm now parent ino name i :
  Manager.is_cached cm (store i).1 (parent ++ [name]) = false →
  (dispatch cm now parent ino name i).2 = i.
Proof. unfold dispatch. intros Hc. simpl. by rewrite Hc. Qed.

(** ** Witnesses *)

(** An LRU cache as the list of its entries. *)
Record ListLru := mkListLru { ll_cap : nat; ll_items : list (path * Z) }.

#[local] Instance ListLru_cache : LruCache ListLru := {|
  lru_new n := mkListLru n [];
  lru_get k l :=
    match list_find (λ kv, kv.1 = k) (ll_items l) with
    | Some (_, kv) => (Some kv.2, mkListLru (ll_cap l) ((k, kv.2) :: others k (ll_items l)))
    | None => (None, l)
    end;
  lru_put k v l := mkListLru (ll_cap l) (take (ll_cap l) ((k, v) :: others k (ll_items l)));
  lru_pop l := match last (ll_items l) with
               | Some kv => (Some kv, mkListLru (ll_cap l) (removelast (ll_items l)))
               | None => (None, l)
               end;
  lru_len l := length (ll_items l);
  lru_items := ll_items;
  lru_cap := ll_cap;
|}.

#[local] Instance ListLru_laws : LruLaws ListLru.
Proof.
  split; simpl; try done.
  - intros k v [c l] l' Hg. simpl in *. destruct (list_find _ l) as [[j [k' v']]|] eqn:Hf; simplify_eq/=.
    apply list_find_Some in Hf as (Hj & <- & _). split_and!; try done. by eapply list_elem_of_lookup_2.
  - intros k [c l] l' Hg. simpl in *. destruct (list_find _ l) as [[j [k' v']]|] eqn:Hf; simplify_eq/=.
    apply list_find_None in Hf. split; [|done]. intros (kv & -> & Hin)%list_elem_of_fmap.
    by apply (proj1 (Forall_forall _ _) Hf kv Hin).
  - intros kv [c l] l' Hp. simpl in *. destruct l as [|x l _] using rev_ind; [done|].
    rewrite last_snoc in Hp. simplify_eq/=. by rewrite removelast_last.
  - intros [c l] l' Hp. simpl in *. destruct l as [|x l _] using rev_ind; [by inversion Hp|].
    by rewrite last_snoc in Hp.
Qed.

Definition one_watch : Watcher ListLru := started (λ _, Added 3) 1.

Lemma watches_stay_bounded_witness :
  (base.size (kernel_watches (touch_all 1 [((λ _, Added 4), ["d"]%string, 2%Z)] one_watch)) <= 1)%nat.
Proof.
  exact (proj1 (watches_stay_bounded (L := ListLru) (λ _, Added 3) 1 [((λ _, Added 4), ["d"]%string, 2%Z)])).
Defined.

Lemma debounce_coalesces_witness :
  ∃ p, debounce (handle_all 500 [(0, mkEvent 3 IN_MODIFY (Some "f"%string));
                                 (100, mkEvent 3 IN_DELETE (Some "f"%string))] one_watch) !!
         (1, "f"%string) = Some p ∧ deadline p = 500 ∧ severity_rank (severity p) = 3.
Proof.
  destruct (debounce_coalesces 500 [(0, mkEvent 3 IN_MODIFY (Some "f"%string));
    (100, mkEvent 3 IN_DELETE (Some "f"%string))] one_watch (1, "f"%string)) as (p & Hp & Hd & _ & Hs);
    [vm_compute; reflexivity|].
  exists p. split; [exact Hp|]. split; [exact Hd|exact Hs].
Defined.
End WatchTheorems.
