(* ===== verification/Fuse.v ===== *)
(** * The FUSE file system

    [src/fuse/fusefs.rs], [read.rs], [write.rs] and [util.rs]: the handlers of one mount, from
    the request to the reply, over the inode table, the handle maps and the cache.  System calls
    are the parameter [sys]; a handler takes the locks of the maps one at a time and is modelled
    as one step.  Discovery's counters, the log lines and the per-thread umask are left out. *)
From S2P Require Import Prelude Paths Backing Disk Inode Db Manager CacheIo Preset Engine.

(** ** Data *)
Inductive FileType :=
  | Directory | Symlink | BlockDevice | CharDevice | NamedPipe | Socket | RegularFile.

Record FileAttr := mkFileAttr {
  a_ino : Z; a_size : Z; a_blocks : Z;
  a_atime : Z * Z; a_mtime : Z * Z; a_ctime : Z * Z; a_crtime : Z * Z;
  a_kind : FileType; a_perm : Z; a_nlink : Z; a_uid : Z; a_gid : Z; a_rdev : Z; a_blksize : Z;
  a_flags : Z;
}.

Inductive OpenOutcome := OpenHit | OpenMiss | OpenFiltered.

(** A point in time: seconds, possibly negative, and nanoseconds. *)
Inductive TimeOrNow := SpecificTime (t : Z * Z) | Now.

(** The fields of [FsCache] that do not change while the mount lives; [engine] and [watched] tell
    whether [access_tx] and [backing_watch] are set. *)
Record FsConfig := mkFsConfig {
  fs_fd : Z;
  passthrough_mode : bool;
  fs_cache : option CacheManager;
  engine : bool;
  repeat_log_window : Z;
  fs_preset : option CachePreset;
  watched : bool;
}.

(** The mutable fields, the store of the cache, what was sent to the engine and to the watcher,
    and the world the system calls act on. *)
Record FsState (W : Type) := mkFsState {
  inodes : InodeTable;
  recent_logs : gmap path Z;
  open_bytes : gmap Z Z;
  open_paths : gmap Z path;
  write_paths : gmap Z path;
  append_handles : gset Z;
  ssd : Store;
  sent : list AccessEvent;
  touched : list (path * Z);
  world : W;
}.
Arguments mkFsState {W}.
Arguments inodes {W}.
Arguments recent_logs {W}.
Arguments open_bytes {W}.
Arguments open_paths {W}.
Arguments write_paths {W}.
Arguments append_handles {W}.
Arguments ssd {W}.
Arguments sent {W}.
Arguments touched {W}.
Arguments world {W}.

(** A requester: its process and credentials. *)
Record Request := mkRequest { req_pid : Z; req_uid : Z; req_gid : Z }.

(** ** The handler monad: a value, an [Errno], a panic, or a loop cut by the fuel *)
Inductive outcome (A : Type) := Val (a : A) | Fail (errno : Z) | Panic | OutOfFuel.
Arguments Val {A} _.
Arguments Fail {A} _.
Arguments Panic {A}.
Arguments OutOfFuel {A}.

Definition FsM (W A : Type) : Type := FsState W → outcome A * FsState W.
#[export] Instance fs_ret W : MRet (FsM W) := λ A a st, (Val a, st).
#[export] Instance fs_bind W : MBind (FsM W) := λ A B f m st,
  match m st with
  | (Val a, st') => f a st'
  | (Fail e, st') => (Fail e, st')
  | (Panic, st') => (Panic, st')
  | (OutOfFuel, st') => (OutOfFuel, st')
  end.

Definition ENOENT : Z := 2.
Definition EEXIST : Z := 17.
Definition ENOSYS : Z := 38.
Definition ESTALE : Z := 116.
Definition S_IFBLK : Z := 24576.
Definition S_IFCHR : Z := 8192.
Definition S_IFIFO : Z := 4096.
Definition S_IFSOCK : Z := 49152.
Definition S_ISGID : Z := 1024.
Definition PATH_MAX : Z := 4096.

Module FsCache.

(** ** Pure helpers *)
Definition mode_to_filetype (mode : Z) : FileType :=
  let f := Z.land mode S_IFMT in
  if f =? S_IFDIR then Directory
  else if f =? S_IFLNK then Symlink
  else if f =? S_IFBLK then BlockDevice
  else if f =? S_IFCHR then CharDevice
  else if f =? S_IFIFO then NamedPipe
  else if f =? S_IFSOCK then Socket
  else RegularFile.

(** [UNIX_EPOCH + Duration::new(secs, nsecs)]: nanoseconds carry into the seconds, which must fit
    in 63 bits; otherwise the addition panics. *)
Definition epoch_plus (secs nsecs : Z) : option (Z * Z) :=
  let s := secs + nsecs / 1000000000 in
  if s <=? I64_MAX then Some (s, nsecs mod 1000000000) else None.

(** [None] is the panic of a timestamp. *)
Definition stat_to_attr (ino : Z) (s : stat) : option FileAttr :=
  atime ← epoch_plus (as_u64 (st_atime s)) (as_u32 (st_atime_nsec s));
  mtime ← epoch_plus (as_u64 (st_mtime s)) (as_u32 (st_mtime_nsec s));
  ctime ← epoch_plus (as_u64 (st_ctime s)) (as_u32 (st_ctime_nsec s));
  Some (mkFileAttr ino (as_u64 (st_size s)) (as_u64 (st_blocks s)) atime mtime ctime (0, 0)
          (mode_to_filetype (st_mode s)) (as_u16 (Z.land (st_mode s) 4095)) (as_u32 (st_nlink s))
          (st_uid s) (st_gid s) (as_u32 (st_rdev s)) (as_u32 (st_blksize s)) 0).

Definition source_metadata_to_attr (ino : Z) (m : SourceMetadata) : option FileAttr :=
  atime ← epoch_plus (Z.max (atime_sec m) 0) (as_u32 (Z.max (atime_nsec m) 0));
  mtime ← epoch_plus (Z.max (mtime_sec m) 0) (as_u32 (Z.max (mtime_nsec m) 0));
  ctime ← epoch_plus (Z.max (ctime_sec m) 0) (as_u32 (Z.max (ctime_nsec m) 0));
  Some (mkFileAttr ino (size m) (blocks m) atime mtime ctime (0, 0) RegularFile
          (as_u16 (Z.land (mode m) 4095)) (as_u32 (nlink m)) (uid m) (gid m)
          (as_u32 (rdev m)) (blksize m) 0).

Definition is_write_intent (flags : Z) : bool :=
  let access_mode := Z.land flags O_ACCMODE in
  (access_mode =? O_WRONLY) || (access_mode =? O_RDWR)
  || negb (Z.land flags (Z.lor O_TRUNC O_APPEND) =? 0).

(** [mode & !umask] on 32 bits. *)
Definition apply_umask (mode umask : Z) : Z := Z.land mode (2 ^ 32 - 1 - umask).

Definition system_time_to_timespec (t : Z * Z) : Z * Z := if t.1 <? 0 then (0, 0) else t.

Definition time_or_now_to_timespec (now : Z * Z) (value : option TimeOrNow)
    (fallback_sec fallback_nsec : Z) : Z * Z :=
  match value with
  | Some (SpecificTime t) => system_time_to_timespec t
  | Some Now => system_time_to_timespec now
  | None => (fallback_sec, fallback_nsec)
  end.

(** A path that is not a C string names [/dev/null]. *)
Definition abs_to_cstring (p : path) : path :=
  if existsb (string_mem nul) p then ["/"; "dev"; "null"]%string else p.

Section handlers.
Context {W : Type} `{MapOrder} (sys : syscall → State W reply) (self : FsConfig).
Implicit Types st : FsState W.
Abbreviation M := (FsM W).

(** ** Access to the state *)
Definition set_inodes (t : InodeTable) st : FsState W :=
  mkFsState t (recent_logs st) (open_bytes st) (open_paths st) (write_paths st)
            (append_handles st) (ssd st) (sent st) (touched st) (world st).
Definition set_logs (l : gmap path Z) st : FsState W :=
  mkFsState (inodes st) l (open_bytes st) (open_paths st) (write_paths st)
            (append_handles st) (ssd st) (sent st) (touched st) (world st).
Definition set_handles (b : gmap Z Z) (p : gmap Z path) (w : gmap Z path) (a : gset Z) st : FsState W :=
  mkFsState (inodes st) (recent_logs st) b p w a (ssd st) (sent st) (touched st) (world st).
Definition set_ssd (s : Store) st : FsState W :=
  mkFsState (inodes st) (recent_logs st) (open_bytes st) (open_paths st) (write_paths st)
            (append_handles st) s (sent st) (touched st) (world st).
Definition set_sent (l : list AccessEvent) st : FsState W :=
  mkFsState (inodes st) (recent_logs st) (open_bytes st) (open_paths st) (write_paths st)
            (append_handles st) (ssd st) l (touched st) (world st).
Definition set_touched (l : list (path * Z)) st : FsState W :=
  mkFsState (inodes st) (recent_logs st) (open_bytes st) (open_paths st) (write_paths st)
            (append_handles st) (ssd st) (sent st) l (world st).
Definition set_world (w : W) st : FsState W :=
  mkFsState (inodes st) (recent_logs st) (open_bytes st) (open_paths st) (write_paths st)
            (append_handles st) (ssd st) (sent st) (touched st) w.

Definition modify (f : FsState W → FsState W) : M unit := λ st, (Val tt, f st).
Definition gets {A} (f : FsState W → A) : M A := λ st, (Val (f st), st).
Definition fail {A} (e : Z) : M A := λ st, (Fail e, st).
Definition panic {A} : M A := λ st, (Panic, st).

(** A computation of the backing store, which sees the world only. *)
Definition lift {A} (m : State W A) : M A := λ st,
  let '(a, w) := m (world st) in (Val a, set_world w st).

Definition of_option {A} (e : Z) (o : option A) : M A :=
  match o with Some a => mret a | None => fail e end.
Definition or_panic {A} (o : option A) : M A :=
  match o with Some a => mret a | None => panic end.
(** [map_err(io_to_errno)?]. *)
Definition try_io {A} (m : State W (result io_error A)) : M A :=
  r ← lift m; match r with Ok a => mret a | Err e => fail (io_to_errno e) end.

Definition path_for_ino (ino : Z) : M path :=
  p ← gets (λ st, InodeTable.get_path (inodes st) ino); of_option ENOENT p.

Definition child_path (parent : Z) (name : string) : M path :=
  p ← path_for_ino parent; mret (p ++ [name]).

Definition get_or_create (p : path) : M Z := λ st,
  match InodeTable.get_or_create (inodes st) p with
  | Some (t, ino) => (Val ino, set_inodes t st)
  | None => (Panic, st)
  end.

Definition stat_backing (p : path) : M (option stat) := lift (BackingStore.stat sys p).

Definition should_suppress_log (now : Z) (p : path) : M bool := λ st,
  if repeat_log_window self =? 0 then (Val false, st)
  else
    let recent := if (1000 <? base.size (recent_logs st))%nat
                  then filter (λ kv, now - kv.2 < repeat_log_window self) (recent_logs st)
                  else recent_logs st in
    match recent !! p with
    | Some last => if now - last <? repeat_log_window self then (Val true, set_logs recent st)
                   else (Val false, set_logs (<[p := now]> recent) st)
    | None => (Val false, set_logs (<[p := now]> recent) st)
    end.

(** ** Attributes *)
Definition cached_regular_attr (p : path) (ino : Z) : M (option FileAttr) :=
  match fs_cache self with
  | None => mret None
  | Some cm =>
      s ← gets ssd;
      if negb (Manager.is_cached cm s.1 p) then mret None
      else match Manager.source_metadata cm s.2 p with
           | Some snapshot => a ← or_panic (source_metadata_to_attr ino snapshot); mret (Some a)
           | None =>
               o ← stat_backing p;
               match o with
               | None => mret None
               | Some live =>
                   _ ← modify (λ st, set_ssd ((ssd st).1,
                          Manager.refresh_source_metadata cm p live (ssd st).2) st);
                   a ← or_panic (stat_to_attr ino live); mret (Some a)
               end
           end
  end.

Definition fresh_attr_for_path (p : path) : M (Z * FileAttr) :=
  o ← stat_backing p;
  s ← of_option ENOENT o;
  ino ← get_or_create p;
  a ← or_panic (stat_to_attr ino s);
  mret (ino, a).

(** ** Lookup and attributes *)
Definition do_lookup (parent : Z) (name : string) : M FileAttr :=
  child ← child_path parent name;
  ino ← get_or_create child;
  cached ← cached_regular_attr child ino;
  match cached with
  | Some attr => mret attr
  | None =>
      o ← stat_backing child;
      s ← of_option ENOENT o;
      _ ← (if (Z.land (st_mode s) S_IFMT =? S_IFDIR) && watched self
           then modify (λ st, set_touched (touched st ++ [(child, ino)]) st) else mret tt);
      or_panic (stat_to_attr ino s)
  end.

Definition forget (ino nlookup : Z) : M unit :=
  modify (λ st, set_inodes (InodeTable.forget (inodes st) ino nlookup) st).

Definition do_getattr (ino : Z) : M FileAttr :=
  p ← path_for_ino ino;
  cached ← cached_regular_attr p ino;
  match cached with
  | Some attr => mret attr
  | None => o ← stat_backing p; s ← of_option ENOENT o; or_panic (stat_to_attr ino s)
  end.

(** ** Open, read, release *)
Definition try_open (now : Z) (p : path) (filtered : bool) : M (Z * OpenOutcome) :=
  s ← gets ssd;
  hit ← match fs_cache self with
        | Some cm =>
            if negb (passthrough_mode self) && Manager.is_cached cm s.1 p then
              r ← lift (sys (Open (abs_to_cstring (Manager.cache_path cm p)) O_RDONLY));
              if 0 <=? rc r then
                _ ← modify (λ st, set_ssd ((ssd st).1, Manager.mark_hit now cm p (ssd st).2) st);
                mret (Some (rc r))
              else mret None
            else mret None
        | None => mret None
        end;
  match hit with
  | Some fd => mret (fd, OpenHit)
  | None =>
      fd ← try_io (BackingStore.open_file sys p);
      mret (fd, if filtered then OpenFiltered else OpenMiss)
  end.

Definition open_write_handle (p : path) (flags mode : Z) : M Z :=
  fd ← try_io (BackingStore.open_file_with_flags sys p flags mode);
  let fh := as_u64 fd in
  _ ← modify (λ st, set_handles (open_bytes st) (open_paths st) (<[fh := p]> (write_paths st))
         (if negb (Z.land flags O_APPEND =? 0) then {[fh]} ∪ append_handles st
          else append_handles st) st);
  mret fd.

(** [now] is the monotonic clock of the log window, [secs] the wall clock of the hit row. *)
Definition open (proc : ProcFs) (now secs : Z) (req : Request) (ino flags : Z) : M Z :=
  p ← path_for_ino ino;
  if is_write_intent flags then
    fd ← open_write_handle p flags 0; mret (as_u64 fd)
  else
    _ ← should_suppress_log now p;
    let filtered := match fs_preset self with
                    | Some preset => Preset.should_filter preset (ProcessInfo.capture proc (req_pid req))
                    | None => false
                    end in
    '(fd, outcome) ← try_open secs p filtered;
    let engine_event :=
      if filtered then None
      else match outcome with
           | OpenHit => Some (ActionEngine.hit p)
           | OpenMiss => if negb (passthrough_mode self) then Some (ActionEngine.miss p) else None
           | OpenFiltered => None
           end in
    _ ← match engine_event with
        | Some event =>
            modify (λ st, set_handles (open_bytes st) (<[as_u64 fd := p]> (open_paths st))
                            (write_paths st) (append_handles st)
                            (if engine self then set_sent (sent st ++ [event]) st else st))
        | None => mret tt
        end;
    _ ← modify (λ st, set_handles (<[as_u64 fd := 0]> (open_bytes st)) (open_paths st)
                        (write_paths st) (append_handles st) st);
    mret (as_u64 fd).

Definition do_read (fh offset size : Z) : M string :=
  r ← lift (sys (Pread fh size (as_i64 offset)));
  if rc r <? 0 then fail (errno r)
  else
    _ ← modify (λ st, set_handles (alter (λ b, u64_add b (rc r)) fh (open_bytes st)) (open_paths st)
                        (write_paths st) (append_handles st) st);
    mret (String.substring 0 (Z.to_nat (rc r)) (out_bytes r)).

Definition release (fh : Z) : M unit :=
  st ← gets id;
  _ ← match write_paths st !! fh with
      | Some _ =>
          modify (λ st, set_handles (open_bytes st) (open_paths st) (delete fh (write_paths st))
                          (append_handles st ∖ {[fh]}) st)
      | None =>
          let bytes_read := default 0 (open_bytes st !! fh) in
          let p := open_paths st !! fh in
          modify (λ st,
            let st := set_handles (delete fh (open_bytes st)) (delete fh (open_paths st))
                        (write_paths st) (append_handles st) st in
            match p with
            | Some p => if engine self then set_sent (sent st ++ [ActionEngine.close p bytes_read]) st
                        else st
            | None => st
            end)
      end;
  _ ← lift (sys (Backing.Close fh));
  mret tt.

(** ** Directories *)
Definition do_opendir (ino : Z) : M Z :=
  p ← path_for_ino ino;
  let c_path := if decide (p = []) then rel_to_cstring ["."%string] else rel_to_cstring p in
  r ← lift (sys (Openat c_path (Z.lor O_RDONLY O_DIRECTORY) 0));
  if rc r <? 0 then fail (errno r) else mret (as_u64 (rc r)).

Definition kind_of_stat (o : option stat) : FileType :=
  match o with Some s => mode_to_filetype (st_mode s) | None => RegularFile end.

(** The [d_type] of an entry; an unknown one is looked up. *)
Definition dirent_kind (d_type : Z) (child : path) : M FileType :=
  if d_type =? 4 then mret Directory
  else if d_type =? 10 then mret Symlink
  else if d_type =? 6 then mret BlockDevice
  else if d_type =? 2 then mret CharDevice
  else if d_type =? 1 then mret NamedPipe
  else if d_type =? 12 then mret Socket
  else o ← stat_backing child; mret (kind_of_stat o).

Fixpoint dir_loop (fuel : nat) (dir : Z) (parent : path) (out : list (string * Z * FileType)) :
    M (list (string * Z * FileType)) :=
  match fuel with
  | O => λ st, (OutOfFuel, st)
  | S fuel' =>
      r ← lift (sys (Readdir dir));
      if rc r =? 0 then mret out
      else
        let name := out_bytes r in
        if bool_decide (name = "."%string) || bool_decide (name = ".."%string)
        then dir_loop fuel' dir parent out
        else
          kind ← dirent_kind (default 0 (head (out_nums r))) (parent ++ [name]);
          ino ← get_or_create (parent ++ [name]);
          dir_loop fuel' dir parent (out ++ [(name, ino, kind)])
  end.

Definition list_dir_entries (fuel : nat) (dir_fd : Z) (parent : path) :
    M (list (string * Z * FileType)) :=
  t ← gets inodes;
  let dot_ino := default ROOT_INO (InodeTable.get_path_ino t parent) in
  let dotdot_ino := default ROOT_INO (InodeTable.get_path_ino t (Paths.parent parent)) in
  let entries := [("."%string, dot_ino, Directory); (".."%string, dotdot_ino, Directory)] in
  d ← lift (sys (Dup dir_fd));
  r ← lift (sys (Fdopendir (rc d)));
  if rc r =? 0 then mret entries
  else
    _ ← lift (sys (Rewinddir (rc r)));
    out ← dir_loop fuel (rc r) parent entries;
    _ ← lift (sys (Closedir (rc r)));
    mret out.

(** The reply takes the entries after [offset] until it is full; [room] is how many fit. *)
Fixpoint add_entries (i offset : Z) (room : nat) (entries : list (string * Z * FileType)) :
    list (Z * Z * FileType * string) :=
  match entries with
  | [] => []
  | (name, ino, kind) :: entries' =>
      let next_offset := i + 1 in
      if next_offset <=? offset then add_entries (i + 1) offset room entries'
      else match room with
           | O => []
           | S room' => (ino, next_offset, kind, name) :: add_entries (i + 1) offset room' entries'
           end
  end.

Definition do_readdir (fuel room : nat) (ino fh offset : Z) : M (list (Z * Z * FileType * string)) :=
  p ← path_for_ino ino;
  entries ← list_dir_entries fuel fh p;
  mret (add_entries 0 offset room entries).

Definition do_releasedir (fh : Z) : M unit :=
  _ ← lift (sys (Backing.Close fh)); mret tt.

(** ** Links, extended attributes, statistics *)
Definition do_readlink (ino : Z) : M string :=
  p ← path_for_ino ino;
  r ← lift (sys (Readlinkat (rel_to_cstring p) PATH_MAX));
  if rc r <? 0 then fail (errno r)
  else mret (String.substring 0 (Z.to_nat (rc r)) (out_bytes r)).

(** A reply of a size or of the data. *)
Definition xattr_sized (size : Z) (data : string) : Z + string :=
  if size =? 0 then inl (as_u32 (Z.of_nat (String.length data))) else inr data.

Definition do_getxattr (ino : Z) (name : string) (size : Z) : M (Z + string) :=
  p ← path_for_ino ino;
  data ← try_io (BackingStore.getxattr sys (fs_fd self) p name size);
  mret (xattr_sized size data).

Definition do_listxattr (ino size : Z) : M (Z + string) :=
  p ← path_for_ino ino;
  data ← try_io (BackingStore.listxattr sys (fs_fd self) p size);
  mret (xattr_sized size data).

(** The fields in the order of [reply.statfs], the last three cut to 32 bits. *)
Definition do_statfs : M (list Z) :=
  o ← lift (sys (Openat (rel_to_cstring ["."%string]) (Z.lor O_RDONLY O_DIRECTORY) 0));
  if rc o <? 0 then fail (errno o)
  else
    r ← lift (sys (Fstatvfs (rc o)));
    _ ← lift (sys (Backing.Close (rc o)));
    if negb (rc r =? 0) then fail (errno r)
    else mret (take 5 (out_nums r) ++ (as_u32 <$> take 3 (drop 5 (out_nums r)))).

(** ** Writing *)
Definition requester_owner (p : path) (req : Request) : M (Z * option Z) :=
  o ← (if decide (p = []) then mret None else stat_backing (Paths.parent p));
  let parent_is_setgid := match o with
                          | Some s => negb (Z.land (st_mode s) S_ISGID =? 0)
                          | None => false
                          end in
  mret (req_uid req, if parent_is_setgid then None else Some (req_gid req)).

Definition chown_to_requester (p : path) (req : Request) : M unit :=
  '(uid, gid) ← requester_owner p req;
  _ ← lift (BackingStore.chown sys p (Some uid) gid);
  mret tt.

Definition fchown_to_requester (fd : Z) (p : path) (req : Request) : M unit :=
  '(uid, gid) ← requester_owner p req;
  _ ← lift (sys (Fchown fd uid (default (2 ^ 32 - 1) gid)));
  mret tt.

Definition when_some {A} (o : option A) (f : A → M unit) : M unit :=
  match o with Some a => f a | None => mret tt end.

Definition do_setattr (now : Z * Z) (ino : Z) (mode uid gid size : option Z)
    (atime mtime : option TimeOrNow) (fh : option Z) : M FileAttr :=
  p ← path_for_ino ino;
  _ ← when_some mode (λ mode, try_io (BackingStore.chmod sys p mode));
  _ ← match uid, gid with
      | None, None => mret tt
      | _, _ => try_io (BackingStore.chown sys p uid gid)
      end;
  _ ← when_some size (λ size,
        match fh with
        | Some fh =>
            r ← lift (sys (Ftruncate fh (as_i64 size)));
            if rc r =? 0 then mret tt else fail (errno r)
        | None => try_io (BackingStore.truncate sys p size)
        end);
  _ ← match atime, mtime with
      | None, None => mret tt
      | _, _ =>
          o ← stat_backing p;
          current ← of_option ENOENT o;
          try_io (BackingStore.utimens sys p
            (time_or_now_to_timespec now atime (st_atime current) (st_atime_nsec current))
            (time_or_now_to_timespec now mtime (st_mtime current) (st_mtime_nsec current)))
      end;
  o ← stat_backing p;
  s ← of_option ENOENT o;
  _ ← modify (λ st, match fs_cache self with
                    | Some cm =>
                        if Manager.is_cached cm (ssd st).1 p
                        then set_ssd ((ssd st).1, Manager.refresh_source_metadata cm p s (ssd st).2) st
                        else st
                    | None => st
                    end);
  or_panic (stat_to_attr ino s).

Definition entry_reply (p : path) : M FileAttr :=
  '(_, attr) ← fresh_attr_for_path p; mret attr.

Definition do_mknod (req : Request) (parent : Z) (name : string) (mode umask rdev : Z) : M FileAttr :=
  p ← child_path parent name;
  _ ← try_io (BackingStore.mknod sys p (apply_umask mode umask) rdev);
  _ ← chown_to_requester p req;
  entry_reply p.

Definition do_mkdir (req : Request) (parent : Z) (name : string) (mode umask : Z) : M FileAttr :=
  p ← child_path parent name;
  _ ← try_io (BackingStore.mkdir sys p (apply_umask mode umask));
  _ ← chown_to_requester p req;
  entry_reply p.

Definition do_unlink (parent : Z) (name : string) : M unit :=
  p ← child_path parent name;
  _ ← try_io (BackingStore.unlink_file sys p);
  modify (λ st, set_inodes (InodeTable.remove_path (inodes st) p) st).

Definition do_rmdir (parent : Z) (name : string) : M unit :=
  p ← child_path parent name;
  _ ← try_io (BackingStore.rmdir sys p);
  modify (λ st, set_inodes (InodeTable.remove_subtree (inodes st) p) st).

Definition do_symlink (req : Request) (parent : Z) (name target : string) : M FileAttr :=
  p ← child_path parent name;
  _ ← try_io (BackingStore.symlink sys target p);
  _ ← chown_to_requester p req;
  entry_reply p.

Definition do_rename (parent : Z) (name : string) (newparent : Z) (newname : string) (flags : Z) :
    M unit :=
  old ← child_path parent name;
  new ← child_path newparent newname;
  _ ← try_io (BackingStore.rename sys old new flags);
  modify (λ st, set_inodes (InodeTable.rename_path (inodes st) old new) st).

Definition do_link (ino newparent : Z) (newname : string) : M FileAttr :=
  old ← path_for_ino ino;
  new ← child_path newparent newname;
  _ ← try_io (BackingStore.link sys old new);
  entry_reply new.

Definition do_write (fh offset : Z) (data : string) (flags : Z) : M Z :=
  st ← gets id;
  let append := bool_decide (fh ∈ append_handles st) || negb (Z.land flags O_APPEND =? 0) in
  r ← lift (if append then sys (Write fh data) else sys (Pwrite fh data (as_i64 offset)));
  if rc r <? 0 then fail (errno r) else mret (as_u32 (rc r)).

Definition do_fsync (fh : Z) (datasync : bool) : M unit :=
  r ← lift (if datasync then sys (Fdatasync fh) else sys (Fsync fh));
  if rc r =? 0 then mret tt else fail (errno r).

(** The tail of [do_create]: without attributes the creation is undone. *)
Definition undo_create (fd : Z) (p : path) (e : Z) : M (FileAttr * Z) :=
  _ ← lift (sys (Backing.Close fd));
  _ ← modify (λ st, set_handles (open_bytes st) (open_paths st) (delete (as_u64 fd) (write_paths st))
                      (append_handles st ∖ {[as_u64 fd]}) st);
  _ ← lift (BackingStore.unlink_file sys p);
  fail e.

Definition finish_create (fd : Z) (p : path) : M (FileAttr * Z) := λ st,
  match fresh_attr_for_path p st with
  | (Val (_, attr), st) => (Val (attr, as_u64 fd), st)
  | (Fail e, st) => undo_create fd p e st
  | (Panic, st) => (Panic, st)
  | (OutOfFuel, st) => (OutOfFuel, st)
  end.

(** The handle; an existing file the caller did not want exclusively is for a new lookup. *)
Definition create_handle (p : path) (mode umask flags : Z) : M Z := λ st,
  match open_write_handle p (Z.lor (Z.lor flags O_CREAT) O_EXCL) (apply_umask mode umask) st with
  | (Fail e, st) => (Fail (if (e =? EEXIST) && (Z.land flags O_EXCL =? 0) then ESTALE else e), st)
  | other => other
  end.

Definition do_create (req : Request) (parent : Z) (name : string) (mode umask flags : Z) :
    M (FileAttr * Z) :=
  p ← child_path parent name;
  fd ← create_handle p mode umask flags;
  _ ← fchown_to_requester fd p req;
  finish_create fd p.

Definition do_setxattr (ino : Z) (name value : string) (flags position : Z) : M unit :=
  if negb (position =? 0) then fail ENOSYS
  else
    p ← path_for_ino ino;
    try_io (BackingStore.setxattr sys (fs_fd self) p name value flags).

Definition do_removexattr (ino : Z) (name : string) : M unit :=
  p ← path_for_ino ino;
  try_io (BackingStore.removexattr sys (fs_fd self) p name).

(** ** The trait: a request and the handler that serves it *)
Inductive FsRequest :=
  | Lookup (parent : Z) (name : string)
  | Forget (ino nlookup : Z)
  | Getattr (ino : Z)
  | Setattr (ino : Z) (mode uid gid size : option Z) (atime mtime : option TimeOrNow) (fh : option Z)
  | Mknod (parent : Z) (name : string) (mode umask rdev : Z)
  | Mkdir (parent : Z) (name : string) (mode umask : Z)
  | Unlink (parent : Z) (name : string)
  | Rmdir (parent : Z) (name : string)
  | MkSymlink (parent : Z) (name target : string)
  | Rename (parent : Z) (name : string) (newparent : Z) (newname : string) (flags : Z)
  | Link (ino newparent : Z) (newname : string)
  | OpenFile (ino flags : Z)
  | Read (fh offset size : Z)
  | WriteData (fh offset : Z) (data : string) (flags : Z)
  | Flush
  | FsyncFile (fh : Z) (datasync : bool)
  | Release (fh : Z)
  | Opendir (ino : Z)
  | ReadDirectory (room : nat) (ino fh offset : Z)
  | Releasedir (fh : Z)
  | Readlink (ino : Z)
  | Create (parent : Z) (name : string) (mode umask flags : Z)
  | Setxattr (ino : Z) (name value : string) (flags position : Z)
  | Getxattr (ino : Z) (name : string) (size : Z)
  | Listxattr (ino size : Z)
  | Removexattr (ino : Z) (name : string)
  | Statfs.

Inductive FsReply :=
  | REmpty
  | RAttr (attr : FileAttr)
  | ROpened (fh : Z)
  | RCreated (attr : FileAttr) (fh : Z)
  | RData (data : string)
  | RWritten (n : Z)
  | RDirectory (entries : list (Z * Z * FileType * string))
  | RXattr (x : Z + string)
  | RStatfs (fields : list Z).

(** What the surroundings give one request: the clocks, [/proc], who asks, and the fuel of a
    directory stream. *)
Record Ambient := mkAmbient {
  proc : ProcFs; mono : Z; wall : Z * Z; requester : Request; stream_fuel : nat;
}.

Definition respond {A} (r : A → FsReply) (m : M A) : M FsReply := a ← m; mret (r a).

Definition serve (amb : Ambient) (rq : FsRequest) : M FsReply :=
  let empty := respond (λ _ : unit, REmpty) in
  match rq with
  | Lookup parent name => respond RAttr (do_lookup parent name)
  | Forget ino nlookup => empty (forget ino nlookup)
  | Getattr ino => respond RAttr (do_getattr ino)
  | Setattr ino mode uid gid size atime mtime fh =>
      respond RAttr (do_setattr (wall amb) ino mode uid gid size atime mtime fh)
  | Mknod parent name mode umask rdev =>
      respond RAttr (do_mknod (requester amb) parent name mode umask rdev)
  | Mkdir parent name mode umask => respond RAttr (do_mkdir (requester amb) parent name mode umask)
  | Unlink parent name => empty (do_unlink parent name)
  | Rmdir parent name => empty (do_rmdir parent name)
  | MkSymlink parent name target => respond RAttr (do_symlink (requester amb) parent name target)
  | Rename parent name newparent newname flags =>
      empty (do_rename parent name newparent newname flags)
  | Link ino newparent newname => respond RAttr (do_link ino newparent newname)
  | OpenFile ino flags =>
      respond ROpened (open (proc amb) (mono amb) (wall amb).1 (requester amb) ino flags)
  | Read fh offset size => respond RData (do_read fh offset size)
  | WriteData fh offset data flags => respond RWritten (do_write fh offset data flags)
  | Flush => mret REmpty
  | FsyncFile fh datasync => empty (do_fsync fh datasync)
  | Release fh => empty (release fh)
  | Opendir ino => respond ROpened (do_opendir ino)
  | ReadDirectory room ino fh offset =>
      respond RDirectory (do_readdir (stream_fuel amb) room ino fh offset)
  | Releasedir fh => empty (do_releasedir fh)
  | Readlink ino => respond RData (do_readlink ino)
  | Create parent name mode umask flags =>
      respond (λ r, RCreated r.1 r.2) (do_create (requester amb) parent name mode umask flags)
  | Setxattr ino name value flags position => empty (do_setxattr ino name value flags position)
  | Getxattr ino name size => respond RXattr (do_getxattr ino name size)
  | Listxattr ino size => respond RXattr (do_listxattr ino size)
  | Removexattr ino name => empty (do_removexattr ino name)
  | Statfs => respond RStatfs do_statfs
  end.
End handlers.
End FsCache.
