(* ===== verification/FuseSafe.v ===== *)
(** * The FUSE handlers do not panic

    A specification of the handler monad of [Fuse]: a handler is [safe n] when, from a well formed
    state with room for [n] more inodes, it does not panic and leaves a well formed state.  Every
    handler is shown safe by composing the rules, and [serve] with it. *)
From S2P Require Import Prelude Paths Backing Disk Inode Db Manager CacheIo Preset Engine Fuse.

Module FuseSafe.
Import FsCache.

(** Timestamps the conversion to [SystemTime] can represent. *)
Definition time_ok (t : Z) : Prop := t <= I64_MAX - 5.

Record stat_sane (s : stat) : Prop := {
  sane_atime : 0 <= st_atime s ∧ time_ok (st_atime s);
  sane_mtime : 0 <= st_mtime s ∧ time_ok (st_mtime s);
  sane_ctime : 0 <= st_ctime s ∧ time_ok (st_ctime s);
}.

Record meta_sane (m : SourceMetadata) : Prop := {
  meta_atime : time_ok (atime_sec m); meta_mtime : time_ok (mtime_sec m);
  meta_ctime : time_ok (ctime_sec m);
}.

Definition rows_sane (db : CacheDb) : Prop :=
  ∀ k r, cache_files (tables db) !! k = Some r → meta_sane (source r).

Lemma epoch_plus_total s n : time_ok s → is_Some (epoch_plus s (as_u32 n)).
Proof.
  intros Hs. unfold epoch_plus. destruct (Z.leb_spec (s + as_u32 n / 1000000000) I64_MAX) as [|Hgt]; [eauto|].
  exfalso. unfold time_ok in Hs. unfold as_u32 in Hgt.
  pose proof (Z.mod_pos_bound n (2 ^ 32) ltac:(lia)).
  assert (n mod 2 ^ 32 / 1000000000 < 5) by (apply Z.div_lt_upper_bound; lia). lia.
Qed.

Lemma stat_to_attr_total ino s : stat_sane s → is_Some (stat_to_attr ino s).
Proof.
  intros [[? Ha] [? Hm] [? Hc]]. unfold stat_to_attr, time_ok, I64_MAX in *.
  rewrite (as_u64_id (st_atime s)), (as_u64_id (st_mtime s)), (as_u64_id (st_ctime s)) by (int_bounds; lia).
  destruct (epoch_plus_total (st_atime s) (st_atime_nsec s) Ha) as [? ->].
  destruct (epoch_plus_total (st_mtime s) (st_mtime_nsec s) Hm) as [? ->].
  destruct (epoch_plus_total (st_ctime s) (st_ctime_nsec s) Hc) as [? ->]. simpl. eauto.
Qed.

Lemma source_metadata_to_attr_total ino m : meta_sane m → is_Some (source_metadata_to_attr ino m).
Proof.
  intros [Ha Hm Hc]. unfold source_metadata_to_attr.
  assert (Hmax : ∀ t, time_ok t → time_ok (Z.max t 0)) by (unfold time_ok, I64_MAX; lia).
  destruct (epoch_plus_total _ (Z.max (atime_nsec m) 0) (Hmax _ Ha)) as [? ->].
  destruct (epoch_plus_total _ (Z.max (mtime_nsec m) 0) (Hmax _ Hm)) as [? ->].
  destruct (epoch_plus_total _ (Z.max (ctime_nsec m) 0) (Hmax _ Hc)) as [? ->]. simpl. eauto.
Qed.

(** *** The database keeps sane rows *)
Lemma alter_rows_sane (f : FileRow → FileRow) key db :
  (∀ r, meta_sane (source r) → meta_sane (source (f r))) →
  rows_sane db → rows_sane (CacheDb.execute (CacheDb.on_files (alter f key)) db).
Proof.
  intros Hf Hdb. unfold CacheDb.execute. destruct (query_only _); [done|]. intros k r. simpl.
  intros [(<- & r0 & Hr & ->)|[_ Hr]]%lookup_alter_Some; [apply Hf|]; by eapply Hdb.
Qed.

Lemma mark_hit_sane now cm p db : rows_sane db → rows_sane (Manager.mark_hit now cm p db).
Proof. intros Hdb. by apply alter_rows_sane. Qed.

Lemma refresh_sane cm p s db :
  stat_sane s → rows_sane db → rows_sane (Manager.refresh_source_metadata cm p s db).
Proof.
  intros [[] [] []] Hdb. unfold Manager.refresh_source_metadata.
  destruct (CacheDb.fingerprint_row _ _ _); [|done].
  destruct (Manager.zero_fingerprint _); [done|]. destruct (negb _); [done|].
  destruct (match _ with Some _ => _ | None => _ end); [done|].
  apply alter_rows_sane; [|done]. intros r _. by split.
Qed.

Lemma source_metadata_sane cm p db m :
  rows_sane db → Manager.source_metadata cm db p = Some m → meta_sane m.
Proof.
  intros Hdb. unfold Manager.source_metadata, CacheDb.source_metadata_row.
  intros (r & Hr & Hm)%bind_Some. case_match; simplify_eq.
  destruct (Hdb _ _ Hr) as [Ha Hmt Hc]. by split.
Qed.

(** *** Safe computations *)
Section safe.
Context {W : Type} `{MapOrder} (sys : syscall → State W reply) (self : FsConfig).
Implicit Types st : FsState W.

Record room (n : nat) st : Prop := {
  room_wf : InodeTable.wf (inodes st);
  room_ino : next_ino (inodes st) + Z.of_nat n < 2 ^ 64;
  room_rows : rows_sane (ssd st).2;
}.

Definition safe {A} (n : nat) (m : FsM W A) (Q : A → Prop) : Prop :=
  ∀ k st, room (n + k) st →
    match m st with
    | (Val a, st') => Q a ∧ room k st'
    | (Fail _, st') | (OutOfFuel, st') => room k st'
    | (Panic, _) => False
    end.

Lemma room_le n n' st : (n <= n')%nat → room n' st → room n st.
Proof. intros Hle []. split; [done|lia|done]. Qed.

Lemma safe_weaken {A} n n' (m : FsM W A) (Q Q' : A → Prop) :
  safe n m Q → (n <= n')%nat → (∀ a, Q a → Q' a) → safe n' m Q'.
Proof.
  intros Hm Hle HQ k st Hr. specialize (Hm (n' - n + k)%nat st).
  replace (n + (n' - n + k))%nat with (n' + k)%nat in Hm by lia. specialize (Hm Hr).
  assert (Hk : ∀ st', room (n' - n + k) st' → room k st') by (intros st'; apply room_le; lia).
  destruct (m st) as [[a|e| |] st']; [destruct Hm; eauto|eauto|done|eauto].
Qed.

Lemma safe_bind {A B} n1 n2 (m : FsM W A) (f : A → FsM W B) (Q : A → Prop) (R : B → Prop) :
  safe n1 m Q → (∀ a, Q a → safe n2 (f a) R) → safe (n1 + n2) (m ≫= f) R.
Proof.
  intros Hm Hf k st Hr. unfold mbind, fs_bind. specialize (Hm (n2 + k)%nat st).
  rewrite Nat.add_assoc in Hm. specialize (Hm Hr).
  assert (Hk : ∀ st', room (n2 + k) st' → room k st') by (intros st'; apply room_le; lia).
  destruct (m st) as [[a|e| |] st']; [|eauto|done|eauto].
  destruct Hm as [HQ Hr']. by apply Hf.
Qed.

Lemma safe_ret {A} (a : A) (Q : A → Prop) : Q a → safe 0 (mret a) Q.
Proof. by intros HQ k st Hr. Qed.

Lemma safe_fail {A} e (Q : A → Prop) : safe 0 (fail (W := W) e) Q.
Proof. by intros k st Hr. Qed.

Lemma safe_of_option {A} e (o : option A) (Q : A → Prop) :
  (∀ a, o = Some a → Q a) → safe 0 (of_option (W := W) e o) Q.
Proof. intros HQ. destruct o; [apply safe_ret; auto|apply safe_fail]. Qed.

Lemma safe_or_panic {A} (o : option A) : is_Some o → safe 0 (or_panic (W := W) o) (λ _, True).
Proof. intros [a ->]. by apply safe_ret. Qed.

Lemma safe_gets {A} (f : FsState W → A) (Q : A → Prop) :
  (∀ st, room 0 st → Q (f st)) → safe 0 (gets f) Q.
Proof. intros HQ k st Hr. split; [apply HQ; eapply room_le, Hr; lia|done]. Qed.

Lemma safe_modify (f : FsState W → FsState W) :
  (∀ k st, room k st → room k (f st)) → safe 0 (modify f) (λ _, True).
Proof. intros Hf k st Hr. split; [done|by apply Hf]. Qed.

(** Changes away from the table and the database. *)
Lemma room_same k st st' : inodes st' = inodes st → ssd st' = ssd st → room k st → room k st'.
Proof. intros Hi Hs []. split; by rewrite ?Hi, ?Hs. Qed.

Lemma safe_lift {A} (m : State W A) (Q : A → Prop) : (∀ w, Q (m w).1) → safe 0 (lift m) Q.
Proof.
  intros HQ k st Hr. unfold lift. specialize (HQ (world st)).
  destruct (m (world st)) as [a w]. split; [done|]. by apply (room_same k st).
Qed.

Lemma safe_try_io {A} (m : State W (result io_error A)) : safe 0 (try_io m) (λ _, True).
Proof.
  apply (safe_bind 0 0 _ _ (λ _, True)); [by apply safe_lift|].
  intros [a|e] _; [by apply safe_ret|apply safe_fail].
Qed.

Lemma safe_path_for_ino ino : safe 0 (path_for_ino (W := W) ino) (λ _, True).
Proof.
  apply (safe_bind 0 0 _ _ (λ _, True)); [by apply safe_gets|]. intros o _. by apply safe_of_option.
Qed.

Lemma safe_child_path parent name : safe 0 (child_path (W := W) parent name) (λ p, p ≠ []).
Proof.
  apply (safe_bind 0 0 _ _ (λ _, True)); [apply safe_path_for_ino|].
  intros p _. apply safe_ret. by destruct p.
Qed.

Lemma safe_get_or_create p : safe 1 (get_or_create (W := W) p) (λ _, True).
Proof.
  intros k st [Hwf Hino Hrows]. unfold get_or_create.
  destruct (InodeFacts.get_or_create_total (inodes st) p) as (t & i & -> & Hwf' & Hle); [done|lia|].
  split; [done|]. split; simpl; [done|lia|done].
Qed.

Lemma safe_table (f : InodeTable → InodeTable) :
  (∀ t, InodeTable.wf t → InodeTable.wf (f t)) → (∀ t, next_ino (f t) = next_ino t) →
  safe 0 (modify (λ st, set_inodes (f (inodes st)) st)) (λ _, True).
Proof. intros Hwf Hn. apply safe_modify. intros k st []. split; simpl; [auto|by rewrite Hn|done]. Qed.

Lemma safe_ssd (f : CacheDb → CacheDb) :
  (∀ db, rows_sane db → rows_sane (f db)) →
  safe 0 (modify (W := W) (λ st, set_ssd ((ssd st).1, f (ssd st).2) st)) (λ _, True).
Proof. intros Hf. apply safe_modify. intros k st []. split; simpl; auto. Qed.

Hypothesis Hkernel : ∀ c w, stat_sane (out_stat (sys c w).1).

Lemma safe_stat_backing p : safe 0 (stat_backing sys p) (λ o, ∀ s, o = Some s → stat_sane s).
Proof.
  apply safe_lift. intros w s. unfold BackingStore.stat, mbind, state_bind.
  assert (Hs : ∀ c, (let '(a, w') := sys c w in
     mret (M := State W) (if rc a =? 0 then Some (out_stat a) else None) w').1 = Some s → stat_sane s).
  { intros c. pose proof (Hkernel c w) as Hc. destruct (sys c w) as [r w']. simpl.
    destruct (rc r =? 0); [|done]. by intros [= <-]. }
  case_decide; apply Hs.
Qed.

(** *** The handlers *)
Lemma safe_step {A B} n (m : FsM W A) (f : A → FsM W B) (Q : A → Prop) (R : B → Prop) :
  safe 0 m Q → (∀ a, Q a → safe n (f a) R) → safe n (m ≫= f) R.
Proof. apply (safe_bind 0 n). Qed.

Lemma safe_alloc {B} n p (f : Z → FsM W B) (R : B → Prop) :
  (∀ i, safe n (f i) R) → safe (S n) (get_or_create p ≫= f) R.
Proof. intros Hf. apply (safe_bind 1 n _ _ (λ _, True)); [apply safe_get_or_create|auto]. Qed.

Lemma safe_none {A} n (m : FsM W A) (Q : A → Prop) : safe 0 m Q → safe n m (λ _, True).
Proof. intros Hm. eapply safe_weaken; [done|lia|done]. Qed.

Lemma safe_lift_any {A} (m : State W A) : safe 0 (lift m) (λ _, True).
Proof. by apply safe_lift. Qed.

Lemma safe_gets_any {A} (f : FsState W → A) : safe 0 (gets f) (λ _, True).
Proof. by apply safe_gets. Qed.

Lemma safe_set_handles b p w a :
  safe 0 (modify (λ st, set_handles (b st) (p st) (w st) (a st) st)) (λ _, True).
Proof. apply safe_modify. intros k st. by apply room_same. Qed.

Lemma safe_attr ino s : stat_sane s → safe 0 (or_panic (stat_to_attr ino s)) (λ _, True).
Proof. intros. by apply safe_or_panic, stat_to_attr_total. Qed.

Lemma safe_some_stat o : (∀ s, o = Some s → stat_sane s) →
  safe 0 (of_option ENOENT o) stat_sane.
Proof. intros. by apply safe_of_option. Qed.

Create HintDb fs_safe.
Hint Resolve safe_ret safe_fail safe_gets_any safe_lift_any safe_try_io safe_path_for_ino
  safe_child_path safe_stat_backing safe_set_handles safe_attr safe_some_stat : fs_safe.

(** One statement of a handler: an allocation, a safe call, or the end. *)
Ltac safe_one :=
  lazymatch goal with
  | |- safe _ (get_or_create _ ≫= _) _ => apply safe_alloc; intros ?
  | |- safe _ (_ ≫= _) _ => eapply safe_step; [solve [eauto with fs_safe]|intros ? ?]
  | |- safe _ (mret _) _ => apply (safe_none _ _ (λ _, True)), safe_ret; exact I
  | |- safe _ (fail _) _ => apply (safe_none _ _ (λ _, True)), safe_fail
  | |- safe _ (let '(_, _) := ?x in _) _ => destruct x
  | |- safe _ (if ?b then _ else _) _ => destruct b
  | |- safe _ (match ?x with Some _ => _ | None => _ end) _ => destruct x
  | |- safe _ _ _ => eapply safe_none; solve [eauto with fs_safe]
  end.
Ltac safe_all := repeat safe_one.

Lemma safe_cached_regular_attr p ino : safe 0 (cached_regular_attr sys self p ino) (λ _, True).
Proof.
  unfold cached_regular_attr. destruct (fs_cache self) as [cm|]; [|by apply safe_ret].
  apply (safe_step 0 _ _ (λ s, rows_sane s.2)); [apply safe_gets; by intros st []|]. intros s Hs.
  destruct (negb _); [by apply safe_ret|].
  destruct (Manager.source_metadata cm s.2 p) as [m|] eqn:Hm.
  - eapply safe_step; [eapply safe_or_panic, source_metadata_to_attr_total, source_metadata_sane; eauto|].
    intros a _. by apply safe_ret.
  - eapply safe_step; [apply safe_stat_backing|]. intros [live|] Hl; [|by apply safe_ret].
    specialize (Hl live eq_refl).
    eapply safe_step; [apply safe_ssd; intros db; by apply refresh_sane|]. intros _ _. safe_all.
Qed.

Lemma safe_fresh_attr p : safe 1 (fresh_attr_for_path sys p) (λ _, True).
Proof. unfold fresh_attr_for_path. safe_all. Qed.

Lemma safe_lookup parent name : safe 1 (do_lookup sys self parent name) (λ _, True).
Proof.
  unfold do_lookup. safe_one. safe_one. eapply safe_step; [apply safe_cached_regular_attr|].
  intros [attr|] _; [safe_all|]. safe_one. safe_one.
  apply (safe_step 0 _ _ (λ _, True)); [|intros _ _; safe_all].
  destruct (_ && _); [|by apply safe_ret]. apply safe_modify. intros k st. by apply room_same.
Qed.

Lemma safe_getattr ino : safe 0 (do_getattr sys self ino) (λ _, True).
Proof.
  unfold do_getattr. safe_one. eapply safe_step; [apply safe_cached_regular_attr|].
  intros [attr|] _; safe_all.
Qed.

Hint Resolve safe_cached_regular_attr : fs_safe.

Lemma safe_suppress now p : safe 0 (should_suppress_log self now p) (λ _, True).
Proof.
  intros k st Hr. unfold should_suppress_log.
  repeat case_match; simplify_eq; (split; [done|by apply (room_same k st)]) || done.
Qed.

Lemma safe_same (f : FsState W → FsState W) :
  (∀ st, inodes (f st) = inodes st ∧ ssd (f st) = ssd st) → safe 0 (modify f) (λ _, True).
Proof. intros Hf. apply safe_modify. intros k st. destruct (Hf st). by apply room_same. Qed.

Lemma safe_try_open now p filtered : safe 0 (try_open sys self now p filtered) (λ _, True).
Proof.
  unfold try_open. safe_one. apply (safe_step 0 _ _ (λ _, True)); [|intros [fd|] _; safe_all].
  destruct (fs_cache self) as [cm|]; [|safe_all]. destruct (negb _ && _); [|safe_all].
  safe_one. destruct (0 <=? rc a0); [|safe_all].
  eapply safe_step; [apply safe_ssd; intros db; apply mark_hit_sane|]. intros _ _. safe_all.
Qed.

Lemma safe_open_write p flags mode : safe 0 (open_write_handle sys p flags mode) (λ _, True).
Proof. unfold open_write_handle. safe_all. Qed.
Hint Resolve safe_suppress safe_try_open safe_open_write : fs_safe.

Lemma safe_open proc now secs req ino flags :
  safe 0 (open sys self proc now secs req ino flags) (λ _, True).
Proof.
  unfold open. safe_one. destruct (is_write_intent flags); [safe_all|].
  safe_one. safe_one. destruct a1 as [fd out].
  apply (safe_step 0 _ _ (λ _, True)); [|intros _ _; safe_all].
  match goal with |- safe _ (match ?x with _ => _ end) _ => destruct x as [event|] end; [|safe_all].
  apply safe_same. intros st. by destruct (engine self).
Qed.

Lemma safe_read fh offset size : safe 0 (do_read sys fh offset size) (λ _, True).
Proof. unfold do_read. safe_all. Qed.

Lemma safe_release fh : safe 0 (release sys self fh) (λ _, True).
Proof.
  unfold release. safe_one. apply (safe_step 0 _ _ (λ _, True)); [|intros _ _; safe_all].
  destruct (write_paths a !! fh); [safe_all|]. apply safe_same. intros st.
  destruct (open_paths a !! fh); [|done]. by destruct (engine self).
Qed.

Lemma safe_dirent d p : safe 0 (dirent_kind sys d p) (λ _, True).
Proof. unfold dirent_kind. repeat (case_match; [by apply safe_ret|]). safe_all. Qed.
Hint Resolve safe_dirent : fs_safe.

Lemma safe_dir_loop fuel dir p out : safe fuel (dir_loop sys fuel dir p out) (λ _, True).
Proof.
  revert out. induction fuel as [|fuel IH]; intros out; cbn [dir_loop]; [by intros k st Hr|].
  safe_one. destruct (rc a =? 0); [safe_all|].
  safe_one; [eapply safe_weaken; [apply IH|lia|done]|].
  safe_one. apply safe_alloc. intros ino. apply IH.
Qed.

Lemma safe_list_dir fuel fd p : safe fuel (list_dir_entries sys fuel fd p) (λ _, True).
Proof.
  unfold list_dir_entries. safe_one. safe_one. safe_one. destruct (rc a1 =? 0); [safe_all|]. safe_one.
  replace fuel with (fuel + 0)%nat at 1 by lia.
  eapply safe_bind; [apply safe_dir_loop|]. intros o _. safe_all.
Qed.

Lemma safe_readdir fuel room ino fh offset :
  safe fuel (do_readdir sys fuel room ino fh offset) (λ _, True).
Proof.
  unfold do_readdir. safe_one. replace fuel with (fuel + 0)%nat at 1 by lia.
  eapply safe_bind; [apply safe_list_dir|]. intros o _. safe_all.
Qed.

Lemma safe_opendir ino : safe 0 (do_opendir sys ino) (λ _, True).
Proof. unfold do_opendir. safe_all. Qed.
Lemma safe_releasedir fh : safe 0 (do_releasedir sys fh) (λ _, True).
Proof. unfold do_releasedir. safe_all. Qed.
Lemma safe_readlink ino : safe 0 (do_readlink sys ino) (λ _, True).
Proof. unfold do_readlink. safe_all. Qed.
Lemma safe_getxattr ino name size : safe 0 (do_getxattr sys self ino name size) (λ _, True).
Proof. unfold do_getxattr. safe_all. Qed.
Lemma safe_listxattr ino size : safe 0 (do_listxattr sys self ino size) (λ _, True).
Proof. unfold do_listxattr. safe_all. Qed.
Lemma safe_statfs : safe 0 (do_statfs sys) (λ _, True).
Proof. unfold do_statfs. safe_all. Qed.
Lemma safe_setxattr ino name value flags pos :
  safe 0 (do_setxattr sys self ino name value flags pos) (λ _, True).
Proof. unfold do_setxattr. safe_all. Qed.
Lemma safe_removexattr ino name : safe 0 (do_removexattr sys self ino name) (λ _, True).
Proof. unfold do_removexattr. safe_all. Qed.
Lemma safe_write fh offset data flags : safe 0 (do_write sys fh offset data flags) (λ _, True).
Proof. unfold do_write. safe_all. Qed.
Lemma safe_fsync fh datasync : safe 0 (do_fsync sys fh datasync) (λ _, True).
Proof. unfold do_fsync. safe_all. Qed.

Lemma safe_requester_owner p req : safe 0 (requester_owner sys p req) (λ _, True).
Proof.
  unfold requester_owner. apply (safe_step 0 _ _ (λ _, True)); [|intros o _; safe_all].
  case_decide; safe_all.
Qed.
Hint Resolve safe_requester_owner : fs_safe.

Lemma safe_chown p req : safe 0 (chown_to_requester sys p req) (λ _, True).
Proof. unfold chown_to_requester. safe_all. Qed.
Lemma safe_fchown fd p req : safe 0 (fchown_to_requester sys fd p req) (λ _, True).
Proof. unfold fchown_to_requester. safe_all. Qed.
Hint Resolve safe_chown safe_fchown : fs_safe.

Lemma safe_entry_reply p : safe 1 (entry_reply sys p) (λ _, True).
Proof.
  unfold entry_reply. apply (safe_bind 1 0 _ _ (λ _, True)); [apply safe_fresh_attr|].
  intros [? ?] _. safe_all.
Qed.
Hint Resolve safe_entry_reply : fs_safe.

(** The end of a handler that allocates the inode of its reply. *)
Lemma safe_step1 {A B} (m : FsM W A) (f : A → FsM W B) (Q : A → Prop) (R : B → Prop) :
  safe 0 m Q → (∀ a, Q a → safe 1 (f a) R) → safe 1 (m ≫= f) R.
Proof. apply safe_step. Qed.

Lemma safe_mknod req parent name mode umask rdev :
  safe 1 (do_mknod sys req parent name mode umask rdev) (λ _, True).
Proof. unfold do_mknod. safe_one. safe_one. safe_one. apply safe_entry_reply. Qed.
Lemma safe_mkdir req parent name mode umask :
  safe 1 (do_mkdir sys req parent name mode umask) (λ _, True).
Proof. unfold do_mkdir. safe_one. safe_one. safe_one. apply safe_entry_reply. Qed.
Lemma safe_symlink req parent name target :
  safe 1 (do_symlink sys req parent name target) (λ _, True).
Proof. unfold do_symlink. safe_one. safe_one. safe_one. apply safe_entry_reply. Qed.
Lemma safe_link ino newparent newname : safe 1 (do_link sys ino newparent newname) (λ _, True).
Proof. unfold do_link. safe_one. safe_one. safe_one. apply safe_entry_reply. Qed.

Lemma safe_unlink parent name : safe 0 (do_unlink sys parent name) (λ _, True).
Proof.
  unfold do_unlink. safe_one. safe_one. apply (safe_table (λ t, InodeTable.remove_path t a)).
  - intros t. apply InodeFacts.wf_remove_path.
  - intros t. apply InodeFacts.next_ino_remove_path.
Qed.

Lemma safe_rmdir parent name : safe 0 (do_rmdir sys parent name) (λ _, True).
Proof.
  unfold do_rmdir. safe_one. safe_one. apply (safe_table (λ t, InodeTable.remove_subtree t a)).
  - intros t. apply InodeFacts.wf_remove_subtree.
  - intros t. apply InodeFacts.next_ino_remove_subtree.
Qed.

Lemma safe_rename parent name newparent newname flags :
  safe 0 (do_rename sys parent name newparent newname flags) (λ _, True).
Proof.
  unfold do_rename. safe_one. safe_one. safe_one.
  apply (safe_table (λ t, InodeTable.rename_path t a a0)).
  - intros t Ht. by apply InodeFacts.wf_rename_path.
  - intros t. apply InodeFacts.next_ino_rename_path.
Qed.

Lemma safe_forget ino n : safe 0 (forget ino n) (λ _, True).
Proof.
  apply (safe_table (λ t, InodeTable.forget t ino n)).
  - intros t. apply InodeFacts.wf_forget.
  - intros t. apply InodeFacts.next_ino_forget.
Qed.

Lemma safe_when_some {A} (o : option A) (f : A → FsM W unit) :
  (∀ a, safe 0 (f a) (λ _, True)) → safe 0 (when_some o f) (λ _, True).
Proof. intros Hf. destruct o; [apply Hf|by apply safe_ret]. Qed.

Lemma safe_setattr now ino mode uid gid size atime mtime fh :
  safe 0 (do_setattr sys self now ino mode uid gid size atime mtime fh) (λ _, True).
Proof.
  unfold do_setattr. safe_one.
  apply (safe_step 0 _ _ (λ _, True)); [apply safe_when_some; intros ?; safe_all|intros _ _].
  apply (safe_step 0 _ _ (λ _, True)); [destruct uid, gid; safe_all|intros _ _].
  apply (safe_step 0 _ _ (λ _, True)).
  { apply safe_when_some. intros n. destruct fh; safe_all. }
  intros _ _. apply (safe_step 0 _ _ (λ _, True)); [destruct atime, mtime; safe_all|intros _ _].
  safe_one. eapply safe_step; [by apply safe_some_stat|]. intros live Hlive.
  apply (safe_step 0 _ _ (λ _, True)); [|intros _ _; safe_all].
  apply safe_modify. intros k st Hr. destruct (fs_cache self) as [cm|]; [|done].
  destruct (Manager.is_cached _ _ _); [|done]. destruct Hr. split; simpl; [done|done|].
  by apply refresh_sane.
Qed.

Lemma safe_create_handle p mode umask flags : safe 0 (create_handle sys p mode umask flags) (λ _, True).
Proof.
  intros k st Hr. unfold create_handle.
  pose proof (safe_open_write p (Z.lor (Z.lor flags O_CREAT) O_EXCL) (apply_umask mode umask) k st Hr) as Ho.
  by destruct (open_write_handle _ _ _ _ _) as [[a|e| |] st'].
Qed.
Hint Resolve safe_create_handle : fs_safe.

Lemma safe_undo_create fd p e : safe 0 (undo_create sys fd p e) (λ _, True).
Proof. unfold undo_create. safe_all. Qed.

Lemma safe_finish_create fd p : safe 1 (finish_create sys fd p) (λ _, True).
Proof.
  intros k st Hr. unfold finish_create. pose proof (safe_fresh_attr p k st Hr) as Hf.
  destruct (fresh_attr_for_path sys p st) as [[[i attr]|e| |] st']; [by destruct Hf| |done|done].
  by apply (safe_undo_create fd p e k st').
Qed.

Lemma safe_create req parent name mode umask flags :
  safe 1 (do_create sys req parent name mode umask flags) (λ _, True).
Proof. unfold do_create. safe_one. safe_one. safe_one. apply safe_finish_create. Qed.

Lemma safe_respond {A} n (r : A → FsReply) m :
  safe n m (λ _, True) → safe n (respond r m) (λ _, True).
Proof.
  intros Hm. replace n with (n + 0)%nat by lia. eapply safe_bind; [exact Hm|].
  intros a _. by apply safe_ret.
Qed.

Lemma safe_serve amb rq : safe (1 + stream_fuel amb) (serve sys self amb rq) (λ _, True).
Proof.
  assert (H0 : ∀ {A} n (r : A → FsReply) m, (n <= 1 + stream_fuel amb)%nat → safe n m (λ _, True) →
    safe (1 + stream_fuel amb) (respond r m) (λ _, True)).
  { intros A n r m Hle Hm. eapply safe_weaken; [by apply safe_respond|done|done]. }
  destruct rq; cbn [serve]; try (eapply H0; [|by auto using safe_lookup, safe_mknod, safe_mkdir,
    safe_symlink, safe_link, safe_create, safe_readdir, safe_forget, safe_getattr, safe_setattr,
    safe_unlink, safe_rmdir, safe_rename, safe_open, safe_read, safe_write, safe_fsync, safe_release,
    safe_opendir, safe_releasedir, safe_readlink, safe_setxattr, safe_getxattr, safe_listxattr,
    safe_removexattr, safe_statfs]; simpl; lia).
  apply (safe_none _ _ (λ _, True)). by apply safe_ret.
Qed.
End safe.
End FuseSafe.

Module FuseSafeTheorems.
Import FsCache FuseSafe.

(** C6. No request panics a mount: when the kernel reports timestamps from 1970 to (almost) the
    end of 64-bit time, the rows of the cache hold such timestamps, the inode table is well
    formed and inode numbers are not exhausted, every request is answered or refused without a
    panic, with the table well formed and the rows in range again, whatever the system calls
    return and in whatever hash order. *)
Theorem no_request_panics {W} `{MapOrder} (sys : syscall → State W reply) self amb rq st :
  (∀ c w, stat_sane (out_stat (sys c w).1)) →
  InodeTable.wf (inodes st) → rows_sane (ssd st).2 →
  next_ino (inodes st) + Z.of_nat (stream_fuel amb) + 1 < 2 ^ 64 →
  let '(o, st') := serve sys self amb rq st in
  o ≠ Panic ∧ InodeTable.wf (inodes st') ∧ rows_sane (ssd st').2.
Proof.
  intros Hk Hwf Hrows Hino.
  assert (Hroom : room (1 + stream_fuel amb + 0) st) by (split; [done|lia|done]).
  pose proof (safe_serve sys self Hk amb rq 0%nat st Hroom) as Hs.
  destruct (serve sys self amb rq st) as [[a|e| |] st']; [destruct Hs as [_ []]|destruct Hs|done|destruct Hs];
    by split_and!.
Qed.
End FuseSafeTheorems.
