(* ===== verification/FuseSpec.v ===== *)
(** * What the FUSE handlers promise

    Properties of [Fuse]: a refused request leaves the mount as it was, the handle maps deliver
    to the engine what was read through each handle; with the concrete runs that show where the
    handlers fall short. *)
From S2P Require Import Prelude Paths Backing Disk Inode Db Manager CacheIo Preset Engine Fuse FuseSafe.

Module FuseSpec.
Import FsCache.
Section frame.
Context {W : Type} `{MapOrder} (sys : syscall → State W reply) (self : FsConfig).
Implicit Types st : FsState W.

(** Nothing the mount remembers has changed, the handles open for writing and the suppressed log
    lines apart. *)
Record same st st' : Prop := {
  same_inodes : inodes st' = inodes st; same_ssd : ssd st' = ssd st; same_sent : sent st' = sent st;
  same_touched : touched st' = touched st; same_bytes : open_bytes st' = open_bytes st;
  same_paths : open_paths st' = open_paths st;
}.

Lemma same_refl st : same st st. Proof. done. Qed.
Lemma same_trans st1 st2 st3 : same st1 st2 → same st2 st3 → same st1 st3.
Proof. intros [] []. split; congruence. Qed.

(** [m] changes nothing; [m] changes nothing when it fails; [m] does not fail. *)
Definition still {A} (m : FsM W A) : Prop := ∀ st, same st (m st).2.
Definition clean {A} (m : FsM W A) : Prop := ∀ st e st', m st = (Fail e, st') → same st st'.
Definition sure {A} (m : FsM W A) : Prop := ∀ st e st', m st ≠ (Fail e, st').

Lemma still_clean {A} (m : FsM W A) : still m → clean m.
Proof. intros Hm st e st' Heq. specialize (Hm st). by rewrite Heq in Hm. Qed.
Lemma sure_clean {A} (m : FsM W A) : sure m → clean m.
Proof. intros Hm st e st' Heq. by destruct (Hm st e st'). Qed.

Lemma still_bind {A B} (m : FsM W A) (f : A → FsM W B) :
  still m → (∀ a, still (f a)) → still (m ≫= f).
Proof.
  intros Hm Hf st. unfold mbind, fs_bind. specialize (Hm st).
  destruct (m st) as [[a|e| |] st']; try done. simpl in *. by eapply same_trans, Hf.
Qed.

Lemma clean_bind {A B} (m : FsM W A) (f : A → FsM W B) :
  still m → (∀ a, clean (f a)) → clean (m ≫= f).
Proof.
  intros Hm Hf st e st'. unfold mbind, fs_bind. specialize (Hm st).
  destruct (m st) as [[a|e'| |] st1]; simpl in *; [|congruence|done|done].
  intros Heq. eapply same_trans, Hf; eauto.
Qed.

Lemma clean_bind_sure {A B} (m : FsM W A) (f : A → FsM W B) :
  clean m → (∀ a, sure (f a)) → clean (m ≫= f).
Proof.
  intros Hm Hf st e st'. unfold mbind, fs_bind.
  destruct (m st) as [[a|e'| |] st1] eqn:Heq; [|intros [= <- <-]; eauto|done|done].
  intros Hx. by apply Hf in Hx.
Qed.

Lemma sure_bind {A B} (m : FsM W A) (f : A → FsM W B) : sure m → (∀ a, sure (f a)) → sure (m ≫= f).
Proof.
  intros Hm Hf st e st'. unfold mbind, fs_bind.
  destruct (m st) as [[a|e'| |] st1] eqn:Heq; [|by apply Hm in Heq|done|done]. apply Hf.
Qed.

Lemma still_lift {A} (m : State W A) : still (lift m).
Proof. intros st. unfold lift. by destruct (m (world st)). Qed.
Lemma still_ret {A} (a : A) : still (mret a). Proof. by intros st. Qed.
Lemma still_gets {A} (f : FsState W → A) : still (gets f). Proof. by intros st. Qed.
Lemma still_fail {A} e : still (A := A) (fail e). Proof. by intros st. Qed.
Lemma still_of_option {A} e (o : option A) : still (of_option e o). Proof. by destruct o. Qed.
Lemma still_or_panic {A} (o : option A) : still (or_panic o). Proof. by destruct o. Qed.
Lemma still_try_io {A} (m : State W (result io_error A)) : still (try_io m).
Proof. apply still_bind; [apply still_lift|]. by intros []. Qed.
Lemma still_path_for_ino ino : still (path_for_ino ino).
Proof. apply still_bind; [apply still_gets|intros; apply still_of_option]. Qed.
Lemma still_child_path parent name : still (child_path parent name).
Proof. apply still_bind; [apply still_path_for_ino|intros; apply still_ret]. Qed.
Lemma still_stat p : still (stat_backing sys p). Proof. apply still_lift. Qed.
Lemma still_write_maps w a :
  still (modify (λ st, set_handles (open_bytes st) (open_paths st) (w st) (a st) st)).
Proof. by intros st. Qed.
Lemma still_suppress now p : still (should_suppress_log self now p).
Proof. intros st. unfold should_suppress_log. by repeat case_match; simplify_eq. Qed.

Lemma sure_ret {A} (a : A) : sure (mret a). Proof. by intros st e st'. Qed.
Lemma sure_modify f : sure (modify f). Proof. by intros st e st'. Qed.
Lemma sure_lift {A} (m : State W A) : sure (lift m).
Proof. intros st e st'. unfold lift. by destruct (m (world st)). Qed.
Lemma sure_gets {A} (f : FsState W → A) : sure (gets f). Proof. by intros st e st'. Qed.
Lemma sure_or_panic {A} (o : option A) : sure (or_panic o). Proof. by destruct o; intros st e st'. Qed.
Lemma sure_get_or_create p : sure (get_or_create p).
Proof. intros st e st'. unfold get_or_create. by case_match; [case_match|]. Qed.
Lemma sure_stat p : sure (stat_backing sys p). Proof. apply sure_lift. Qed.

Create HintDb fs_frame.
Hint Resolve still_lift still_ret still_gets still_fail still_of_option still_or_panic still_try_io
  still_path_for_ino still_child_path still_stat still_write_maps still_suppress
  sure_ret sure_modify sure_lift sure_gets sure_or_panic sure_get_or_create sure_stat : fs_frame.

Ltac frame_one :=
  lazymatch goal with
  | |- _ (let '(_, _) := ?x in _) => destruct x
  | |- _ (if ?b then _ else _) => destruct b
  | |- _ (match ?x with Some _ => _ | None => _ end) => destruct x
  | |- still (_ ≫= _) => apply still_bind; [|intros ?]
  | |- sure (_ ≫= _) => apply sure_bind; [|intros ?]
  | |- clean (_ ≫= _) =>
      first [apply sure_clean; solve [repeat frame_one]
            |apply clean_bind; [solve [repeat frame_one]|intros ?]
            |apply clean_bind_sure; [|intros ?; solve [repeat frame_one]]]
  | |- clean _ => first [apply still_clean; solve [eauto with fs_frame]
                        |apply sure_clean; solve [eauto with fs_frame]|solve [eauto with fs_frame]]
  | |- _ => solve [eauto with fs_frame]
  end.
Ltac frame := repeat frame_one.

(** *** Handlers that are still, sure or clean *)
Lemma still_open_write p flags mode : still (open_write_handle sys p flags mode).
Proof. unfold open_write_handle. frame. Qed.

(** A computation that may answer from the cache, or decline having changed nothing. *)
Definition declines {A} (m : FsM W (option A)) : Prop :=
  sure m ∧ ∀ st st', m st = (Val None, st') → same st st'.

Lemma clean_bind_declines {A B} (m : FsM W (option A)) (f : A → FsM W B) (g : FsM W B) :
  declines m → (∀ a, sure (f a)) → clean g →
  clean (m ≫= λ o, match o with Some a => f a | None => g end).
Proof.
  intros [Hs Hm] Hf Hg st e st'. unfold mbind, fs_bind.
  destruct (m st) as [[[a|]|e'| |] st1] eqn:Heq; [|..|by apply Hs in Heq|done|done].
  - intros Hx. by apply Hf in Hx.
  - intros Hx. eapply same_trans; [by apply Hm|by eapply Hg].
Qed.

Lemma declines_cached_attr p ino : declines (cached_regular_attr sys self p ino).
Proof.
  split; [unfold cached_regular_attr; destruct (fs_cache self); frame|].
  intros st st'. unfold cached_regular_attr.
  destruct (fs_cache self) as [cm|]; [|by intros [= <-]].
  unfold mbind, fs_bind, gets. cbn iota beta. destruct (negb _); [by intros [= <-]|].
  destruct (Manager.source_metadata _ _ _) as [m|].
  - destruct (source_metadata_to_attr ino m); simpl; intros Heq; discriminate Heq.
  - pose proof (still_stat p st) as Hst. destruct (stat_backing sys p st) as [[[live|]|?| |] st1];
      [|by intros [= <-]|done..].
    simpl. destruct (stat_to_attr ino live); simpl; intros Heq; discriminate Heq.
Qed.

Lemma clean_try_open now p filtered : clean (try_open sys self now p filtered).
Proof.
  unfold try_open. apply clean_bind; [apply still_gets|]. intros s.
  apply clean_bind_declines; [|intros; frame|frame].
  split; [destruct (fs_cache self); frame|]. intros st st'.
  destruct (fs_cache self) as [cm|]; [|by intros [= <-]].
  destruct (negb _ && _); [|by intros [= <-]].
  unfold mbind, fs_bind. pose proof (still_lift (sys (Open (abs_to_cstring (Manager.cache_path cm p)) O_RDONLY)) st) as Hst.
  destruct (lift _ st) as [[r|?| |] st1]; [|done..].
  destruct (0 <=? rc r); [|by intros [= <-]]. simpl. intros Heq. discriminate Heq.
Qed.

Lemma clean_getattr ino : clean (do_getattr sys self ino).
Proof.
  unfold do_getattr. apply clean_bind; [apply still_path_for_ino|]. intros p.
  apply clean_bind_declines; [apply declines_cached_attr|intros; apply sure_ret|frame].
Qed.

Lemma clean_open proc now secs req ino flags : clean (open sys self proc now secs req ino flags).
Proof.
  unfold open. apply clean_bind; [apply still_path_for_ino|]. intros p.
  destruct (is_write_intent flags); [pose proof still_open_write; frame|].
  apply clean_bind; [apply still_suppress|]. intros b.
  apply clean_bind_sure; [apply clean_try_open|]. intros [fd out]. frame.
Qed.

Lemma still_requester_owner p req : still (requester_owner sys p req).
Proof. unfold requester_owner. frame. Qed.
Hint Resolve still_requester_owner : fs_frame.
Lemma still_chown p req : still (chown_to_requester sys p req).
Proof. unfold chown_to_requester. frame. Qed.
Lemma still_fchown fd p req : still (fchown_to_requester sys fd p req).
Proof. unfold fchown_to_requester. frame. Qed.
Lemma clean_fresh_attr p : clean (fresh_attr_for_path sys p).
Proof. unfold fresh_attr_for_path. frame. Qed.
Hint Resolve still_chown still_fchown still_open_write clean_fresh_attr clean_getattr clean_open : fs_frame.
Lemma clean_entry_reply p : clean (entry_reply sys p).
Proof. unfold entry_reply. frame. Qed.
Hint Resolve clean_entry_reply : fs_frame.

Lemma still_undo_create fd p e : still (undo_create sys fd p e).
Proof. unfold undo_create. frame. Qed.

Lemma clean_finish_create fd p : clean (finish_create sys fd p).
Proof.
  intros st e st'. unfold finish_create.
  destruct (fresh_attr_for_path sys p st) as [[[i a]|e'| |] st1] eqn:Heq; try done.
  intros Hu. apply clean_fresh_attr in Heq. eapply same_trans; [exact Heq|].
  pose proof (still_undo_create fd p e' st1) as Hs. by rewrite Hu in Hs.
Qed.

Lemma still_create_handle p mode umask flags : still (create_handle sys p mode umask flags).
Proof.
  intros st. unfold create_handle.
  pose proof (still_open_write p (Z.lor (Z.lor flags O_CREAT) O_EXCL) (apply_umask mode umask) st) as Hs.
  by destruct (open_write_handle _ _ _ _ _) as [[?|?| |] ?].
Qed.
Hint Resolve clean_finish_create still_create_handle : fs_frame.

Lemma sure_dir_loop fuel dir p out : sure (dir_loop sys fuel dir p out).
Proof.
  revert out. induction fuel as [|fuel IH]; intros out; cbn [dir_loop]; [by intros st e st'|].
  assert (Hd : ∀ d q, sure (dirent_kind sys d q)) by (intros; unfold dirent_kind; frame).
  frame.
Qed.
Hint Resolve sure_dir_loop : fs_frame.

Lemma clean_setattr now ino mode uid gid size atime mtime fh :
  clean (do_setattr sys self now ino mode uid gid size atime mtime fh).
Proof.
  unfold do_setattr, when_some.
  apply clean_bind; [frame|intros p]. apply clean_bind; [frame|intros _].
  apply clean_bind; [destruct uid, gid; frame|intros _]. apply clean_bind; [frame|intros _].
  apply clean_bind; [destruct atime, mtime; frame|intros _].
  apply clean_bind; [frame|intros o]. apply clean_bind; [frame|intros s]. frame.
Qed.

Lemma clean_respond {A} (r : A → FsReply) m : clean m → clean (respond r m).
Proof. intros Hm. apply clean_bind_sure; [done|]. intros a. apply sure_ret. Qed.

Definition is_lookup (rq : FsRequest) : bool := match rq with Lookup _ _ => true | _ => false end.

Lemma clean_serve amb rq : is_lookup rq = false → clean (serve sys self amb rq).
Proof.
  destruct rq; intros Hl; try done; cbn [serve]; try apply clean_respond; auto using clean_setattr with fs_frame.
  - unfold do_mknod. frame.
  - unfold do_mkdir. frame.
  - unfold do_unlink. frame.
  - unfold do_rmdir. frame.
  - unfold do_symlink. frame.
  - unfold do_rename. frame.
  - unfold do_link. frame.
  - unfold do_read. frame.
  - unfold do_write. frame.
  - unfold do_fsync. frame.
  - unfold release. apply sure_clean. frame.
  - unfold do_opendir. frame.
  - unfold do_readdir, list_dir_entries. frame.
  - unfold do_releasedir. frame.
  - unfold do_readlink. frame.
  - unfold do_create. frame.
  - unfold do_setxattr. frame.
  - unfold do_getxattr. frame.
  - unfold do_listxattr. frame.
  - unfold do_removexattr. frame.
  - unfold do_statfs. frame.
Qed.
End frame.
End FuseSpec.

(** ** What a handle has read *)
Module Handles.
Import FsCache FuseSpec.
Section handles.
Context {W : Type} `{MapOrder} (sys : syscall → State W reply) (self : FsConfig) (amb : Ambient).
Implicit Types st : FsState W.

Fixpoint run_requests (rqs : list FsRequest) st : list (outcome FsReply) * FsState W :=
  match rqs with
  | [] => ([], st)
  | rq :: rqs' =>
      let '(o, st1) := serve sys self amb rq st in
      let '(os, st2) := run_requests rqs' st1 in (o :: os, st2)
  end.

(** The bytes one answered request delivered through [fh]. *)
Definition delivered (fh : Z) (rq : FsRequest) (o : outcome FsReply) : Z :=
  match rq, o with
  | Read fh' _ _, Val (RData d) => if decide (fh' = fh) then Z.of_nat (String.length d) else 0
  | _, _ => 0
  end.

Definition total (fh : Z) (rqs : list FsRequest) (os : list (outcome FsReply)) : Z :=
  sum_Z (zip_with (delivered fh) rqs os).

(** Reads through any handle and releases of others. *)
Definition keeps_handle (fh : Z) (rq : FsRequest) : Prop :=
  match rq with Read _ _ _ => True | Release fh' => fh' ≠ fh | _ => False end.

Lemma length_substring n s : (n <= String.length s)%nat → String.length (String.substring 0 n s) = n.
Proof.
  revert s. induction n as [|n IH]; intros s Hn; destruct s as [|c s]; simpl in *; try lia; try done.
  by rewrite IH by lia.
Qed.

Lemma delivered_nonneg fh rq o : 0 <= delivered fh rq o.
Proof. destruct rq, o as [[]|e| |]; simpl; try lia. case_decide; lia. Qed.

Lemma total_nonneg fh rqs os : 0 <= total fh rqs os.
Proof.
  apply sum_Z_nonneg, Forall_forall. intros z Hz.
  apply elem_of_lookup_zip_with in Hz as (i & rq & o & -> & _). apply delivered_nonneg.
Qed.

(** The read contract: the kernel fills at least as many bytes as it reports. *)
Hypothesis Hread : ∀ fh size off w,
  rc (sys (Pread fh size off) w).1 <= Z.of_nat (String.length (out_bytes (sys (Pread fh size off) w).1)).

Lemma handle_step fh rq st b p :
  keeps_handle fh rq → open_bytes st !! fh = Some b → open_paths st !! fh = Some p → 0 <= b →
  let '(o, st') := serve sys self amb rq st in
  b + delivered fh rq o < 2 ^ 64 →
  open_bytes st' !! fh = Some (b + delivered fh rq o) ∧ open_paths st' !! fh = Some p ∧
  (write_paths st !! fh = None → write_paths st' !! fh = None).
Proof.
  intros Hk Hb Hp Hnn. destruct rq as [| | | | | | | | | | | |fh' off size| | | |fh'| | | | | | | | | |]; try done.
  - cbn [serve]. unfold respond, do_read, mbind, fs_bind, lift.
    pose proof (Hread fh' size (as_i64 off) (world st)) as Hr.
    destruct (sys (Pread fh' size (as_i64 off)) (world st)) as [r w]. simpl in Hr.
    destruct (Z.ltb_spec (rc r) 0); simpl.
    { intros _. rewrite Z.add_0_r. split_and!; done. }
    rewrite length_substring by lia. rewrite Z2Nat.id by lia. intros Hlt. split_and!; [|done|done].
    destruct (decide (fh' = fh)) as [-> |Hne].
    + rewrite lookup_alter_eq, Hb. simpl. by rewrite u64_add_small by lia.
    + rewrite lookup_alter_ne by done. rewrite Hb. f_equal. lia.
  - simpl in Hk. cbn [serve]. unfold respond, release, mbind, fs_bind, gets, modify, lift. simpl.
    destruct (write_paths st !! fh') as [wp|]; simpl.
    + destruct (sys (Backing.Close fh') (world st)). simpl. intros _. rewrite Z.add_0_r.
      split_and!; [done|done|]. intros Hn. by rewrite lookup_delete_ne.
    + destruct (open_paths st !! fh'), (engine self); simpl;
        destruct (sys (Backing.Close fh') (world st)); simpl; intros _; rewrite Z.add_0_r;
        rewrite !lookup_delete_ne by done; done.
Qed.

Lemma handle_run fh rqs st b p :
  Forall (keeps_handle fh) rqs → open_bytes st !! fh = Some b → open_paths st !! fh = Some p → 0 <= b →
  write_paths st !! fh = None →
  let '(os, st') := run_requests rqs st in
  b + total fh rqs os < 2 ^ 64 →
  open_bytes st' !! fh = Some (b + total fh rqs os) ∧ open_paths st' !! fh = Some p ∧
  write_paths st' !! fh = None.
Proof.
  intros Hk. revert st b. induction Hk as [|rq rqs Hrq Hk IH]; intros st b Hb Hp Hnn Hw; simpl.
  { intros _. unfold total. simpl. rewrite Z.add_0_r. done. }
  pose proof (handle_step fh rq st b p Hrq Hb Hp Hnn) as Hstep.
  destruct (serve sys self amb rq st) as [o st1].
  destruct (run_requests rqs st1) as [os st2] eqn:Hrun. intros Hlt.
  unfold total in *. simpl in *. pose proof (total_nonneg fh rqs os) as Ht. unfold total in Ht.
  pose proof (delivered_nonneg fh rq o).
  destruct Hstep as (Hb1 & Hp1 & Hw1); [lia|].
  specialize (IH st1 (b + delivered fh rq o) Hb1 Hp1 ltac:(lia) (Hw1 Hw)). rewrite Hrun in IH.
  rewrite Z.add_assoc. apply IH. lia.
Qed.

Lemma bind_val {A B} (m : FsM W A) (f : A → FsM W B) st b st' :
  (m ≫= f) st = (Val b, st') → ∃ a st1, m st = (Val a, st1) ∧ f a st1 = (Val b, st').
Proof. unfold mbind, fs_bind. destruct (m st) as [[a|e| |] st1]; [eauto|done..]. Qed.

(** Steps of an open that do not touch the handle maps. *)
Definition quiet st st' : Prop :=
  sent st' = sent st ∧ open_bytes st' = open_bytes st ∧ open_paths st' = open_paths st ∧
  write_paths st' = write_paths st.

Lemma quiet_suppress now p b st st' : should_suppress_log self now p st = (Val b, st') → quiet st st'.
Proof. unfold should_suppress_log. intros Hs. repeat case_match; simplify_eq; done. Qed.

Lemma quiet_lift {A} (m : State W A) a st st' : lift m st = (Val a, st') → quiet st st'.
Proof. unfold lift. destruct (m (world st)). by intros [= _ <-]. Qed.

Lemma quiet_try_io {A} (m : State W (result io_error A)) a st st' : try_io m st = (Val a, st') → quiet st st'.
Proof.
  intros (r & st1 & Hl%quiet_lift & Hr)%bind_val. destruct r; [by injection Hr as _ <-|discriminate Hr].
Qed.

Lemma quiet_try_open now p filtered r st st' : try_open sys self now p filtered st = (Val r, st') → quiet st st'.
Proof.
  unfold try_open. intros (s & st1 & [= <- <-] & Ht)%bind_val.
  apply bind_val in Ht as (hit & st2 & Hh & Ht).
  assert (Hq : quiet st st2).
  { clear Ht. destruct (fs_cache self) as [cm|]; [|by injection Hh as _ <-].
    destruct (negb _ && _); [|by injection Hh as _ <-].
    apply bind_val in Hh as (x & st3 & Hl%quiet_lift & Hh). destruct (0 <=? rc x); [|by injection Hh as _ <-].
    apply bind_val in Hh as (y & st4 & [= _ <-] & [= _ <-]). done. }
  destruct hit as [fd|]; [by injection Ht as _ <-|].
  apply bind_val in Ht as (fd & st3 & Hio%quiet_try_io & Ht). injection Ht as _ <-.
  unfold quiet in *. naive_solver congruence.
Qed.

(** A read-only open that told the engine left the handle in both maps. *)
Lemma open_tracks ino flags st fh st1 :
  engine self = true → is_write_intent flags = false →
  serve sys self amb (OpenFile ino flags) st = (Val (ROpened fh), st1) → sent st1 ≠ sent st →
  ∃ p, InodeTable.get_path (inodes st) ino = Some p ∧
    (sent st1 = sent st ++ [ActionEngine.hit p] ∨ sent st1 = sent st ++ [ActionEngine.miss p]) ∧
    open_bytes st1 !! fh = Some 0 ∧ open_paths st1 !! fh = Some p ∧ write_paths st1 = write_paths st.
Proof.
  intros He Hw (fh' & st2 & Ho & [= <- <-])%bind_val Hne. unfold open in Ho. rewrite Hw in Ho.
  apply bind_val in Ho as (p & st3 & Hp & Ho).
  apply bind_val in Hp as (o & st4 & [= <- <-] & Hp).
  exists p. destruct (InodeTable.get_path (inodes st) ino) as [p'|]; [|done].
  injection Hp as -> <-. split; [done|].
  apply bind_val in Ho as (b & st5 & Hs%quiet_suppress & Ho).
  apply bind_val in Ho as ([fd out] & st6 & Ht%quiet_try_open & Ho).
  apply bind_val in Ho as ([] & st7 & Hev & Ho). apply bind_val in Ho as ([] & st8 & [= <-] & [= <- <-]).
  simpl in *. rewrite lookup_insert_eq. unfold quiet in *.
  destruct Hs as (S1 & S2 & S3 & S4), Ht as (T1 & T2 & T3 & T4).
  match type of Hev with match ?x with _ => _ end _ = _ =>
    assert (Hx : x = None ∨ x = Some (ActionEngine.hit p) ∨ x = Some (ActionEngine.miss p))
      by (repeat case_match; auto); destruct x as [ev|]; [|injection Hev as <-; simpl in Hne; congruence] end.
  rewrite He in Hev. injection Hev as <-. simpl in *. rewrite lookup_insert_eq.
  split_and!; [|done|done|congruence].
  destruct Hx as [? |[Hx|Hx]]; simplify_eq; [left|right]; congruence.
Qed.

(** C19. What was read through a handle reaches the engine: a read-only open that notifies the
    engine reports one hit or miss of the path of its inode; and when the handle is released,
    after any reads through it and through others and any releases of others, the engine is told
    one close of that path, with exactly the bytes the reads through this handle delivered. *)
Theorem close_reports_what_was_read ino flags st fh st1 rqs :
  engine self = true → is_write_intent flags = false → write_paths st !! fh = None →
  serve sys self amb (OpenFile ino flags) st = (Val (ROpened fh), st1) → sent st1 ≠ sent st →
  Forall (keeps_handle fh) rqs →
  let '(os, st2) := run_requests rqs st1 in
  total fh rqs os < 2 ^ 64 →
  ∃ p, InodeTable.get_path (inodes st) ino = Some p ∧
    (sent st1 = sent st ++ [ActionEngine.hit p] ∨ sent st1 = sent st ++ [ActionEngine.miss p]) ∧
    let st3 := (serve sys self amb (Release fh) st2).2 in
    sent st3 = sent st2 ++ [ActionEngine.close p (total fh rqs os)] ∧
    open_bytes st3 !! fh = None ∧ open_paths st3 !! fh = None.
Proof.
  intros He Hw Hwp Ho Hne Hk.
  destruct (open_tracks ino flags st fh st1 He Hw Ho Hne) as (p & Hp & Hs & Hb & Hpath & Hwps).
  assert (Hwp1 : write_paths st1 !! fh = None) by (by rewrite Hwps).
  pose proof (handle_run fh rqs st1 0 p Hk Hb Hpath ltac:(lia) Hwp1) as Hrun.
  destruct (run_requests rqs st1) as [os st2]. intros Hlt. destruct Hrun as (Hb2 & Hp2 & Hw2); [lia|].
  exists p. split; [done|]. split; [done|]. cbn [serve].
  unfold respond, release, mbind, fs_bind, gets, modify, lift. simpl.
  rewrite Hw2, Hb2, Hp2, He. simpl.
  destruct (sys (Backing.Close fh) (world st2)). simpl. rewrite !lookup_delete_eq. done.
Qed.
End handles.
End Handles.

Module FuseTheorems.
Import FsCache FuseSpec.


(** ** Concrete mounts *)
Definition a_stat (mtime : Z) : stat := mkStat 33188 1 0 0 0 3 512 1 100 0 mtime 0 100 0.

(** A kernel that finds every file, reads three bytes and opens descriptor 7. *)
Definition kind_kernel (c : syscall) : State unit reply := λ w,
  (match c with
   | Openat _ _ _ | Open _ _ => mkReply 7 0 (a_stat 100) "" []
   | Pread _ _ _ => mkReply 3 0 (a_stat 100) "xyz" []
   | _ => mkReply 0 0 (a_stat 100) "" []
   end, w).

(** A kernel that finds nothing. *)
Definition empty_kernel (c : syscall) : State unit reply := λ w, (mkReply (-1) ENOENT (a_stat 100) "" [], w).

Definition plain_config (cm : option CacheManager) : FsConfig := mkFsConfig 3 false cm true 0 None true.
Definition quiet_proc : ProcFs := mkProcFs (λ _, None) (λ _, None) (λ _, None).
Definition some_ambient : Ambient := mkAmbient quiet_proc 0 (1000, 0) (mkRequest 1 0 0) 4.

Definition mounted (s : Store) : FsState unit :=
  mkFsState (InodeTable.new) ∅ ∅ ∅ ∅ ∅ s [] [] tt.
Definition empty_store : Store := (CopyTheorems.empty_disk, DbWitnesses.fresh_db).

Lemma no_request_panics_witness :
  (serve kind_kernel (plain_config None) some_ambient (Lookup 1 "a") (mounted empty_store)).1 ≠ Panic.
Proof.
  pose proof (FuseSafeTheorems.no_request_panics kind_kernel (plain_config None) some_ambient
    (Lookup 1 "a") (mounted empty_store)) as Hx.
  destruct (serve _ _ _ _ _) as [o st']. apply Hx.
  - intros [] w; split; split; vm_compute; discriminate.
  - apply InodeFacts.wf_new.
  - intros k r Hr. vm_compute in Hr. by destruct k as [? [|? ?]].
  - vm_compute. reflexivity.
Defined.


(** A mount where inode 2 is the file [a]. *)
Definition looked_up : FsState unit :=
  (serve kind_kernel (plain_config None) some_ambient (Lookup 1 "a") (mounted empty_store)).2.
Definition opened : FsState unit :=
  (serve kind_kernel (plain_config None) some_ambient (OpenFile 2 O_RDONLY) looked_up).2.

Lemma close_reports_what_was_read_witness :
  ∃ p, sent (serve kind_kernel (plain_config None) some_ambient (Release 7)
               (Handles.run_requests kind_kernel (plain_config None) some_ambient
                  [Read 7 0 3; Read 8 0 3; Read 7 3 3] opened).2).2 =
    sent (Handles.run_requests kind_kernel (plain_config None) some_ambient
            [Read 7 0 3; Read 8 0 3; Read 7 3 3] opened).2 ++ [ActionEngine.close p 6].
Proof.
  pose proof (Handles.close_reports_what_was_read kind_kernel (plain_config None) some_ambient
    ltac:(intros; vm_compute; discriminate) 2 O_RDONLY looked_up 7 opened
    [Read 7 0 3; Read 8 0 3; Read 7 3 3] eq_refl eq_refl eq_refl
    ltac:(vm_compute; reflexivity) ltac:(vm_compute; discriminate)
    ltac:(repeat constructor)) as Hx.
  destruct Hx as (p & _ & _ & Hs & _); [vm_compute; reflexivity|]. exists p. exact Hs.
Defined.

(** ** Where the handlers fall short *)

(** A file last changed before 1970 cannot be looked at: the conversion of its timestamp panics. *)
Lemma negative_timestamp_panics :
  (serve (λ c w, (mkReply 0 0 (a_stat (-1)) "" [], w)) (plain_config None) some_ambient
         (Getattr 1) (mounted empty_store)).1 = Panic.
Proof. vm_compute. reflexivity. Qed.

(** A lookup of a name that does not exist leaves an inode entry the kernel never forgets. *)
Lemma failed_lookup_leaks_an_inode :
  let '(o, st) := serve empty_kernel (plain_config None) some_ambient (Lookup 1 "nope") (mounted empty_store) in
  o = Fail ENOENT ∧ InodeTable.get_path (inodes st) 2 = Some ["nope"%string].
Proof. vm_compute. done. Qed.

(** A cached file stays visible after it was unlinked through the mount: its attributes are served
    from the snapshot until the watcher or a sweep drops the copy. *)
Definition cached_store : Store :=
  (mkDisk {[ ["c"]%string := Dir; ["c"; "a"]%string := File (mkFile "xyz" 420 0 0 (0, 0) (0, 0)) ]} ∅,
   Manager.mark_cached 5 ManagerWitnesses.some_manager ["a"]%string
     (SourceMetadata.from_stat (a_stat 100)) DbWitnesses.fresh_db).

Lemma unlinked_file_stays_visible :
  let config := plain_config (Some ManagerWitnesses.some_manager) in
  let '(o, st) := serve kind_kernel config some_ambient (Unlink 1 "a") (mounted cached_store) in
  o = Val REmpty ∧
  match (serve empty_kernel config some_ambient (Lookup 1 "a") st).1 with Val (RAttr _) => True | _ => False end.
Proof. vm_compute. done. Qed.

(** Listing a directory counts a lookup for every entry, though the kernel takes none. *)
Definition one_entry_kernel (c : syscall) : State (list string) reply := λ w,
  match c with
  | Readdir _ => match w with
                 | [] => (mkReply 0 0 (a_stat 0) "" [], [])
                 | n :: w' => (mkReply 1 0 (a_stat 0) n [8], w')
                 end
  | _ => (mkReply 5 0 (a_stat 0) "" [], w)
  end.

Lemma readdir_counts_lookups :
  let st := mkFsState InodeTable.new ∅ ∅ ∅ ∅ ∅ empty_store [] [] ["a"]%string in
  let '(o, st') := serve one_entry_kernel (plain_config None) some_ambient (ReadDirectory 9 1 5 0) st in
  refcount <$> by_ino (inodes st') !! 2 = Some 1.
Proof. vm_compute. reflexivity. Qed.
End FuseTheorems.
