(* ===== verification/FuseDir.v ===== *)
(** * Reading a directory through the mount

    [do_readdir] and [list_dir_entries] of [src/fuse/read.rs] and [src/fuse/fusefs.rs] as the
    kernel drives them: page after page, each from the last offset of the page before.  The
    directory stream is that of POSIX, stated as laws on the system calls. *)
From S2P Require Import Prelude Paths Backing Disk Inode Db Manager Engine CacheIo Preset Fuse.
Import FsCache.

(** ** A directory stream

    [content] is what the directory holds, [left] what a stream still delivers, [stat_at] the
    answer of a lookup.  Rewinding starts over, reading takes the next entry, a lookup does not
    move the stream. *)
Record directory {W} (sys : syscall → State W reply) (fh : Z) (content : list (string * Z))
    (stat_at : path → option stat) (left : W → list (string * Z)) : Prop := {
  dir_open : ∀ w, let '(r, w1) := sys (Dup fh) w in rc (sys (Fdopendir (rc r)) w1).1 ≠ 0;
  dir_rewind : ∀ d w, left (sys (Rewinddir d) w).2 = content;
  dir_next : ∀ d w n ty l, left w = (n, ty) :: l →
    let '(r, w') := sys (Readdir d) w in
    rc r ≠ 0 ∧ out_bytes r = n ∧ head (out_nums r) = Some ty ∧ left w' = l;
  dir_end : ∀ d w, left w = [] → rc (sys (Readdir d) w).1 = 0;
  dir_stat : ∀ p w, (BackingStore.stat sys p w).1 = stat_at p ∧
                    left (BackingStore.stat sys p w).2 = left w;
}.

Module Listing.
Import InodeTable.

Definition kind_of (stat_at : path → option stat) (d_type : Z) (p : path) : FileType :=
  if d_type =? 4 then Directory
  else if d_type =? 10 then Symlink
  else if d_type =? 6 then BlockDevice
  else if d_type =? 2 then CharDevice
  else if d_type =? 1 then NamedPipe
  else if d_type =? 12 then Socket
  else kind_of_stat (stat_at p).

Definition is_child (x : string * Z) : Prop := BackingFacts.not_dot x.1.
#[export] Instance is_child_dec x : Decision (is_child x).
Proof. unfold is_child. apply _. Defined.

(** The listing a table gives: the two dot entries, then every other entry of the directory with
    the inode number of its path. *)
Definition children (stat_at : path → option stat) (t : InodeTable) (p : path)
    (content : list (string * Z)) : list (string * Z * FileType) :=
  (λ x, (x.1, default 0 (by_path t !! (p ++ [x.1])), kind_of stat_at x.2 (p ++ [x.1])))
    <$> filter is_child content.

Definition dots (t : InodeTable) (p : path) : list (string * Z * FileType) :=
  [("."%string, default ROOT_INO (get_path_ino t p), Directory);
   (".."%string, default ROOT_INO (get_path_ino t (Paths.parent p)), Directory)].

(** The entries of a reply, with the offset that continues after each. *)
Definition numbered (i : Z) (l : list (string * Z * FileType)) : list (Z * Z * FileType * string) :=
  imap (λ k x, (x.1.2, i + Z.of_nat k + 1, x.2, x.1.1)) l.

(** The kernel reads pages, the reply of each with its own room, until one is empty. *)
Fixpoint read_pages {W} `{MapOrder} (sys : syscall → State W reply) (fuel : nat) (rooms : list nat)
    (ino fh offset : Z) : FsM W (list (Z * Z * FileType * string)) :=
  match rooms with
  | [] => mret []
  | room :: rooms' =>
      page ← do_readdir sys fuel room ino fh offset;
      match last page with
      | None => mret []
      | Some e =>
          rest ← read_pages sys fuel rooms' ino fh e.1.1.2; mret (page ++ rest)
      end
  end.
End Listing.

Module ListingFacts.
Import Listing InodeTable InodeFacts.
Section facts.
Context {W : Type} `{MapOrder} (sys : syscall → State W reply) (fh : Z).
Context (content : list (string * Z)) (stat_at : path → option stat) (left : W → list (string * Z)).
Context (Hdir : directory sys fh content stat_at left).
Context (p : path).
Implicit Types (st : FsState W) (t : InodeTable) (l : list (string * Z)).

(** The entries that have no inode yet. *)
Definition missing t l : Z :=
  Z.of_nat (length (filter (λ x, is_child x ∧ by_path t !! (p ++ [x.1]) = None) l)).

(** A table another one extends by children of [p] only. *)
Record grows t t' : Prop := {
  grows_wf : wf t';
  grows_old : ∀ q i, by_path t !! q = Some i → by_path t' !! q = Some i;
  grows_path : ∀ i q, get_path t i = Some q → get_path t' i = Some q;
  grows_only : ∀ q, (∀ n, q ≠ p ++ [n]) → by_path t' !! q = by_path t !! q;
}.

Lemma listing_grows_refl t : wf t → grows t t.
Proof. by split. Qed.

Lemma listing_grows_trans t1 t2 t3 : grows t1 t2 → grows t2 t3 → grows t1 t3.
Proof.
  intros [A1 A2 A3 A4] [B1 B2 B3 B4]. split; auto. intros q Hq. by rewrite B4, A4.
Qed.

Definition complete t l : Prop := ∀ x, x ∈ l → is_child x → is_Some (by_path t !! (p ++ [x.1])).

Lemma missing_cons t x l :
  missing t (x :: l) =
    (if decide (is_child x ∧ by_path t !! (p ++ [x.1]) = None) then 1 else 0) + missing t l.
Proof. unfold missing. rewrite filter_cons. case_decide; cbn [length]; lia. Qed.

Lemma missing_nonneg t l : 0 <= missing t l.
Proof. unfold missing. lia. Qed.

Lemma missing_bound t l : missing t l <= Z.of_nat (length l).
Proof.
  induction l as [|x l IH]; [done|]. rewrite missing_cons. cbn [length]. case_decide; lia.
Qed.

Lemma missing_grows t t' l : grows t t' → missing t' l <= missing t l.
Proof.
  intros Hg. induction l as [|x l IH]; [done|]. rewrite !missing_cons.
  case_decide as H1; [rewrite decide_True; [lia|]|case_decide; lia].
  destruct H1 as [Hc Hn]. split; [done|]. destruct (by_path t !! (p ++ [x.1])) as [i|] eqn:E; [|done].
  apply (grows_old _ _ Hg) in E. congruence.
Qed.

Lemma missing_complete t l : complete t l → missing t l = 0.
Proof.
  induction l as [|x l IH]; intros Hc; [done|]. rewrite missing_cons, IH by (intros y Hy; apply Hc; by right).
  rewrite decide_False; [done|]. intros [Hx Hn]. destruct (Hc x ltac:(by left) Hx) as [i Hi]. congruence.
Qed.

Lemma grows_complete t t' l : grows t t' → complete t l → complete t' l.
Proof. intros Hg Hc x Hx Hy. destruct (Hc x Hx Hy) as [i Hi]. exists i. by apply (grows_old _ _ Hg). Qed.

(** A complete table keeps its listing while it grows. *)
Lemma grows_children t t' l : grows t t' → complete t l → children stat_at t' p l = children stat_at t p l.
Proof.
  intros Hg. induction l as [|x l IH]; intros Hc; [done|]. unfold children in *. rewrite filter_cons.
  specialize (IH ltac:(intros y Hy; apply Hc; by right)). case_decide as Hx; [|done].
  rewrite !fmap_cons, IH. destruct (Hc x ltac:(by left) Hx) as [i Hi].
  by rewrite Hi, (grows_old _ _ Hg _ _ Hi).
Qed.

Lemma parent_no_child n : Paths.parent p ≠ p ++ [n].
Proof.
  destruct (decide (p = [])) as [-> |Hp]; [done|].
  intros Hn. apply (f_equal length) in Hn. rewrite length_app in Hn. simpl in Hn.
  apply Paths.length_parent in Hp. lia.
Qed.

Lemma grows_dots t t' : grows t t' → dots t' p = dots t p.
Proof.
  intros Hg. unfold dots, get_path_ino. rewrite !(grows_only _ _ Hg); [done| |].
  - intros n. apply parent_no_child.
  - intros n Hn. apply (f_equal length) in Hn. rewrite length_app in Hn. simpl in Hn. lia.
Qed.

Lemma get_or_create_grows t n :
  wf t → next_ino t < 2 ^ 64 - 1 →
  ∃ t' i, InodeTable.get_or_create t (p ++ [n]) = Some (t', i) ∧ grows t t' ∧
    by_path t' !! (p ++ [n]) = Some i ∧
    next_ino t' = next_ino t + (if decide (by_path t !! (p ++ [n]) = None) then 1 else 0).
Proof.
  intros Hwf Hb. destruct (get_or_create_total t (p ++ [n]) Hwf Hb) as (t' & i & Heq & Hwf' & _).
  exists t', i. split; [done|]. revert Heq. unfold InodeTable.get_or_create.
  destruct (by_path t !! (p ++ [n])) as [k|] eqn:Hk.
  - destruct (by_ino t !! k) as [e|] eqn:He; [|done]. intros [= <- <-]. simpl.
    split_and!; [|done|lia].
    split; [done|done| |done]. intros j q. unfold get_path. simpl.
    destruct (decide (k = j)) as [-> |Hne]; [by rewrite lookup_insert_eq, He|by rewrite lookup_insert_ne].
  - intros [= <- <-]. simpl. rewrite lookup_insert_eq.
    assert (Hnext : 0 <= next_ino t).
    { destruct (wf_path t Hwf [] ROOT_INO (wf_root t Hwf)) as (e & He & _).
      apply (wf_fresh t Hwf) in He. lia. }
    split_and!; [|done|unfold u64_add, as_u64; rewrite Z.mod_small; lia].
    split; [done|..].
    + intros q j Hq. simpl. rewrite lookup_insert_ne; [done|]. intros <-. congruence.
    + intros j q. unfold get_path. simpl. destruct (decide (next_ino t = j)) as [<- |Hne].
      * destruct (by_ino t !! next_ino t) as [e|] eqn:He; [|done]. apply (wf_fresh t Hwf) in He. lia.
      * by rewrite lookup_insert_ne.
    + intros q Hq. simpl. rewrite lookup_insert_ne; [done|]. intros <-. by eapply Hq.
Qed.

(** ** One listing *)
(** A table that can still number what is missing. *)
Definition able t l : Prop := wf t ∧ next_ino t + missing t l < 2 ^ 64 - 1.

Lemma dirent_kind_stream st ty q :
  ∃ w, dirent_kind sys ty q st = (Val (kind_of stat_at ty q), set_world w st) ∧
       left w = left (world st).
Proof.
  unfold dirent_kind, kind_of.
  repeat match goal with |- context [ty =? ?k] => destruct (ty =? k) end;
    try (exists (world st); split; [by destruct st|done]).
  destruct (dir_stat _ _ _ _ _ Hdir q (world st)) as [Hs Hl].
  unfold mbind, fs_bind, stat_backing, lift. destruct (BackingStore.stat sys q (world st)) as [o w].
  simpl in *. subst o. by exists w.
Qed.
Lemma dir_loop_stream l : ∀ fuel d out st,
  left (world st) = l → (length l < fuel)%nat → able (inodes st) l →
  ∃ st', dir_loop sys fuel d p out st = (Val (out ++ children stat_at (inodes st') p l), st') ∧
    grows (inodes st) (inodes st') ∧ complete (inodes st') l ∧
    next_ino (inodes st') <= next_ino (inodes st) + missing (inodes st) l.
Proof.
  induction l as [|[n ty] l IH]; intros fuel d out st Hl Hfuel [Hwf Hroom];
    (destruct fuel as [|fuel]; [simpl in Hfuel; lia|]); cbn [dir_loop];
    unfold mbind at 1, fs_bind at 1; unfold lift at 1.
  - pose proof (dir_end _ _ _ _ _ Hdir d (world st) Hl) as Hend.
    destruct (sys (Readdir d) (world st)) as [r w]. simpl in Hend. rewrite Hend. simpl.
    exists (set_world w st). unfold children. rewrite filter_nil, app_nil_r.
    split_and!; [done|by apply listing_grows_refl|intros x Hx; by apply not_elem_of_nil in Hx|].
    unfold missing. simpl. lia.
  - pose proof (dir_next _ _ _ _ _ Hdir d (world st) n ty l Hl) as Hnext.
    destruct (sys (Readdir d) (world st)) as [r w]. destruct Hnext as (Hrc & <- & Hty & Hw).
    rewrite (proj2 (Z.eqb_neq _ _) Hrc), Hty. rewrite missing_cons in Hroom |- *. cbn [fst] in *.
    cbn [length] in Hfuel. set (n := out_bytes r) in *.
    destruct (bool_decide (n = ".") || bool_decide (n = ".."))%string eqn:Hdot; to_prop.
    + assert (Hnd : ¬ is_child (n, ty)) by (unfold is_child, BackingFacts.not_dot; simpl; tauto).
      destruct (IH fuel d out (set_world w st)) as (st' & He & Hg & Hc & Hn);
        [done|lia|split; [done|]; simpl; case_decide; [naive_solver|lia]|].
      exists st'. rewrite He. unfold children. rewrite filter_cons, decide_False by done.
      rewrite decide_False by naive_solver. split_and!; [done|done| |simpl in Hn; lia].
      intros x [-> |Hx]%elem_of_cons ?; [done|]. by apply Hc.
    + assert (Hnd : is_child (n, ty)) by (unfold is_child, BackingFacts.not_dot; simpl; tauto).
      destruct (dirent_kind_stream (set_world w st) ty (p ++ [n])) as (w1 & Hk & Hw1).
      unfold mbind, fs_bind. change (default 0 (Some ty)) with ty. rewrite Hk.
      pose proof (missing_nonneg (inodes st) l) as Hm.
      destruct (get_or_create_grows (inodes st) n Hwf) as (t1 & i & Hgoc & Hg1 & Hi & Hn1);
        [case_decide; lia|].
      unfold FsCache.get_or_create. cbn [inodes set_world]. rewrite Hgoc.
      pose proof (missing_grows _ _ l Hg1) as Hm1.
      match goal with |- context [dir_loop sys fuel d p ?o ?s] => destruct (IH fuel d o s) as (st' & He & Hg & Hc & Hn) end;
        [simpl in *; congruence|lia|split; [by apply grows_wf in Hg1|]; simpl; repeat case_decide; naive_solver lia|].
      exists st'. rewrite He. unfold children. rewrite filter_cons, decide_True by done.
      rewrite fmap_cons. cbn [fst snd]. simpl in Hg, Hn.
      rewrite (grows_old _ _ Hg _ _ Hi). rewrite <- app_assoc in *.
      split_and!; [done|by eapply listing_grows_trans| |repeat case_decide; naive_solver lia].
      intros x [-> |Hx]%elem_of_cons ?; [|by apply Hc]. exists i. by apply (grows_old _ _ Hg).
Qed.

Definition listing t : list (string * Z * FileType) := dots t p ++ children stat_at t p content.

(** *** A page *)
Lemma add_entries_numbered off (l : list (string * Z * FileType)) : ∀ i room, 0 <= i →
  add_entries i off room l = take room (drop (Z.to_nat (off - i)) (numbered i l)).
Proof.
  induction l as [|[[name ino] kind] l IH]; intros i room Hi; cbn [add_entries].
  - unfold numbered. simpl. by rewrite drop_nil, take_nil.
  - assert (Hnum : numbered i ((name, ino, kind) :: l) =
                   (ino, i + 1, kind, name) :: numbered (i + 1) l).
    { unfold numbered. rewrite imap_cons. f_equal; [cbn [fst snd Z.of_nat]; by rewrite Z.add_0_r|].
      apply imap_ext. intros k x _. cbn [compose].
      by replace (i + 1 + Z.of_nat k + 1) with (i + Z.of_nat (S k) + 1) by lia. }
    rewrite Hnum. destruct (Z.leb_spec (i + 1) off) as [Hle|Hlt].
    + rewrite IH by lia. replace (Z.to_nat (off - i)) with (S (Z.to_nat (off - (i + 1)))) by lia. done.
    + replace (Z.to_nat (off - i)) with O by lia. destruct room as [|room]; [done|].
      rewrite IH by lia. replace (Z.to_nat (off - (i + 1))) with O by lia. done.
Qed.

Lemma length_children t : (length (children stat_at t p content) <= length content)%nat.
Proof. unfold children. rewrite length_fmap. apply length_filter. Qed.

Lemma list_dir_stream fuel st :
  (length content < fuel)%nat → able (inodes st) content →
  ∃ st', list_dir_entries sys fuel fh p st = (Val (listing (inodes st')), st') ∧
    grows (inodes st) (inodes st') ∧ complete (inodes st') content ∧ able (inodes st') content.
Proof.
  intros Hfuel Hable. unfold list_dir_entries, mbind, fs_bind, gets, lift. simpl.
  pose proof (dir_open _ _ _ _ _ Hdir (world st)) as Hopen.
  destruct (sys (Dup fh) (world st)) as [r w1]. simpl.
  destruct (sys (Fdopendir (rc r)) w1) as [r2 w2]. simpl in *.
  rewrite (proj2 (Z.eqb_neq _ _) Hopen). simpl.
  pose proof (dir_rewind _ _ _ _ _ Hdir (rc r2) w2) as Hrew.
  destruct (sys (Rewinddir (rc r2)) w2) as [r3 w3]. simpl in *.
  match goal with |- context [dir_loop sys fuel ?d p ?o ?s] =>
    pose proof (dir_loop_stream content fuel d o s) as Hloop end.
  destruct (Hloop Hrew Hfuel Hable) as (st' & He & Hg & Hc & Hn).
  rewrite He. destruct (sys (Closedir (rc r2)) (world st')) as [r4 w4].
  exists (set_world w4 st'). split_and!; [|done|done|].
  - unfold listing. change (inodes (set_world w4 st')) with (inodes st').
    by rewrite (grows_dots _ _ Hg).
  - destruct Hable as [_ Hroom]. split; [by apply grows_wf in Hg|].
    simpl in *. rewrite (missing_complete (inodes st')) by done. lia.
Qed.

Lemma do_readdir_page fuel room ino offset st :
  (length content < fuel)%nat → able (inodes st) content → get_path (inodes st) ino = Some p →
  ∃ st', do_readdir sys fuel room ino fh offset st =
      (Val (take room (drop (Z.to_nat offset) (numbered 0 (listing (inodes st'))))), st') ∧
    grows (inodes st) (inodes st') ∧ complete (inodes st') content ∧ able (inodes st') content.
Proof.
  intros Hfuel Hable Hino.
  destruct (list_dir_stream fuel st Hfuel Hable) as (st' & He & Hrest). exists st'. split; [|done].
  unfold do_readdir, path_for_ino, mbind, fs_bind, gets. rewrite Hino. simpl. rewrite He.
  rewrite add_entries_numbered by done. by rewrite Z.sub_0_r.
Qed.

(** *** The pages *)
Lemma grows_listing t t' : grows t t' → complete t content → listing t' = listing t.
Proof. intros Hg Hc. unfold listing. by rewrite (grows_dots _ _ Hg), (grows_children _ _ _ Hg Hc). Qed.

Lemma numbered_offset (l : list (string * Z * FileType)) j e :
  numbered 0 l !! j = Some e → e.1.1.2 = Z.of_nat j + 1.
Proof.
  unfold numbered. rewrite list_lookup_imap. by destruct (l !! j); intros [= <-].
Qed.

Lemma last_page (l : list (string * Z * FileType)) k room e :
  last (take room (drop k (numbered 0 l))) = Some e →
  e.1.1.2 = Z.of_nat (k + length (take room (drop k (numbered 0 l)))).
Proof.
  intros He. assert (Hne : take room (drop k (numbered 0 l)) ≠ []) by (intros Hn; by rewrite Hn in He).
  rewrite last_lookup in He. apply lookup_take_Some in He as [He _]. rewrite lookup_drop in He.
  apply numbered_offset in He. destruct (take room (drop k (numbered 0 l))); [done|]. simpl in *. lia.
Qed.

Lemma take_page {A} (l : list A) room n :
  take room l ++ take n (drop (length (take room l)) l) = take (room + n) l.
Proof.
  rewrite <- take_take_drop. f_equal. rewrite length_take.
  destruct (decide (room <= length l)%nat); [by rewrite Nat.min_l|].
  rewrite Nat.min_r by lia. rewrite !drop_ge by lia. done.
Qed.

Lemma pages_stream fuel ino rooms : ∀ k st,
  (length content < fuel)%nat → able (inodes st) content → get_path (inodes st) ino = Some p →
  Forall (λ r, 0 < r)%nat rooms → rooms ≠ [] →
  ∃ st', read_pages sys fuel rooms ino fh (Z.of_nat k) st =
      (Val (take (sum_list rooms) (drop k (numbered 0 (listing (inodes st'))))), st') ∧
    grows (inodes st) (inodes st') ∧ complete (inodes st') content.
Proof.
  induction rooms as [|room rooms IH]; intros k st Hfuel Hable Hino Hpos Hne; [done|].
  apply Forall_cons in Hpos as [Hroom Hpos]. cbn [read_pages]. unfold mbind at 1, fs_bind at 1.
  destruct (do_readdir_page fuel room ino (Z.of_nat k) st Hfuel Hable Hino)
    as (st1 & -> & Hg1 & Hc1 & Hable1). rewrite Nat2Z.id.
  change (sum_list (room :: rooms)) with (room + sum_list rooms)%nat.
  set (full := numbered 0 (listing (inodes st1))).
  destruct (last (take room (drop k full))) as [e|] eqn:Hlast.
  - apply last_page in Hlast. fold full in Hlast. rewrite Hlast. unfold mbind, fs_bind.
    destruct (decide (rooms = [])) as [-> |Hne'].
    + exists st1. cbn [read_pages mret fs_ret]. rewrite app_nil_r. split_and!; [|done|done].
      change (sum_list []) with O. by rewrite Nat.add_0_r.
    + destruct (IH (k + length (take room (drop k full)))%nat st1 Hfuel Hable1
        (grows_path _ _ Hg1 _ _ Hino) Hpos Hne') as (st2 & -> & Hg2 & Hc2).
      exists st2. split_and!; [|by eapply listing_grows_trans|done].
      rewrite (grows_listing _ _ Hg2 Hc1). fold full. do 2 f_equal.
      rewrite <- drop_drop. cbn [mret fs_ret]. by rewrite take_page.
  - apply last_None in Hlast. exists st1. split_and!; [|done|done]. fold full.
    destruct room; [lia|]. destruct (drop k full); [by rewrite take_nil|done].
Qed.
End facts.
End ListingFacts.

Module ListingTheorems.
Import Listing InodeTable ListingFacts.

(** C23. A directory read in pages is listed once: whatever room each reply has, as long as it holds
    an entry, the pages together are the whole listing in stream order, numbered without a gap or a
    repeat, with the type of each entry; the reading ends; and the inode of every entry resolves
    to its path afterwards. *)
Theorem readdir_pages_list_once {W} `{MapOrder} (sys : syscall → State W reply) fh content stat_at
    left fuel rooms ino p (st : FsState W) :
  directory sys fh content stat_at left →
  wf (inodes st) → next_ino (inodes st) + Z.of_nat (length content) < 2 ^ 64 - 1 →
  get_path (inodes st) ino = Some p →
  (length content < fuel)%nat →
  Forall (λ room, 0 < room)%nat rooms → (length content + 2 <= sum_list rooms)%nat →
  ∃ st',
    read_pages sys fuel rooms ino fh 0 st =
      (Val (numbered 0 (dots (inodes st') p ++ children stat_at (inodes st') p content)), st') ∧
    ∀ n ty, (n, ty) ∈ content → BackingFacts.not_dot n →
      ∃ i, by_path (inodes st') !! (p ++ [n]) = Some i ∧
           get_path (inodes st') i = Some (p ++ [n]).
Proof.
  intros Hdir Hwf Hroom Hino Hfuel Hpos Hsum.
  destruct (pages_stream sys fh content stat_at left Hdir p fuel ino rooms 0 st) as (st' & He & Hg & Hc);
    [done| |done|done|intros ->; simpl in Hsum; lia|].
  { split; [done|]. pose proof (missing_bound p (inodes st) content). lia. }
  exists st'. change (Z.of_nat 0) with 0 in He. rewrite He. split.
  - rewrite drop_0, take_ge; [done|]. unfold numbered. rewrite length_imap.
    unfold ListingFacts.listing. rewrite length_app.
    pose proof (length_children content stat_at p (inodes st')). simpl. lia.
  - intros n ty Hin Hn. destruct (Hc (n, ty) Hin Hn) as [i Hi]. exists i. split; [done|].
    apply (wf_path _ (grows_wf _ _ _ Hg)) in Hi as (e & He' & Hp).
    unfold get_path. rewrite He'. simpl. by rewrite Hp.
Qed.

(** A kernel with one directory: its world is what the stream still delivers. *)
Definition three_entries : list (string * Z) := [("."%string, 4); ("d"%string, 4); ("f"%string, 8)].

Definition dir_kernel (c : syscall) : State (list (string * Z)) reply := λ w,
  match c with
  | Rewinddir _ => (mkReply 0 0 stat_zeroed "" [], three_entries)
  | Readdir _ => match w with
                 | [] => (mkReply 0 0 stat_zeroed "" [], [])
                 | (n, ty) :: w' => (mkReply 1 0 stat_zeroed n [ty], w')
                 end
  | _ => (mkReply 5 0 stat_zeroed "" [], w)
  end.

Lemma dir_kernel_directory :
  directory dir_kernel 9 three_entries (λ p, (BackingStore.stat dir_kernel p []).1) (λ w, w).
Proof.
  split; simpl; try done.
  - by intros d w n ty l ->.
  - by intros d w ->.
  - intros p w. unfold BackingStore.stat, mbind, state_bind. by case_decide.
Qed.

Lemma readdir_pages_list_once_witness :
  let st := mkFsState InodeTable.new ∅ ∅ ∅ ∅ ∅ (CopyTheorems.empty_disk, DbWitnesses.fresh_db) [] [] three_entries in
  (λ x, (x.1.1.2, x.2)) <$>
    match (read_pages dir_kernel 4 [2; 2; 2]%nat ROOT_INO 9 0 st).1 with Val l => l | _ => [] end =
  [(1, "."); (2, ".."); (3, "d"); (4, "f")]%string.
Proof.
  intros st.
  destruct (readdir_pages_list_once dir_kernel 9 three_entries _ _ 4 [2; 2; 2]%nat ROOT_INO [] st
    dir_kernel_directory InodeFacts.wf_new eq_refl eq_refl ltac:(simpl; lia)
    ltac:(repeat constructor) ltac:(simpl; lia)) as (st' & -> & _).
  reflexivity.
Defined.
End ListingTheorems.
