(* ===== verification/Transparency.v ===== *)
(** * The mount is transparent

    What the file system, the cache and the copies of [src/fuse], [src/cache/manager.rs] and
    [src/cache/io.rs] promise together: a file read through the mount is the file of the backing
    store, whether a handle was opened on the cached copy or on the original, and whatever the
    copies, evictions and validations do while it is open.  The kernel's side is a view of the
    world and the documented behaviour of the calls on it. *)
From S2P Require Import Prelude Paths Backing Disk Inode Db Manager CacheIo Preset Engine Fuse FuseSpec.

(** ** The kernel

    What the calls see of the world: the bytes of the regular files below the backing directory,
    by relative path; those of the files on the SSD, by absolute path; and what an open
    descriptor of a regular file reads. *)
Record View (W : Type) := mkView {
  tree : W → path → option string;
  fast : W → path → option string;
  data : W → Z → option string;
}.
Arguments tree {W}.
Arguments fast {W}.
Arguments data {W}.

Module Transparency.
Import FsCache.

(** Names of a directory entry are not empty and hold no NUL. *)
Definition real_path (p : path) : Prop := Forall (λ c, c ≠ ""%string ∧ string_mem nul c = false) p.

Definition creates (flags : Z) : bool := negb (Z.land flags (Z.lor O_CREAT O_TRUNC) =? 0).

(** The calls that write to no regular file and leave the descriptor [keep] open. *)
Definition quiet_call (keep : Z) (c : syscall) : bool :=
  match c with
  | Fstatat _ _ | Fstat _ | Fdopendir _ | Readdir _ | Closedir _ | Rewinddir _ | Dup _
  | Pread _ _ _ | Fsync _ | Fdatasync _ | Readlinkat _ _ | Faccessat _ _ | Fstatvfs _
  | Lgetxattr _ _ _ | Llistxattr _ _ => true
  | Openat _ flags _ | Open _ flags => negb (creates flags)
  | Backing.Close fd => negb (fd =? keep)
  | _ => false
  end.

(** A successful read is a slice of the file, and empty only at its end. *)
Record slice (c : string) (off size : Z) (d : string) : Prop := {
  slice_bytes : d = String.substring (Z.to_nat off) (String.length d) c;
  slice_size : Z.of_nat (String.length d) <= size;
  slice_end : d = ""%string → size = 0 ∨ Z.of_nat (String.length c) <= off;
}.

Record kernel_laws {W} (V : View W) (sys : syscall → State W reply) : Prop := {
  (** A regular file has a name. *)
  law_names w p c : tree V w p = Some c → p ≠ [] ∧ real_path p;
  (** A new descriptor reads what its path names; it was not open before. *)
  law_openat w p c r w' :
    sys (Openat p (Z.lor O_RDONLY O_CLOEXEC) 0) w = (r, w') → 0 <= rc r →
    tree V w p = Some c → data V w' (rc r) = Some c;
  law_open w p c r w' :
    sys (Open p O_RDONLY) w = (r, w') → 0 <= rc r → fast V w p = Some c → data V w' (rc r) = Some c;
  law_new w p flags mode r w' :
    sys (Openat p flags mode) w = (r, w') → 0 <= rc r → data V w (rc r) = None;
  law_descriptor w p flags mode r w' :
    sys (Openat p flags mode) w = (r, w') ∨ sys (Open p flags) w = (r, w') → rc r < 2 ^ 31;
  law_pread w fd size off c r w' :
    sys (Pread fd size off) w = (r, w') → 0 <= rc r → data V w fd = Some c →
    0 <= off ∧ rc r <= Z.of_nat (String.length (out_bytes r)) ∧
    slice c off size (String.substring 0 (Z.to_nat (rc r)) (out_bytes r));
  (** Reading calls change no file and close no other descriptor. *)
  law_quiet w call keep r w' :
    sys call w = (r, w') → quiet_call keep call = true →
    tree V w' = tree V w ∧ fast V w' = fast V w ∧
    (∀ c, data V w keep = Some c → data V w' keep = Some c);
}.

(** The reads of a copy follow the file: chunks of it, in order, up to its end or an error. *)
Fixpoint reads_from (c : string) (reads : list (result io_error string)) : Prop :=
  match reads with
  | [] => c = ""%string
  | Err _ :: _ => True
  | Ok chunk :: reads' =>
      if decide (chunk = ""%string) then c = ""%string
      else ∃ c', c = (chunk ++ c')%string ∧ reads_from c' reads'
  end.

Section mount.
Context {W : Type} `{MapOrder} (V : View W) (sys : syscall → State W reply).
Context (statvfs : Disk → path → option Statvfs) (self : FsConfig) (cm : CacheManager).
Implicit Types st : FsState W.

(** A job is for an entry of a backing directory, so that no file is on the way to it; its copy
    opens a regular file and reads it. *)
Record honest (w : W) (rel : path) (env : CopyEnv) : Prop := {
  honest_name : rel ≠ [] ∧ real_path rel;
  honest_above p q : rel = p ++ q → q ≠ [] → tree V w p = None;
  honest_reads src : ce_open env = Ok src → ∃ c, tree V w rel = Some c ∧ reads_from c (ce_reads env);
}.

(** The operations of the cache that reach the store: the sections of the pipeline's tasks, the
    removals of the engine and of the dashboard, and anything that only touches the database. *)
Inductive cache_op (w : W) : Io → Io → Prop :=
  | op_room size i : cache_op w i (CacheIO.populate_room statvfs cm size i).1
  | op_copy env rel i : honest w rel env → cache_op w i (CacheIO.populate_copy cm env rel i).1
  | op_commit now rel r i : cache_op w i (CacheIO.populate_commit cm now rel r i)
  | op_validate now backing rel i : cache_op w i (CacheIO.validate_body cm now backing rel i)
  | op_evict now i : cache_op w i (CacheIO.eviction_worker_tick cm now i)
  | op_sweep now backing i :
      cache_op w i (CacheIO.with_store (Manager.sweep_stale now cm backing (store i)).1.1 i)
  | op_drop rel why i : cache_op w i (CacheIO.with_store (Manager.drop_stale cm rel why (store i)).1 i)
  | op_database f i : cache_op w i (CacheIO.with_db f i).

(** What the SSD shows follows the cache; open descriptors survive renames and removals. *)
Definition shows (w : W) (d : Disk) : Prop :=
  ∀ p f, nodes d !! p = Some (File f) → fast V w p = Some (contents f).

Record follows (w : W) (d : Disk) (w' : W) : Prop := {
  follow_tree : tree V w' = tree V w;
  follow_data : data V w' = data V w;
  follow_disk : shows w' d;
}.

(** Requests that write nothing and leave the handle [keep] open. *)
Definition reading (keep : Z) (rq : FsRequest) : bool :=
  match rq with
  | Lookup _ _ | Forget _ _ | Getattr _ | Read _ _ _ | Flush | FsyncFile _ _ | Opendir _
  | ReadDirectory _ _ _ _ | Readlink _ | Getxattr _ _ _ | Listxattr _ _ | Statfs => true
  | OpenFile _ flags => negb (is_write_intent flags) || negb (creates flags)
  | Release fh | Releasedir fh => negb (fh =? keep)
  | _ => false
  end.

(** One mount at work: a request is served, or the cache works. *)
Inductive mount_step (keep : Z) : FsState W → FsState W → Prop :=
  | mount_request amb rq st :
      reading keep rq = true → mount_step keep st (FsCache.serve sys self amb rq st).2
  | mount_cache st i i' w' :
      store i = ssd st → cache_op (world st) i i' → follows (world st) (store i').1 w' →
      mount_step keep st (FsCache.set_world w' (FsCache.set_ssd (store i') st)).

(** The cache mirrors the backing files when every path it would serve for one of them is a copy of
    its bytes; a mount is coherent when the SSD shows such a cache. *)
Definition mirrors (T : path → option string) (d : Disk) : Prop := ∀ rel c,
  T rel = Some c → Manager.is_cached cm d rel = true →
  ∃ f, nodes d !! Manager.cache_path cm rel = Some (File f) ∧ contents f = c.

Definition coherent st : Prop :=
  mirrors (tree V (world st)) (ssd st).1 ∧ shows (world st) (ssd st).1.
End mount.
End Transparency.

(** ** Lemmas *)
Module TransparencyFacts.
Import FsCache Transparency.

(** *** Paths *)
Lemma real_no_nul p : real_path p → existsb (string_mem nul) p = false.
Proof. induction 1 as [|c p [_ Hc] _ IH]; [done|]. simpl. by rewrite Hc. Qed.

Lemma rsplit_dot_last a b : rsplit_dot b = None → rsplit_dot (a ++ String "." b) = Some (a, b).
Proof. intros Hb. induction a as [|c a IH]; simpl; [by rewrite Hb|]. by rewrite IH. Qed.

(** A partial file has the extension the cache never serves. *)
Lemma partial_is_partial p : p ≠ [] → real_path p → Disk.is_partial (CacheIO.partial_path p) = true.
Proof.
  intros Hne Hp. destruct p as [|c p _] using rev_ind; [done|].
  apply Forall_app in Hp as [_ Hc]. apply Forall_singleton in Hc as [Hc _].
  unfold CacheIO.partial_path, Disk.is_partial, extension.
  rewrite parent_snoc, !file_name_snoc. simpl.
  rewrite (rsplit_dot_last c "partial") by done. simpl. by rewrite decide_False.
Qed.

Section facts.
Context {W : Type} `{MapOrder} (V : View W) (sys : syscall → State W reply).
Context (statvfs : Disk → path → option Statvfs) (self : FsConfig) (cm : CacheManager).
Hypothesis laws : kernel_laws V sys.
Implicit Types st : FsState W.

(** *** Requests *)
Record rests (keep : Z) st st' : Prop := {
  rest_disk : (ssd st').1 = (ssd st).1;
  rest_tree : tree V (world st') = tree V (world st);
  rest_fast : fast V (world st') = fast V (world st);
  rest_data c : data V (world st) keep = Some c → data V (world st') keep = Some c;
}.

Lemma rests_refl keep st : rests keep st st. Proof. done. Qed.
Lemma rests_trans keep st1 st2 st3 : rests keep st1 st2 → rests keep st2 st3 → rests keep st1 st3.
Proof. intros [] []. split; [congruence..|auto]. Qed.

Definition calm {A} (keep : Z) (m : FsM W A) : Prop := ∀ st, rests keep st (m st).2.

Lemma calm_bind {A B} keep (m : FsM W A) (f : A → FsM W B) :
  calm keep m → (∀ a, calm keep (f a)) → calm keep (m ≫= f).
Proof.
  intros Hm Hf st. unfold mbind, fs_bind. specialize (Hm st).
  destruct (m st) as [[a|e| |] st1]; [|done..]. eapply rests_trans; [done|apply Hf].
Qed.

Lemma calm_ret {A} keep (a : A) : calm keep (mret a). Proof. by intros st. Qed.
Lemma calm_gets {A} keep (f : FsState W → A) : calm keep (gets f). Proof. by intros st. Qed.
Lemma calm_fail {A} keep e : calm keep (fail (A := A) e). Proof. by intros st. Qed.
Lemma calm_of_option {A} keep e (o : option A) : calm keep (of_option e o). Proof. by destruct o. Qed.
Lemma calm_or_panic {A} keep (o : option A) : calm keep (or_panic o). Proof. by destruct o. Qed.

(** Changes of the file system's own tables, and of the database. *)
Lemma calm_modify keep f :
  (∀ st, world (f st) = world st ∧ (ssd (f st)).1 = (ssd st).1) → calm keep (modify f).
Proof. intros Hf st. simpl. destruct (Hf st) as [Hw Hd]. split; rewrite ?Hw; done. Qed.

Lemma calm_get_or_create keep p : calm keep (get_or_create p).
Proof. intros st. unfold get_or_create. by destruct (InodeTable.get_or_create _ _) as [[]|]. Qed.

Lemma calm_suppress keep now p : calm keep (should_suppress_log self now p).
Proof. intros st. unfold should_suppress_log. by repeat case_match. Qed.

(** Computations of the backing store made of quiet calls. *)
Definition soft {A} (keep : Z) (m : State W A) : Prop := ∀ w,
  tree V (m w).2 = tree V w ∧ fast V (m w).2 = fast V w ∧
  (∀ c, data V w keep = Some c → data V (m w).2 keep = Some c).

Lemma soft_call keep c : quiet_call keep c = true → soft keep (sys c).
Proof. intros Hc w. destruct (sys c w) as [r w'] eqn:E. by apply (law_quiet V sys laws) with (1 := E). Qed.

Lemma soft_ret {A} keep (a : A) : soft keep (mret a). Proof. by intros w. Qed.

Lemma soft_bind {A B} keep (m : State W A) (f : A → State W B) :
  soft keep m → (∀ a, soft keep (f a)) → soft keep (m ≫= f).
Proof.
  intros Hm Hf w. unfold mbind, state_bind. destruct (Hm w) as (T & F & D).
  destruct (m w) as [a w1]. destruct (Hf a w1) as (T' & F' & D'). simpl in *.
  split_and!; [congruence..|auto].
Qed.

Lemma calm_lift {A} keep (m : State W A) : soft keep m → calm keep (lift m).
Proof.
  intros Hm st. unfold lift. destruct (Hm (world st)) as (T & F & D).
  destruct (m (world st)) as [a w']. by split.
Qed.

Lemma calm_try_io {A} keep (m : State W (result io_error A)) : soft keep m → calm keep (try_io m).
Proof.
  intros Hm. apply calm_bind; [by apply calm_lift|]. intros [a|e]; [apply calm_ret|apply calm_fail].
Qed.

Create HintDb calm_db.
#[local] Hint Resolve calm_ret calm_gets calm_fail calm_of_option calm_or_panic calm_get_or_create
  calm_suppress soft_ret soft_call : calm_db.

Ltac calm_one :=
  lazymatch goal with
  | |- context [let '(_, _) := ?x in _] => destruct x
  | |- calm _ (if ?b then _ else _) => destruct b eqn:?
  | |- soft _ (if ?b then _ else _) => destruct b eqn:?
  | |- calm _ (match ?x with _ => _ end) => destruct x eqn:?
  | |- soft _ (match ?x with _ => _ end) => destruct x eqn:?
  | |- calm _ (_ ≫= _) => apply calm_bind; [|intros ?]
  | |- soft _ (_ ≫= _) => apply soft_bind; [|intros ?]
  | |- calm _ (lift _) => apply calm_lift
  | |- calm _ (try_io _) => apply calm_try_io
  | |- calm _ (modify _) =>
      apply calm_modify; intros ?; by repeat case_match
  | |- _ => solve [eauto with calm_db]
  end.
Ltac calm := repeat calm_one.

Lemma soft_stat keep p : soft keep (BackingStore.stat sys p).
Proof. unfold BackingStore.stat. calm. Qed.

Lemma calm_stat keep p : calm keep (stat_backing sys p).
Proof. apply calm_lift, soft_stat. Qed.

Lemma calm_path_for_ino keep ino : calm keep (path_for_ino ino).
Proof. unfold path_for_ino. calm. Qed.

Lemma calm_child_path keep parent name : calm keep (child_path parent name).
Proof. unfold child_path, path_for_ino. calm. Qed.

#[local] Hint Resolve calm_stat calm_path_for_ino calm_child_path : calm_db.

Lemma calm_cached_attr keep p ino : calm keep (cached_regular_attr sys self p ino).
Proof. unfold cached_regular_attr. calm. Qed.

#[local] Hint Resolve calm_cached_attr : calm_db.

Lemma calm_lookup keep parent name : calm keep (do_lookup sys self parent name).
Proof. unfold do_lookup. calm. Qed.

Lemma calm_getattr keep ino : calm keep (do_getattr sys self ino).
Proof. unfold do_getattr. calm. Qed.

Lemma creates_cloexec flags : creates (Z.lor flags O_CLOEXEC) = creates flags.
Proof. unfold creates. rewrite Z.land_lor_distr_l. by rewrite Z.lor_0_r. Qed.

Lemma soft_open keep p flags mode :
  creates flags = false → soft keep (BackingStore.open_file_with_flags sys p flags mode).
Proof.
  intros Hc. apply soft_bind; [|intros r; apply soft_ret]. apply soft_call.
  simpl. by rewrite creates_cloexec, Hc.
Qed.

Lemma calm_try_open keep now p filtered : calm keep (try_open sys self now p filtered).
Proof.
  unfold try_open. apply calm_bind; [apply calm_gets|]. intros s. apply calm_bind; [calm|]. intros [fd|]; [calm|].
  apply calm_bind; [|calm]. by apply calm_try_io, soft_open.
Qed.

Lemma calm_open keep proc now secs req ino flags :
  is_write_intent flags = false ∨ creates flags = false →
  calm keep (open sys self proc now secs req ino flags).
Proof.
  intros Hc. unfold open, open_write_handle. pose proof calm_try_open as Ht.
  apply calm_bind; [calm|]. intros p. destruct (is_write_intent flags); [|calm].
  destruct Hc as [|Hc]; [done|]. pose proof (soft_open keep) as Hs. calm.
Qed.

Lemma calm_read keep fh off size : calm keep (do_read sys fh off size).
Proof. unfold do_read. calm. Qed.

Lemma calm_close keep fh : (fh =? keep) = false → calm keep (lift (sys (Backing.Close fh))).
Proof. intros Hne. apply calm_lift, soft_call. simpl. by rewrite Hne. Qed.

Lemma calm_release keep fh : (fh =? keep) = false → calm keep (release sys self fh).
Proof.
  intros Hne. unfold release. apply calm_bind; [calm|intros st]. apply calm_bind; [calm|intros _].
  apply calm_bind; [by apply calm_close|calm].
Qed.

Lemma calm_opendir keep ino : calm keep (do_opendir sys ino).
Proof. unfold do_opendir. calm. Qed.

Lemma calm_dir_loop keep fuel dir p out : calm keep (dir_loop sys fuel dir p out).
Proof.
  revert out. induction fuel as [|fuel IH]; intros out; [by intros st|]. simpl. unfold dirent_kind. calm.
Qed.

#[local] Hint Resolve calm_dir_loop : calm_db.

Lemma calm_readdir keep fuel room ino fh off : calm keep (do_readdir sys fuel room ino fh off).
Proof. unfold do_readdir, list_dir_entries. calm. Qed.

Lemma calm_getxattr keep ino name size : calm keep (do_getxattr sys self ino name size).
Proof. unfold do_getxattr, BackingStore.getxattr. calm. Qed.

Lemma calm_listxattr keep ino size : calm keep (do_listxattr sys self ino size).
Proof. unfold do_listxattr, BackingStore.listxattr. calm. Qed.

(** The descriptor that statistics are taken through is a new one. *)
Lemma calm_statfs keep : calm keep (do_statfs sys).
Proof.
  intros st. unfold do_statfs, mbind, fs_bind, lift.
  destruct (sys (Openat _ _ _) (world st)) as [o w1] eqn:Ho. simpl.
  pose proof (law_quiet V sys laws _ _ keep _ _ Ho eq_refl) as (T1 & F1 & D1).
  destruct (Z.ltb_spec (rc o) 0); [by split|]. simpl.
  destruct (sys (Fstatvfs (rc o)) w1) as [r w2] eqn:Hr. simpl.
  pose proof (law_quiet V sys laws _ _ keep _ _ Hr eq_refl) as (T2 & F2 & D2).
  destruct (sys (Backing.Close (rc o)) w2) as [x w3] eqn:Hx. simpl.
  assert (Hend : rests keep st (set_world w3 (set_world w2 (set_world w1 st)))).
  { pose proof (law_new V sys laws _ _ _ _ _ _ Ho ltac:(lia)) as Hnew.
    pose proof (law_quiet V sys laws _ _ (rc o + 1) _ _ Hx) as Hq.
    destruct Hq as (T3 & F3 & _); [simpl; destruct (Z.eqb_spec (rc o) (rc o + 1)); [lia|done]|].
    split; simpl; [done|congruence..|]. intros c Hc.
    assert (Hne : rc o ≠ keep) by (intros <-; congruence).
    eapply (law_quiet V sys laws _ _ keep _ _ Hx); [|auto].
    simpl. by apply negb_true_iff, Z.eqb_neq. }
  by destruct (negb (rc r =? 0)).
Qed.

Lemma calm_serve keep amb rq : reading keep rq = true → calm keep (serve sys self amb rq).
Proof.
  destruct rq; intros Hr; try done; cbn [serve]; unfold respond;
    try (apply calm_bind; [|intros ?; apply calm_ret]).
  - apply calm_lookup.
  - apply calm_getattr.
  - apply calm_open. simpl in Hr. apply orb_true_iff in Hr as [Hr|Hr]; apply negb_true_iff in Hr; auto.
  - apply calm_read.
  - unfold do_fsync. calm.
  - apply calm_release. by apply negb_true_iff.
  - apply calm_opendir.
  - apply calm_readdir.
  - unfold do_releasedir. apply calm_bind; [apply calm_close; by apply negb_true_iff|calm].
  - unfold do_readlink. calm.
  - apply calm_getxattr.
  - apply calm_listxattr.
  - apply calm_statfs.
Qed.

(** *** The cache directory *)
Definition loses d d' : Prop := ∀ p : path, nodes d' !! p = nodes d !! p ∨ nodes d' !! p = None.

Lemma loses_refl d : loses d d. Proof. by left. Qed.
Lemma loses_trans d1 d2 d3 : loses d1 d2 → loses d2 d3 → loses d1 d3.
Proof. intros H1 H2 p. destruct (H2 p) as [->|]; auto. Qed.

Lemma remove_file_loses d p d' : Disk.remove_file d p = Ok d' → loses d d'.
Proof.
  unfold Disk.remove_file. destruct (nodes d !! p) as [[f|]|]; [|done..]. case_decide; [done|].
  intros [= <-] q. simpl. destruct (decide (p = q)) as [-> |Hne].
  - right. apply lookup_delete_eq.
  - left. by apply lookup_delete_ne.
Qed.

Lemma evict_one_loses rel s s' : Manager.evict_one cm rel s = Some s' → loses s.1 s'.1.
Proof.
  unfold Manager.evict_one. destruct (Disk.remove_file _ _) eqn:E; [|done].
  intros [= <-]. by eapply remove_file_loses.
Qed.

#[local] Instance loses_preorder : PreOrder (λ s s' : Store, loses s.1 s'.1).
Proof. split; [intros s; apply loses_refl|intros s1 s2 s3; apply loses_trans]. Qed.

Lemma drop_stale_loses rel why s : loses s.1 (Manager.drop_stale cm rel why s).1.1.
Proof.
  destruct s as [d db]. unfold Manager.drop_stale.
  destruct (Disk.remove_file _ _) eqn:E; [by eapply remove_file_loses|apply loses_refl].
Qed.

Lemma sweep_row_loses now backing acc row :
  loses acc.1.1.1 (Manager.sweep_row now cm backing acc row).1.1.1.
Proof.
  destruct acc as [[[d db] k] n], row as [rel fp]. unfold Manager.sweep_row.
  destruct (Manager.is_stale_with_fingerprint backing rel fp);
    first [apply loses_refl|apply (drop_stale_loses _ _ (d, db))].
Qed.

Lemma cached_iff d rel : rel ≠ [] →
  Manager.is_cached cm d rel = true ↔
    is_Some (nodes d !! Manager.cache_path cm rel) ∧ Disk.is_partial (Manager.cache_path cm rel) = false.
Proof.
  intros Hne. unfold Manager.is_cached, Disk.path_exists. rewrite decide_False.
  - rewrite andb_true_iff, negb_true_iff, bool_decide_eq_true. done.
  - unfold Manager.cache_path. by intros [_ ?]%app_eq_nil.
Qed.

(** Whatever a served path held before, or its bytes, it holds now. *)
Lemma mirrors_step w d d' :
  (∀ rel c, tree V w rel = Some c → Disk.is_partial (Manager.cache_path cm rel) = false →
     let p := Manager.cache_path cm rel in
     nodes d' !! p = nodes d !! p ∨ nodes d' !! p = None ∨
     ∃ f, nodes d' !! p = Some (File f) ∧ contents f = c) →
  mirrors cm (tree V w) d → mirrors cm (tree V w) d'.
Proof.
  intros Hstep Hm rel c HT Hc. destruct (law_names V sys laws _ _ _ HT) as [Hne _].
  apply cached_iff in Hc as [[n Hn] Hp]; [|done].
  destruct (Hstep rel c HT Hp) as [E|[E|Hf]]; [|congruence|done].
  rewrite E in Hn |- *. apply (Hm rel c HT). apply cached_iff; eauto.
Qed.

Lemma mirrors_loses w d d' : loses d d' → mirrors cm (tree V w) d → mirrors cm (tree V w) d'.
Proof. intros Hl. apply mirrors_step. intros rel c _ _. destruct (Hl (Manager.cache_path cm rel)); auto. Qed.

(** *** Copies *)
Lemma copy_loop_reads env c reads i d p :
  reads_from c reads → (CacheIO.copy_loop env reads i d p).2 = Ok tt → CacheIO.delivered reads = c.
Proof.
  revert c i d. induction reads as [|[chunk|e] reads IH]; intros c i d; simpl; [congruence| |done].
  case_decide; [by intros ->|]. intros (c' & -> & Hr). destruct (ce_write env i) as [[]|]; [done|].
  intros Hok. by erewrite IH.
Qed.

Lemma perform_copy_inner_loop env d dest p d' m :
  CacheIO.perform_copy_inner env d dest p = (d', Ok m) →
  ∃ d1, (CacheIO.copy_loop env (ce_reads env) 0 d1 p).2 = Ok tt.
Proof.
  unfold CacheIO.perform_copy_inner. destruct (ce_open env); [|done].
  destruct (Disk.open_truncate d p) as [d1|]; [|done]. exists d1.
  destruct (CacheIO.copy_loop env (ce_reads env) 0 d1 p) as [d2 [[]|]]; done.
Qed.

(** A directory made for a copy is in no file's place. *)
Lemma new_dir_above w env rel rel' c d :
  honest V w rel env → tree V w rel' = Some c →
  ¬ DiskFacts.new_dir_on d (parent (Manager.cache_path cm rel)) (Manager.cache_path cm rel').
Proof.
  intros [[Hne _] Habove _] HT [_ [q Hq]%starts_with_true].
  assert (Hx : ∃ x, Manager.cache_path cm rel = parent (Manager.cache_path cm rel) ++ [x]).
  { destruct rel as [|x rel _] using rev_ind; [done|]. exists x. unfold Manager.cache_path.
    by rewrite app_assoc, parent_snoc. }
  destruct Hx as [x Hx]. rewrite Hq in Hx. unfold Manager.cache_path in Hx.
  rewrite <- !app_assoc in Hx. apply app_inv_head in Hx.
  rewrite (Habove rel' (q ++ [x]) Hx) in HT; [done|]. by intros [_ ?]%app_eq_nil.
Qed.

(** What a copy does to the paths the cache serves. *)
Lemma copy_mirrors w env rel d :
  real_path (cache_dir cm) → honest V w rel env →
  mirrors cm (tree V w) d →
  mirrors cm (tree V w) (CacheIO.perform_copy env d (Manager.cache_path cm rel)).1.
Proof.
  intros Hdir Hh. pose proof Hh as [[Hne Hreal] _ Hreads]. apply mirrors_step. intros rel' c HT Hp. cbn zeta.
  set (dest := Manager.cache_path cm rel).
  assert (Hpart : Manager.cache_path cm rel' ≠ CacheIO.partial_path dest).
  { intros E. rewrite E, partial_is_partial in Hp; [done|by intros [_ ?]%app_eq_nil|by apply Forall_app]. }
  pose proof (λ d0, new_dir_above w env rel rel' c d0 Hh HT) as Hdirs.
  destruct (CacheIO.perform_copy env d dest) as [d' [m|e]] eqn:E; cbn [fst].
  - apply CopyFacts.perform_copy_split in E as (d1 & [_ C1] & Hi).
    destruct (CopyFacts.perform_copy_inner_ok _ _ _ _ _ Hi) as (src & f & Hsrc & _ & _ & _ & Hf & Hc & _ & _ & [_ C2]).
    destruct (decide (rel' = rel)) as [-> |Hr].
    + right; right. exists f. split; [done|].
      destruct (Hreads src Hsrc) as (c0 & HT0 & Hr). rewrite HT in HT0. injection HT0 as ->.
      apply perform_copy_inner_loop in Hi as [d2 Hl]. rewrite Hc. by eapply copy_loop_reads.
    + left. rewrite C2, C1; [done|apply Hdirs|].
      intros [?|Heq]; [done|]. apply Hr. by eapply app_inv_head.
  - left. apply CopyFacts.perform_copy_err in E as [_ C]. apply C.
    intros [?|?]; [done|]. by eapply Hdirs.
Qed.

(** *** Steps *)
Hypothesis Hdir : real_path (cache_dir cm).

Lemma cache_op_mirrors w i i' :
  cache_op V statvfs cm w i i' →
  mirrors cm (tree V w) (store i).1 → mirrors cm (tree V w) (store i').1.
Proof.
  destruct 1 as [size i|env rel i Hh|now rel r i|now backing rel i|now i|now backing i|rel why i|f i].
  - apply mirrors_loses. unfold CacheIO.populate_room. simpl.
    destruct (Manager.has_free_space _ _ _); [apply loses_refl|].
    apply (ManagerFacts.evict_to_fit_frame cm _ evict_one_loses).
  - intros Hm. pose proof (copy_mirrors w env rel _ Hdir Hh Hm) as Hc. unfold CacheIO.populate_copy.
    by destruct (CacheIO.perform_copy _ _ _).
  - by destruct r.
  - apply mirrors_loses. unfold CacheIO.validate_body.
    destruct (Manager.is_stale _ _ _ _); try apply loses_refl; [|apply drop_stale_loses].
    unfold CacheIO.submit_replace, CacheIO.submit_job, CacheIO.submit_locked. simpl.
    destruct (known _ !! _); apply loses_refl.
  - apply mirrors_loses, (ManagerFacts.evict_if_needed_frame cm _ evict_one_loses).
  - apply mirrors_loses, (ManagerFacts.sweep_stale_frame cm (λ s s', loses s.1 s'.1)). intros. apply sweep_row_loses.
  - apply mirrors_loses, drop_stale_loses.
  - done.
Qed.

Lemma mount_step_ok keep st st' :
  mount_step V sys statvfs self cm keep st st' → coherent V cm st →
  coherent V cm st' ∧ tree V (world st') = tree V (world st) ∧
  (∀ c, data V (world st) keep = Some c → data V (world st') keep = Some c).
Proof.
  unfold coherent, shows. destruct 1 as [amb rq st Hr|st i i' w' Hi Hop [Ht Hd Hs]]; intros [Hm Hsh].
  - destruct (calm_serve keep amb rq Hr st) as [E1 E2 E3 E4]. rewrite E1, E2, E3. auto.
  - simpl. rewrite Ht, Hd. split_and!; [|done..]. rewrite <- Hi in Hm. by eapply cache_op_mirrors.
Qed.

Lemma mount_steps_ok keep st st' :
  rtc (mount_step V sys statvfs self cm keep) st st' → coherent V cm st →
  coherent V cm st' ∧ tree V (world st') = tree V (world st) ∧
  (∀ c, data V (world st) keep = Some c → data V (world st') keep = Some c).
Proof.
  induction 1 as [st|st1 st2 st3 Hs _ IH]; [auto|]. intros Hc.
  destruct (mount_step_ok _ _ _ Hs Hc) as (Hc2 & Ht & Hd). destruct (IH Hc2) as (? & ? & ?).
  split_and!; [done|congruence|auto].
Qed.

(** *** Opening *)
Hypothesis Hcm : fs_cache self = Some cm.

Lemma try_open_data now p filtered st fd out st1 c :
  coherent V cm st → tree V (world st) p = Some c →
  try_open sys self now p filtered st = (Val (fd, out), st1) →
  data V (world st1) fd = Some c ∧ as_u64 fd = fd.
Proof.
  intros [Hm Hs] HT. destruct (law_names V sys laws _ _ _ HT) as [Hne Hreal].
  assert (Hu : ∀ r w w' p flags mode, sys (Openat p flags mode) w = (r, w') ∨ sys (Open p flags) w = (r, w') →
    0 <= rc r → as_u64 (rc r) = rc r).
  { intros r w w' q flags mode Hr%(law_descriptor V sys laws) ?. apply as_u64_id. int_bounds. lia. }
  unfold try_open. rewrite Hcm. intros (s & st2 & [= <- <-] & Hx)%Handles.bind_val.
  apply Handles.bind_val in Hx as (hit & st2 & Hh & Hx).
  assert (Hst2 : match hit with
                 | Some fd => data V (world st2) fd = Some c ∧ as_u64 fd = fd
                 | None => tree V (world st2) = tree V (world st)
                 end).
  { clear Hx. destruct (negb _ && _) eqn:Hcached; [|by injection Hh as <- <-].
    apply andb_true_iff in Hcached as [_ Hcached].
    destruct (Hm p c HT Hcached) as (f & Hf & <-). apply Hs in Hf.
    apply Handles.bind_val in Hh as (r & st3 & Hl & Hh). unfold lift in Hl.
    destruct (sys (Open _ _) (world st)) as [r' w'] eqn:Ho. injection Hl as -> <-.
    destruct (Z.leb_spec 0 (rc r)).
    - apply Handles.bind_val in Hh as (u & st4 & [= _ <-] & [= <- <-]). simpl. split; [|by eapply (Hu _ _ _ _ O_RDONLY 0); eauto].
      eapply (law_open V sys laws); [|done|exact Hf].
      rewrite <- Ho. f_equal. unfold abs_to_cstring. by rewrite real_no_nul by (by apply Forall_app).
    - injection Hh as <- <-. simpl. by apply (law_quiet V sys laws _ _ 0 _ _ Ho). }
  destruct hit as [fd'|]; [by injection Hx as <- _ <-|].
  apply Handles.bind_val in Hx as (fd' & st3 & Ht & Hx). injection Hx as <- _ <-.
  apply Handles.bind_val in Ht as (r & st4 & Hl & Ht). unfold lift, BackingStore.open_file, BackingStore.open_file_with_flags in Hl.
  unfold mbind, state_bind in Hl. rewrite <- Hst2 in HT.
  destruct (sys (Openat _ _ _) (world st2)) as [r' w'] eqn:Ho.
  destruct (Z.ltb_spec (rc r') 0); injection Hl as <- <-; [done|]. injection Ht as <- <-. simpl.
  split; [|by eauto]. eapply (law_openat V sys laws); [|done|exact HT].
  rewrite <- Ho. f_equal. f_equal. unfold rel_to_cstring. by rewrite real_no_nul.
Qed.

(** A handle opened for reading reads the file its inode names. *)
Lemma open_data amb ino flags st fh st1 p c :
  coherent V cm st → is_write_intent flags = false →
  serve sys self amb (OpenFile ino flags) st = (Val (ROpened fh), st1) →
  InodeTable.get_path (inodes st) ino = Some p → tree V (world st) p = Some c →
  data V (world st1) fh = Some c.
Proof.
  intros Hc Hw (fh' & st2 & Ho & [= <- <-])%Handles.bind_val Hp HT. unfold open in Ho. rewrite Hw in Ho.
  apply Handles.bind_val in Ho as (p' & st3 & Hpath & Ho).
  unfold path_for_ino, gets in Hpath. apply Handles.bind_val in Hpath as (o & st4 & [= <- <-] & Hpath).
  rewrite Hp in Hpath. injection Hpath as <- <-.
  apply Handles.bind_val in Ho as (b & st5 & Hs & Ho).
  pose proof (calm_suppress 0 (mono amb) p st) as [E1 E2 E3 _]. rewrite Hs in E1, E2, E3. simpl in *.
  apply Handles.bind_val in Ho as ([fd out] & st6 & Ht & Ho).
  assert (Hc5 : coherent V cm st5) by (unfold coherent, shows; by rewrite E1, E2, E3).
  rewrite <- E2 in HT. destruct (try_open_data _ _ _ _ _ _ _ _ Hc5 HT Ht) as [Hd Hfd].
  apply Handles.bind_val in Ho as ([] & st7 & Hev & Ho). apply Handles.bind_val in Ho as ([] & st8 & [= <-] & [= <- <-]).
  simpl. rewrite Hfd.
  match type of Hev with match ?x with _ => _ end _ = _ => destruct x as [ev|] end;
    injection Hev as <-; [|done]. simpl. by destruct (engine self).
Qed.
(** *** Reading *)
Lemma read_slice amb fh off size st d st' c :
  0 <= off < 2 ^ 64 → data V (world st) fh = Some c →
  serve sys self amb (Read fh off size) st = (Val (RData d), st') → slice c off size d.
Proof.
  intros Hoff Hd (s & st1 & Hr & [= -> <-])%Handles.bind_val. unfold do_read in Hr.
  apply Handles.bind_val in Hr as (r & st2 & Hl & Hr). unfold lift in Hl.
  destruct (sys (Pread fh size (as_i64 off)) (world st)) as [r' w'] eqn:Hs. injection Hl as -> <-.
  destruct (Z.ltb_spec (rc r) 0); [done|]. injection Hr as <- _.
  destruct (law_pread V sys laws _ _ _ _ _ _ _ Hs ltac:(lia) Hd) as (Hge & _ & Hsl).
  rewrite as_i64_id in Hsl; [done|]. revert Hge. clear -Hoff. unfold as_i64. rewrite Z.mod_small by lia.
  int_bounds. case_match; to_prop; lia.
Qed.

End facts.
End TransparencyFacts.

(** ** Theorem *)
Module TransparencyTheorems.
Import FsCache Transparency TransparencyFacts.


(** ** A concrete kernel

    One backing file; descriptors are numbered as they are opened.  Its world is what the SSD shows
    and the open descriptors. *)
Record Kernel := mkKernel { k_ssd : gmap path string; k_fds : gmap Z string }.

Definition backing_files : gmap path string := {[ ["a"]%string := "hello"%string ]}.

Definition blank : stat := FuseTheorems.a_stat 100.
Definition refuse (e : Z) (w : Kernel) : reply * Kernel := (mkReply (-1) e blank "" [], w).
Definition answer (n : Z) (out : string) (w : Kernel) : reply * Kernel := (mkReply n 0 blank out [], w).

Definition open_as (o : option string) (w : Kernel) : reply * Kernel :=
  let fd := Z.of_nat (base.size (k_fds w)) in
  match o, k_fds w !! fd with
  | Some c, None => if fd <? 2 ^ 31 then answer fd "" (mkKernel (k_ssd w) (<[fd := c]> (k_fds w)))
                    else refuse 24 w
  | Some _, Some _ => refuse 24 w
  | None, _ => refuse ENOENT w
  end.

Definition kernel (call : syscall) : State Kernel reply := λ w,
  match call with
  | Openat p _ _ => open_as (backing_files !! p) w
  | Open p _ => open_as (k_ssd w !! p) w
  | Pread fd size off =>
      match k_fds w !! fd with
      | Some c => if (0 <=? off) && (0 <=? size)
                  then let d := String.substring (Z.to_nat off) (Z.to_nat size) c in
                       answer (Z.of_nat (String.length d)) d w
                  else refuse 22 w
      | None => refuse 9 w
      end
  | Backing.Close fd => answer 0 "" (mkKernel (k_ssd w) (delete fd (k_fds w)))
  | Fstatat p _ => match backing_files !! p with Some _ => answer 0 "" w | None => refuse ENOENT w end
  | _ => refuse 38 w
  end.

Definition kernel_view : View Kernel :=
  mkView Kernel (λ _ p, backing_files !! p) (λ w p, k_ssd w !! p) (λ w fd, k_fds w !! fd).

Lemma length_substring_at n m s :
  String.length (String.substring n m s) = Nat.min m (String.length s - n).
Proof.
  revert n m. induction s as [|c s IH]; intros [|n] [|m]; simpl; try done; rewrite IH; simpl; lia.
Qed.

Lemma substring_again n m s :
  String.substring n (String.length (String.substring n m s)) s = String.substring n m s.
Proof.
  revert n m. induction s as [|c s IH]; intros [|n] [|m]; simpl; try done.
  - by rewrite IH.
Qed.

Lemma open_as_spec o w r w' :
  open_as o w = (r, w') →
  k_ssd w' = k_ssd w ∧ rc r < 2 ^ 31 ∧
  (∀ fd c, k_fds w !! fd = Some c → k_fds w' !! fd = Some c) ∧
  (0 <= rc r → k_fds w !! rc r = None ∧ ∀ c, o = Some c → k_fds w' !! rc r = Some c).
Proof.
  unfold open_as, refuse, answer. intros Ho.
  destruct o as [c|], (k_fds w !! _) as [c'|] eqn:E; try destruct (Z.ltb_spec (Z.of_nat (base.size (k_fds w))) (2 ^ 31));
    injection Ho as <- <-; simpl; split_and!; try done; try lia.
  - intros fd c0 Hfd. rewrite lookup_insert_ne; [done|]. congruence.
  - intros _. split; [done|]. intros c0 [= <-]. apply lookup_insert_eq.
Qed.

Lemma kernel_lawful : kernel_laws kernel_view kernel.
Proof.
  split; simpl.
  - intros _ p c Hp. unfold backing_files in Hp. apply lookup_singleton_Some in Hp as [<- _]. split; [done|]. by repeat constructor.
  - intros w p c r w' (_ & _ & _ & Hr)%open_as_spec Hge Hp. by apply Hr.
  - intros w p c r w' (_ & _ & _ & Hr)%open_as_spec Hge Hp. by apply Hr.
  - intros w p _ _ r w' (_ & _ & _ & Hr)%open_as_spec Hge. by apply Hr.
  - intros w p _ _ r w' [Ho|Ho]; by apply open_as_spec in Ho as (_ & ? & _).
  - intros w fd size off c r w' Hs Hge Hc. rewrite Hc in Hs.
    destruct (Z.leb_spec 0 off), (Z.leb_spec 0 size); simpl in Hs; injection Hs as <- <-; simpl in *; try lia.
    rewrite Nat2Z.id, substring_all. split_and!; [done|done|]. split.
    + by rewrite substring_again.
    + rewrite length_substring_at. lia.
    + intros He. apply (f_equal String.length) in He. rewrite length_substring_at in He. simpl in He. lia.
  - intros w call keep r w' Hs Hq. destruct call; cbn [kernel quiet_call] in Hs, Hq; try done;
      try (apply open_as_spec in Hs as (-> & _ & Hf & _); split_and!; [done..|by apply Hf]);
      cbv beta in Hs; unfold refuse, answer in Hs; repeat case_match; injection Hs as _ <-; try done.
    split_and!; [done..|]. intros c Hc. simpl. rewrite lookup_delete_ne; [done|].
    intros ->. by rewrite Z.eqb_refl in Hq.
Qed.

(** ** A run: the file is copied, opened on its copy, and the copy is dropped before it is read *)
Definition the_manager : CacheManager := ManagerWitnesses.some_manager.
Definition the_config : FsConfig := FuseTheorems.plain_config (Some the_manager).
Definition no_statvfs (d : Disk) (p : path) : option Statvfs := None.

Definition hello_env : CopyEnv :=
  mkCopyEnv (Ok blank) [Ok "hel"; Ok "lo"; Ok ""]%string (λ _, None) None false None None None None.

Definition shown (d : Disk) : gmap path string :=
  omap (λ n, match n with File f => Some (contents f) | Dir => None end) (nodes d).

Definition cached (i : Io) (st : FsState Kernel) : FsState Kernel :=
  set_world (mkKernel (shown (store i).1) (k_fds (world st))) (set_ssd (store i) st).

Definition io_of (st : FsState Kernel) : Io := mkIo (mkPipelineState [] ∅) ∅ 0 (ssd st).

Definition fresh_mount : FsState Kernel :=
  mkFsState InodeTable.new ∅ ∅ ∅ ∅ ∅ FuseTheorems.empty_store [] [] (mkKernel ∅ ∅).

Definition ask (rq : FsRequest) (st : FsState Kernel) : FsState Kernel :=
  (serve kernel the_config FuseTheorems.some_ambient rq st).2.

Definition looked_up : FsState Kernel := ask (Lookup 1 "a") fresh_mount.
Definition copied : FsState Kernel :=
  cached (CacheIO.populate_copy the_manager hello_env ["a"]%string (io_of looked_up)).1 looked_up.
Definition opened : FsState Kernel := ask (OpenFile 2 O_RDONLY) copied.
Definition dropped : FsState Kernel :=
  cached (CacheIO.with_store (Manager.drop_stale the_manager ["a"]%string SizeLimit (ssd opened)).1 (io_of opened)) opened.

Lemma shown_shows d fds : shows kernel_view (mkKernel (shown d) fds) d.
Proof. intros p f Hp. simpl. unfold shown. by rewrite lookup_omap, Hp. Qed.

Lemma cached_step k i' st :
  cache_op kernel_view no_statvfs the_manager (world st) (io_of st) i' →
  mount_step kernel_view kernel no_statvfs the_config the_manager k st (cached i' st).
Proof. intros Hop. apply (mount_cache _ _ _ _ _ _ _ (io_of st)); [done|done|]. split; [done..|apply shown_shows]. Qed.


(** ** Where the promise ends

    A directory of the SSD in a file's place counts as its copy.  It is left there when a backing
    directory whose files were cached is replaced by a file of its name: evicting the files does
    not remove it.  The file is then opened on the directory, and cannot be read. *)
Definition left_disk : Disk :=
  let d := (CacheIO.perform_copy CopyTheorems.good_env CopyTheorems.empty_disk ["c"; "a"; "b"]%string).1 in
  Disk.try_remove d ["c"; "a"; "b"]%string.

(** Opening a directory succeeds, reading it is [EISDIR]. *)
Definition dir_kernel (call : syscall) : State Kernel reply := λ w,
  match call with
  | Open p _ => if Disk.is_dir left_disk p then answer 9 "" w else refuse ENOENT w
  | Pread 9 _ _ => refuse EISDIR w
  | _ => kernel call w
  end.

Lemma directory_shadows_file :
  let st := set_ssd (left_disk, DbWitnesses.fresh_db) fresh_mount in
  let st1 := (serve dir_kernel the_config FuseTheorems.some_ambient (Lookup 1 "a") st).2 in
  let '(o, st2) := serve dir_kernel the_config FuseTheorems.some_ambient (OpenFile 2 O_RDONLY) st1 in
  backing_files !! ["a"]%string = Some "hello"%string ∧
  o = Val (ROpened 9) ∧ sent st2 = [ActionEngine.hit ["a"]%string] ∧
  (serve dir_kernel the_config FuseTheorems.some_ambient (Read 9 0 5) st2).1 = Fail EISDIR.
Proof. by vm_compute. Qed.
End TransparencyTheorems.
