(* ===== verification/Coherence.v ===== *)
(** * The cache while the backing files change

    [src/cache/manager.rs] decides whether a copy is still good by its row: the size and the
    modification time of the source when it was copied, compared with the file as it is now.  The row
    and the copy are written at different moments, by tasks that interleave with each other, with
    requests and with whoever changes the backing files.  Here that verdict is shown to be right,
    and the round of validation, replacement and commit that follows a change to end in it. *)
From S2P Require Import Prelude Paths Backing Disk Inode Db Manager CacheIo Preset Engine Fuse FuseSpec.
From S2P Require Import Transparency.

(** A backing path at one moment: the file's attributes and bytes, or nothing. *)
Abbreviation Version := (option (stat * string)).

(** The cache, the copies done whose rows are not written yet, and the versions of every path so
    far, the current one last. *)
Record Mounted := mkMounted {
  cache : Store; pending : list (path * SourceMetadata); history : path → list Version;
}.

Module Coherence.
Import FsCache.

(** What a row keeps of a version. *)
Definition stamp (s : stat) : Fingerprint :=
  mkFingerprint (st_mtime s) (st_mtime_nsec s) (as_u64 (st_size s)).
Definition meta_stamp (m : SourceMetadata) : Fingerprint :=
  mkFingerprint (mtime_sec m) (mtime_nsec m) (size m).

Definition live (m : Mounted) (rel : path) : option stat :=
  match last (history m rel) with Some (Some (s, _)) => Some s | _ => None end.
Definition live_bytes (m : Mounted) (rel : path) : option string :=
  match last (history m rel) with Some (Some (_, b)) => Some b | _ => None end.

(** A change of a file shows in its size or modification time, which are not those of an earlier
    version; no file is dated at the epoch, which the code takes for a missing fingerprint. *)
Definition admissible (h : list Version) (v : Version) : Prop :=
  match v with
  | None => True
  | Some (s, _) =>
      0 <= st_size s < 2 ^ 63 ∧ Manager.zero_fingerprint (stamp s) = false ∧
      ∀ s' b', Some (s', b') ∈ h → stamp s' ≠ stamp s
  end.

(** A copy: the file it opened is one of the versions; when it looks again before the commit it
    sees the current one, and nothing only when the file is gone; and when size and time have
    not changed in between, its reads were those of that file. *)
Record faithful (h : list Version) (env : CopyEnv) : Prop := {
  faithful_open src : ce_open env = Ok src → ∃ b, Some (src, b) ∈ h;
  faithful_final src : ce_open env = Ok src →
    match ce_final env with
    | None => last h = Some None
    | Some s => ∃ b, last h = Some (Some (s, b)) ∧
                  (CacheIO.source_changed src s = false → Transparency.reads_from b (ce_reads env))
    end;
}.

Section machine.
Context {W : Type} `{MapOrder} (sys : syscall → State W reply) (self : FsConfig).
Context (statvfs : Disk → path → option Statvfs) (cm : CacheManager).

Definition set_cache (s : Store) (m : Mounted) : Mounted := mkMounted s (pending m) (history m).
Definition set_history (rel : path) (v : Version) (m : Mounted) : Mounted :=
  mkMounted (cache m) (pending m) (λ q, if decide (q = rel) then history m q ++ [v] else history m q).

(** The operations on a store, for any state of the queue. *)
Definition on_store (f : Io → Io) (i : Io) (m : Mounted) : Mounted :=
  set_cache (store (f (CacheIO.with_store (cache m) i))) m.

Definition copied (rel : path) (r : result io_error SourceMetadata) (l : list (path * SourceMetadata)) :=
  match r with Ok meta => l ++ [(rel, meta)] | Err _ => l end.

Inductive cstep : Mounted → Mounted → Prop :=
  | c_change m rel v : admissible (history m rel) v → cstep m (set_history rel v m)
  | c_request m amb rq st :
      ssd st = cache m → cstep m (set_cache (ssd (serve sys self amb rq st).2) m)
  | c_copy m env rel i i' r :
      rel ≠ [] → Transparency.real_path rel → faithful (history m rel) env →
      CacheIO.populate_copy cm env rel (CacheIO.with_store (cache m) i) = (i', r) →
      cstep m (mkMounted (store i') (copied rel r (pending m)) (history m))
  | c_commit m now i rel meta l1 l2 :
      pending m = l1 ++ (rel, meta) :: l2 →
      cstep m (mkMounted (store (CacheIO.populate_commit cm now rel (Ok meta)
                                   (CacheIO.with_store (cache m) i))) (l1 ++ l2) (history m))
  | c_room m size i : cstep m (on_store (λ i, (CacheIO.populate_room statvfs cm size i).1) i m)
  | c_validate m now rel i :
      cstep m (on_store (CacheIO.validate_body cm now (Some (live m)) rel) i m)
  | c_evict m now i : cstep m (on_store (CacheIO.eviction_worker_tick cm now) i m)
  | c_sweep m now :
      cstep m (set_cache (Manager.sweep_stale now cm (Some (live m)) (cache m)).1.1 m)
  | c_drop m rel why : cstep m (set_cache (Manager.drop_stale cm rel why (cache m)).1 m)
  | c_other m db :
      cache_files (tables db) = cache_files (tables (cache m).2) → pragmas db = pragmas (cache m).2 →
      cstep m (set_cache ((cache m).1, db) m).

(** An empty cache over files that exist, each in one version. *)
Definition started (m : Mounted) : Prop :=
  cache_files (tables (cache m).2) = ∅ ∧ query_only (pragmas (cache m).2) = false ∧
  (∀ rel f, rel ≠ [] → nodes (cache m).1 !! Manager.cache_path cm rel ≠ Some (File f)) ∧
  pending m = [] ∧
  (∀ rel, history m rel = [] ∨ ∃ v, history m rel = [v] ∧ admissible [] v).

Definition reachable (m : Mounted) : Prop := ∃ m0, started m0 ∧ rtc cstep m0 m.
End machine.
End Coherence.

(** ** The invariant *)
Module CoherenceFacts.
Import FsCache Coherence Transparency TransparencyFacts.

(** *** Steps that only remove copies and keep what rows are about *)
Definition rows_keep (db db' : CacheDb) : Prop :=
  query_only (pragmas db') = query_only (pragmas db) ∧
  (query_only (pragmas db) = false → ∀ k r', cache_files (tables db') !! k = Some r' →
     ∃ r, cache_files (tables db) !! k = Some r ∧ CacheDb.row_fingerprint r' = CacheDb.row_fingerprint r).

Definition shrinks (s s' : Store) : Prop := loses s.1 s'.1 ∧ rows_keep s.2 s'.2.

Lemma rows_keep_refl db : rows_keep db db. Proof. split; eauto. Qed.

#[export] Instance shrinks_preorder : PreOrder shrinks.
Proof.
  split.
  - intros s. split; [apply loses_refl|apply rows_keep_refl].
  - intros s1 s2 s3 [L1 [Q1 R1]] [L2 [Q2 R2]]. split; [by eapply loses_trans|].
    split; [congruence|]. intros Hq k r3 Hr3. destruct (R2 ltac:(congruence) k r3 Hr3) as (r2 & Hr2 & ->).
    by apply R1.
Qed.

Lemma rows_keep_alter (f : FileRow → FileRow) key db :
  (∀ r, CacheDb.row_fingerprint (f r) = CacheDb.row_fingerprint r) →
  rows_keep db (CacheDb.execute (CacheDb.on_files (alter f key)) db).
Proof.
  intros Hf. split; [apply DbFacts.query_only_execute|]. intros Hq k r'.
  rewrite DbFacts.execute_writable by done. simpl.
  intros [(-> & r & Hr & ->)|[_ Hr]]%lookup_alter_Some; eauto.
Qed.

Lemma rows_keep_delete key db : rows_keep db (CacheDb.execute (CacheDb.on_files (delete key)) db).
Proof.
  split; [apply DbFacts.query_only_execute|]. intros Hq k r'.
  rewrite DbFacts.execute_writable by done. simpl. intros [_ Hr]%lookup_delete_Some. eauto.
Qed.

Lemma rows_keep_same db db' :
  cache_files (tables db') = cache_files (tables db) → pragmas db' = pragmas db → rows_keep db db'.
Proof. intros Ht Hp. split; [by rewrite Hp|]. intros _ k r'. rewrite Ht. eauto. Qed.

Section store.
Context (cm : CacheManager).

Lemma rows_keep_refresh rel st db : rows_keep db (Manager.refresh_source_metadata cm rel st db).
Proof.
  split; [apply ManagerFacts.refresh_writable|]. intros Hq k r' Hr'.
  destruct (cache_files (tables db) !! k) as [r|] eqn:Hr.
  - destruct (ManagerFacts.refresh_lookup cm rel st db k r Hq Hr) as (r2 & Hr2 & Hfp & _).
    rewrite Hr2 in Hr'. injection Hr' as <-. eauto.
  - rewrite (ManagerFacts.refresh_lookup_None cm rel st db k Hq Hr) in Hr'. done.
Qed.

Lemma evict_one_shrinks rel s s' : Manager.evict_one cm rel s = Some s' → shrinks s s'.
Proof.
  intros He. split; [by eapply evict_one_loses|]. unfold Manager.evict_one in He.
  destruct (Disk.remove_file _ _); [|done]. injection He as <-. apply rows_keep_delete.
Qed.

Lemma drop_stale_shrinks rel why s : shrinks s (Manager.drop_stale cm rel why s).1.
Proof.
  split; [apply drop_stale_loses|]. destruct s as [d db]. unfold Manager.drop_stale.
  destruct (Disk.remove_file _ _); apply rows_keep_delete.
Qed.
End store.

(** *** A request changes no copy and no fingerprint *)
Section requests.
Context {W : Type} `{MapOrder} (sys : syscall → State W reply) (self : FsConfig).

Definition gentle {A} (m : FsM W A) : Prop := ∀ st, shrinks (ssd st) (ssd (m st).2).

Lemma gentle_bind {A B} (m : FsM W A) (f : A → FsM W B) :
  gentle m → (∀ a, gentle (f a)) → gentle (m ≫= f).
Proof.
  intros Hm Hf st. unfold mbind, fs_bind. specialize (Hm st).
  destruct (m st) as [[a|e| |] st1]; [|done..]. etrans; [done|apply Hf].
Qed.

Lemma gentle_still {A} (m : FsM W A) : (∀ st, ssd (m st).2 = ssd st) → gentle m.
Proof. intros Hm st. by rewrite Hm. Qed.

Lemma gentle_ret {A} (a : A) : gentle (mret a). Proof. by apply gentle_still. Qed.
Lemma gentle_gets {A} (f : FsState W → A) : gentle (gets f). Proof. by apply gentle_still. Qed.
Lemma gentle_fail {A} e : gentle (fail (A := A) e). Proof. by apply gentle_still. Qed.
Lemma gentle_of_option {A} e (o : option A) : gentle (of_option e o). Proof. by apply gentle_still; destruct o. Qed.
Lemma gentle_or_panic {A} (o : option A) : gentle (or_panic o). Proof. by apply gentle_still; destruct o. Qed.
Lemma gentle_lift {A} (m : State W A) : gentle (lift m).
Proof. apply gentle_still. intros st. unfold lift. by destruct (m (world st)). Qed.
Lemma gentle_modify (f : FsState W → FsState W) : (∀ st, shrinks (ssd st) (ssd (f st))) → gentle (modify f).
Proof. intros Hf st. apply Hf. Qed.
Lemma gentle_try_io {A} (m : State W (result io_error A)) : gentle (try_io m).
Proof. apply gentle_bind; [apply gentle_lift|]. intros [a|e]; [apply gentle_ret|apply gentle_fail]. Qed.
Lemma gentle_get_or_create p : gentle (get_or_create p).
Proof. apply gentle_still. intros st. unfold get_or_create. by destruct (InodeTable.get_or_create _ _) as [[]|]. Qed.
Lemma gentle_suppress now p : gentle (should_suppress_log self now p).
Proof. apply gentle_still. intros st. unfold should_suppress_log. by repeat case_match. Qed.

Lemma shrinks_refresh (s : Store) cm p live :
  shrinks s (s.1, Manager.refresh_source_metadata cm p live s.2).
Proof. split; [apply loses_refl|apply rows_keep_refresh]. Qed.

Lemma shrinks_hit (s : Store) now cm p : shrinks s (s.1, Manager.mark_hit now cm p s.2).
Proof. split; [apply loses_refl|by apply rows_keep_alter]. Qed.

Create HintDb gentle_db.
#[local] Hint Resolve gentle_ret gentle_gets gentle_fail gentle_of_option gentle_or_panic gentle_lift
  gentle_try_io gentle_get_or_create gentle_suppress shrinks_refresh shrinks_hit : gentle_db.

Ltac gentle_one :=
  lazymatch goal with
  | |- context [let '(_, _) := ?x in _] => destruct x
  | |- gentle (if ?b then _ else _) => destruct b
  | |- gentle (match ?x with _ => _ end) => destruct x
  | |- gentle (_ ≫= _) => apply gentle_bind; [|intros ?]
  | |- gentle (modify _) =>
      apply gentle_modify; intros ?; repeat case_match; simpl; first [done|solve [eauto with gentle_db]]
  | |- gentle (respond _ _) => unfold respond
  | |- _ => solve [eauto with gentle_db]
  end.
Ltac gentle := repeat gentle_one.

Lemma gentle_stat p : gentle (stat_backing sys p). Proof. apply gentle_lift. Qed.
Lemma gentle_path_for_ino ino : gentle (path_for_ino (W := W) ino). Proof. unfold path_for_ino. gentle. Qed.
Lemma gentle_child_path parent name : gentle (child_path (W := W) parent name).
Proof. unfold child_path, path_for_ino. gentle. Qed.
#[local] Hint Resolve gentle_stat gentle_path_for_ino gentle_child_path : gentle_db.

Lemma gentle_cached_attr p ino : gentle (cached_regular_attr sys self p ino).
Proof. unfold cached_regular_attr. gentle. Qed.
Lemma gentle_fresh_attr p : gentle (fresh_attr_for_path sys p).
Proof. unfold fresh_attr_for_path. gentle. Qed.
Lemma gentle_open_write p flags mode : gentle (open_write_handle sys p flags mode).
Proof. unfold open_write_handle. gentle. Qed.
#[local] Hint Resolve gentle_cached_attr gentle_fresh_attr gentle_open_write : gentle_db.

Lemma gentle_dir_loop fuel dir p out : gentle (dir_loop sys fuel dir p out).
Proof. revert out. induction fuel as [|fuel IH]; intros out; [by apply gentle_still|]. simpl. unfold dirent_kind. gentle. Qed.

Lemma gentle_try_open now p filtered : gentle (try_open sys self now p filtered).
Proof. unfold try_open. gentle. Qed.

Lemma gentle_open proc now secs req ino flags : gentle (open sys self proc now secs req ino flags).
Proof. unfold open. pose proof gentle_try_open. gentle. Qed.

Lemma gentle_setattr now ino mode uid gid size atime mtime fh :
  gentle (do_setattr sys self now ino mode uid gid size atime mtime fh).
Proof. unfold do_setattr, when_some. gentle. Qed.

Lemma gentle_entry_reply p : gentle (entry_reply sys p).
Proof. unfold entry_reply. gentle. Qed.
Lemma gentle_owner p req : gentle (requester_owner sys p req).
Proof. unfold requester_owner. gentle. Qed.
#[local] Hint Resolve gentle_entry_reply gentle_owner : gentle_db.
Lemma gentle_chown p req : gentle (chown_to_requester sys p req).
Proof. unfold chown_to_requester. gentle. Qed.
Lemma gentle_fchown fd p req : gentle (fchown_to_requester sys fd p req).
Proof. unfold fchown_to_requester. gentle. Qed.
#[local] Hint Resolve gentle_chown gentle_fchown : gentle_db.

Lemma gentle_create req parent name mode umask flags : gentle (do_create sys req parent name mode umask flags).
Proof.
  unfold do_create. apply gentle_bind; [eauto with gentle_db|intros p].
  apply gentle_bind; [|intros fd; apply gentle_bind; [eauto with gentle_db|intros _]].
  - intros st. unfold create_handle. pose proof (gentle_open_write p (Z.lor (Z.lor flags O_CREAT) O_EXCL) (apply_umask mode umask) st).
    by destruct (open_write_handle _ _ _ _ st) as [[] st'].
  - intros st. unfold finish_create. pose proof (gentle_fresh_attr p st) as Hf.
    destruct (fresh_attr_for_path sys p st) as [[[ino a]|e| |] st']; [done| |done..].
    etrans; [exact Hf|]. unfold undo_create. match goal with |- shrinks _ (ssd (?m st').2) => assert (Hg : gentle m) by gentle end.
    apply Hg.
Qed.

Lemma gentle_readdir fuel room ino fh off : gentle (do_readdir sys fuel room ino fh off).
Proof. unfold do_readdir, list_dir_entries. pose proof gentle_dir_loop. gentle. Qed.

Lemma gentle_serve amb rq : gentle (serve sys self amb rq).
Proof.
  destruct rq; cbn [serve]; try (unfold respond; apply gentle_bind; [|intros ?; apply gentle_ret]).
  - unfold do_lookup. gentle.
  - unfold forget. gentle.
  - unfold do_getattr. gentle.
  - apply gentle_setattr.
  - unfold do_mknod. gentle.
  - unfold do_mkdir. gentle.
  - unfold do_unlink. gentle.
  - unfold do_rmdir. gentle.
  - unfold do_symlink. gentle.
  - unfold do_rename. gentle.
  - unfold do_link. gentle.
  - apply gentle_open.
  - unfold do_read. gentle.
  - unfold do_write. gentle.
  - gentle.
  - unfold do_fsync. gentle.
  - unfold release. gentle.
  - unfold do_opendir. gentle.
  - apply gentle_readdir.
  - unfold do_releasedir. gentle.
  - unfold do_readlink. gentle.
  - apply gentle_create.
  - unfold do_setxattr. gentle.
  - unfold do_getxattr. gentle.
  - unfold do_listxattr. gentle.
  - unfold do_removexattr. gentle.
  - unfold do_statfs. gentle.
Qed.
End requests.

(** *** What a copy leaves on the disk *)
Section copies.
Context `{MapOrder}.

(** A file of the disk after a copy was there before, or is the partial file or the copy. *)
Lemma copy_files env d dest d' r q f :
  CacheIO.perform_copy env d dest = (d', r) → q ≠ CacheIO.partial_path dest →
  nodes d' !! q = Some (File f) →
  nodes d !! q = Some (File f) ∧ (q = dest → is_err r = true) ∨
  ∃ src meta, q = dest ∧ r = Ok meta ∧ ce_open env = Ok src ∧
    contents f = CacheIO.delivered (ce_reads env) ∧
    (∃ d1, (CacheIO.copy_loop env (ce_reads env) 0 d1 (CacheIO.partial_path dest)).2 = Ok tt) ∧
    match ce_final env with
    | Some s => CacheIO.source_changed src s = false ∧ meta = SourceMetadata.from_stat s
    | None => meta = SourceMetadata.from_metadata src
    end.
Proof.
  intros Hc Hq Hf. unfold CacheIO.perform_copy, Disk.create_dir_all in Hc.
  destruct (DiskFacts.create_dirs_changes d [] (parent dest)) as [_ Hdirs].
  assert (Hd1 : ∀ d1, d1 = (Disk.create_dirs d [] (parent dest)).1 → nodes d1 !! q = Some (File f) →
    nodes d !! q = Some (File f)).
  { intros d1 -> Hd1. destruct (Hdirs q) as [E|E]; congruence. }
  destruct (Disk.create_dirs d [] (parent dest)) as [d1 [u|e1]]; simpl in Hd1.
  2:{ injection Hc as <- <-. left. split; [by apply (Hd1 d1)|done]. }
  destruct (CacheIO.perform_copy_inner env d1 dest (CacheIO.partial_path dest)) as [d2 [meta|e]] eqn:Hi;
    injection Hc as <- <-; simpl in Hf.
  - pose proof (perform_copy_inner_loop _ _ _ _ _ _ Hi) as Hloop.
    destruct (CopyFacts.perform_copy_inner_ok _ _ _ _ _ Hi) as (src & f' & Hsrc & _ & _ & Hfin & Hdest & Hcon & _ & _ & [_ C]).
    destruct (decide (q = dest)) as [-> |Hne].
    + right. exists src, meta. rewrite Hdest in Hf. injection Hf as <-. split_and!; try done.
    + left. split; [|done]. apply (Hd1 d1); [done|]. rewrite <- C; [done|]. by intros [?|?].
  - left. split; [|done]. apply (Hd1 d1); [done|].
    pose proof (CopyFacts.perform_copy_inner_err env d1 dest e) as C. rewrite Hi in C. destruct (C eq_refl) as [_ C1].
    destruct (DiskFacts.try_remove_changes d2 (CacheIO.partial_path dest)) as [_ C2].
    rewrite <- C1, <- C2 by done. exact Hf.
Qed.

End copies.

(** *** Copies are never older than what is noted about them *)
Section invariant.
Context (cm : CacheManager).
Implicit Types m : Mounted.

(** [fp] is the stamp of version [j]. *)
Definition dated (h : list Version) (j : nat) (fp : Fingerprint) : Prop :=
  ∃ s b, h !! j = Some (Some (s, b)) ∧ fp = stamp s.

(** A row, or one still to be written, says [fp] of the copy of [rel]. *)
Definition noted m (rel : path) (fp : Fingerprint) : Prop :=
  (∃ r, cache_files (tables (cache m).2) !! (rel, mount_id cm) = Some r ∧ fp = CacheDb.row_fingerprint r) ∨
  (∃ meta, (rel, meta) ∈ pending m ∧ fp = meta_stamp meta).

(** The copy holds version [i], unless that is the absence of the file. *)
Definition holds (h : list Version) (i : nat) (f : file) : Prop :=
  ∃ v, h !! i = Some v ∧ ∀ s b, v = Some (s, b) → contents f = b.

Definition served (d : Disk) (rel : path) (f : file) : Prop :=
  rel ≠ [] ∧ Disk.is_partial (Manager.cache_path cm rel) = false ∧
  nodes d !! Manager.cache_path cm rel = Some (File f).

Record inv m : Prop := {
  inv_writable : query_only (pragmas (cache m).2) = false;
  inv_stamps rel i j fp : dated (history m rel) i fp → dated (history m rel) j fp → i = j;
  inv_sane rel s b : Some (s, b) ∈ history m rel →
    0 <= st_size s < 2 ^ 63 ∧ Manager.zero_fingerprint (stamp s) = false;
  inv_noted rel fp : noted m rel fp → ∃ j, dated (history m rel) j fp;
  inv_meta rel meta : (rel, meta) ∈ pending m → 0 <= size meta < 2 ^ 63;
  inv_copies rel f : served (cache m).1 rel f →
    ∃ i, holds (history m rel) i f ∧ ∀ j fp, noted m rel fp → dated (history m rel) j fp → (j <= i)%nat;
}.

Lemma dated_app h h' j fp : dated h j fp → dated (h ++ h') j fp.
Proof. intros (s & b & Hj & ->). exists s, b. by rewrite (lookup_app_l_Some _ _ _ _ Hj). Qed.

Lemma dated_elem h j fp : dated h j fp → ∃ s b, Some (s, b) ∈ h ∧ fp = stamp s.
Proof. intros (s & b & Hj & ->). exists s, b. split; [by eapply list_elem_of_lookup_2|done]. Qed.

Lemma dated_lt h j fp : dated h j fp → (j < length h)%nat.
Proof. intros (s & b & Hj & _). by eapply lookup_lt_Some. Qed.

(** Removing copies and rows is fine. *)
Lemma inv_shrink m s : inv m → shrinks (cache m) s → inv (set_cache s m).
Proof.
  intros [Hw Hst Hsane Hn Hm Hc] [Hl [Hq Hr]]. specialize (Hr Hw).
  assert (Hnote : ∀ rel fp, noted (set_cache s m) rel fp → noted m rel fp).
  { intros rel fp [(r' & Hr' & ->)|Hp]; [|by right]. destruct (Hr _ _ Hr') as (r & ? & ->). left. eauto. }
  split; simpl; eauto.
  - intros rel f (Hne & Hp & Hf). destruct (Hl (Manager.cache_path cm rel)) as [E|E]; [|congruence].
    destruct (Hc rel f) as (i & Hi & Hj); [split_and!; congruence|]. eauto.
Qed.

(** A new version of a file: what is noted is about earlier ones. *)
Lemma inv_change m rel v : inv m → admissible (history m rel) v → inv (set_history rel v m).
Proof.
  intros [Hw Hst Hsane Hn Hm Hc] Hv.
  assert (Hlook : ∀ q, history (set_history rel v m) q =
    if decide (q = rel) then history m q ++ [v] else history m q) by done.
  assert (Hold : ∀ q j fp, noted m q fp → dated (history (set_history rel v m) q) j fp → dated (history m q) j fp).
  { intros q j fp Hno Hj. rewrite Hlook in Hj. case_decide as Hq; [subst q|done].
    destruct Hj as (s & b & [Hj|[Hge Hj]]%lookup_app_Some & ->); [by exists s, b|].
    apply list_lookup_singleton_Some in Hj as [_ ->]. destruct Hv as (_ & _ & Hv).
    destruct (Hn _ _ Hno) as (k & s' & b' & Hk & Heq). apply list_elem_of_lookup_2 in Hk.
    by destruct (Hv s' b' Hk). }
  split; simpl; try done.
  - intros q i j fp. case_decide as Hq; [subst q|by apply Hst].
    intros (s & b & Hi & ->) (s' & b' & Hj & Heq).
    apply lookup_app_Some in Hi as [Hi|[Hgi Hi]], Hj as [Hj|[Hgj Hj]].
    + eapply (Hst rel); [by exists s, b|by exists s', b'].
    + apply list_lookup_singleton_Some in Hj as [_ ->]. destruct Hv as (_ & _ & Hv).
      apply list_elem_of_lookup_2 in Hi. by destruct (Hv s b Hi).
    + apply list_lookup_singleton_Some in Hi as [_ ->]. destruct Hv as (_ & _ & Hv).
      apply list_elem_of_lookup_2 in Hj. by destruct (Hv s' b' Hj).
    + apply list_lookup_singleton_Some in Hi as [? _], Hj as [? _]. lia.
  - intros q s b. case_decide as Hq; [subst q|by apply Hsane].
    intros [He|He]%elem_of_app; [by eapply Hsane|]. apply list_elem_of_singleton in He as <-.
    destruct Hv as (? & ? & _). done.
  - intros q fp Hno. destruct (Hn q fp Hno) as (j & Hj). exists j. case_decide; [by apply dated_app|done].
  - intros q f Hs. destruct (Hc q f Hs) as (i & (w & Hw' & Hcon) & Hle). exists i. split.
    + exists w. split; [|done]. case_decide; [by apply lookup_app_l_Some|done].
    + intros j fp Hno Hj. eapply Hle; [done|]. by apply Hold.
Qed.

(** *** The steps *)
Context `{MapOrder}.

Lemma meta_stamp_stat s : 0 <= st_size s < 2 ^ 63 → meta_stamp (SourceMetadata.from_stat s) = stamp s.
Proof. intros Hs. unfold meta_stamp, stamp. simpl. by rewrite Z.max_l by lia. Qed.

(** The row of a successful copy is about a version: the current one unless the file is gone. *)
Lemma copied_version m rel env src meta :
  inv m → faithful (history m rel) env → ce_open env = Ok src →
  match ce_final env with
  | Some s => CacheIO.source_changed src s = false ∧ meta = SourceMetadata.from_stat s
  | None => meta = SourceMetadata.from_metadata src
  end →
  ∃ s b, Some (s, b) ∈ history m rel ∧ meta_stamp meta = stamp s ∧ size meta = as_u64 (st_size s).
Proof.
  intros Hi [Hopen Hfin] Hsrc Hm. specialize (Hopen src Hsrc). specialize (Hfin src Hsrc).
  destruct (ce_final env) as [s|].
  - destruct Hm as [_ ->], Hfin as (b & Hl & _). rewrite last_lookup in Hl. apply list_elem_of_lookup_2 in Hl.
    destruct (inv_sane m Hi rel s b Hl) as [Hs _]. exists s, b. split; [done|]. rewrite meta_stamp_stat by done.
    simpl. by rewrite Z.max_l by lia.
  - subst meta. destruct Hopen as [b Hb]. by exists src, b.
Qed.

Lemma inv_copy m env rel d' r :
  inv m → real_path (cache_dir cm) → rel ≠ [] → real_path rel → faithful (history m rel) env →
  CacheIO.perform_copy env (cache m).1 (Manager.cache_path cm rel) = (d', r) →
  inv (mkMounted (d', (cache m).2) (copied rel r (pending m)) (history m)).
Proof.
  intros Hi Hdir Hne Hreal Hf Hc.
  assert (Hnew : ∀ meta, r = Ok meta →
    ∃ s b, Some (s, b) ∈ history m rel ∧ meta_stamp meta = stamp s ∧ size meta = as_u64 (st_size s)).
  { intros meta ->. apply CopyFacts.perform_copy_split in Hc as (d1 & _ & Hin).
    destruct (CopyFacts.perform_copy_inner_ok _ _ _ _ _ Hin) as (src & f & Hsrc & _ & _ & Hm & _).
    by eapply copied_version. }
  assert (Hnote : ∀ q fp, noted (mkMounted (d', (cache m).2) (copied rel r (pending m)) (history m)) q fp →
    noted m q fp ∨ q = rel ∧ ∃ meta, r = Ok meta ∧ fp = meta_stamp meta).
  { intros q fp [Hr|(meta & Hin & ->)]; [by left; left|]. simpl in Hin.
    destruct r as [meta'|e]; simpl in Hin; [|left; right; eauto].
    apply elem_of_app in Hin as [Hin|Hin]; [left; right; eauto|].
    apply list_elem_of_singleton in Hin. injection Hin as -> ->. right. eauto. }
  destruct Hi as [Hw Hst Hsane Hn Hmeta Hcop]. split; simpl; try done.
  - intros q fp [Ho|(-> & meta & -> & ->)]%Hnote; [by apply Hn|].
    destruct (Hnew meta eq_refl) as (s & b & [j Hj]%list_elem_of_lookup_1 & -> & _). exists j. by exists s, b.
  - intros q meta Hin. destruct r as [meta'|e]; simpl in Hin; [|by eapply Hmeta].
    apply elem_of_app in Hin as [Hin|Hin]; [by eapply Hmeta|]. apply list_elem_of_singleton in Hin.
    injection Hin as -> ->. destruct (Hnew meta' eq_refl) as (s & b & Hin & _ & ->).
    destruct (Hsane _ _ _ Hin) as [Hs _]. unfold as_u64. rewrite Z.mod_small; lia.
  - intros q f (Hq & Hp & Hnode).
    assert (Hpart : Manager.cache_path cm q ≠ CacheIO.partial_path (Manager.cache_path cm rel)).
    { intros E. rewrite E, partial_is_partial in Hp; [done|by intros [_ ?]%app_eq_nil|by apply Forall_app]. }
    destruct (copy_files _ _ _ _ _ _ f Hc Hpart Hnode) as
      [[Hold Herr]|(src & meta & Hdest & -> & Hsrc & Hcon & (d1 & Hloop) & Hm)].
    + destruct (Hcop q f) as (i & Hh & Hle); [by split_and!|]. exists i. split; [done|].
      intros j fp [Ho|(-> & meta & -> & _)]%Hnote; [by eapply Hle|].
      by specialize (Herr eq_refl).
    + apply app_inv_head in Hdest as ->. exists (length (history m rel) - 1)%nat. split.
      * pose proof (faithful_final _ _ Hf src Hsrc) as Hfin. destruct (ce_final env) as [s|].
        -- destruct Hfin as (b & Hl & Hr), Hm as [Hsame _]. rewrite last_lookup, Nat.sub_1_r in *.
           exists (Some (s, b)). split; [done|]. intros ? ? [= <- <-].
           rewrite Hcon. eapply copy_loop_reads; [|exact Hloop]. by apply Hr.
        -- rewrite last_lookup, Nat.sub_1_r in *. by exists None.
      * intros j fp _ Hj%dated_lt. lia.
Qed.

(** Writing the row of a copy. *)
Lemma inv_commit m now rel meta l1 l2 :
  inv m → pending m = l1 ++ (rel, meta) :: l2 →
  inv (mkMounted ((cache m).1, Manager.mark_cached now cm rel meta (cache m).2) (l1 ++ l2) (history m)).
Proof.
  intros [Hw Hst Hsane Hn Hmeta Hcop] Hp.
  assert (Hin : (rel, meta) ∈ pending m) by (rewrite Hp; apply elem_of_app; right; by left).
  assert (Hnote : ∀ q fp,
    noted (mkMounted ((cache m).1, Manager.mark_cached now cm rel meta (cache m).2) (l1 ++ l2) (history m)) q fp →
    noted m q fp).
  { intros q fp [(r & Hr & ->)|(meta' & Hin' & ->)]; simpl in *.
    - unfold Manager.mark_cached, CacheDb.mark_cached in Hr. rewrite DbFacts.execute_writable in Hr by done.
      simpl in Hr. apply lookup_insert_Some in Hr as [[Heq <-]|[_ Hr]]; [|left; eauto].
      injection Heq as <-. right. exists meta. split; [done|].
      unfold CacheDb.row_fingerprint, meta_stamp. simpl. rewrite DbFacts.col_u64_as_i64; [done|].
      by apply (Hmeta rel).
    - right. exists meta'. split; [|done]. rewrite Hp. apply elem_of_app in Hin' as [?|?]; apply elem_of_app; [by left|].
      right. by right. }
  split; simpl; try done.
  - unfold Manager.mark_cached, CacheDb.mark_cached. by rewrite DbFacts.query_only_execute.
  - eauto.
  - intros q meta' Hin'. apply (Hmeta q). rewrite Hp. apply elem_of_app in Hin' as [?|?]; apply elem_of_app; [by left|].
    right. by right.
  - intros q f Hs. destruct (Hcop q f Hs) as (i & Hh & Hle). eauto.
Qed.

Lemma inv_row m rel fp :
  inv m → CacheDb.fingerprint_row (cache m).2 rel (mount_id cm) = Some fp →
  Manager.zero_fingerprint fp = false ∧ noted m rel fp.
Proof.
  intros Hi (r & Hr & ->)%fmap_Some.
  assert (Hno : noted m rel (CacheDb.row_fingerprint r)) by (left; eauto). split; [|done].
  destruct (inv_noted m Hi rel _ Hno) as (j & s & b & Hj & ->). apply list_elem_of_lookup_2 in Hj.
  by destruct (inv_sane m Hi rel s b Hj).
Qed.

Lemma is_stale_live m rel fp :
  CacheDb.fingerprint_row (cache m).2 rel (mount_id cm) = Some fp →
  Manager.is_stale cm (Some (live m)) (cache m).2 rel = Manager.is_stale_with_fingerprint (Some (live m)) rel fp.
Proof. intros Hfp. unfold Manager.is_stale. by rewrite Hfp. Qed.

Lemma validate_shrinks m now rel i :
  inv m →
  shrinks (cache m) (store (CacheIO.validate_body cm now (Some (live m)) rel (CacheIO.with_store (cache m) i))).
Proof.
  intros Hi. unfold CacheIO.validate_body. simpl. unfold Manager.is_stale.
  destruct (CacheDb.fingerprint_row _ _ _) as [fp|] eqn:Hfp; [|done].
  destruct (inv_row m rel fp Hi Hfp) as [Hz _]. unfold Manager.is_stale_with_fingerprint.
  destruct (live m rel) as [s|]; [|apply drop_stale_shrinks]. rewrite Hz.
  destruct (Manager.content_matches fp s); [split; [apply loses_refl|apply rows_keep_refresh]|].
  unfold CacheIO.submit_replace, CacheIO.submit_job, CacheIO.submit_locked. simpl. by destruct (known _ !! _).
Qed.

Lemma sweep_shrinks m now :
  inv m → shrinks (cache m) (Manager.sweep_stale now cm (Some (live m)) (cache m)).1.1.
Proof.
  intros Hi. apply (ManagerFacts.sweep_stale_frame cm shrinks). intros [rel fp] [[[d db] k] n] Hrow.
  unfold CacheDb.all_fingerprints in Hrow. apply list_elem_of_fmap in Hrow as ([rel' r] & [= -> ->] & Hrow).
  apply DbFacts.elem_of_mount_rows in Hrow.
  destruct (inv_row m rel' (CacheDb.row_fingerprint r) Hi) as [Hz _].
  { unfold CacheDb.fingerprint_row. by rewrite Hrow. }
  unfold Manager.sweep_row, Manager.is_stale_with_fingerprint. simpl.
  destruct (live m rel') as [s|]; [|apply (drop_stale_shrinks cm _ _ (d, db))].
  rewrite Hz. destruct (Manager.content_matches _ s); [|apply (drop_stale_shrinks cm _ _ (d, db))].
  split; [apply loses_refl|apply rows_keep_refresh].
Qed.

Context {W : Type} (sys : syscall → State W reply) (self : FsConfig).
Context (statvfs : Disk → path → option Statvfs).

Lemma cstep_inv m m' :
  real_path (cache_dir cm) → cstep sys self statvfs cm m m' → inv m → inv m'.
Proof.
  intros Hdir Hstep Hi. destruct Hstep as [m rel v Hv|m amb rq st Hst|m env rel i i' r Hne Hreal Hf Hc
    |m now i rel meta l1 l2 Hp|m size i|m now rel i|m now i|m now|m rel why|m db Ht Hp].
  - by apply inv_change.
  - apply inv_shrink; [done|]. rewrite <- Hst. apply gentle_serve.
  - unfold CacheIO.populate_copy in Hc. simpl in Hc.
    destruct (CacheIO.perform_copy _ _ _) as [d' r'] eqn:E. injection Hc as <- <-. by eapply inv_copy.
  - by apply (inv_commit m now rel meta l1 l2).
  - apply inv_shrink; [done|]. unfold CacheIO.populate_room. simpl.
    destruct (Manager.has_free_space _ _ _); [done|].
    apply (ManagerFacts.evict_to_fit_frame cm shrinks), evict_one_shrinks.
  - apply inv_shrink; [done|]. by apply validate_shrinks.
  - apply inv_shrink; [done|]. apply (ManagerFacts.evict_if_needed_frame cm shrinks), evict_one_shrinks.
  - apply inv_shrink; [done|]. by apply sweep_shrinks.
  - apply inv_shrink; [done|]. apply drop_stale_shrinks.
  - apply inv_shrink; [done|]. split; [apply loses_refl|by apply rows_keep_same].
Qed.

Lemma started_inv m : started cm m → inv m.
Proof.
  intros (Hrows & Hw & Hfiles & Hp & Hh).
  assert (Hno : ∀ rel fp, ¬ noted m rel fp).
  { intros rel fp [(r & Hr & _)|(meta & Hin & _)]; [by rewrite Hrows in Hr|].
    rewrite Hp in Hin. by apply elem_of_nil in Hin. }
  split; [done|..].
  - intros rel i j fp (s & b & Hi & _) (s' & b' & Hj & _).
    destruct (Hh rel) as [E|(v & E & _)]; rewrite E in Hi, Hj; [done|].
    apply list_lookup_singleton_Some in Hi as [-> _], Hj as [-> _]. done.
  - intros rel s b Hin. destruct (Hh rel) as [E|(v & E & Hv)]; rewrite E in Hin; [by apply elem_of_nil in Hin|].
    apply list_elem_of_singleton in Hin as <-. by destruct Hv as (? & ? & _).
  - intros rel fp Hn. by destruct (Hno rel fp).
  - intros rel meta Hin. rewrite Hp in Hin. by apply elem_of_nil in Hin.
  - intros rel f (Hne & _ & Hf). by destruct (Hfiles rel f Hne).
Qed.

Lemma reachable_inv m : real_path (cache_dir cm) → reachable sys self statvfs cm m → inv m.
Proof.
  intros Hdir (m0 & Hs%started_inv & Hr). induction Hr as [|m1 m2 m3 H1 _ IH]; [done|].
  apply IH. by eapply cstep_inv.
Qed.

(** A copy whose row matches the file of now has the bytes of now. *)
Lemma matching_row m rel f fp s :
  inv m → served (cache m).1 rel f → noted m rel fp →
  live m rel = Some s → Manager.content_matches fp s = true → live_bytes m rel = Some (contents f).
Proof.
  intros Hi Hf Hno Hl Hm. unfold live, live_bytes in *.
  destruct (last (history m rel)) as [[[s' b]|]|] eqn:Hlast; [|done..]. injection Hl as ->.
  rewrite last_lookup in Hlast.
  assert (Hd : dated (history m rel) (pred (length (history m rel))) fp).
  { exists s, b. split; [done|]. unfold Manager.content_matches in Hm. to_prop. destruct Hm as [[H1 H2] H3].
    unfold stamp. rewrite <- H1, <- H2, <- H3. by destruct fp. }
  destruct (inv_copies m Hi rel f Hf) as (i & (v & Hv & Hcon) & Hle). specialize (Hle _ fp Hno Hd).
  pose proof (lookup_lt_Some _ _ _ Hv). assert (i = pred (length (history m rel))) as -> by lia.
  rewrite Hlast in Hv. injection Hv as <-. by rewrite (Hcon s b eq_refl).
Qed.
End invariant.
End CoherenceFacts.

(** ** Theorems *)
Module CoherenceTheorems.
Import FsCache Coherence Transparency TransparencyFacts CoherenceFacts.
Section theorems.
Context {W : Type} `{MapOrder} (sys : syscall → State W reply) (self : FsConfig).
Context (statvfs : Disk → path → option Statvfs) (cm : CacheManager).
Hypothesis Hdir : real_path (cache_dir cm).


(** C10. A changed file does not stay stale: the validation of a copy whose file has changed queues
    its replacement and touches nothing, and once a replacement has succeeded and its row is
    written the copy has the bytes of the file and is found fresh. *)
Theorem stale_copy_is_replaced m rel fp s now i :
  reachable sys self statvfs cm m → rel ≠ [] → store i = cache m →
  CacheDb.fingerprint_row (cache m).2 rel (mount_id cm) = Some fp →
  live m rel = Some s → Manager.content_matches fp s = false →
  known (pipe i) !! (rel, Replace) = None →
  (let i1 := CacheIO.validate_body cm now (Some (live m)) rel i in
   queue (pipe i1) = queue (pipe i) ++ [mkCacheJob rel Replace now] ∧ store i1 = store i) ∧
  ∀ env i2 i3 meta now',
    store i2 = cache m → faithful (history m rel) env →
    CacheIO.populate_copy cm env rel i2 = (i3, Ok meta) →
    let s' := store (CacheIO.populate_commit cm now' rel (Ok meta) i3) in
    Manager.is_stale cm (Some (live m)) s'.2 rel = Fresh s ∧
    ∃ f, nodes s'.1 !! Manager.cache_path cm rel = Some (File f) ∧ live_bytes m rel = Some (contents f).
Proof.
  intros Hr%reachable_inv Hne Hi Hfp Hl Hm Hk; [|done]. split.
  - cbn zeta. unfold CacheIO.validate_body. rewrite Hi, (is_stale_live cm m rel fp Hfp).
    unfold Manager.is_stale_with_fingerprint. destruct (inv_row cm m rel fp Hr Hfp) as [-> _]. rewrite Hl, Hm.
    unfold CacheIO.submit_replace, CacheIO.submit_job, CacheIO.submit_locked. simpl. by rewrite Hk.
  - intros env i2 i3 meta now' Hi2 Hf Hc. unfold CacheIO.populate_copy in Hc. rewrite Hi2 in Hc.
    destruct (CacheIO.perform_copy _ _ _) as [d' r] eqn:Hp. injection Hc as <- ->.
    apply CopyFacts.perform_copy_split in Hp as (d1 & _ & Hin).
    pose proof (perform_copy_inner_loop _ _ _ _ _ _ Hin) as [d2 Hloop].
    destruct (CopyFacts.perform_copy_inner_ok _ _ _ _ _ Hin) as (src & f & Hsrc & _ & _ & Hfin & Hdest & Hcon & _).
    pose proof (faithful_final _ _ Hf src Hsrc) as Hlast. pose proof Hl as Hlive.
    unfold live, live_bytes in Hl |- *.
    destruct (ce_final env) as [s0|]; [|by rewrite Hlast in Hl]. destruct Hlast as (b & Hlast & Hread), Hfin as [Hsame ->].
    rewrite Hlast in Hl |- *. injection Hl as ->. rewrite last_lookup in Hlast. apply list_elem_of_lookup_2 in Hlast.
    destruct (inv_sane cm m Hr rel s b Hlast) as [Hsize Hz]. cbn zeta. simpl. split.
    + unfold Manager.is_stale, CacheDb.fingerprint_row, Manager.mark_cached, CacheDb.mark_cached.
      rewrite DbFacts.execute_writable by apply (inv_writable cm m Hr). simpl. rewrite lookup_insert_eq. simpl.
      unfold CacheDb.row_fingerprint. simpl. rewrite Z.max_l, as_u64_id by (int_bounds; lia).
      rewrite DbFacts.col_u64_as_i64 by lia.
      change (Manager.is_stale_with_fingerprint (Some (live m)) rel
        (mkFingerprint (st_mtime s) (st_mtime_nsec s) (st_size s)) = Fresh s).
      assert (Hst : stamp s = mkFingerprint (st_mtime s) (st_mtime_nsec s) (st_size s))
        by (unfold stamp; by rewrite as_u64_id by (int_bounds; lia)).
      rewrite <- Hst. unfold Manager.is_stale_with_fingerprint. rewrite Hlive, Hz.
      unfold Manager.content_matches. simpl. by rewrite !Z.eqb_refl.
    + exists f. split; [done|]. f_equal. rewrite Hcon. symmetry. eapply copy_loop_reads; [|exact Hloop]. by apply Hread.
Qed.
End theorems.

(** ** A run: a file is copied, changes, and is copied again *)
Definition the_manager : CacheManager := ManagerWitnesses.some_manager.
Definition the_file : path := ["a"]%string.
Definition old_stat : stat := FuseTheorems.a_stat 100.
Definition new_stat : stat := FuseTheorems.a_stat 200.
Definition no_statvfs (d : Disk) (p : path) : option Statvfs := None.
Definition idle (s : Store) : Io := mkIo (mkPipelineState [] ∅) ∅ 0 s.

Definition reading (s : stat) (b : string) : CopyEnv :=
  mkCopyEnv (Ok s) [Ok b; Ok ""%string] (λ _, None) None false (Some s) None None None.

Definition after_copy (env : CopyEnv) (m : Mounted) : Mounted :=
  let '(i, r) := CacheIO.populate_copy the_manager env the_file (idle (cache m)) in
  mkMounted (store i) (copied the_file r (pending m)) (history m).

Definition after_commit (now : Z) (m : Mounted) : Mounted :=
  match pending m with
  | (rel, meta) :: l =>
      mkMounted (store (CacheIO.populate_commit the_manager now rel (Ok meta) (idle (cache m)))) l (history m)
  | [] => m
  end.

Definition begun : Mounted :=
  mkMounted FuseTheorems.empty_store []
    (λ rel, if decide (rel = the_file) then [Some (old_stat, "old"%string)] else []).
Definition first_copy : Mounted := after_commit 10 (after_copy (reading old_stat "old") begun).
Definition changed : Mounted := set_history the_file (Some (new_stat, "new"%string)) first_copy.
Definition second_copy : Mounted := after_commit 20 (after_copy (reading new_stat "new") changed).

Abbreviation step := (cstep FuseTheorems.kind_kernel (FuseTheorems.plain_config None) no_statvfs the_manager).

Lemma begun_started : started the_manager begun.
Proof.
  split_and!; [done|done| |done|].
  - intros rel f Hne Hf. change (({[ ["c"]%string := Dir ]} : gmap path node) !! Manager.cache_path the_manager rel = Some (File f)) in Hf.
    by apply lookup_singleton_Some in Hf as [_ ?].
  - intros rel. simpl. case_decide; [right|by left]. eexists. split; [done|]. split_and!; [by vm_compute|by vm_compute|done|].
    by intros s' b' ?%elem_of_nil.
Qed.

Lemma copy_commit_steps m env meta now :
  pending m = [] → faithful (history m the_file) env →
  (CacheIO.populate_copy the_manager env the_file (idle (cache m))).2 = Ok meta →
  rtc step m (after_commit now (after_copy env m)).
Proof.
  intros Hp Hf Hr. unfold after_copy. destruct (CacheIO.populate_copy _ _ _ _) as [i r] eqn:Hc. simpl in Hr. subst r.
  simpl. rewrite Hp. simpl. eapply rtc_l.
  - eapply (c_copy _ _ _ _ m env the_file (idle (cache m)) i (Ok meta)); [done|by repeat constructor|done|exact Hc].
  - rewrite Hp. simpl. apply rtc_once. apply (c_commit _ _ _ _ (mkMounted (store i) [(the_file, meta)] (history m)) now (idle (store i)) the_file meta [] []).
    done.
Qed.

Lemma reading_faithful h s b : last h = Some (Some (s, b)) → b ≠ ""%string → faithful h (reading s b).
Proof.
  intros Hl Hb. split; intros src [= <-].
  - exists b. rewrite last_lookup in Hl. by eapply list_elem_of_lookup_2.
  - exists b. split; [done|]. intros _. simpl. rewrite decide_False by done.
    exists ""%string. by rewrite string_app_nil.
Qed.

Lemma changed_reachable :
  reachable FuseTheorems.kind_kernel (FuseTheorems.plain_config None) no_statvfs the_manager changed.
Proof.
  exists begun. split; [apply begun_started|]. etrans.
  - eapply (copy_commit_steps begun (reading old_stat "old") _ 10); [done|by apply reading_faithful|vm_compute; reflexivity].
  - apply rtc_once, c_change. simpl. split_and!; [by vm_compute|by vm_compute|done|].
    intros s' b' [= -> ->]%list_elem_of_singleton. done.
Qed.


Lemma stale_copy_is_replaced_witness :
  queue (pipe (CacheIO.validate_body the_manager 30 (Some (live changed)) the_file (idle (cache changed)))) =
    [mkCacheJob the_file Replace 30] ∧
  ∃ f, nodes (cache second_copy).1 !! Manager.cache_path the_manager the_file = Some (File f) ∧
    live_bytes changed the_file = Some (contents f).
Proof.
  destruct (stale_copy_is_replaced FuseTheorems.kind_kernel (FuseTheorems.plain_config None) no_statvfs
    the_manager ltac:(by repeat constructor) changed the_file (stamp old_stat) new_stat 30 (idle (cache changed))
    changed_reachable ltac:(done) eq_refl ltac:(vm_compute; reflexivity) ltac:(vm_compute; reflexivity)
    ltac:(vm_compute; reflexivity) eq_refl) as [[Hq _] Hcopy].
  split; [exact Hq|].
  destruct (CacheIO.populate_copy the_manager (reading new_stat "new") the_file (idle (cache changed))) as [i3 r] eqn:Hc.
  assert (Hr : r = Ok (SourceMetadata.from_stat new_stat)) by (apply (f_equal snd) in Hc; vm_compute in Hc; vm_compute; congruence).
  subst r.
  destruct (Hcopy (reading new_stat "new") (idle (cache changed)) i3 _ 20 eq_refl ltac:(by apply reading_faithful) Hc)
    as (_ & f & Hf & Hb).
  exists f. split; [|exact Hb]. unfold second_copy, after_copy. rewrite Hc. exact Hf.
Defined.

(** ** Where the verdict is wrong

    A copy found at start-up without a row (the database was lost, or a crash came before the commit)
    gets a row without a time.  The next sweep takes it for a row of an old version of the
    program and gives it the time of the file as it is now, whatever the copy holds. *)
Definition stale_disk : Disk :=
  mkDisk {[ ["c"]%string := Dir; ["c"; "a"]%string := File (mkFile "old" 420 0 0 (0, 0) (0, 0)) ]} ∅.

Lemma recovered_copy_is_trusted :
  let backing := λ rel, if decide (rel = the_file) then Some new_stat else None in
  let s := Manager.startup_cleanup 5 the_manager (stale_disk, DbWitnesses.fresh_db) in
  let s' := (Manager.sweep_stale 6 the_manager (Some backing) s).1.1 in
  Manager.is_stale the_manager (Some backing) s'.2 the_file = Fresh new_stat ∧
  nodes s'.1 !! ["c"; "a"]%string = nodes stale_disk !! ["c"; "a"]%string.
Proof. by vm_compute. Qed.
End CoherenceTheorems.
