(* ===== verification/Fetch.v ===== *)
(** * From an access to the cache

    The action engine and the copy pipeline together: what an access makes the engine submit
    ([ActionEngine.turn]) is followed through the tasks of the pipeline ([PipelineTerm.work]) until
    they come to rest.  Nobody else submits, aborts or changes the cache meanwhile, and the SSD keeps
    its reserve free, so that nothing is evicted. *)
From S2P Require Import Prelude Paths Backing Disk Db Manager CacheIo PipelineTerm Preset Engine Transparency.

Module Fetch.
Import CacheIO Pipeline PipelineTerm.
Section fetch.
Context `{MapOrder} (statvfs : Disk → path → option Statvfs) (cm : CacheManager).
Abbreviation work := (work statvfs cm).

(** A run of the tasks from [s0] to [s] comes by a state that satisfies [Q]. *)
Definition passes (s0 s : System) (Q : System → Prop) : Prop := ∃ s1, rtc work s0 s1 ∧ Q s1 ∧ rtc work s1 s.

Definition cached (rel : path) (s : System) : Prop := Manager.is_cached cm (store (io s)).1 rel = true.

Definition copy_failed (rel : path) (s : System) : Prop :=
  ∃ w e, w ∈ workers s ∧ rel_path (w_job w) = rel ∧ w_pc w = Commit (Err e).

Definition expired (rel : path) (s : System) : Prop := rel ∈ expiring s.

(** What becomes of a file in a run: it is in the cache at the end, or its copy failed on the way, or it
    waited longer than a job may. *)
Definition settled (s0 s : System) (rel : path) : Prop :=
  cached rel s ∨ passes s0 s (copy_failed rel) ∨ passes s0 s (expired rel).

(** A path of the mount that the cache can serve. *)
Record servable (rel : path) : Prop := {
  sv_some : rel ≠ [];
  sv_real : Transparency.real_path rel;
  sv_whole : Disk.is_partial (Manager.cache_path cm rel) = false;
}.
End fetch.
End Fetch.

(** ** Lemmas *)
Module FetchFacts.
Import CacheIO CopyFacts Pipeline PipelineFacts PipelineTerm ActionEngine EngineFacts Transparency Fetch.

(** *** A copy and what is cached *)
Section copies.
Context (cm : CacheManager).
Hypothesis Hdir : real_path (cache_dir cm).

(** A copy takes nothing that is served away. *)
Lemma copy_keeps env rel rel' d :
  rel ≠ [] → real_path rel → servable cm rel' → Manager.is_cached cm d rel' = true →
  Manager.is_cached cm (perform_copy env d (Manager.cache_path cm rel)).1 rel' = true.
Proof.
  intros Hne Hreal [Hne' _ _]. rewrite !TransparencyFacts.cached_iff by done. intros [[n Hn] Hp]. split; [|done].
  set (p := Manager.cache_path cm rel') in *. set (dest := Manager.cache_path cm rel).
  assert (Hpart : p ≠ partial_path dest).
  { intros E. rewrite E, TransparencyFacts.partial_is_partial in Hp; [done|by intros [_ ?]%app_eq_nil|by apply Forall_app]. }
  assert (Hdirs : ¬ DiskFacts.new_dir_on d (parent dest) p) by (intros [? _]; congruence).
  destruct (perform_copy env d dest) as [d' [m|e]] eqn:E; cbn [fst].
  - apply perform_copy_split in E as (d1 & [_ C1] & Hi).
    destruct (perform_copy_inner_ok _ _ _ _ _ Hi) as (src & f & _ & _ & _ & _ & Hf & _ & _ & _ & [_ C2]).
    destruct (decide (p = dest)) as [->|Hd]; [by eexists|].
    rewrite C2, C1 by tauto. by eexists.
  - apply perform_copy_err in E as [_ C]. rewrite C by (unfold copy_scratch; tauto). by eexists.
Qed.

(** A copy that succeeds is served. *)
Lemma copy_caches env rel d d' m :
  servable cm rel → perform_copy env d (Manager.cache_path cm rel) = (d', Ok m) →
  Manager.is_cached cm d' rel = true.
Proof.
  intros [Hne _ Hp] (d1 & _ & Hi)%perform_copy_split.
  destruct (perform_copy_inner_ok _ _ _ _ _ Hi) as (src & f & _ & _ & _ & _ & Hf & _).
  apply TransparencyFacts.cached_iff; [done|]. split; [by eexists|done].
Qed.
End copies.

(** *** A step of the tasks *)
Section steps.
Context `{MapOrder} (statvfs : Disk → path → option Statvfs) (cm : CacheManager).
Hypothesis Hdir : real_path (cache_dir cm).
Hypothesis roomy : ∀ d, Manager.has_free_space statvfs cm d = true.
Abbreviation work := (work statvfs cm).

(** Every job of the pipeline. *)
Definition jobs (s : System) : list CacheJob :=
  queue (pipe (io s)) ++ option_list (held s) ++ (w_job <$> workers s).

Definition copies_only (s : System) : Prop := ∀ j, j ∈ jobs s → kind j = Populate ∧ servable cm (rel_path j).

(** The worker has yet to copy. *)
Definition early (p : pc) : bool := match p with Start | Room _ | Copy _ => true | _ => false end.

Definition waiting (rel : path) (s : System) : Prop :=
  ∃ j, rel_path j = rel ∧ kind j = Populate ∧
    j ∈ queue (pipe (io s)) ++ option_list (held s) ++ (w_job <$> filter (λ w, early (w_pc w) = true) (workers s)).

Lemma expire_jobs now ttl i i' ex j :
  expire_locked now ttl i = (i', ex) → j ∈ queue (pipe i) →
  j ∈ queue (pipe i') ∨ (kind j = Populate → rel_path j ∈ ex).
Proof.
  unfold expire_locked. destruct (ttl =? 0); [intros [= <- <-]; by left|].
  set (cutoff := saturating_sub now (as_u64 (ttl * 60))).
  destruct (expire_front_spec cutoff (queue (pipe i)) (known (pipe i))) as (gone & Hq & _ & _ & He & _).
  destruct (expire_front _ _ _) as [p e]. cbn [fst snd] in *. intros [= <- <-] Hj.
  rewrite Hq, elem_of_app in Hj. destruct Hj as [Hj|Hj]; [right|by left].
  intros Hk. rewrite He. apply list_elem_of_fmap. exists j. split; [done|]. by apply list_elem_of_filter.
Qed.

Lemma expire_fewer now ttl i i' ex j :
  expire_locked now ttl i = (i', ex) → j ∈ queue (pipe i') → j ∈ queue (pipe i).
Proof.
  unfold expire_locked. destruct (ttl =? 0); [by intros [= <- <-]|].
  set (cutoff := saturating_sub now (as_u64 (ttl * 60))).
  destruct (expire_front_spec cutoff (queue (pipe i)) (known (pipe i))) as (gone & Hq & _).
  destruct (expire_front _ _ _) as [p e]. cbn [fst snd] in *. intros [= <- <-] Hj.
  rewrite Hq. set_solver.
Qed.

Lemma work_jobs s s' : copies_only s → work s s' → copies_only s'.
Proof.
  intros Hc (Hs & Hin & _). destruct Hs as
    [s now rel k|s rel|s st|s now ttl i' ex Hex|s p ps Hex|s allowed job q Hh Hpop Hk|s allowed job q Hh Hpop Hk
    |s job n Hh Hp|s l1 l2 job Hw Hk Hst|s l1 l2 job i' c Hw Hk Hst|s l1 l2 job c size i' okb Hw Hr
    |s l1 l2 job c env i' r Hw Hab Hcp|s l1 l2 job r now Hw|s l1 l2 job now backing Hw Hk|s l1 l2 job Hw|s l1 l2 job Hw].
  1-3: by destruct Hin; constructor.
  all: intros j Hj; apply Hc; unfold jobs in *; cbn [io held workers] in Hj.
  - rewrite elem_of_app in *. destruct Hj as [Hj%(expire_fewer _ _ _ _ _ _ Hex)|Hj]; [by left|by right].
  - done.
  - apply pop_next_job_perm in Hpop. rewrite Hpop. rewrite fmap_app in Hj. set_solver.
  - apply pop_next_job_perm in Hpop. rewrite Hpop. set_solver.
  - rewrite Hh. rewrite fmap_app in Hj. set_solver.
  - rewrite Hw. by rewrite fmap_app in *.
  - rewrite Hw, (populate_start_pipe _ _ _ _ _ _ Hst) in *. by rewrite fmap_app in *.
  - assert (pipe i' = pipe (io s)) as E by (unfold populate_room in Hr; by injection Hr as <- _).
    rewrite Hw, E in *. by rewrite fmap_app in *.
  - unfold populate_copy in Hcp. case_match. injection Hcp as <- <-. rewrite Hw. by rewrite fmap_app in *.
  - rewrite Hw. rewrite fmap_app in *. by destruct r.
  - destruct (Hc job) as [Hp _]; [|congruence]. unfold jobs. rewrite Hw, fmap_app. set_solver.
  - rewrite Hw. by rewrite fmap_app in *.
  - rewrite Hw. rewrite fmap_app in *. unfold finish_known_db in Hj. case_decide; set_solver.
Qed.

Lemma room_still size i i' ok : populate_room statvfs cm size i = (i', ok) → i' = i ∧ ok = true.
Proof. unfold populate_room. rewrite !roomy. intros [= <- <-]. by destruct i. Qed.

(** What is cached stays. *)
Lemma work_cached rel s s' :
  copies_only s → servable cm rel → work s s' → cached cm rel s → cached cm rel s'.
Proof.
  intros Hc Hsv (Hs & Hin & _) Hca. unfold cached in *. destruct Hs as
    [s now rel' k|s rel'|s st|s now ttl i' ex Hex|s p ps Hex|s allowed job q Hh Hpop Hk|s allowed job q Hh Hpop Hk
    |s job n Hh Hp|s l1 l2 job Hw Hk Hst|s l1 l2 job i' c Hw Hk Hst|s l1 l2 job c size i' okb Hw Hr
    |s l1 l2 job c env i' r Hw Hab Hcp|s l1 l2 job r now Hw|s l1 l2 job now backing Hw Hk|s l1 l2 job Hw|s l1 l2 job Hw].
  1-3: by destruct Hin; constructor.
  all: cbn [io with_pipe with_db finish_known_locked CacheIo.store fst]; try done.
  - unfold expire_locked in Hex. destruct (ttl =? 0); [by injection Hex as <- _|].
    destruct (expire_front _ _ _). by injection Hex as <- _.
  - unfold populate_start in Hst. case_match; [done|]. by injection Hst as <- _.
  - by apply room_still in Hr as [-> _].
  - destruct (Hc job) as [_ [Hne Hreal _]]; [unfold jobs; rewrite Hw, fmap_app; set_solver|].
    unfold populate_copy in Hcp. pose proof (copy_keeps cm Hdir env (rel_path job) rel (store (io s)).1 Hne Hreal Hsv Hca) as Hk.
    destruct (perform_copy _ _ _). by injection Hcp as <- _.
  - by destruct r.
  - destruct (Hc job) as [Hp _]; [|congruence]. unfold jobs. rewrite Hw, fmap_app. set_solver.
  - unfold finish_known_db. destruct (decide (kind job = Populate)); exact Hca.
Qed.

(** A file that waits goes on waiting, is cached, or meets its failure. *)
Lemma work_waiting rel s s' :
  copies_only s → work s s' → waiting rel s →
  waiting rel s' ∨ cached cm rel s' ∨ copy_failed rel s' ∨ expired rel s'.
Proof.
  intros Hc (Hs & Hin & _) (j & <- & Hjk & Hj).
  assert (Hstay : ∀ s'', j ∈ queue (pipe (io s'')) ++ option_list (held s'') ++
    (w_job <$> filter (λ w, early (w_pc w) = true) (workers s'')) → waiting (rel_path j) s'') by (intros s'' ?; by exists j).
  destruct Hs as
    [s now rel' k|s rel'|s st|s now ttl i' ex Hex|s p ps Hex|s allowed job q Hh Hpop Hk|s allowed job q Hh Hpop Hk
    |s job n Hh Hp|s l1 l2 job Hw Hk Hst|s l1 l2 job i' c Hw Hk Hst|s l1 l2 job c size i' okb Hw Hr
    |s l1 l2 job c env i' r Hw Hab Hcp|s l1 l2 job r now Hw|s l1 l2 job now backing Hw Hk|s l1 l2 job Hw|s l1 l2 job Hw].
  1-3: by destruct Hin; constructor.
  - rewrite elem_of_app in Hj. destruct Hj as [Hj|Hj]; [|left; apply Hstay; cbn; set_solver].
    destruct (expire_jobs _ _ _ _ _ _ Hex Hj) as [Hq|He]; [left; apply Hstay; cbn; set_solver|].
    do 3 right. unfold expired. cbn. apply elem_of_app. right. by apply He.
  - left. by apply Hstay.
  - left. apply Hstay. apply pop_next_job_perm in Hpop. rewrite Hpop, Hh in Hj. cbn in *.
    rewrite filter_app, fmap_app. cbn. set_solver.
  - left. apply Hstay. apply pop_next_job_perm in Hpop. rewrite Hpop, Hh in Hj. cbn in *. set_solver.
  - left. apply Hstay. rewrite Hh in Hj. cbn. rewrite filter_app, fmap_app. cbn. set_solver.
  - rewrite Hw, filter_app, fmap_app in Hj. cbn in Hj. destruct (decide (j = job)) as [->|Hne].
    + right; left. unfold cached. cbn. unfold populate_start in Hst. rewrite Hjk in Hst. cbn in Hst.
      by destruct (Manager.is_cached _ _ _) eqn:E.
    + left. apply Hstay. cbn. rewrite filter_app, fmap_app. cbn. set_solver.
  - left. apply Hstay. cbn. rewrite (populate_start_pipe _ _ _ _ _ _ Hst).
    rewrite Hw, filter_app, fmap_app in Hj. rewrite filter_app, fmap_app. done.
  - apply room_still in Hr as [-> ->]. left. apply Hstay. cbn.
    rewrite Hw, filter_app, fmap_app in Hj. rewrite filter_app, fmap_app. done.
  - rewrite Hw, filter_app, fmap_app in Hj. cbn in Hj. unfold populate_copy in Hcp.
    destruct (perform_copy env (store (io s)).1 (Manager.cache_path cm (rel_path job))) as [d r'] eqn:Hpc.
    injection Hcp as <- <-. destruct (decide (j = job)) as [->|Hne].
    + right. destruct r' as [m|e].
      * left. unfold cached. cbn. eapply copy_caches; [|exact Hpc].
        apply Hc. unfold jobs. rewrite Hw, fmap_app. set_solver.
      * right; left. exists (mkWorker job (Commit (Err e))), e. split_and!; [|done|done]. cbn. set_solver.
    + left. apply Hstay. cbn. rewrite filter_app, fmap_app. cbn. set_solver.
  - left. apply Hstay. rewrite Hw, filter_app, fmap_app in Hj. cbn. rewrite filter_app, fmap_app.
    by destruct r.
  - left. apply Hstay. rewrite Hw, filter_app, fmap_app in Hj.
    destruct (Hc job) as [Hp _]; [|congruence]. unfold jobs. rewrite Hw, fmap_app. set_solver.
  - left. apply Hstay. rewrite Hw, filter_app, fmap_app in Hj. cbn. rewrite filter_app, fmap_app. done.
  - left. apply Hstay. rewrite Hw, filter_app, fmap_app in Hj. cbn. rewrite filter_app, fmap_app.
    unfold finish_known_db. destruct (decide (kind job = Populate)); exact Hj.
Qed.

(** *** A run of the tasks *)
Lemma run_settles rel s0 s :
  copies_only s0 → servable cm rel → waiting rel s0 ∨ cached cm rel s0 → rtc work s0 s →
  copies_only s ∧ (waiting rel s ∨ settled statvfs cm s0 s rel).
Proof.
  intros Hc Hsv H0. revert s. apply rtc_ind_r.
  { split; [done|]. destruct H0; [by left|right; by left]. }
  intros s s' Hr Hw [Hc' IH].
  assert (Hon : ∀ Q, passes statvfs cm s0 s Q → passes statvfs cm s0 s' Q)
    by (intros Q (s1 & ? & ? & ?); exists s1; split_and!; [done..|by eapply rtc_r]).
  assert (Hhere : ∀ Q : System → Prop, Q s' → passes statvfs cm s0 s' Q)
    by (intros Q ?; exists s'; split_and!; [by eapply rtc_r|done|done]).
  split; [by eapply work_jobs|]. unfold settled in *. destruct IH as [Hwt|[Hca|[Hf|He]]].
  - destruct (work_waiting rel s s' Hc' Hw Hwt) as [?|[?|[?|?]]]; auto 6.
  - right; left. by eapply work_cached.
  - auto.
  - auto.
Qed.

Lemma rest_settles rel s0 s :
  copies_only s0 → servable cm rel → waiting rel s0 ∨ cached cm rel s0 → rtc work s0 s → at_rest s →
  settled statvfs cm s0 s rel.
Proof.
  intros Hc Hsv H0 Hr (Hq & Hh & Hw & _). destruct (run_settles rel s0 s Hc Hsv H0 Hr) as [_ [(j & _ & _ & Hj)|?]]; [|done].
  rewrite Hq, Hh, Hw in Hj. by apply not_elem_of_nil in Hj.
Qed.
End steps.

(** *** What an access submits *)
Section submissions.
Context `{MapOrder, BackingView} (statvfs : Disk → path → option Statvfs) (self : ActionEngine).
Abbreviation cm := (cache self).
Abbreviation submit_all := (EngineTheorems.submit_all self).
Abbreviation uncached := (EngineTheorems.uncached self).

(** Without a budget every candidate that is not cached is submitted. *)
Lemma submit_unbounded now running first next i :
  max_cache_pull_bytes self <= 0 →
  submit_within_budget self now running first next i = submit_all now (uncached i next) i.
Proof.
  intros Hmax. revert running first i. induction next as [|rel next IH]; intros running first i; [done|].
  unfold EngineTheorems.uncached. rewrite filter_cons. cbn [submit_within_budget].
  destruct (Manager.is_cached cm (store i).1 rel) eqn:Hc.
  { rewrite decide_False by done. apply IH. }
  rewrite (proj2 (Z.ltb_ge _ _) Hmax), decide_True by done. rewrite IH.
  unfold EngineTheorems.uncached. by rewrite EngineTheorems.submit_cache_disk.
Qed.

(** An access submits a beginning of the candidates that are not cached: the first one, and all of them
    if there is no budget or they fit. *)
Lemma process_picks now ev i :
  (bool_decide (ev_kind ev = Hit) && check_on_hit cm) = false →
  0 <= max_cache_pull_bytes self → (∀ p, 0 <= size_of p) →
  let used := Manager.total_cached_bytes cm (store i).2 in
  let wanted := uncached i (next_paths self ev) in
  0 <= used → used + EngineTheorems.sizes (next_paths self ev) < 2 ^ 64 →
  ∃ picked rest, wanted = picked ++ rest ∧ process self now ev i = submit_all now picked i ∧
    (rest ≠ [] → picked ≠ []) ∧
    (max_cache_pull_bytes self = 0 ∨ used + EngineTheorems.sizes wanted <= max_cache_pull_bytes self → rest = []).
Proof.
  intros Hv Hmax Hsz used wanted Hu Hlt. unfold process. rewrite Hv. fold used.
  destruct (decide (max_cache_pull_bytes self = 0)) as [Hz|Hz].
  { exists wanted, []. rewrite submit_unbounded by lia. split_and!; [by rewrite app_nil_r|done|done|done]. }
  rewrite (proj2 (Z.ltb_lt _ _)) by lia.
  destruct (EngineTheorems.submit_within_budget_spec self now used true (next_paths self ev) i)
    as (picked & rest & Heq & Hrun & Hne & _ & Hrest); [lia|done..|].
  exists picked, rest. split_and!; [done|done|by apply Hne|].
  intros [?|Hfit]; [done|]. destruct rest as [|r rest]; [done|]. specialize (Hrest r rest eq_refl).
  assert (Hnn : 0 <= EngineTheorems.sizes rest).
  { apply sum_Z_nonneg, Forall_forall. intros z (q & -> & _)%list_elem_of_fmap. apply Hsz. }
  unfold wanted in Hfit. rewrite Heq in Hfit. unfold EngineTheorems.sizes in *.
  rewrite fmap_app, sum_Z_app, fmap_cons, sum_Z_cons in Hfit. lia.
Qed.

Lemma submit_cases now rel i :
  (submit_cache cm now rel i = i ∧ Manager.is_cached cm (store i).1 rel = true) ∨
  submit_cache cm now rel i = submit_locked now rel Populate i.
Proof.
  unfold submit_cache, submit_job. rewrite bool_decide_eq_true_2 by done. cbn.
  destruct (Manager.is_cached _ _ _); [by left|by right].
Qed.

(** A submission is a step of the pipeline. *)
Lemma submit_all_run now l s : rtc (io_step statvfs cm) s (set_io (submit_all now l) s).
Proof.
  revert s. induction l as [|rel l IH]; intros s; [by destruct s|].
  destruct (submit_cases now rel (io s)) as [[E _]|E].
  - replace (set_io (submit_all now (rel :: l)) s) with (set_io (submit_all now l) s); [apply IH|].
    unfold set_io, EngineTheorems.submit_all. cbn. by rewrite E.
  - eapply rtc_l; [apply (step_submit _ _ s now rel Populate)|].
    replace (set_io (submit_all now (rel :: l)) s)
      with (set_io (submit_all now l) (set_io (submit_locked now rel Populate) s)); [apply IH|].
    unfold set_io, EngineTheorems.submit_all. cbn. by rewrite E.
Qed.

Lemma submit_all_disk now l i : (store (submit_all now l i)).1 = (store i).1.
Proof.
  revert i. induction l as [|rel l IH]; intros i; [done|]. unfold EngineTheorems.submit_all. cbn.
  etransitivity; [apply IH|]. apply EngineTheorems.submit_cache_disk.
Qed.

(** Only jobs to copy the files submitted are queued. *)
Lemma submit_all_jobs now l i j :
  j ∈ queue (pipe (submit_all now l i)) → j ∈ queue (pipe i) ∨ (kind j = Populate ∧ rel_path j ∈ l).
Proof.
  revert i. induction l as [|rel l IH]; intros i Hj; [by left|].
  destruct (IH _ Hj) as [Hq|[??]]; [|right; set_solver].
  destruct (submit_cases now rel i) as [[E _]|E]; rewrite E in Hq; [by left|].
  destruct (submit_locked_pipe now rel Populate i) as [E'|[_ E']]; rewrite E' in Hq; [by left|].
  cbn in Hq. apply elem_of_app in Hq as [?| ->%list_elem_of_singleton]; [by left|right]. cbn. set_solver.
Qed.

Lemma submit_all_keeps now l i k :
  is_Some (known (pipe i) !! k) → is_Some (known (pipe (submit_all now l i)) !! k).
Proof.
  revert i. induction l as [|rel l IH]; intros i Hk; [done|]. apply IH.
  destruct (submit_cases now rel i) as [[-> _]| ->]; [done|].
  destruct (submit_locked_pipe now rel Populate i) as [->|[_ ->]]; [done|]. cbn.
  apply lookup_insert_is_Some'. by right.
Qed.

Lemma submit_all_known now l i q :
  q ∈ l → Manager.is_cached cm (store i).1 q = false →
  is_Some (known (pipe (submit_all now l i)) !! (q, Populate)).
Proof.
  revert i. induction l as [|rel l IH]; intros i Hq Hc; [by apply not_elem_of_nil in Hq|].
  apply elem_of_cons in Hq as [->|Hq].
  - apply (submit_all_keeps now l (submit_cache cm now rel i)). destruct (submit_cases now rel i) as [[_ ?]| ->]; [congruence|].
    unfold submit_locked. destruct (known (pipe i) !! (rel, Populate)) eqn:E; [by rewrite E|].
    rewrite decide_True by done. cbn. rewrite lookup_insert_eq. by eexists.
  - apply (IH (submit_cache cm now rel i)); [done|]. by rewrite EngineTheorems.submit_cache_disk.
Qed.

(** An access and the tick after its threshold. *)
Lemma access_is_processed ev t0 t1 secs1 secs2 i :
  (∀ x, ev_kind ev ≠ Close x) → passes_size_floor self (relative_path ev) = true →
  0 <= min_access_secs self → t0 + min_access_secs self * 1000000000 <= t1 →
  turn self secs2 (Tick t1) (turn self secs1 (Recv t0 ev) (∅, i)) =
    (∅, process self (if 0 <? min_access_secs self then secs2 else secs1) ev i).
Proof.
  intros Hk Hfl Hm Ht. unfold turn at 2. cbn [filter_input fst].
  assert (on_recv self t0 ev ∅ = on_open_event self t0 ev ∅) as ->
    by (unfold on_recv; destruct (ev_kind ev) as [| |x]; [done|done|by destruct (Hk x)]).
  unfold on_open_event. rewrite Hfl. destruct (0 <? min_access_secs self) eqn:Hp.
  - rewrite lookup_empty. unfold turn. cbn [filter_input fst snd foldl]. to_prop.
    set (pending := <[_ := _]> ∅).
    destruct (on_tick self t1 pending) as [pending' outs] eqn:Htick.
    assert (pending' = ∅) as ->.
    { apply map_eq. intros k. change pending' with (pending', outs).1. rewrite <- Htick, on_tick_lookup by done.
      unfold pending. destruct (decide (k = relative_path ev)) as [->|Hne].
      - rewrite lookup_insert_eq. cbn. by rewrite (proj2 (Z.leb_le _ _)) by lia.
      - by rewrite lookup_insert_ne, lookup_empty. }
    assert (outs = [ev]) as ->; [|done].
    apply Permutation_singleton_r. change outs with (∅ : Pending, outs).2. rewrite <- Htick.
    rewrite on_tick_outs by done. unfold pending. rewrite insert_empty, map_to_list_singleton.
    rewrite filter_cons, decide_True; [done|]. cbn. lia.
  - unfold turn. cbn [filter_input fst snd foldl]. unfold on_tick. by rewrite Hp.
Qed.
End submissions.
End FetchFacts.

(** ** Theorems *)
Module FetchTheorems.
Import CacheIO Pipeline PipelineFacts PipelineTerm ActionEngine EngineTheorems Fetch FetchFacts.
Section theorems.
Context `{MapOrder, BackingView} (statvfs : Disk → path → option Statvfs) (self : ActionEngine).
Abbreviation cm := (cache self).

(** What a run of the tasks finds after the submissions of an access. *)
Lemma submitted_or_cached now ev max s picked rest :
  reachable statvfs cm max s → at_rest s → Forall (servable cm) (next_paths self ev) →
  uncached self (io s) (next_paths self ev) = picked ++ rest →
  let s1 := set_io (submit_all self now picked) s in
  reachable statvfs cm max s1 ∧ copies_only cm s1 ∧
  ∀ q, q ∈ next_paths self ev → q ∉ rest → waiting q s1 ∨ cached cm q s1.
Proof.
  intros Hr (Hq & Hh & Hw & _) Hsv Hp s1. rewrite Forall_forall in Hsv.
  assert (Hnext : ∀ q, q ∈ picked → q ∈ next_paths self ev ∧ Manager.is_cached cm (store (io s)).1 q = false).
  { intros q Hin. assert (Hin' : q ∈ uncached self (io s) (next_paths self ev)) by (rewrite Hp; set_solver).
    apply list_elem_of_filter in Hin' as [? ?]. done. }
  assert (Hr1 : reachable statvfs cm max s1).
  { destruct Hr as (n & ttl & st & Hrun). exists n, ttl, st. etrans; [exact Hrun|]. apply submit_all_run. }
  split_and!; [done| |].
  - intros j Hj. unfold jobs, s1 in Hj. cbn in Hj. rewrite Hh, Hw in Hj. rewrite app_nil_r in Hj.
    apply submit_all_jobs in Hj as [Hj|[? Hj]]; [by rewrite Hq in Hj; apply not_elem_of_nil in Hj|].
    split; [done|]. by apply Hsv, Hnext.
  - intros q Hin Hnot. destruct (Manager.is_cached cm (store (io s)).1 q) eqn:Hc.
    { right. unfold cached, s1. cbn. by rewrite submit_all_disk. }
    left. assert (Hpick : q ∈ picked).
    { assert (Hin' : q ∈ uncached self (io s) (next_paths self ev)) by by apply list_elem_of_filter.
      rewrite Hp in Hin'. set_solver. }
    destruct (reachable_ok statvfs cm max s1 Hr1) as [_ Hk _ _ _ _].
    pose proof (submit_all_known self now picked (io s) q Hpick Hc) as Hkn.
    apply Hk in Hkn. unfold active, s1 in Hkn. cbn in Hkn. rewrite Hh, Hw, app_nil_r in Hkn.
    apply list_elem_of_fmap in Hkn as (j & [= -> Hkind] & Hj).
    exists j. split_and!; [done|done|]. unfold s1. cbn. set_solver.
Qed.

End theorems.

(** ** A mount

    Files of ten bytes, a budget of 25: of three candidates two are fetched. *)
#[local] Instance ten_bytes : BackingView := EngineTheorems.ten_bytes.
Definition idle_pipeline : System := spawned 0 0 1 PipelineTheorems.start_store.
Definition the_engine : ActionEngine := EngineTheorems.two_second_engine.
Definition after_access : Pending * Io :=
  turn the_engine 2 (Tick 2000000000) (turn the_engine 0 (Recv 0 (miss EngineTheorems.file_a)) (∅, io idle_pipeline)).

Lemma always_roomy d : Manager.has_free_space PipelineTheorems.roomy (cache the_engine) d = true.
Proof. reflexivity. Qed.

End FetchTheorems.
