(* ===== verification/Discovery.v ===== *)
(** * Process discovery

    [src/discovery.rs]: the per-process counters of the hot path, their flush into the database
    and the controller that arms and disarms a session.  The pid cache is third-party: what it
    answers for a pid is an argument.  A status broadcast is recorded; the log lines are in
    [DiscoveryLog]. *)
From S2P Require Import Prelude Paths Backing Disk Db Manager CacheIo Preset Engine Fuse.

Inductive OpKind := Hit | Miss | Meta.
#[export] Instance OpKind_eq_dec : EqDecision OpKind.
Proof. solve_decision. Defined.
#[export] Instance OpKind_countable : Countable OpKind.
Proof.
  refine (inj_countable' (λ k, match k with Hit => 0 | Miss => 1 | Meta => 2 end)%nat
    (λ n, match n with 0 => Hit | 1 => Miss | _ => Meta end)%nat _). by intros [].
Defined.

Definition as_str (op : OpKind) : string :=
  match op with Hit => "hit" | Miss => "miss" | Meta => "meta" end.

Record Session := mkSession {
  counts : gmap (string * OpKind) Z;
  samples : gmap string (string * string);
  filtered : gmap string bool;
  seen : gset string;
  started_at : Z;
}.

(** [draining] are the sessions whose drain task runs, [cancelled] those whose token is. *)
Record Controller := mkController {
  enabled : bool;
  session : option nat;
  sessions : gmap nat Session;
  next_session : nat;
  draining : gset nat;
  cancelled : gset nat;
  broadcasts : list (bool * option Z);
  disc_db : CacheDb;
}.

Module Discovery.
Import Text.

(** ** Text out of bytes

    [String::from_utf8_lossy]: a maximal invalid piece becomes one replacement character. *)
Definition byte_of (c : ascii) : Z := Z.of_nat (nat_of_ascii c).
Definition is_cont (c : ascii) : bool := Z.land (byte_of c) 192 =? 128.
Definition between (lo hi : Z) (c : ascii) : bool := (lo <=? byte_of c) && (byte_of c <=? hi).

(** The tests of the bytes after a first byte; [None] for a byte that starts no sequence. *)
Definition continuation (c : ascii) : option (list (ascii → bool)) :=
  if byte_of c <? 128 then Some []
  else if between 194 223 c then Some [is_cont]
  else if byte_of c =? 224 then Some [between 160 191; is_cont]
  else if byte_of c =? 237 then Some [between 128 159; is_cont]
  else if between 225 239 c then Some [is_cont; is_cont]
  else if byte_of c =? 240 then Some [between 144 191; is_cont; is_cont]
  else if between 241 243 c then Some [is_cont; is_cont; is_cont]
  else if byte_of c =? 244 then Some [between 128 143; is_cont; is_cont]
  else None.

(** The bytes that pass, whether all did, and the rest. *)
Fixpoint take_cont (tests : list (ascii → bool)) (s : string) : bool * string * string :=
  match tests, s with
  | [], _ => (true, "", s)
  | _ :: _, "" => (false, "", "")
  | t :: tests', String c s' =>
      if t c then let '(ok, got, rest) := take_cont tests' s' in (ok, String c got, rest)
      else (false, "", s)
  end%string.

Definition replacement : string := String "239" (String "191" (String "189" "")).

Fixpoint lossy_fuel (fuel : nat) (s : string) : string :=
  match fuel, s with
  | O, _ | _, EmptyString => ""
  | S fuel', String c s' =>
      match continuation c with
      | None => replacement ++ lossy_fuel fuel' s'
      | Some tests =>
          let '(ok, got, rest) := take_cont tests s' in
          (if ok then String c got else replacement) ++ lossy_fuel fuel' rest
      end
  end%string.

(** A byte is consumed at every round, so the length is enough. *)
Definition from_utf8_lossy (s : string) : string := lossy_fuel (String.length s) s.

(** ** What is noted of a process *)
Definition DISCOVERY_CMDLINE_MAX : nat := 4096.

(** A byte that does not continue a UTF-8 sequence. *)
Definition boundary_byte (c : ascii) : bool := negb (is_cont c).

Definition is_char_boundary (s : string) (i : nat) : bool :=
  if (i =? String.length s)%nat then true
  else match String.get i s with Some c => (i =? 0)%nat || boundary_byte c | None => false end.

(** The loop that walks back to a boundary. *)
Fixpoint boundary_below (s : string) (end_ : nat) : nat :=
  match end_ with
  | O => O
  | S e => if is_char_boundary s end_ then end_ else boundary_below s e
  end.

Definition truncate_cmdline (s : string) (max_bytes : nat) : string :=
  if (String.length s <=? max_bytes)%nat then s
  else String.substring 0 (boundary_below s max_bytes) s.

(** The three bytes of the ellipsis. *)
Definition ellipsis : string := String "226" (String "128" (String "166" "")).

Definition format_process_info (info : ProcessInfo) : string * string :=
  let cmdline := match cmdline info with
                 | Some b =>
                     let s := join " " (from_utf8_lossy <$> filter (λ x, x ≠ ""%string) (split Backing.nul b)) in
                     if (DISCOVERY_CMDLINE_MAX <? String.length s)%nat
                     then (truncate_cmdline s DISCOVERY_CMDLINE_MAX ++ ellipsis)%string else s
                 | None => ""
                 end in
  (cmdline, join ">" (ancestors info)).

Definition name_of (info : ProcessInfo) : string := default "(unknown)"%string (name info).

(** The first sight of a name keeps a sample and the verdict of the policy. *)
Definition note_process (policy : ProcessFilterPolicy) (info : ProcessInfo) (s : Session) : Session :=
  let n := name_of info in
  if decide (n ∈ seen s) then s
  else mkSession (counts s) (<[n := format_process_info info]> (samples s))
         (<[n := ProcessFilterPolicy.should_filter policy info]> (filtered s))
         ({[n]} ∪ seen s) (started_at s).

Definition bump (n : string) (op : OpKind) (s : Session) : Session :=
  mkSession (<[(n, op) := u64_add (default 0 (counts s !! (n, op))) 1]> (counts s))
            (samples s) (filtered s) (seen s) (started_at s).

(** [cached] is what the pid cache answers. *)
Definition resolve_pid (policy : ProcessFilterPolicy) (proc : ProcFs) (cached : option ProcessInfo)
    (pid : Z) (s : Session) : ProcessInfo * Session :=
  match cached with
  | Some info => (info, s)
  | None =>
      let info := ProcessInfo.capture proc pid in
      (info, note_process policy info s)
  end.

Definition op_of_outcome (o : OpenOutcome) : OpKind :=
  match o with OpenHit => Hit | OpenMiss | OpenFiltered => Miss end.

(** ** The controller *)
Definition set_session (id : nat) (s : Session) (c : Controller) : Controller :=
  mkController (enabled c) (session c) (<[id := s]> (sessions c)) (next_session c)
               (draining c) (cancelled c) (broadcasts c) (disc_db c).

(** [new_with_process_policy]; the policy is an argument of the operations that ask it. *)
Definition new (db : CacheDb) : Controller := mkController false None ∅ 0 ∅ ∅ [] db.

(** The current session, when armed. *)
Definition armed (c : Controller) : option (nat * Session) :=
  if enabled c then id ← session c; s ← sessions c !! id; Some (id, s) else None.

Definition log_open (policy : ProcessFilterPolicy) (info : ProcessInfo) (outcome : OpenOutcome)
    (c : Controller) : Controller :=
  match armed c with
  | Some (id, s) =>
      set_session id (bump (name_of info) (op_of_outcome outcome) (note_process policy info s)) c
  | None => c
  end.

(** [last] is the thread's last-seen process. *)
Definition log_touch (policy : ProcessFilterPolicy) (proc : ProcFs) (cached : option ProcessInfo)
    (pid : Z) (op : OpKind) (last : option (Z * ProcessInfo)) (c : Controller) :
    option (Z * ProcessInfo) * Controller :=
  match armed c with
  | None => (last, c)
  | Some (id, s) =>
      let '(info, last', s') :=
        match last with
        | Some (p, info) =>
            if p =? pid then (info, last, s)
            else let '(info, s') := resolve_pid policy proc cached pid s in (info, Some (pid, info), s')
        | None => let '(info, s') := resolve_pid policy proc cached pid s in (info, Some (pid, info), s')
        end in
      (last', set_session id (bump (name_of info) op s') c)
  end.

Definition status (c : Controller) : bool * option Z :=
  (enabled c, s ← session c; started_at <$> sessions c !! s).

Definition broadcast_status (c : Controller) : Controller :=
  mkController (enabled c) (session c) (sessions c) (next_session c) (draining c) (cancelled c)
               (broadcasts c ++ [status c]) (disc_db c).

Definition start (now : Z) (c : Controller) : Controller :=
  if enabled c then c
  else
    let id := next_session c in
    broadcast_status
      (mkController true (Some id) (<[id := mkSession ∅ ∅ ∅ ∅ (as_i64 now)]> (sessions c)) (S id)
                    ({[id]} ∪ draining c) (cancelled c) (broadcasts c) (disc_db c)).

Definition stop (c : Controller) : Controller :=
  if negb (enabled c) then c
  else
    let cancelled' := match session c with Some id => {[id]} ∪ cancelled c | None => cancelled c end in
    broadcast_status
      (mkController false None (sessions c) (next_session c) (draining c) cancelled'
                    (broadcasts c) (disc_db c)).

(** ** The flush *)
Section flush.
Context `{MapOrder}.

(** One entry of the iteration: its counter is taken and becomes a row unless it is zero. *)
Definition row_of (now : Z) (s : Session) (x : (string * OpKind) * Z) : option ProcessAccessRow :=
  let '((n, op), c) := x in
  if c =? 0 then None
  else
    let sample := samples s !! n in
    Some (mkProcessAccessRow now n (as_str op) c (fst <$> sample) (snd <$> sample)).

Definition flush_bucket (now : Z) (s : Session) (db : CacheDb) : Session * CacheDb :=
  let rows := omap (row_of (as_i64 now) s) (iter (counts s)) in
  let s' := mkSession ((λ _, 0) <$> counts s) (samples s) (filtered s) (seen s) (started_at s) in
  match rows with
  | [] => (s', db)
  | _ => (s', match CacheDb.upsert_process_access rows db with Ok db' => db' | Err _ => db end)
  end.

(** The drain task as its session and the database see it: operations are noted meanwhile, each tick
    flushes, and the cancellation of its token flushes once more and ends it. *)
Inductive drain_event :=
  | Noted (name : string) (op : OpKind)
  | Ticked (now : Z)
  | Cancelled (now : Z).

(** What is left of the events when the task returns; [None] while it runs. *)
Fixpoint drain_loop (events : list drain_event) (s : Session) (db : CacheDb) :
    Session * CacheDb * option (list drain_event) :=
  match events with
  | [] => (s, db, None)
  | Noted n op :: es => drain_loop es (bump n op s) db
  | Ticked now :: es => let '(s', db') := flush_bucket now s db in drain_loop es s' db'
  | Cancelled now :: es => let '(s', db') := flush_bucket now s db in (s', db', Some es)
  end.

(** A tick of the drain task of a session. *)
Definition drain_tick (now : Z) (id : nat) (c : Controller) : Controller :=
  match sessions c !! id with
  | Some s =>
      let '(s', db') := flush_bucket now s (disc_db c) in
      mkController (enabled c) (session c) (<[id := s']> (sessions c)) (next_session c)
                   (draining c) (cancelled c) (broadcasts c) db'
  | None => c
  end.

(** The end of a drain task whose token was cancelled, with what its spawner does after it. *)
Definition drain_end (now : Z) (id : nat) (c : Controller) : Controller :=
  if decide (id ∈ draining c ∧ id ∈ cancelled c) then
    let c := drain_tick now id c in
    broadcast_status
      (mkController false None (sessions c) (next_session c) (draining c ∖ {[id]}) (cancelled c)
                    (broadcasts c) (disc_db c))
  else c.
End flush.
End Discovery.

(** ** Theorems *)
Module DiscoveryTheorems.
Import Discovery.
Section theorems.
Context `{MapOrder}.

(** The rows of a process and a kind, in any bucket. *)
Definition is_row (n : string) (op : OpKind) (k : Z * string * string) : bool :=
  bool_decide (k.1.2 = n ∧ k.2 = as_str op).

Definition stored (n : string) (op : OpKind) (db : CacheDb) : Z :=
  DbFacts.access_total (is_row n op) (process_access (tables db)).

Definition pending (n : string) (op : OpKind) (s : Session) : Z := default 0 (counts s !! (n, op)).

Lemma as_str_inj op op' : as_str op = as_str op' → op = op'.
Proof. by destruct op, op'. Qed.

Lemma omap_cons {A B} (f : A → option B) a l :
  omap f (a :: l) = match f a with Some b => b :: omap f l | None => omap f l end.
Proof. reflexivity. Qed.

(** The contribution of the flushed entries to one key. *)
Lemma flushed_rows now s n op (l : list ((string * OpKind) * Z)) :
  NoDup l.*1 → (∀ k c, (k, c) ∈ l → 0 <= c < 2 ^ 63) →
  sum_Z ((λ row, if is_row n op (par_bucket_epoch row, par_process_name row, par_op_kind row)
                 then as_i64 (par_count row) else 0) <$> omap (row_of now s) l) =
  default 0 (list_to_map (M := gmap _ _) l !! (n, op)).
Proof.
  induction l as [|[[n' op'] c] l IH]; intros Hnd Hc; [done|].
  apply NoDup_cons in Hnd as [Hk Hnd]. simpl in Hk.
  assert (Hr : 0 <= c < 2 ^ 63) by (eapply Hc; by left).
  specialize (IH Hnd ltac:(intros ?? ?; eapply Hc; by right)).
  assert (Hcase : ((n', op') = (n, op) ∧ is_row n op (now, n', as_str op') = true) ∨
                  ((n', op') ≠ (n, op) ∧ is_row n op (now, n', as_str op') = false)).
  { unfold is_row. simpl. destruct (decide (n' = n ∧ as_str op' = as_str op)) as [[-> Ho]|Hne].
    - apply as_str_inj in Ho as ->. left. by rewrite bool_decide_true.
    - right. rewrite bool_decide_false by done. split; [|done]. intros [= -> ->]. by apply Hne. }
  rewrite (omap_cons (row_of now s)). cbn [row_of list_to_map foldr].
  change (list_to_map (((n', op'), c) :: l)) with (<[(n', op') := c]> (list_to_map l : gmap _ Z)).
  destruct (Z.eqb_spec c 0) as [-> |Hz].
  - rewrite IH. destruct Hcase as [[[= -> ->] _]|[Hne _]].
    + rewrite lookup_insert_eq. rewrite not_elem_of_list_to_map_1 by done. done.
    + by rewrite lookup_insert_ne.
  - rewrite fmap_cons, sum_Z_cons, IH. cbn [par_bucket_epoch par_process_name par_op_kind par_count].
    destruct Hcase as [[[= -> ->] ->]|[Hne ->]].
    + rewrite lookup_insert_eq, not_elem_of_list_to_map_1 by done. simpl.
      rewrite as_i64_id by (int_bounds; lia). lia.
    + rewrite lookup_insert_ne by done. lia.
Qed.

Lemma flush_conserves now s db n op :
  query_only (pragmas db) = false → (∀ k c, counts s !! k = Some c → 0 <= c < 2 ^ 63) →
  let '(s', db') := flush_bucket now s db in
  pending n op s' = 0 ∧ stored n op db' = stored n op db + pending n op s ∧
  query_only (pragmas db') = false.
Proof.
  intros Hw Hc. unfold flush_bucket.
  assert (Hp : pending n op (mkSession ((λ _, 0) <$> counts s) (samples s) (filtered s) (seen s) (started_at s)) = 0).
  { unfold pending. simpl. rewrite lookup_fmap. by destruct (counts s !! _). }
  pose proof (flushed_rows (as_i64 now) s n op (iter (counts s)) (NoDup_fst_iter _)) as Hrows.
  rewrite (list_to_map_proper _ (map_to_list (counts s))) in Hrows
    by (apply NoDup_fst_iter || apply iter_perm).
  rewrite list_to_map_to_list in Hrows. fold (pending n op s) in Hrows.
  specialize (Hrows ltac:(intros k c Hin; eapply Hc, elem_of_iter; done)).
  destruct (omap (row_of (as_i64 now) s) (iter (counts s))) as [|row rows].
  - split_and!; [done| |done]. simpl in Hrows. lia.
  - cbn [CacheDb.upsert_process_access]. rewrite Hw. split_and!; [done| |].
    + unfold stored. rewrite DbFacts.execute_writable by done.
      rewrite <- Hrows. apply (DbFacts.access_total_upsert (is_row n op) (row :: rows)).
    + unfold CacheDb.execute. by rewrite Hw.
Qed.

(** *** Text *)
Lemma take_cont_rest tests s ok got rest :
  take_cont tests s = (ok, got, rest) → (String.length rest <= String.length s)%nat.
Proof.
  revert s ok got rest. induction tests as [|t tests IH]; intros [|c s] ok got rest; simpl;
    [by intros [= <- <- <-]..|].
  destruct (t c); [|by intros [= <- <- <-]].
  destruct (take_cont tests s) as [[ok' got'] rest'] eqn:E. intros [= <- <- <-].
  apply IH in E. simpl. lia.
Qed.

(** Any fuel of at least the length gives the same text. *)
Lemma lossy_fuel_enough n s : (String.length s <= n)%nat → lossy_fuel n s = from_utf8_lossy s.
Proof.
  enough (Hgen : ∀ n m s, (String.length s <= n)%nat → (String.length s <= m)%nat →
    lossy_fuel n s = lossy_fuel m s) by (intros; apply Hgen; [done|lia]).
  clear n s. induction n as [|n IH]; intros [|m] [|c s]; simpl; intros Hn Hm; try done; try lia.
  destruct (continuation c) as [tests|]; [|f_equal; apply IH; lia].
  destruct (take_cont tests s) as [[ok got] rest] eqn:E. apply take_cont_rest in E.
  f_equal. apply IH; lia.
Qed.

Example lossy_examples :
  from_utf8_lossy (String "099" (String "195" (String "169" ""))) =
    String "099" (String "195" (String "169" "")) ∧
  from_utf8_lossy (String "195" (String "065" "")) = (replacement ++ "A")%string ∧
  from_utf8_lossy (String "237" (String "160" (String "128" ""))) =
    (replacement ++ replacement ++ replacement)%string.
Proof. by vm_compute. Qed.

(** The cut is the longest prefix within the bound that ends at a boundary. *)
Lemma boundary_below_spec s n :
  (boundary_below s n <= n)%nat ∧ is_char_boundary s (boundary_below s n) = true ∧
  ∀ i, (boundary_below s n < i <= n)%nat → is_char_boundary s i = false.
Proof.
  induction n as [|n (IH1 & IH2 & IH3)].
  - split_and!; [done| |intros; lia]. unfold is_char_boundary. by destruct s.
  - cbn [boundary_below]. destruct (is_char_boundary s (S n)) eqn:E.
    + split_and!; [done|done|intros; lia].
    + split_and!; [lia|done|]. intros i Hi. destruct (decide (i = S n)) as [-> |]; [done|].
      apply IH3. lia.
Qed.

(** *** Runs of one session *)
Inductive act :=
  | Note (n : string) (op : OpKind)
  | Flush (now : Z).

Definition act_step (st : Session * CacheDb) (a : act) : Session * CacheDb :=
  match a with
  | Note n op => (bump n op st.1, st.2)
  | Flush now => flush_bucket now st.1 st.2
  end.

Definition notes (n : string) (op : OpKind) (acts : list act) : Z :=
  sum_Z ((λ a, match a with Note n' op' => if decide ((n', op') = (n, op)) then 1 else 0 | Flush _ => 0 end)
         <$> acts).

Lemma notes_cons n op a acts :
  notes n op (a :: acts) = notes n op [a] + notes n op acts.
Proof. unfold notes. rewrite !fmap_cons, !sum_Z_cons. simpl. lia. Qed.

Lemma notes_nonneg n op acts : 0 <= notes n op acts <= Z.of_nat (length acts).
Proof.
  induction acts as [|a acts IH]; [done|]. rewrite notes_cons. unfold notes at 1 3. simpl.
  destruct a; [case_decide|]; lia.
Qed.

(** C24. Discovery loses no operation: however bumps of a session and flushes into a writable
    database interleave, for every process and kind the counts stored in the database and the
    count still pending add up to what was there plus the operations noted. *)
Theorem discovery_conserves_counts acts s db n op :
  query_only (pragmas db) = false →
  (∀ k c, counts s !! k = Some c → 0 <= c ∧ c + Z.of_nat (length acts) < 2 ^ 63) →
  Z.of_nat (length acts) < 2 ^ 63 →
  let '(s', db') := foldl act_step (s, db) acts in
  stored n op db' + pending n op s' = stored n op db + pending n op s + notes n op acts.
Proof.
  revert s db. induction acts as [|a acts IH]; intros s db Hw Hc Hlen; cbn [foldl length] in *.
  { unfold notes. simpl. lia. }
  rewrite notes_cons. destruct a as [n' op'|now]; cbn [act_step fst snd].
  - specialize (IH (bump n' op' s) db Hw).
    assert (Hpend : pending n op (bump n' op' s) = pending n op s + notes n op [Note n' op']).
    { unfold pending, bump, notes. simpl. destruct (decide ((n', op') = (n, op))) as [[= -> ->]|Hne].
      - rewrite lookup_insert_eq. simpl. destruct (counts s !! (n, op)) as [c|] eqn:E; simpl.
        + apply Hc in E. rewrite u64_add_small by lia. lia.
        + done.
      - rewrite lookup_insert_ne by done. lia. }
    destruct (foldl act_step (bump n' op' s, db) acts) as [s' db'].
    rewrite IH; [lia| |lia]. intros k c. simpl.
    intros [[<- <-]|[_ Hk]]%lookup_insert_Some; [|apply Hc in Hk; lia].
    destruct (counts s !! (n', op')) as [c|] eqn:E; simpl.
    + apply Hc in E. rewrite u64_add_small by lia. lia.
    + change (u64_add 0 1) with 1. lia.
  - pose proof (flush_conserves now s db n op Hw ltac:(intros k c Hk; apply Hc in Hk; lia)) as Hf.
    assert (Hzero : ∀ k c, counts (flush_bucket now s db).1 !! k = Some c → c = 0).
    { intros k c. unfold flush_bucket. destruct (omap _ _); simpl; rewrite lookup_fmap;
        destruct (counts s !! k); simpl; congruence. }
    destruct (flush_bucket now s db) as [s1 db1]. destruct Hf as (Hp & Hs & Hw1).
    specialize (IH s1 db1 Hw1). destruct (foldl act_step (s1, db1) acts) as [s' db'].
    rewrite IH; [unfold notes at 2; simpl; lia| |lia].
    intros k c Hk. apply Hzero in Hk as ->. lia.
Qed.
End theorems.

(** An operation noted after the last flush is never stored: a handler that took hold of the session
    before [stop] still counts into it when the drain task is gone. *)
Lemma late_operations_are_lost :
  let s := mkSession ∅ ∅ ∅ ∅ 0 in
  let '(s', db', rest) := drain_loop [Noted "cat" Hit; Cancelled 60; Noted "cat" Hit]%string s DbWitnesses.fresh_db in
  rest = Some [Noted "cat" Hit]%string ∧ stored "cat"%string Hit db' = 1 ∧
  pending "cat"%string Hit (bump "cat"%string Hit s') = 1.
Proof. by vm_compute. Qed.

(** A restart can be undone by the drain task of the session before: after start, stop and start
    again, the end of the first drain task disarms the second session, whose own task keeps
    running and whose token nothing can cancel any more. *)
Lemma restart_undone_by_the_old_drain :
  let c := drain_end 3 0 (start 2 (stop (start 1 (new DbWitnesses.fresh_db)))) in
  enabled c = false ∧ session c = None ∧ draining c = {[1%nat]} ∧ 1%nat ∉ cancelled c.
Proof. vm_compute. split_and!; [done|done|done|]. by intros ?. Qed.

Lemma discovery_conserves_counts_witness :
  let acts := [Note "cat" Miss; Flush 60; Note "cat" Miss; Note "plex" Hit]%string in
  let st := foldl act_step (mkSession ∅ ∅ ∅ ∅ 0, DbWitnesses.fresh_db) acts in
  stored "cat"%string Miss st.2 + pending "cat"%string Miss st.1 = 2.
Proof.
  intros acts st.
  pose proof (discovery_conserves_counts acts (mkSession ∅ ∅ ∅ ∅ 0) DbWitnesses.fresh_db
    "cat"%string Miss eq_refl ltac:(intros k c Hk; simpl in Hk; by rewrite lookup_empty in Hk) eq_refl) as Hx.
  unfold st. destruct (foldl act_step _ acts) as [s' db']. simpl in Hx |- *. rewrite Hx.
  vm_compute. reflexivity.
Defined.
End DiscoveryTheorems.
