(* ===== verification/DiscoveryLog.v ===== *)
(** * The discovery log

    What [src/discovery.rs] writes to its own log: a NEW line for the first sight of a process, the
    SNAP lines of a flush and the formatter that takes the message out of an event.  The debug
    text of a command line ([{:?}]) is a parameter. *)
From stdpp Require Import pretty.
From S2P Require Import Prelude Paths Scheduler Backing Disk Db Manager CacheIo Preset Engine Fuse Discovery.

(** Hits, misses and metadata operations of a process. *)
Record Tally := mkTally { t_hit : Z; t_miss : Z; t_meta : Z }.

Module DiscoveryLog.
Import Text Discovery.

(** ** Columns: a width counts characters *)
Fixpoint chars (s : string) : nat :=
  match s with EmptyString => O | String c s' => ((if boundary_byte c then 1 else 0) + chars s')%nat end.

Fixpoint blanks (n : nat) : string := match n with O => "" | S n => String " " (blanks n) end.

Definition left_aligned (width : nat) (s : string) : string := s ++ blanks (width - chars s).
Definition right_aligned (width : nat) (s : string) : string := blanks (width - chars s) ++ s.

Definition utc_time_hms (secs : Z) : string :=
  Scheduler.show2 (secs / 3600 mod 24) ++ ":" ++ Scheduler.show2 (secs / 60 mod 60) ++ ":"
  ++ Scheduler.show2 (secs mod 60).

Definition filter_marker (filtered : bool) : string := if filtered then "*" else "-".

(** ** NEW *)
Definition emit_new (debug_str : string → string) (now : Z) (name ancestors cmdline : string) (filtered : bool) : string :=
  let anc_str := if decide (ancestors = "") then "" else (" anc=" ++ ancestors)%string in
  let cmd_str := if decide (cmdline = "") then "" else (" cmd=" ++ debug_str cmdline)%string in
  utc_time_hms now ++ "  NEW     " ++ left_aligned 32 name ++ "  " ++ filter_marker filtered
  ++ "     -      -      -       -  pid=?" ++ anc_str ++ cmd_str.

(** ** SNAP *)
Definition zero_tally : Tally := mkTally 0 0 0.

(** A row adds to the count of its kind. *)
Definition add_row (m : gmap string Tally) (row : ProcessAccessRow) : gmap string Tally :=
  let t := default zero_tally (m !! par_process_name row) in
  let n := par_count row in
  let t' := if decide (par_op_kind row = "hit"%string) then mkTally (u64_add (t_hit t) n) (t_miss t) (t_meta t)
            else if decide (par_op_kind row = "miss"%string) then mkTally (t_hit t) (u64_add (t_miss t) n) (t_meta t)
            else if decide (par_op_kind row = "meta"%string) then mkTally (t_hit t) (t_miss t) (u64_add (t_meta t) n)
            else t in
  <[par_process_name row := t']> m.

Definition by_process (rows : list ProcessAccessRow) : gmap string Tally := foldl add_row ∅ rows.

Definition total (t : Tally) : Z := u64_add (u64_add (t_hit t) (t_miss t)) (t_meta t).

Definition snap_line (now : Z) (name : string) (filtered : bool) (t : Tally) : string :=
  utc_time_hms now ++ "  SNAP    " ++ left_aligned 32 name ++ "  " ++ filter_marker filtered ++ "  "
  ++ right_aligned 6 (pretty (t_hit t)) ++ "  " ++ right_aligned 6 (pretty (t_miss t)) ++ "  "
  ++ right_aligned 6 (pretty (t_meta t)) ++ "  " ++ right_aligned 8 (pretty (total t)).

(** The verdict noted at first sight, or that on the name alone. *)
Definition is_filtered (policy : ProcessFilterPolicy) (filtered_by_process : gmap string bool) (name : string) : bool :=
  match filtered_by_process !! name with
  | Some b => b
  | None => ProcessFilterPolicy.should_filter policy (mkProcessInfo 0 (Some name) None [])
  end.

Section snap.
Context `{MapOrder} (policy : ProcessFilterPolicy).

(** The busiest first; the order of equals is that of the map. *)
Definition emit_snap (now : Z) (processes : gmap string Tally) (filtered_by_process : gmap string bool) : list string :=
  (λ e, snap_line now e.1 (is_filtered policy filtered_by_process e.1) e.2)
  <$> sort_by (λ a b, total b.2 <=? total a.2) (iter processes).

(** What [flush_bucket] logs. *)
Definition flush_log (now : Z) (s : Session) : list string :=
  match omap (row_of (as_i64 now) s) (iter (counts s)) with
  | [] => []
  | rows => emit_snap now (by_process rows) (filtered s)
  end.
End snap.

(** ** The formatter *)
Fixpoint replace2 (a b : ascii) (by_ : ascii) (s : string) : string :=
  match s with
  | EmptyString => EmptyString
  | String c s' =>
      match s' with
      | String d s'' =>
          if decide (c = a ∧ d = b) then String by_ (replace2 a b by_ s'') else String c (replace2 a b by_ s')
      | EmptyString => s
      end
  end.

Definition quote : ascii := "034"%char.
Definition backslash : ascii := "092"%char.

Fixpoint ends_in_quote (s : string) : bool :=
  match s with
  | EmptyString => false
  | String c EmptyString => bool_decide (c = quote)
  | String _ s' => ends_in_quote s'
  end.

(** The text between the quotes, with four escapes taken back one after the other. *)
Definition unquote (raw : string) : string :=
  match raw with
  | String c s' =>
      if (2 <=? String.length raw)%nat && bool_decide (c = quote) && ends_in_quote raw then
        replace2 backslash "t" "009"
          (replace2 backslash "n" "010"
            (replace2 backslash backslash backslash
              (replace2 backslash quote quote (String.substring 0 (String.length raw - 2) s'))))
      else raw
  | EmptyString => raw
  end.

(** The first non-empty message; [inl] is a string, [inr] a debug text. *)
Definition capture (v : string) (field : string * (string + string)) : string :=
  if decide (field.1 = "message"%string ∧ v = ""%string)
  then match field.2 with inl value => value | inr raw => unquote raw end
  else v.

Definition format_event (fields : list (string * (string + string))) : string :=
  foldl capture "" fields ++ String "010" "".
End DiscoveryLog.

(** ** Lemmas *)
Module DiscoveryLogFacts.
Import Discovery DiscoveryTheorems DiscoveryLog.

Definition count_of (op : OpKind) (t : Tally) : Z :=
  match op with Hit => t_hit t | Miss => t_miss t | Meta => t_meta t end.

Definition tally_at (m : gmap string Tally) (n : string) : Tally := default zero_tally (m !! n).

(** One row moves one count of one process. *)
Lemma add_row_counts m e n c x y op op' :
  0 <= c < 2 ^ 64 → count_of op (tally_at m n) = 0 →
  let m' := add_row m (mkProcessAccessRow e n (as_str op) c x y) in
  count_of op (tally_at m' n) = c ∧ (op' ≠ op → count_of op' (tally_at m' n) = count_of op' (tally_at m n)).
Proof.
  intros Hc H0. cbn zeta. unfold add_row, tally_at in *. cbn [par_process_name par_op_kind par_count].
  rewrite lookup_insert_eq. cbn [default].
  assert (Hu : ∀ z, z = 0 → u64_add z c = c) by (intros z ->; by apply u64_add_small; lia).
  destruct op; simpl in *; rewrite Hu by done; (split; [done|]); by destruct op'.
Qed.

Lemma add_row_other m row n : n ≠ par_process_name row → add_row m row !! n = m !! n.
Proof. intros Hn. unfold add_row. by rewrite lookup_insert_ne. Qed.

Lemma add_row_some m row : is_Some (add_row m row !! par_process_name row).
Proof. unfold add_row. rewrite lookup_insert_eq. by eexists. Qed.

(** The rows of a flush, each process and kind once, tally up. *)
Lemma rows_tally now s (l : list ((string * OpKind) * Z)) m :
  NoDup l.*1 →
  (∀ n op c, ((n, op), c) ∈ l → 0 <= c < 2 ^ 64 ∧ count_of op (tally_at m n) = 0) →
  let m' := foldl add_row m (omap (row_of now s) l) in
  (∀ n op, count_of op (tally_at m' n)
           = default (count_of op (tally_at m n)) ((list_to_map l : gmap _ Z) !! (n, op))) ∧
  ∀ n, is_Some (m' !! n) ↔ is_Some (m !! n) ∨ ∃ op c, ((n, op), c) ∈ l ∧ c ≠ 0.
Proof.
  cbn zeta. revert m. induction l as [|[[n0 op0] c0] l IH]; intros m Hnd Hl.
  { split; [done|]. intros n. split; [by left|]. intros [?|(? & ? & Hin & _)]; [done|]. by apply not_elem_of_nil in Hin. }
  apply NoDup_cons in Hnd as [Hk Hnd]. simpl in Hk.
  destruct (Hl n0 op0 c0 ltac:(by left)) as [Hc0 Hz0].
  assert (Hfresh : ∀ op c, ((n0, op), c) ∈ l → op ≠ op0).
  { intros op c Hin ->. apply Hk. apply list_elem_of_fmap. by exists ((n0, op0), c). }
  assert (Hmap : ∀ n op, (list_to_map (((n0, op0), c0) :: l) : gmap _ Z) !! (n, op)
                 = if decide ((n0, op0) = (n, op)) then Some c0 else (list_to_map l : gmap _ Z) !! (n, op)).
  { intros n op. simpl. case_decide as E; [rewrite E; by rewrite lookup_insert_eq|by rewrite lookup_insert_ne]. }
  rewrite (omap_cons (row_of now s)). cbn [row_of]. destruct (Z.eqb_spec c0 0) as [->|Hc].
  - destruct (IH m Hnd) as [IH1 IH2]; [intros; apply Hl; by right|]. split.
    + intros n op. rewrite IH1, Hmap. case_decide as E; [|done]. simplify_eq. simpl.
      rewrite not_elem_of_list_to_map_1 by done. done.
    + intros n. rewrite IH2. split; (intros [?|(op & c & Hin & Hne)]; [by left|right]).
      * exists op, c. split; [by right|done].
      * apply elem_of_cons in Hin as [[= -> -> ->]|Hin]; [done|]. by exists op, c.
  - cbn [foldl]. set (row := mkProcessAccessRow _ _ _ _ _ _).
    assert (Hat : ∀ n op, count_of op (tally_at (add_row m row) n)
                          = if decide ((n0, op0) = (n, op)) then c0 else count_of op (tally_at m n)).
    { intros n op. destruct (decide (n0 = n)) as [<-|Hn].
      - destruct (add_row_counts m now n0 c0 (fst <$> samples s !! n0) (snd <$> samples s !! n0) op0 op Hc0 Hz0) as [E1 E2].
        case_decide as E; [by simplify_eq|]. apply E2. congruence.
      - unfold tally_at. rewrite add_row_other by (simpl; congruence). by rewrite decide_False by congruence. }
    destruct (IH (add_row m row) Hnd) as [IH1 IH2].
    { intros n op c Hin. destruct (Hl n op c ltac:(by right)). split; [done|]. rewrite Hat, decide_False; [done|].
      intros [= <- <-]. by apply Hfresh in Hin. }
    split.
    + intros n op. rewrite IH1, Hmap, Hat. case_decide as E; [|done]. simplify_eq. simpl.
      by rewrite not_elem_of_list_to_map_1.
    + intros n. rewrite IH2. destruct (decide (n = n0)) as [->|Hn].
      * split; [|by left; apply (add_row_some m row)]. intros _. right. exists op0, c0. split; [by left|done].
      * rewrite add_row_other by (simpl; congruence). split; (intros [?|(op & c & Hin & Hne)]; [by left|right]).
        -- exists op, c. split; [by right|done].
        -- apply elem_of_cons in Hin as [[= -> -> ->]|Hin]; [done|]. by exists op, c.
Qed.

Definition tally_of (n : string) (s : Session) : Tally :=
  mkTally (pending n Hit s) (pending n Miss s) (pending n Meta s).

Definition busy (n : string) (s : Session) : Prop := ∃ op, pending n op s ≠ 0.

(** The table a flush logs: one entry for every process with something to report. *)
Lemma by_process_spec `{MapOrder} now s n :
  (∀ k c, counts s !! k = Some c → 0 <= c < 2 ^ 62) →
  let m := by_process (omap (row_of now s) (iter (counts s))) in
  (∀ t, m !! n = Some t → t = tally_of n s ∧ busy n s) ∧ (busy n s → is_Some (m !! n)).
Proof.
  intros Hc. cbn zeta.
  destruct (rows_tally now s (iter (counts s)) ∅) as [Hcount Hdom].
  - apply NoDup_fst_iter.
  - intros k op c Hin. split; [apply elem_of_iter, Hc in Hin; lia|].
    unfold tally_at. rewrite lookup_empty. by destruct op.
  - change (foldl add_row ∅ ?l) with (by_process l) in Hcount, Hdom.
    assert (Hop : ∀ op, count_of op (tally_at (by_process (omap (row_of now s) (iter (counts s)))) n)
                        = pending n op s).
    { intros op. rewrite Hcount. rewrite (list_to_map_proper _ (map_to_list (counts s)))
        by (apply NoDup_fst_iter || apply iter_perm).
      rewrite list_to_map_to_list. unfold pending, tally_at. rewrite lookup_empty.
      by destruct (counts s !! (n, op)), op. }
    assert (Hbusy : is_Some (by_process (omap (row_of now s) (iter (counts s))) !! n) ↔ busy n s).
    { rewrite Hdom, lookup_empty. unfold busy, pending. split.
      - intros [[? ?]|(op & c & Hin & Hne)]; [done|]. apply elem_of_iter in Hin. exists op. by rewrite Hin.
      - intros [op Hop']. destruct (counts s !! (n, op)) as [c|] eqn:E; [|done].
        right. exists op, c. split; [by apply elem_of_iter|done]. }
    split; [|by intros ?%Hbusy]. intros t Ht. split; [|apply Hbusy; by eexists].
    pose proof (Hop Hit). pose proof (Hop Miss). pose proof (Hop Meta).
    unfold tally_at in *. rewrite Ht in *. cbn in *. destruct t. unfold tally_of. cbn in *. congruence.
Qed.

Definition operations (n : string) (s : Session) : Z :=
  pending n Hit s + pending n Miss s + pending n Meta s.

Lemma total_tally_of n s :
  (∀ k c, counts s !! k = Some c → 0 <= c < 2 ^ 62) → total (tally_of n s) = operations n s.
Proof.
  intros Hc. assert (Hp : ∀ op, 0 <= pending n op s < 2 ^ 62).
  { intros op. unfold pending. destruct (counts s !! (n, op)) as [c|] eqn:E; [by apply Hc in E|done]. }
  pose proof (Hp Hit). pose proof (Hp Miss). pose proof (Hp Meta).
  unfold total, operations. cbn. rewrite (u64_add_small (pending n Hit s)) by lia. by rewrite u64_add_small by lia.
Qed.

#[export] Instance busiest_first : TotalOrderb (λ a b : string * Tally, total b.2 <=? total a.2).
Proof. split; intros; rewrite ?Z.leb_le in *; lia. Qed.
End DiscoveryLogFacts.

(** ** Theorems *)
Module DiscoveryLogTheorems.
Import Discovery DiscoveryTheorems DiscoveryLog DiscoveryLogFacts.

(** C40. A flush logs what it stores: one SNAP line for every process with something pending and for
    no other, each with that process's hits, misses and metadata operations since the last flush
    and the verdict noted for it, the busiest first. *)
Theorem snap_reports_the_bucket `{MapOrder} policy now s :
  (∀ k c, counts s !! k = Some c → 0 <= c < 2 ^ 62) →
  ∃ names, NoDup names ∧ (∀ n, n ∈ names ↔ busy n s) ∧
    StronglySorted (λ a b, operations b s <= operations a s) names ∧
    flush_log policy now s
    = (λ n, snap_line now n (is_filtered policy (filtered s) n) (tally_of n s)) <$> names.
Proof.
  intros Hc. pose proof (λ n, by_process_spec (as_i64 now) s n Hc) as Hm. cbn zeta in Hm.
  set (m := by_process _) in Hm. set (l := sort_by (λ a b, total b.2 <=? total a.2) (iter m)).
  assert (Hin : ∀ n t, (n, t) ∈ l ↔ m !! n = Some t).
  { intros n t. unfold l. by rewrite elem_of_sort_by, elem_of_iter. }
  assert (Hl : l = (λ n, (n, tally_of n s)) <$> l.*1).
  { rewrite <- list_fmap_compose. rewrite <- (list_fmap_id l) at 1. apply list_fmap_ext.
    intros i [n t] Ht%list_elem_of_lookup_2%Hin. by apply (Hm n) in Ht as [-> _]. }
  exists l.*1. split_and!.
  - unfold l. rewrite sort_by_perm. apply NoDup_fst_iter.
  - intros n. rewrite list_elem_of_fmap. split.
    + intros ([n' t] & -> & Ht). apply Hin in Ht. by apply (Hm n') in Ht as [_ ?].
    + intros [t Ht]%(proj2 (Hm n)). exists (n, t). by rewrite Hin.
  - pose proof (sort_by_sorted (λ a b, total b.2 <=? total a.2) (iter m)) as Hs. fold l in Hs.
    eapply StronglySorted_fmap, Hs. intros [n t] [n' t'] Ht%Hin Ht'%Hin Hle.
    apply (Hm n) in Ht as [-> _]. apply (Hm n') in Ht' as [-> _].
    cbn in *. rewrite !total_tally_of in Hle by done. lia.
  - transitivity (emit_snap policy now m (filtered s)).
    + unfold flush_log, m. destruct (omap _ _) as [|row rows]; [|done].
      unfold emit_snap, by_process. simpl. destruct (iter ∅) as [|[n t] l'] eqn:E; [done|].
      by pose proof (proj1 (elem_of_iter (A := Tally) ∅ n t) ltac:(rewrite E; by left)) as Hx.
    + unfold emit_snap. fold l. rewrite Hl at 1. by rewrite <- list_fmap_compose.
Qed.

(** The message of a log line is written as it is; only one that begins with a quote is touched. *)
Lemma plain_messages_are_verbatim c line rest :
  c ≠ quote → (∀ f, f ∈ rest → f.1 ≠ "message"%string) →
  format_event (("message"%string, inr (String c line)) :: rest) = (String c line ++ String "010" "")%string.
Proof.
  intros Hc Hrest. unfold format_event. cbn [foldl]. unfold capture at 2. cbn [fst snd].
  rewrite decide_True by done. unfold unquote. rewrite (bool_decide_false (c = quote)) by done.
  rewrite andb_false_r. simpl andb. cbn iota. f_equal.
  induction rest as [|f rest IH]; [done|]. cbn [foldl]. unfold capture at 2.
  rewrite decide_False by (intros [? ?]; by eapply Hrest; [left|]). apply IH. intros; apply Hrest; by right.
Qed.

(** In a quoted message a backslash before an [n] comes out as a line feed: the escapes are undone one
    after the other, and what the second leaves the third takes for an escape. *)
Lemma a_backslash_becomes_a_line_feed :
  let debug_text := (String quote "C:" ++ String backslash (String backslash ("new" ++ String quote "")))%string in
  unquote debug_text = ("C:" ++ String "010" "ew")%string.
Proof. by vm_compute. Qed.

Lemma snap_reports_the_bucket_witness :
  let s := Discovery.bump "plex" Hit (Discovery.bump "cat" Meta (Discovery.bump "plex" Miss
             (mkSession ∅ ∅ {["cat"%string := true]} ∅ 0))) in
  ∃ names, NoDup names ∧ (∀ n, n ∈ names ↔ busy n s) ∧
    StronglySorted (λ a b, operations b s <= operations a s) names ∧
    flush_log (mkProcessFilterPolicy [] []) 3661 s
    = (λ n, snap_line 3661 n (is_filtered (mkProcessFilterPolicy [] []) (filtered s) n) (tally_of n s)) <$> names.
Proof.
  intros s. apply (snap_reports_the_bucket (mkProcessFilterPolicy [] []) 3661 s).
  intros k c. unfold s, Discovery.bump. cbn [counts].
  intros [[_ <-]|[_ [[_ <-]|[_ [[_ <-]|[_ Hk]]%lookup_insert_Some]]%lookup_insert_Some]]%lookup_insert_Some;
    [by vm_compute..|by rewrite lookup_empty in Hk].
Defined.
End DiscoveryLogTheorems.
