(* ===== verification/Config.v ===== *)
(** * Configuration

    [src/config.rs] and the start of [run_daemon] in [src/main.rs] that resolves it.  Reading the
    TOML text is third-party: a section enters as the record of the fields it sets, and what the
    serde attributes of the code make of absent sections and fields is written out.  The error
    texts are not compared; an error carries what was refused. *)
From S2P Require Import Prelude Paths Scheduler Preset.

(** ** Numbers

    A double is [m * 2 ^ e] or a special value; the sign of zero makes no difference here. *)
Inductive f64 := NaN | Infinity (negative : bool) | Finite (m e : Z).

Inductive NumericU64 := Int (n : Z) | Float (f : f64).

(** ** The sections as the file gives them: absent fields are [None] *)
Record RawCache := mkRawCache {
  rc_max_size_gb : option f64; rc_expiry_hours : option NumericU64;
  rc_min_free_space_gb : option f64; rc_passthrough_mode : option bool;
  rc_max_cache_pull_per_mount_gb : option f64; rc_deferred_ttl_minutes : option NumericU64;
  rc_min_access_secs : option NumericU64; rc_min_file_size_mb : option NumericU64;
  rc_max_concurrent_copies : option Z;
}.
Record RawEviction := mkRawEviction {
  re_strategy : option string; re_max_size_gb : option f64; re_expiry_hours : option NumericU64;
  re_min_free_space_gb : option f64; re_poll_interval_secs : option NumericU64;
}.
Record RawInvalidation := mkRawInvalidation {
  ri_check_on_hit : option bool; ri_check_on_maintenance : option bool;
}.
Record RawPrefetch := mkRawPrefetch {
  rf_mode : option string; rf_max_depth : option Z;
  rf_process_blocklist : option (list string); rf_process_allowlist : option (list string);
  rf_file_whitelist : option (list string); rf_file_blacklist : option (list string);
}.
Record RawPlex := mkRawPlex {
  rp_lookahead : option Z; rp_mode : option string;
  rp_process_blocklist : option (list string); rp_process_allowlist : option (list string);
}.
Record RawSchedule := mkRawSchedule {
  rs_cache_window_start : option string; rs_cache_window_end : option string;
}.
Record RawLogging := mkRawLogging {
  rl_log_directory : option string; rl_console_level : option string;
  rl_file_level : option string; rl_repeat_log_window_secs : option NumericU64;
}.
Record RawDiscovery := mkRawDiscovery {
  rd_enabled : option bool; rd_window_days : option Z; rd_bucket_interval_secs : option Z;
  rd_pid_lru_capacity : option Z; rd_pid_lru_ttl_secs : option Z;
}.
Record RawBackingWatch := mkRawBackingWatch {
  rb_enabled : option bool; rb_max_dirs : option Z; rb_debounce_ms : option Z;
}.

(** ** The configuration *)
Record PathsConfig := mkPathsConfig {
  target_directories : list string; cache_directory : string; instance_name : string;
}.
Record CacheConfig := mkCacheConfig {
  c_max_size_gb : option f64; c_expiry_hours : option Z; c_min_free_space_gb : option f64;
  passthrough_mode : bool; max_cache_pull_per_mount_gb : f64; deferred_ttl_minutes : Z;
  min_access_secs : Z; min_file_size_mb : Z; max_concurrent_copies : Z;
}.
Record EvictionConfig := mkEvictionConfig {
  strategy : string; e_max_size_gb : f64; e_expiry_hours : Z; e_min_free_space_gb : f64;
  poll_interval_secs : Z;
}.
Record InvalidationConfig := mkInvalidationConfig {
  ic_check_on_hit : bool; check_on_maintenance : bool;
}.
Record ResolvedEviction := mkResolvedEviction {
  r_max_size_gb : f64; r_expiry_hours : Z; r_min_free_space_gb : f64;
}.
Record PrefetchConfig := mkPrefetchConfig {
  pf_mode : string; pf_max_depth : Z; pf_process_blocklist : list string;
  pf_process_allowlist : list string; pf_file_whitelist : list string; pf_file_blacklist : list string;
}.
Record PlexConfig := mkPlexConfig {
  px_lookahead : Z; px_mode : string;
  px_process_blocklist : list string; px_process_allowlist : list string;
}.
Record ScheduleConfig := mkScheduleConfig { cache_window_start : string; cache_window_end : string }.
Record LoggingConfig := mkLoggingConfig {
  log_directory : string; console_level : string; file_level : string; repeat_log_window_secs : Z;
}.
Record DiscoveryConfig := mkDiscoveryConfig {
  dc_enabled : bool; window_days : Z; bucket_interval_secs : Z; pid_lru_capacity : Z;
  pid_lru_ttl_secs : Z;
}.
Record BackingWatchConfig := mkBackingWatchConfig {
  bw_enabled : bool; bw_max_dirs : Z; bw_debounce_ms : Z;
}.

Record RawConfig := mkRawConfig {
  raw_paths : PathsConfig; raw_cache : option RawCache; raw_eviction : option RawEviction;
  raw_preset : option (option string); raw_prefetch : option RawPrefetch; raw_plex : option RawPlex;
  raw_schedule : option RawSchedule; raw_logging : option RawLogging;
  raw_invalidation : option RawInvalidation; raw_discovery : option RawDiscovery;
  raw_backing_watch : option RawBackingWatch; raw_sqlite : option (option Z);
}.

Record Config := mkConfig {
  paths : PathsConfig; cache : CacheConfig; eviction : EvictionConfig; preset_name : string;
  prefetch : PrefetchConfig; plex : PlexConfig; schedule : ScheduleConfig; logging : LoggingConfig;
  invalidation : InvalidationConfig; discovery : DiscoveryConfig; backing_watch : BackingWatchConfig;
  cache_size_mb : Z;
}.

Module Config.
Import Text.

(** ** Casts *)
Definition trunc (m e : Z) : Z := if 0 <=? e then m * 2 ^ e else Z.quot m (2 ^ (- e)).

(** [f as u64]: towards zero, saturating, zero for a NaN. *)
Definition f64_as_u64 (f : f64) : Z :=
  match f with
  | NaN => 0
  | Infinity negative => if negative then 0 else 2 ^ 64 - 1
  | Finite m e => Z.min (2 ^ 64 - 1) (Z.max 0 (trunc m e))
  end.

(** [x * 1_073_741_824.0]: a change of exponent.  An overflow to infinity is cast as the finite
    product would be. *)
Definition times_gib (f : f64) : f64 :=
  match f with Finite m e => Finite m (e + 30) | _ => f end.

Definition gb_to_bytes (gb : f64) : Z := f64_as_u64 (times_gib gb).

(** A number without a fraction is tried as a [u64], then, when negative, as a float. *)
Definition de_u64 (v : NumericU64) : Z :=
  match v with
  | Int n => if 0 <=? n then n else f64_as_u64 (Finite n 0)
  | Float f => f64_as_u64 f
  end.

Definition de_opt_u64 (v : option NumericU64) : option Z := de_u64 <$> v.

Definition zero : f64 := Finite 0 0.

(** ** Defaults of fields *)
Definition default_log_directory : string := "/var/log/fscache".
Definition default_console_level : string := "info".
Definition default_file_level : string := "debug".
Definition default_repeat_log_window_secs : Z := 60.
Definition default_preset_name : string := "plex-episode-prediction".
Definition default_lookahead : Z := 4.
Definition default_plex_mode : string := "miss-only".
Definition default_max_concurrent_copies : Z := 1.
Definition default_deferred_ttl_minutes : Z := 1440.
Definition default_max_size_gb : f64 := Finite 200 0.
Definition default_expiry_hours : Z := 72.
Definition default_min_free_space_gb : f64 := Finite 10 0.
Definition default_window_start : string := "08:00".
Definition default_window_end : string := "02:00".
Definition default_eviction_strategy : string := "lru".
Definition default_prefetch_mode : string := "cache-hit-only".
Definition default_max_depth : Z := 3.
Definition default_poll_interval_secs : Z := 300.
Definition default_check_on_hit : bool := false.
Definition default_check_on_maintenance : bool := true.
Definition default_sqlite_cache_size_mb : Z := 64.

(** ** Defaults of sections: what an absent section becomes *)
Definition CacheConfig_default : CacheConfig :=
  mkCacheConfig None None None false zero default_deferred_ttl_minutes 2 0
                default_max_concurrent_copies.
Definition EvictionConfig_default : EvictionConfig :=
  mkEvictionConfig default_eviction_strategy default_max_size_gb default_expiry_hours
                   default_min_free_space_gb default_poll_interval_secs.
Definition InvalidationConfig_default : InvalidationConfig :=
  mkInvalidationConfig default_check_on_hit default_check_on_maintenance.
Definition PrefetchConfig_default : PrefetchConfig :=
  mkPrefetchConfig default_prefetch_mode default_max_depth [] [] [] [].
Definition PlexConfig_default : PlexConfig :=
  mkPlexConfig default_lookahead default_plex_mode [] [].
Definition ScheduleConfig_default : ScheduleConfig :=
  mkScheduleConfig default_window_start default_window_end.
Definition LoggingConfig_default : LoggingConfig :=
  mkLoggingConfig default_log_directory default_console_level default_file_level
                  default_repeat_log_window_secs.
Definition DiscoveryConfig_default : DiscoveryConfig := mkDiscoveryConfig false 7 60 512 300.
Definition BackingWatchConfig_default : BackingWatchConfig := mkBackingWatchConfig true 65536 3000.

(** ** Sections that are present *)
Definition cache_section (r : RawCache) : CacheConfig :=
  mkCacheConfig (rc_max_size_gb r) (de_opt_u64 (rc_expiry_hours r)) (rc_min_free_space_gb r)
    (default false (rc_passthrough_mode r)) (default zero (rc_max_cache_pull_per_mount_gb r))
    (default default_deferred_ttl_minutes (de_u64 <$> rc_deferred_ttl_minutes r))
    (default 0 (de_u64 <$> rc_min_access_secs r)) (default 0 (de_u64 <$> rc_min_file_size_mb r))
    (default default_max_concurrent_copies (rc_max_concurrent_copies r)).

Definition eviction_section (r : RawEviction) : EvictionConfig :=
  mkEvictionConfig (default default_eviction_strategy (re_strategy r))
    (default default_max_size_gb (re_max_size_gb r))
    (default default_expiry_hours (de_u64 <$> re_expiry_hours r))
    (default default_min_free_space_gb (re_min_free_space_gb r))
    (default default_poll_interval_secs (de_u64 <$> re_poll_interval_secs r)).

Definition invalidation_section (r : RawInvalidation) : InvalidationConfig :=
  mkInvalidationConfig (default default_check_on_hit (ri_check_on_hit r))
    (default default_check_on_maintenance (ri_check_on_maintenance r)).

Definition prefetch_section (r : RawPrefetch) : PrefetchConfig :=
  mkPrefetchConfig (default default_prefetch_mode (rf_mode r)) (default default_max_depth (rf_max_depth r))
    (default [] (rf_process_blocklist r)) (default [] (rf_process_allowlist r))
    (default [] (rf_file_whitelist r)) (default [] (rf_file_blacklist r)).

Definition plex_section (r : RawPlex) : PlexConfig :=
  mkPlexConfig (default default_lookahead (rp_lookahead r)) (default default_plex_mode (rp_mode r))
    (default [] (rp_process_blocklist r)) (default [] (rp_process_allowlist r)).

Definition schedule_section (r : RawSchedule) : ScheduleConfig :=
  mkScheduleConfig (default default_window_start (rs_cache_window_start r))
    (default default_window_end (rs_cache_window_end r)).

Definition logging_section (r : RawLogging) : LoggingConfig :=
  mkLoggingConfig (default default_log_directory (rl_log_directory r))
    (default default_console_level (rl_console_level r)) (default default_file_level (rl_file_level r))
    (default default_repeat_log_window_secs (de_u64 <$> rl_repeat_log_window_secs r)).

(** [#[serde(default)]] on the struct: a missing field is the field of the default value. *)
Definition discovery_section (r : RawDiscovery) : DiscoveryConfig :=
  let d := DiscoveryConfig_default in
  mkDiscoveryConfig (default (dc_enabled d) (rd_enabled r)) (default (window_days d) (rd_window_days r))
    (default (bucket_interval_secs d) (rd_bucket_interval_secs r))
    (default (pid_lru_capacity d) (rd_pid_lru_capacity r))
    (default (pid_lru_ttl_secs d) (rd_pid_lru_ttl_secs r)).

Definition backing_watch_section (r : RawBackingWatch) : BackingWatchConfig :=
  let d := BackingWatchConfig_default in
  mkBackingWatchConfig (default (bw_enabled d) (rb_enabled r)) (default (bw_max_dirs d) (rb_max_dirs r))
    (default (bw_debounce_ms d) (rb_debounce_ms r)).

Definition from_raw (r : RawConfig) : Config :=
  mkConfig (raw_paths r)
    (default CacheConfig_default (cache_section <$> raw_cache r))
    (default EvictionConfig_default (eviction_section <$> raw_eviction r))
    (default default_preset_name (default default_preset_name <$> raw_preset r))
    (default PrefetchConfig_default (prefetch_section <$> raw_prefetch r))
    (default PlexConfig_default (plex_section <$> raw_plex r))
    (default ScheduleConfig_default (schedule_section <$> raw_schedule r))
    (default LoggingConfig_default (logging_section <$> raw_logging r))
    (default InvalidationConfig_default (invalidation_section <$> raw_invalidation r))
    (default DiscoveryConfig_default (discovery_section <$> raw_discovery r))
    (default BackingWatchConfig_default (backing_watch_section <$> raw_backing_watch r))
    (default default_sqlite_cache_size_mb (default default_sqlite_cache_size_mb <$> raw_sqlite r)).

(** ** Resolving *)
Definition resolve (e : EvictionConfig) (c : CacheConfig) : ResolvedEviction :=
  mkResolvedEviction
    (match c_max_size_gb c with Some v => v | None => e_max_size_gb e end)
    (match c_expiry_hours c with Some v => v | None => e_expiry_hours e end)
    (match c_min_free_space_gb c with Some v => v | None => e_min_free_space_gb e end).

(** [run_daemon] writes the effective values back, for the clients. *)
Definition with_resolved (c : Config) : Config :=
  let r := resolve (eviction c) (cache c) in
  mkConfig (paths c) (cache c)
    (mkEvictionConfig (strategy (eviction c)) (r_max_size_gb r) (r_expiry_hours r)
       (r_min_free_space_gb r) (poll_interval_secs (eviction c)))
    (preset_name c) (prefetch c) (plex c) (schedule c) (logging c) (invalidation c) (discovery c)
    (backing_watch c) (cache_size_mb c).

Definition max_cache_pull_bytes (c : Config) : Z := gb_to_bytes (max_cache_pull_per_mount_gb (cache c)).

(** The policy discovery judges processes by. *)
Definition discovery_process_policy (c : Config) : ProcessFilterPolicy :=
  if decide (preset_name c = "prefetch"%string)
  then mkProcessFilterPolicy (pf_process_allowlist (prefetch c)) (pf_process_blocklist (prefetch c))
  else mkProcessFilterPolicy (px_process_allowlist (plex c)) (px_process_blocklist (plex c)).

(** ** The instance name *)
Definition is_ascii_alphanumeric (c : ascii) : bool :=
  let n := nat_of_ascii c in
  ((48 <=? n) && (n <=? 57) || (65 <=? n) && (n <=? 90) || (97 <=? n) && (n <=? 122))%nat.

Definition name_char (c : ascii) : bool :=
  is_ascii_alphanumeric c || bool_decide (c = "-"%char) || bool_decide (c = "_"%char).

Definition validate_instance_name (name : string) : fallible unit :=
  if decide (trim name = ""%string) then Err name
  else if negb (all_chars name_char name) then Err name
  else Ok tt.

(** ** Loading *)
Section load.
Context (read_to_string : path → fallible string) (from_str : string → fallible RawConfig).

Definition load_from (p : path) : fallible (Config * path) :=
  content ← read_to_string p;
  raw ← from_str content;
  let config := from_raw raw in
  _ ← validate_instance_name (instance_name (paths config));
  Ok (config, p).

(** [exe] is the program's own path, [cwd] the current directory. *)
Definition find_file_near_binary (path_exists : path → bool) (exe : option path)
    (cwd : fallible path) (filename : string) : fallible path :=
  match exe with
  | Some exe =>
      let candidate := parent exe ++ [filename] in
      if path_exists candidate then Ok candidate
      else d ← cwd;
           if path_exists (d ++ [filename]) then Ok (d ++ [filename]) else Err filename
  | None => d ← cwd;
            if path_exists (d ++ [filename]) then Ok (d ++ [filename]) else Err filename
  end.

Definition load (path_exists : path → bool) (exe : option path) (cwd : fallible path) :
    fallible (Config * path) :=
  p ← find_file_near_binary path_exists exe cwd "config.toml"; load_from p.
End load.
End Config.

(** ** Lemmas *)
Module ConfigFacts.
Import Config Text.

(** What serde has already checked of a file: the integers it reads as such are in range. *)
Definition numeric_ok (v : NumericU64) : Prop := match v with Int n => n < 2 ^ 64 | Float _ => True end.

Definition opt (P : Z → Prop) (o : option Z) : Prop := match o with Some z => P z | None => True end.
Definition opt_num (o : option NumericU64) : Prop := match o with Some v => numeric_ok v | None => True end.

Definition raw_cache_ok (s : RawCache) : Prop :=
  opt_num (rc_expiry_hours s) ∧ opt_num (rc_deferred_ttl_minutes s) ∧ opt_num (rc_min_access_secs s) ∧
  opt_num (rc_min_file_size_mb s) ∧ opt in_u64 (rc_max_concurrent_copies s).
Definition raw_eviction_ok (s : RawEviction) : Prop :=
  opt_num (re_expiry_hours s) ∧ opt_num (re_poll_interval_secs s).
Definition raw_discovery_ok (s : RawDiscovery) : Prop :=
  opt in_u64 (rd_window_days s) ∧ opt in_u64 (rd_bucket_interval_secs s) ∧
  opt in_u64 (rd_pid_lru_capacity s) ∧ opt in_u64 (rd_pid_lru_ttl_secs s).
Definition raw_backing_watch_ok (s : RawBackingWatch) : Prop :=
  opt in_u64 (rb_max_dirs s) ∧ opt in_u64 (rb_debounce_ms s).

Record raw_ok (r : RawConfig) : Prop := {
  ok_cache : ∀ s, raw_cache r = Some s → raw_cache_ok s;
  ok_eviction : ∀ s, raw_eviction r = Some s → raw_eviction_ok s;
  ok_prefetch : ∀ s, raw_prefetch r = Some s → opt in_u64 (rf_max_depth s);
  ok_plex : ∀ s, raw_plex r = Some s → opt in_u64 (rp_lookahead s);
  ok_logging : ∀ s, raw_logging r = Some s → opt_num (rl_repeat_log_window_secs s);
  ok_discovery : ∀ s, raw_discovery r = Some s → raw_discovery_ok s;
  ok_backing_watch : ∀ s, raw_backing_watch r = Some s → raw_backing_watch_ok s;
  ok_sqlite : ∀ s, raw_sqlite r = Some (Some s) → in_u32 s;
}.

(** The numbers of a configuration at their width. *)
Definition cache_typed (c : CacheConfig) : Prop :=
  opt in_u64 (c_expiry_hours c) ∧ in_u64 (deferred_ttl_minutes c) ∧ in_u64 (min_access_secs c) ∧
  in_u64 (min_file_size_mb c) ∧ in_u64 (max_concurrent_copies c).
Definition eviction_typed (c : EvictionConfig) : Prop :=
  in_u64 (e_expiry_hours c) ∧ in_u64 (poll_interval_secs c).
Definition prefetch_typed (c : PrefetchConfig) : Prop := in_u64 (pf_max_depth c).
Definition plex_typed (c : PlexConfig) : Prop := in_u64 (px_lookahead c).
Definition logging_typed (c : LoggingConfig) : Prop := in_u64 (repeat_log_window_secs c).
Definition discovery_typed (c : DiscoveryConfig) : Prop :=
  in_u64 (window_days c) ∧ in_u64 (bucket_interval_secs c) ∧ in_u64 (pid_lru_capacity c) ∧
  in_u64 (pid_lru_ttl_secs c).
Definition backing_watch_typed (c : BackingWatchConfig) : Prop :=
  in_u64 (bw_max_dirs c) ∧ in_u64 (bw_debounce_ms c).

Record typed (c : Config) : Prop := {
  ty_cache : cache_typed (cache c);
  ty_eviction : eviction_typed (eviction c);
  ty_prefetch : prefetch_typed (prefetch c);
  ty_plex : plex_typed (plex c);
  ty_logging : logging_typed (logging c);
  ty_discovery : discovery_typed (discovery c);
  ty_backing_watch : backing_watch_typed (backing_watch c);
  ty_sqlite : in_u32 (cache_size_mb c);
}.

Lemma f64_as_u64_range f : in_u64 (f64_as_u64 f).
Proof. int_bounds. destruct f as [|[]|m e]; simpl f64_as_u64; lia. Qed.

Lemma de_u64_range v : numeric_ok v → in_u64 (de_u64 v).
Proof.
  destruct v as [n|f]; intros Hv; unfold de_u64; [|apply f64_as_u64_range].
  destruct (Z.leb_spec 0 n); [|apply f64_as_u64_range]. unfold numeric_ok in Hv. int_bounds. lia.
Qed.

Lemma default_num d o : in_u64 d → opt_num o → in_u64 (default d (de_u64 <$> o)).
Proof. destruct o; simpl; auto using de_u64_range. Qed.

Lemma default_opt (P : Z → Prop) d o : P d → opt P o → P (default d o).
Proof. by destruct o. Qed.

Lemma default_section {A B} (P : B → Prop) (Q : A → Prop) (f : A → B) d (o : option A) :
  P d → (∀ s, Q s → P (f s)) → (∀ s, o = Some s → Q s) → P (default d (f <$> o)).
Proof. destruct o; simpl; auto. Qed.

Lemma from_raw_typed r : raw_ok r → typed (from_raw r).
Proof.
  intros []. split; unfold from_raw; cbn [cache eviction prefetch plex logging discovery backing_watch cache_size_mb].
  - apply default_section with (3 := ok_cache0); [done|]. intros s (?&?&?&?&?).
    split_and!; simpl; try (by apply default_num); [|by apply (default_opt in_u64)].
    destruct (rc_expiry_hours s); simpl; auto using de_u64_range.
  - apply default_section with (3 := ok_eviction0); [done|]. intros s (?&?). split; by apply default_num.
  - apply default_section with (3 := ok_prefetch0); [done|]. intros s ?. by apply (default_opt in_u64).
  - apply default_section with (3 := ok_plex0); [done|]. intros s ?. by apply (default_opt in_u64).
  - apply default_section with (3 := ok_logging0); [done|]. intros s ?. by apply default_num.
  - apply default_section with (3 := ok_discovery0); [done|]. intros s (?&?&?&?). split_and!; by apply (default_opt in_u64).
  - apply default_section with (3 := ok_backing_watch0); [done|]. intros s (?&?). split; by apply (default_opt in_u64).
  - destruct (raw_sqlite r) as [[s|]|]; simpl; auto; done.
Qed.

(** The cast is the number truncated, cut off at the ends of the range. *)
Lemma gb_to_bytes_exact m e b :
  0 <= m → 0 <= b < 2 ^ 64 - 1 → - 30 - 64 <= e →
  gb_to_bytes (Finite m e) = b ↔
    b * 2 ^ 64 <= m * 2 ^ (e + 30 + 64) < (b + 1) * 2 ^ 64.
Proof.
  intros Hm Hb He. unfold gb_to_bytes. cbn [times_gib f64_as_u64].
  assert (Hq : trunc m (e + 30) = m * 2 ^ (e + 30 + 64) / 2 ^ 64).
  { unfold trunc. destruct (Z.leb_spec 0 (e + 30)).
    - replace (2 ^ (e + 30 + 64)) with (2 ^ (e + 30) * 2 ^ 64) by (by rewrite <- Z.pow_add_r by lia).
      by rewrite Z.mul_assoc, Z.div_mul by lia.
    - rewrite Z.quot_div_nonneg by (try apply Z.pow_pos_nonneg; lia).
      replace (2 ^ 64) with (2 ^ (e + 30 + 64) * 2 ^ (- (e + 30))) by (rewrite <- Z.pow_add_r by lia; f_equal; lia).
      rewrite (Z.mul_comm (2 ^ (e + 30 + 64))), Z.div_mul_cancel_r; [done| |];
        apply Z.pow_nonzero; lia. }
  assert (Hp : 0 < 2 ^ 64) by lia. pose proof (Z.div_mod (m * 2 ^ (e + 30 + 64)) (2 ^ 64) ltac:(lia)) as Hdiv.
  pose proof (Z.mod_pos_bound (m * 2 ^ (e + 30 + 64)) (2 ^ 64) Hp) as Hmod. rewrite <- Hq in Hdiv.
  assert (0 <= trunc m (e + 30)).
  { rewrite Hq. apply Z.div_pos; [|lia]. apply Z.mul_nonneg_nonneg; [lia|]. apply Z.pow_nonneg. lia. }
  clear Hq. set (q := trunc m (e + 30)) in *. set (x := m * 2 ^ (e + 30 + 64)) in *.
  rewrite (Z.max_r 0 q) by lia. split; [intros <-|intros ?]; lia.
Qed.
End ConfigFacts.

Module ConfigTheorems.
Import Config ConfigFacts.


(** The three limits, in the order of preference. *)
Definition effective {A} (legacy current : option A) (standard : A) : A :=
  default standard (match legacy with Some v => Some v | None => current end).

(** The limits in force are those of the deprecated [cache] section if it sets them, else those
    of the [eviction] section, else the standard ones, each limit on its own; what is announced
    to the clients are the limits in force, and resolving them again changes nothing. *)
Theorem limits_in_force r :
  let c := with_resolved (from_raw r) in
  let cs := raw_cache r in let es := raw_eviction r in
  e_max_size_gb (eviction c) = effective (s ← cs; rc_max_size_gb s) (s ← es; re_max_size_gb s) default_max_size_gb ∧
  e_expiry_hours (eviction c) =
    effective (s ← cs; de_opt_u64 (rc_expiry_hours s)) (s ← es; de_opt_u64 (re_expiry_hours s)) default_expiry_hours ∧
  e_min_free_space_gb (eviction c) =
    effective (s ← cs; rc_min_free_space_gb s) (s ← es; re_min_free_space_gb s) default_min_free_space_gb ∧
  poll_interval_secs (eviction c) = default default_poll_interval_secs (s ← es; de_opt_u64 (re_poll_interval_secs s)) ∧
  with_resolved c = c.
Proof.
  simpl. unfold with_resolved, from_raw, resolve, effective. simpl.
  destruct (raw_cache r) as [cs|], (raw_eviction r) as [es|]; simpl; split_and!; try done;
    repeat match goal with |- context [match ?x with Some _ => _ | None => _ end] => destruct x end; done.
Qed.

(** A present but empty [cache] section has no floor on the time a file stays open, an absent one
    a floor of two seconds. *)
Lemma empty_section_differs_from_none :
  min_access_secs CacheConfig_default = 2 ∧
  min_access_secs (cache_section (mkRawCache None None None None None None None None None)) = 0.
Proof. done. Qed.

Definition minimal (name : string) : RawConfig :=
  mkRawConfig (mkPathsConfig ["/media"%string] "/cache" name) None None None None None None None None
              None None None.

End ConfigTheorems.
