(* ===== verification/Instance.v ===== *)
(** * Names, locks and mounts of an instance

    The part of [src/utils.rs] that names the files of an instance, checks its targets, takes its
    locks and looks for the holder of a mount.  The hash of a path is the standard library's
    unspecified [DefaultHasher], a parameter; files and canonical paths are answers of the kernel. *)
From S2P Require Import Prelude Paths Scheduler Config.

Module Instance.
Import Text Config.

(** ** Names *)
Definition hex_digit (n : Z) : ascii :=
  ascii_of_nat (Z.to_nat (if n <? 10 then 48 + n else 87 + n)).

(** The last [n] digits, most significant first. *)
Fixpoint hex (n : nat) (z : Z) : string :=
  match n with
  | O => ""
  | S n' => (hex n' (z / 16) ++ String (hex_digit (z mod 16)) "")%string
  end.

Fixpoint map_chars (f : ascii → ascii) (s : string) : string :=
  match s with EmptyString => EmptyString | String c s' => String (f c) (map_chars f s') end.

Fixpoint trim_start_matches (c : ascii) (s : string) : string :=
  match s with
  | EmptyString => EmptyString
  | String d s' => if decide (c = d) then trim_start_matches c s' else s
  end.

Definition dash : ascii := "-"%char.

Definition slug (target : string) : string :=
  join "-" (filter (λ s, s ≠ ""%string)
    (split dash (map_chars (λ c, if is_ascii_alphanumeric c then c else dash)
                           (trim_start_matches slash target)))).

Section names.
Context (path_hash : string → Z).

Definition mount_cache_name (target : string) : string :=
  (slug target ++ "-" ++ hex 8 (as_u32 (path_hash target)))%string.

Definition run_dir : path := ["run"; "fscache"]%string.
Definition socket_path (instance_name : string) : path := join_str run_dir (instance_name ++ ".sock").
Definition instance_lock (instance_name : string) : path := join_str run_dir (instance_name ++ ".lock").
Definition target_lock (target : string) : path :=
  join_str run_dir ("mount-" ++ mount_cache_name target ++ ".lock").
Definition db_dir : path := ["var"; "lib"; "fscache"; "db"]%string.
Definition db_path (instance_name : string) : path := join_str db_dir (instance_name ++ ".db").

(** The cache of a target below the base directory of the configuration. *)
Definition mount_cache_dir (base_cache_dir : path) (target : string) : path :=
  join_str base_cache_dir (mount_cache_name target).

(** ** Targets *)
Section targets.
Context (path_exists : string → bool) (canonicalize : string → option path).

Definition canonical (target : string) : path :=
  default (components_of target) (canonicalize target).

Fixpoint check_targets (seen : gset path) (targets : list string) : fallible unit :=
  match targets with
  | [] => Ok tt
  | target :: targets' =>
      if negb (path_exists target) then Err target
      else if decide (canonical target ∈ seen) then Err target
      else check_targets ({[canonical target]} ∪ seen) targets'
  end.

Definition validate_targets (targets : list string) : fallible unit :=
  match targets with [] => Err ""%string | _ => check_targets ∅ targets end.
End targets.

(** ** Locks

    A lock belongs to the open file description that took it, here to a process; the kernel
    drops it with the process.  [ready] says that the directory and the file could be opened. *)
Definition flock_exclusive (ready : bool) (lock_path : path) (pid : nat) (locks : gmap path nat) :
    fallible (gmap path nat) :=
  if negb ready then Err "failed to open lock file"%string
  else match locks !! lock_path with
       | Some _ => Err "already locked"%string
       | None => Ok (<[lock_path := pid]> locks)
       end.

Definition acquire_instance_lock (ready : bool) (instance_name : string) (pid : nat)
    (locks : gmap path nat) : fallible (gmap path nat) :=
  flock_exclusive ready (instance_lock instance_name) pid locks.

Definition acquire_target_lock (ready : bool) (target : string) (pid : nat)
    (locks : gmap path nat) : fallible (gmap path nat) :=
  flock_exclusive ready (target_lock target) pid locks.
End names.

(** ** The mount table *)
Fixpoint holder_in (lines : list string) (target : string) : option string :=
  match lines with
  | [] => None
  | line :: lines' =>
      match split_whitespace line with
      | source :: mount_point :: _ =>
          match (if decide (mount_point = target) then strip_prefix_str "fscache-" source else None) with
          | Some name => Some name
          | None => holder_in lines' target
          end
      | _ => None
      end
  end.

Definition parse_fscache_mount_holder (mounts target : string) : option string :=
  holder_in (lines mounts) target.

Definition find_fscache_mount_holder (mounts : option string) (target : string) : option string :=
  mounts ← mounts; parse_fscache_mount_holder mounts target.

(** ** Clock text *)
Definition show_digits (n : Z) : string := Scheduler.show2 n.

(** [localtime] gives hour, minute and second. *)
Definition fmt_time (localtime : Z → Z * Z * Z) (secs : Z) : string :=
  let '(h, m, s) := localtime (Z.max 0 secs) in
  (show_digits h ++ ":" ++ show_digits m ++ ":" ++ show_digits s)%string.
End Instance.

(** ** Lemmas *)
Module InstanceFacts.
Import Text Config Instance.

Lemma string_app_cons c a b : (String c a ++ b)%string = String c (a ++ b).
Proof. done. Qed.

(** Suffixes of one length. *)
Lemma string_app_inj a b s t :
  (a ++ s)%string = (b ++ t)%string → String.length s = String.length t → a = b ∧ s = t.
Proof.
  revert b. induction a as [|c a IH]; intros [|d b] Heq Hlen.
  - done.
  - apply (f_equal String.length) in Heq. rewrite !string_length_app in Heq. simpl in *. lia.
  - apply (f_equal String.length) in Heq. rewrite !string_length_app in Heq. simpl in *. lia.
  - rewrite !string_app_cons in Heq. injection Heq as -> Heq.
    by destruct (IH b Heq Hlen) as [-> ->].
Qed.

(** *** Hexadecimal *)
Lemma hex_digit_inj a b : 0 <= a < 16 → 0 <= b < 16 → hex_digit a = hex_digit b → a = b.
Proof.
  intros Ha Hb Heq. apply (f_equal nat_of_ascii) in Heq. unfold hex_digit in Heq.
  assert (Hlt : ∀ z : Z, 0 <= z < 16 → (Z.to_nat (if z <? 10 then 48 + z else 87 + z)%Z < 256)%nat).
  { intros z Hz. destruct (z <? 10); lia. }
  rewrite !nat_ascii_embedding in Heq by auto.
  destruct (Z.ltb_spec a 10), (Z.ltb_spec b 10); lia.
Qed.

Lemma length_hex n z : String.length (hex n z) = n.
Proof. revert z. induction n as [|n IH]; intros z; [done|]. cbn [hex]. rewrite string_length_app, IH. simpl. lia. Qed.

Lemma hex_inj n a b : 0 <= a < 16 ^ Z.of_nat n → 0 <= b < 16 ^ Z.of_nat n → hex n a = hex n b → a = b.
Proof.
  revert a b. induction n as [|n IH]; intros a b Ha Hb Heq; [simpl in *; lia|].
  rewrite Nat2Z.inj_succ, Z.pow_succ_r in Ha, Hb by lia. cbn [hex] in Heq.
  apply string_app_inj in Heq as [Heq Hd]; [|done]. injection Hd as Hd.
  apply hex_digit_inj in Hd; [|apply Z.mod_pos_bound; lia..].
  apply IH in Heq; [|split; [apply Z.div_pos|apply Z.div_lt_upper_bound]; lia..].
  rewrite (Z.div_mod a 16), (Z.div_mod b 16) by lia. lia.
Qed.

(** *** Characters of names *)
Definition slug_char (c : ascii) : bool := is_ascii_alphanumeric c || bool_decide (c = dash).

Lemma hex_digit_char z : 0 <= z < 16 → slug_char (hex_digit z) = true.
Proof.
  intros Hz. assert (Hb : forallb (λ n, slug_char (hex_digit (Z.of_nat n))) (seq 0 16) = true) by reflexivity.
  rewrite forallb_forall in Hb. specialize (Hb (Z.to_nat z)). rewrite Z2Nat.id in Hb by lia.
  apply Hb, in_seq. lia.
Qed.

Lemma hex_chars n z : all_chars slug_char (hex n z) = true.
Proof.
  revert z. induction n as [|n IH]; intros z; [done|]. cbn [hex].
  rewrite all_chars_app, IH. cbn [all_chars]. rewrite hex_digit_char; [done|].
  apply Z.mod_pos_bound. lia.
Qed.

Lemma split_chars f c s : all_chars f s = true → Forall (λ p, all_chars f p = true) (split c s).
Proof.
  induction s as [|d s IH]; simpl; [by repeat constructor|]. intros [Hd Hs]%andb_true_iff.
  specialize (IH Hs). case_decide; [by constructor|].
  destruct (split c s) as [|p ps]; [by repeat constructor; simpl; rewrite Hd|].
  inversion IH; subst. constructor; [|done]. simpl. by apply andb_true_iff.
Qed.

Lemma join_chars f sep l :
  all_chars f sep = true → Forall (λ p, all_chars f p = true) l → all_chars f (join sep l) = true.
Proof.
  intros Hsep. induction 1 as [|p l Hp Hl IH]; [done|]. destruct l as [|q l]; [done|].
  change (join sep (p :: q :: l)) with (p ++ sep ++ join sep (q :: l))%string.
  by rewrite !all_chars_app, Hp, Hsep, IH.
Qed.

Lemma map_chars_all f g s : (∀ c, f (g c) = true) → all_chars f (map_chars g s) = true.
Proof. intros Hg. induction s; simpl; [done|]. by rewrite Hg, IHs. Qed.

Lemma slug_chars t : all_chars slug_char (slug t) = true.
Proof.
  unfold slug. apply join_chars; [done|]. apply Forall_forall. intros p [_ Hp]%list_elem_of_filter.
  revert p Hp. apply Forall_forall, split_chars, map_chars_all. intros c.
  destruct (is_ascii_alphanumeric c) eqn:E; unfold slug_char; [by rewrite E|done].
Qed.

(** A text of such characters is a component, with any extension. *)
Lemma slug_char_name c : slug_char c = true → name_char c = true.
Proof. unfold slug_char, name_char, dash. rewrite !orb_true_iff. tauto. Qed.

Lemma name_char_not c : name_char c = true → c ≠ slash ∧ c ≠ "."%char.
Proof. intros Hc. split; intros ->; by vm_compute in Hc. Qed.

Lemma name_plain s suffix :
  all_chars name_char s = true → s ≠ ""%string → suffix ∈ [""; ".sock"; ".lock"; ".db"]%string →
  plain (s ++ suffix).
Proof.
  intros Hs Hne Hsuf. split.
  - rewrite all_chars_app. apply andb_true_iff. split.
    + eapply all_chars_impl; [|done]. intros c [Hc _]%name_char_not.
      by rewrite negb_true_iff, bool_decide_eq_false.
    + repeat (apply elem_of_cons in Hsuf as [->|Hsuf]; [done|]). by apply elem_of_nil in Hsuf.
  - destruct s as [|c s]; [done|]. simpl in Hs. apply andb_true_iff in Hs as [[_ Hc]%name_char_not _].
    rewrite string_app_cons. repeat split; congruence.
Qed.

Lemma cache_name_chars h t : all_chars name_char (mount_cache_name h t) = true.
Proof.
  unfold mount_cache_name. rewrite !all_chars_app.
  rewrite (all_chars_impl _ _ _ slug_char_name (slug_chars t)).
  by rewrite (all_chars_impl _ _ _ slug_char_name (hex_chars _ _)).
Qed.

Lemma cache_name_nonempty h t : mount_cache_name h t ≠ ""%string.
Proof.
  unfold mount_cache_name. intros Heq. apply (f_equal String.length) in Heq.
  rewrite !string_length_app, length_hex in Heq. simpl in Heq. lia.
Qed.

Lemma cache_name_hash h t t' :
  mount_cache_name h t = mount_cache_name h t' → as_u32 (h t) = as_u32 (h t').
Proof.
  unfold mount_cache_name. rewrite <- !string_app_assoc. intros Heq.
  apply string_app_inj in Heq as [_ Heq]; [|by rewrite !length_hex].
  apply hex_inj in Heq; [done|..]; change (16 ^ Z.of_nat 8) with (2 ^ 32); apply Z.mod_pos_bound; lia.
Qed.

Lemma valid_name n : validate_instance_name n = Ok tt → all_chars name_char n = true ∧ n ≠ ""%string.
Proof.
  unfold validate_instance_name. case_decide as Ht; [done|].
  destruct (all_chars name_char n); [|done]. intros _. split; [done|]. by intros ->.
Qed.

(** *** The mount table as the kernel prints it

    A line has the source, the mount point and further fields; white space in them is escaped. *)
Record MountLine := mkMountLine { ml_source : string; ml_point : string; ml_rest : string }.

Definition printable (c : ascii) : bool := negb (bool_decide ("010"%char = c)) && negb (bool_decide ("013"%char = c)).
Definition no_space (s : string) : Prop := all_chars (λ c, negb (is_space c)) s = true ∧ s ≠ ""%string.

Definition line_ok (e : MountLine) : Prop :=
  no_space (ml_source e) ∧ no_space (ml_point e) ∧ all_chars printable (ml_rest e) = true.

Definition print_line (e : MountLine) : string :=
  (ml_source e ++ String " " (ml_point e ++ String " " (ml_rest e)))%string.

Definition print_table (es : list MountLine) : string :=
  foldr (λ e text, (print_line e ++ String "010" text)%string) ""%string es.

Definition holder_of (target : string) (e : MountLine) : option string :=
  if decide (ml_point e = target) then strip_prefix_str "fscache-" (ml_source e) else None.

Lemma strip_cr_id s : all_chars printable s = true → strip_cr s = s.
Proof.
  induction s as [|c s IH]; [done|]. cbn [all_chars strip_cr]. intros [Hc Hs]%andb_true_iff.
  rewrite IH by done. destruct s; [|done]. case_decide; [subst|done]. by vm_compute in Hc.
Qed.

Lemma nonspace_printable c : negb (is_space c) = true → printable c = true.
Proof.
  intros Hc. unfold printable. apply andb_true_iff. split; apply negb_true_iff, bool_decide_eq_false;
    intros <-; by vm_compute in Hc.
Qed.

Lemma print_line_printable e : line_ok e → all_chars printable (print_line e) = true.
Proof.
  intros ([Hs _] & [Hp _] & Hr). unfold print_line.
  rewrite all_chars_app. cbn [all_chars]. rewrite all_chars_app. cbn [all_chars].
  by rewrite (all_chars_impl _ _ _ nonspace_printable Hs), (all_chars_impl _ _ _ nonspace_printable Hp), Hr.
Qed.

Lemma lines_print es : Forall line_ok es → lines (print_table es) = print_line <$> es.
Proof.
  intros Hes. assert (Hsplit : split "010"%char (print_table es) = (print_line <$> es) ++ [""%string]).
  { induction Hes as [|e es He Hes IH]; [done|]. cbn [print_table foldr]. rewrite split_app.
    - fold (print_table es). by rewrite IH.
    - eapply all_chars_impl; [|by apply print_line_printable]. intros c [Hc _]%andb_true_iff. done. }
  unfold lines. rewrite Hsplit, last_snoc, decide_True, app_nil_r by done.
  rewrite removelast_last. clear Hsplit. induction Hes as [|e es He Hes IH]; [done|]. simpl.
  f_equal; [|done]. by apply strip_cr_id, print_line_printable.
Qed.

Lemma split_spaces_app a b :
  all_chars (λ c, negb (is_space c)) a = true →
  split_spaces (a ++ String " " b) = a :: split_spaces b.
Proof.
  induction a as [|c a IH]; [done|]. cbn [all_chars]. intros [Hc Ha]%andb_true_iff.
  rewrite string_app_cons. cbn [split_spaces]. rewrite negb_true_iff in Hc. rewrite Hc.
  by rewrite IH.
Qed.

Lemma split_whitespace_line e :
  line_ok e → split_whitespace (print_line e) = ml_source e :: ml_point e :: split_whitespace (ml_rest e).
Proof.
  intros ([Hs Hs'] & [Hp Hp'] & _). unfold split_whitespace, print_line.
  rewrite (split_spaces_app _ _ Hs), (split_spaces_app _ _ Hp). by rewrite !filter_cons_True.
Qed.

Lemma holder_of_table es target :
  Forall line_ok es → parse_fscache_mount_holder (print_table es) target = head (omap (holder_of target) es).
Proof.
  intros Hes. unfold parse_fscache_mount_holder. rewrite lines_print by done.
  induction Hes as [|e es He Hes IH]; [done|]. cbn [fmap list_fmap holder_in].
  rewrite split_whitespace_line, IH by done. fold (holder_of target e).
  change (omap (holder_of target) (e :: es)) with
    (match holder_of target e with Some b => b :: omap (holder_of target) es | None => omap (holder_of target) es end).
  by destruct (holder_of target e).
Qed.

Lemma split_spaces_free s : Forall (λ w, all_chars (λ c, negb (is_space c)) w = true) (split_spaces s).
Proof.
  induction s as [|c s IH]; [by repeat constructor|]. cbn [split_spaces].
  destruct (is_space c) eqn:E; [by constructor|].
  destruct (split_spaces s) as [|w ws]; [by repeat constructor; simpl; rewrite E|].
  inversion IH; subst. constructor; [|done]. cbn [all_chars]. by rewrite E.
Qed.

(** A field is never a text with white space in it. *)
Lemma spaced_target_unseen mounts target :
  all_chars (λ c, negb (is_space c)) target = false → parse_fscache_mount_holder mounts target = None.
Proof.
  intros Ht. unfold parse_fscache_mount_holder. induction (lines mounts) as [|l ls IH]; [done|].
  cbn [holder_in]. destruct (split_whitespace l) as [|source [|point ws]] eqn:E; [done..|].
  assert (Hp : point ∈ split_spaces l).
  { assert (Hin : point ∈ split_whitespace l) by (rewrite E; by right; left).
    by apply list_elem_of_filter in Hin as [_ ?]. }
  rewrite decide_False; [done|]. intros ->. pose proof (split_spaces_free l) as Hf.
  rewrite Forall_forall in Hf. apply Hf in Hp. congruence.
Qed.

Lemma strip_fscache n : strip_prefix_str "fscache-" ("fscache-" ++ n) = Some n.
Proof.
  assert (Hsub : String.substring 0 (String.length n) n = n).
  { induction n as [|c n IH]; [done|]. simpl. by rewrite IH. }
  rewrite <- Hsub at 2. unfold strip_prefix_str. simpl. rewrite Nat.sub_0_r. by destruct n.
Qed.
End InstanceFacts.

(** ** Theorems *)
Module InstanceTheorems.
Import Text Config Instance InstanceFacts.

(** The files of an instance are its own: for accepted names, the socket, the lock and the
    database are single files directly in their directories, and two instances share none of
    them; the lock of a target and its cache directory are single names too, and the caches of two
    targets whose hashes differ are neither equal nor one below the other. *)
Theorem instance_files_are_apart path_hash n m base s t :
  validate_instance_name n = Ok tt → validate_instance_name m = Ok tt →
  socket_path n = run_dir ++ [n ++ ".sock"]%string ∧
  instance_lock n = run_dir ++ [n ++ ".lock"]%string ∧
  db_path n = db_dir ++ [n ++ ".db"]%string ∧
  (socket_path n = socket_path m ∨ instance_lock n = instance_lock m ∨ db_path n = db_path m → n = m) ∧
  target_lock path_hash t = run_dir ++ ["mount-" ++ mount_cache_name path_hash t ++ ".lock"]%string ∧
  mount_cache_dir path_hash base t = base ++ [mount_cache_name path_hash t] ∧
  (as_u32 (path_hash s) ≠ as_u32 (path_hash t) →
   starts_with (mount_cache_dir path_hash base t) (mount_cache_dir path_hash base s) = false ∧
   target_lock path_hash t ≠ target_lock path_hash s).
Proof.
  intros [Hn Hn']%valid_name [Hm Hm']%valid_name.
  assert (Hp : ∀ k, all_chars name_char k = true → k ≠ ""%string → ∀ x,
    x ∈ [""; ".sock"; ".lock"; ".db"]%string → ∀ d, join_str d (k ++ x) = d ++ [(k ++ x)%string]).
  { intros. by apply join_str_plain, name_plain. }
  assert (Hdir : ∀ u, mount_cache_dir path_hash base u = base ++ [mount_cache_name path_hash u]).
  { intros u. unfold mount_cache_dir. apply join_str_plain. rewrite <- (string_app_nil (mount_cache_name _ _)).
    apply name_plain; [apply cache_name_chars|apply cache_name_nonempty|set_solver]. }
  assert (Hlock : ∀ u, target_lock path_hash u =
    run_dir ++ ["mount-" ++ mount_cache_name path_hash u ++ ".lock"]%string).
  { intros u. unfold target_lock. rewrite <- string_app_assoc.
    apply Hp; [by rewrite all_chars_app, cache_name_chars|done|set_solver]. }
  assert (Hinj : ∀ a b x : string, (a ++ x)%string = (b ++ x)%string → a = b).
  { intros a b x Heq. by apply string_app_inj in Heq as [? _]. }
  unfold socket_path, instance_lock, db_path. rewrite !Hp by (done || set_solver). rewrite !Hdir, !Hlock.
  split_and!; try done.
  - intros [Heq|[Heq|Heq]]; simplify_eq/=; eauto.
  - intros Hne. split.
    + apply not_true_iff_false. intros [r Hr]%starts_with_true. rewrite <- app_assoc in Hr. simplify_list_eq.
      apply Hne. symmetry. eapply cache_name_hash. eauto.
    + intros Heq. simplify_eq/=. apply Hne. symmetry. eapply cache_name_hash, Hinj. eauto.
Qed.

(** The targets of the configuration are accepted exactly when there is one, all exist and no
    two are the same directory; otherwise the one that is named in the error is missing or is the
    same directory as one before it, and all before it are fine. *)
Theorem targets_are_checked exists_ canonicalize targets :
  let canonical := canonical canonicalize in
  match validate_targets exists_ canonicalize targets with
  | Ok _ => targets ≠ [] ∧ Forall (λ t, exists_ t = true) targets ∧ NoDup (canonical <$> targets)
  | Err bad =>
      targets = [] ∨ ∃ before after, targets = before ++ bad :: after ∧
        Forall (λ t, exists_ t = true) before ∧ NoDup (canonical <$> before) ∧
        (exists_ bad = false ∨ canonical bad ∈ canonical <$> before)
  end.
Proof.
  simpl. unfold validate_targets. destruct targets as [|t0 ts]; [by left|].
  set (targets := t0 :: ts). assert (Hne : targets ≠ []) by done. clearbody targets. clear t0 ts.
  enough (Hgen : ∀ done_ rest, Forall (λ t, exists_ t = true) done_ →
    NoDup (canonical canonicalize <$> done_) →
    match check_targets exists_ canonicalize (list_to_set (canonical canonicalize <$> done_)) rest with
    | Ok _ => Forall (λ t, exists_ t = true) (done_ ++ rest) ∧ NoDup (canonical canonicalize <$> done_ ++ rest)
    | Err bad => ∃ before after, done_ ++ rest = before ++ bad :: after ∧
        Forall (λ t, exists_ t = true) before ∧ NoDup (canonical canonicalize <$> before) ∧
        (exists_ bad = false ∨ canonical canonicalize bad ∈ canonical canonicalize <$> before)
    end).
  { specialize (Hgen [] targets (Forall_nil_2 _) (NoDup_nil_2)). simpl in Hgen.
    destruct (check_targets _ _ _ _); [by destruct Hgen|by right]. }
  intros done_ rest. revert done_. induction rest as [|t rest IH]; intros done_ He Hnd; cbn [check_targets].
  { by rewrite app_nil_r. }
  destruct (exists_ t) eqn:Et; simpl; [|by exists done_, rest; auto].
  case_decide as Hin; [rewrite elem_of_list_to_set in Hin; by exists done_, rest; auto|].
  rewrite elem_of_list_to_set in Hin. specialize (IH (done_ ++ [t])).
  rewrite fmap_app, list_to_set_app_L in IH. simpl in IH. rewrite (right_id_L ∅ (∪)), (comm_L (∪)) in IH.
  rewrite <- app_assoc in IH. apply IH.
  - by apply Forall_app_2; [|repeat constructor].
  - apply NoDup_app. split_and!; [done| |apply NoDup_singleton]. intros x Hx ->%list_elem_of_singleton. done.
Qed.

(** The holder of a target is found in the mount table: of a printed table, whatever else it
    lists, the answer is the instance of the first line whose mount point is the target and whose
    source is that of an instance; a target with white space in its path is never found. *)
Theorem mount_holder_is_first es target n :
  Forall line_ok es →
  (parse_fscache_mount_holder (print_table es) target = Some n ↔
   ∃ before e after, es = before ++ e :: after ∧ ml_point e = target ∧
     strip_prefix_str "fscache-" (ml_source e) = Some n ∧
     Forall (λ e', ml_point e' = target → strip_prefix_str "fscache-" (ml_source e') = None) before) ∧
  (all_chars (λ c, negb (is_space c)) target = false → ∀ text, parse_fscache_mount_holder text target = None).
Proof.
  intros Hes. split; [|intros; by apply spaced_target_unseen]. rewrite holder_of_table by done. clear Hes.
  induction es as [|e es IH].
  { split; [done|]. intros ([|??] & ? & ? & ? & _); simplify_eq/=. }
  change (omap (holder_of target) (e :: es)) with
    (match holder_of target e with Some b => b :: omap (holder_of target) es | None => omap (holder_of target) es end).
  destruct (holder_of target e) as [k|] eqn:E; unfold holder_of in E; case_decide as Hp; simplify_eq/=.
  - split; [intros [= ->]; by exists [], e, es|]. intros ([|e' before] & e0 & after & Heq & Hpt & Hn & Hb); simplify_eq/=.
    + congruence.
    + inversion Hb; subst. naive_solver.
  - rewrite IH. split; intros (before & e0 & after & Heq & Hpt & Hn & Hb).
    + exists (e :: before), e0, after. subst es. by repeat constructor.
    + destruct before as [|e' before]; simplify_eq/=. inversion Hb; subst. by exists before, e0, after.
  - rewrite IH. split; intros (before & e0 & after & Heq & Hpt & Hn & Hb).
    + exists (e :: before), e0, after. subst es. by repeat constructor.
    + destruct before as [|e' before]; simplify_eq/=. inversion Hb; subst. by exists before, e0, after.
Qed.

Lemma instance_files_witness :
  starts_with (mount_cache_dir (λ t, Z.of_nat (String.length t)) ["cache"%string] "/mnt/a")
              (mount_cache_dir (λ t, Z.of_nat (String.length t)) ["cache"%string] "/mnt/bb") = false.
Proof.
  eapply (instance_files_are_apart (λ t, Z.of_nat (String.length t)) "plex" "plex" ["cache"%string] "/mnt/bb" "/mnt/a");
    [reflexivity|reflexivity|by vm_compute].
Defined.

Definition two_lines : list MountLine :=
  [mkMountLine "sysfs" "/sys" "sysfs rw 0 0"; mkMountLine "fscache-plex" "/mnt/media" "fuse ro 0 0"]%string.

Lemma mount_holder_witness :
  parse_fscache_mount_holder (print_table two_lines) "/mnt/media" = Some "plex"%string.
Proof.
  apply (mount_holder_is_first two_lines "/mnt/media" "plex").
  - repeat constructor; by vm_compute.
  - exists [mkMountLine "sysfs" "/sys" "sysfs rw 0 0"]%string, (mkMountLine "fscache-plex" "/mnt/media" "fuse ro 0 0")%string, [].
    split_and!; [done..|]. by repeat constructor.
Defined.

(** The names of the documentation. *)
Example cache_name_example :
  mount_cache_name (λ _, 1059789901) "/mnt/a/media" = "mnt-a-media-3f2b1c4d"%string.
Proof. by vm_compute. Qed.
End InstanceTheorems.
