(* ===== verification/Daemon.v ===== *)
(** * Starting and stopping daemons

    [run_daemon] of [src/main.rs]: what a mount is wired from, and the start, run and end of
    several daemons on one machine as a transition system over the lock files and the mount
    table.  Each step is one thing a daemon does to what the others see; a daemon can die at any
    point.  The kernel's escaping of the mount table is the parameter [mangle]. *)
From S2P Require Import Prelude Paths Scheduler Backing Disk Db Manager CacheIo Preset Prediction.
From S2P Require Import Prefetch Engine Fuse Config Instance.

(** ** One mount: the fields of its file system, its cache, the store it starts from and what its
    tasks are started with.  Instants are nanoseconds. *)
Record MountParts := mkMountParts {
  mp_fs : FsConfig; mp_cache : CacheManager; mp_store : Store; mp_scheduler : Scheduler;
  mp_engine : ActionEngine; mp_max_copies : Z; mp_deferred_ttl : Z; mp_eviction_interval : Z;
  mp_maintenance : bool;
}.

Module Daemon.
Import Config Instance.

Section wire.
Context `{MapOrder, RegexEngine} (path_hash : string → Z) (statvfs : Disk → path → option Statvfs).

(** An unknown name falls back to the Plex preset. *)
Definition make_preset (c : Config) : fallible CachePreset :=
  if decide (preset_name c = "prefetch"%string) then
    mode ← Prefetch.parse_mode (pf_mode (prefetch c));
    p ← Prefetch.new_with_process_policy mode (Z.to_nat (pf_max_depth (prefetch c)))
          (pf_process_allowlist (prefetch c)) (pf_process_blocklist (prefetch c))
          (pf_file_whitelist (prefetch c)) (pf_file_blacklist (prefetch c));
    Ok (Prefetch.preset p)
  else
    Ok (PlexEpisodePrediction.preset
          (PlexEpisodePrediction.new_with_process_policy (Z.to_nat (px_lookahead (plex c)))
             (px_process_allowlist (plex c)) (px_process_blocklist (plex c))
             (bool_decide (px_mode (plex c) = "rolling-buffer"%string)))).

(** What one turn of the mount loop builds for [target], whose backing directory is open as [fd].
    The configuration is the one with the limits in force. *)
Definition wire (now : Z) (c : Config) (target : string) (fd : Z) (s : Store) : fallible MountParts :=
  let base := components_of (cache_directory (paths c)) in
  let dir := mount_cache_dir path_hash base target in
  let '(d, made) := Disk.create_dir_all s.1 dir in
  _ ← (if is_ok made then Ok tt else Err target);
  preset ← make_preset c;
  let cm := Manager.new statvfs d dir base (gb_to_bytes (e_max_size_gb (eviction c)))
              (e_expiry_hours (eviction c)) (gb_to_bytes (e_min_free_space_gb (eviction c)))
              (ic_check_on_hit (invalidation c)) in
  let s' := Manager.startup_cleanup now cm (d, s.2) in
  scheduler ← Scheduler.new (cache_window_start (schedule c)) (cache_window_end (schedule c));
  Ok (mkMountParts
        (mkFsConfig fd (Config.passthrough_mode (cache c)) (Some cm) true
           (repeat_log_window_secs (logging c) * 1000000000) (Some preset) (bw_enabled (backing_watch c)))
        cm s' scheduler
        (mkActionEngine cm (Some preset) (max_cache_pull_bytes c) (min_access_secs (cache c))
           (min_file_size_mb (cache c)))
        (max_concurrent_copies (cache c)) (deferred_ttl_minutes (cache c))
        (poll_interval_secs (eviction c))
        ((0 <? poll_interval_secs (eviction c)) && check_on_maintenance (invalidation c))).
End wire.

(** ** Daemons on one machine *)
Inductive Stage := Boot | Cleaning | Locking | Mounting | Serving.

(** A process: its instance, where it is, the targets still to mount and those mounted. *)
Record Proc := mkProc {
  p_name : string; p_stage : Stage; p_todo : list string; p_mounted : list string;
}.

(** A line of the mount table; [m_owner] is the living process that serves it. *)
Record Mount := mkMount { m_source : string; m_point : string; m_owner : option nat }.

Record World := mkWorld { procs : gmap nat Proc; locks : gmap path nat; table : list Mount }.

Section machine.
Context (path_hash : string → Z) (mangle : string → string).
Context (path_exists : string → bool) (canonicalize : string → option path).

Definition line_of (m : Mount) : InstanceFacts.MountLine :=
  InstanceFacts.mkMountLine (m_source m) (mangle (m_point m)) "rw 0 0".

(** What [/proc/mounts] reads. *)
Definition proc_mounts (l : list Mount) : string := InstanceFacts.print_table (line_of <$> l).

(** [fusermount -uz]: the last mount made at the point goes. *)
Fixpoint umount (target : string) (l : list Mount) : list Mount :=
  match l with
  | [] => []
  | m :: l' =>
      if existsb (λ m', bool_decide (m_point m' = target)) l' then m :: umount target l'
      else if decide (m_point m = target) then l' else m :: l'
  end.

(** The clean-up before a mount; [done] tells whether [fusermount] could. *)
Definition clean_stale (instance_name target : string) (done : bool) (l : list Mount) : list Mount :=
  match find_fscache_mount_holder (Some (proc_mounts l)) target with
  | Some holder => if decide (holder = instance_name) then if done then umount target l else l else l
  | None => l
  end.

Definition stage_of (todo : list string) : Stage := match todo with [] => Serving | _ => Cleaning end.

Definition set_proc (pid : nat) (p : Proc) (w : World) : World :=
  mkWorld (<[pid := p]> (procs w)) (locks w) (table w).

(** The end of a process: the kernel drops its locks; each of its mounts is gone or left stale. *)
Definition abandon (pid : nat) (keep : Mount → bool) (l : list Mount) : list Mount :=
  omap (λ m, if decide (m_owner m = Some pid)
             then if keep m then Some (mkMount (m_source m) (m_point m) None) else None
             else Some m) l.

Definition release (pid : nat) (l : gmap path nat) : gmap path nat := filter (λ kv, kv.2 ≠ pid) l.

Definition reap (pid : nat) (keep : Mount → bool) (w : World) : World :=
  mkWorld (delete pid (procs w)) (release pid (locks w)) (abandon pid keep (table w)).

Inductive dstep : World → World → Prop :=
  | d_spawn w pid name targets :
      procs w !! pid = None → validate_instance_name name = Ok tt →
      dstep w (set_proc pid (mkProc name Boot targets []) w)
  | d_boot w pid name targets ready locks' :
      procs w !! pid = Some (mkProc name Boot targets []) →
      acquire_instance_lock ready name pid (locks w) = Ok locks' →
      validate_targets path_exists canonicalize targets = Ok tt →
      dstep w (mkWorld (<[pid := mkProc name (stage_of targets) targets []]> (procs w)) locks' (table w))
  | d_clean w pid name t todo mounted done :
      procs w !! pid = Some (mkProc name Cleaning (t :: todo) mounted) →
      dstep w (mkWorld (<[pid := mkProc name Locking (t :: todo) mounted]> (procs w)) (locks w)
                       (clean_stale name t done (table w)))
  | d_lock w pid name t todo mounted ready locks' :
      procs w !! pid = Some (mkProc name Locking (t :: todo) mounted) →
      acquire_target_lock path_hash ready t pid (locks w) = Ok locks' →
      dstep w (mkWorld (<[pid := mkProc name Mounting (t :: todo) mounted]> (procs w)) locks' (table w))
  | d_mount w pid name t todo mounted :
      procs w !! pid = Some (mkProc name Mounting (t :: todo) mounted) →
      dstep w (mkWorld (<[pid := mkProc name (stage_of todo) todo (t :: mounted)]> (procs w)) (locks w)
                       (table w ++ [mkMount ("fscache-" ++ name) t (Some pid)]))
  | d_stop w pid name mounted keep :
      procs w !! pid = Some (mkProc name Serving [] mounted) →
      dstep w (reap pid keep (mkWorld (procs w) (locks w) (foldr umount (table w) mounted)))
  | d_die w pid p keep :
      procs w !! pid = Some p → dstep w (reap pid keep w)
  | d_foreign_mount w source point :
      InstanceFacts.no_space source → point ≠ ""%string → strip_prefix_str "fscache-" source = None →
      dstep w (mkWorld (procs w) (locks w) (table w ++ [mkMount source point None]))
  | d_foreign_umount w l1 m l2 :
      table w = l1 ++ m :: l2 →
      dstep w (mkWorld (procs w) (locks w) (l1 ++ l2)).

Definition booted (w : World) : Prop := w = mkWorld ∅ ∅ [].

Definition reachable (w : World) : Prop := ∃ w0, booted w0 ∧ rtc dstep w0 w.

(** The points served by living processes. *)
Definition live_points (l : list Mount) : list string :=
  omap (λ m, match m_owner m with Some _ => Some (m_point m) | None => None end) l.

Record world_ok (w : World) : Prop := {
  ok_name : ∀ pid p, procs w !! pid = Some p → validate_instance_name (p_name p) = Ok tt;
  ok_instance : ∀ pid p, procs w !! pid = Some p → p_stage p ≠ Boot →
    locks w !! instance_lock (p_name p) = Some pid;
  ok_targets : ∀ pid p, procs w !! pid = Some p → p_stage p ≠ Boot →
    NoDup (p_mounted p ++ p_todo p) ∧ Forall (λ t, t ≠ ""%string) (p_todo p);
  ok_mounting : ∀ pid p t todo, procs w !! pid = Some p → p_stage p = Mounting → p_todo p = t :: todo →
    locks w !! target_lock path_hash t = Some pid;
  ok_live : ∀ m pid, m ∈ table w → m_owner m = Some pid →
    ∃ p, procs w !! pid = Some p ∧ p_stage p ≠ Boot ∧ m_source m = ("fscache-" ++ p_name p)%string ∧
         m_point m ∈ p_mounted p ∧ locks w !! target_lock path_hash (m_point m) = Some pid;
  ok_unique : NoDup (live_points (table w));
  ok_lines : Forall (λ m, InstanceFacts.no_space (m_source m) ∧ m_point m ≠ ""%string) (table w);
}.
End machine.
End Daemon.

(** ** Lemmas *)
Module DaemonFacts.
Import Config Instance InstanceFacts Daemon.
Section facts.
Context (path_hash : string → Z) (mangle : string → string).
Context (path_exists : string → bool) (canonicalize : string → option path).
Context (Hempty : path_exists "" = false).
Implicit Types (w : World) (l : list Mount) (m : Mount) (p : Proc).

Abbreviation step := (dstep path_hash mangle path_exists canonicalize).
Abbreviation ok := (world_ok path_hash).

Definition fine m : Prop := no_space (m_source m) ∧ m_point m ≠ ""%string.

(** A table that lost mounts or their servers. *)
Record shrinks l l' : Prop := {
  shrinks_live : sublist (live_points l') (live_points l);
  shrinks_in : ∀ m pid, m ∈ l' → m_owner m = Some pid → m ∈ l;
  shrinks_fine : Forall fine l → Forall fine l';
}.

Lemma omap_sublist {A B} (f : A → option B) (l k : list A) : sublist l k → sublist (omap f l) (omap f k).
Proof.
  induction 1 as [|x l k Hs IH|x l k Hs IH]; simpl; [done| |];
    destruct (f x); try done; by constructor.
Qed.

Lemma shrinks_sublist l l' : sublist l' l → shrinks l l'.
Proof.
  intros Hs. split; [by apply omap_sublist| |].
  - intros m pid Hm _. by eapply elem_of_sublist.
  - rewrite !Forall_forall. intros Hf m Hm. eapply Hf, elem_of_sublist; eauto.
Qed.

Lemma shrinks_trans l1 l2 l3 : shrinks l1 l2 → shrinks l2 l3 → shrinks l1 l3.
Proof. intros [A1 A2 A3] [B1 B2 B3]. split; eauto. by etrans. Qed.

Lemma umount_sublist t l : sublist (umount t l) l.
Proof.
  induction l as [|m l IH]; simpl; [done|]. destruct (existsb _ _); [by constructor|].
  case_decide; [by constructor|done].
Qed.

Lemma abandon_shrinks pid keep l : shrinks l (abandon pid keep l).
Proof.
  unfold abandon. split.
  - induction l as [|m l IH]; simpl; [done|]. destruct (decide (m_owner m = Some pid)) as [Hm|Hm].
    + rewrite Hm. destruct (keep m); simpl; by constructor.
    + simpl. destruct (m_owner m); [by constructor|done].
  - intros m q Hm Hq. apply list_elem_of_omap in Hm as (m0 & Hin & Hm).
    case_decide; [|by simplify_eq]. by destruct (keep m0); simplify_eq.
  - rewrite !Forall_forall. intros Hf m Hm. apply list_elem_of_omap in Hm as (m0 & Hin & Hm).
    case_decide; [|simplify_eq; eauto]. destruct (keep m0); simplify_eq. by apply Hf in Hin.
Qed.

Lemma abandon_owner pid keep l m : m ∈ abandon pid keep l → m_owner m ≠ Some pid.
Proof.
  intros (m0 & Hin & Hm)%list_elem_of_omap. case_decide; [|by simplify_eq].
  by destruct (keep m0); simplify_eq.
Qed.

Lemma clean_stale_sublist name t done l : sublist (clean_stale mangle name t done l) l.
Proof.
  unfold clean_stale. destruct (find_fscache_mount_holder _ _); [|done]. case_decide; [|done].
  destruct done; [|done]. apply umount_sublist.
Qed.

Lemma ok_shrink w l' : ok w → shrinks (table w) l' → ok (mkWorld (procs w) (locks w) l').
Proof.
  intros [] []. split; simpl; eauto. by eapply sublist_NoDup.
Qed.

Lemma release_lookup pid lk k q : release pid lk !! k = Some q ↔ lk !! k = Some q ∧ q ≠ pid.
Proof. unfold release. by rewrite map_lookup_filter_Some. Qed.

Lemma reap_ok pid keep w : ok w → ok (reap pid keep w).
Proof.
  intros Hok. pose proof (ok_shrink w _ Hok (abandon_shrinks pid keep (table w))) as [O1 O2 O3 O4 O5 O6 O7].
  simpl in *. unfold reap. split; simpl; try done.
  - intros q p [? ?]%lookup_delete_Some. eauto.
  - intros q p [? ?]%lookup_delete_Some ?. apply release_lookup. eauto.
  - intros q p [? ?]%lookup_delete_Some ?. eauto.
  - intros q p t todo [? ?]%lookup_delete_Some ??. apply release_lookup. eauto.
  - intros m q Hm Hq. pose proof (abandon_owner _ _ _ _ Hm) as Hne.
    destruct (O5 m q Hm Hq) as (p & ? & ? & ? & ? & ?). exists p.
    assert (q ≠ pid) by congruence. rewrite lookup_delete_ne by done. split_and!; try done.
    by apply release_lookup.
Qed.

Lemma live_points_app l k : live_points (l ++ k) = live_points l ++ live_points k.
Proof. unfold live_points. apply omap_app. Qed.

Lemma elem_of_live_points t l : t ∈ live_points l ↔ ∃ m pid, m ∈ l ∧ m_owner m = Some pid ∧ m_point m = t.
Proof.
  unfold live_points. rewrite list_elem_of_omap. split.
  - intros (m & Hm & Ht). destruct (m_owner m) eqn:E; simplify_eq. eauto 6.
  - intros (m & pid & Hm & Ho & <-). exists m. by rewrite Ho.
Qed.

Lemma flock_ok ready k pid lk lk' :
  flock_exclusive ready k pid lk = Ok lk' → lk !! k = None ∧ lk' = <[k := pid]> lk.
Proof.
  unfold flock_exclusive. destruct ready; [|done]. simpl. by destruct (lk !! k) eqn:E; intros [= <-].
Qed.

Lemma checked_targets targets :
  validate_targets path_exists canonicalize targets = Ok tt →
  NoDup targets ∧ Forall (λ t, t ≠ ""%string) targets.
Proof.
  intros Hv. enough (Hgen : ∀ seen rest, check_targets path_exists canonicalize seen rest = Ok tt →
    NoDup rest ∧ Forall (λ t, t ≠ ""%string) rest ∧ ∀ t, t ∈ rest → canonical canonicalize t ∉ seen).
  { destruct targets as [|t ts]; [done|]. apply Hgen in Hv. naive_solver. }
  clear Hv. intros seen rest. revert seen. induction rest as [|t rest IH]; intros seen; cbn [check_targets].
  { intros _. split_and!; [constructor|done|set_solver]. }
  destruct (path_exists t) eqn:Et; [|done]. simpl. case_decide as Hin; [done|]. intros (Hnd & Hne & Hs)%IH.
  split_and!.
  - constructor; [|done]. intros Ht. apply Hs in Ht. set_solver.
  - constructor; [|done]. intros ->. congruence.
  - intros u [-> |Hu]%elem_of_cons; [done|]. apply Hs in Hu. set_solver.
Qed.

(** One process moves on: its locks can only grow and the table only shrink. *)
Lemma ok_update w pid p' lk l' :
  ok w → validate_instance_name (p_name p') = Ok tt →
  (∀ k q, locks w !! k = Some q → lk !! k = Some q) →
  (p_stage p' ≠ Boot → lk !! instance_lock (p_name p') = Some pid ∧
     NoDup (p_mounted p' ++ p_todo p') ∧ Forall (λ t, t ≠ ""%string) (p_todo p')) →
  (∀ t todo, p_stage p' = Mounting → p_todo p' = t :: todo → lk !! target_lock path_hash t = Some pid) →
  (∀ p, procs w !! pid = Some p → p_name p = p_name p' ∧ (p_stage p ≠ Boot → p_stage p' ≠ Boot) ∧
     ∀ t, t ∈ p_mounted p → t ∈ p_mounted p') →
  shrinks (table w) l' →
  ok (mkWorld (<[pid := p']> (procs w)) lk l').
Proof.
  intros Hok Hname Hlk Hboot Hmount Hold Hs.
  pose proof (ok_shrink w l' Hok Hs) as [O1 O2 O3 O4 O5 O6 O7]. simpl in *. split; simpl; try done.
  - intros q p [[<- <-]|[_ ?]]%lookup_insert_Some; eauto.
  - intros q p [[<- <-]|[_ ?]]%lookup_insert_Some ?; [by apply Hboot|eauto].
  - intros q p [[<- <-]|[_ ?]]%lookup_insert_Some ?; [by apply Hboot|eauto].
  - intros q p t todo [[<- <-]|[_ ?]]%lookup_insert_Some ??; eauto.
  - intros m q Hm Hq. destruct (O5 m q Hm Hq) as (p & Hp & ? & ? & ? & ?).
    destruct (decide (q = pid)) as [-> |Hne].
    + destruct (Hold p Hp) as (Heq & ? & ?). exists p'. rewrite lookup_insert_eq, <- Heq. eauto 10.
    + exists p. rewrite lookup_insert_ne by done. eauto 10.
Qed.

Lemma ok_mount w pid p t :
  ok w → procs w !! pid = Some p → p_stage p ≠ Boot → t ∈ p_mounted p → t ≠ ""%string →
  locks w !! target_lock path_hash t = Some pid → t ∉ live_points (table w) →
  ok (mkWorld (procs w) (locks w) (table w ++ [mkMount ("fscache-" ++ p_name p) t (Some pid)])).
Proof.
  intros [O1 O2 O3 O4 O5 O6 O7] Hp Hb Ht Hne Hlk Hlive. split; simpl; try done.
  - intros m q [Hm|Hm]%elem_of_app Hq; [eauto|]. apply list_elem_of_singleton in Hm as ->.
    simplify_eq/=. eauto 10.
  - rewrite live_points_app. simpl. apply NoDup_app. split_and!; [done| |apply NoDup_singleton].
    by intros x Hx ->%list_elem_of_singleton.
  - apply Forall_app. split; [done|]. repeat constructor; simpl; [|done..].
    destruct (valid_name _ (O1 _ _ Hp)) as [Hn _]. rewrite all_chars_app. apply andb_true_iff. split; [done|].
    eapply all_chars_impl; [|done]. intros c Hc. destruct (Text.is_space c) eqn:E; [|done].
    exfalso. revert Hc E. clear. destruct c as [[] [] [] [] [] [] [] []]; by vm_compute.
Qed.

(** The mount of the first target that is left to do. *)
Lemma ok_mounted w pid name t todo mounted :
  ok w → procs w !! pid = Some (mkProc name Mounting (t :: todo) mounted) →
  ok (mkWorld (<[pid := mkProc name (stage_of todo) todo (t :: mounted)]> (procs w)) (locks w)
        (table w ++ [mkMount ("fscache-" ++ name) t (Some pid)])).
Proof.
  intros Hok Hp. pose proof Hok as [O1 O2 O3 O4 O5 O6 O7].
  destruct (O3 _ _ Hp) as [Hnd Hne]; [done|]. simpl in Hnd, Hne.
  assert (Hlk : locks w !! target_lock path_hash t = Some pid) by (by eapply O4).
  assert (Hok' : ok (mkWorld (<[pid := mkProc name (stage_of todo) todo (t :: mounted)]> (procs w)) (locks w) (table w))).
  { apply ok_update; simpl; try done.
    - by apply (O1 _ _ Hp).
    - intros _. split_and!; [by apply (O2 _ _ Hp)| |by inversion Hne].
      by rewrite <- Permutation_middle in Hnd.
    - by destruct todo.
    - intros p. rewrite Hp. intros [= <-]. simpl. split_and!; [done|by destruct todo|by right].
  }
  apply (ok_mount _ pid (mkProc name (stage_of todo) todo (t :: mounted)) t Hok'); simpl; try done.
  + by rewrite lookup_insert_eq.
  + by destruct todo.
  + by left.
  + by inversion Hne.
  + intros (m & q & Hm & Hq & <-)%elem_of_live_points.
    destruct (O5 m q Hm Hq) as (p & Hp' & _ & _ & Hin & Hlk'). assert (q = pid) as -> by congruence.
    rewrite Hp in Hp'. injection Hp' as <-. apply NoDup_app in Hnd as (_ & Hnd & _).
    eapply Hnd; [done|]. by left.
Qed.

(** A mount of someone else. *)
Lemma ok_foreign w source point :
  ok w → no_space source → point ≠ ""%string →
  ok (mkWorld (procs w) (locks w) (table w ++ [mkMount source point None])).
Proof.
  intros [O1 O2 O3 O4 O5 O6 O7] Hs Hpt.
  split; simpl; try done.
  + intros m q [Hm|Hm]%elem_of_app Hq; [eauto|]. by apply list_elem_of_singleton in Hm as ->.
  + rewrite live_points_app. simpl. by rewrite app_nil_r.
  + apply Forall_app. split; [done|]. constructor; [done|constructor].
Qed.

Lemma world_step_ok w w' : step w w' → ok w → ok w'.
Proof.
  intros Hstep Hok. pose proof Hok as [O1 O2 O3 O4 O5 O6 O7].
  destruct Hstep as [w pid name targets Hp Hn|w pid name targets ready lk Hp Hl Hv
    |w pid name t todo mounted done_ Hp|w pid name t todo mounted ready lk Hp Hl
    |w pid name t todo mounted Hp|w pid name mounted keep Hp|w pid p keep Hp
    |w source point Hs Hpt Hn|w l1 m l2 Ht].
  - apply ok_update; try done; try (by apply shrinks_sublist). by intros p; rewrite Hp.
  - apply flock_ok in Hl as [Hnone ->]. apply checked_targets in Hv as [Hnd Hne].
    apply ok_update; simpl; try done.
    + by apply (O1 _ _ Hp).
    + intros k q Hk. rewrite lookup_insert_ne; [done|]. congruence.
    + intros _. by rewrite lookup_insert_eq.
    + by destruct targets.
    + intros p. rewrite Hp. intros [= <-]. by split_and!.
  - destruct (O3 _ _ Hp) as [Hnd Hne]; [done|]. apply ok_update; simpl; try done.
    + by apply (O1 _ _ Hp).
    + intros _. split_and!; [by apply (O2 _ _ Hp)|done..].
    + intros p. rewrite Hp. intros [= <-]. by split_and!.
    + apply shrinks_sublist, clean_stale_sublist.
  - apply flock_ok in Hl as [Hnone ->]. destruct (O3 _ _ Hp) as [Hnd Hne]; [done|].
    assert (Hk : ∀ k q, locks w !! k = Some q → <[target_lock path_hash t := pid]> (locks w) !! k = Some q).
    { intros k q Hk. rewrite lookup_insert_ne; [done|]. congruence. }
    apply ok_update; simpl; try done.
    + by apply (O1 _ _ Hp).
    + intros _. split_and!; [|done..]. by apply Hk, (O2 _ _ Hp).
    + intros ?? _ [= <- _]. by rewrite lookup_insert_eq.
    + intros p. rewrite Hp. intros [= <-]. by split_and!.
  - by apply ok_mounted.
  - apply reap_ok, ok_shrink; [done|]. clear. induction mounted as [|t mounted IH]; simpl.
    + by apply shrinks_sublist.
    + eapply shrinks_trans, shrinks_sublist, umount_sublist. done.
  - by apply reap_ok.
  - by apply ok_foreign.
  - apply ok_shrink; [done|]. apply shrinks_sublist. rewrite Ht. apply sublist_app; [done|]. by constructor.
Qed.

Lemma world_reachable_ok w : reachable path_hash mangle path_exists canonicalize w → ok w.
Proof.
  intros (w0 & -> & Hrtc). remember (mkWorld ∅ ∅ []) as w0 eqn:Hw0.
  assert (Hok : ok w0).
  { subst. split; simpl; try (by intros; simplify_map_eq); try done; try constructor.
    - by intros m pid ?%elem_of_nil. }
  clear Hw0. induction Hrtc; eauto using world_step_ok.
Qed.

(** *** The clean-up *)
Lemma umount_live t l : t ∉ live_points l → live_points (umount t l) = live_points l.
Proof.
  induction l as [|m l IH]; [done|]. cbn [umount]. intros Ht.
  change (m :: l) with ([m] ++ l) in *. rewrite live_points_app in *.
  apply not_elem_of_app in Ht as [Hm Hl]. destruct (existsb _ _).
  - change (m :: umount t l) with ([m] ++ umount t l). by rewrite live_points_app, IH.
  - case_decide as Hp; [|by rewrite live_points_app]. unfold live_points at 2. simpl.
    destruct (m_owner m) as [q|] eqn:E; [|done]. exfalso. apply Hm, elem_of_live_points.
    exists m, q. by rewrite list_elem_of_singleton.
Qed.

Lemma holder_source l t name :
  Forall (λ m, no_space (mangle (m_point m))) l → Forall fine l →
  find_fscache_mount_holder (Some (proc_mounts mangle l)) t = Some name →
  ∃ m, m ∈ l ∧ mangle (m_point m) = t ∧ strip_prefix_str "fscache-" (m_source m) = Some name.
Proof.
  intros Hmangle Hl. cbn [find_fscache_mount_holder mbind option_bind]. unfold proc_mounts.
  rewrite holder_of_table.
  - induction l as [|m l IH]; [done|].
    apply Forall_cons in Hl as [_ Hl], Hmangle as [_ Hmangle].
    change (omap (holder_of t) (line_of mangle <$> (m :: l))) with
      (match holder_of t (line_of mangle m) with
       | Some b => b :: omap (holder_of t) (line_of mangle <$> l)
       | None => omap (holder_of t) (line_of mangle <$> l) end).
    destruct (holder_of t (line_of mangle m)) as [n|] eqn:E.
    + intros [= ->]. unfold holder_of in E. simpl in E. case_decide; [|done]. exists m. by split; [left|].
    + intros Hh. destruct (IH Hmangle Hl Hh) as (m' & ? & ?). exists m'. by split; [right|].
  - apply Forall_fmap, Forall_forall. rewrite !Forall_forall in *. intros m Hm.
    destruct (Hl m Hm). split_and!; simpl; auto.
Qed.
End facts.
End DaemonFacts.

(** ** Theorems *)
Module DaemonTheorems.
Import Config Instance InstanceFacts Daemon DaemonFacts.
Section theorems.
Context (path_hash : string → Z) (mangle : string → string).
Context (path_exists : string → bool) (canonicalize : string → option path).


(** The clean-up before a mount is prompted by a mount nobody serves any more: when the table
    names the starting instance itself as the holder of its next target, there is such a mount
    whose server is gone; and no living daemon loses a mount by it, unless one is serving that
    very target. *)
Theorem cleanup_sees_a_stale_mount w pid name t todo mounted finished :
  path_exists "" = false → (∀ a b, mangle a = mangle b → a = b) → mangle t = t →
  Forall (λ m, no_space (mangle (m_point m))) (table w) →
  reachable path_hash mangle path_exists canonicalize w →
  procs w !! pid = Some (mkProc name Cleaning (t :: todo) mounted) →
  (find_fscache_mount_holder (Some (proc_mounts mangle (table w))) t = Some name →
   ∃ m, m ∈ table w ∧ m_point m = t ∧ strip_prefix_str "fscache-" (m_source m) = Some name ∧
        m_owner m = None) ∧
  (t ∉ live_points (table w) →
   live_points (clean_stale mangle name t finished (table w)) = live_points (table w)).
Proof.
  intros He Hinj Ht Hmangle Hw Hp. apply world_reachable_ok in Hw as [O1 O2 O3 O4 O5 O6 O7]; [|done]. split.
  - intros (m & Hm & Hpt & Hs)%holder_source; [|done..]. rewrite <- Ht in Hpt. apply Hinj in Hpt.
    exists m. split_and!; try done. destruct (m_owner m) as [q|] eqn:Ho; [|done]. exfalso.
    destruct (O5 m q Hm Ho) as (p & Hq & Hb & Hsrc & Hin & _).
    rewrite Hsrc, strip_fscache in Hs. injection Hs as Hs.
    assert (q = pid) as ->.
    { apply O2 in Hp; [|done]. apply O2 in Hq; [|done]. simpl in Hp. rewrite Hs in Hq. congruence. }
    rewrite Hp in Hq. injection Hq as <-. destruct (O3 _ _ Hp) as [Hnd _]; [done|]. simpl in *.
    apply NoDup_app in Hnd as (_ & Hnd & _). eapply Hnd; [done|]. rewrite Hpt. by left.
  - intros Hl. unfold clean_stale. destruct (find_fscache_mount_holder _ _); [|done].
    case_decide; [|done]. destruct finished; [|done]. by apply umount_live.
Qed.
End theorems.

(** *** A run in which the clean-up hits another instance

    The mount of a crashed instance lies under the mount of another instance that took the target
    over.  When the first one starts again, it sees its own mount first, and unmounts the top one
    before it finds the target locked. *)
Definition h (_ : string) : Z := 0.
Definition fs_root (s : string) : bool := bool_decide (s = "/m"%string).
Definition canon (s : string) : option path := Some [s].

Abbreviation tstep := (dstep h (λ s, s) fs_root canon).

Definition overtaken : World :=
  mkWorld (<[2%nat := mkProc "a" Cleaning ["/m"%string] []]> {[1%nat := mkProc "b" Serving [] ["/m"%string]]})
    (<[instance_lock "a" := 2%nat]> (<[target_lock h "/m" := 1%nat]> {[instance_lock "b" := 1%nat]}))
    [mkMount "fscache-a" "/m" None; mkMount "fscache-b" "/m" (Some 1%nat)].

(** A first daemon up to its mount, from a world where its locks are free. *)
Lemma start_and_mount w pid name :
  procs w !! pid = None → validate_instance_name name = Ok tt →
  locks w !! instance_lock name = None → locks w !! target_lock h "/m" = None →
  instance_lock name ≠ target_lock h "/m" →
  rtc tstep w (mkWorld (<[pid := mkProc name Serving [] ["/m"%string]]> (procs w))
    (<[target_lock h "/m" := pid]> (<[instance_lock name := pid]> (locks w)))
    (table w ++ [mkMount ("fscache-" ++ name) "/m" (Some pid)])).
Proof.
  intros Hp Hn Hi Ht Hne.
  assert (Hc : clean_stale (λ s, s) name "/m" false (table w) = table w).
  { unfold clean_stale. destruct (find_fscache_mount_holder _ _); [|done]. by case_decide. }
  eapply rtc_l; [apply (d_spawn _ _ _ _ w pid name ["/m"%string]); done|].
  eapply rtc_l.
  { eapply (d_boot _ _ _ _ _ pid name ["/m"%string] true); [simpl; by rewrite lookup_insert_eq| |reflexivity].
    unfold acquire_instance_lock, flock_exclusive. simpl. by rewrite Hi. }
  simpl. rewrite insert_insert_eq. eapply rtc_l.
  { eapply (d_clean _ _ _ _ _ pid name "/m" [] [] false). simpl. by rewrite lookup_insert_eq. }
  simpl. rewrite insert_insert_eq, Hc. eapply rtc_l.
  { eapply (d_lock _ _ _ _ _ pid name "/m" [] [] true); [simpl; by rewrite lookup_insert_eq|].
    unfold acquire_target_lock, flock_exclusive. simpl. by rewrite lookup_insert_ne, Ht by done. }
  simpl. rewrite insert_insert_eq. eapply rtc_l.
  { eapply (d_mount _ _ _ _ _ pid name "/m" [] []). simpl. by rewrite lookup_insert_eq. }
  simpl. by rewrite insert_insert_eq.
Qed.

Lemma overtaken_reachable : reachable h (λ s, s) fs_root canon overtaken.
Proof.
  exists (mkWorld ∅ ∅ []). split; [done|].
  etrans; [apply (start_and_mount _ 0 "a"); [done..|by vm_compute]|].
  eapply rtc_l; [by apply (d_die _ _ _ _ _ 0 (mkProc "a" Serving [] ["/m"%string]) (λ _, true))|].
  match goal with |- rtc _ ?w _ =>
    assert (Heq : w = mkWorld ∅ ∅ [mkMount "fscache-a" "/m" None]) by (vm_compute; reflexivity); rewrite Heq end.
  etrans; [apply (start_and_mount _ 1 "b"); [done..|by vm_compute]|]. clear Heq.
  eapply rtc_l; [by apply (d_spawn _ _ _ _ _ 2 "a" ["/m"%string])|].
  eapply rtc_l; [eapply (d_boot _ _ _ _ _ 2 "a" ["/m"%string] true); [done|reflexivity|done]|].
  match goal with |- rtc _ ?w _ => assert (Heq : w = overtaken) by (vm_compute; reflexivity); rewrite Heq end.
  apply rtc_refl.
Qed.

(** In that world the clean-up of the one instance takes the mount of the other away. *)
Lemma cleanup_can_hit_another_daemon :
  reachable h (λ s, s) fs_root canon overtaken ∧
  live_points (table overtaken) = ["/m"%string] ∧
  ∃ w, tstep overtaken w ∧ live_points (table w) = [] ∧
    procs w !! 1%nat = Some (mkProc "b" Serving [] ["/m"%string]).
Proof.
  split; [apply overtaken_reachable|]. split; [done|].
  eexists. split; [by apply (d_clean _ _ _ _ _ 2 "a" "/m" [] [] true)|]. by vm_compute.
Qed.


Lemma cleanup_sees_a_stale_mount_witness :
  ∃ m, m ∈ table overtaken ∧ m_point m = "/m"%string ∧
    strip_prefix_str "fscache-" (m_source m) = Some "a"%string ∧ m_owner m = None.
Proof.
  apply (cleanup_sees_a_stale_mount h (λ s, s) fs_root canon overtaken 2 "a" "/m" [] [] true);
    [done|done|done| |apply overtaken_reachable|done|by vm_compute].
  by repeat constructor.
Defined.
End DaemonTheorems.
