(* ===== verification/Ipc.v ===== *)
(** * Daemon and dashboard

    [src/ipc/*.rs] and the state of [src/tui/state.rs]: the layer that turns tracing events into
    messages, the buffer of recent log lines, what a connected client is sent and what its
    commands do, and the dashboard state the client keeps from the messages.  Framing and JSON are
    third-party: a connection carries messages.  A broadcast channel is the list of what was sent;
    what a receiver gets of it is an input. *)
From S2P Require Import Prelude Paths Scheduler Backing Disk Db Manager CacheIo Preset Engine Fuse.
From S2P Require Import Discovery Config Instance.

(** ** Protocol *)
Record LogLine := mkLogLine { ll_timestamp : string; ll_level : string; ll_message : string }.

Inductive TelemetryEvent :=
  | FuseOpen
  | CacheHit
  | CacheMiss
  | HandleClosed (bytes_read : option Z)
  | CopyQueued
  | CopyStarted (path : option string) (size_bytes : option Z)
  | CopyComplete (path : option string)
  | CopyFailed (path : option string)
  | CopyProgressed (path : option string) (bytes_copied size_bytes : option Z)
  | DeferredChanged (count : option Z)
  | BudgetUpdated (used_bytes max_bytes : option Z)
  | CachingWindow (allowed : option bool)
  | Eviction (path reason : option string)
  | DiscoveryStatus (enabled : bool) (started_at : option Z)
  | BackingChanged (mount_id path kind action : option string).

Record MountInfoWire := mkMountInfoWire { mi_target : string; mi_cache_dir : path; mi_active : bool }.

Record HelloPayload := mkHelloPayload {
  h_version : string; h_instance_name : string; h_mounts : list MountInfoWire; h_db_path : path;
  h_config : Config;
}.

Inductive DaemonMessage :=
  | Hello (h : HelloPayload)
  | Event (e : TelemetryEvent)
  | Log (l : LogLine)
  | Goodbye.

(** The two texts of a file's database key. *)
Record FileTarget := mkFileTarget { ft_rel_path : string; ft_mount_id : string }.

Inductive ClientMessage :=
  | Shutdown
  | EvictFiles (files : list FileTarget)
  | RefreshLease (files : list FileTarget)
  | DiscoveryStart
  | DiscoveryStop.

(** ** The tracing layer: a field of an event as its [record_*] method receives it *)
Inductive FieldValue := FStr (s : string) | FU64 (z : Z) | FBool (b : bool) | FDebug (s : string).

Record Visitor := mkVisitor {
  v_event : option string; v_message : option string; v_path : option string;
  v_reason : option string; v_kind : option string; v_action : option string;
  v_mount_id : option string;
  v_bytes_read : option Z; v_bytes_copied : option Z; v_size_bytes : option Z;
  v_used_bytes : option Z; v_max_bytes : option Z; v_count : option Z; v_allowed : option bool;
}.

Inductive Level := ERROR | WARN | INFO | DEBUG | TRACE.

(** ** The dashboard *)
Inductive Counter :=
  | fuse_opens | cache_hits | cache_misses | bytes_read | open_handles
  | cache_used_bytes | cache_free_bytes | cache_file_count
  | in_flight_count | deferred_count | budget_used_bytes | budget_max_bytes
  | completed_copies | failed_copies | evictions_expired | evictions_size
  | backing_watches_active | backing_events_handled | backing_evictions_triggered
  | backing_watch_cap_reached.
#[export] Instance Counter_eq_dec : EqDecision Counter.
Proof. solve_decision. Defined.

Record CopyProgress := mkCopyProgress { cp_size_bytes : Z; cp_bytes_copied : Z; cp_started_at : Z }.

Record CachedFileInfo := mkCachedFileInfo {
  cf_path : path; cf_size_bytes : Z; cf_cached_at : Z; cf_last_hit_at : Z; cf_evicts_at : Z;
  cf_mount_id : path;
}.

(** The paths of copies are relative to a mount. *)
Record DashboardState := mkDashboardState {
  atomics : Counter → Z;
  active_copies : gmap path CopyProgress;
  caching_allowed : bool;
  cached_files : list CachedFileInfo;
  mounts : list MountInfoWire;
  recent_logs : list LogLine;
}.

(** What the connections of a daemon act on.  The database is the one the controller has;
    [d_sent] is what was put on the broadcast channel by what is modelled here. *)
Record DaemonState := mkDaemonState {
  d_disk : Disk; d_ctl : Controller; d_cancelled : bool; d_sent : list TelemetryEvent;
}.

(** One side of a connection: what was written, and whether the handler still runs. *)
Record Conn := mkConn { written : list DaemonMessage; open_ : bool }.

Module Ipc.
Import Text.

(** ** [telemetry.rs] *)
Definition EVENT_FUSE_OPEN : string := "fuse_open".
Definition EVENT_CACHE_HIT : string := "cache_hit".
Definition EVENT_CACHE_MISS : string := "cache_miss".
Definition EVENT_HANDLE_CLOSED : string := "handle_closed".
Definition EVENT_COPY_QUEUED : string := "copy_queued".
Definition EVENT_COPY_STARTED : string := "copy_started".
Definition EVENT_COPY_COMPLETE : string := "copy_complete".
Definition EVENT_COPY_FAILED : string := "copy_failed".
Definition EVENT_COPY_PROGRESS : string := "copy_progress".
Definition EVENT_DEFERRED_CHANGED : string := "deferred_changed".
Definition EVENT_BUDGET_UPDATED : string := "budget_updated".
Definition EVENT_CACHING_WINDOW : string := "caching_window".
Definition EVENT_EVICTION : string := "eviction".
Definition EVENT_BACKING_CHANGED : string := "backing_changed".

(** ** [broadcast_layer.rs] *)
Definition no_fields : Visitor :=
  mkVisitor None None None None None None None None None None None None None None.

(** The seven text fields, by name. *)
Definition set_text (field value : string) (v : Visitor) : Visitor :=
  let '(mkVisitor e m p r k a mid br bc sb ub mb c al) := v in
  if decide (field = "event"%string) then mkVisitor (Some value) m p r k a mid br bc sb ub mb c al
  else if decide (field = "message"%string) then mkVisitor e (Some value) p r k a mid br bc sb ub mb c al
  else if decide (field = "path"%string) then mkVisitor e m (Some value) r k a mid br bc sb ub mb c al
  else if decide (field = "reason"%string) then mkVisitor e m p (Some value) k a mid br bc sb ub mb c al
  else if decide (field = "kind"%string) then mkVisitor e m p r (Some value) a mid br bc sb ub mb c al
  else if decide (field = "action"%string) then mkVisitor e m p r k (Some value) mid br bc sb ub mb c al
  else if decide (field = "mount_id"%string) then mkVisitor e m p r k a (Some value) br bc sb ub mb c al
  else v.

Definition record_u64 (field : string) (value : Z) (v : Visitor) : Visitor :=
  let '(mkVisitor e m p r k a mid br bc sb ub mb c al) := v in
  if decide (field = "bytes_read"%string) then mkVisitor e m p r k a mid (Some value) bc sb ub mb c al
  else if decide (field = "bytes_copied"%string) then mkVisitor e m p r k a mid br (Some value) sb ub mb c al
  else if decide (field = "size_bytes"%string) then mkVisitor e m p r k a mid br bc (Some value) ub mb c al
  else if decide (field = "used_bytes"%string) then mkVisitor e m p r k a mid br bc sb (Some value) mb c al
  else if decide (field = "max_bytes"%string) then mkVisitor e m p r k a mid br bc sb ub (Some value) c al
  else if decide (field = "count"%string) then mkVisitor e m p r k a mid br bc sb ub mb (Some value) al
  else v.

Definition record_bool (field : string) (value : bool) (v : Visitor) : Visitor :=
  let '(mkVisitor e m p r k a mid br bc sb ub mb c al) := v in
  if decide (field = "allowed"%string) then mkVisitor e m p r k a mid br bc sb ub mb c (Some value)
  else v.

Definition quote : ascii := "034"%char.

Fixpoint trim_end_matches (c : ascii) (s : string) : string :=
  match s with
  | EmptyString => EmptyString
  | String d s' =>
      match trim_end_matches c s' with
      | EmptyString => if decide (c = d) then EmptyString else String d EmptyString
      | t => String d t
      end
  end.

(** A formatted value loses the quotes around it. *)
Definition record_debug (field value : string) (v : Visitor) : Visitor :=
  set_text field (trim_end_matches quote (Instance.trim_start_matches quote value)) v.

Definition record (v : Visitor) (f : string * FieldValue) : Visitor :=
  match f.2 with
  | FStr s => set_text f.1 s v
  | FU64 z => record_u64 f.1 z v
  | FBool b => record_bool f.1 b v
  | FDebug s => record_debug f.1 s v
  end.

Definition visit (fields : list (string * FieldValue)) : Visitor := foldl record no_fields fields.

Definition telemetry_msg (v : Visitor) : option TelemetryEvent :=
  e ← v_event v;
  if decide (e = EVENT_FUSE_OPEN) then Some FuseOpen
  else if decide (e = EVENT_CACHE_HIT) then Some CacheHit
  else if decide (e = EVENT_CACHE_MISS) then Some CacheMiss
  else if decide (e = EVENT_HANDLE_CLOSED) then Some (HandleClosed (v_bytes_read v))
  else if decide (e = EVENT_COPY_QUEUED) then Some CopyQueued
  else if decide (e = EVENT_COPY_STARTED) then Some (CopyStarted (v_path v) (v_size_bytes v))
  else if decide (e = EVENT_COPY_COMPLETE) then Some (CopyComplete (v_path v))
  else if decide (e = EVENT_COPY_FAILED) then Some (CopyFailed (v_path v))
  else if decide (e = EVENT_DEFERRED_CHANGED) then Some (DeferredChanged (v_count v))
  else if decide (e = EVENT_BUDGET_UPDATED) then Some (BudgetUpdated (v_used_bytes v) (v_max_bytes v))
  else if decide (e = EVENT_CACHING_WINDOW) then Some (CachingWindow (v_allowed v))
  else if decide (e = EVENT_EVICTION) then Some (Eviction (v_path v) (v_reason v))
  else if decide (e = EVENT_COPY_PROGRESS)
       then Some (CopyProgressed (v_path v) (v_bytes_copied v) (v_size_bytes v))
  else if decide (e = EVENT_BACKING_CHANGED)
       then Some (BackingChanged (v_mount_id v) (v_path v) (v_kind v) (v_action v))
  else None.

(** More verbose is greater. *)
Definition verbosity (l : Level) : Z :=
  match l with ERROR => 0 | WARN => 1 | INFO => 2 | DEBUG => 3 | TRACE => 4 end.

Definition level_str (l : Level) : string :=
  match l with
  | ERROR => "ERROR" | WARN => "WARN " | INFO => "INFO " | DEBUG => "DEBUG" | TRACE => "TRACE"
  end.

Definition log_message (v : Visitor) : string :=
  (default "" (v_message v)
   ++ match v_path v with Some p => "  [" ++ p ++ "]" | None => "" end
   ++ match v_reason v with Some r => "  (" ++ r ++ ")" | None => "" end)%string.

(** What is sent for an event; [timestamp] is the formatted clock. *)
Definition on_event (log_level : Level) (timestamp : string) (level : Level)
    (fields : list (string * FieldValue)) : list DaemonMessage :=
  let v := visit fields in
  match telemetry_msg v with Some e => [Event e] | None => [] end
  ++ (if verbosity level <=? verbosity log_level
      then [Log (mkLogLine timestamp (level_str level) (log_message v))] else []).

(** ** Rings of log lines: [recent_logs.rs] and [push_log] *)
Definition push_ring (cap : nat) (ring : list LogLine) (line : LogLine) : list LogLine :=
  (if (cap <=? length ring)%nat then tail ring else ring) ++ [line].

Definition RECENT_LOG_CAP : nat := 100.

Definition recent_logs_task (recent : list LogLine) (m : DaemonMessage) : list LogLine :=
  match m with Log line => push_ring RECENT_LOG_CAP recent line | _ => recent end.

Definition push_log (line : LogLine) (st : DashboardState) : DashboardState :=
  mkDashboardState (atomics st) (active_copies st) (caching_allowed st) (cached_files st) (mounts st)
                   (push_ring 200 (recent_logs st) line).

(** ** The dashboard: [state.rs] and [client.rs] *)
Definition dashboard (config : Config) : DashboardState :=
  mkDashboardState (λ c, if decide (c = budget_max_bytes)
                         then Config.gb_to_bytes (max_cache_pull_per_mount_gb (cache config)) else 0)
                   ∅ false [] [] [].

Definition store (c : Counter) (z : Z) (st : DashboardState) : DashboardState :=
  mkDashboardState (λ d, if decide (d = c) then z else atomics st d)
                   (active_copies st) (caching_allowed st) (cached_files st) (mounts st) (recent_logs st).

Definition fetch_add (c : Counter) (n : Z) (st : DashboardState) : DashboardState :=
  store c (u64_add (atomics st c) n) st.

Definition saturating_dec (c : Counter) (st : DashboardState) : DashboardState :=
  store c (Z.max 0 (atomics st c - 1)) st.

Definition on_copies (f : gmap path CopyProgress → gmap path CopyProgress) (st : DashboardState) :=
  mkDashboardState (atomics st) (f (active_copies st)) (caching_allowed st) (cached_files st)
                   (mounts st) (recent_logs st).

Definition store_allowed (b : bool) (st : DashboardState) : DashboardState :=
  mkDashboardState (atomics st) (active_copies st) b (cached_files st) (mounts st) (recent_logs st).

Definition remove_active_copy (p : option string) (st : DashboardState) : DashboardState :=
  match p with
  | Some s => on_copies (delete (components_of s)) (saturating_dec in_flight_count st)
  | None => st
  end.

Definition store_opt (c : Counter) (z : option Z) (st : DashboardState) : DashboardState :=
  match z with Some z => store c z st | None => st end.

Definition apply_event (now : Z) (e : TelemetryEvent) (st : DashboardState) : DashboardState :=
  match e with
  | FuseOpen => fetch_add open_handles 1 (fetch_add fuse_opens 1 st)
  | CacheHit => fetch_add cache_hits 1 st
  | CacheMiss => fetch_add cache_misses 1 st
  | HandleClosed n =>
      let st := saturating_dec open_handles st in
      match n with Some b => fetch_add bytes_read b st | None => st end
  | CopyQueued => fetch_add in_flight_count 1 st
  | CopyStarted (Some p) size =>
      on_copies (<[components_of p := mkCopyProgress (default 0 size) 0 now]>) st
  | CopyProgressed (Some p) (Some bc) size =>
      on_copies (alter (λ cp, mkCopyProgress (default (cp_size_bytes cp) size) bc (cp_started_at cp))
                       (components_of p)) st
  | CopyComplete p => remove_active_copy p (fetch_add completed_copies 1 st)
  | CopyFailed p => remove_active_copy p (fetch_add failed_copies 1 st)
  | DeferredChanged count => store_opt deferred_count count st
  | BudgetUpdated used max => store_opt budget_max_bytes max (store_opt budget_used_bytes used st)
  | CachingWindow allowed => store_allowed (default false allowed) st
  | Eviction _ reason =>
      if decide (reason = Some "expired"%string) then fetch_add evictions_expired 1 st
      else if decide (reason = Some "size_limit"%string) then fetch_add evictions_size 1 st
      else st
  | DiscoveryStatus _ _ => st
  | BackingChanged _ _ _ action =>
      let st := fetch_add backing_events_handled 1 st in
      if decide (action = Some "cache_evicted"%string ∨ action = Some "both"%string)
      then fetch_add backing_evictions_triggered 1 st else st
  | CopyStarted None _ | CopyProgressed None _ _ | CopyProgressed _ None _ => st
  end.

(** What a read of the connection gives. *)
Inductive Frame (M : Type) := Msg (m : M) | Eof | Garbage.
#[global] Arguments Msg {M}. #[global] Arguments Eof {M}. #[global] Arguments Garbage {M}.

(** The loop over what arrives, each with the clock; [None]: still reading. *)
Fixpoint run_client_stream (ms : list (Z * Frame DaemonMessage)) (st : DashboardState) :
    DashboardState * option (fallible unit) :=
  match ms with
  | [] => (st, None)
  | (now, Msg (Event e)) :: ms' => run_client_stream ms' (apply_event now e st)
  | (_, Msg (Log line)) :: ms' => run_client_stream ms' (push_log line st)
  | (_, Msg Goodbye) :: _ | (_, Eof) :: _ => (st, Some (Ok tt))
  | (_, Msg (Hello _)) :: ms' => run_client_stream ms' st
  | (_, Garbage) :: _ => (st, Some (Err "decode"%string))
  end.

(** [connect] after the socket is open: the first message has to be the [Hello]. *)
Definition connect (ms : list (Z * Frame DaemonMessage)) : fallible (HelloPayload * list (Z * Frame DaemonMessage)) :=
  match ms with
  | (_, Msg (Hello h)) :: ms' => Ok (h, ms')
  | (_, Msg _) :: _ => Err "unexpected first message from daemon"%string
  | (_, Garbage) :: _ => Err "decode"%string
  | (_, Eof) :: _ | [] => Err "daemon closed connection before sending Hello"%string
  end.

Definition ends_with (suffix s : string) : bool :=
  let n := (String.length s - String.length suffix)%nat in
  (String.length suffix <=? String.length s)%nat
  && bool_decide (String.substring n (String.length suffix) s = suffix).

(** [str::trim_end_matches] with a string: every repetition at the end. *)
Fixpoint trim_suffix (fuel : nat) (suffix s : string) : string :=
  match fuel with
  | O => s
  | S n => if ends_with suffix s
           then trim_suffix n suffix (String.substring 0 (String.length s - String.length suffix) s)
           else s
  end.

(** [probe] is what a connection to the socket of that name receives. *)
Definition discover_from_dir (entries : list (option string)) (probe : string → list (Z * Frame DaemonMessage)) :
    list (string * HelloPayload) :=
  omap (λ entry,
    name ← entry;
    if ends_with ".sock" name then
      match connect (probe name) with
      | Ok (hello, _) => Some (trim_suffix (String.length name) ".sock" name, hello)
      | Err _ => None
      end
    else None) entries.

(** ** Connections: [server.rs] *)

(** [PathBuf::from(base).join(s)] as text. *)
Fixpoint ends_in (c : ascii) (s : string) : bool :=
  match s with
  | EmptyString => false
  | String d EmptyString => bool_decide (c = d)
  | String _ s' => ends_in c s'
  end.

Definition push_text (base s : string) : string :=
  if is_absolute s || bool_decide (base = "")%string then s
  else if ends_in slash base then base ++ s else base ++ "/" ++ s.

(** The kernel's walk over the pieces of a path: [..] goes up, and what is followed has to be a
    directory. *)
Fixpoint walk (d : Disk) (cur : path) (pieces : list string) : option path :=
  match pieces with
  | [] => Some cur
  | c :: pieces' =>
      if Disk.is_dir d cur then
        if decide (c = "" ∨ c = ".")%string then walk d cur pieces'
        else if decide (c = "..")%string then walk d (parent cur) pieces'
        else walk d (cur ++ [c]) pieces'
      else None
  end.

(** The row a text keys, when the text is the way that path is written. *)
Definition relative_text (p : path) : string := join "/" p.
Definition absolute_text (p : path) : string := "/" ++ join "/" p.

Definition row_key (t : FileTarget) : option (path * path) :=
  let rel := components_of (ft_rel_path t) in
  let mount := components_of (ft_mount_id t) in
  if decide (relative_text rel = ft_rel_path t ∧ absolute_text mount = ft_mount_id t)
  then Some (rel, mount) else None.

Definition on_row (f : path → path → CacheDb → CacheDb) (t : FileTarget) (c : Controller) : Controller :=
  match row_key t with
  | Some (rel, mount) =>
      mkController (enabled c) (session c) (sessions c) (next_session c) (draining c) (cancelled c)
                   (broadcasts c) (f rel mount (disc_db c))
  | None => c
  end.

Section server.
(** The daemon's working directory, and whether a write on this connection succeeds. *)
Context (cwd : path) (writable : nat → bool).

Definition evict_file (t : FileTarget) (s : DaemonState) : DaemonState :=
  let abs_path := push_text (ft_mount_id t) (ft_rel_path t) in
  match match walk (d_disk s) (if is_absolute abs_path then [] else cwd) (split slash abs_path) with
        | Some p => Disk.remove_file (d_disk s) p
        | None => Err (OsError ENOENT)
        end with
  | Err _ => s
  | Ok d =>
      mkDaemonState d (on_row CacheDb.remove t (d_ctl s)) (d_cancelled s)
                    (d_sent s ++ [Eviction (Some abs_path) (Some "manual"%string)])
  end.

Definition refresh_lease (now : Z) (t : FileTarget) (s : DaemonState) : DaemonState :=
  mkDaemonState (d_disk s) (on_row (CacheDb.mark_hit now) t (d_ctl s)) (d_cancelled s) (d_sent s).

(** A change of the controller, with the statuses it broadcasts. *)
Definition on_controller (f : Controller → Controller) (s : DaemonState) : DaemonState :=
  let c := f (d_ctl s) in
  mkDaemonState (d_disk s) c (d_cancelled s)
    (d_sent s ++ ((λ b, DiscoveryStatus b.1 b.2) <$> drop (length (broadcasts (d_ctl s))) (broadcasts c))).

(** What a command does; only [Shutdown] ends the connection. *)
Definition handle_message (now : Z) (m : ClientMessage) (s : DaemonState) : DaemonState * bool :=
  match m with
  | Shutdown => (mkDaemonState (d_disk s) (d_ctl s) true (d_sent s), true)
  | EvictFiles files => (foldl (λ s t, evict_file t s) s files, false)
  | RefreshLease files => (foldl (λ s t, refresh_lease now t s) s files, false)
  | DiscoveryStart => (on_controller (Discovery.start now) s, false)
  | DiscoveryStop => (on_controller Discovery.stop s, false)
  end.

(** A failed write ends the handler. *)
Definition send_msg (m : DaemonMessage) (c : Conn) : Conn :=
  if open_ c then
    if writable (length (written c)) then mkConn (written c ++ [m]) true
    else mkConn (written c) false
  else c.

Definition close (c : Conn) : Conn := mkConn (written c) false.

Definition status_message (c : Controller) : DaemonMessage :=
  let '(on, since) := Discovery.status c in Event (DiscoveryStatus on since).

(** What a client is sent first.  A status that cannot be written is let pass. *)
Definition greet (hello : HelloPayload) (recent : list LogLine) (s : DaemonState) : Conn :=
  let c := foldl (λ c m, send_msg m c) (mkConn [] true) (Hello hello :: (Log <$> recent)) in
  if open_ c then mkConn (written (send_msg (status_message (d_ctl s)) c)) true else c.

(** What the handler waits for: the broadcast channel or the client. *)
Inductive ClientInput :=
  | FromBus (m : DaemonMessage)
  | Lagged (n : Z)
  | Closed
  | FromClient (now : Z) (f : Frame ClientMessage).

Definition client_step (sc : DaemonState * Conn) (i : ClientInput) : DaemonState * Conn :=
  let '(s, c) := sc in
  if open_ c then
    match i with
    | FromBus m =>
        let c' := send_msg m c in
        match m with Goodbye => (s, close c') | _ => (s, c') end
    | Lagged _ => (s, c)
    | Closed => (s, close c)
    | FromClient now (Msg m) =>
        let '(s', stop) := handle_message now m s in (s', if stop then close c else c)
    | FromClient _ Eof | FromClient _ Garbage => (s, close c)
    end
  else (s, c).

Definition handle_client (hello : HelloPayload) (recent : list LogLine) (s : DaemonState)
    (inputs : list ClientInput) : DaemonState * Conn :=
  foldl client_step (s, greet hello recent s) inputs.
End server.
End Ipc.

(** ** Facts *)
Module IpcFacts.
Import Text Ipc DiskFacts.

(** *** Rings *)
Definition keep_last {A} (n : nat) (l : list A) : list A := drop (length l - n) l.

Lemma push_ring_last cap l x :
  (0 < cap)%nat → push_ring cap (keep_last cap l) x = keep_last cap (l ++ [x]).
Proof.
  intros Hcap. unfold push_ring, keep_last. rewrite length_drop, length_app. cbn [length].
  destruct (decide (cap <= length l)%nat) as [Hl|Hl].
  - rewrite (proj2 (Nat.leb_le _ _)) by lia.
    replace (length l + 1 - cap)%nat with (S (length l - cap)) by lia.
    rewrite drop_app_le by lia. f_equal.
    generalize (length l - cap)%nat. clear. intros n. revert l.
    induction n as [|n IH]; intros [|y l]; try done. apply IH.
  - rewrite (proj2 (Nat.leb_gt _ _)) by lia.
    replace (length l - cap)%nat with 0%nat by lia.
    replace (length l + 1 - cap)%nat with 0%nat by lia. done.
Qed.

Lemma push_ring_fold cap l k :
  (0 < cap)%nat → foldl (push_ring cap) (keep_last cap l) k = keep_last cap (l ++ k).
Proof.
  intros Hcap. revert l. induction k as [|x k IH]; intros l; [by rewrite app_nil_r|].
  cbn [foldl]. rewrite push_ring_last, IH by done. by rewrite <- app_assoc.
Qed.

(** *** The stream of messages *)
Definition message (x : Z * DaemonMessage) : Z * Frame DaemonMessage := (x.1, Msg x.2).

Definition on_message (st : DashboardState) (x : Z * DaemonMessage) : DashboardState :=
  match x.2 with
  | Event e => apply_event x.1 e st
  | Log line => push_log line st
  | Hello _ | Goodbye => st
  end.

Lemma run_client_messages ms st :
  Forall (λ x, x.2 ≠ Goodbye) ms → run_client_stream (message <$> ms) st = (foldl on_message st ms, None).
Proof.
  intros Hms. revert st. induction Hms as [|[now m] ms Hm _ IH]; intros st; [done|].
  by destruct m; simpl in *; rewrite ?IH.
Qed.

Definition logs_of (ms : list DaemonMessage) : list LogLine :=
  omap (λ m, match m with Log l => Some l | _ => None end) ms.

Definition events_of (ms : list (Z * DaemonMessage)) : list (Z * TelemetryEvent) :=
  omap (λ x, match x.2 with Event e => Some (x.1, e) | _ => None end) ms.

Lemma apply_event_logs now e st : recent_logs (apply_event now e st) = recent_logs st.
Proof.
  destruct e; cbn [apply_event]; unfold remove_active_copy, store_opt, fetch_add, saturating_dec;
    repeat case_match; done.
Qed.

Lemma on_messages_logs ms st :
  recent_logs (foldl on_message st ms) = foldl (push_ring 200) (recent_logs st) (logs_of (snd <$> ms)).
Proof.
  revert st. induction ms as [|[now m] ms IH]; intros st; [done|]. cbn [foldl fmap list_fmap].
  rewrite IH. destruct m as [|e| |]; try reflexivity.
  unfold on_message at 1. cbn [fst snd]. rewrite apply_event_logs. reflexivity.
Qed.

Lemma logs_of_app ms ms' : logs_of (ms ++ ms') = logs_of ms ++ logs_of ms'.
Proof. apply omap_app. Qed.

Lemma logs_of_logs ls : logs_of (Log <$> ls) = ls.
Proof. induction ls as [|l ls IH]; [done|]. change (l :: logs_of (Log <$> ls) = l :: ls). by rewrite IH. Qed.

Lemma recent_task_fold ms l :
  foldl recent_logs_task l ms = foldl (push_ring RECENT_LOG_CAP) l (logs_of ms).
Proof. revert l. induction ms as [|m ms IH]; intros l; [done|]. by destruct m; simpl; rewrite IH. Qed.

(** *** Events *)
Definition set_logs (l : list LogLine) (st : DashboardState) : DashboardState :=
  mkDashboardState (atomics st) (active_copies st) (caching_allowed st) (cached_files st) (mounts st) l.

Definition apply_all (st : DashboardState) (evs : list (Z * TelemetryEvent)) : DashboardState :=
  foldl (λ st x, apply_event x.1 x.2 st) st evs.

Lemma apply_event_logs_free now e l st :
  apply_event now e (set_logs l st) = set_logs l (apply_event now e st).
Proof.
  destruct e; cbn [apply_event]; unfold remove_active_copy, store_opt, fetch_add, saturating_dec;
    repeat case_match; done.
Qed.

Lemma messages_events ms st :
  ∃ l, foldl on_message st ms = set_logs l (apply_all st (events_of ms)).
Proof.
  induction ms as [|[now m] ms IH] using rev_ind; [by exists (recent_logs st); destruct st|].
  destruct IH as [l IH]. rewrite foldl_app. cbn [foldl]. rewrite IH.
  unfold events_of. rewrite omap_app. fold (events_of ms). destruct m as [|e|line|].
  - exists l. by rewrite app_nil_r.
  - exists l. unfold on_message. cbn [fst snd]. rewrite apply_event_logs_free.
    unfold apply_all. by rewrite foldl_app.
  - eexists. rewrite app_nil_r. reflexivity.
  - exists l. by rewrite app_nil_r.
Qed.

(** Counters that only grow, and by what. *)
Definition summed : list Counter :=
  [fuse_opens; cache_hits; cache_misses; bytes_read; completed_copies; failed_copies;
   evictions_expired; evictions_size; backing_events_handled; backing_evictions_triggered].

Definition gain (c : Counter) (e : TelemetryEvent) : Z :=
  match c, e with
  | fuse_opens, FuseOpen | cache_hits, CacheHit | cache_misses, CacheMiss
  | completed_copies, CopyComplete _ | failed_copies, CopyFailed _
  | backing_events_handled, BackingChanged _ _ _ _ => 1
  | bytes_read, HandleClosed (Some b) => b
  | evictions_expired, Eviction _ r => if decide (r = Some "expired"%string) then 1 else 0
  | evictions_size, Eviction _ r => if decide (r = Some "size_limit"%string) then 1 else 0
  | backing_evictions_triggered, BackingChanged _ _ _ a =>
      if decide (a = Some "cache_evicted"%string ∨ a = Some "both"%string) then 1 else 0
  | _, _ => 0
  end.

Lemma store_eq c z st : atomics (store c z st) c = z.
Proof. simpl. by rewrite decide_True. Qed.

Lemma store_ne c d z st : d ≠ c → atomics (store c z st) d = atomics st d.
Proof. intros ?. simpl. by rewrite decide_False. Qed.

Lemma fetch_add_ne c d n st : d ≠ c → atomics (fetch_add c n st) d = atomics st d.
Proof. apply store_ne. Qed.

Lemma fetch_add_sum c n z st : atomics st c = as_u64 z → atomics (fetch_add c n st) c = as_u64 (z + n).
Proof.
  intros Hz. unfold fetch_add. rewrite store_eq, Hz. unfold u64_add, as_u64.
  by rewrite Zplus_mod_idemp_l.
Qed.

Lemma gain_step c now e st z :
  c ∈ summed → atomics st c = as_u64 z → atomics (apply_event now e st) c = as_u64 (z + gain c e).
Proof.
  intros Hc Hz. unfold summed in Hc. rewrite !elem_of_cons, elem_of_nil in Hc.
  destruct_or! Hc; subst c; destruct e; cbn [apply_event gain];
    unfold remove_active_copy, store_opt, saturating_dec; repeat case_match; simplify_eq;
    first [ by apply fetch_add_sum | by rewrite Z.add_0_r, ?fetch_add_ne, ?store_ne
          | by rewrite fetch_add_ne; [apply fetch_add_sum|]
          | by apply fetch_add_sum; rewrite ?store_ne, ?fetch_add_ne, Hz | done ].
Qed.
(** Counters that also go down, stopping at zero. *)
Definition gauges : list Counter := [open_handles; in_flight_count].

Definition delta (c : Counter) (e : TelemetryEvent) : Z :=
  match c, e with
  | open_handles, FuseOpen | in_flight_count, CopyQueued => 1
  | open_handles, HandleClosed _ | in_flight_count, CopyComplete (Some _)
  | in_flight_count, CopyFailed (Some _) => -1
  | _, _ => 0
  end.

Definition net (c : Counter) (evs : list (Z * TelemetryEvent)) : Z := sum_Z ((λ x, delta c x.2) <$> evs).

(** The greatest net change over a suffix. *)
Definition backlog (c : Counter) (evs : list (Z * TelemetryEvent)) (z : Z) : Prop :=
  (∀ l1 l2, evs = l1 ++ l2 → net c l2 <= z) ∧ (∃ l1 l2, evs = l1 ++ l2 ∧ z = net c l2).

Lemma net_snoc c evs x : net c (evs ++ [x]) = net c evs + delta c x.2.
Proof. unfold net. rewrite fmap_app, sum_Z_app. simpl. lia. Qed.

Lemma delta_bound c e : -1 <= delta c e <= 1.
Proof. destruct c, e; simpl; repeat case_match; lia. Qed.

Lemma net_bound c evs : - Z.of_nat (length evs) <= net c evs <= Z.of_nat (length evs).
Proof.
  induction evs as [|x evs IH]; [done|]. unfold net in *. cbn [fmap list_fmap length].
  rewrite sum_Z_cons. pose proof (delta_bound c x.2). lia.
Qed.

Lemma backlog_bounds c evs z : backlog c evs z → 0 <= z <= Z.of_nat (length evs).
Proof.
  intros [Hub (l1 & l2 & -> & ->)]. split.
  - apply (Hub (l1 ++ l2) []). by rewrite app_nil_r.
  - pose proof (net_bound c l2). rewrite length_app. lia.
Qed.

Lemma backlog_snoc c evs x z : backlog c evs z → backlog c (evs ++ [x]) (Z.max 0 (z + delta c x.2)).
Proof.
  intros [Hub (k1 & k2 & -> & ->)]. split.
  - intros l1 l2 Hl. destruct l2 as [|y l2 _] using rev_ind; [unfold net; simpl; lia|].
    rewrite app_assoc in Hl. apply app_inj_tail in Hl as [Hl <-]. rewrite net_snoc.
    specialize (Hub _ _ Hl). lia.
  - destruct (Z.max_spec 0 (net c k2 + delta c x.2)) as [[_ ->]|[_ ->]].
    + exists k1, (k2 ++ [x]). by rewrite app_assoc, net_snoc.
    + exists ((k1 ++ k2) ++ [x]), []. by rewrite app_nil_r.
Qed.

Lemma fetch_add_one c st :
  0 <= atomics st c < 2 ^ 64 - 1 → atomics (fetch_add c 1 st) c = atomics st c + 1.
Proof.
  intros ?. unfold fetch_add. rewrite store_eq. unfold u64_add, as_u64. apply Z.mod_small. lia.
Qed.

Lemma gauge_step c now e st :
  c ∈ gauges → 0 <= atomics st c < 2 ^ 64 - 1 →
  atomics (apply_event now e st) c = Z.max 0 (atomics st c + delta c e).
Proof.
  intros Hc Hr. unfold gauges in Hc. rewrite !elem_of_cons, elem_of_nil in Hc.
  destruct_or! Hc; subst c; destruct e; cbn [apply_event delta];
    unfold remove_active_copy, store_opt, saturating_dec; repeat case_match; simplify_eq;
    cbn [on_copies atomics store_allowed]; rewrite ?store_ne, ?fetch_add_ne, ?store_eq by done;
    rewrite ?store_ne, ?fetch_add_ne by done; try (by rewrite Z.max_r; lia).
  all: try lia; rewrite fetch_add_one by (by rewrite ?fetch_add_ne); rewrite ?fetch_add_ne by done; lia.
Qed.

Lemma gauge_backlog c cfg evs :
  c ∈ gauges → Z.of_nat (length evs) < 2 ^ 64 →
  backlog c evs (atomics (apply_all (dashboard cfg) evs) c).
Proof.
  intros Hc. induction evs as [|x evs IH] using rev_ind; intros Hlen.
  - assert (atomics (dashboard cfg) c = 0) as Hz.
    { unfold gauges in Hc. rewrite !elem_of_cons, elem_of_nil in Hc. by destruct_or! Hc; subst c. }
    cbn. split.
    + intros l1 l2 Hl. symmetry in Hl. apply app_eq_nil in Hl as [_ ->]. setoid_rewrite Hz. done.
    + exists [], []. by setoid_rewrite Hz.
  - rewrite length_app in Hlen. cbn in Hlen.
    assert (Hb := IH ltac:(lia)). unfold apply_all in *. rewrite foldl_app. cbn [foldl].
    rewrite gauge_step; [by apply backlog_snoc|done|]. pose proof (backlog_bounds _ _ _ Hb). lia.
Qed.
(** The last event that says something. *)
Definition latest {A} (f : TelemetryEvent → option A) (evs : list (Z * TelemetryEvent)) : option A :=
  last (omap (λ x, f x.2) evs).

Lemma latest_snoc {A} (f : TelemetryEvent → option A) evs x :
  latest f (evs ++ [x]) = match f x.2 with Some v => Some v | None => latest f evs end.
Proof.
  unfold latest. rewrite omap_app. cbn. destruct (f x.2); [by rewrite last_snoc|by rewrite app_nil_r].
Qed.

(** Counters that hold what was last reported. *)
Definition levels : list Counter := [deferred_count; budget_used_bytes; budget_max_bytes].

Definition reported (c : Counter) (e : TelemetryEvent) : option Z :=
  match c, e with
  | deferred_count, DeferredChanged z | budget_used_bytes, BudgetUpdated z _
  | budget_max_bytes, BudgetUpdated _ z => z
  | _, _ => None
  end.

Definition window (e : TelemetryEvent) : option bool :=
  match e with CachingWindow b => Some (default false b) | _ => None end.

Lemma level_step c now e st :
  c ∈ levels → atomics (apply_event now e st) c = default (atomics st c) (reported c e).
Proof.
  intros Hc. unfold levels in Hc. rewrite !elem_of_cons, elem_of_nil in Hc.
  destruct_or! Hc; subst c; destruct e; cbn [apply_event reported];
    unfold remove_active_copy, store_opt, saturating_dec; repeat case_match; simplify_eq;
    cbn [on_copies atomics store_allowed default]; rewrite ?store_ne, ?fetch_add_ne, ?store_eq by done;
    rewrite ?store_ne, ?fetch_add_ne, ?store_eq by done; done.
Qed.

Lemma window_step now e st :
  caching_allowed (apply_event now e st) = default (caching_allowed st) (window e).
Proof.
  destruct e; cbn [apply_event]; unfold remove_active_copy, store_opt; repeat case_match; done.
Qed.

(** Copies by path. *)
Definition starts (p : path) (e : TelemetryEvent) : Prop :=
  match e with CopyStarted (Some s) _ => components_of s = p | _ => False end.
Definition ends (p : path) (e : TelemetryEvent) : Prop :=
  match e with CopyComplete (Some s) | CopyFailed (Some s) => components_of s = p | _ => False end.
#[export] Instance starts_dec p e : Decision (starts p e).
Proof. destruct e as [| | | | |[]| | | | | | | | |]; cbn; apply _. Defined.
#[export] Instance ends_dec p e : Decision (ends p e).
Proof. destruct e as [| | | | | |[]|[]| | | | | | |]; cbn; apply _. Defined.

Definition untouched (p : path) (x : Z * TelemetryEvent) : Prop := ¬ starts p x.2 ∧ ¬ ends p x.2.

Definition bytes_seen (p : path) (e : TelemetryEvent) : option Z :=
  match e with
  | CopyProgressed (Some s) bc _ => if decide (components_of s = p) then bc else None
  | _ => None
  end.
Definition size_seen (p : path) (e : TelemetryEvent) : option Z :=
  match e with
  | CopyProgressed (Some s) (Some _) size => if decide (components_of s = p) then size else None
  | _ => None
  end.

Definition progressed (p : path) (e : TelemetryEvent) (cp : CopyProgress) : CopyProgress :=
  mkCopyProgress (default (cp_size_bytes cp) (size_seen p e)) (default (cp_bytes_copied cp) (bytes_seen p e))
                 (cp_started_at cp).

Lemma untouched_step p x st :
  untouched p x → active_copies (apply_event x.1 x.2 st) !! p = progressed p x.2 <$> active_copies st !! p.
Proof.
  assert (∀ o : option CopyProgress, o = (λ cp, mkCopyProgress (cp_size_bytes cp) (cp_bytes_copied cp)
                                            (cp_started_at cp)) <$> o) as Hid by (by intros [[]|]).
  destruct x as [now e]. unfold untouched, progressed. intros [Hs He].
  destruct e; cbn [apply_event fst snd starts ends bytes_seen size_seen] in *;
    unfold remove_active_copy, store_opt; repeat case_match; simplify_eq;
    cbn [on_copies active_copies store_allowed store fetch_add saturating_dec default];
    rewrite ?lookup_insert_ne, ?lookup_delete_ne, ?lookup_alter_eq, ?lookup_alter_ne by done; try apply Hid.
  done.
Qed.

Lemma start_step now s size st :
  active_copies (apply_event now (CopyStarted (Some s) size) st) !! components_of s
  = Some (mkCopyProgress (default 0 size) 0 now).
Proof. cbn. apply lookup_insert_eq. Qed.

Lemma end_step p x st : ends p x.2 → active_copies (apply_event x.1 x.2 st) !! p = None.
Proof.
  destruct x as [now e], e as [| | | | | |[s|]|[s|]| | | | | | |]; cbn; try done;
    intros <-; apply lookup_delete_eq.
Qed.
Lemma apply_all_snoc st evs x : apply_all st (evs ++ [x]) = apply_event x.1 x.2 (apply_all st evs).
Proof. unfold apply_all. by rewrite foldl_app. Qed.

Lemma gains c st evs :
  c ∈ summed → atomics st c = 0 →
  atomics (apply_all st evs) c = as_u64 (sum_Z ((λ x, gain c x.2) <$> evs)).
Proof.
  intros Hc H0. induction evs as [|x evs IH] using rev_ind; [by cbn; rewrite H0|].
  rewrite apply_all_snoc, fmap_app, sum_Z_app. cbn. rewrite Z.add_0_r. by apply gain_step.
Qed.

Lemma last_reports c st evs :
  c ∈ levels → atomics (apply_all st evs) c = default (atomics st c) (latest (reported c) evs).
Proof.
  intros Hc. induction evs as [|x evs IH] using rev_ind; [done|].
  rewrite apply_all_snoc, latest_snoc, level_step, IH by done. by destruct (reported c x.2).
Qed.

Lemma last_window st evs :
  caching_allowed (apply_all st evs) = default (caching_allowed st) (latest window evs).
Proof.
  induction evs as [|x evs IH] using rev_ind; [done|].
  rewrite apply_all_snoc, latest_snoc, window_step, IH. by destruct (window x.2).
Qed.

Lemma copy_since st l1 now s size l2 :
  Forall (untouched (components_of s)) l2 →
  active_copies (apply_all st (l1 ++ (now, CopyStarted (Some s) size) :: l2)) !! components_of s
  = Some (mkCopyProgress (default (default 0 size) (latest (size_seen (components_of s)) l2))
                         (default 0 (latest (bytes_seen (components_of s)) l2)) now).
Proof.
  induction l2 as [|x l2 IH] using rev_ind; intros Hl2.
  - rewrite apply_all_snoc. apply start_step.
  - apply Forall_app in Hl2 as [Hl2 [Hx _]%Forall_cons].
    rewrite app_comm_cons, app_assoc, apply_all_snoc, untouched_step, IH, !latest_snoc by done.
    unfold progressed. cbn. by destruct (size_seen _ _), (bytes_seen _ _).
Qed.

Lemma copy_source cfg evs p :
  is_Some (active_copies (apply_all (dashboard cfg) evs) !! p) →
  ∃ l1 now s size l2, evs = l1 ++ (now, CopyStarted (Some s) size) :: l2 ∧ components_of s = p ∧
    Forall (untouched p) l2.
Proof.
  induction evs as [|x evs IH] using rev_ind; [intros [? Hx]; done|].
  rewrite apply_all_snoc. intros Hx.
  destruct (decide (starts p x.2)) as [Hs|Hs].
  { destruct x as [now e], e as [| | | | |[s|] size| | | | | | | | |]; try done.
    exists evs, now, s, size, []. done. }
  destruct (decide (ends p x.2)) as [He|He].
  { rewrite end_step in Hx by done. by destruct Hx. }
  rewrite untouched_step, fmap_is_Some in Hx by done.
  destruct (IH Hx) as (l1 & now & s & size & l2 & -> & Hp & Hl2).
  exists l1, now, s, size, (l2 ++ [x]). rewrite <- app_assoc. split_and!; [done|done|].
  apply Forall_app. split; [done|]. by repeat constructor.
Qed.
(** *** Telemetry fields

    The fields the program's emission sites give their events: [fuse/fusefs.rs] (opens, closes),
    [fuse/read.rs] (hits, misses), [cache/io.rs] (copies, deferred count, window),
    [cache/manager.rs] (evictions), [engine/action.rs] (budget), [backing_watch.rs].  A path, and
    what else is written with [%], reaches the layer formatted. *)
Definition emitted (p : string) (e : TelemetryEvent) : option (list (string * FieldValue)) :=
  let ev name := ("event"%string, FStr name) in
  let at_path q := ("path"%string, FDebug q) in
  match e with
  | FuseOpen => Some [ev EVENT_FUSE_OPEN; at_path p]
  | CacheHit => Some [ev EVENT_CACHE_HIT; at_path p]
  | CacheMiss => Some [ev EVENT_CACHE_MISS; at_path p]
  | HandleClosed (Some b) => Some [ev EVENT_HANDLE_CLOSED; ("bytes_read"%string, FU64 b)]
  | CopyQueued => Some [ev EVENT_COPY_QUEUED; at_path p]
  | CopyStarted (Some q) (Some n) =>
      Some [ev EVENT_COPY_STARTED; at_path q; ("size_bytes"%string, FU64 n)]
  | CopyComplete (Some q) => Some [ev EVENT_COPY_COMPLETE; at_path q]
  | CopyFailed (Some q) => Some [ev EVENT_COPY_FAILED; at_path q]
  | CopyProgressed (Some q) (Some b) (Some n) =>
      Some [ev EVENT_COPY_PROGRESS; at_path q; ("bytes_copied"%string, FU64 b); ("size_bytes"%string, FU64 n)]
  | DeferredChanged (Some n) => Some [ev EVENT_DEFERRED_CHANGED; ("count"%string, FU64 n)]
  | BudgetUpdated (Some u) (Some m) =>
      Some [ev EVENT_BUDGET_UPDATED; ("used_bytes"%string, FU64 u); ("max_bytes"%string, FU64 m)]
  | CachingWindow (Some b) => Some [ev EVENT_CACHING_WINDOW; ("allowed"%string, FBool b)]
  | Eviction (Some q) (Some r) => Some [ev EVENT_EVICTION; at_path q; ("reason"%string, FStr r)]
  | BackingChanged (Some m) (Some q) (Some k) (Some a) =>
      Some [ev EVENT_BACKING_CHANGED; ("mount_id"%string, FDebug m); at_path q;
            ("kind"%string, FDebug k); ("action"%string, FDebug a)]
  | _ => None
  end.

(** Text that neither starts nor ends with a quote. *)
Definition unquoted (s : string) : Prop :=
  String.get 0 s ≠ Some quote ∧ String.get (String.length s - 1) s ≠ Some quote.

Definition formatted (e : TelemetryEvent) : list string :=
  match e with
  | CopyStarted p _ | CopyComplete p | CopyFailed p | CopyProgressed p _ _ | Eviction p _ => option_list p
  | BackingChanged m p k a => option_list m ++ option_list p ++ option_list k ++ option_list a
  | _ => []
  end.

Lemma trim_end_id c s : String.get (String.length s - 1) s ≠ Some c → trim_end_matches c s = s.
Proof.
  induction s as [|d s IH]; [done|]. cbn [trim_end_matches String.length].
  replace (S (String.length s) - 1)%nat with (String.length s) by lia. intros Hg.
  destruct s as [|d' s].
  - cbn in *. rewrite decide_False by congruence. done.
  - rewrite IH; [done|]. cbn [String.length] in *.
    by replace (S (String.length s) - 1)%nat with (String.length s) by lia.
Qed.

Lemma trim_quotes_id s :
  unquoted s → trim_end_matches quote (Instance.trim_start_matches quote s) = s.
Proof.
  intros [Hs He]. assert (Instance.trim_start_matches quote s = s) as ->; [|by apply trim_end_id].
  destruct s as [|c s]; [done|]. simpl in *. by rewrite decide_False by congruence.
Qed.

(** Fields the layer keeps for the log line or not at all, whatever else an event carries. *)
Definition other_field (f : string * FieldValue) : Prop :=
  f.1 ∉ ["event"; "path"; "reason"; "kind"; "action"; "mount_id"; "bytes_read"; "bytes_copied"; "size_bytes";
         "used_bytes"; "max_bytes"; "count"; "allowed"]%string.

Definition with_message (m : option string) (v : Visitor) : Visitor :=
  let '(mkVisitor e _ p r k a mid br bc sb ub mb c al) := v in mkVisitor e m p r k a mid br bc sb ub mb c al.

Lemma record_other v f : other_field f → ∃ m, record v f = with_message m v.
Proof.
  intros Hf. unfold other_field in Hf. rewrite !not_elem_of_cons in Hf. destruct_and! Hf.
  destruct v, f as [n [s|z|b|s]]; cbn [fst] in *; unfold record, record_debug, set_text, record_u64, record_bool;
    cbn [fst snd]; repeat case_decide; try done; eexists; reflexivity.
Qed.

Lemma record_message v f m : ∃ m', record (with_message m v) f = with_message m' (record v f).
Proof.
  destruct v, f as [n [s|z|b|s]]; unfold record, record_debug, set_text, record_u64, record_bool, with_message;
    cbn [fst snd]; repeat case_decide; eexists; reflexivity.
Qed.

Lemma visit_message fs v m : ∃ m', foldl record (with_message m v) fs = with_message m' (foldl record v fs).
Proof.
  revert v m. induction fs as [|f fs IH]; intros v m; [by exists m|]. cbn [foldl].
  destruct (record_message v f m) as [m' ->]. apply IH.
Qed.

Lemma visit_others fs v : Forall other_field fs → ∃ m, foldl record v fs = with_message m v.
Proof.
  intros Hfs. revert v. induction Hfs as [|f fs Hf _ IH]; intros v; [exists (v_message v); by destruct v|].
  cbn [foldl]. destruct (record_other v f Hf) as [m ->].
  destruct (visit_message fs v m) as [m' ->]. destruct (IH v) as [m'' ->]. exists m'. by destruct v.
Qed.

Lemma visit_amid pre fs post :
  Forall other_field pre → Forall other_field post →
  ∃ m, visit (pre ++ fs ++ post) = with_message m (visit fs).
Proof.
  intros Hpre Hpost. unfold visit. rewrite !foldl_app.
  destruct (visit_others pre no_fields Hpre) as [m1 ->].
  destruct (visit_message fs no_fields m1) as [m2 ->].
  destruct (visit_others post (with_message m2 (foldl record no_fields fs)) Hpost) as [m3 ->].
  exists m3. by destruct (foldl record no_fields fs).
Qed.
(** *** Connections *)
Definition bus_of (inputs : list ClientInput) : list DaemonMessage :=
  omap (λ i, match i with FromBus m => Some m | _ => None end) inputs.

(** What leaves the handler running. *)
Definition ordinary (i : ClientInput) : Prop :=
  match i with
  | FromBus m => m ≠ Goodbye
  | Lagged _ => True
  | FromClient _ (Msg m) => m ≠ Shutdown
  | Closed | FromClient _ _ => False
  end.

Lemma send_all ms out :
  foldl (λ c m, send_msg (λ _, true) m c) (mkConn out true) ms = mkConn (out ++ ms) true.
Proof.
  revert out. induction ms as [|m ms IH]; intros out; [by rewrite app_nil_r|].
  cbn [foldl]. unfold send_msg at 2. cbn [open_ written]. rewrite IH. by rewrite <- app_assoc.
Qed.

Lemma greeting hello recent s :
  greet (λ _, true) hello recent s
  = mkConn (Hello hello :: (Log <$> recent) ++ [status_message (d_ctl s)]) true.
Proof. unfold greet. by rewrite send_all. Qed.

Lemma relayed cwd s out inputs :
  Forall ordinary inputs →
  (foldl (client_step cwd (λ _, true)) (s, mkConn out true) inputs).2
  = mkConn (out ++ bus_of inputs) true.
Proof.
  intros Hin. revert s out. induction Hin as [|i l Hi _ IH]; intros s out; [by rewrite app_nil_r|].
  cbn [foldl]. destruct i as [m| | |now [m| |]]; simpl in Hi; try done.
  - change (bus_of (FromBus m :: l)) with (m :: bus_of l). rewrite cons_middle, app_assoc, <- (IH s).
    by destruct m.
  - apply IH.
  - change (bus_of (FromClient now (Msg m) :: l)) with (bus_of l).
    destruct m; try done; cbn [client_step open_ handle_message]; apply IH.
Qed.

(** *** Evictions by command *)
Lemma split_join l : l ≠ [] → Forall plain l → split slash (join "/" l) = l.
Proof.
  intros Hl Hp. induction Hp as [|x l Hx Hp IH]; [done|]. destruct l as [|y l].
  - apply split_none, Hx.
  - change (join "/" (x :: y :: l)) with (x ++ String slash (join "/" (y :: l)))%string.
    rewrite split_app by apply Hx. by rewrite IH.
Qed.

Lemma components_pieces l :
  Forall plain l → filter (λ c, c ≠ "" ∧ c ≠ ".")%string l = l.
Proof.
  induction 1 as [|x l Hx _ IH]; [done|]. rewrite filter_cons_True, IH; [done|]. by destruct Hx as (_ & ? & ? & _).
Qed.

Lemma components_relative l : Forall plain l → components_of (relative_text l) = l.
Proof.
  intros Hl. destruct (decide (l = [])) as [->|Hne]; [done|].
  unfold components_of, relative_text. by rewrite split_join, components_pieces.
Qed.

Lemma components_absolute l : Forall plain l → components_of (absolute_text l) = l.
Proof.
  intros Hl. rewrite <- (components_relative l) at 2 by done. reflexivity.
Qed.

Definition target_of (k : path * path) : FileTarget := mkFileTarget (relative_text k.2) (absolute_text k.1).

(** A key of the database: a mount's cache directory and a file below it. *)
Definition key_ok (k : path * path) : Prop := k.1 ≠ [] ∧ k.2 ≠ [] ∧ Forall plain (k.1 ++ k.2).

Lemma target_key k : key_ok k → row_key (target_of k) = Some (k.2, k.1).
Proof.
  intros (_ & _ & [Hm Hr]%Forall_app). unfold row_key, target_of. cbn [ft_rel_path ft_mount_id].
  rewrite components_relative, components_absolute by done. by rewrite decide_True.
Qed.

Lemma plain_not_absolute x s : plain x → is_absolute (x ++ s) = false.
Proof.
  intros (Hx & Hne & _). destruct x as [|c x]; [done|]. apply andb_true_iff in Hx as [Hx _].
  rewrite negb_true_iff, bool_decide_eq_false in Hx. unfold is_absolute.
  change (String c x ++ s)%string with (String c (x ++ s)). unfold String.prefix.
  destruct (ascii_dec "/" c); [by subst|done].
Qed.

Lemma relative_not_absolute l : l ≠ [] → Forall plain l → is_absolute (relative_text l) = false.
Proof.
  intros Hl Hp. destruct Hp as [|x l Hx _]; [done|]. unfold relative_text. destruct l as [|y l].
  - rewrite <- (string_app_nil (join "/" [x])). by apply plain_not_absolute.
  - by apply plain_not_absolute.
Qed.

Lemma ends_in_app c a b : b ≠ ""%string → ends_in c (a ++ b) = ends_in c b.
Proof.
  intros Hb. induction a as [|d a IH]; [done|]. change (String d a ++ b)%string with (String d (a ++ b)).
  cbn [ends_in]. rewrite IH. destruct (a ++ b)%string eqn:E; [|done].
  destruct a; [by subst|done].
Qed.

Lemma plain_end x : plain x → ends_in slash x = false.
Proof.
  intros (Hx & _). induction x as [|c x IH]; [done|]. apply andb_true_iff in Hx as [Hc Hx].
  rewrite negb_true_iff in Hc. cbn [ends_in]. destruct x; [done|]. by apply IH.
Qed.

Lemma join_end l : Forall plain l → ends_in slash (join "/" l) = false.
Proof.
  induction 1 as [|x l Hx Hl IH]; [done|]. destruct l as [|y l]; [by apply plain_end|].
  change (join "/" (x :: y :: l)) with (x ++ String slash (join "/" (y :: l)))%string.
  rewrite ends_in_app by done. cbn [ends_in]. inversion Hl as [|? ? Hy]. subst.
  destruct (join "/" (y :: l)) eqn:E; [|done].
  destruct Hy as (_ & Hy & _), y; [done|]. by destruct l.
Qed.

Lemma join_app l k : l ≠ [] → k ≠ [] → join "/" (l ++ k) = (join "/" l ++ "/" ++ join "/" k)%string.
Proof.
  intros Hl Hk. induction l as [|x l IH]; [done|]. destruct l as [|y l].
  - destruct k; done.
  - change (x ++ "/" ++ join "/" ((y :: l) ++ k) = (x ++ "/" ++ join "/" (y :: l)) ++ "/" ++ join "/" k)%string.
    by rewrite IH, !string_app_assoc.
Qed.

Lemma push_text_key k :
  key_ok k → push_text (absolute_text k.1) (relative_text k.2) = absolute_text (k.1 ++ k.2).
Proof.
  intros (Hm & Hr & [Hpm Hpr]%Forall_app). unfold push_text.
  rewrite relative_not_absolute by done. cbn [orb].
  assert (absolute_text k.1 ≠ ""%string) by done.
  rewrite bool_decide_false by done. unfold absolute_text.
  assert (join "/" k.1 ≠ ""%string) as Hj.
  { destruct Hpm as [|x l (Hx & Hne & _)]; [done|]. destruct x as [|c x]; [done|]. by destruct l. }
  rewrite ends_in_app, join_end by done. unfold relative_text. by rewrite join_app, string_app_assoc.
Qed.

Lemma walk_plain d cur pieces p :
  Forall plain pieces → walk d cur pieces = Some p → p = cur ++ pieces.
Proof.
  intros Hp. revert cur. induction Hp as [|x l (_ & ? & ? & ?) _ IH]; intros cur; cbn [walk].
  - intros [= <-]. by rewrite app_nil_r.
  - destruct (Disk.is_dir d cur); [|done]. rewrite decide_False by naive_solver.
    rewrite decide_False by done. intros ->%IH. by rewrite <- app_assoc.
Qed.

Lemma walk_reaches d cur pieces n :
  Disk.wf d → Forall plain pieces → Disk.is_dir d cur = true → nodes d !! (cur ++ pieces) = Some n →
  walk d cur pieces = Some (cur ++ pieces).
Proof.
  intros Hwf Hp. revert cur. induction Hp as [|x l (_ & ? & ? & ?) _ IH]; intros cur Hd Hn; cbn [walk].
  - by rewrite app_nil_r.
  - rewrite Hd, decide_False, decide_False by naive_solver.
    rewrite (cons_middle x cur l), app_assoc in Hn |- *. destruct l as [|y l].
    + by rewrite app_nil_r.
    + apply IH; [|done]. apply is_dir_snoc. rewrite <- app_assoc in Hn. by apply (wf_ancestor d cur x (y :: l) n).
Qed.

Lemma absolute_is_absolute p : is_absolute (absolute_text p) = true.
Proof. unfold is_absolute, absolute_text. simpl. by destruct (_ +:+ join "/" p)%string. Qed.

Lemma evict_file_key cwd k s :
  Disk.wf (d_disk s) → key_ok k →
  evict_file cwd (target_of k) s =
    match Disk.remove_file (d_disk s) (k.1 ++ k.2) with
    | Err _ => s
    | Ok d => mkDaemonState d (on_row CacheDb.remove (target_of k) (d_ctl s)) (d_cancelled s)
                (d_sent s ++ [Eviction (Some (absolute_text (k.1 ++ k.2))) (Some "manual"%string)])
    end.
Proof.
  intros Hwf Hk. unfold evict_file. cbn [target_of ft_mount_id ft_rel_path].
  rewrite push_text_key by done. destruct Hk as (Hm & Hr & Hp).
  set (p := k.1 ++ k.2) in *.
  assert (p ≠ []) as Hne by (by intros [? _]%app_eq_nil).
  rewrite absolute_is_absolute. cbn iota.
  change (split slash (absolute_text p)) with (""%string :: split slash (join "/" p)).
  rewrite split_join by done. cbn [walk]. change (Disk.is_dir (d_disk s) []) with true. cbn iota.
  rewrite decide_True by auto. destruct (walk (d_disk s) [] p) as [q|] eqn:Hq.
  - by apply walk_plain in Hq as ->.
  - unfold Disk.remove_file. destruct (nodes (d_disk s) !! p) as [n|] eqn:Hn; [|done].
    by rewrite (walk_reaches (d_disk s) [] p n) in Hq.
Qed.

(** A key whose file can be deleted, among those asked for. *)
Definition deletable (d : Disk) (p : path) : Prop := is_file d p ∧ p ∉ undeletable d.
Definition removed (d : Disk) (ks : list (path * path)) (k : path * path) : Prop :=
  k ∈ ks ∧ deletable d (k.1 ++ k.2).

Definition files_of (s : DaemonState) : gmap (path * path) FileRow := cache_files (tables (disc_db (d_ctl s))).
Definition db_writable (s : DaemonState) : Prop := query_only (pragmas (disc_db (d_ctl s))) = false.

(** Only the keys [ks] that are removed change, in both places. *)
Definition evicts (ks : list (path * path)) (s s' : DaemonState) : Prop :=
  (∀ k, removed (d_disk s) ks k → nodes (d_disk s') !! (k.1 ++ k.2) = None ∧ files_of s' !! (k.2, k.1) = None) ∧
  (∀ p, (∀ k, removed (d_disk s) ks k → k.1 ++ k.2 ≠ p) → nodes (d_disk s') !! p = nodes (d_disk s) !! p) ∧
  (∀ k, ¬ removed (d_disk s) ks k → files_of s' !! (k.2, k.1) = files_of s !! (k.2, k.1)).

Definition key_inj (ks : list (path * path)) : Prop :=
  ∀ k k', k ∈ ks → k' ∈ ks → k.1 ++ k.2 = k'.1 ++ k'.2 → k = k'.

Definition without (d : Disk) (p : path) : Disk := mkDisk (delete p (nodes d)) (undeletable d).

Lemma removed_rest d k ks k' :
  removed (without d (k.1 ++ k.2)) ks k' → removed d (k :: ks) k' ∧ k' ≠ k.
Proof.
  intros [Hin [[f Hf'] Hu']]. cbn in Hf', Hu'. apply lookup_delete_Some in Hf' as [Hne Hf'].
  split; [|by intros ->]. split; [by right|]. split; [by exists f|done].
Qed.

Lemma removed_split d k ks :
  key_inj (k :: ks) → ∀ k', removed d (k :: ks) k' → k' = k ∨ removed (without d (k.1 ++ k.2)) ks k'.
Proof.
  intros Hinj k' [Hin [[f Hf'] Hu']]. destruct (decide (k' = k)) as [?|Hne]; [by left|right].
  apply elem_of_cons in Hin as [?|Hin]; [done|]. split; [done|]. split; [|done].
  exists f. cbn. rewrite lookup_delete_ne; [done|]. intros Heq. apply Hne.
  apply Hinj; [by right|by left|done].
Qed.

Lemma evict_one_spec cwd k ks s :
  Disk.wf (d_disk s) → db_writable s → key_ok k → key_inj (k :: ks) →
  let s1 := evict_file cwd (target_of k) s in
  Disk.wf (d_disk s1) ∧ db_writable s1 ∧
  (∀ s2, evicts ks s1 s2 → evicts (k :: ks) s s2).
Proof.
  intros Hwf Hdb Hk Hinj. cbn zeta. rewrite evict_file_key by done.
  destruct (Disk.remove_file (d_disk s) (k.1 ++ k.2)) as [d|err] eqn:Hrm.
  - assert (Disk.wf d) by (by eapply wf_remove_file).
    apply remove_file_Ok in Hrm as (Hf & Hu & ->).
    unfold on_row. rewrite target_key by done.
    split; [done|]. split; [unfold db_writable, CacheDb.remove; cbn [d_ctl disc_db]; by rewrite DbFacts.query_only_execute|].
    intros s2 (H1 & H2 & H3). unfold files_of at 2 in H3. cbn [d_ctl disc_db d_disk] in *.
    unfold CacheDb.remove in H3. rewrite DbFacts.execute_writable in H3 by done.
    cbn [CacheDb.on_files cache_files] in H3. fold (files_of s) in H3.
    set (d1 := mkDisk _ _) in *.
    assert (Hsub := removed_rest (d_disk s) k ks). assert (Hsup := removed_split (d_disk s) k ks Hinj).
    fold d1 in Hsub, Hsup.
    assert (¬ removed d1 ks k) as Hgone by (by intros [_ ?]%Hsub).
    split_and!.
    + intros k' [->|Hk']%Hsup; [|by apply H1]. split.
      * rewrite H2; [apply lookup_delete_eq|]. intros k'' [_ [[f Hf'] _]] Heq.
        cbn in Hf'. by rewrite Heq, lookup_delete_eq in Hf'.
      * rewrite H3 by done. apply lookup_delete_eq.
    + intros p Hp. rewrite H2 by (intros k' [? _]%Hsub; by apply Hp). cbn.
      apply lookup_delete_ne, Hp. split; [by left|done].
    + intros k' Hk'. rewrite H3 by (by intros [? _]%Hsub). apply lookup_delete_ne.
      intros [= ??]. apply Hk'. destruct k, k'; cbn in *; subst. split; [by left|done].
  - split; [done|]. split; [done|].
    assert (∀ k', removed (d_disk s) (k :: ks) k' ↔ removed (d_disk s) ks k') as Heq.
    { intros k'. split; intros [Hin Hd]; (split; [|done]); [|by right].
      apply elem_of_cons in Hin as [->|?]; [|done]. destruct Hd as [Hf Hu]. exfalso.
      assert (Disk.remove_file (d_disk s) (k.1 ++ k.2) = Ok (mkDisk (delete (k.1 ++ k.2) (nodes (d_disk s)))
                (undeletable (d_disk s)))) as Hrm' by (by apply remove_file_Ok). congruence. }
    intros s2 (H1 & H2 & H3). split_and!.
    + intros k' Hk'%Heq. by apply H1.
    + intros p Hp. apply H2. intros k' ?%Heq. by apply Hp.
    + intros k' Hk'. apply H3. by intros ?%Heq.
Qed.

Lemma evicts_nothing s : evicts [] s s.
Proof. split_and!; [|done|done]. by intros k [?%elem_of_nil _]. Qed.

Lemma evict_all cwd ks s :
  Disk.wf (d_disk s) → db_writable s → Forall key_ok ks → key_inj ks →
  let s' := foldl (λ s t, evict_file cwd t s) s (target_of <$> ks) in
  evicts ks s s' ∧ Disk.wf (d_disk s').
Proof.
  cbn zeta. revert s. induction ks as [|k ks IH]; intros s Hwf Hdb Hks Hinj.
  - split; [apply evicts_nothing|done].
  - apply Forall_cons in Hks as [Hk Hks]. cbn [fmap list_fmap foldl].
    destruct (evict_one_spec cwd k ks s) as (Hwf1 & Hdb1 & Hev); [done..|].
    destruct (IH (evict_file cwd (target_of k) s)) as [He Hwf2]; [done..| |by split; [apply Hev|]].
    intros k1 k2 ??. apply Hinj; by right.
Qed.
End IpcFacts.

(** ** What the parts guarantee *)
Module IpcTheorems.
Import Ipc IpcFacts.

(** A dashboard that attaches shows the log as far as the two buffers reach: it is greeted
    with the instance, then the last 100 log lines of everything sent before it attached, then the
    discovery status, and after that it is relayed every message it does not lag behind, whatever
    commands it sends meanwhile.  The greeting is accepted, and the panel ends up with the last 200
    of the replayed and the live lines, in order. *)
Theorem attached_client_sees_the_log cwd hello config hist inputs s ms :
  Forall ordinary inputs →
  ms.*2 = written (handle_client cwd (λ _, true) hello (foldl recent_logs_task [] hist) s inputs).2 →
  let replay := keep_last RECENT_LOG_CAP (logs_of hist) in
  ms.*2 = Hello hello :: (Log <$> replay) ++ [status_message (d_ctl s)] ++ bus_of inputs ∧
  connect (message <$> ms) = Ok (hello, message <$> tail ms) ∧
  recent_logs (run_client_stream (message <$> tail ms) (dashboard config)).1
  = keep_last 200 (replay ++ logs_of (bus_of inputs)).
Proof.
  intros Hin Hms replay. unfold handle_client in Hms.
  rewrite recent_task_fold, (push_ring_fold _ []) in Hms by (unfold RECENT_LOG_CAP; lia).
  rewrite greeting, relayed in Hms by done. cbn [written] in Hms. fold replay in Hms.
  rewrite <- app_comm_cons, <- app_assoc in Hms. split; [done|].
  destruct ms as [|[now m] ms]; [done|]. cbn [fmap list_fmap snd] in Hms.
  injection Hms as -> Hms. split; [done|]. cbn [tail].
  rewrite run_client_messages.
  - cbn [fst]. rewrite on_messages_logs. change (recent_logs (dashboard config)) with (keep_last 200 (@nil LogLine)).
    rewrite push_ring_fold by lia. f_equal. rewrite Hms, !logs_of_app, logs_of_logs.
    unfold status_message. by destruct (Discovery.status (d_ctl s)).
  - apply (Forall_fmap snd (λ m, m ≠ Goodbye)). rewrite Hms, Forall_app, Forall_cons. split_and!.
    + apply Forall_fmap, Forall_true. done.
    + unfold status_message. by destruct (Discovery.status (d_ctl s)).
    + apply Forall_forall. intros m (i & Hi & Him)%list_elem_of_omap.
      apply (proj1 (Forall_forall _ _) Hin) in Hi. by destruct i; simplify_eq.
Qed.

(** C17.  The dashboard is a function of the events received so far, whatever log lines come
    between them: each counter of opens, hits, misses, bytes, finished copies, evictions and watch
    events is the sum over the events modulo 2^64; the open handles and the jobs in flight are the
    greatest surplus of beginnings over endings in a suffix of the stream (so never below the
    true surplus since the client attached); the deferred count and the budget are what was
    reported last; and a copy is shown exactly while its last start has not been followed by its
    completion or failure, with the last progress reported since. *)
Theorem dashboard_mirrors_the_daemon cfg ms :
  Forall (λ x, x.2 ≠ Goodbye) ms → Z.of_nat (length (events_of ms)) < 2 ^ 64 →
  let evs := events_of ms in
  let st := (run_client_stream (message <$> ms) (dashboard cfg)).1 in
  (∀ c, c ∈ summed → atomics st c = as_u64 (sum_Z ((λ x, gain c x.2) <$> evs))) ∧
  (∀ c, c ∈ gauges → backlog c evs (atomics st c)) ∧
  (∀ c, c ∈ levels → atomics st c = default (atomics (dashboard cfg) c) (latest (reported c) evs)) ∧
  caching_allowed st = default false (latest window evs) ∧
  (∀ p, is_Some (active_copies st !! p) ↔
     ∃ l1 now s size l2, evs = l1 ++ (now, CopyStarted (Some s) size) :: l2 ∧ components_of s = p ∧
       Forall (untouched p) l2) ∧
  (∀ l1 now s size l2, evs = l1 ++ (now, CopyStarted (Some s) size) :: l2 →
     Forall (untouched (components_of s)) l2 →
     active_copies st !! components_of s
     = Some (mkCopyProgress (default (default 0 size) (latest (size_seen (components_of s)) l2))
                            (default 0 (latest (bytes_seen (components_of s)) l2)) now)).
Proof.
  intros Hms Hlen evs st. unfold st. rewrite run_client_messages by done. cbn [fst].
  destruct (messages_events ms (dashboard cfg)) as [l ->]. fold evs.
  cbn [set_logs atomics caching_allowed active_copies]. split_and!.
  - intros c Hc. apply gains; [done|]. unfold summed in Hc.
    rewrite !elem_of_cons, elem_of_nil in Hc. by destruct_or! Hc; subst c.
  - intros c Hc. by apply gauge_backlog.
  - intros c. apply last_reports.
  - apply last_window.
  - intros p. split; [apply copy_source|]. intros (l1 & now & s & size & l2 & -> & <- & Hl2).
    rewrite copy_since by done. done.
  - intros l1 now s size l2 -> Hl2. by apply copy_since.
Qed.

(** C26.  Telemetry survives the tracing layer: for every event the program emits, the fields of
    its emission site are turned back into that event, among whatever other fields (the message
    included) the site has, at every log level; the event is sent once and before the log line.
    The texts that are formatted must not begin or end with a quote, which the layer strips. *)
Theorem telemetry_roundtrip log_level now level p e fields pre post :
  emitted p e = Some fields → Forall unquoted (formatted e) →
  Forall other_field pre → Forall other_field post →
  ∃ logs, on_event log_level now level (pre ++ fields ++ post) = Event e :: logs ∧
    Forall (λ m, ∃ l, m = Log l) logs ∧
    (logs = [] ↔ verbosity log_level < verbosity level).
Proof.
  intros He Hq Hpre Hpost. unfold on_event.
  destruct (visit_amid pre fields post Hpre Hpost) as [m ->].
  assert (telemetry_msg (with_message m (visit fields)) = Some e) as ->.
  { destruct e; simpl in He; repeat (case_match; simplify_eq); simplify_eq; simpl in Hq; decompose_Forall;
      unfold visit; cbn [foldl record fst snd]; unfold record_debug; rewrite ?trim_quotes_id by done;
      reflexivity. }
  eexists. split; [reflexivity|]. destruct (verbosity level <=? verbosity log_level) eqn:E.
  - split; [by repeat econstructor|]. apply Z.leb_le in E. split; [done|lia].
  - split; [constructor|]. apply Z.leb_gt in E. done.
Qed.

(** ** Witnesses *)
Definition some_hello : HelloPayload :=
  mkHelloPayload "1.0" "tv" [mkMountInfoWire "/media" ["c"]%string true] ["db"]%string
    (Config.from_raw (ConfigTheorems.minimal "tv")).
Definition some_state (d : Disk) (db : CacheDb) : DaemonState :=
  mkDaemonState d (Discovery.new db) false [].
Definition line (m : string) : LogLine := mkLogLine "10:00" "INFO " m.

Lemma attached_client_sees_the_log_witness :
  let inputs := [FromBus (Log (line "b")); FromClient 5 (Msg DiscoveryStart); Lagged 3; FromBus (Event CacheHit)] in
  let s := some_state DbWitnesses.some_disk DbWitnesses.fresh_db in
  let sent := written (handle_client [] (λ _, true) some_hello
                (foldl recent_logs_task [] [Log (line "a"); Event FuseOpen]) s inputs).2 in
  recent_logs (run_client_stream (message <$> tail (pair 7 <$> sent)) (dashboard (h_config some_hello))).1
  = [line "a"; line "b"].
Proof.
  intros inputs s sent.
  destruct (attached_client_sees_the_log [] some_hello (h_config some_hello) [Log (line "a"); Event FuseOpen]
    inputs s (pair 7 <$> sent)) as (_ & _ & ->).
  - by unfold inputs; rewrite !Forall_cons; cbn; split_and!.
  - unfold sent. rewrite <- list_fmap_compose. apply list_fmap_id.
  - vm_compute. reflexivity.
Defined.

Definition some_stream : list (Z * DaemonMessage) :=
  [(0, Event FuseOpen); (1, Log (line "x")); (2, Event (CopyStarted (Some "m/a"%string) (Some 10)));
   (3, Event (CopyProgressed (Some "m/a"%string) (Some 4) None))].

Lemma dashboard_mirrors_the_daemon_witness :
  active_copies (run_client_stream (message <$> some_stream) (dashboard (h_config some_hello))).1
    !! ["m"; "a"]%string = Some (mkCopyProgress 10 4 2).
Proof.
  destruct (dashboard_mirrors_the_daemon (h_config some_hello) some_stream) as (_ & _ & _ & _ & _ & Hcp).
  - by unfold some_stream; rewrite !Forall_cons; cbn; split_and!.
  - done.
  - apply (Hcp [(0, FuseOpen)] 2 "m/a"%string (Some 10)
             [(3, CopyProgressed (Some "m/a"%string) (Some 4) None)]); [done|].
    constructor; [by split; intros []|constructor].
Defined.

Lemma telemetry_roundtrip_witness :
  ∃ logs, on_event INFO "10:00" INFO
    [("event"%string, FStr EVENT_COPY_STARTED); ("path"%string, FDebug "Show/e1.mkv");
     ("size_bytes"%string, FU64 10); ("message"%string, FDebug "caching Show/e1.mkv")]
  = Event (CopyStarted (Some "Show/e1.mkv"%string) (Some 10)) :: logs ∧ logs ≠ [].
Proof.
  destruct (telemetry_roundtrip INFO "10:00" INFO "" (CopyStarted (Some "Show/e1.mkv"%string) (Some 10))
    [("event"%string, FStr EVENT_COPY_STARTED); ("path"%string, FDebug "Show/e1.mkv"); ("size_bytes"%string, FU64 10)]
    [] [("message"%string, FDebug "caching Show/e1.mkv")]) as (logs & Hl & _ & Hn).
  - done.
  - cbn. by constructor.
  - constructor.
  - constructor; [by unfold other_field; rewrite !not_elem_of_cons; split_and!; try apply not_elem_of_nil|constructor].
  - exists logs. split; [exact Hl|]. intros He. by apply Hn in He.
Defined.
End IpcTheorems.
