(* ===== verification/Telemetry.v ===== *)
(** * What the dashboard knows of a mount

    The telemetry of the handlers of [src/fuse/fusefs.rs] and [src/fuse/read.rs], followed through
    the tracing layer to the counters of a dashboard.  The debug text of a path ([{:?}]) is a
    parameter.  Of the log lines that carry no telemetry only those of [log_open_outcome] are kept. *)
From stdpp Require Import pretty.
From S2P Require Import Prelude Paths Backing Disk Db Manager CacheIo Preset Engine Inode Fuse FuseSpec.
From S2P Require Import Discovery Config Ipc.

(** A tracing event: its level and its fields. *)
Abbreviation Emission := (Level * list (string * FieldValue))%type.

Module Telemetry.
Import Text FsCache Ipc.
Section emissions.
Context {W : Type} `{MapOrder} (sys : syscall → State W reply) (self : FsConfig) (debug_str : string → string).
Implicit Types st : FsState W.

Definition text (s : string) : string * FieldValue := ("message"%string, FDebug s).
Definition at_path (p : path) : string * FieldValue := ("path"%string, FDebug (relative_text p)).

Definition log_open_outcome (p : path) (opener : option string) (pid : Z) (outcome : OpenOutcome)
    (suppress : bool) : Emission :=
  let opener := default "?"%string opener in
  let asker := (" [opener: " ++ opener ++ " pid=" ++ pretty pid ++ "]")%string in
  let path := debug_str (relative_text p) in
  match outcome with
  | OpenHit =>
      (INFO, [text ("cache HIT: " ++ path ++ " (serving from SSD)"); ("event"%string, FStr EVENT_CACHE_HIT); at_path p])
  | OpenFiltered =>
      (INFO, [text ("ignored process access: " ++ path ++ " (filtered by preset, not caching)" ++ asker)])
  | OpenMiss =>
      (if suppress then DEBUG else INFO,
       [text ("cache MISS: " ++ path ++ " (serving from backing store)" ++ asker);
        ("event"%string, FStr EVENT_CACHE_MISS); at_path p])
  end.

Definition fuse_open (p : path) : Emission :=
  (DEBUG, [text "fuse open"; ("event"%string, FStr EVENT_FUSE_OPEN); at_path p]).

(** What [open] emits: the event of the attempt, before it is known how it ends, and its outcome. *)
Definition open_emissions (amb : Ambient) (ino flags : Z) st : list Emission :=
  match path_for_ino ino st with
  | (Val p, st) =>
      if is_write_intent flags then []
      else
        match should_suppress_log self (mono amb) p st with
        | (Val suppress, st) =>
            let process := ProcessInfo.capture (proc amb) (req_pid (requester amb)) in
            let filtered := match fs_preset self with
                            | Some preset => Preset.should_filter preset process
                            | None => false
                            end in
            let opener := match fs_preset self with Some _ => Preset.name process | None => None end in
            fuse_open p ::
            match try_open sys self (wall amb).1 p filtered st with
            | (Val (_, outcome), _) => [log_open_outcome p opener (req_pid (requester amb)) outcome suppress]
            | _ => []
            end
        | _ => []
        end
  | _ => []
  end.

Definition release_emissions (fh : Z) st : list Emission :=
  match write_paths st !! fh with
  | Some write_path => [(DEBUG, [text "write passthrough handle closed"; at_path write_path])]
  | None =>
      [(DEBUG, [text "handle closed"; ("event"%string, FStr EVENT_HANDLE_CLOSED);
                ("bytes_read"%string, FU64 (default 0 (open_bytes st !! fh)))])]
  end.

(** The other handlers carry no telemetry. *)
Definition emissions (amb : Ambient) (rq : FsRequest) st : list Emission :=
  match rq with
  | OpenFile ino flags => open_emissions amb ino flags st
  | Release fh => release_emissions fh st
  | _ => []
  end.

(** What a daemon that serves the requests sends to its clients. *)
Fixpoint broadcast (log_level : Level) (timestamp : string) (amb : Ambient) (rqs : list FsRequest) st :
    list DaemonMessage :=
  match rqs with
  | [] => []
  | rq :: rqs' =>
      (emissions amb rq st ≫= λ em, on_event log_level timestamp em.1 em.2)
      ++ broadcast log_level timestamp amb rqs' (serve sys self amb rq st).2
  end.
End emissions.
End Telemetry.

(** ** Counters of a dashboard *)
Module Counters.
Import Ipc IpcFacts.

(** A gauge that starts at [n] and is never taken below zero. *)
Fixpoint floats (c : Counter) (n : Z) (evs : list TelemetryEvent) : Prop :=
  0 <= n ∧ match evs with [] => True | e :: evs => floats c (n + delta c e) evs end.

Definition change (c : Counter) (evs : list TelemetryEvent) : Z := sum_Z (delta c <$> evs).
Definition rises (c : Counter) (evs : list TelemetryEvent) : Z := sum_Z ((λ e, Z.max 0 (delta c e)) <$> evs).
Definition gained (c : Counter) (evs : list TelemetryEvent) : Z := sum_Z (gain c <$> evs).

Lemma change_app c l k : change c (l ++ k) = change c l + change c k.
Proof. unfold change. by rewrite fmap_app, sum_Z_app. Qed.

Lemma gained_app c l k : gained c (l ++ k) = gained c l + gained c k.
Proof. unfold gained. by rewrite fmap_app, sum_Z_app. Qed.

Lemma rises_app c l k : rises c (l ++ k) = rises c l + rises c k.
Proof. unfold rises. by rewrite fmap_app, sum_Z_app. Qed.

Lemma rises_bound c evs : 0 <= rises c evs <= Z.of_nat (length evs).
Proof.
  induction evs as [|e evs IH]; [done|]. unfold rises in *. cbn [fmap list_fmap length]. rewrite sum_Z_cons.
  pose proof (delta_bound c e). lia.
Qed.

Lemma floats_app c n l k : floats c n l → floats c (n + change c l) k → floats c n (l ++ k).
Proof.
  revert n. induction l as [|e l IH]; intros n; simpl.
  - by rewrite Z.add_0_r.
  - intros [? Hl] Hk. split; [done|]. apply IH; [done|]. by rewrite <- Z.add_assoc.
Qed.

Lemma gained_nonneg c evs : c ∈ summed → c ≠ bytes_read → 0 <= gained c evs.
Proof.
  intros Hc Hne. apply sum_Z_nonneg, Forall_forall. intros z (e & -> & _)%list_elem_of_fmap.
  unfold summed in Hc. rewrite !elem_of_cons, elem_of_nil in Hc.
  destruct_or! Hc; subst c; try done; destruct e; cbn; repeat case_decide; lia.
Qed.

Lemma rises_opens evs : rises open_handles evs = gained fuse_opens evs.
Proof. unfold rises, gained. f_equal. apply list_fmap_ext. by intros i [] _. Qed.

(** A gauge that is never taken below zero ends where its changes lead. *)
Lemma gauge_floats c evs d :
  c ∈ gauges → floats c (atomics d c) evs.*2 → atomics d c + rises c evs.*2 < 2 ^ 64 - 1 →
  atomics (apply_all d evs) c = atomics d c + change c evs.*2.
Proof.
  intros Hc. revert d. induction evs as [|[t e] evs IH]; intros d; cbn [fmap list_fmap fst snd].
  { unfold change. cbn. lia. }
  intros [Hnn Hf] Hlt. change (apply_all d ((t, e) :: evs)) with (apply_all (apply_event t e d) evs).
  assert (Hs : change c (e :: evs.*2) = delta c e + change c evs.*2) by done.
  assert (Hr : rises c (e :: evs.*2) = Z.max 0 (delta c e) + rises c evs.*2) by done.
  pose proof (rises_bound c evs.*2).
  assert (0 <= atomics d c + delta c e) by (by destruct evs, Hf).
  assert (He : atomics (apply_event t e d) c = atomics d c + delta c e).
  { rewrite gauge_step; [lia|done|lia]. }
  rewrite IH; rewrite ?He; [lia|done|lia].
Qed.

Lemma shown_gains c cfg evs :
  c ∈ summed → 0 <= gained c evs.*2 < 2 ^ 64 →
  atomics (apply_all (dashboard cfg) evs) c = gained c evs.*2.
Proof.
  intros Hc Hrange. rewrite gains; [|done|].
  - change (sum_Z ((λ x, gain c x.2) <$> evs)) with (sum_Z ((gain c ∘ snd) <$> evs)).
    rewrite list_fmap_compose. by apply as_u64_id.
  - cbn. rewrite decide_False; [done|]. intros ->. unfold summed in Hc.
    rewrite !elem_of_cons, elem_of_nil in Hc. by destruct_or! Hc.
Qed.

(** *** What a client hears *)
Definition heard (ms : list DaemonMessage) : list TelemetryEvent :=
  omap (λ m, match m with Event e => Some e | _ => None end) ms.

Lemma heard_app l k : heard (l ++ k) = heard l ++ heard k.
Proof. apply omap_app. Qed.

Lemma heard_events ms : (events_of ms).*2 = heard ms.*2.
Proof.
  induction ms as [|[t m] ms IH]; [done|]. unfold events_of, heard in *. cbn [omap list_omap fmap list_fmap].
  destruct m; cbn; by rewrite IH.
Qed.


(** A client that hears [evs], among log lines, shows what they make of an empty dashboard. *)
Lemma heard_dashboard cfg msgs :
  Forall (λ m, m ≠ Goodbye) msgs.*2 →
  ∃ l, (run_client_stream (IpcFacts.message <$> msgs) (dashboard cfg)).1
       = IpcFacts.set_logs l (apply_all (dashboard cfg) (events_of msgs)).
Proof. intros Hg. rewrite run_client_messages by (by rewrite Forall_fmap in Hg). apply messages_events. Qed.
End Counters.

(** ** Lemmas *)
Module TelemetryFacts.
Import FsCache FuseSpec Handles Ipc IpcFacts Telemetry Counters.

Definition told (em : Emission) : list TelemetryEvent := option_list (telemetry_msg (visit em.2)).

Definition event_of (o : OpenOutcome) : list TelemetryEvent :=
  match o with OpenHit => [CacheHit] | OpenMiss => [CacheMiss] | OpenFiltered => [] end.

Section facts.
Context {W : Type} `{MapOrder} (sys : syscall → State W reply) (self : FsConfig) (debug_str : string → string).
Context (amb : Ambient).
Implicit Types st : FsState W.

Lemma told_open p : told (fuse_open p) = [FuseOpen].
Proof. reflexivity. Qed.

Lemma told_outcome p opener pid o b : told (log_open_outcome debug_str p opener pid o b) = event_of o.
Proof. destruct o; reflexivity. Qed.

Lemma told_release st fh :
  release_emissions fh st ≫= told
  = match write_paths st !! fh with Some _ => [] | None => [HandleClosed (Some (default 0 (open_bytes st !! fh)))] end.
Proof. unfold release_emissions. by destruct (write_paths st !! fh). Qed.

Definition events (rq : FsRequest) st : list TelemetryEvent := emissions sys self debug_str amb rq st ≫= told.

(** The requests that concern the handle of a file. *)
Definition handle_request (rq : FsRequest) : Prop :=
  match rq with OpenFile _ _ | Read _ _ _ | Release _ => True | _ => False end.

(** A read-only open of a known inode. *)
Definition reads_file (rq : FsRequest) st : option path :=
  match rq with
  | OpenFile ino flags => if is_write_intent flags then None else InodeTable.get_path (inodes st) ino
  | _ => None
  end.

Lemma told_cons em l : (em :: l) ≫= told = told em ++ (l ≫= told).
Proof. reflexivity. Qed.

(** *** The handle maps along an open *)
Definition same_handles st st' : Prop := open_bytes st' = open_bytes st ∧ write_paths st' = write_paths st.

Lemma suppress_answers now p st :
  ∃ b st1, should_suppress_log self now p st = (Val b, st1) ∧ same_handles st st1.
Proof. unfold should_suppress_log. repeat case_match; eexists _, _; by split. Qed.

Lemma try_open_keeps now p filtered st o st' :
  try_open sys self now p filtered st = (o, st') →
  same_handles st st' ∧ ∀ r, o = Val r → filtered = false → r.2 ≠ OpenFiltered.
Proof.
  unfold try_open, try_io, mbind, fs_bind, gets, lift, mret, fs_ret, modify, fail.
  intros Ho. repeat (case_match; simplify_eq/=); (split; [done|]); intros ? [= <-]; done.
Qed.

Lemma open_shape ino flags st o st' p :
  reads_file (OpenFile ino flags) st = Some p →
  serve sys self amb (OpenFile ino flags) st = (o, st') →
  write_paths st' = write_paths st ∧
  ((∃ fh oc, o = Val (ROpened fh) ∧ events (OpenFile ino flags) st = FuseOpen :: event_of oc ∧
      open_bytes st' = <[fh := 0]> (open_bytes st) ∧ (fs_preset self = None → oc ≠ OpenFiltered)) ∨
   ((∀ r, o ≠ Val r) ∧ events (OpenFile ino flags) st = [FuseOpen] ∧ open_bytes st' = open_bytes st)).
Proof.
  cbn [reads_file]. destruct (is_write_intent flags) eqn:Hw; [done|]. intros Hp.
  unfold events. cbn [emissions serve]. unfold open_emissions, respond, open. rewrite Hw.
  assert (path_for_ino ino st = (Val p, st)) as Hi.
  { unfold path_for_ino, mbind, fs_bind, gets. by rewrite Hp. }
  rewrite Hi. destruct (suppress_answers (mono amb) p st) as (b & st1 & Hs & Hs1 & Hs2). rewrite Hs.
  set (filtered := match fs_preset self with Some _ => _ | None => _ end).
  unfold mbind at 1 2 3 4, fs_bind at 1 2 3 4. rewrite Hi, Hs. fold filtered.
  destruct (try_open sys self (wall amb).1 p filtered st1) as [r st2] eqn:Ht.
  destruct (try_open_keeps _ _ _ _ _ _ Ht) as [[Ht1 Ht2] Hr].
  rewrite told_cons, told_open. cbn [app].
  destruct r as [[fd oc]|e| |].
  - rewrite told_cons, told_outcome, app_nil_r. intros Ho.
    match type of Ho with context [match ?ev with Some _ => modify _ | None => mret tt end] => destruct ev end;
      unfold mbind, fs_bind, modify, mret, fs_ret in Ho; simplify_eq/=;
      (split; [destruct (engine self); cbn in *; congruence|]); left;
      exists (as_u64 fd), oc; (split_and!; [done|done| |intros Hn; apply (Hr (fd, oc)); [done|by unfold filtered; rewrite Hn]]);
      destruct (engine self); cbn in *; congruence.
  - intros [= <- <-]. split; [congruence|]. right. split_and!; [done|done|congruence].
  - intros [= <- <-]. split; [congruence|]. right. split_and!; [done|done|congruence].
  - intros [= <- <-]. split; [congruence|]. right. split_and!; [done|done|congruence].
Qed.

Lemma other_open_shape ino flags st o st' :
  reads_file (OpenFile ino flags) st = None →
  serve sys self amb (OpenFile ino flags) st = (o, st') →
  events (OpenFile ino flags) st = [] ∧ open_bytes st' = open_bytes st.
Proof.
  cbn [reads_file]. intros Hr. unfold events. cbn [emissions serve]. unfold open_emissions, respond, open.
  unfold path_for_ino, open_write_handle, try_io, lift, mbind, fs_bind, gets, modify, of_option, mret, fs_ret, fail.
  destruct (is_write_intent flags).
  - intros Ho. repeat (case_match; simplify_eq/=); done.
  - rewrite Hr. by intros [= _ <-].
Qed.

Lemma release_shape fh st :
  let st' := (serve sys self amb (Release fh) st).2 in
  match write_paths st !! fh with
  | Some _ => events (Release fh) st = [] ∧ open_bytes st' = open_bytes st
  | None => events (Release fh) st = [HandleClosed (Some (default 0 (open_bytes st !! fh)))] ∧
            open_bytes st' = delete fh (open_bytes st)
  end.
Proof.
  cbn zeta. unfold events. cbn [emissions serve]. rewrite told_release.
  unfold respond, release, mbind, fs_bind, gets, modify, lift, mret, fs_ret. cbn.
  destruct (write_paths st !! fh); cbn; [by destruct (sys _ _)|].
  destruct (open_paths st !! fh), (engine self); cbn; destruct (sys _ _); done.
Qed.

(** The read contract, as for [Handles]. *)
Hypothesis Hread : ∀ fh size off w,
  rc (sys (Pread fh size off) w).1 <= Z.of_nat (String.length (out_bytes (sys (Pread fh size off) w).1)).

Lemma read_shape fh off size st o st' :
  serve sys self amb (Read fh off size) st = (o, st') →
  events (Read fh off size) st = [] ∧
  open_bytes st' = alter (λ b, u64_add b (delivered fh (Read fh off size) o)) fh (open_bytes st) ∨
  events (Read fh off size) st = [] ∧ open_bytes st' = open_bytes st ∧ delivered fh (Read fh off size) o = 0.
Proof.
  unfold events. cbn [emissions serve]. unfold respond, do_read, mbind, fs_bind, lift.
  pose proof (Hread fh size (as_i64 off) (world st)) as Hr.
  destruct (sys (Pread fh size (as_i64 off)) (world st)) as [r w]. simpl in Hr.
  destruct (Z.ltb_spec (rc r) 0); intros [= <- <-]; [by right|left].
  cbn. rewrite decide_True by done. rewrite length_substring by lia. by rewrite Z2Nat.id by lia.
Qed.

(** *** The books of a run *)
Definition attempts (rq : FsRequest) st (o : outcome FsReply) : Z :=
  match reads_file rq st with Some _ => 1 | None => 0 end.

Definition failures (rq : FsRequest) st (o : outcome FsReply) : Z :=
  match reads_file rq st, o with Some _, Val _ => 0 | Some _, _ => 1 | None, _ => 0 end.

(** Bytes delivered through a handle that is open for reading. *)
Definition counted (rq : FsRequest) st (o : outcome FsReply) : Z :=
  match rq with
  | Read fh _ _ => match open_bytes st !! fh with Some _ => delivered fh rq o | None => 0 end
  | _ => 0
  end.

Fixpoint along (f : FsRequest → FsState W → outcome FsReply → Z) (rqs : list FsRequest) st : Z :=
  match rqs with
  | [] => 0
  | rq :: rqs' => let '(o, st1) := serve sys self amb rq st in f rq st o + along f rqs' st1
  end.

(** A new handle is not one that is open for reading, and only open handles are released. *)
Definition legal_step (rq : FsRequest) st (o : outcome FsReply) : Prop :=
  match rq, o with
  | OpenFile _ _, Val (ROpened fh) => open_bytes st !! fh = None
  | Release fh, _ => is_Some (open_bytes st !! fh) ∨ is_Some (write_paths st !! fh)
  | _, _ => True
  end.

Fixpoint legal (rqs : list FsRequest) st : Prop :=
  match rqs with
  | [] => True
  | rq :: rqs' => let '(o, st1) := serve sys self amb rq st in legal_step rq st o ∧ legal rqs' st1
  end.

Definition readers st : Z := Z.of_nat (base.size (open_bytes st)).
Definition unreported st : Z := sum_map id (open_bytes st).

Definition counters_ok st : Prop := ∀ fh b, open_bytes st !! fh = Some b → 0 <= b.

Record accounts (evs : list TelemetryEvent) (att fail got : Z) st st' : Prop := {
  acc_attempts : gained fuse_opens evs = att;
  acc_outcomes : gained cache_hits evs + gained cache_misses evs <= att - fail;
  acc_unfiltered : fs_preset self = None → gained cache_hits evs + gained cache_misses evs = att - fail;
  acc_change : readers st + change open_handles evs = readers st' + fail;
  acc_floats n : readers st <= n → floats open_handles n evs;
  acc_fail : 0 <= fail;
  acc_got : 0 <= got;
  acc_closed : 0 <= gained bytes_read evs;
  acc_bytes : gained bytes_read evs + unreported st' = unreported st + got;
  acc_counters : counters_ok st';
}.

Lemma accounts_app l k a1 a2 f1 f2 g1 g2 st st1 st2 :
  accounts l a1 f1 g1 st st1 → accounts k a2 f2 g2 st1 st2 → accounts (l ++ k) (a1 + a2) (f1 + f2) (g1 + g2) st st2.
Proof.
  intros [] []. constructor; rewrite ?gained_app, ?change_app; try lia; try done.
  - intros Hn. specialize (acc_unfiltered0 Hn). specialize (acc_unfiltered1 Hn). lia.
  - intros n Hn. apply floats_app; [by apply acc_floats0|]. apply acc_floats1. lia.
Qed.

Lemma alter_as_insert (m : gmap Z Z) k b f : m !! k = Some b → alter f k m = <[k := f b]> m.
Proof.
  intros Hk. apply map_eq. intros i. destruct (decide (i = k)) as [->|Hi].
  - by rewrite lookup_alter_eq, lookup_insert_eq, Hk.
  - by rewrite lookup_alter_ne, lookup_insert_ne.
Qed.

Lemma accounts_idle st st' :
  open_bytes st' = open_bytes st → counters_ok st → accounts [] 0 0 0 st st'.
Proof.
  intros Ho Hc. unfold readers, unreported. constructor; unfold readers, unreported, counters_ok; rewrite ?Ho;
    cbn; try lia; done.
Qed.

Lemma counter_bounds st fh b : counters_ok st → open_bytes st !! fh = Some b → 0 <= b <= unreported st.
Proof.
  intros Hc Hb. split; [by eapply Hc|]. unfold unreported. rewrite (sum_map_delete id _ fh b Hb).
  change (id b) with b. enough (0 <= sum_map id (delete fh (open_bytes st))) by lia.
  apply sum_map_nonneg. intros k x [_ Hk]%lookup_delete_Some. by eapply Hc.
Qed.

Lemma accounts_open ino flags st o st' p :
  reads_file (OpenFile ino flags) st = Some p → counters_ok st →
  serve sys self amb (OpenFile ino flags) st = (o, st') → legal_step (OpenFile ino flags) st o →
  accounts (events (OpenFile ino flags) st) 1 (failures (OpenFile ino flags) st o) 0 st st'.
Proof.
  intros Hr Hc Hs Hl. destruct (open_shape _ _ _ _ _ _ Hr Hs) as [_ [(fh & oc & -> & -> & Ho & Hoc)|(Hv & -> & Ho)]].
  - unfold failures. rewrite Hr. simpl in Hl. constructor; unfold readers, unreported, counters_ok; rewrite ?Ho.
    1-3: destruct oc; cbn; try lia; try done; intros Hn; by specialize (Hoc Hn).
    + rewrite map_size_insert_None by done. destruct oc; cbn; lia.
    + intros n Hn. destruct oc; cbn; lia.
    + done.
    + done.
    + destruct oc; cbn; lia.
    + rewrite sum_map_insert by done. destruct oc; cbn; lia.
    + intros fh' b [[_ <-]|[_ Hb]]%lookup_insert_Some; [done|by eapply Hc].
  - assert (failures (OpenFile ino flags) st o = 1) as ->.
    { unfold failures. rewrite Hr. destruct o; [by edestruct Hv|done..]. }
    constructor; unfold readers, unreported, counters_ok; rewrite ?Ho; cbn; try lia; done.
Qed.

Lemma accounts_release fh st :
  counters_ok st → is_Some (open_bytes st !! fh) ∨ is_Some (write_paths st !! fh) →
  accounts (events (Release fh) st) 0 0 0 st (serve sys self amb (Release fh) st).2.
Proof.
  intros Hc Hl. pose proof (release_shape fh st) as Hx. cbn zeta in Hx.
  destruct (write_paths st !! fh) as [wp|]; destruct Hx as [-> Ho]; [by apply accounts_idle|].
  destruct Hl as [[b Hb]|[? Hw]]; [|done]. rewrite Hb. cbn [default].
  assert (Hsome : base.size (open_bytes st) ≠ 0%nat).
  { intros H0%map_size_empty_iff. by rewrite H0 in Hb. }
  assert (Hsz : base.size (delete fh (open_bytes st)) = pred (base.size (open_bytes st))).
  { rewrite map_size_delete, Hb. simpl. lia. }
  constructor; unfold readers, unreported, counters_ok; rewrite ?Ho; cbn; try lia; try done.
  - specialize (Hc _ _ Hb). lia.
  - rewrite (sum_map_delete id _ fh b Hb). change (id b) with b. lia.
  - intros fh' b' [_ Hb']%lookup_delete_Some. by eapply Hc.
Qed.

Lemma accounts_read fh off size st o st' :
  counters_ok st → serve sys self amb (Read fh off size) st = (o, st') →
  unreported st + counted (Read fh off size) st o < 2 ^ 64 →
  accounts (events (Read fh off size) st) 0 0 (counted (Read fh off size) st o) st st'.
Proof.
  intros Hc Hs Hlt. unfold counted in *. pose proof (delivered_nonneg fh (Read fh off size) o) as Hd.
  destruct (read_shape _ _ _ _ _ _ Hs) as [[-> Ho]|(-> & Ho & H0)].
  - destruct (open_bytes st !! fh) as [b|] eqn:Hb.
    + pose proof (counter_bounds st fh b Hc Hb) as Hbb.
      rewrite (alter_as_insert _ _ b), u64_add_small in Ho by (done || lia).
      constructor; unfold readers, unreported, counters_ok; rewrite ?Ho; cbn -[delivered]; try lia; try done.
      * rewrite map_size_insert_Some by done. unfold change. cbn. lia.
      * rewrite <- insert_delete_eq, sum_map_insert by apply lookup_delete_eq.
        rewrite (sum_map_delete id (open_bytes st) fh b Hb). unfold id. lia.
      * intros fh' b' [[_ <-]|[_ Hb']]%lookup_insert_Some; [lia|by eapply Hc].
    + apply accounts_idle; [|done]. rewrite Ho. apply map_eq. intros i.
      destruct (decide (i = fh)) as [->|Hi]; [by rewrite lookup_alter_eq, Hb|by rewrite lookup_alter_ne].
  - rewrite H0. replace (match open_bytes st !! fh with Some _ => 0 | None => 0 end) with 0 by by destruct (_ !! fh).
    by apply accounts_idle.
Qed.

Lemma counted_nonneg rq st o : 0 <= counted rq st o.
Proof. unfold counted. repeat case_match; try lia. apply delivered_nonneg. Qed.

Lemma along_counted_nonneg rqs st : 0 <= along counted rqs st.
Proof.
  revert st. induction rqs as [|rq rqs IH]; intros st; simpl; [done|].
  destruct (serve sys self amb rq st) as [o st1]. pose proof (counted_nonneg rq st o). specialize (IH st1). lia.
Qed.

Lemma accounts_step rq st o st' :
  handle_request rq → counters_ok st → serve sys self amb rq st = (o, st') → legal_step rq st o →
  unreported st + counted rq st o < 2 ^ 64 →
  accounts (events rq st) (attempts rq st o) (failures rq st o) (counted rq st o) st st'.
Proof.
  intros Hrq Hc Hs Hl Hlt. destruct rq as [| | | | | | | | | | |ino flags|fh off size| | | |fh| | | | | | | | | |]; try done.
  - destruct (reads_file (OpenFile ino flags) st) as [p|] eqn:Hr.
    + unfold attempts. rewrite Hr. by eapply accounts_open.
    + destruct (other_open_shape _ _ _ _ _ Hr Hs) as [-> Ho]. unfold attempts, failures. rewrite Hr.
      by apply accounts_idle.
  - by apply accounts_read.
  - pose proof (accounts_release fh st Hc Hl) as Ha. rewrite Hs in Ha.
    replace (failures (Release fh) st o) with 0 by by destruct o. done.
Qed.

Fixpoint all_events (rqs : list FsRequest) st : list TelemetryEvent :=
  match rqs with
  | [] => []
  | rq :: rqs' => events rq st ++ all_events rqs' (serve sys self amb rq st).2
  end.

Lemma accounts_run rqs st :
  Forall handle_request rqs → counters_ok st → legal rqs st →
  unreported st + along counted rqs st < 2 ^ 64 →
  accounts (all_events rqs st) (along attempts rqs st) (along failures rqs st) (along counted rqs st)
           st (run_requests sys self amb rqs st).2.
Proof.
  intros Hrqs. revert st. induction Hrqs as [|rq rqs Hrq _ IH]; intros st Hc; simpl.
  { intros _ _. by apply accounts_idle. }
  destruct (serve sys self amb rq st) as [o st1] eqn:Hs. intros [Hl Hls] Hlt.
  pose proof (along_counted_nonneg rqs st1) as Hnn. pose proof (counted_nonneg rq st o) as Hn1.
  pose proof (accounts_step rq st o st1 Hrq Hc Hs Hl ltac:(lia)) as Ha.
  specialize (IH st1 (acc_counters _ _ _ _ _ _ Ha) Hls).
  destruct (run_requests sys self amb rqs st1) as [os st2]. cbn [snd] in *.
  eapply accounts_app; [exact Ha|apply IH].
  pose proof (acc_bytes _ _ _ _ _ _ Ha) as Hb.
  pose proof (acc_closed _ _ _ _ _ _ Ha). lia.
Qed.

Lemma heard_on_event lvl ts em : heard (on_event lvl ts em.1 em.2) = told em.
Proof. unfold on_event, told. by destruct (telemetry_msg _), (_ <=? _). Qed.

Lemma heard_broadcast lvl ts rqs st :
  heard (broadcast sys self debug_str lvl ts amb rqs st) = all_events rqs st.
Proof.
  revert st. induction rqs as [|rq rqs IH]; intros st; [done|]. cbn [broadcast all_events].
  rewrite heard_app, IH. f_equal. unfold events. induction (emissions _ _ _ _ _ _) as [|em l IHl]; [done|].
  rewrite told_cons, <- IHl, <- (heard_on_event lvl ts). apply heard_app.
Qed.

Lemma broadcast_goes_on lvl ts rqs st :
  Forall (λ m, m ≠ Goodbye) (broadcast sys self debug_str lvl ts amb rqs st).
Proof.
  revert st. induction rqs as [|rq rqs IH]; intros st; [constructor|]. cbn [broadcast].
  apply Forall_app. split; [|apply IH]. apply Forall_forall. intros m (em & Hm & _)%list_elem_of_bind.
  unfold on_event in Hm. by destruct (telemetry_msg _), (_ <=? _);
    repeat (apply elem_of_cons in Hm as [->|Hm]); try apply not_elem_of_nil in Hm.
Qed.

Lemma along_attempts_bound rqs st : 0 <= along attempts rqs st <= Z.of_nat (length rqs).
Proof.
  revert st. induction rqs as [|rq rqs IH]; intros st; [done|]. cbn [along length].
  destruct (serve sys self amb rq st) as [o st1]. specialize (IH st1). unfold attempts at 1 3. case_match; lia.
Qed.
End facts.
End TelemetryFacts.

(** ** Theorems *)
Module TelemetryTheorems.
Import FsCache FuseSpec Handles Ipc IpcFacts Telemetry Counters TelemetryFacts.


(** Two attempts on one file, one of which fails, reads and a close. *)
Definition flaky_kernel (c : syscall) : State nat reply := λ w,
  match c with
  | Openat _ _ _ => (if Nat.eqb w 0 then mkReply (-1) 5 (FuseTheorems.a_stat 100) "" []
                     else mkReply 7 0 (FuseTheorems.a_stat 100) "" [], S w)
  | Pread _ _ _ => (mkReply 3 0 (FuseTheorems.a_stat 100) "xyz" [], w)
  | _ => (mkReply 0 0 (FuseTheorems.a_stat 100) "" [], w)
  end.

Definition one_file : FsState nat :=
  mkFsState (match InodeTable.get_or_create InodeTable.new ["a"]%string with Some (t, _) => t | None => InodeTable.new end)
            ∅ ∅ ∅ ∅ ∅ FuseTheorems.empty_store [] [] 0%nat.

Definition some_requests : list FsRequest :=
  [OpenFile 2 O_RDONLY; OpenFile 2 O_RDONLY; Read 7 0 3; Read 7 3 3].

Definition some_messages : list (Z * DaemonMessage) :=
  pair 9 <$> broadcast flaky_kernel (FuseTheorems.plain_config None) (λ s, s) DEBUG "10:00"
               FuseTheorems.some_ambient some_requests one_file.

(** An open that fails is shown as an open handle that is never closed. *)
Lemma failed_opens_stay_open :
  let msgs := broadcast flaky_kernel (FuseTheorems.plain_config None) (λ s, s) INFO "10:00"
                FuseTheorems.some_ambient [OpenFile 2 O_RDONLY] one_file in
  let '(os, st) := run_requests flaky_kernel (FuseTheorems.plain_config None) FuseTheorems.some_ambient
                     [OpenFile 2 O_RDONLY] one_file in
  os = [Fail 5] ∧ open_bytes st = ∅ ∧
  atomics (run_client_stream (IpcFacts.message <$> (pair 0 <$> msgs)) (dashboard (h_config IpcTheorems.some_hello))).1
    open_handles = 1.
Proof. by vm_compute. Qed.

End TelemetryTheorems.
