(* ===== verification/CopyTelemetry.v ===== *)
(** * What the dashboard knows of the copies

    The telemetry of [src/cache/io.rs], followed to the counters of a dashboard.  A run of the
    pipeline is one of [CacheIo.Pipeline] with the events each step emits and a ledger of the jobs
    that come, end and go; that an event is sent is part of the step it reports.  Checks of the
    window, progress of a copy and evictions, which report no job's coming or going, are
    steps that only speak and can happen at any time. *)
From S2P Require Import Prelude Paths Backing Disk Db Manager CacheIo PipelineTerm Preset Engine Inode Fuse FuseSpec.
From S2P Require Import Discovery Config Ipc Telemetry.

(** The jobs that were queued, those that ended with an event that says how, and those
    that left the pipeline without one. *)
Record Ledger := mkLedger { came : list CacheJob; ended : list (CacheJob * bool); gone : list CacheJob }.

Module CopyTelemetry.
Import CacheIO Pipeline Ipc.

Definition nothing : Ledger := mkLedger [] [] [].
Definition combine (a b : Ledger) : Ledger := mkLedger (came a ++ came b) (ended a ++ ended b) (gone a ++ gone b).

Definition display (j : CacheJob) : string := relative_text (rel_path j).
Definition depth (q : list CacheJob) : option Z := Some (Z.of_nat (length q)).

(** An accepted submission tells of itself and of the length of the queue. *)
Definition submit_events (rel : path) (k : CacheJobKind) (i : Io) : list TelemetryEvent :=
  match known (pipe i) !! (rel, k) with
  | Some _ => []
  | None => [CopyQueued; DeferredChanged (Some (Z.of_nat (S (length (queue (pipe i))))))]
  end.

Definition submit_ledger (now : Z) (rel : path) (k : CacheJobKind) (i : Io) : Ledger :=
  match known (pipe i) !! (rel, k) with
  | Some _ => nothing
  | None => mkLedger [mkCacheJob rel k now] [] []
  end.

(** The jobs restored from the database are reported by their number only. *)
Definition spawn_events (i : Io) : list TelemetryEvent :=
  match queue (pipe i) with [] => [] | q => [DeferredChanged (depth q)] end.

(** With room the copy starts; without, it has failed. *)
Definition room_events (j : CacheJob) (size : Z) (ok : bool) : list TelemetryEvent :=
  if ok then [CopyStarted (Some (display j)) (Some size)] else [CopyFailed (Some (display j))].

Definition commit_events (j : CacheJob) (r : result io_error SourceMetadata) : list TelemetryEvent :=
  match r with Ok _ => [CopyComplete (Some (display j))] | Err _ => [CopyFailed (Some (display j))] end.

(** After the rows of expired jobs are removed the new length is reported. *)
Definition expired_events (rest : list path) (i : Io) : list TelemetryEvent :=
  match rest with [] => [DeferredChanged (depth (queue (pipe i)))] | _ => [] end.

(** A validation that finds the copy stale submits its replacement. *)
Definition validate_speech (cm : CacheManager) (now : Z) (backing : option (path → option stat)) (rel : path) (i : Io) :
    list TelemetryEvent * Ledger :=
  match Manager.is_stale cm backing (CacheIo.store i).2 rel with
  | Stale => (submit_events rel Replace i, submit_ledger now rel Replace i)
  | _ => ([], nothing)
  end.

Inductive aside : TelemetryEvent → Prop :=
  | aside_window b : aside (CachingWindow b)
  | aside_progress p bytes size : aside (CopyProgressed p bytes size)
  | aside_eviction p why : aside (Eviction p why).

Section steps.
Context `{MapOrder} (statvfs : Disk → path → option Statvfs) (cm : CacheManager).

Inductive tstep : System → list TelemetryEvent → Ledger → System → Prop :=
  | t_aside s e : aside e → tstep s [e] nothing s
  | t_submit s now rel k :
      tstep s (submit_events rel k (io s)) (submit_ledger now rel k (io s)) (set_io (submit_locked now rel k) s)
  | t_abort s rel : tstep s [] nothing (set_io (mark_abort rel) s)
  | t_outside s st : tstep s [] nothing (set_io (with_store st) s)
  | t_expire s now ttl io' expired old :
      expire_locked now ttl (io s) = (io', expired) → queue (pipe (io s)) = old ++ queue (pipe io') →
      tstep s [] (mkLedger [] [] old) (mkSystem io' (held s) (workers s) (permits s) (expiring s ++ expired))
  | t_expire_row s p ps :
      expiring s = p :: ps →
      tstep s (expired_events ps (io s)) nothing
        (mkSystem (with_db (CacheDb.remove_deferred p) (io s)) (held s) (workers s) (permits s) ps)
  | t_dispatch_validate s allowed job q :
      held s = None → pop_next_job (queue (pipe (io s))) allowed = Some (job, q) → kind job = Validate →
      tstep s [] nothing
        (mkSystem (with_pipe (mkPipelineState q (known (pipe (io s)))) (io s)) None
                  (workers s ++ [mkWorker job Start]) (permits s) (expiring s))
  | t_dispatch_copy s allowed job q :
      held s = None → pop_next_job (queue (pipe (io s))) allowed = Some (job, q) → kind job ≠ Validate →
      tstep s [] nothing
        (mkSystem (with_pipe (mkPipelineState q (known (pipe (io s)))) (io s)) (Some job)
                  (workers s) (permits s) (expiring s))
  | t_permit s job n :
      held s = Some job → permits s = S n →
      tstep s [] nothing (mkSystem (io s) None (workers s ++ [mkWorker job Start]) n (expiring s))
  | t_skip s l1 l2 job :
      workers s = l1 ++ mkWorker job Start :: l2 → kind job ≠ Validate →
      populate_start cm (rel_path job) (kind job) (io s) = (io s, None) →
      tstep s [] (mkLedger [] [] [job])
        (mkSystem (io s) (held s) (l1 ++ mkWorker job FinishLocked :: l2) (permits s) (expiring s))
  | t_start s l1 l2 job io' c :
      workers s = l1 ++ mkWorker job Start :: l2 → kind job ≠ Validate →
      populate_start cm (rel_path job) (kind job) (io s) = (io', Some c) →
      tstep s [] nothing
        (mkSystem io' (held s) (l1 ++ mkWorker job (Room c) :: l2) (permits s) (expiring s))
  | t_room s l1 l2 job c size size' io' ok :
      workers s = l1 ++ mkWorker job (Room c) :: l2 →
      populate_room statvfs cm size (io s) = (io', ok) →
      tstep s (room_events job size' ok) (mkLedger [] (if ok then [] else [(job, false)]) [])
        (mkSystem io' (held s) (l1 ++ mkWorker job (if ok : bool then Copy c else FinishLocked) :: l2)
                  (permits s) (expiring s))
  | t_copy s l1 l2 job c env io' r :
      workers s = l1 ++ mkWorker job (Copy c) :: l2 →
      ce_aborted env = default false (abort (io s) !! c) →
      populate_copy cm env (rel_path job) (io s) = (io', r) →
      tstep s [] nothing
        (mkSystem io' (held s) (l1 ++ mkWorker job (Commit r) :: l2) (permits s) (expiring s))
  | t_commit s l1 l2 job r now :
      workers s = l1 ++ mkWorker job (Commit r) :: l2 →
      tstep s (commit_events job r) (mkLedger [] [(job, is_ok r)] [])
        (mkSystem (populate_commit cm now (rel_path job) r (io s)) (held s)
                  (l1 ++ mkWorker job FinishLocked :: l2) (permits s) (expiring s))
  | t_validate s l1 l2 job now backing :
      workers s = l1 ++ mkWorker job Start :: l2 → kind job = Validate →
      tstep s (validate_speech cm now backing (rel_path job) (io s)).1
        (combine (validate_speech cm now backing (rel_path job) (io s)).2 (mkLedger [] [] [job]))
        (mkSystem (validate_body cm now backing (rel_path job) (io s)) (held s)
                  (l1 ++ mkWorker job FinishLocked :: l2) (permits s) (expiring s))
  | t_finish_locked s l1 l2 job :
      workers s = l1 ++ mkWorker job FinishLocked :: l2 →
      tstep s [] nothing
        (mkSystem (finish_known_locked (rel_path job) (kind job) (io s)) (held s)
                  (l1 ++ mkWorker job FinishDb :: l2) (permits s) (expiring s))
  | t_finish_db s l1 l2 job :
      workers s = l1 ++ mkWorker job FinishDb :: l2 →
      tstep s [] nothing
        (mkSystem (finish_known_db (rel_path job) (kind job) (io s)) (held s) (l1 ++ l2)
                  (if decide (kind job = Validate) then permits s else S (permits s)) (expiring s)).

(** A run, through states that satisfy [P], with all it says. *)
Inductive trun (P : System → Prop) (s0 : System) : list TelemetryEvent → Ledger → System → Prop :=
  | run_start : P s0 → trun P s0 [] nothing s0
  | run_step es l s es' l' s' :
      trun P s0 es l s → tstep s es' l' s' → P s' → trun P s0 (es ++ es') (combine l l') s'.

(** The steps are those of the pipeline. *)
Lemma tstep_sound s es l s' : tstep s es l s' → s' = s ∨ io_step statvfs cm s s'.
Proof. destruct 1; [by left|right; by econstructor..]. Qed.

Lemma tstep_complete s s' : io_step statvfs cm s s' → ∃ es l, tstep s es l s'.
Proof.
  destruct 1 as [| | |s now ttl io' expired He| | | | | | |s l1 l2 job c size io' okb Hw Hr| | | | |];
    try (eexists _, _; by eapply (t_room s l1 l2 job c size 0)); try (eexists _, _; by econstructor).
  - pose proof He as He'. unfold expire_locked in He'. destruct (ttl =? 0).
    { injection He' as <- <-. exists [], (mkLedger [] [] []). by econstructor. }
    destruct (PipelineFacts.expire_front_spec (saturating_sub now (as_u64 (ttl * 60))) (queue (pipe (io s)))
      (known (pipe (io s)))) as (old & Hq & _).
    destruct (expire_front _ _ _) as [p ex]. injection He' as <- <-.
    exists [], (mkLedger [] [] old). by econstructor.
Qed.
End steps.
End CopyTelemetry.

(** ** Lemmas *)
Module CopyTelemetryFacts.
Import CacheIO Pipeline PipelineFacts Ipc IpcFacts Counters CopyTelemetry.

Lemma trun_end {_ : MapOrder} statvfs cm (P : System → Prop) s0 es l s :
  trun statvfs cm P s0 es l s → P s.
Proof. by destruct 1. Qed.

(** *** The jobs of a state *)
Definition unreported (w : Worker) : Prop :=
  match w_pc w with FinishLocked | FinishDb => False | _ => True end.
#[export] Instance unreported_dec w : Decision (unreported w).
Proof. unfold unreported. destruct (w_pc w); apply _. Defined.

(** Queued, waiting for a permit, or with a worker that has not yet said how it ended. *)
Definition inside (s : System) : list CacheJob :=
  queue (pipe (io s)) ++ option_list (held s) ++ (w_job <$> filter unreported (workers s)).

Ltac count_jobs :=
  apply (Permutation_count_occ CacheJob_eq_dec); intros ?x;
  repeat match goal with
         | H : @Permutation CacheJob _ _ |- _ => apply (Permutation_count_occ CacheJob_eq_dec) with (x := x) in H
         end;
  unfold inside in *; cbn [io held workers pipe with_pipe queue came ended gone];
  repeat match goal with H : held _ = _ |- _ => rewrite H | H : workers _ = _ |- _ => rewrite H end;
  rewrite ?filter_app, ?fmap_app, ?count_occ_app in *; cbn in *; rewrite ?count_occ_app in *;
  repeat (case_match; cbn in *; try done); lia.

Section facts.
Context `{MapOrder} (statvfs : Disk → path → option Statvfs) (cm : CacheManager).

Lemma submit_comes now rel k i :
  queue (pipe (submit_locked now rel k i)) = queue (pipe i) ++ came (submit_ledger now rel k i) ∧
  ended (submit_ledger now rel k i) = [] ∧ gone (submit_ledger now rel k i) = [].
Proof.
  unfold submit_locked, submit_ledger. destruct (known (pipe i) !! (rel, k)); [by rewrite app_nil_r|].
  by case_decide.
Qed.

Lemma validate_comes now backing rel i :
  let l := (validate_speech cm now backing rel i).2 in
  queue (pipe (validate_body cm now backing rel i)) = queue (pipe i) ++ came l ∧ ended l = [] ∧ gone l = [].
Proof.
  unfold validate_speech, validate_body, submit_replace, submit_job.
  destruct (Manager.is_stale _ _ _ _); cbn; rewrite ?app_nil_r; try done. apply submit_comes.
Qed.

(** Every step keeps the books. *)
Lemma tstep_books s es l s' :
  tstep statvfs cm s es l s' → inside s ++ came l ≡ₚ (ended l).*1 ++ gone l ++ inside s'.
Proof.
  destruct 1 as [s e|s now rel k|s rel|s st|s now ttl io' ex old He Hq|s p ps Hp|s allowed job q Hh Hpop Hk
    |s allowed job q Hh Hpop Hk|s job n Hh Hn|s l1 l2 job Hw Hk Hs|s l1 l2 job io' c Hw Hk Hs
    |s l1 l2 job c size size' io' okb Hw Hr|s l1 l2 job c env io' r Hw Ha Hc|s l1 l2 job r now Hw
    |s l1 l2 job now backing Hw Hk|s l1 l2 job Hw|s l1 l2 job Hw].
  - by rewrite app_nil_r.
  - destruct (submit_comes now rel k (io s)) as (Hq & -> & ->). unfold inside, set_io.
    cbn [io held workers]. rewrite Hq. count_jobs.
  - unfold inside, set_io. cbn [io held workers]. rewrite mark_abort_pipe. by rewrite app_nil_r.
  - by rewrite app_nil_r.
  - unfold inside. rewrite Hq. count_jobs.
  - by rewrite app_nil_r.
  - apply pop_next_job_perm in Hpop. count_jobs.
  - apply pop_next_job_perm in Hpop. count_jobs.
  - count_jobs.
  - count_jobs.
  - unfold inside. cbn [io held workers]. rewrite (populate_start_pipe _ _ _ _ _ _ Hs). count_jobs.
  - unfold inside. cbn [io held workers].
    assert (pipe io' = pipe (io s)) as -> by (unfold populate_room in Hr; by injection Hr as <- _).
    destruct okb; count_jobs.
  - unfold populate_copy in Hc. case_match. injection Hc as <- <-. count_jobs.
  - unfold populate_commit. destruct r; count_jobs.
  - destruct (validate_comes now backing (rel_path job) (io s)) as (Hq & He & Hg). cbn zeta in *.
    unfold inside. cbn [io held workers combine came ended gone]. rewrite Hq, He, Hg. count_jobs.
  - count_jobs.
  - unfold finish_known_db. case_decide; count_jobs.
Qed.

Definition outcomes (ok : bool) (l : Ledger) : list CacheJob := (filter (λ x, x.2 = ok) (ended l)).*1.

Record speaks (es : list TelemetryEvent) (l : Ledger) : Prop := {
  sp_change : change in_flight_count es = Z.of_nat (length (came l)) - Z.of_nat (length (ended l));
  sp_rises : rises in_flight_count es = Z.of_nat (length (came l));
  sp_done : gained completed_copies es = Z.of_nat (length (outcomes true l));
  sp_failed : gained failed_copies es = Z.of_nat (length (outcomes false l));
  sp_floats n : 0 <= n → 0 <= n + change in_flight_count es → floats in_flight_count n es;
}.

Lemma speaks_nothing e : aside e → speaks [e] nothing.
Proof. by destruct 1; constructor; cbn; intros; lia || split_and!; cbn in *; lia. Qed.

Lemma speaks_silent g : speaks [] (mkLedger [] [] g).
Proof. by constructor. Qed.

Lemma speaks_submit now rel k i : speaks (submit_events rel k i) (submit_ledger now rel k i).
Proof.
  unfold submit_events, submit_ledger. destruct (known (pipe i) !! (rel, k)); [apply speaks_silent|].
  constructor; cbn; try done. intros; lia.
Qed.

Lemma speaks_gone es l g : speaks es l → speaks es (combine l (mkLedger [] [] g)).
Proof. intros []. constructor; unfold outcomes in *; cbn; rewrite ?app_nil_r; done. Qed.

Lemma tstep_speaks s es l s' : tstep statvfs cm s es l s' → speaks es l.
Proof.
  destruct 1 as [s e He| | | | |s p ps Hp| | | | | |s l1 l2 job c size size' io' okb Hw Hr| |s l1 l2 job r now Hw
    |s l1 l2 job now backing Hw Hk| |]; try apply speaks_silent.
  - by apply speaks_nothing.
  - apply speaks_submit.
  - unfold expired_events. destruct ps; [|apply speaks_silent]. constructor; cbn; try done; intros; lia.
  - unfold room_events. destruct okb; constructor; cbn; try done; intros; lia.
  - unfold commit_events. destruct r; constructor; cbn; try done; intros; lia.
  - apply speaks_gone. unfold validate_speech. destruct (Manager.is_stale _ _ _ _); try apply speaks_silent.
    apply speaks_submit.
Qed.

(** *** Runs *)
Record run_books (s0 : System) (es : list TelemetryEvent) (l : Ledger) (s : System) : Prop := {
  rb_jobs : inside s0 ++ came l ≡ₚ (ended l).*1 ++ gone l ++ inside s;
  rb_change : change in_flight_count es = Z.of_nat (length (came l)) - Z.of_nat (length (ended l));
  rb_rises : rises in_flight_count es = Z.of_nat (length (came l));
  rb_done : gained completed_copies es = Z.of_nat (length (outcomes true l));
  rb_failed : gained failed_copies es = Z.of_nat (length (outcomes false l));
  rb_floats n : Z.of_nat (length (inside s0)) <= n → floats in_flight_count n es;
}.

Lemma books_balance s0 es l s :
  run_books s0 es l s →
  Z.of_nat (length (inside s0)) + change in_flight_count es
  = Z.of_nat (length (gone l)) + Z.of_nat (length (inside s)).
Proof.
  intros Hb. pose proof (Permutation_length (rb_jobs _ _ _ _ Hb)) as Hl.
  rewrite !length_app, length_fmap in Hl. rewrite (rb_change _ _ _ _ Hb). lia.
Qed.

Lemma books_step s0 es l s es' l' s' :
  run_books s0 es l s → tstep statvfs cm s es' l' s' → run_books s0 (es ++ es') (combine l l') s'.
Proof.
  intros Hb Hs. pose proof (books_balance _ _ _ _ Hb) as Hbal. destruct Hb as [Hj Hc Hr Hd Hf Hfl].
  pose proof (tstep_books _ _ _ _ Hs) as Hj'. pose proof (Permutation_length Hj') as Hl.
  rewrite !length_app, length_fmap in Hl.
  destruct (tstep_speaks _ _ _ _ Hs) as [Hc' Hr' Hd' Hf' Hfl'].
  constructor; unfold outcomes in *; cbn [came ended gone combine];
    rewrite ?change_app, ?rises_app, ?gained_app, ?filter_app, ?fmap_app, ?length_app; try lia.
  - rewrite app_assoc, Hj. clear -Hj'. apply (Permutation_count_occ CacheJob_eq_dec). intros x.
    apply (Permutation_count_occ CacheJob_eq_dec) with (x := x) in Hj'. rewrite !count_occ_app in *. lia.
  - intros n Hn. apply floats_app; [by apply Hfl|]. apply Hfl'; lia.
Qed.

Lemma trun_books P s0 es l s : trun statvfs cm P s0 es l s → run_books s0 es l s.
Proof.
  induction 1 as [|es l s es' l' s' _ IH Hs _]; [|by eapply books_step].
  constructor; cbn; try done. - by rewrite app_nil_r. - intros; lia.
Qed.

(** *** The copies a dashboard shows *)
Definition shown_path (j : CacheJob) : path := components_of (display j).
Definition copier (w : Worker) : bool := match w_pc w with Copy _ | Commit _ => true | _ => false end.
Definition engaged (w : Worker) : bool := match w_pc w with Room _ | Copy _ | Commit _ => true | _ => false end.

Definition worker_paths (f : Worker → bool) (s : System) : list path :=
  (λ w, shown_path (w_job w)) <$> filter (λ w, f w = true) (workers s).

(** No two workers are engaged in copies that the dashboard shows under one path. *)
Definition apart (s : System) : Prop := NoDup (worker_paths engaged s).

Lemma worker_paths_mid f s l1 w l2 :
  workers s = l1 ++ w :: l2 →
  worker_paths f s = ((λ w, shown_path (w_job w)) <$> filter (λ w, f w = true) l1)
                 ++ (if f w then [shown_path (w_job w)] else [])
                 ++ ((λ w, shown_path (w_job w)) <$> filter (λ w, f w = true) l2).
Proof.
  intros Hw. unfold worker_paths. rewrite Hw, filter_app, filter_cons, fmap_app.
  destruct (f w); [by rewrite decide_True|by rewrite decide_False].
Qed.

Lemma copiers_engaged (l : list Worker) :
  (λ w, shown_path (w_job w)) <$> filter (λ w, copier w = true) l
  ⊆ (λ w, shown_path (w_job w)) <$> filter (λ w, engaged w = true) l.
Proof.
  intros p (w & -> & [Hc Hin]%list_elem_of_filter)%list_elem_of_fmap. apply list_elem_of_fmap. exists w.
  split; [done|]. apply list_elem_of_filter. split; [|done]. unfold copier, engaged in *. by destruct (w_pc w).
Qed.

(** What a step means for the paths of running copies. *)
Inductive copies_move (s : System) (es : list TelemetryEvent) (s' : System) : Prop :=
  | copies_stay :
      (∀ p e, e ∈ es → ¬ starts p e ∧ ¬ ends p e) → worker_paths copier s' = worker_paths copier s →
      copies_move s es s'
  | copies_start p e :
      es = [e] → starts p e → worker_paths copier s' ≡ₚ p :: worker_paths copier s → copies_move s es s'
  | copies_end p e :
      es = [e] → ends p e → worker_paths copier s ⊆ p :: worker_paths copier s' →
      worker_paths copier s' ⊆ worker_paths copier s → (apart s → p ∉ worker_paths copier s') →
      copies_move s es s'.

(** The end of an engaged worker's copy, whether it had started or not. *)
Lemma ends_copy s s' l1 j p p' l2 e :
  workers s = l1 ++ mkWorker j p :: l2 → workers s' = l1 ++ mkWorker j p' :: l2 →
  engaged (mkWorker j p) = true → copier (mkWorker j p') = false → ends (shown_path j) e →
  copies_move s [e] s'.
Proof.
  intros Hw Hw' He Hc' Hends.
  pose proof (worker_paths_mid copier s _ _ _ Hw) as C. pose proof (worker_paths_mid copier s' _ _ _ Hw') as C'.
  rewrite Hc' in C'. apply (copies_end _ _ _ (shown_path j) e); [done|done| | |].
  - rewrite C, C'. destruct (copier (mkWorker j p)); set_solver.
  - rewrite C, C'. set_solver.
  - unfold apart. rewrite (worker_paths_mid engaged s _ _ _ Hw), He, C'. cbn. intros Hnd.
    rewrite <- Permutation_middle in Hnd. apply NoDup_cons in Hnd as [Hnin _].
    pose proof (copiers_engaged l1). pose proof (copiers_engaged l2). set_solver.
Qed.

(** A worker goes on, and its copy neither starts nor ends. *)
Lemma stays_copy s s' l1 w w' l2 es :
  workers s = l1 ++ w :: l2 → workers s' = l1 ++ w' :: l2 → w_job w' = w_job w → copier w' = copier w →
  (∀ p e, e ∈ es → ¬ starts p e ∧ ¬ ends p e) → copies_move s es s'.
Proof.
  intros Hw Hw' Hj Hc Hes. apply copies_stay; [done|].
  by rewrite (worker_paths_mid _ _ _ _ _ Hw), (worker_paths_mid _ _ _ _ _ Hw'), Hc, Hj.
Qed.

Lemma silent p (e : TelemetryEvent) : e ∈ [] → ¬ starts p e ∧ ¬ ends p e.
Proof. by intros ?%not_elem_of_nil. Qed.

Lemma submit_silent rel k i p e : e ∈ submit_events rel k i → ¬ starts p e ∧ ¬ ends p e.
Proof.
  unfold submit_events. case_match; [apply silent|]. rewrite !elem_of_cons. intros [->|[->|?%not_elem_of_nil]]; try done; split; intros [].
Qed.

Lemma tstep_copies s es l s' : tstep statvfs cm s es l s' → copies_move s es s'.
Proof.
  destruct 1 as [s e He|s now rel k|s rel|s st|s now ttl io' ex old He Hq|s p ps Hp|s allowed job q Hh Hpop Hk
    |s allowed job q Hh Hpop Hk|s job n Hh Hn|s l1 l2 job Hw Hk Hs|s l1 l2 job io' c Hw Hk Hs
    |s l1 l2 job c size size' io' okb Hw Hr|s l1 l2 job c env io' r Hw Ha Hc|s l1 l2 job r now Hw
    |s l1 l2 job now backing Hw Hk|s l1 l2 job Hw|s l1 l2 job Hw].
  - apply copies_stay; [|done]. intros p e' ->%list_elem_of_singleton. destruct He; split; intros [].
  - apply copies_stay; [|done]. intros p e. apply submit_silent.
  - by apply copies_stay; [apply silent|].
  - by apply copies_stay; [apply silent|].
  - by apply copies_stay; [apply silent|].
  - apply copies_stay; [|done]. intros p' e. unfold expired_events. destruct ps; [|apply silent].
    intros ->%list_elem_of_singleton. split; intros [].
  - apply copies_stay; [apply silent|]. unfold worker_paths. cbn. by rewrite filter_app, fmap_app, app_nil_r.
  - by apply copies_stay; [apply silent|].
  - apply copies_stay; [apply silent|]. unfold worker_paths. cbn. by rewrite filter_app, fmap_app, app_nil_r.
  - by eapply stays_copy; [exact Hw|..|apply silent].
  - by eapply stays_copy; [exact Hw|..|apply silent].
  - destruct okb; [|by eapply ends_copy; [exact Hw|..]].
    apply (copies_start _ _ _ (shown_path job) (CopyStarted (Some (display job)) (Some size'))); [done|done|].
    erewrite (worker_paths_mid copier s), (worker_paths_mid copier (mkSystem _ _ _ _ _)) by (done || exact Hw).
    cbn. by rewrite <- Permutation_middle.
  - by eapply stays_copy; [exact Hw|..|apply silent].
  - destruct r; by eapply ends_copy; [exact Hw|..].
  - eapply stays_copy; [exact Hw|done|done|done|]. intros p e. unfold validate_speech.
    destruct (Manager.is_stale _ _ _ _); try apply silent. apply submit_silent.
  - by eapply stays_copy; [exact Hw|..|apply silent].
  - apply copies_stay; [apply silent|]. unfold worker_paths. cbn. rewrite Hw, !filter_app, !fmap_app. done.
Qed.

(** The paths a dashboard shows as being copied. *)
Definition shows (d : DashboardState) (p : path) : Prop := is_Some (active_copies d !! p).

Lemma shows_quiet d evs p :
  (∀ e, e ∈ evs.*2 → ¬ starts p e ∧ ¬ ends p e) → shows (apply_all d evs) p ↔ shows d p.
Proof.
  revert d. induction evs as [|x evs IH]; intros d He; [done|].
  change (apply_all d (x :: evs)) with (apply_all (apply_event x.1 x.2 d) evs).
  rewrite IH by (intros e Hin; apply He; by right). unfold shows.
  rewrite untouched_step by (split; apply (He x.2); by left). by rewrite fmap_is_Some.
Qed.

Lemma shows_step s es s' d evs :
  copies_move s es s' → evs.*2 = es → (∀ p, shows d p → p ∈ worker_paths copier s) →
  (∀ p, shows (apply_all d evs) p → p ∈ worker_paths copier s') ∧
  (apart s → (∀ p, p ∈ worker_paths copier s → shows d p) →
   ∀ p, p ∈ worker_paths copier s' → shows (apply_all d evs) p).
Proof.
  intros Hm Hevs Hd. destruct Hm as [Hq Hp|p0 e -> Hst Hp|p0 e -> Hen Hp Hp' Ha].
  - assert (Hsame : ∀ p, shows (apply_all d evs) p ↔ shows d p).
    { intros p. apply shows_quiet. intros e. rewrite Hevs. apply Hq. }
    rewrite Hp. split; [intros p; rewrite Hsame; apply Hd|]. intros _ Hall p Hin. rewrite Hsame. by apply Hall.
  - destruct evs as [|x [|]]; [done| |done]. injection Hevs as <-. cbn [apply_all foldl].
    assert (Hx : ∀ p, shows (apply_event x.1 x.2 d) p ↔ p = p0 ∨ shows d p).
    { intros p. destruct (decide (p = p0)) as [->|Hne].
      - split; [by left|]. intros _. destruct x as [t [| | | | |[q|] n| | | | | | | | |]]; try done.
        cbn in Hst. subst p0. unfold shows. cbn. rewrite lookup_insert_eq. by eexists.
      - unfold shows. rewrite untouched_step, fmap_is_Some; [naive_solver|].
        split; destruct x as [t [| | | | |[q|] n| | | | | | | | |]]; cbn in *; congruence || (intros []). }
    setoid_rewrite Hx. setoid_rewrite Hp. setoid_rewrite elem_of_cons. naive_solver.
  - destruct evs as [|x [|]]; [done| |done]. injection Hevs as <-. cbn [apply_all foldl].
    assert (Hx : ∀ p, shows (apply_event x.1 x.2 d) p ↔ p ≠ p0 ∧ shows d p).
    { intros p. unfold shows. destruct (decide (p = p0)) as [->|Hne].
      - rewrite end_step by done. split; [intros [? [=]]|naive_solver].
      - rewrite untouched_step, fmap_is_Some; [naive_solver|].
        split; destruct x as [t [| | | | |[q|] n|[q|]|[q|]| | | | | | |]]; cbn in *; congruence || (intros []). }
    split.
    + intros p [Hne Hs]%Hx. apply Hd, Hp in Hs. set_solver.
    + intros Hap Hall p Hin. apply Hx. split; [|by apply Hall, Hp'].
      intros ->. by apply (Ha Hap).
Qed.

Lemma shows_run P s0 es l s d evs :
  trun statvfs cm P s0 es l s → evs.*2 = es → workers s0 = [] → (∀ p, ¬ shows d p) →
  (∀ p, shows (apply_all d evs) p → p ∈ worker_paths copier s) ∧
  ((∀ s, P s → apart s) → ∀ p, p ∈ worker_paths copier s → shows (apply_all d evs) p).
Proof.
  intros Hr. revert evs. induction Hr as [|es l s es' l' s' Hr IH Hs _]; intros evs Hevs Hw Hd.
  - destruct evs; [|done]. split; [by intros p ?%Hd|]. intros _ p. unfold worker_paths. rewrite Hw.
    intros []%not_elem_of_nil.
  - apply fmap_app_inv in Hevs as (evs1 & evs2 & He1 & He2 & ->).
    destruct (IH evs1 (eq_sym He1) Hw Hd) as [H1 H2]. unfold apply_all. rewrite foldl_app.
    destruct (shows_step _ _ _ (apply_all d evs1) evs2 (tstep_copies _ _ _ _ Hs) (eq_sym He2) H1) as [H3 H4].
    split; [exact H3|]. intros HP. apply H4; [|by apply H2]. eapply HP, trun_end, Hr.
Qed.

Lemma spawn_quiet i p e : e ∈ spawn_events i → ¬ starts p e ∧ ¬ ends p e.
Proof.
  unfold spawn_events. destruct (queue (pipe i)); [apply silent|].
  intros ->%list_elem_of_singleton. split; intros [].
Qed.

Lemma spawn_counts i c es :
  c ∈ [completed_copies; failed_copies] → gained c (spawn_events i ++ es) = gained c es.
Proof.
  intros Hc. rewrite gained_app. rewrite !elem_of_cons, elem_of_nil in Hc. unfold spawn_events.
  destruct_or! Hc; subst c; by destruct (queue (pipe i)).
Qed.

Lemma spawn_gauge i n es :
  floats in_flight_count n es →
  floats in_flight_count n (spawn_events i ++ es) ∧
  change in_flight_count (spawn_events i ++ es) = change in_flight_count es ∧
  rises in_flight_count (spawn_events i ++ es) = rises in_flight_count es.
Proof.
  intros Hf. unfold spawn_events. destruct (queue (pipe i)); [done|]. cbn [app].
  split_and!; [|done|done]. cbn. rewrite Z.add_0_r. split; [by destruct es, Hf|done].
Qed.

Lemma outcomes_bound ok l : (length (outcomes ok l) <= length (ended l))%nat.
Proof. unfold outcomes. rewrite length_fmap. apply length_filter. Qed.
End facts.
End CopyTelemetryFacts.

(** ** Theorems *)
Module CopyTelemetryTheorems.
Import CacheIO Pipeline PipelineTheorems Ipc IpcFacts Counters CopyTelemetry CopyTelemetryFacts.


(** ** Concrete runs *)
Definition pipeline_start : System := spawned 0 0 1 start_store.
Definition the_manager : CacheManager := ManagerWitnesses.some_manager.
Definition the_job (k : CacheJobKind) : CacheJob := mkCacheJob the_path k 5.
Definition heard_by (es : list TelemetryEvent) : DashboardState :=
  (run_client_stream (IpcFacts.message <$> (pair 7 ∘ Event <$> es)) (dashboard (h_config IpcTheorems.some_hello))).1.

(** A copy that is under way. *)
Lemma a_copy_runs :
  ∃ es l s, trun roomy the_manager apart pipeline_start es l s ∧
    es = [CopyQueued; DeferredChanged (Some 1); CopyStarted (Some "a"%string) (Some 9)] ∧
    came l = [the_job Populate] ∧ gone l = [] ∧ inside s = [the_job Populate] ∧ worker_paths copier s = [the_path].
Proof.
  eexists _, _, _. split.
  { eapply run_step; [eapply run_step; [eapply run_step; [eapply run_step; [eapply run_step|..]|..]|..]|..].
    - apply run_start. apply NoDup_nil_2.
    - apply (t_submit _ _ _ 5 the_path Populate).
    - apply NoDup_nil_2.
    - by apply (t_dispatch_copy _ _ _ true (the_job Populate) []).
    - apply NoDup_nil_2.
    - by apply (t_permit _ _ _ (the_job Populate) 0).
    - apply NoDup_nil_2.
    - by eapply (t_start _ _ _ [] [] (the_job Populate)).
    - apply NoDup_singleton.
    - by eapply (t_room _ _ _ [] [] (the_job Populate) 0 0 9).
    - apply NoDup_singleton. }
  by vm_compute.
Qed.

(** A validation that is done. *)
Lemma a_validation_runs :
  ∃ es l s, trun roomy the_manager apart pipeline_start es l s ∧ es = [CopyQueued; DeferredChanged (Some 1)] ∧
    inside s = [].
Proof.
  eexists _, _, _. split.
  { eapply run_step; [eapply run_step; [eapply run_step|..]|..].
    - apply run_start. apply NoDup_nil_2.
    - apply (t_submit _ _ _ 5 the_path Validate).
    - apply NoDup_nil_2.
    - by apply (t_dispatch_validate _ _ _ true (the_job Validate) []).
    - apply NoDup_nil_2.
    - by apply (t_validate _ _ _ [] [] (the_job Validate) 6 None).
    - apply NoDup_nil_2. }
  by vm_compute.
Qed.

(** The dashboard goes on showing a finished validation in flight, and a queue of one job that was
    taken off it long ago. *)
Lemma validations_stay_in_flight :
  ∃ es l s, trun roomy the_manager apart pipeline_start es l s ∧ inside s = [] ∧
    atomics (heard_by es) in_flight_count = 1 ∧ atomics (heard_by es) deferred_count = 1.
Proof.
  destruct a_validation_runs as (es & l & s & Hr & -> & Hi). eexists _, l, s. split; [exact Hr|].
  split; [done|]. by vm_compute.
Qed.

End CopyTelemetryTheorems.
