(* ===== verification/Startup.v ===== *)
(** * A daemon from its start to its end

    [run_daemon] of [src/main.rs] as the sequence of what one process does to what it shares:
    the log, the locks, the directories, the database, the socket, the mounts and its tasks, with
    the way back when a step fails.  What the machine answers is [Machine].  [Daemon] has the
    wiring of a mount and the interleaving of several daemons; here is the order within one. *)
From S2P Require Import Prelude Paths Scheduler Backing Disk Db Manager CacheIo Preset Prediction.
From S2P Require Import Prefetch Engine Fuse Discovery Config Instance Daemon Ipc.

(** The layers that share the events: the filters are lists of directives. *)
Inductive Subscriber :=
  | Console (filter : list string)
  | LogFile (directory prefix : string) (filter : list string)
  | Broadcast (level : Level)
  | DiscoveryLog (directory prefix suffix : string) (max_files : Z).

Inductive Effect :=
  | MakeLogDir (directory : string)
  | Subscribe (l : list Subscriber)
  | SpawnRecentLogs
  | LockInstance (name : string)
  | MakeDir (p : path)
  | OpenDb (p : option path)
  | ArmDiscovery
  | SpawnIpc (socket : path) (hello : HelloPayload)
  | SpawnPrune (days : Z)
  | UnmountStale (target : string)
  | LockTarget (target : string)
  | OpenBacking (target : string)
  | Cleanup (target : string)
  | SpawnIo (target : string)
  | SpawnEngine (target : string)
  | SpawnMaintenance (target : string)
  | MountFuse (target : string)
  | SpawnWatcher (target : string)
  | Cancel
  | Fusermount (target : string)
  | UmountLazy (target : string)
  | AwaitTasks
  | AbortTasks
  | DropMounts
  | DropTargetLocks
  | DropTasks
  | DropInstanceLock.

(** What the machine answers.  [task_ends] are the times, in milliseconds after the shutdown, at which
    the background tasks end, if they do; [fusermount] is whether it ran and succeeded. *)
Record Machine := mkMachine {
  env_filter : option (list string);
  parse_level : string → option Level;
  discovery_log_opens : bool;
  lock_instance : fallible unit;
  path_exists : string → bool;
  canonicalize : string → option path;
  make_dir : path → fallible unit;
  db_opens : bool;
  memory_db_opens : bool;
  arms : bool;
  holder : string → option string;
  lock_target : string → fallible unit;
  open_backing : string → fallible unit;
  mount_fuse : string → fallible unit;
  signal_handler : fallible unit;
  fusermount : string → option bool;
  umount_runs : string → bool;
  task_ends : list (option Z);
}.

(** Effects, and a value or an error that ends the start. *)
Definition Act (A : Type) : Type := list Effect * fallible A.
#[export] Instance act_ret : MRet Act := λ A a, ([], Ok a).
#[export] Instance act_bind : MBind Act := λ A B f m,
  match m with
  | (tr, Ok a) => let '(tr', r) := f a in (tr ++ tr', r)
  | (tr, Err e) => (tr, Err e)
  end.

Module Startup.
Import Config Instance.

Definition act (e : Effect) : Act unit := ([e], Ok tt).
Definition lift {A} (r : fallible A) : Act A := ([], r).
(** An effect that fails does not happen. *)
Definition attempt (e : Effect) (r : fallible unit) : Act unit :=
  match r with Ok _ => act e | Err x => ([], Err x) end.
Definition when (b : bool) (m : Act unit) : Act unit := if b then m else mret tt.

Section startup.
Context `{MapOrder, RegexEngine} (path_hash : string → Z) (version : string) (ma : Machine).

(** ** Logging *)
Definition discovery_off : string := "fscache::discovery=off".

Definition ipc_log_level (c : Config) : Level := default INFO (parse_level ma (console_level (logging c))).

Definition subscribers (c : Config) : list Subscriber :=
  [Console (default [console_level (logging c)] (env_filter ma) ++ [discovery_off]);
   LogFile (log_directory (logging c)) "fscache.log" [file_level (logging c); discovery_off];
   Broadcast (ipc_log_level c);
   DiscoveryLog (log_directory (logging c)) (instance_name (paths c) ++ "-discovery") "log"
                (window_days (discovery c))].

(** The log directory may exist already; without the discovery log the process panics. *)
Definition start_logging (c : Config) : Act unit :=
  _ ← act (MakeLogDir (log_directory (logging c)));
  _ ← (if discovery_log_opens ma then mret tt else lift (Err "failed to create discovery log appender"%string));
  _ ← act (Subscribe (subscribers c));
  act SpawnRecentLogs.

(** ** What the mounts share *)
Definition open_db (name : string) : Act unit :=
  if db_opens ma then act (OpenDb (Some (db_path name)))
  else if memory_db_opens ma then act (OpenDb None)
  else lift (Err "in-memory DB must open"%string).

Definition base_cache_dir (c : Config) : path := components_of (cache_directory (paths c)).

Definition mount_info_wire (c : Config) : list MountInfoWire :=
  (λ target, mkMountInfoWire target (mount_cache_dir path_hash (base_cache_dir c) target) true)
  <$> target_directories (paths c).

Definition hello (c : Config) : HelloPayload :=
  mkHelloPayload version (instance_name (paths c)) (mount_info_wire c) (db_path (instance_name (paths c))) c.

Definition prepare (c : Config) : Act Config :=
  let name := instance_name (paths c) in
  _ ← attempt (LockInstance name) (lock_instance ma);
  _ ← lift (validate_targets (path_exists ma) (canonicalize ma) (target_directories (paths c)));
  _ ← attempt (MakeDir (base_cache_dir c)) (make_dir ma (base_cache_dir c));
  _ ← attempt (MakeDir db_dir) (make_dir ma db_dir);
  _ ← open_db name;
  let c := with_resolved c in
  _ ← when (dc_enabled (discovery c) && arms ma) (act ArmDiscovery);
  _ ← act (SpawnIpc (socket_path name) (hello c));
  _ ← act (SpawnPrune (window_days (discovery c)));
  mret c.

(** ** A mount *)
Definition clean_stale (c : Config) (target : string) : Act unit :=
  when (bool_decide (holder ma target = Some (instance_name (paths c)))) (act (UnmountStale target)).

Definition serve_mount (c : Config) (target : string) : Act unit :=
  _ ← attempt (MountFuse target) (mount_fuse ma target);
  when (bw_enabled (backing_watch c)) (act (SpawnWatcher target)).

Definition mount_one (c : Config) (target : string) : Act unit :=
  let dir := mount_cache_dir path_hash (base_cache_dir c) target in
  _ ← clean_stale c target;
  _ ← attempt (LockTarget target) (lock_target ma target);
  _ ← attempt (MakeDir dir) (make_dir ma dir);
  _ ← attempt (OpenBacking target) (open_backing ma target);
  _ ← lift (Daemon.make_preset c);
  _ ← act (Cleanup target);
  _ ← lift (Scheduler.new (cache_window_start (schedule c)) (cache_window_end (schedule c)));
  _ ← act (SpawnIo target);
  _ ← act (SpawnEngine target);
  _ ← when ((0 <? poll_interval_secs (eviction c)) && check_on_maintenance (invalidation c))
           (act (SpawnMaintenance target));
  serve_mount c target.

Fixpoint mount_all (c : Config) (targets : list string) : Act unit :=
  match targets with
  | [] => mret tt
  | target :: targets' => _ ← mount_one c target; mount_all c targets'
  end.

(** ** The end *)
Definition unmount (target : string) : list Effect :=
  match fusermount ma target with
  | Some true => [Fusermount target]
  | Some false => []
  | None => if umount_runs ma target then [UmountLazy target] else []
  end.

Definition DRAIN_MS : Z := 15000.

Definition drained : bool :=
  forallb (λ t, match t with Some t => t <? DRAIN_MS | None => false end) (task_ends ma).

(** What goes when the function returns: its variables, the last one first. *)
Definition leave : list Effect := [DropTargetLocks; DropMounts; DropTasks; DropInstanceLock].

Definition stop (targets : list string) : list Effect :=
  [Cancel] ++ concat (unmount <$> targets) ++ [if drained then AwaitTasks else AbortTasks] ++ [DropMounts] ++ leave.

(** A daemon whose configuration was loaded, up to its end after a shutdown. *)
Definition run_daemon (c : Config) : list Effect * fallible unit :=
  let targets := target_directories (paths c) in
  match _ ← start_logging c; c ← prepare c; _ ← mount_all c targets; lift (signal_handler ma) with
  | (tr, Ok _) => (tr ++ stop targets, Ok tt)
  | (tr, Err e) => (tr ++ leave, Err e)
  end.
End startup.
End Startup.

(** ** What is there after some effects *)
Record Live := mkLive {
  lv_instance : option string; lv_locked : list string; lv_cleaned : list string; lv_engines : list string;
  lv_mounted : list string; lv_watched : list string; lv_socket : bool; lv_tasks : bool;
}.

Module StartupFacts.
Import Config Instance Startup.

Definition nothing : Live := mkLive None [] [] [] [] [] false false.

Definition without (t : string) (l : list string) : list string := filter (λ u, u ≠ t) l.

(** The server binds its socket when it starts and removes it when it is told to end; a task that is
    dropped or aborted removes nothing. *)
Definition apply (e : Effect) (s : Live) : Live :=
  let '(mkLive i lk cl en mo wa so ta) := s in
  match e with
  | LockInstance name => mkLive (Some name) lk cl en mo wa so ta
  | LockTarget t => mkLive i (t :: lk) cl en mo wa so ta
  | Cleanup t => mkLive i lk (t :: cl) en mo wa so ta
  | SpawnEngine t => mkLive i lk cl (t :: en) mo wa so true
  | SpawnIo _ | SpawnMaintenance _ | SpawnPrune _ => mkLive i lk cl en mo wa so true
  | SpawnIpc _ _ => mkLive i lk cl en mo wa true true
  | MountFuse t => mkLive i lk cl en (t :: mo) wa so ta
  | SpawnWatcher t => mkLive i lk cl en mo (t :: wa) so true
  | Fusermount t | UmountLazy t => mkLive i lk cl en (without t mo) wa so ta
  | AwaitTasks => mkLive i lk cl [] mo [] false false
  | AbortTasks | DropTasks => mkLive i lk cl [] mo [] so false
  | DropMounts => mkLive i lk cl en [] wa so ta
  | DropTargetLocks => mkLive i [] cl en mo wa so ta
  | DropInstanceLock => mkLive None lk cl en mo wa so ta
  | MakeLogDir _ | Subscribe _ | SpawnRecentLogs | MakeDir _ | OpenDb _ | ArmDiscovery | UnmountStale _
  | OpenBacking _ | Cancel => s
  end.

Definition after (tr : list Effect) (s : Live) : Live := foldl (λ s e, apply e s) s tr.

(** What has to be there for an effect of the start and the shutdown. *)
Definition may (e : Effect) (s : Live) : Prop :=
  match e with
  | MakeLogDir _ | Subscribe _ | SpawnRecentLogs | LockInstance _ => True
  | MountFuse t => t ∈ lv_locked s ∧ t ∈ lv_cleaned s ∧ t ∈ lv_engines s ∧ t ∉ lv_mounted s ∧ is_Some (lv_instance s) ∧ lv_socket s = true
  | SpawnWatcher t => t ∈ lv_mounted s ∧ is_Some (lv_instance s)
  | Cleanup t | SpawnIo t | SpawnEngine t | SpawnMaintenance t => t ∈ lv_locked s ∧ is_Some (lv_instance s)
  | DropTargetLocks | DropInstanceLock => False
  | _ => is_Some (lv_instance s)
  end.

Fixpoint allowed (tr : list Effect) (s : Live) : Prop :=
  match tr with [] => True | e :: tr' => may e s ∧ allowed tr' (apply e s) end.

(** A mounted target is locked, its cache was cleaned, and the process holds its instance. *)
Record guarded (s : Live) : Prop := {
  g_mounted : ∀ t, t ∈ lv_mounted s → t ∈ lv_locked s ∧ t ∈ lv_cleaned s;
  g_unique : NoDup (lv_mounted s);
  g_instance : lv_locked s ≠ [] ∨ lv_mounted s ≠ [] ∨ lv_tasks s = true ∨ lv_socket s = true → is_Some (lv_instance s);
}.

Lemma guarded_nothing : guarded nothing.
Proof. split; simpl; [set_solver|constructor|intuition congruence]. Qed.

Lemma guarded_keep s s' :
  guarded s → (∀ t, t ∈ lv_mounted s' → t ∈ lv_mounted s) → NoDup (lv_mounted s') →
  (∀ t, t ∈ lv_locked s → t ∈ lv_locked s') → (∀ t, t ∈ lv_cleaned s → t ∈ lv_cleaned s') →
  is_Some (lv_instance s') → guarded s'.
Proof.
  intros [Hm Hu Hi] H1 H2 H3 H4 H5. split; [|done|done].
  intros t [? ?]%H1%Hm. auto.
Qed.

Lemma guarded_step e s : guarded s → may e s → guarded (apply e s).
Proof.
  intros Hs Hmay. pose proof (g_unique s Hs) as Hu.
  destruct s as [i lk cl en mo wa so ta], e; simpl in Hmay |- *; try exact Hs; try (destruct Hmay; done);
    try (apply (guarded_keep _ _ Hs); simpl; try done; try tauto; set_solver).
  - destruct Hmay as (Hl & Hc & _ & Hn & Hi & _). destruct Hs as [Hm _ _]. simpl in *. split; simpl; [|by constructor|done].
    intros t [->|Ht]%elem_of_cons; auto.
  - apply (guarded_keep _ _ Hs); simpl; try done; [|by apply NoDup_filter].
    intros t [_ Ht]%list_elem_of_filter. done.
  - apply (guarded_keep _ _ Hs); simpl; try done; [|by apply NoDup_filter].
    intros t [_ Ht]%list_elem_of_filter. done.
  - apply (guarded_keep _ _ Hs); simpl; try done; [set_solver|constructor].
Qed.

Lemma allowed_app tr tr' s : allowed (tr ++ tr') s ↔ allowed tr s ∧ allowed tr' (after tr s).
Proof. revert s. induction tr as [|e tr IH]; intros s; simpl; [tauto|]. rewrite IH. tauto. Qed.

Lemma after_app tr tr' s : after (tr ++ tr') s = after tr' (after tr s).
Proof. apply foldl_app. Qed.

Lemma allowed_guarded tr s : guarded s → allowed tr s → guarded (after tr s).
Proof. revert s. induction tr as [|e tr IH]; intros s Hs; simpl; [done|]. intros [He Ht]. apply IH; [by apply guarded_step|done]. Qed.

Lemma allowed_prefix tr k s : allowed tr s → allowed (take k tr) s.
Proof. intros H. rewrite <- (take_drop k tr) in H. by apply allowed_app in H as [? _]. Qed.

(** *** Steps that are allowed, and what they leave *)
Definition wp {A} (m : Act A) (Q : A → Live → Prop) (s : Live) : Prop :=
  allowed m.1 s ∧ match m.2 with Ok a => Q a (after m.1 s) | Err _ => True end.

Lemma wp_bind {A B} (m : Act A) (f : A → Act B) Q s : wp m (λ a, wp (f a) Q) s → wp (m ≫= f) Q s.
Proof.
  destruct m as [tr [a|e]]; unfold wp; simpl; [|done]. intros [H1 H2].
  destruct (f a) as [tr' r] eqn:E. simpl in *. rewrite allowed_app, after_app. tauto.
Qed.

Lemma wp_ret {A} (a : A) Q s : Q a s → wp (mret a) Q s.
Proof. by split. Qed.

Lemma wp_act e Q s : may e s → Q tt (apply e s) → wp (act e) Q s.
Proof. by split. Qed.

Lemma wp_attempt e r Q s : may e s → Q tt (apply e s) → wp (attempt e r) Q s.
Proof. destruct r; by split. Qed.

Lemma wp_lift {A} (r : fallible A) (Q : A → Live → Prop) s : (∀ a, r = Ok a → Q a s) → wp (lift r) Q s.
Proof. intros H. split; [done|]. simpl. destruct r; auto. Qed.

Lemma wp_when b m Q s : (b = true → wp m Q s) → (b = false → Q tt s) → wp (when b m) Q s.
Proof. destruct b; intros H1 H2; [by apply H1|]. split; [done|]. by apply H2. Qed.

Lemma wp_mono {A} (m : Act A) (Q R : A → Live → Prop) s : wp m Q s → (∀ a s', Q a s' → R a s') → wp m R s.
Proof. intros [H1 H2] HR. split; [done|]. destruct (m.2); auto. Qed.

Section facts.
Context `{MapOrder, RegexEngine} (path_hash : string → Z) (version : string) (ma : Machine).
(** The empty path does not exist. *)
Context (Hempty : path_exists ma "" = false).

Lemma wp_logging c s : wp (start_logging ma c) (λ _ s', s' = s) s.
Proof.
  unfold start_logging. apply wp_bind, wp_act; [done|]. apply wp_bind.
  destruct (discovery_log_opens ma); [|by apply wp_lift]. apply wp_ret.
  apply wp_bind, wp_act; [done|]. apply wp_act; [done|]. by destruct s.
Qed.

(** The process holds its instance, serves its socket, and has these targets mounted. *)
Definition serving (mounted : list string) (s : Live) : Prop :=
  is_Some (lv_instance s) ∧ lv_socket s = true ∧ lv_mounted s = mounted.

Lemma wp_open_db name (Q : unit → Live → Prop) s : is_Some (lv_instance s) → Q tt s → wp (open_db ma name) Q s.
Proof.
  intros Hi HQ. unfold open_db. destruct (db_opens ma); [apply wp_act; [exact Hi|by destruct s]|].
  destruct (memory_db_opens ma); [apply wp_act; [exact Hi|by destruct s]|by apply wp_lift].
Qed.

(** What an effect of a start needs is there. *)
Ltac held := simpl; first [done|by eexists|split; [by left|done]].

Lemma wp_prepare c :
  wp (prepare path_hash version ma c)
    (λ c' s', c' = with_resolved c ∧ serving [] s' ∧ NoDup (target_directories (paths c))) nothing.
Proof.
  unfold prepare. apply wp_bind, wp_attempt; [held|]. apply wp_bind, wp_lift.
  intros [] Hv. apply (DaemonFacts.checked_targets path_hash id _ _ Hempty) in Hv as [Hnd _].
  apply wp_bind, wp_attempt; [held|]. apply wp_bind, wp_attempt; [held|].
  apply wp_bind, wp_open_db; [held|].
  apply wp_bind, wp_when; intros _; [apply wp_act; [held|]|];
    (apply wp_bind, wp_act; [held|]; apply wp_bind, wp_act; [held|]; apply wp_ret; split_and!; try done; by eexists).
Qed.

Lemma wp_mount_one c target mounted s :
  serving mounted s → target ∉ mounted →
  wp (mount_one path_hash ma c target) (λ _ s', serving (target :: mounted) s') s.
Proof.
  intros (Hi & Hso & Hmo) Ht. destruct s as [i lk cl en mo wa so ta]. simpl in *. subst mo so.
  unfold mount_one, serve_mount. apply wp_bind. unfold clean_stale.
  apply wp_mono with (Q := λ _ s', s' = mkLive i lk cl en mounted wa true ta).
  { apply wp_when; intros _; [by apply wp_act; [exact Hi|]|done]. }
  intros _ s' ->. apply wp_bind, wp_attempt; [held|]. apply wp_bind, wp_attempt; [held|].
  apply wp_bind, wp_attempt; [held|]. apply wp_bind, wp_lift. intros preset _.
  apply wp_bind, wp_act; [held|]. apply wp_bind, wp_lift. intros sc _.
  apply wp_bind, wp_act; [held|]. apply wp_bind, wp_act; [held|].
  apply wp_bind, wp_when; intros _; [apply wp_act; [held|]|];
    (apply wp_bind, wp_attempt; [simpl; split_and!; try (by left); [done|exact Hi|done]|]; apply wp_when; intros _;
     [apply wp_act; [held|]; done|done]).
Qed.

Lemma wp_mount_all c targets mounted s :
  serving mounted s → NoDup (reverse mounted ++ targets) →
  wp (mount_all path_hash ma c targets) (λ _ s', serving (reverse targets ++ mounted) s') s.
Proof.
  revert mounted s. induction targets as [|t targets IH]; intros mounted s Hs Hnd; simpl.
  { by apply wp_ret. }
  apply wp_bind. eapply wp_mono; [apply wp_mount_one; [exact Hs|]|].
  - apply NoDup_app in Hnd as (_ & Hd & _). intros Hin. apply (Hd t); [by rewrite elem_of_reverse|by left].
  - intros [] s' Hs'. eapply wp_mono; [apply IH; [exact Hs'|]|].
    + rewrite reverse_cons, <- app_assoc. done.
    + intros [] s2. simpl. rewrite reverse_cons, <- app_assoc. done.
Qed.

(** *** The end *)
Lemma unmount_allowed targets s :
  is_Some (lv_instance s) →
  let tr := concat (unmount ma <$> targets) in
  allowed tr s ∧ lv_instance (after tr s) = lv_instance s ∧ lv_socket (after tr s) = lv_socket s.
Proof.
  revert s. induction targets as [|t targets IH]; intros s Hi; cbn zeta; [done|]. rewrite fmap_cons. cbn [concat].
  rewrite allowed_app, after_app.
  assert (Hone : allowed (unmount ma t) s ∧ lv_instance (after (unmount ma t) s) = lv_instance s ∧
                 lv_socket (after (unmount ma t) s) = lv_socket s).
  { unfold unmount. destruct s. destruct (fusermount ma t) as [[]|]; [done..|]. by destruct (umount_runs ma t). }
  destruct Hone as (H1 & H2 & H3). rewrite <- H2 in Hi. destruct (IH _ Hi) as (H4 & H5 & H6).
  split_and!; [done..|congruence|congruence].
Qed.

Lemma leave_leaves s :
  let s' := after leave s in
  lv_instance s' = None ∧ lv_locked s' = [] ∧ lv_mounted s' = [] ∧ lv_engines s' = [] ∧ lv_watched s' = [] ∧
  lv_tasks s' = false ∧ lv_socket s' = lv_socket s.
Proof. by destruct s. Qed.

(** *** The whole run *)
Definition start (c : Config) : Act unit :=
  _ ← start_logging ma c; c' ← prepare path_hash version ma c;
  _ ← mount_all path_hash ma c' (target_directories (paths c)); lift (signal_handler ma).

Lemma wp_start c :
  wp (start c) (λ _ s', serving (reverse (target_directories (paths c))) s') nothing.
Proof.
  unfold start. apply wp_bind. eapply wp_mono; [apply wp_logging|]. intros [] s ->.
  apply wp_bind. eapply wp_mono; [apply wp_prepare|]. intros c' s (-> & Hs & Hnd).
  apply wp_bind. eapply wp_mono; [apply (wp_mount_all _ _ [] s Hs); done|].
  intros [] s' Hs'. apply wp_lift. intros [] _. by rewrite app_nil_r in Hs'.
Qed.

(** What a shutdown does before the function returns. *)
Definition shutdown (targets : list string) : list Effect :=
  [Cancel] ++ concat (unmount ma <$> targets) ++ [if drained ma then AwaitTasks else AbortTasks] ++ [DropMounts].

Lemma shutdown_allowed targets s :
  is_Some (lv_instance s) →
  allowed (shutdown targets) s ∧ (drained ma = true → lv_socket (after (shutdown targets) s) = false).
Proof.
  intros Hi. unfold shutdown. rewrite !allowed_app, !after_app.
  assert (Hc : apply Cancel s = s) by by destruct s. simpl. rewrite Hc.
  destruct (unmount_allowed targets s Hi) as (H1 & H2 & H3).
  set (s' := after _ s) in *. assert (Hi' : is_Some (lv_instance s')) by by rewrite H2.
  clearbody s'. clear -Hi Hi' H1.
  destruct s' as [i lk cl en mo wa so ta]. simpl in *. destruct (drained ma); simpl; split_and!; done.
Qed.
End facts.
End StartupFacts.

(** ** Properties *)
Module StartupTheorems.
Import Config Instance Startup StartupFacts.

(** ** Witnesses: two targets, the second of which can be mounted or not *)
#[local] Existing Instance PredictionTheorems.demo_engine.

Definition two_targets : Config :=
  from_raw (mkRawConfig (mkPathsConfig ["/a"%string; "/b"%string] "/cache" "tv") None None None None None None None
              None None None None).

Definition machine (second : fallible unit) : Machine :=
  mkMachine None (λ _, None) true (Ok tt) (λ t, negb (bool_decide (t = ""%string))) (λ _, None) (λ _, Ok tt) true true true
    (λ t, if decide (t = "/a"%string) then Some "tv"%string else None) (λ _, Ok tt) (λ _, Ok tt)
    (λ t, if decide (t = "/b"%string) then second else Ok tt) (Ok tt) (λ _, Some true) (λ _, true) [Some 40; Some 900].

Definition no_hash (_ : string) : Z := 0.


(** ** Where the end is not orderly

    When a later target cannot be mounted, the locks of the targets go before the mounts that are
    already there, and the server is dropped without removing its socket. *)
Lemma failed_start_unlocks_before_it_unmounts :
  let tr := (run_daemon no_hash "1.0" (machine (Err "no"%string)) two_targets).1 in
  (∃ k, lv_mounted (after (take k tr) nothing) = ["/a"%string] ∧ lv_locked (after (take k tr) nothing) = []) ∧
  lv_socket (after tr nothing) = true.
Proof. split; [|vm_compute; reflexivity]. exists 27%nat. by vm_compute. Qed.
End StartupTheorems.
