(* ===== verification/Server.v ===== *)
(** * The server of a daemon's socket

    [run_ipc_server] of [src/ipc/server.rs] and the task of [src/ipc/recent_logs.rs]: binding the
    socket, accepting clients, the broadcast channel each of them follows with a cursor of its own,
    and the goodbye.  The handler of one connection is [Ipc.handle_client]; here any number of
    them run next to the daemon, and each step of one of them is a step of the whole. *)
From S2P Require Import Prelude Paths Scheduler Backing Disk Db Manager CacheIo Preset Engine Fuse.
From S2P Require Import Discovery Config Instance Ipc.

(** A connection: where it subscribed, how far it has read, how many messages it lost by being slow,
    and the handler once it has greeted the client. *)
Record Client := mkClient { cl_start : nat; cl_cursor : nat; cl_missed : nat; cl_conn : option Conn }.

Inductive SocketFile := Absent | Bound | Foreign (alive : bool).

Inductive Phase := Refused | Listening | Parting | Gone.
#[export] Instance Phase_eq_dec : EqDecision Phase.
Proof. solve_decision. Defined.

(** The bus is everything that was sent on the channel. *)
Record Server := mkServer {
  sv_phase : Phase; sv_socket : SocketFile; sv_bus : list DaemonMessage;
  sv_recent : list LogLine; sv_recent_cursor : nat;
  sv_daemon : DaemonState; sv_clients : list Client;
}.

Module Server.
Import Ipc.

(** The broadcast channel: [Receiver::recv] from a cursor among the messages sent; [None] is waiting. *)
Class Channel : Type := {
  capacity : nat;
  recv : nat → list DaemonMessage → option (ClientInput * nat);
}.

(** It gives the next message, or reports how many it skipped to reach the messages still held; it
    waits only at the end. *)
Class ChannelLaws `{Channel} : Prop := {
  recv_spec cursor bus input cursor' :
    (cursor <= length bus)%nat → recv cursor bus = Some (input, cursor') →
    (∃ m, input = FromBus m ∧ bus !! cursor = Some m ∧ cursor' = S cursor) ∨
    (∃ n, input = Lagged (Z.of_nat n) ∧ n ≠ O ∧ cursor' = (cursor + n)%nat ∧ (cursor' <= length bus - capacity)%nat);
  recv_waits cursor bus : (cursor < length bus)%nat → is_Some (recv cursor bus);
}.

Section server.
Context `{Channel}.
(** Which writes succeed, by client and message. *)
Context (cwd : path) (writable : nat → nat → bool) (hello : HelloPayload).

(** Until the loop: a socket someone answers on is left alone, any other is removed and bound. *)
Definition start (bind_ok : bool) (socket : SocketFile) (d : DaemonState) : Server :=
  match socket with
  | Foreign true => mkServer Refused socket [] [] 0 d []
  | _ => if bind_ok then mkServer Listening Bound [] [] 0 d [] else mkServer Refused Absent [] [] 0 d []
  end.

Definition set_clients (l : list Client) (s : Server) : Server :=
  mkServer (sv_phase s) (sv_socket s) (sv_bus s) (sv_recent s) (sv_recent_cursor s) (sv_daemon s) l.

Definition publish (m : DaemonMessage) (s : Server) : Server :=
  mkServer (sv_phase s) (sv_socket s) (sv_bus s ++ [m]) (sv_recent s) (sv_recent_cursor s) (sv_daemon s) (sv_clients s).

(** An accepted client subscribes at once; its handler starts when it is scheduled. *)
Definition accept (s : Server) : Server :=
  set_clients (sv_clients s ++ [mkClient (length (sv_bus s)) (length (sv_bus s)) 0 None]) s.

Definition greet_client (i : nat) (c : Client) (s : Server) : Client :=
  mkClient (cl_start c) (cl_cursor c) (cl_missed c)
    (Some (greet (writable i) hello (sv_recent s) (sv_daemon s))).

(** One input of a handler. *)
Definition on_input (i : nat) (input : ClientInput) (s : DaemonState) (c : Conn) : DaemonState * Conn :=
  client_step cwd (writable i) (s, c) input.

Definition receive (i : nat) (c : Client) (conn : Conn) (s : Server) : option Client :=
  '(input, cursor) ← recv (cl_cursor c) (sv_bus s);
  let missed := match input with Lagged n => Z.to_nat n | _ => O end in
  Some (mkClient (cl_start c) cursor (cl_missed c + missed)
          (Some (on_input i input (sv_daemon s) conn).2)).

(** A command acts on the daemon, which broadcasts what came of it. *)
Definition command (i : nat) (now : Z) (f : Frame ClientMessage) (c : Client) (conn : Conn) (s : Server) : Server :=
  let '(d, conn') := on_input i (FromClient now f) (sv_daemon s) conn in
  mkServer (sv_phase s) (sv_socket s)
    (sv_bus s ++ (Event <$> drop (length (d_sent (sv_daemon s))) (d_sent d)))
    (sv_recent s) (sv_recent_cursor s) d
    (<[i := mkClient (cl_start c) (cl_cursor c) (cl_missed c) (Some conn')]> (sv_clients s)).

(** The task that keeps the recent log lines, a receiver like the others. *)
Definition recent_step (s : Server) : Server :=
  match recv (sv_recent_cursor s) (sv_bus s) with
  | Some (input, cursor) =>
      mkServer (sv_phase s) (sv_socket s) (sv_bus s)
        (match input with FromBus m => recent_logs_task (sv_recent s) m | _ => sv_recent s end)
        cursor (sv_daemon s) (sv_clients s)
  | None => s
  end.

(** Cancelled: the goodbye is sent and, after a pause, the socket is removed. *)
Definition part (s : Server) : Server :=
  let s := publish Goodbye s in
  mkServer Parting (sv_socket s) (sv_bus s) (sv_recent s) (sv_recent_cursor s) (sv_daemon s) (sv_clients s).

Definition remove_socket (s : Server) : Server :=
  mkServer Gone Absent (sv_bus s) (sv_recent s) (sv_recent_cursor s) (sv_daemon s) (sv_clients s).

Definition cancel (s : Server) : Server :=
  let d := sv_daemon s in
  mkServer (sv_phase s) (sv_socket s) (sv_bus s) (sv_recent s) (sv_recent_cursor s)
    (mkDaemonState (d_disk d) (d_ctl d) true (d_sent d)) (sv_clients s).

Inductive sstep : Server → Server → Prop :=
  | s_publish s m : m ≠ Goodbye → sstep s (publish m s)
  | s_recent s : sstep s (recent_step s)
  | s_accept s : sv_phase s = Listening → sstep s (accept s)
  | s_greet s i c :
      sv_clients s !! i = Some c → cl_conn c = None →
      sstep s (set_clients (<[i := greet_client i c s]> (sv_clients s)) s)
  | s_receive s i c conn c' :
      sv_clients s !! i = Some c → cl_conn c = Some conn → open_ conn = true →
      receive i c conn s = Some c' → sstep s (set_clients (<[i := c']> (sv_clients s)) s)
  | s_command s i c conn now f :
      sv_clients s !! i = Some c → cl_conn c = Some conn → open_ conn = true →
      sstep s (command i now f c conn s)
  | s_cancel s : sstep s (cancel s)
  | s_part s : sv_phase s = Listening → d_cancelled (sv_daemon s) = true → sstep s (part s)
  | s_gone s : sv_phase s = Parting → sstep s (remove_socket s).

Definition reachable (s : Server) : Prop :=
  ∃ bind_ok socket d, rtc sstep (start bind_ok socket d) s.
End server.
End Server.

(** ** Lemmas *)
Module ServerFacts.
Import Ipc IpcFacts Server.

Section facts.
Context `{ChannelLaws} (cwd : path) (writable : nat → nat → bool) (hello : HelloPayload).
Implicit Types s : Server.

Definition greeting_of (recent : list LogLine) (c : Controller) : list DaemonMessage :=
  Hello hello :: (Log <$> recent) ++ [status_message c].

Lemma send_msg_spec w m c :
  send_msg w m c = c ∧ open_ c = false ∨
  open_ c = true ∧ (send_msg w m c = mkConn (written c ++ [m]) true ∨ send_msg w m c = mkConn (written c) false).
Proof. unfold send_msg. destruct (open_ c) eqn:E; [|by left]. right. split; [done|]. destruct (w _); auto. Qed.

(** What a run of writes leaves is a beginning of what was to be written. *)
Lemma send_all_prefix w ms c :
  let c' := foldl (λ c m, send_msg w m c) c ms in
  ∃ k, written c' = written c ++ take k ms ∧ (open_ c' = true → k = length ms).
Proof.
  revert c. induction ms as [|m ms IH]; intros c; cbn zeta.
  { exists O. by rewrite app_nil_r. }
  cbn [foldl]. destruct (IH (send_msg w m c)) as (k & Hk & Ho).
  destruct (send_msg_spec w m c) as [[E Hc]|[Hc [E|E]]]; rewrite E in Hk, Ho |- *.
  - assert (Hclosed : ∀ ms, foldl (λ c m, send_msg w m c) c ms = c).
    { clear -Hc. induction ms as [|m ms IH]; [done|]. cbn [foldl].
      destruct (send_msg_spec w m c) as [[-> _]|[? _]]; [done|congruence]. }
    rewrite Hclosed. exists O. rewrite app_nil_r. split; [done|congruence].
  - exists (S k). split; [rewrite Hk; simpl; by rewrite <- app_assoc|]. intros Hopen. by rewrite (Ho Hopen).
  - assert (Hclosed : ∀ ms, foldl (λ c m, send_msg w m c) (mkConn (written c) false) ms = mkConn (written c) false)
      by (clear; induction ms as [|m ms IH]; done).
    rewrite Hclosed. exists O. by rewrite app_nil_r.
Qed.

Lemma send_all_take w ms c :
  written c = [] → ∃ k, written (foldl (λ c m, send_msg w m c) c ms) = take k ms.
Proof. intros Hc. destruct (send_all_prefix w ms c) as (k & Hk & _). exists k. by rewrite Hk, Hc. Qed.

Lemma greet_prefix w recent d :
  ∃ k, written (greet w hello recent d) = take k (greeting_of recent (d_ctl d)) ∧
       (open_ (greet w hello recent d) = true → (S (length recent) <= k)%nat).
Proof.
  set (st := status_message (d_ctl d)). set (ms := Hello hello :: (Log <$> recent)).
  change (greeting_of recent (d_ctl d)) with (ms ++ [st]).
  assert (Hms : length ms = S (length recent)) by (unfold ms; simpl; by rewrite length_fmap).
  assert (Hg : greet w hello recent d =
    let c := foldl (λ c m, send_msg w m c) (mkConn [] true) ms in
    if open_ c then mkConn (written (send_msg w st c)) true else c) by done.
  rewrite Hg. cbn zeta. destruct (send_all_prefix w ms (mkConn [] true)) as (k & Hk & Ho).
  destruct (foldl _ _ ms) as [out []]; cbn [open_ written] in *; simpl in Hk.
  - rewrite (Ho eq_refl), firstn_all in Hk. subst out.
    destruct (send_msg_spec w st (mkConn ms true)) as [[-> _]|[_ [-> | ->]]]; cbn [written].
    + exists (length ms). rewrite take_app_le, firstn_all by lia. split; [done|lia].
    + exists (S (length ms)). rewrite take_ge by (rewrite length_app; simpl; lia). split; [done|lia].
    + exists (length ms). rewrite take_app_le, firstn_all by lia. split; [done|lia].
  - exists (Nat.min k (length ms)). rewrite take_app_le by lia.
    by rewrite <- firstn_firstn, firstn_all.
Qed.

(** *** What a client was sent *)

(** What the channel carried between the subscription and the cursor. *)
Definition window (c : Client) (bus : list DaemonMessage) : list DaemonMessage :=
  drop (cl_start c) (take (cl_cursor c) bus).

Definition in_range (bus : list DaemonMessage) (c : Client) : Prop :=
  (cl_start c <= cl_cursor c)%nat ∧ (cl_cursor c <= length bus)%nat.

(** The messages relayed after the greeting. *)
Definition relays (seen relayed : list DaemonMessage) (missed : nat) (running : bool) : Prop :=
  relayed `sublist_of` seen ∧
  (running = true → missed = O → relayed = seen) ∧
  (running = true → Goodbye ∉ relayed) ∧
  ∀ r1 r2, relayed = r1 ++ Goodbye :: r2 → r2 = [].

Definition follows (bus : list DaemonMessage) (c : Client) : Prop :=
  in_range bus c ∧
  match cl_conn c with
  | None => cl_cursor c = cl_start c ∧ cl_missed c = O
  | Some conn =>
      ∃ recent ctl k relayed,
        written conn = take k (greeting_of recent ctl) ++ relayed ∧
        (open_ conn = true → (S (length recent) <= k)%nat) ∧
        relays (window c bus) relayed (cl_missed c) (open_ conn)
  end.

Lemma window_grows c bus l : (cl_cursor c <= length bus)%nat → window c (bus ++ l) = window c bus.
Proof. intros Hc. unfold window. by rewrite take_app_le. Qed.

Lemma window_next st cu mi conn mi' conn' bus m :
  (st <= cu)%nat → bus !! cu = Some m →
  window (mkClient st (S cu) mi conn) bus = window (mkClient st cu mi' conn') bus ++ [m].
Proof.
  intros Hst Hm. pose proof (lookup_lt_Some _ _ _ Hm). unfold window. cbn [cl_start cl_cursor].
  rewrite (take_S_r _ _ m) by done. rewrite drop_app_le; [done|]. rewrite length_take. lia.
Qed.

Lemma window_skip st cu cu' mi conn mi' conn' bus :
  (cu <= cu')%nat →
  window (mkClient st cu mi conn) bus `sublist_of` window (mkClient st cu' mi' conn') bus.
Proof.
  intros Hcu. unfold window. cbn [cl_start cl_cursor].
  replace cu with (Nat.min cu cu') by lia. rewrite <- firstn_firstn.
  generalize (take cu' bus). intros l. rewrite <- (take_drop cu l) at 2.
  destruct (decide (st <= length (take cu l))%nat) as [Hs|Hs].
  - rewrite drop_app_le by done. by apply sublist_inserts_r.
  - rewrite (drop_ge (take cu l)) by lia. apply sublist_nil_l.
Qed.

Lemma follows_grows bus l c : follows bus c → follows (bus ++ l) c.
Proof.
  intros [[Hs Hl] Hc]. split; [split; [done|]; rewrite length_app; lia|].
  destruct (cl_conn c); [|done]. by rewrite window_grows.
Qed.
Definition is_goodbye (m : DaemonMessage) : bool := match m with Goodbye => true | _ => false end.

Lemma relays_closed seen relayed missed running : relays seen relayed missed running → relays seen relayed missed false.
Proof. intros (? & _ & _ & ?). by split_and!. Qed.

Lemma relays_skip seen seen' relayed missed missed' running :
  relays seen relayed missed running → seen `sublist_of` seen' → missed' ≠ O →
  relays seen' relayed missed' running.
Proof. intros (? & _ & ? & ?) ? ?. split_and!; try done. by etrans. Qed.

Lemma relays_send seen relayed missed m :
  relays seen relayed missed true →
  relays (seen ++ [m]) (relayed ++ [m]) missed (negb (is_goodbye m)) ∧
  relays (seen ++ [m]) relayed missed false.
Proof.
  intros (Hsub & Heq & Hgb & Hend). specialize (Hgb eq_refl).
  split; [|split_and!; try done; by apply sublist_inserts_r].
  split_and!.
  - by apply sublist_app.
  - intros _ Hm0. by rewrite (Heq eq_refl Hm0).
  - intros Hm. rewrite elem_of_app, list_elem_of_singleton. by intros [?|<-].
  - intros r1 r2 Hr. destruct r2 as [|x r2 _] using rev_ind; [done|].
    rewrite app_comm_cons, app_assoc in Hr. apply app_inj_tail in Hr as [-> ->].
    destruct Hgb. apply elem_of_app. right. by left.
Qed.

Lemma receive_follows i c conn s c' :
  follows (sv_bus s) c → cl_conn c = Some conn → open_ conn = true →
  receive cwd writable i c conn s = Some c' → follows (sv_bus s) c'.
Proof.
  intros [[Hs1 Hs2] Hc] Hconn Hopen Hr. destruct c as [st cu mi [conn0|]]; simplify_eq/=.
  destruct Hc as (recent & ctl & k & relayed & Hw & Hk & Hrel). rewrite Hopen in Hrel. specialize (Hk Hopen).
  unfold receive in Hr. cbn [cl_cursor cl_start cl_missed] in Hr.
  destruct (recv _ _) as [[input cu']|] eqn:Hrecv; simplify_eq/=.
  apply recv_spec in Hrecv as [(m & -> & Hm & ->)|(n & -> & Hn & -> & Hle)]; [| |done].
  - rewrite Nat.add_0_r. pose proof (lookup_lt_Some _ _ _ Hm).
    split; [split; simpl; lia|]. cbn [cl_conn cl_missed].
    unfold on_input, client_step. rewrite Hopen.
    apply relays_send with (m := m) in Hrel as [Hsent Hfail].
    rewrite <- (window_next st cu mi None mi (Some conn)) in Hsent, Hfail by done.
    destruct (send_msg_spec (writable i) m conn) as [[_ ?]|[_ [E|E]]]; [congruence| |]; rewrite E.
    + exists recent, ctl, k, (relayed ++ [m]).
      assert (Hw' : written conn ++ [m] = take k (greeting_of recent ctl) ++ relayed ++ [m])
        by by rewrite Hw, app_assoc.
      destruct m; by split_and!.
    + exists recent, ctl, k, relayed. destruct m; by split_and!.
  - rewrite Nat2Z.id. split; [split; simpl; lia|].
    unfold on_input, client_step. rewrite Hopen. cbn [snd cl_conn cl_missed].
    exists recent, ctl, k, relayed. rewrite Hopen. split_and!; try done.
    eapply relays_skip; [done| |lia]. apply window_skip. lia.
Qed.
Lemma greet_follows i c s :
  follows (sv_bus s) c → cl_conn c = None → follows (sv_bus s) (greet_client writable hello i c s).
Proof.
  intros [[Hs1 Hs2] Hc] Hconn. rewrite Hconn in Hc. destruct Hc as [Hcu Hmi].
  split; [done|]. cbn [greet_client cl_conn cl_missed cl_start cl_cursor].
  destruct (greet_prefix (writable i) (sv_recent s) (sv_daemon s)) as (k & Hk & Ho).
  exists (sv_recent s), (d_ctl (sv_daemon s)), k, []. rewrite app_nil_r. unfold relays. split_and!; try done.
  - apply sublist_nil_l.
  - intros _ _. unfold window. cbn [greet_client cl_start cl_cursor].
    rewrite drop_ge; [done|]. rewrite length_take. lia.
  - set_solver.
  - intros [|] ? ?; discriminate.
Qed.

(** A command writes nothing; all it can do to the connection is end it. *)
Lemma on_input_client i now f d conn :
  let conn' := (on_input cwd writable i (FromClient now f) d conn).2 in conn' = conn ∨ conn' = close conn.
Proof.
  unfold on_input, client_step. destruct (open_ conn); [|by left].
  destruct f as [m| |]; [|by right..]. destruct (handle_message cwd now m d) as [d' []]; [by right|by left].
Qed.

Lemma closed_follows bus st cu mi conn :
  follows bus (mkClient st cu mi (Some conn)) → follows bus (mkClient st cu mi (Some (close conn))).
Proof.
  intros [Hr (recent & ctl & k & relayed & Hw & _ & Hrel)]. split; [done|].
  exists recent, ctl, k, relayed. split_and!; try done. by eapply relays_closed.
Qed.

(** *** The whole server *)

Definition said_goodbye (bus : list DaemonMessage) (clients : list Client) : Prop :=
  ∃ before after, bus = before ++ Goodbye :: after ∧ Goodbye ∉ before ∧ Goodbye ∉ after ∧
    Forall (λ c, (cl_start c <= length before)%nat) clients.

Definition socket_of (p : Phase) (f : SocketFile) : Prop :=
  match p with Listening | Parting => f = Bound | Gone => f = Absent | Refused => f ≠ Bound end.

Definition inv (s : Server) : Prop :=
  Forall (follows (sv_bus s)) (sv_clients s) ∧
  socket_of (sv_phase s) (sv_socket s) ∧
  match sv_phase s with
  | Refused => sv_clients s = [] ∧ Goodbye ∉ sv_bus s
  | Listening => Goodbye ∉ sv_bus s
  | Parting | Gone => said_goodbye (sv_bus s) (sv_clients s)
  end.

Lemma inv_start bind_ok socket d : inv (start bind_ok socket d).
Proof.
  unfold start, inv. destruct socket as [| |[]], bind_ok; simpl; split_and!; auto using Forall_nil;
    try discriminate; set_solver.
Qed.

(** A step that says something and moves one client, if any. *)
Lemma inv_grows s l clients :
  inv s → Goodbye ∉ l → cl_start <$> clients = cl_start <$> sv_clients s →
  Forall (follows (sv_bus s ++ l)) clients →
  ∀ r rc d, inv (mkServer (sv_phase s) (sv_socket s) (sv_bus s ++ l) r rc d clients).
Proof.
  intros (_ & Hsock & Hph) Hl Hst Hf r rc d. unfold inv. cbn [sv_bus sv_clients sv_phase sv_socket].
  split; [done|]. split; [done|].
  assert (Hsaid : said_goodbye (sv_bus s) (sv_clients s) → said_goodbye (sv_bus s ++ l) clients).
  { intros (b1 & b2 & -> & H1 & H2 & H3). exists b1, (b2 ++ l). rewrite <- app_assoc.
    split_and!; [done..|set_solver|].
    apply (Forall_fmap cl_start (λ n, (n <= length b1)%nat)). rewrite Hst. by apply Forall_fmap. }
  destruct (sv_phase s); [|set_solver|by apply Hsaid..].
  destruct Hph as [Hc Hph]. split; [|set_solver]. rewrite Hc in Hst. by destruct clients.
Qed.

Lemma starts_insert i c c' (clients : list Client) :
  clients !! i = Some c → cl_start c' = cl_start c → cl_start <$> <[i := c']> clients = cl_start <$> clients.
Proof.
  intros Hi Hc. rewrite list_fmap_insert, Hc. apply list_insert_id. by rewrite list_lookup_fmap, Hi.
Qed.

(** One client moves. *)
Lemma inv_client s i c c' :
  inv s → sv_clients s !! i = Some c → cl_start c' = cl_start c → follows (sv_bus s) c' →
  inv (set_clients (<[i := c']> (sv_clients s)) s).
Proof.
  intros Hs Hi Hc Hf. unfold set_clients. rewrite <- (app_nil_r (sv_bus s)).
  apply inv_grows; [done|set_solver|by eapply starts_insert|].
  rewrite app_nil_r. apply Forall_insert; [apply Hs|done].
Qed.
Lemma inv_step s s' : sstep cwd writable hello s s' → inv s → inv s'.
Proof.
  intros Hstep Hs. pose proof Hs as (Hf & Hsock & Hph).
  destruct Hstep as [s m Hm|s|s Hl|s i c Hi Hc|s i c conn c' Hi Hc Ho Hr|s i c conn now f Hi Hc Ho|s|s Hl Hcan|s Hp].
  - apply inv_grows; [done|set_solver|done|]. by eapply Forall_impl, follows_grows.
  - unfold recent_step. destruct (recv _ _) as [[]|]; exact Hs.
  - unfold inv in *. rewrite Hl in *. cbn. rewrite Hl. split_and!; [|done..].
    apply Forall_app. split; [done|]. apply Forall_singleton. repeat split; done.
  - eapply inv_client; [done..|]. apply greet_follows; [|done]. by eapply Forall_lookup_1.
  - assert (Hfc : follows (sv_bus s) c) by by eapply Forall_lookup_1.
    eapply inv_client; [done..| |by eapply receive_follows].
    unfold receive in Hr. destruct (recv _ _) as [[]|]; by simplify_eq/=.
  - assert (Hfc : follows (sv_bus s) c) by by eapply Forall_lookup_1.
    unfold command. destruct (on_input cwd writable i (FromClient now f) (sv_daemon s) conn) as [d conn'] eqn:E.
    apply inv_grows; [done| |by eapply starts_insert|].
    + intros (e & He & _)%list_elem_of_fmap. done.
    + apply Forall_insert; [by eapply Forall_impl, follows_grows|]. apply follows_grows.
      destruct c as [st cu mi oc]; simplify_eq/=.
      pose proof (on_input_client i now f (sv_daemon s) conn) as Hin. rewrite E in Hin.
      cbn [snd] in Hin. destruct Hin as [-> | ->]; [done|by apply closed_follows].
  - exact Hs.
  - unfold inv, part. rewrite Hl in Hsock, Hph. cbn. split_and!; [|done|].
    + by eapply Forall_impl, follows_grows.
    + exists (sv_bus s), []. split_and!; [done..|set_solver|].
      eapply Forall_impl; [done|]. intros c [[? ?] _]. lia.
  - unfold inv, remove_socket. rewrite Hp in Hph. done.
Qed.

Lemma server_inv s : reachable cwd writable hello s → inv s.
Proof.
  intros (bind_ok & socket & d & Hr). remember (start bind_ok socket d) as s0 eqn:E.
  assert (Hs0 : inv s0) by (subst; apply inv_start). clear E.
  induction Hr as [|s0 s1 s2 Hstep _ IH]; [done|]. apply IH. by eapply inv_step.
Qed.

(** *** Reading on *)

(** A client that is open and has missed nothing has not read the goodbye. *)
Lemma goodbye_ahead s i c conn before after :
  inv s → sv_bus s = before ++ Goodbye :: after →
  sv_clients s !! i = Some c → cl_conn c = Some conn → open_ conn = true → cl_missed c = O →
  (cl_cursor c <= length before)%nat.
Proof.
  intros (Hf & _ & Hph) Hbus Hi Hc Ho Hm.
  assert (Hst : (cl_start c <= length before)%nat).
  { assert (Hsaid : said_goodbye (sv_bus s) (sv_clients s)).
    { destruct (sv_phase s); [destruct Hph as [_ Hph]| | |]; try done; rewrite Hbus in Hph; set_solver. }
    destruct Hsaid as (b1 & b2 & Hb & H1 & H2 & Hall). rewrite Hbus in Hb.
    apply app_inj_pivot in Hb as [[[_ Hb]|[_ Hb]]|[-> _]]; [by apply list_elem_of_In in Hb..|].
    by apply (Forall_lookup_1 _ _ _ _ Hall Hi). }
  apply (Forall_lookup_1 _ _ _ _ Hf) in Hi as [_ Hi]. rewrite Hc in Hi.
  destruct Hi as (? & ? & ? & relayed & _ & _ & (_ & Heq & Hgb & _)).
  specialize (Heq Ho Hm). specialize (Hgb Ho). subst relayed.
  destruct (decide (cl_cursor c <= length before)%nat) as [|Hlt]; [done|]. destruct Hgb.
  unfold window. rewrite Hbus. rewrite take_app_ge by lia.
  destruct (cl_cursor c - length before)%nat as [|n] eqn:E; [lia|]. cbn [take].
  rewrite drop_app_le by done. set_solver.
Qed.
(** One read of a client that is not at the end of the channel. *)
Lemma read_one s i c conn :
  sv_clients s !! i = Some c → cl_conn c = Some conn → open_ conn = true →
  (cl_cursor c < length (sv_bus s))%nat →
  ∃ input cursor' missed' s1,
    recv (cl_cursor c) (sv_bus s) = Some (input, cursor') ∧
    sstep cwd writable hello s s1 ∧ sv_bus s1 = sv_bus s ∧
    sv_clients s1 !! i = Some (mkClient (cl_start c) cursor' missed'
                                 (Some (on_input cwd writable i input (sv_daemon s) conn).2)).
Proof.
  intros Hi Hc Ho Hlt. destruct (recv (cl_cursor c) (sv_bus s)) as [[input cu']|] eqn:Hr.
  - assert (Hrec : ∃ missed', receive cwd writable i c conn s = Some (mkClient (cl_start c) cu' missed'
                        (Some (on_input cwd writable i input (sv_daemon s) conn).2)))
      by (unfold receive; rewrite Hr; by eexists).
    destruct Hrec as [missed' Hrec]. eexists input, cu', missed', _.
    split; [done|]. split; [by eapply s_receive|]. split; [done|].
    apply list_lookup_insert_eq. by eapply lookup_lt_Some.
  - destruct (recv_waits _ _ Hlt) as [x Hx]. congruence.
Qed.

Lemma on_input_bus i m d conn :
  open_ conn = true →
  (on_input cwd writable i (FromBus m) d conn).2
  = (if is_goodbye m then close else id) (send_msg (writable i) m conn).
Proof. intros Ho. unfold on_input, client_step. rewrite Ho. by destruct m. Qed.

(** Reading on to the goodbye, which ends the handler; a message fewer is left at each step. *)
Lemma read_to_goodbye before after i :
  (length after < capacity)%nat → Goodbye ∉ before →
  ∀ n s c conn,
    sv_bus s = before ++ Goodbye :: after → sv_clients s !! i = Some c → cl_conn c = Some conn →
    open_ conn = true → (length before - cl_cursor c <= n)%nat → (cl_cursor c <= length before)%nat →
    ∃ s' c' conn',
      rtc (sstep cwd writable hello) s s' ∧ sv_bus s' = sv_bus s ∧
      sv_clients s' !! i = Some c' ∧ cl_conn c' = Some conn' ∧ open_ conn' = false ∧
      ((∀ k, writable i k = true) → last (written conn') = Some Goodbye).
Proof.
  intros Hcap Hbefore n. induction n as [n IH] using lt_wf_ind. intros s c conn Hbus Hi Hc Ho Hn Hcu.
  assert (Hlen : length (sv_bus s) = (length before + S (length after))%nat) by (rewrite Hbus, length_app; done).
  destruct (read_one s i c conn) as (input & cu' & mi & s1 & Hr & Hstep & Hb1 & Hi1); [done..|lia|].
  (* what follows a read that leaves the handler running before the goodbye *)
  assert (Hnext : (cl_cursor c < cu')%nat → (cu' <= length before)%nat →
    open_ (on_input cwd writable i input (sv_daemon s) conn).2 = true →
    ∃ s' c' conn',
      rtc (sstep cwd writable hello) s s' ∧ sv_bus s' = sv_bus s ∧
      sv_clients s' !! i = Some c' ∧ cl_conn c' = Some conn' ∧ open_ conn' = false ∧
      ((∀ k, writable i k = true) → last (written conn') = Some Goodbye)).
  { intros Hlt Hle Ho1. destruct (IH (length before - cu')%nat) with (s := s1) (2 := eq_trans Hb1 Hbus) (3 := Hi1)
      (conn := (on_input cwd writable i input (sv_daemon s) conn).2)
      as (s' & c' & conn' & Hrtc & Hb & Hrest); simpl; try done; try lia.
    eexists s', c', conn'. split; [by eapply rtc_l|]. by rewrite Hb, Hb1. }
  pose proof Hr as [(m & -> & Hm & ->)|(k & -> & Hk & -> & Hle)]%recv_spec; [| |lia].
  - rewrite on_input_bus in Hi1, Hnext by done. destruct (decide (cl_cursor c = length before)) as [E|E].
    + rewrite Hbus, E, list_lookup_middle in Hm by done. simplify_eq.
      eexists s1, _, _. split_and!; [by apply rtc_once|done|done|done|done|].
      intros Hw. simpl. unfold send_msg. rewrite Ho, Hw. simpl. by rewrite last_snoc.
    + assert (Hm' : is_goodbye m = false).
      { destruct m; try done. rewrite Hbus, lookup_app_l in Hm by lia. by apply list_elem_of_lookup_2, Hbefore in Hm. }
      rewrite Hm' in Hi1, Hnext. unfold id in Hi1, Hnext.
      destruct (open_ (send_msg (writable i) m conn)) eqn:Ho1; [apply Hnext; [lia..|done]|].
      eexists s1, _, _. split_and!; [by apply rtc_once|done|done|done|done|].
      intros Hw. unfold send_msg in Ho1. by rewrite Ho, Hw in Ho1.
  - apply Hnext; [lia| |].
    + lia.
    + unfold on_input, client_step. by rewrite Ho.
Qed.
End facts.
End ServerFacts.

(** ** Properties *)
Module ServerTheorems.
Import Ipc IpcTheorems Server ServerFacts.

(** C12.  In every reachable state of the server, whatever the daemon publishes, however clients come,
    read, lag and send commands: what a client was sent is a beginning of its greeting (all of it
    but perhaps the discovery status while the handler runs) followed by messages of the channel
    since it subscribed, in the order they were published; none is missing as long as the handler
    runs and has not lagged, and nothing follows the goodbye.  The socket file exists exactly between
    binding and removal, a goodbye is on the channel exactly once the loop has ended, and a server
    that was refused has no client. *)
Theorem clients_follow_the_bus `{ChannelLaws} cwd writable hello s :
  reachable cwd writable hello s →
  (∀ i c conn, sv_clients s !! i = Some c → cl_conn c = Some conn →
     ∃ recent ctl k relayed,
       written conn = take k (greeting_of hello recent ctl) ++ relayed ∧
       (open_ conn = true → (S (length recent) <= k)%nat) ∧
       relayed `sublist_of` window c (sv_bus s) ∧
       (open_ conn = true → cl_missed c = O → relayed = window c (sv_bus s)) ∧
       ∀ r1 r2, relayed = r1 ++ Goodbye :: r2 → r2 = []) ∧
  (sv_socket s = Bound ↔ sv_phase s = Listening ∨ sv_phase s = Parting) ∧
  (Goodbye ∈ sv_bus s ↔ sv_phase s = Parting ∨ sv_phase s = Gone) ∧
  (sv_phase s = Refused → sv_clients s = []).
Proof.
  intros (Hf & Hsock & Hph)%server_inv. split.
  - intros i c conn Hi Hc. apply (Forall_lookup_1 _ _ _ _ Hf) in Hi as [_ Hi]. rewrite Hc in Hi.
    destruct Hi as (recent & ctl & k & relayed & ? & ? & ? & ? & ? & ?). by exists recent, ctl, k, relayed.
  - assert (Hsaid : said_goodbye (sv_bus s) (sv_clients s) → Goodbye ∈ sv_bus s)
      by (intros (b1 & b2 & -> & _); set_solver).
    destruct (sv_phase s), (sv_socket s); simpl in *; naive_solver.
Qed.

(** ** Witnesses *)

(** A ring of four messages. *)
#[local] Instance ring : Channel := {
  capacity := 4;
  recv cursor bus :=
    if (4 <? length bus - cursor)%nat
    then Some (Lagged (Z.of_nat (length bus - cursor - 4)), (length bus - 4)%nat)
    else m ← bus !! cursor; Some (FromBus m, S cursor);
}.

#[local] Instance ring_laws : ChannelLaws.
Proof.
  split; unfold recv, ring, capacity.
  - intros cursor bus input cursor' Hc. destruct (Nat.ltb_spec 4 (length bus - cursor)) as [Hl|Hl].
    + intros [= <- <-]. right. eexists. split; [done|]. lia.
    + intros (m & Hm & [= <- <-])%bind_Some. left. eauto.
  - intros cursor bus Hc. destruct (4 <? length bus - cursor)%nat; [done|].
    destruct (lookup_lt_is_Some_2 bus cursor Hc) as [m ->]. done.
Qed.

Definition daemon : DaemonState := some_state DbWitnesses.some_disk DbWitnesses.fresh_db.
Definition bound : Server := start true (Foreign false) daemon.
Definition attached : Server := publish (Event CacheHit) (accept bound).
Definition greeted : Server :=
  set_clients [greet_client (λ _ _, true) some_hello 0 (mkClient 0 0 0 None) attached] attached.
Definition relayed_hit : Client :=
  mkClient 0 1 0 (Some (mkConn (greeting_of some_hello [] (d_ctl daemon) ++ [Event CacheHit]) true)).
Definition parting : Server := part (cancel (publish (Log (line "bye")) (set_clients [relayed_hit] greeted))).

Lemma relayed_reachable : reachable [] (λ _ _, true) some_hello (set_clients [relayed_hit] greeted).
Proof.
  exists true, (Foreign false), daemon.
  eapply rtc_l; [by apply s_accept|]. eapply rtc_l; [by apply (s_publish _ _ _ _ (Event CacheHit))|].
  eapply rtc_l; [by apply (s_greet _ _ _ _ 0)|]. apply rtc_once.
  by eapply (s_receive _ _ _ greeted 0).
Qed.

Lemma parting_reachable : reachable [] (λ _ _, true) some_hello parting.
Proof.
  destruct relayed_reachable as (b & f & d & Hr). exists b, f, d. etrans; [exact Hr|].
  eapply rtc_l; [by apply (s_publish _ _ _ _ (Log (line "bye")))|].
  eapply rtc_l; [by apply s_cancel|]. apply rtc_once. by apply s_part.
Qed.

Lemma clients_follow_the_bus_witness :
  ∃ recent ctl k, written (default (mkConn [] false) (cl_conn relayed_hit))
  = take k (greeting_of some_hello recent ctl) ++ [Event CacheHit].
Proof.
  destruct (clients_follow_the_bus [] (λ _ _, true) some_hello _ relayed_reachable) as [H _].
  destruct (H O _ _ eq_refl eq_refl) as (recent & ctl & k & relayed & Hw & _ & _ & Heq & _).
  rewrite (Heq eq_refl eq_refl) in Hw. by exists recent, ctl, k.
Defined.

End ServerTheorems.
