(* ===== verification/WatchRun.v ===== *)
(** * The watcher's loop

    [run] of [src/backing_watch.rs]: the biased choice between shutdown, the debounce tick, touched
    directories and inotify events, over the operations of [Watch].  What is ready at a turn is an
    input, as is what the copy pipeline did to the shared state since the last one.  Instants are
    milliseconds. *)
From S2P Require Import Prelude Paths Backing Disk Db Manager CacheIo Preset Engine Fuse Watch.
From S2P Require Import Discovery Config Instance Ipc.

(** What [select!] finds ready: a message or an event may be the end of its source. *)
Record Poll := mkPoll {
  p_cancelled : bool;
  p_tick : bool;
  p_msg : option (option (path * Z));
  p_event : option (option (result unit Watch.Event));
  p_now : Z; p_secs : Z;
  p_answer : path → AddAnswer;
  (** Whether the shutdown is seen before the n-th dispatch of a tick. *)
  p_cut : nat → bool;
  p_others : Io → Io;
}.

(** [notified] are the entries the kernel was told to invalidate. *)
Record Loop (L : Type) := mkLoop {
  watcher : Watcher L; io : Io; notified : list (Z * string); sent : list TelemetryEvent;
}.
Arguments mkLoop {L} _ _ _ _.
Arguments watcher {L} _.
Arguments io {L} _.
Arguments notified {L} _.
Arguments sent {L} _.

Inductive Turn (A : Type) := Continue (a : A) | Break (a : A).
Arguments Continue {A}. Arguments Break {A}.

Module WatchRun.
Import BackingWatch.

Definition kind_str (s : Severity) : string :=
  match s with Delete => "delete" | Modify => "modify" | Attr => "attr" | CreateOrMovedIn => "create" end.

Definition action_str (queued_validation : bool) : string :=
  if queued_validation then "kernel_notified_validation_queued" else "kernel_notified".

Section run.
Context {L : Type} `{LruCache L} `{MapOrder}.
Context (cm : CacheManager) (c : BackingWatchConfig) (mount_id : string).

Definition changed_event (child : path) (s : Severity) (queued : bool) : TelemetryEvent :=
  BackingChanged (Some mount_id) (Some (Ipc.relative_text child)) (Some (kind_str s)) (Some (action_str queued)).

(** One dispatch, with what it logs. *)
Definition dispatch_one (secs : Z) (l : Loop L) (kp : (Z * string) * PendingEvent) : Loop L :=
  let '(key, p) := kp in
  let child := parent_rel p ++ [key.2] in
  let queued := Manager.is_cached cm (store (io l)).1 child in
  let '(inval, i) := dispatch cm secs (parent_rel p) (parent_ino p) key.2 (io l) in
  mkLoop (watcher l) i (notified l ++ [inval]) (sent l ++ [changed_event child (severity p) queued]).

Definition forget_window (key : Z * string) (l : Loop L) : Loop L :=
  let w := watcher l in
  mkLoop (mkWatcher (lru w) (wd_map w) (delete key (debounce w)) (kernel_watches w)) (io l) (notified l) (sent l).

(** The windows that have run out, one after the other until a shutdown is seen. *)
Fixpoint dispatch_all (cut : nat → bool) (secs : Z) (n : nat) (expired : list ((Z * string) * PendingEvent))
    (l : Loop L) : Loop L :=
  match expired with
  | [] => l
  | kp :: expired' =>
      let l := forget_window kp.1 l in
      if cut n then l else dispatch_all cut secs (S n) expired' (dispatch_one secs l kp)
  end.

Definition on_tick (p : Poll) (l : Loop L) : Loop L :=
  let expired := filter (λ kp, deadline kp.2 <= p_now p) (iter (debounce (watcher l))) in
  dispatch_all (p_cut p) (p_secs p) 0 expired l.

Definition on_watcher (f : Watcher L → Watcher L) (l : Loop L) : Loop L :=
  mkLoop (f (watcher l)) (io l) (notified l) (sent l).

Definition max_dirs : nat := Z.to_nat (bw_max_dirs c).
Definition debounce_dur : Z := bw_debounce_ms c.

(** One turn of the loop: the branches in order. *)
Definition turn (p : Poll) (l : Loop L) : Turn (Loop L) :=
  let l := mkLoop (watcher l) (p_others p (io l)) (notified l) (sent l) in
  if p_cancelled p then Break l
  else if p_tick p then Continue (on_tick p l)
  else match p_msg p with
       | Some (Some (rel, ino)) => Continue (on_watcher (touch_or_add (p_answer p) max_dirs rel ino) l)
       | Some None => Break l
       | None =>
           match p_event p with
           | Some (Some (Ok ev)) => Continue (on_watcher (handle_event (p_now p) debounce_dur ev) l)
           | Some (Some (Err _)) => Continue l
           | Some None => Break l
           | None => Continue l
           end
       end.

Fixpoint loop (ps : list Poll) (l : Loop L) : Turn (Loop L) :=
  match ps with
  | [] => Continue l
  | p :: ps' => match turn p l with Continue l' => loop ps' l' | Break l' => Break l' end
  end.

(** Until the loop: the task gives up without inotify; a timer without a period panics. *)
Inductive Boot := GaveUp | Panicked | Running (l : Loop L).

Definition boot (init_ok stream_ok : bool) (answer : path → AddAnswer) (i : Io) : Boot :=
  if negb (init_ok && stream_ok) then GaveUp
  else if debounce_dur =? 0 then Panicked
  else Running (mkLoop (started answer max_dirs) i [] []).
End run.
End WatchRun.

(** ** Lemmas *)
Module WatchRunFacts.
Import BackingWatch WatchTheorems WatchRun.

Section facts.
Context {L : Type} `{!LruCache L, !LruLaws L} `{MapOrder}.
Context (cm : CacheManager) (c : BackingWatchConfig) (mount_id : string).
Implicit Types (l : Loop L) (w : Watcher L).

(** What was told about a window that was dispatched. *)
Definition told (kp : (Z * string) * PendingEvent) (n : list (Z * string)) (s : list TelemetryEvent) : Prop :=
  (parent_ino kp.2, kp.1.2) ∈ n ∧
  ∃ queued, changed_event mount_id (parent_rel kp.2 ++ [kp.1.2]) (severity kp.2) queued ∈ s.

Definition news l l' n s : Prop := notified l' = notified l ++ n ∧ sent l' = sent l ++ s.

Lemma news_trans l1 l2 l3 n s n' s' : news l1 l2 n s → news l2 l3 n' s' → news l1 l3 (n ++ n') (s ++ s').
Proof. intros [H1 H2] [H3 H4]. split; [rewrite H3, H1|rewrite H4, H2]; by rewrite app_assoc. Qed.

Lemma told_l kp n s n' s' : told kp n s → told kp (n ++ n') (s ++ s').
Proof. intros [? [q ?]]. split; [set_solver|exists q; set_solver]. Qed.

Lemma told_r kp n s n' s' : told kp n' s' → told kp (n ++ n') (s ++ s').
Proof. intros [? [q ?]]. split; [set_solver|exists q; set_solver]. Qed.

Lemma dispatch_one_spec secs l kp :
  watcher (dispatch_one cm mount_id secs l kp) = watcher l ∧
  ∃ n s, news l (dispatch_one cm mount_id secs l kp) n s ∧ told kp n s.
Proof.
  destruct kp as [key p]. unfold dispatch_one. destruct (dispatch _ _ _ _ _ _) as [inval i] eqn:E.
  split; [done|]. eexists _, _. split; [split; reflexivity|]. unfold dispatch in E. simplify_eq/=.
  split; [set_solver|]. eexists. by left.
Qed.

(** The windows of a tick that is not cut short: each is told, and they are the ones that close. *)
Lemma dispatch_all_spec cut secs n0 expired l :
  (∀ n, cut n = false) →
  let l' := dispatch_all cm mount_id cut secs n0 expired l in
  wd_map (watcher l') = wd_map (watcher l) ∧
  debounce (watcher l') = foldl (λ m kp, delete kp.1 m) (debounce (watcher l)) expired ∧
  ∃ n s, news l l' n s ∧ ∀ kp, kp ∈ expired → told kp n s.
Proof.
  intros Hcut. cbn zeta. revert n0 l. induction expired as [|kp expired IH]; intros n0 l; cbn [dispatch_all].
  { split; [done|]. split; [done|]. exists [], []. split; [split; by rewrite app_nil_r|]. set_solver. }
  rewrite Hcut. destruct (dispatch_one_spec secs (forget_window kp.1 l) kp) as (Hw & n & s & Hn & Ht).
  destruct (IH (S n0) (dispatch_one cm mount_id secs (forget_window kp.1 l) kp)) as (E1 & E2 & n' & s' & Hn' & Ht').
  rewrite E1, E2, Hw. split; [done|]. split; [done|]. exists (n ++ n'), (s ++ s').
  split; [eapply news_trans; [|exact Hn']; by destruct l|].
  intros kp' [->|Hin]%elem_of_cons; [by apply told_l|by apply told_r, Ht'].
Qed.

(** Every window names its directory and closes within the window of some event. *)
Definition timely (t : Z) (w : Watcher L) : Prop :=
  ∀ k p, debounce w !! k = Some p → deadline p <= t + debounce_dur c ∧ parent_ino p = k.1.

Lemma timely_sub t w w' :
  timely t w → (∀ k p, debounce w' !! k = Some p → debounce w !! k = Some p) → timely t w'.
Proof. intros Hw Hsub k p Hp. by apply Hw, Hsub. Qed.

Lemma touch_debounce answer n rel ino w :
  debounce (touch_or_add answer n rel ino w) = debounce w.
Proof.
  unfold touch_or_add, evict_watch. destruct (lru_get rel (lru w)) as [[]?]; [done|].
  repeat case_match; simplify_eq/=; done.
Qed.

Lemma dispatch_all_sub cut secs n0 expired l k p :
  debounce (watcher (dispatch_all cm mount_id cut secs n0 expired l)) !! k = Some p →
  debounce (watcher l) !! k = Some p.
Proof.
  revert n0 l. induction expired as [|kp expired IH]; intros n0 l; cbn [dispatch_all]; [done|].
  assert (Hf : ∀ l, debounce (watcher (forget_window kp.1 l)) !! k = Some p → debounce (watcher l) !! k = Some p)
    by (intros l'; simpl; intros [_ ?]%lookup_delete_Some; done).
  destruct (cut n0); [apply Hf|]. intros Hk%IH. rewrite (proj1 (dispatch_one_spec _ _ _)) in Hk. by apply Hf.
Qed.

Lemma handle_event_timely t now ev w :
  timely t w → now <= t → timely t (handle_event now (debounce_dur c) ev w).
Proof.
  intros Hw Ht k p Hp. destruct (handle_event_window now (debounce_dur c) ev w k) as [_ Hk].
  case_decide.
  - destruct Hk as (p' & Hp' & Hrest). rewrite Hp' in Hp. simplify_eq.
    destruct (debounce w !! k) as [p0|] eqn:E; [|destruct Hrest as (? & _ & ?); split; [lia|done]].
    destruct (Hw k p0 E). destruct Hrest as (? & ? & _). split; [lia|congruence].
  - rewrite Hk in Hp. by apply Hw.
Qed.

(** A window that stays open keeps its directory and deadline; its severity can only grow. *)
Definition grown (p p' : PendingEvent) : Prop :=
  deadline p' = deadline p ∧ parent_ino p' = parent_ino p ∧ parent_rel p' = parent_rel p ∧
  severity_rank (severity p) <= severity_rank (severity p').

Lemma grown_refl p : grown p p.
Proof. by split_and!. Qed.

Lemma grown_trans p1 p2 p3 : grown p1 p2 → grown p2 p3 → grown p1 p3.
Proof. intros (? & ? & ? & ?) (? & ? & ? & ?). split_and!; (congruence || lia). Qed.

Lemma handle_event_grown now dur ev w k p :
  debounce w !! k = Some p → ∃ p', debounce (handle_event now dur ev w) !! k = Some p' ∧ grown p p'.
Proof.
  intros Hp. unfold handle_event. destruct (ev_name ev) as [name|]; [|exists p; split; [done|apply grown_refl]].
  destruct (wd_map w !! wd ev) as [entry|]; [|exists p; split; [done|apply grown_refl]]. simpl.
  destruct (decide (k = (wd_ino entry, name))) as [->|Hne].
  - rewrite lookup_insert_eq, Hp. eexists. split; [done|].
    destruct (Z.ltb_spec (severity_rank (severity p)) (severity_rank (severity_of (mask ev)))); [|apply grown_refl].
    split_and!; simpl; (done || lia).
  - rewrite lookup_insert_ne by done. exists p. split; [done|apply grown_refl].
Qed.

(** The event itself opens a window, or grows the one there is. *)
Lemma handle_event_opens now dur ev w name entry :
  ev_name ev = Some name → wd_map w !! wd ev = Some entry →
  ∃ p, debounce (handle_event now dur ev w) !! (wd_ino entry, name) = Some p ∧
    severity_rank (severity_of (mask ev)) <= severity_rank (severity p) ∧
    match debounce w !! (wd_ino entry, name) with
    | Some p0 => grown p0 p
    | None => deadline p = now + dur ∧ parent_ino p = wd_ino entry ∧ parent_rel p = wd_rel_path entry
    end.
Proof.
  intros Hn Hw. unfold handle_event. rewrite Hn, Hw. simpl. rewrite lookup_insert_eq. eexists. split; [done|].
  destruct (debounce w !! (wd_ino entry, name)) as [p0|]; [|simpl; split; [lia|done]].
  destruct (Z.ltb_spec (severity_rank (severity p0)) (severity_rank (severity_of (mask ev)))).
  - split; [simpl; lia|]. split_and!; simpl; (done || lia).
  - split; [lia|apply grown_refl].
Qed.

Lemma on_tick_spec q l k p :
  (∀ n, p_cut q n = false) → debounce (watcher l) !! k = Some p →
  ∃ n s, news l (on_tick cm mount_id q l) n s ∧
    if decide (deadline p <= p_now q) then told (k, p) n s
    else debounce (watcher (on_tick cm mount_id q l)) !! k = Some p.
Proof.
  intros Hcut Hp. unfold on_tick. set (expired := filter _ (iter (debounce (watcher l)))).
  destruct (dispatch_all_spec (p_cut q) (p_secs q) 0 expired l Hcut) as (_ & Hd & n & s & Hn & Ht).
  exists n, s. split; [done|]. case_decide as Hle.
  - apply Ht. unfold expired. apply list_elem_of_filter. split; [done|]. by rewrite elem_of_iter.
  - rewrite Hd, foldl_delete_lookup, decide_False; [done|].
    intros ([k' p'] & -> & [Hle' Hin]%list_elem_of_filter)%list_elem_of_fmap.
    apply elem_of_iter in Hin. simpl in *. by simplify_eq.
Qed.

(** What a turn does to an open window. *)
Lemma turn_pending q l l' k p :
  (∀ n, p_cut q n = false) → turn cm c mount_id q l = Continue l' → debounce (watcher l) !! k = Some p →
  ∃ n s, news l l' n s ∧
    (told (k, p) n s ∨
     ¬ (p_tick q = true ∧ deadline p <= p_now q) ∧ ∃ p', debounce (watcher l') !! k = Some p' ∧ grown p p').
Proof.
  intros Hcut Hturn Hp. unfold turn in Hturn. destruct (p_cancelled q); [done|].
  destruct (p_tick q) eqn:Htick.
  { injection Hturn as <-.
    destruct (on_tick_spec q (mkLoop (watcher l) (p_others q (io l)) (notified l) (sent l)) k p Hcut Hp) as (n & s & Hn & Hd).
    exists n, s. split; [exact Hn|]. case_decide; [by left|]. right. split; [by intros [_ ?]|].
    exists p. split; [done|apply grown_refl]. }
  exists [], []. assert (Hsame : ∀ w i, news l (mkLoop w i (notified l) (sent l)) [] [])
    by (intros; split; by rewrite app_nil_r).
  assert (Hkeep : ∀ w i, (∃ p', debounce w !! k = Some p' ∧ grown p p') → mkLoop w i (notified l) (sent l) = l' →
    news l l' [] [] ∧ (told (k, p) [] [] ∨ ¬ (false = true ∧ deadline p <= p_now q) ∧
      ∃ p', debounce (watcher l') !! k = Some p' ∧ grown p p')).
  { intros w i Hw <-. split; [apply Hsame|]. right. split; [by intros []|done]. }
  assert (Hid : ∃ p', debounce (watcher l) !! k = Some p' ∧ grown p p') by (exists p; split; [done|apply grown_refl]).
  destruct (p_msg q) as [[[rel ino]|]|]; [| |destruct (p_event q) as [[[ev|]|]|]]; try done;
    injection Hturn as Hturn; eapply Hkeep; try exact Hturn; try done.
  - rewrite touch_debounce. exact Hid.
  - by apply handle_event_grown.
Qed.

Lemma turn_timely q l l' t :
  turn cm c mount_id q l = Continue l' → timely t (watcher l) → p_now q <= t → timely t (watcher l').
Proof.
  intros Hturn Hl Ht. unfold turn in Hturn. destruct (p_cancelled q); [done|].
  destruct (p_tick q).
  { injection Hturn as <-. eapply timely_sub; [exact Hl|]. intros k p Hp. by apply dispatch_all_sub in Hp. }
  destruct (p_msg q) as [[[rel ino]|]|]; [| |destruct (p_event q) as [[[ev|]|]|]]; try done;
    injection Hturn as <-; try exact Hl.
  - eapply timely_sub; [exact Hl|]. intros k p. simpl. by rewrite touch_debounce.
  - by apply handle_event_timely.
Qed.

Lemma loop_app ps qs l :
  loop cm c mount_id (ps ++ qs) l
  = match loop cm c mount_id ps l with Continue l' => loop cm c mount_id qs l' | Break l' => Break l' end.
Proof. revert l. induction ps as [|p ps IH]; intros l; [done|]. simpl. destruct (turn cm c mount_id p l); [apply IH|done]. Qed.

Lemma loop_timely ps l l' t :
  loop cm c mount_id ps l = Continue l' → timely t (watcher l) → Forall (λ p, p_now p <= t) ps → timely t (watcher l').
Proof.
  intros Hl Ht Hps. revert l Hl Ht. induction Hps as [|p ps Hp _ IH]; intros l Hl Ht; [by injection Hl as <-|].
  simpl in Hl. destruct (turn cm c mount_id p l) as [l1|] eqn:Hturn; [|done]. eapply IH; [done|]. by eapply turn_timely.
Qed.

(** Nothing told is taken back. *)
Lemma dispatch_all_news cut secs n0 expired l :
  ∃ n s, news l (dispatch_all cm mount_id cut secs n0 expired l) n s.
Proof.
  revert n0 l. induction expired as [|kp expired IH]; intros n0 l; cbn [dispatch_all].
  { exists [], []. split; by rewrite app_nil_r. }
  destruct (cut n0); [exists [], []; split; by rewrite app_nil_r|].
  destruct (dispatch_one_spec secs (forget_window kp.1 l) kp) as (_ & n & s & Hn & _).
  destruct (IH (S n0) (dispatch_one cm mount_id secs (forget_window kp.1 l) kp)) as (n' & s' & Hn').
  exists (n ++ n'), (s ++ s'). eapply news_trans; [|exact Hn']. by destruct l.
Qed.

Lemma turn_news q l l' : turn cm c mount_id q l = Continue l' → ∃ n s, news l l' n s.
Proof.
  intros Hturn. unfold turn in Hturn. destruct (p_cancelled q); [done|]. destruct (p_tick q).
  { injection Hturn as <-.
    destruct (dispatch_all_news (p_cut q) (p_secs q) 0
      (filter (λ kp, deadline kp.2 <= p_now q) (iter (debounce (watcher l))))
      (mkLoop (watcher l) (p_others q (io l)) (notified l) (sent l))) as (n & s & Hn). by exists n, s. }
  exists [], []. destruct (p_msg q) as [[[rel ino]|]|]; [| |destruct (p_event q) as [[[ev|]|]|]]; try done;
    injection Hturn as <-; split; by rewrite app_nil_r.
Qed.

Lemma loop_news ps l l' : loop cm c mount_id ps l = Continue l' → ∃ n s, news l l' n s.
Proof.
  revert l. induction ps as [|p ps IH]; intros l Hl; simpl in Hl.
  { injection Hl as <-. exists [], []. split; by rewrite app_nil_r. }
  destruct (turn cm c mount_id p l) as [l1|] eqn:Hturn; [|done]. destruct (turn_news p l l1 Hturn) as (n & s & Hn).
  destruct (IH l1 Hl) as (n' & s' & Hn'). exists (n ++ n'), (s ++ s'). by eapply news_trans.
Qed.

(** A window stays until a tick finds it run out, and is told then. *)
Lemma loop_pending ps q l l' k p :
  Forall (λ q, ∀ n, p_cut q n = false) (ps ++ [q]) → loop cm c mount_id (ps ++ [q]) l = Continue l' →
  debounce (watcher l) !! k = Some p → p_tick q = true → deadline p <= p_now q →
  ∃ p' n s, grown p p' ∧ news l l' n s ∧ told (k, p') n s.
Proof.
  revert l p. induction ps as [|p0 ps IH]; intros l p Hcut Hl Hp Htick Hd; simpl in Hl.
  - apply Forall_cons in Hcut as [Hcut _]. destruct (turn cm c mount_id q l) as [l1|] eqn:Hturn; [|done]. injection Hl as <-.
    destruct (turn_pending q l l1 k p Hcut Hturn Hp) as (n & s & Hn & [Ht|[Hno _]]); [|tauto].
    exists p, n, s. split; [apply grown_refl|done].
  - apply Forall_cons in Hcut as [Hcut0 Hcut]. destruct (turn cm c mount_id p0 l) as [l1|] eqn:Hturn; [|done].
    destruct (turn_pending p0 l l1 k p Hcut0 Hturn Hp) as (n & s & Hn & [Ht|(_ & p1 & Hp1 & Hg)]).
    + destruct (loop_news (ps ++ [q]) l1 l' Hl) as (n' & s' & Hn').
      exists p, (n ++ n'), (s ++ s'). split; [apply grown_refl|]. split; [by eapply news_trans|by apply told_l].
    + destruct (IH l1 p1 Hcut Hl Hp1 Htick) as (p' & n' & s' & Hg' & Hn' & Ht'); [by rewrite (proj1 Hg)|].
      exists p', (n ++ n'), (s ++ s'). split; [by eapply grown_trans|]. split; [by eapply news_trans|by apply told_r].
Qed.
End facts.
End WatchRunFacts.

(** ** Properties *)
Module WatchRunTheorems.
Import BackingWatch WatchTheorems WatchRun WatchRunFacts.

(** C27.  No change is lost while the watcher runs: when an inotify event names an entry of a watched
    directory, then whatever touches, events and ticks come in between, the first tick at least the
    debounce time later finds it told: the kernel was told to invalidate the name in that directory,
    and a change of that entry was reported, of a severity at least the event's (and under the
    directory's own path, unless an earlier event had opened the window). *)
Theorem changes_reach_the_kernel {L} `{!LruCache L, !LruLaws L} `{MapOrder} cm c mount_id
    answer i ps1 p0 ps2 p1 (l0 l1 l2 : Loop L) ev name entry :
  boot c true true answer i = Running l0 →
  loop cm c mount_id ps1 l0 = Continue l1 → Forall (λ p, p_now p <= p_now p0) ps1 →
  p_cancelled p0 = false → p_tick p0 = false → p_msg p0 = None → p_event p0 = Some (Some (Ok ev)) →
  ev_name ev = Some name → wd_map (watcher l1) !! wd ev = Some entry →
  loop cm c mount_id (p0 :: ps2 ++ [p1]) l1 = Continue l2 →
  Forall (λ p, ∀ n, p_cut p n = false) (ps2 ++ [p1]) →
  p_tick p1 = true → p_now p0 + debounce_dur c <= p_now p1 →
  ∃ n s parent sev queued,
    notified l2 = notified l1 ++ n ∧ sent l2 = sent l1 ++ s ∧
    (wd_ino entry, name) ∈ n ∧ changed_event mount_id (parent ++ [name]) sev queued ∈ s ∧
    severity_rank (severity_of (mask ev)) <= severity_rank sev ∧
    (debounce (watcher l1) !! (wd_ino entry, name) = None → parent = wd_rel_path entry).
Proof.
  intros Hboot Hl1 Hnow Hc0 Ht0 Hm0 He0 Hname Hentry Hl2 Hcut Htick Hlate.
  assert (Htimely : timely c (p_now p0) (watcher l1)).
  { eapply loop_timely; [exact Hl1| |done]. unfold boot in Hboot. simpl in Hboot.
    destruct (debounce_dur c =? 0); [done|]. injection Hboot as <-. intros k p. simpl.
    unfold started. rewrite touch_debounce. simpl. by rewrite lookup_empty. }
  simpl in Hl2. destruct (turn cm c mount_id p0 l1) as [l1'|] eqn:Hturn; [|done].
  pose proof (turn_timely cm c mount_id _ _ _ _ Hturn Htimely ltac:(lia)) as Htimely'.
  unfold turn in Hturn. rewrite Hc0, Ht0, Hm0, He0 in Hturn. injection Hturn as <-.
  destruct (handle_event_opens (p_now p0) (debounce_dur c) ev (watcher l1) name entry Hname Hentry)
    as (p & Hp & Hrank & Hold).
  destruct (Htimely' (wd_ino entry, name) p Hp) as [Hdl Hino].
  destruct (loop_pending cm c mount_id ps2 p1 _ l2 _ p Hcut Hl2 Hp Htick ltac:(lia))
    as (p' & n & s & (_ & Hino' & Hrel & Hgrow) & [Hn Hs] & Hin & queued & Hev).
  simpl in *. exists n, s, (parent_rel p'), (severity p'), queued. split_and!; try done.
  - by rewrite <- Hino, <- Hino'.
  - lia.
  - intros Hnone. rewrite Hnone in Hold. destruct Hold as (_ & _ & <-). done.
Qed.
(** ** Witness: a file changes, a directory is touched, the timer comes *)
#[local] Existing Instances ListLru_cache ListLru_laws.

Definition some_watch : BackingWatchConfig := mkBackingWatchConfig true 8 500.
Definition poll (now : Z) (tick : bool) (msg : option (option (path * Z))) (ev : option (option (result unit Watch.Event))) : Poll :=
  mkPoll false tick msg ev now (now / 1000) (λ rel, Added (3 + Z.of_nat (length rel))) (λ _, false) id.

Definition a_change : Poll := poll 100 false None (Some (Some (Ok (mkEvent 3 IN_MODIFY (Some "f"%string))))).
Definition a_touch : Poll := poll 200 false (Some (Some (["d"]%string, 7))) None.
Definition a_tick : Poll := poll 700 true None None.

Lemma changes_reach_the_kernel_witness :
  let run ps l := loop ManagerWitnesses.some_manager some_watch "tv" ps l in
  ∃ l1 l2 n s, boot some_watch true true (λ _, Added 3) EngineTheorems.empty_io = Running l1 ∧
    run [a_change; a_touch; a_tick] l1 = Continue l2 ∧
    notified (L := ListLru) l2 = notified l1 ++ n ∧ sent l2 = sent l1 ++ s ∧ (1, "f"%string) ∈ n.
Proof.
  intros run. destruct (boot some_watch true true (λ _, Added 3) EngineTheorems.empty_io) as [| |l1] eqn:Hboot; [done..|].
  destruct (run [a_change; a_touch; a_tick] l1) as [l2|] eqn:Hrun; [|by injection Hboot as <-].
  assert (Hwd : wd_map (watcher l1) !! 3 = Some (mkWdEntry [] 1)) by (injection Hboot as <-; by vm_compute).
  destruct (changes_reach_the_kernel ManagerWitnesses.some_manager some_watch "tv" (λ _, Added 3) EngineTheorems.empty_io [] a_change
    [a_touch] a_tick l1 l1 l2 (mkEvent 3 IN_MODIFY (Some "f"%string)) "f" (mkWdEntry [] 1) Hboot eq_refl
    ltac:(constructor) eq_refl eq_refl eq_refl eq_refl eq_refl Hwd Hrun ltac:(repeat constructor) eq_refl
    ltac:(by vm_compute)) as (n & s & _ & _ & _ & Hn & Hs & Hin & _).
  by exists l1, l2, n, s.
Defined.
End WatchRunTheorems.
