(* ===== verification/Tui.v ===== *)
(** * The dashboard's pages and keys

    [src/tui/app.rs], the sort orders and pages of [src/tui/state.rs] and the rows that
    [src/tui/ui.rs] chooses; [Screen] draws them.  The terminal is third-party: a session is what the
    event loop does with ticks, keys and messages, and a page is the rows that are shown.
    Cache directories are absolute, so the text of a [mount_id] starts with the root. *)
From Stdlib Require Import Structures.OrdersEx.
From stdpp Require Import pretty.
From S2P Require Import Prelude Paths Scheduler Backing Disk Db Manager CacheIo Preset Engine Fuse.
From S2P Require Import Discovery Config Instance Ipc.

Inductive CacheSort := Newest | Oldest | Largest | Smallest | NameAz.

Inductive Page := PStatus | PCache | PCacheIo | PLogs.
#[export] Instance Page_eq_dec : EqDecision Page.
Proof. solve_decision. Defined.

(** What the event loop keeps besides the dashboard; the message flashes since a time. *)
Record Tui := mkTui {
  page : Page; log_scroll : nat; cache_sel : nat; cache_sort : CacheSort;
  checked : gset path; menu : option nat; status_msg : option (string * Z);
}.

Inductive KeyCode := KUp | KDown | KLeft | KRight | KHome | KEnd | KEnter | KEsc | KChar (c : ascii) | KOther.
#[export] Instance KeyCode_eq_dec : EqDecision KeyCode.
Proof. solve_decision. Defined.

Record Key := mkKey { code : KeyCode; control : bool; shift : bool; is_press : bool }.

Module Tui.

(** ** Orders and pages *)
Definition sort_next (s : CacheSort) : CacheSort :=
  match s with
  | Newest => Oldest | Oldest => Largest | Largest => Smallest | Smallest => NameAz | NameAz => Newest
  end.

Definition sort_label (s : CacheSort) : string :=
  match s with
  | Newest => "newest" | Oldest => "oldest" | Largest => "largest" | Smallest => "smallest"
  | NameAz => "name A-Z"
  end.

Definition page_next (p : Page) : Page :=
  match p with PStatus => PCache | PCache => PCacheIo | PCacheIo => PLogs | PLogs => PStatus end.
Definition page_prev (p : Page) : Page :=
  match p with PStatus => PLogs | PCache => PStatus | PCacheIo => PCache | PLogs => PCacheIo end.

(** Paths compare component by component, components by bytes. *)
Fixpoint path_leb (p q : path) : bool :=
  match p, q with
  | [], _ => true
  | _ :: _, [] => false
  | a :: p', b :: q' =>
      match String_as_OT.compare a b with Lt => true | Gt => false | Eq => path_leb p' q' end
  end.

Definition sort_le (s : CacheSort) (a b : CachedFileInfo) : bool :=
  match s with
  | Newest => cf_cached_at b <=? cf_cached_at a
  | Oldest => cf_cached_at a <=? cf_cached_at b
  | Largest => cf_size_bytes b <=? cf_size_bytes a
  | Smallest => cf_size_bytes a <=? cf_size_bytes b
  | NameAz => path_leb (cf_path a) (cf_path b)
  end.

Definition sort_refs (s : CacheSort) (files : list CachedFileInfo) : list CachedFileInfo :=
  sort_by (sort_le s) files.

(** The copy [ui.rs] draws from. *)
Definition sorted_files (st : DashboardState) (s : CacheSort) : list CachedFileInfo :=
  sort_by (sort_le s)
    ((λ f, mkCachedFileInfo (cf_path f) (cf_size_bytes f) (cf_cached_at f) (cf_last_hit_at f)
             (cf_evicts_at f) (cf_mount_id f)) <$> cached_files st).

(** ** Selection *)
Definition toggle_checked_at (st : DashboardState) (idx : nat) (s : CacheSort) (checked : gset path) : gset path :=
  match sort_refs s (cached_files st) !! idx with
  | Some f => if decide (cf_path f ∈ checked) then checked ∖ {[cf_path f]} else {[cf_path f]} ∪ checked
  | None => checked
  end.

Definition target (f : CachedFileInfo) : FileTarget :=
  mkFileTarget (Ipc.relative_text (cf_path f)) (Ipc.absolute_text (cf_mount_id f)).

Definition build_targets (st : DashboardState) (checked : gset path) (sel : nat) (s : CacheSort) : list FileTarget :=
  let sorted := sort_refs s (cached_files st) in
  if decide (checked = ∅) then match sorted !! sel with Some f => [target f] | None => [] end
  else target <$> filter (λ f, cf_path f ∈ checked) sorted.

(** ** Keys *)
Definition plural (n : nat) : string := if (n =? 1)%nat then "" else "s".
Definition flash_evict (n : nat) : string :=
  "Evicting " ++ pretty (N.of_nat n) ++ " file" ++ plural n ++ Discovery.ellipsis.
Definition flash_refresh (n : nat) : string :=
  "Refreshing lease for " ++ pretty (N.of_nat n) ++ " file" ++ plural n ++ Discovery.ellipsis.

(** While the menu is open with item [sel] highlighted. *)
Definition menu_key (now : Z) (k : Key) (sel : nat) (st : DashboardState) (t : Tui) : Tui * list ClientMessage :=
  let set_menu m := mkTui (page t) (log_scroll t) (cache_sel t) (cache_sort t) (checked t) m (status_msg t) in
  match code k with
  | KUp => (set_menu (Some (sel - 1)%nat), [])
  | KDown => (set_menu (Some (Nat.min (sel + 1) 1)), [])
  | KEsc => (set_menu None, [])
  | KEnter =>
      match build_targets st (checked t) (cache_sel t) (cache_sort t) with
      | [] => (set_menu None, [])
      | targets =>
          let n := length targets in
          let '(msg, flash) := if (sel =? 0)%nat then (EvictFiles targets, flash_evict n)
                               else (RefreshLease targets, flash_refresh n) in
          (mkTui (page t) (log_scroll t) (cache_sel t) (cache_sort t) ∅ None (Some (flash, now)), [msg])
      end
  | _ => (t, [])
  end.

(** A page shown from its start; [2] resets the selection instead of the log. *)
Definition go_to (p : Page) (t : Tui) : Tui :=
  mkTui p O (cache_sel t) (cache_sort t) ∅ None (status_msg t).
Definition go_to_cache (t : Tui) : Tui :=
  mkTui PCache (log_scroll t) O (cache_sort t) ∅ None (status_msg t).

Definition select (sel : nat) (checked : gset path) (t : Tui) : Tui :=
  mkTui (page t) (log_scroll t) sel (cache_sort t) checked (menu t) (status_msg t).
Definition scroll_to (n : nat) (t : Tui) : Tui :=
  mkTui (page t) n (cache_sel t) (cache_sort t) (checked t) (menu t) (status_msg t).

Definition is_char (k : Key) (a b : ascii) : bool :=
  bool_decide (code k = KChar a ∨ code k = KChar b).

(** The keys of the pages; the boolean is whether the loop goes on. *)
Definition normal_key (k : Key) (st : DashboardState) (t : Tui) : Tui * list ClientMessage * bool :=
  let files := length (cached_files st) in
  let logs := length (recent_logs st) in
  let stay t := (t, [], true) in
  if is_char k "q" "Q" && negb (control k) then (t, [], false)
  else if is_char k "q" "Q" then (t, [Shutdown], false)
  else match code k with
  | KRight => stay (go_to (page_next (page t)) t)
  | KLeft => stay (go_to (page_prev (page t)) t)
  | KDown =>
      match page t with
      | PCache =>
          if (0 <? files)%nat then
            let sel := Nat.min (cache_sel t + 1) (files - 1) in
            stay (select sel (if shift k then toggle_checked_at st sel (cache_sort t) (checked t) else checked t) t)
          else stay t
      | PLogs => if (0 <? logs)%nat then stay (scroll_to (Nat.min (log_scroll t + 1) (logs - 1)) t) else stay t
      | _ => stay t
      end
  | KUp =>
      match page t with
      | PCache =>
          let sel := (cache_sel t - 1)%nat in
          stay (select sel (if shift k then toggle_checked_at st sel (cache_sort t) (checked t) else checked t) t)
      | PLogs => stay (scroll_to (log_scroll t - 1)%nat t)
      | _ => stay t
      end
  | KHome =>
      match page t with
      | PCache => stay (select O (checked t) t)
      | PLogs => stay (scroll_to O t)
      | _ => stay t
      end
  | KEnd =>
      match page t with
      | PCache => stay (select (files - 1)%nat (checked t) t)
      | PLogs => stay (scroll_to (logs - 1)%nat t)
      | _ => stay t
      end
  | KEnter =>
      stay (if decide (page t = PCache ∧ status_msg t = None ∧ (0 < files)%nat)
            then mkTui (page t) (log_scroll t) (cache_sel t) (cache_sort t) (checked t) (Some O) (status_msg t)
            else t)
  | KChar c =>
      if decide (c = "1"%char) then stay (go_to PStatus t)
      else if decide (c = "2"%char) then stay (go_to_cache t)
      else if decide (c = "3"%char) then stay (go_to PCacheIo t)
      else if decide (c = "4"%char) then stay (go_to PLogs t)
      else if decide (c = "s"%char ∨ c = "S"%char) then
        match page t with
        | PCache => stay (mkTui (page t) (log_scroll t) (cache_sel t) (sort_next (cache_sort t)) ∅ (menu t) (status_msg t))
        | _ => stay t
        end
      else if decide (c = " "%char) then
        match page t with
        | PCache => stay (select (cache_sel t) (toggle_checked_at st (cache_sel t) (cache_sort t) (checked t)) t)
        | _ => stay t
        end
      else stay t
  | KEsc | KOther => stay t
  end.

Definition on_key (now : Z) (k : Key) (st : DashboardState) (t : Tui) : Tui * list ClientMessage * bool :=
  if is_press k then
    match menu t with
    | Some sel => let '(t', msgs) := menu_key now k sel st t in (t', msgs, true)
    | None => normal_key k st t
    end
  else (t, [], true).

(** A flash is taken down by the first render that finds it two seconds old. *)
Definition render_tick (now : Z) (t : Tui) : Tui :=
  match status_msg t with
  | Some (_, since) =>
      if 2 <=? now - since
      then mkTui (page t) (log_scroll t) (cache_sel t) (cache_sort t) (checked t) (menu t) None else t
  | None => t
  end.

(** ** Polling the database *)
Section poll.
Context `{MapOrder} (config : Config) (free_space_bytes : path → option Z).

(** [SystemTime + Duration] panics beyond the range of a time. *)
Definition evicts_at (last_hit expiry : Z) : option Z :=
  if last_hit + expiry <=? I64_MAX then Some (last_hit + expiry) else None.

Definition min_free (a b : option Z) : option Z :=
  match b with
  | None => a
  | Some free => Some (match a with None => free | Some p => Z.min p free end)
  end.

Definition poll_rows (db : CacheDb) (mount_dirs : list path) : list (path * (path * Z * Z * Z)) :=
  dir ← mount_dirs; (λ f, (dir, f)) <$> (CacheDb.client_files_for_mount db dir).2.

Definition shown_file (expiry : Z) (x : path * (path * Z * Z * Z)) : option CachedFileInfo :=
  let '(dir, (path, size, cached_at, last_hit)) := x in
  e ← evicts_at last_hit expiry;
  Some (mkCachedFileInfo path size cached_at last_hit e dir).

(** [None]: a panic. *)
Definition poll_cache_stats (db : CacheDb) (mount_dirs : list path) (st : DashboardState) : option DashboardState :=
  let expiry := as_u64 (e_expiry_hours (eviction config) * 3600) in
  combined ← mapM (shown_file expiry) (poll_rows db mount_dirs);
  let used := sum_u64 ((λ dir, (CacheDb.client_files_for_mount db dir).1) <$> mount_dirs) in
  let st := Ipc.store cache_used_bytes used st in
  let st := Ipc.store cache_free_bytes (default 0 (foldl min_free None (free_space_bytes <$> mount_dirs))) st in
  let st := Ipc.store cache_file_count (as_u64 (Z.of_nat (length combined))) st in
  Some (mkDashboardState (atomics st) (active_copies st) (caching_allowed st) combined (mounts st) (recent_logs st)).

(** ** The event loop *)
Record Session := mkSession { tui : Tui; dash : DashboardState; commands : list ClientMessage; running : bool }.

Inductive TuiInput :=
  | RenderTick (now : Z)
  | PollTick (db : CacheDb)
  | KeyEvent (now : Z) (k : Key)
  | OtherEvent
  | FromDaemon (now : Z) (m : Ipc.Frame DaemonMessage)
  | Disconnected.

Definition new_tui : Tui := mkTui PStatus O O Newest ∅ None None.

(** One turn; [None] is the panic of a poll. *)
Definition session_step (mount_dirs : list path) (s : Session) (i : TuiInput) : option Session :=
  if running s then
    match i with
    | RenderTick now => Some (mkSession (render_tick now (tui s)) (dash s) (commands s) true)
    | PollTick db =>
        d ← poll_cache_stats db mount_dirs (dash s);
        Some (mkSession (tui s) d (commands s) true)
    | KeyEvent now k =>
        let '(t, msgs, go) := on_key now k (dash s) (tui s) in
        Some (mkSession t (dash s) (commands s ++ msgs) go)
    | OtherEvent => Some s
    | FromDaemon now m =>
        Some (mkSession (tui s) (Ipc.run_client_stream [(now, m)] (dash s)).1 (commands s) true)
    | Disconnected => Some (mkSession (tui s) (dash s) (commands s) false)
    end
  else Some s.

End poll.

(** [run_client]: the state after the greeting, polled once. *)
Definition run_client `{MapOrder} (free_space_bytes : path → option Z) (hello : HelloPayload) (db : CacheDb) :
    option Session :=
  let st := Ipc.dashboard (h_config hello) in
  let st := mkDashboardState (atomics st) (active_copies st) (caching_allowed st) (cached_files st)
              (h_mounts hello) (recent_logs st) in
  d ← poll_cache_stats (h_config hello) free_space_bytes db (mi_cache_dir <$> h_mounts hello) st;
  Some (mkSession new_tui d [] true).
End Tui.

(** ** What [ui.rs] computes before it draws *)
Module Ui.
Import Tui.

(** *** The list of cached files *)
Definition visible_rows (height : nat) : nat := Nat.max (height - 4) 1.

Definition list_scroll (len vis sel : nat) : nat :=
  let max_scroll := (len - vis)%nat in
  if (len <=? vis)%nat then O
  else if (vis <=? sel + 3)%nat then Nat.min (sel + 4 - vis) max_scroll
  else O.

(** The rows drawn, with their index, whether selected and whether checked. *)
Definition cache_rows (height : nat) (st : DashboardState) (t : Tui) : list (CachedFileInfo * bool * bool) :=
  let files := sorted_files st (cache_sort t) in
  let vis := visible_rows height in
  take vis (drop (list_scroll (length files) vis (cache_sel t))
    (imap (λ i f, (f, bool_decide (i = cache_sel t), bool_decide (cf_path f ∈ checked t))) files)).

(** The mount named in the details of the selected file. *)
Definition detail_mount (st : DashboardState) : option string := mi_target <$> head (mounts st).

(** *** The logs *)
Definition status_page_logs (st : DashboardState) : list LogLine := take 5 (reverse (recent_logs st)).
Definition logs_page (st : DashboardState) (scroll : nat) : list LogLine := drop scroll (recent_logs st).

(** *** Texts *)
Definition show_nat (z : Z) : string := pretty (Z.to_N z).

Definition fmt_relative (now t : Z) : string :=
  let secs := Z.max 0 (now - t) in
  if secs <? 60 then show_nat secs ++ "s ago"
  else if secs <? 3600 then show_nat (secs / 60) ++ "m ago"
  else if secs <? 86400 then show_nat (secs / 3600) ++ "h ago"
  else show_nat (secs / 86400) ++ "d ago".

Definition fmt_duration_until (now t : Z) : string :=
  let secs := Z.max 0 (t - now) in
  if secs =? 0 then "expired"
  else show_nat (secs / 3600) ++ "h " ++ show_nat (secs mod 3600 / 60) ++ "m".

Definition truncate_path_tail (p : path) (n : nat) : string :=
  if (length p <=? n)%nat then Ipc.relative_text p
  else (Discovery.ellipsis ++ "/" ++ Text.join "/" (reverse (take n (reverse p))))%string.
End Ui.

(** ** Facts *)
Module TuiFacts.
Import Ipc IpcFacts Tui Ui.

Lemma path_leb_total p q : path_leb p q = true ∨ path_leb q p = true.
Proof.
  revert q. induction p as [|a p IH]; intros [|b q]; cbn [path_leb]; auto.
  destruct (String_as_OT.compare_spec a b) as [->|Hlt|Hlt]; [|by auto|].
  - destruct (String_as_OT.compare_spec b b) as [_|H|H]; [apply IH| |];
      by destruct (StrictOrder_Irreflexive b H).
  - rewrite Hlt. auto.
Qed.

Lemma path_leb_trans p q r : path_leb p q = true → path_leb q r = true → path_leb p r = true.
Proof.
  revert q r. induction p as [|a p IH]; intros [|b q] [|c r]; cbn [path_leb]; try done.
  destruct (String_as_OT.compare_spec a b) as [->|Hab|Hab]; [| |done].
  - destruct (String_as_OT.compare b c); [apply IH|done..].
  - destruct (String_as_OT.compare_spec b c) as [<-|Hbc|Hbc]; [by rewrite Hab| |done].
    by rewrite (transitivity Hab Hbc).
Qed.

#[export] Instance sort_le_total s : TotalOrderb (sort_le s).
Proof.
  split; destruct s; unfold sort_le; intros *; to_prop; try lia; [apply path_leb_total|apply path_leb_trans].
Qed.

Lemma sorted_files_refs st s : sorted_files st s = sort_refs s (cached_files st).
Proof.
  unfold sorted_files, sort_refs. f_equal. induction (cached_files st) as [|[] l IH]; [done|].
  cbn. by f_equal.
Qed.

(** What the details and the commands are about. *)
Definition chosen (st : DashboardState) (t : Tui) : list CachedFileInfo :=
  if decide (checked t = ∅) then option_list (sorted_files st (cache_sort t) !! cache_sel t)
  else filter (λ f, cf_path f ∈ checked t) (sorted_files st (cache_sort t)).

Lemma build_targets_chosen st t :
  build_targets st (checked t) (cache_sel t) (cache_sort t) = target <$> chosen st t.
Proof.
  unfold build_targets, chosen. rewrite sorted_files_refs. case_decide; [|done].
  by destruct (sort_refs _ _ !! _).
Qed.

Lemma elem_of_chosen f st t : f ∈ chosen st t → f ∈ cached_files st.
Proof.
  unfold chosen. rewrite sorted_files_refs. case_decide.
  - destruct (sort_refs _ _ !! _) as [g|] eqn:E; [|by intros ?%elem_of_nil].
    intros ->%list_elem_of_singleton. apply list_elem_of_lookup_2 in E.
    by apply elem_of_sort_by in E.
  - intros [_ Hf]%list_elem_of_filter. by apply elem_of_sort_by in Hf.
Qed.

(** *** The poll *)
Section poll.
Context `{MapOrder} (config : Config) (free : path → option Z).

Lemma elem_of_poll_rows db dirs dir rel size ca lh :
  (dir, (rel, size, ca, lh)) ∈ poll_rows db dirs ↔
  dir ∈ dirs ∧ ∃ r, cache_files (tables db) !! (rel, dir) = Some r ∧ size = CacheDb.col_u64 (size_bytes r) ∧
    ca = CacheDb.col_u64 (cached_at r) ∧ lh = CacheDb.col_u64 (last_hit_at r).
Proof.
  unfold poll_rows. rewrite list_elem_of_bind. setoid_rewrite list_elem_of_fmap. split.
  - intros (d & (row & Heq & Hrow) & Hd). injection Heq as <- <-. split; [done|].
    apply list_elem_of_fmap in Hrow as ([rel' r] & Heq & Hr%DbFacts.elem_of_mount_rows).
    simplify_eq/=. eauto.
  - intros (Hd & r & Hr & -> & -> & ->). exists dir. split; [|done].
    eexists. split; [done|]. apply list_elem_of_fmap. exists (rel, r). by rewrite DbFacts.elem_of_mount_rows.
Qed.

Lemma poll_nodup db dirs st st' :
  NoDup dirs → poll_cache_stats config free db dirs st = Some st' →
  NoDup ((λ f, (cf_mount_id f, cf_path f)) <$> cached_files st').
Proof.
  intros Hnd Hp. apply bind_Some in Hp as (combined & Hc%mapM_Some & [= <-]). cbn [cached_files].
  assert ((λ f, (cf_mount_id f, cf_path f)) <$> combined = (λ x, (x.1, x.2.1.1.1)) <$> poll_rows db dirs) as ->.
  { induction Hc as [|[dir [[[rel sz] ca] lh]] f l k Hf _ IH]; [done|].
    apply bind_Some in Hf as (e & _ & [= <-]). cbn. by f_equal. }
  clear Hc. unfold poll_rows. induction Hnd as [|dir dirs Hnin Hnd IH]; [constructor|].
  cbn [mbind list_bind]. rewrite fmap_app. apply NoDup_app. split_and!; [| |done].
  - assert (∀ l : list (path * FileRow), (λ x, (x.1, x.2.1.1.1)) <$> ((λ f, (dir, f)) <$>
      ((λ x, (x.1, CacheDb.col_u64 (size_bytes x.2), CacheDb.col_u64 (cached_at x.2),
              CacheDb.col_u64 (last_hit_at x.2))) <$> l)) = pair dir <$> l.*1) as Hl.
    { intros l. rewrite <- !list_fmap_compose. by apply list_fmap_ext. }
    cbn [CacheDb.client_files_for_mount snd]. rewrite Hl.
    apply NoDup_fmap_2; [by intros ?? [= ->]|apply DbFacts.NoDup_mount_rows].
  - intros [m rel] (x & Heq & Hx)%list_elem_of_fmap (y & Heq' & Hy)%list_elem_of_fmap.
    apply list_elem_of_fmap in Hx as (? & -> & _).
    apply list_elem_of_bind in Hy as (dir' & Hy & Hd). apply list_elem_of_fmap in Hy as (? & -> & _).
    cbn in *. by simplify_eq.
Qed.

Lemma poll_panics db dirs st :
  poll_cache_stats config free db dirs st = None →
  ∃ rel m r, m ∈ dirs ∧ cache_files (tables db) !! (rel, m) = Some r ∧
    I64_MAX < CacheDb.col_u64 (last_hit_at r) + as_u64 (e_expiry_hours (eviction config) * 3600).
Proof.
  unfold poll_cache_stats. intros Hp. apply bind_None in Hp as [Hp|(? & _ & ?)]; [|done].
  apply mapM_None, Exists_exists in Hp as ([dir [[[rel sz] ca] lh]] & Hin & Hf).
  apply elem_of_poll_rows in Hin as (Hd & r & Hr & -> & -> & ->).
  apply bind_None in Hf as [Hf|(? & _ & ?)]; [|done].
  exists rel, dir, r. split_and!; [done|done|]. unfold evicts_at in Hf. case_match; [done|]. lia.
Qed.

Lemma poll_files db dirs st st' :
  poll_cache_stats config free db dirs st = Some st' →
  ∀ f, f ∈ cached_files st' ↔ cf_mount_id f ∈ dirs ∧
    ∃ r, cache_files (tables db) !! (cf_path f, cf_mount_id f) = Some r ∧
      f = mkCachedFileInfo (cf_path f) (CacheDb.col_u64 (size_bytes r)) (CacheDb.col_u64 (cached_at r))
            (CacheDb.col_u64 (last_hit_at r))
            (CacheDb.col_u64 (last_hit_at r) + as_u64 (e_expiry_hours (eviction config) * 3600))
            (cf_mount_id f).
Proof.
  unfold poll_cache_stats. intros Hp. apply bind_Some in Hp as (combined & Hc & [= <-]).
  cbn [cached_files]. intros f. rewrite (elem_of_mapM _ _ _ Hc). split.
  - intros ([dir [[[rel sz] ca] lh]] & [Hin (r & Hr & -> & -> & ->)]%elem_of_poll_rows & Hf).
    apply bind_Some in Hf as (e & He & [= <-]). unfold evicts_at in He. case_match; simplify_eq.
    cbn. eauto.
  - intros (Hm & r & Hr & Hf).
    assert (Hin : (cf_mount_id f, (cf_path f, CacheDb.col_u64 (size_bytes r), CacheDb.col_u64 (cached_at r),
                    CacheDb.col_u64 (last_hit_at r))) ∈ poll_rows db dirs)
      by (apply elem_of_poll_rows; eauto 10).
    destruct (mapM_total _ _ _ _ Hc Hin) as [g Hg]. eexists. split; [done|]. rewrite Hg. f_equal.
    apply bind_Some in Hg as (e & He & [= <-]). unfold evicts_at in He. case_match; simplify_eq. done.
Qed.
End poll.

(** *** Rows *)
(** With at least four rows the window holds the selection. *)
Lemma scroll_window len vis sel :
  (4 <= vis)%nat → (sel < len)%nat →
  let top := list_scroll len vis sel in
  (top <= sel)%nat ∧ (sel < top + vis)%nat ∧ (top = 0 ∨ top + vis <= len)%nat.
Proof.
  intros Hv Hs. cbn zeta. unfold list_scroll.
  destruct (len <=? vis)%nat eqn:E1; to_prop; [lia|].
  destruct (vis <=? sel + 3)%nat eqn:E2; to_prop; lia.
Qed.

(** With fewer it can lie above the window: one row, the last of ten files but one selected. *)
Lemma small_window_hides_selection : list_scroll 10 1 5 = 8%nat ∧ visible_rows 5 = 1%nat.
Proof. done. Qed.

(** *** Keys *)
Definition tui_ok (st : DashboardState) (t : Tui) : Prop :=
  (∀ sel, menu t = Some sel → (sel <= 1)%nat ∧ page t = PCache) ∧
  (page t ≠ PCache → checked t = ∅) ∧
  (log_scroll t <= length (recent_logs st) - 1)%nat.

Lemma go_to_ok st p t : tui_ok st (go_to p t).
Proof. split_and!; cbn; [done|done|lia]. Qed.

Lemma go_to_cache_ok st t : tui_ok st t → tui_ok st (go_to_cache t).
Proof. intros (_ & _ & ?). split_and!; cbn; [done|done|lia]. Qed.

Lemma select_ok st sel c t : page t = PCache → tui_ok st t → tui_ok st (select sel c t).
Proof. intros Hp (? & _ & ?). split_and!; cbn; [done|done|lia]. Qed.

Lemma scroll_ok st n t : (n <= length (recent_logs st) - 1)%nat → tui_ok st t → tui_ok st (scroll_to n t).
Proof. intros Hn (? & ? & _). by split_and!. Qed.

Lemma normal_key_ok k st t : menu t = None → tui_ok st t → tui_ok st (normal_key k st t).1.1.
Proof.
  intros Hm Hok. assert (Hl := proj2 (proj2 Hok)). unfold normal_key.
  repeat (case_match; try done; try apply go_to_ok); cbn [fst];
    try (apply go_to_cache_ok; done); try (by apply select_ok); try (apply scroll_ok; [lia|done]).
  all: destruct Hok as (? & ? & ?); split_and!; cbn; naive_solver lia.
Qed.

Lemma menu_key_ok now k sel st t : menu t = Some sel → tui_ok st t → tui_ok st (menu_key now k sel st t).1.
Proof.
  intros Hm (Hmenu & Hc & Hl). destruct (Hmenu sel Hm) as [Hsel Hp]. unfold menu_key.
  repeat case_match; simplify_eq; split_and!; cbn; try done; intros; simplify_eq; split; (lia || done).
Qed.

Lemma on_key_ok now k st t : tui_ok st t → tui_ok st (on_key now k st t).1.1.
Proof.
  intros Hok. unfold on_key. destruct (is_press k); [|done].
  destruct (menu t) as [sel|] eqn:Hm; [|by apply normal_key_ok].
  pose proof (menu_key_ok now k sel st t Hm Hok). by destruct (menu_key _ _ _ _ _).
Qed.

Lemma render_tick_ok now st t : tui_ok st t → tui_ok st (render_tick now t).
Proof. unfold render_tick. by repeat case_match. Qed.

Lemma tui_ok_grows st st' t :
  (length (recent_logs st) <= length (recent_logs st'))%nat → tui_ok st t → tui_ok st' t.
Proof. intros ? (? & ? & ?). split_and!; [done|done|lia]. Qed.

Lemma push_ring_grows cap ring x :
  (0 < cap)%nat → (length ring <= length (push_ring cap ring x))%nat.
Proof.
  intros ?. unfold push_ring. rewrite length_app. cbn. destruct (_ <=? _)%nat; [|lia].
  destruct ring; cbn; lia.
Qed.

Lemma stream_logs_grow now m st :
  (length (recent_logs st) <= length (recent_logs (run_client_stream [(now, m)] st).1))%nat.
Proof.
  destruct m as [[]| |]; cbn [run_client_stream fst]; try done.
  - by rewrite apply_event_logs.
  - apply push_ring_grows. lia.
Qed.

(** What a key sends. *)
Definition file_command (m : ClientMessage) : Prop :=
  match m with EvictFiles fs | RefreshLease fs => fs ≠ [] | _ => False end.

Lemma on_key_sends now k st t t' msgs go :
  on_key now k st t = (t', msgs, go) →
  (go = true ∧ Forall file_command msgs) ∨ (go = false ∧ (msgs = [] ∨ msgs = [Shutdown])).
Proof.
  unfold on_key. destruct (is_press k); [|intros [= <- <- <-]; by left].
  destruct (menu t) as [sel|].
  - unfold menu_key. repeat case_match; intros; simplify_eq; left; (split; [done|]); by repeat constructor.
  - unfold normal_key. repeat case_match; intros; simplify_eq; auto.
Qed.

Lemma poll_logs `{MapOrder} config free db dirs st st' :
  poll_cache_stats config free db dirs st = Some st' → recent_logs st' = recent_logs st.
Proof. unfold poll_cache_stats. intros Hp. by apply bind_Some in Hp as (? & _ & [= <-]). Qed.
End TuiFacts.

(** ** What the dashboard guarantees *)
Module TuiTheorems.
Import Ipc IpcFacts Tui Ui TuiFacts.
Section theorems.
Context `{MapOrder} (free : path → option Z).

(** The sessions a greeting can lead to. *)
Inductive reachable (hello : HelloPayload) : Session → Prop :=
  | reach_start db s : run_client free hello db = Some s → reachable hello s
  | reach_step s i s' :
      reachable hello s →
      session_step (h_config hello) free (mi_cache_dir <$> h_mounts hello) s i = Some s' →
      reachable hello s'.

(** What was sent: commands that name files, and at the end perhaps the shutdown. *)
Definition sent_ok (s : Session) : Prop :=
  ∃ l, Forall file_command l ∧
    (commands s = l ∨ (running s = false ∧ commands s = l ++ [Shutdown])).

(** C32.  Whatever keys, ticks, polls and messages a session sees: the menu is only ever open on the
    page of cached files, on one of its two actions; files are only marked on that page; the log
    scrolls within the log; and the commands sent all name at least one file, but for a shutdown,
    which is the last thing a session sends. *)
Theorem session_invariant hello s :
  reachable hello s → tui_ok (dash s) (tui s) ∧ sent_ok s.
Proof.
  induction 1 as [db s Hs|s i s' _ [Hok Hsent] Hstep].
  - unfold run_client in Hs. apply bind_Some in Hs as (d & Hd & [= <-]).
    split; [split_and!; cbn; [done|done|lia]|exists []; by split; [|left]].
  - unfold session_step in Hstep. destruct (running s) eqn:Hrun; [|by simplify_eq].
    destruct Hsent as (l & Hl & [Hc|[? _]]); [|congruence].
    assert (sent_ok (mkSession (tui s) (dash s) (commands s) true)) as Hsent by (exists l; auto).
    destruct i as [now|db|now k| |now m|].
    + injection Hstep as <-. split; [by apply render_tick_ok|done].
    + apply bind_Some in Hstep as (d & Hd & [= <-]). split; [|done].
      apply (tui_ok_grows (dash s)); [|done]. cbn. by rewrite (poll_logs _ _ _ _ _ _ Hd).
    + destruct (on_key now k (dash s) (tui s)) as [[t msgs] go] eqn:E. injection Hstep as <-.
      split; [pose proof (on_key_ok now k (dash s) (tui s) Hok) as Hk; by rewrite E in Hk|].
      destruct (on_key_sends _ _ _ _ _ _ _ E) as [[-> Hm]|[-> [->| ->]]]; cbn; rewrite Hc.
      * exists (l ++ msgs). split; [by apply Forall_app|by left].
      * exists l. split; [done|left]. cbn. by rewrite app_nil_r.
      * exists l. auto.
    + injection Hstep as <-. split; [done|]. by exists l; auto.
    + injection Hstep as <-. split; [|done].
      apply (tui_ok_grows (dash s)); [apply stream_logs_grow|done].
    + injection Hstep as <-. split; [done|]. exists l. auto.
Qed.

(** The keys of database rows of mounts whose cache directories lie side by side. *)
Definition dirs_ok (db : CacheDb) (dirs : list path) : Prop :=
  (∀ rel m, m ∈ dirs → is_Some (cache_files (tables db) !! (rel, m)) → key_ok (m, rel)) ∧
  (∀ m m', m ∈ dirs → m' ∈ dirs → length m = length m').

Definition file_key (f : CachedFileInfo) : path * path := (cf_mount_id f, cf_path f).

Lemma target_file_key f : target f = target_of (file_key f).
Proof. done. Qed.

(** C16.  Evicting from the dashboard removes what is on the screen: when the list was polled from
    the daemon's database, Enter on the first item of the menu sends one command, which names
    the marked rows (or the highlighted one when none is marked) in the order they are drawn; and
    the daemon, on that command, deletes the files of exactly these rows and exactly their
    database rows, except for a file that cannot be deleted, which keeps its row. *)
Theorem evict_removes_what_is_shown config cwd dirs st0 now k s d :
  poll_cache_stats config free (disc_db (d_ctl d)) dirs st0 = Some (dash s) →
  dirs_ok (disc_db (d_ctl d)) dirs → Disk.wf (d_disk d) → db_writable d →
  running s = true → menu (tui s) = Some O → code k = KEnter → is_press k = true →
  let keys := file_key <$> chosen (dash s) (tui s) in
  (keys = [] ∧ (on_key now k (dash s) (tui s)).1.2 = []) ∨
  (∃ files, (on_key now k (dash s) (tui s)).1.2 = [EvictFiles files] ∧
     files = target_of <$> keys ∧
     evicts keys d (handle_message cwd now (EvictFiles files) d).1).
Proof.
  intros Hp [Hkeys Hlen] Hwf Hdb Hrun Hm Hk Hpress keys.
  assert (∀ m rel, (m, rel) ∈ keys → m ∈ dirs ∧ is_Some (cache_files (tables (disc_db (d_ctl d))) !! (rel, m))) as Hin.
  { intros m rel (f & [= -> ->] & Hf%elem_of_chosen)%list_elem_of_fmap.
    apply (poll_files _ _ _ _ _ _ Hp) in Hf as (? & r & ? & _). eauto. }
  unfold on_key, menu_key. rewrite Hpress, Hm, Hk, build_targets_chosen.
  assert (target <$> chosen (dash s) (tui s) = target_of <$> keys) as ->.
  { unfold keys. rewrite <- list_fmap_compose. done. }
  destruct keys as [|k0 keys'] eqn:E; [by left|right]. rewrite <- E in *.
  exists (target_of <$> keys). split_and!; [by rewrite E|done|].
  apply evict_all; [done|done| |].
  - apply Forall_forall. intros [m rel] [Hd Hr]%Hin. by apply Hkeys.
  - intros [m rel] [m' rel'] [Hd Hr]%Hin [Hd' Hr']%Hin. cbn. intros Heq.
    apply app_inj_1 in Heq as [-> ->]; [done|by apply Hlen].
Qed.

(** C38.  The poll shows the database: every row of the mounts polled is listed once with its size,
    times and the time it expires, nothing else is, and the file count is the number of rows; and
    it is only an expiry beyond the range of a time that makes it fail. *)
Theorem poll_shows_the_database config db dirs st :
  NoDup dirs →
  match poll_cache_stats config free db dirs st with
  | Some st' =>
      NoDup (file_key <$> cached_files st') ∧
      (∀ f, f ∈ cached_files st' ↔ cf_mount_id f ∈ dirs ∧
        ∃ r, cache_files (tables db) !! (cf_path f, cf_mount_id f) = Some r ∧
          f = mkCachedFileInfo (cf_path f) (CacheDb.col_u64 (size_bytes r)) (CacheDb.col_u64 (cached_at r))
                (CacheDb.col_u64 (last_hit_at r))
                (CacheDb.col_u64 (last_hit_at r) + as_u64 (e_expiry_hours (eviction config) * 3600))
                (cf_mount_id f)) ∧
      atomics st' cache_file_count = as_u64 (Z.of_nat (length (cached_files st'))) ∧
      atomics st' cache_used_bytes = sum_u64 ((λ dir, (CacheDb.client_files_for_mount db dir).1) <$> dirs) ∧
      (∀ c, c ∉ [cache_used_bytes; cache_free_bytes; cache_file_count] → atomics st' c = atomics st c)
  | None =>
      ∃ rel m r, m ∈ dirs ∧ cache_files (tables db) !! (rel, m) = Some r ∧
        I64_MAX < CacheDb.col_u64 (last_hit_at r) + as_u64 (e_expiry_hours (eviction config) * 3600)
  end.
Proof.
  intros Hnd. destruct (poll_cache_stats config free db dirs st) as [st'|] eqn:Hp.
  - split; [by eapply poll_nodup|]. split; [by apply (poll_files config free db dirs st)|].
    apply bind_Some in Hp as (combined & _ & [= <-]). cbn [cached_files atomics].
    split; [done|]. split; [done|].
    intros c Hc. rewrite !not_elem_of_cons in Hc. destruct_and! Hc. by rewrite !decide_False.
  - by eapply poll_panics.
Qed.

(** The selected row is drawn: in a list of at least eight lines the window of rows contains
    the selection, is full when there are rows enough, and marks exactly the selected row. *)
Theorem selected_row_is_drawn height st t :
  (8 <= height)%nat → (cache_sel t < length (cached_files st))%nat →
  let rows := cache_rows height st t in
  length rows = Nat.min (length (cached_files st)) (height - 4) ∧
  (∃ f, sorted_files st (cache_sort t) !! cache_sel t = Some f ∧
     filter (λ x, x.1.2 = true) rows = [(f, true, bool_decide (cf_path f ∈ checked t))]).
Proof.
  intros Hh Hsel rows. unfold rows, cache_rows.
  assert (length (sorted_files st (cache_sort t)) = length (cached_files st)) as Hn
    by (by rewrite sorted_files_refs; apply length_sort_by).
  rewrite <- Hn in *. set (files := sorted_files st (cache_sort t)) in *.
  destruct (scroll_window (length files) (visible_rows height) (cache_sel t)) as (Hlo & Hhi & Hfull);
    [unfold visible_rows; lia|done|].
  set (top := list_scroll _ _ _) in *.
  split.
  - rewrite length_take, length_drop, length_imap. unfold visible_rows in *. lia.
  - destruct (lookup_lt_is_Some_2 files (cache_sel t) Hsel) as [f Hf]. exists f. split; [done|].
    apply (filter_single _ _ (cache_sel t - top)).
    + rewrite lookup_take_lt, lookup_drop, list_lookup_imap by lia.
      replace (top + (cache_sel t - top))%nat with (cache_sel t) by lia.
      rewrite Hf. cbn. by rewrite bool_decide_true.
    + done.
    + intros j y Hj Hy. apply lookup_take_Some in Hy as [Hy _]. rewrite lookup_drop, list_lookup_imap in Hy.
      destruct (files !! (top + j)%nat); [|done]. injection Hy as <-. cbn.
      rewrite bool_decide_false by lia. done.
Qed.
End theorems.

(** ** Witnesses *)
Definition one_row_db : CacheDb :=
  CacheDb.mark_cached 50 ["a"]%string ["c"]%string DbWitnesses.some_source DbWitnesses.fresh_db.
Definition press (c : KeyCode) : Key := mkKey c false false true.
Definition no_free (p : path) : option Z := None.
Definition one_file : CachedFileInfo := mkCachedFileInfo ["a"]%string 700 50 50 (50 + 72 * 3600) ["c"]%string.

Lemma one_row_poll : ∀ st,
  ∃ st', poll_cache_stats (h_config IpcTheorems.some_hello) no_free one_row_db [["c"]%string] st = Some st' ∧
    cached_files st' = [one_file].
Proof.
  intros st. unfold poll_cache_stats.
  assert (mapM (shown_file (as_u64 (e_expiry_hours (eviction (h_config IpcTheorems.some_hello)) * 3600)))
    (poll_rows one_row_db [["c"]%string]) = Some [one_file]) as -> by (vm_compute; reflexivity).
  eexists. split; reflexivity.
Qed.

Lemma session_invariant_witness :
  ∃ s, reachable no_free IpcTheorems.some_hello s ∧ menu (tui s) = Some O ∧ tui_ok (dash s) (tui s).
Proof.
  set (st0 := mkDashboardState (atomics (dashboard (h_config IpcTheorems.some_hello))) ∅ false []
                (h_mounts IpcTheorems.some_hello) []).
  destruct (one_row_poll st0) as (d & Hd & Hf).
  assert (Hs : reachable no_free IpcTheorems.some_hello (mkSession new_tui d [] true)).
  { apply (reach_start _ _ one_row_db). unfold run_client. fold st0.
    change (mi_cache_dir <$> h_mounts IpcTheorems.some_hello) with [["c"]%string].
    change (mkDashboardState _ _ _ _ _ _) with st0. by rewrite Hd. }
  set (s1 := mkSession (go_to_cache new_tui) d ([] ++ []) true).
  assert (H1 : reachable no_free IpcTheorems.some_hello s1)
    by (by apply (reach_step _ _ _ (KeyEvent 1 (press (KChar "2"))) _ Hs)).
  set (s2 := mkSession (mkTui PCache 0 0 Newest ∅ (Some 0%nat) None) d (([] ++ []) ++ []) true).
  assert (H2 : reachable no_free IpcTheorems.some_hello s2).
  { apply (reach_step _ _ _ (KeyEvent 2 (press KEnter)) _ H1). cbn.
    unfold normal_key. rewrite Hf. reflexivity. }
  exists s2. split; [done|]. split; [done|]. apply (session_invariant no_free IpcTheorems.some_hello s2 H2).
Defined.

Lemma one_row_dirs : dirs_ok one_row_db [["c"]%string].
Proof.
  split.
  - intros rel m ->%list_elem_of_singleton [r Hr].
    change (cache_files (tables one_row_db)) with
      (<[(["a"]%string, ["c"]%string) := mkFileRow 700 50 50 1 (CacheDb.to_columns DbWitnesses.some_source)]>
         (∅ : gmap (path * path) FileRow)) in Hr.
    apply lookup_insert_Some in Hr as [[[= <-] _]|[_ Hr]]; [|by rewrite lookup_empty in Hr].
    split_and!; [done|done|]. repeat constructor; done.
  - by intros m m' ->%list_elem_of_singleton ->%list_elem_of_singleton.
Qed.

Lemma evict_removes_what_is_shown_witness :
  let d := IpcTheorems.some_state DbWitnesses.some_disk one_row_db in
  nodes (d_disk (handle_message [] 3 (EvictFiles [mkFileTarget "a" "/c"]) d).1) !! ["c"; "a"]%string = None.
Proof.
  intros d. set (cfg := h_config IpcTheorems.some_hello).
  destruct (one_row_poll (dashboard cfg)) as (st & E & Hc).
  set (t := mkTui PCache 0 0 Newest ∅ (Some 0%nat) None).
  assert (Hch : chosen st t = [one_file])
    by (unfold chosen; cbn; by rewrite sorted_files_refs, Hc).
  destruct (evict_removes_what_is_shown no_free cfg [] [["c"]%string] (dashboard cfg) 3 (press KEnter)
    (mkSession t st [] true) d) as [[Hk _]|(files & Hs & -> & Hev)].
  - exact E.
  - exact one_row_dirs.
  - exact DbWitnesses.some_disk_wf.
  - done.
  - done.
  - done.
  - done.
  - done.
  - cbn in Hk. by rewrite Hch in Hk.
  - cbn [tui dash] in Hev. rewrite Hch in Hev. destruct Hev as [Hgone _].
    apply (Hgone (["c"]%string, ["a"]%string)). split; [by left|]. split; [by eexists|].
    by vm_compute.
Defined.

Lemma poll_shows_the_database_witness :
  ∃ st', poll_cache_stats (h_config IpcTheorems.some_hello) no_free one_row_db [["c"]%string]
           (dashboard (h_config IpcTheorems.some_hello)) = Some st' ∧
    NoDup (file_key <$> cached_files st').
Proof.
  assert (Hx := poll_shows_the_database no_free (h_config IpcTheorems.some_hello) one_row_db [["c"]%string]
                  (dashboard (h_config IpcTheorems.some_hello)) (NoDup_singleton _)).
  destruct (one_row_poll (dashboard (h_config IpcTheorems.some_hello))) as (st & E & _).
  rewrite E in Hx. exists st. split; [done|apply Hx].
Defined.

Lemma selected_row_is_drawn_witness :
  let st := mkDashboardState (λ _, 0) ∅ false
    ((λ n, mkCachedFileInfo ["f"]%string (Z.of_nat n) 0 0 0 ["c"]%string) <$> seq 0 20) [] [] in
  length (cache_rows 8 st (mkTui PCache 0 9 Largest ∅ None None)) = 4%nat.
Proof.
  intros st. destruct (selected_row_is_drawn 8 st (mkTui PCache 0 9 Largest ∅ None None)) as [-> _]; [lia|cbn; lia|].
  reflexivity.
Defined.
End TuiTheorems.
