(* ===== verification/Double.v ===== *)
(** * Doubles

    The floating-point operations the dashboard uses on non-negative numbers: the cast of a [u64],
    division, a product by an integer, clamping, comparison with a literal and printing with one
    decimal ([{:.1}]).  A double is the [f64] of [Config], an exact [m * 2^e]; the operations
    compute the exact result and round it to 53 bits, to nearest, ties to even, as the language
    does.  The numbers stay between [2^-64] and [2^71], far from underflow and overflow. *)
From Stdlib Require Import QArith Qpower Lqa.
From stdpp Require Import pretty.
From S2P Require Import Prelude Paths Scheduler Backing Disk Db Manager CacheIo Preset Engine Config.
#[local] Open Scope Z_scope.

Module Double.

(** The integer nearest to [n / d], the even one of two. *)
Definition round_half_even (n d : Z) : Z :=
  let q := n / d in
  let r := n mod d in
  if 2 * r <? d then q else if d <? 2 * r then q + 1 else if Z.even q then q else q + 1.

(** [n / d] in units of [2^e]. *)
Definition on_grid (n d e : Z) : Z :=
  if 0 <=? e then round_half_even n (d * 2 ^ e) else round_half_even (n * 2 ^ (- e)) d.

(** The power of two at or below [n / d]. *)
Definition binade (n d : Z) : Z :=
  let e := Z.log2 n - Z.log2 d in
  if (if 0 <=? e then d * 2 ^ e <=? n else d <=? n * 2 ^ (- e)) then e else e - 1.

(** The double nearest to [n / d]. *)
Definition round (n d : Z) : f64 :=
  if n =? 0 then Finite 0 0 else let e := binade n d - 52 in Finite (on_grid n d e) e.

(** An exact [m * 2^e] as a fraction. *)
Definition num (m e : Z) : Z := if 0 <=? e then m * 2 ^ e else m.
Definition den (e : Z) : Z := if 0 <=? e then 1 else 2 ^ (- e).

Definition of_u64 (n : Z) : f64 := round n 1.

(** Division of non-negative numbers. *)
Definition div (x y : f64) : f64 :=
  match x, y with
  | Finite m1 e1, Finite m2 e2 =>
      if m2 =? 0 then if m1 =? 0 then NaN else Infinity false
      else round (num m1 e1 * den e2) (den e1 * num m2 e2)
  | Finite _ _, Infinity _ => Finite 0 0
  | Infinity _, Finite _ _ => x
  | _, _ => NaN
  end.

Definition mul_int (x : f64) (k : Z) : f64 :=
  match x with Finite m e => round (num m e * k) (den e) | _ => x end.

(** [x < y]; false for a NaN. *)
Definition ltb (x y : f64) : bool :=
  match x, y with
  | Finite m1 e1, Finite m2 e2 => num m1 e1 * den e2 <? num m2 e2 * den e1
  | Finite _ _, Infinity negative => negb negative
  | Infinity negative, Finite _ _ => negative
  | Infinity n1, Infinity n2 => n1 && negb n2
  | NaN, _ | _, NaN => false
  end.

(** [f64::clamp] *)
Definition clamp (lo hi x : f64) : f64 :=
  let x := if ltb x lo then lo else x in if ltb hi x then hi else x.

(** [{:.1}]: the exact value to the nearest tenth, ties to even. *)
Definition tenths (x : f64) : Z :=
  match x with Finite m e => round_half_even (num m e * 10) (den e) | _ => 0 end.

Definition fmt_1 (x : f64) : string :=
  match x with
  | Finite _ _ => pretty (tenths x / 10) ++ "." ++ pretty (tenths x mod 10)
  | Infinity negative => if negative then "-inf" else "inf"
  | NaN => "NaN"
  end.
End Double.

(** ** Facts *)
Module DoubleFacts.
Import Double.
#[local] Open Scope Q_scope.

(** *** Powers of two *)
Lemma two_pos e : 0 < 2 ^ e.
Proof. by apply Qpower_0_lt. Qed.

Lemma two_add e f : 2 ^ (e + f) == 2 ^ e * 2 ^ f.
Proof. by apply Qpower_plus. Qed.

Lemma two_le e f : (e <= f)%Z → 2 ^ e <= 2 ^ f.
Proof. intros H. by apply Qpower_le_compat_l. Qed.

Lemma two_Z e : (0 <= e)%Z → 2 ^ e == inject_Z (2 ^ e).
Proof. intros H. by rewrite Zpower_Qpower. Qed.

Lemma two_inv e : 2 ^ (- e) * 2 ^ e == 1.
Proof. rewrite <- two_add. by replace (- e + e)%Z with 0%Z by lia. Qed.

(** The number a double stands for. *)
Definition value (x : f64) : Q := match x with Finite m e => inject_Z m * 2 ^ e | _ => 0 end.

Definition ratio (n d : Z) : Q := inject_Z n / inject_Z d.

Lemma inject_pos d : (0 < d)%Z → 0 < inject_Z d.
Proof. intros H. change 0 with (inject_Z 0). by rewrite <- Zlt_Qlt. Qed.

Lemma ratio_le n d q : (0 < d)%Z → (inject_Z n <= q * inject_Z d ↔ ratio n d <= q).
Proof.
  intros Hd%inject_pos. unfold ratio. split; intros H.
  - apply Qle_shift_div_r; [done|]. done.
  - apply (Qmult_le_r _ _ (inject_Z d)) in H; [|done]. rewrite Qmult_comm, Qmult_div_r in H; [done|].
    intros E. rewrite E in Hd. by apply Qlt_irrefl in Hd.
Qed.

Lemma ratio_ge n d q : (0 < d)%Z → (q * inject_Z d <= inject_Z n ↔ q <= ratio n d).
Proof.
  intros Hd%inject_pos. unfold ratio. split; intros H.
  - apply Qle_shift_div_l; done.
  - apply (Qmult_le_r _ _ (inject_Z d)) in H; [|done]. rewrite (Qmult_comm (_ / _)), Qmult_div_r in H; [done|].
    intros E. rewrite E in Hd. by apply Qlt_irrefl in Hd.
Qed.

Lemma ratio_lt n d q : (0 < d)%Z → (inject_Z n < q * inject_Z d ↔ ratio n d < q).
Proof. intros Hd. pose proof (ratio_ge n d q Hd). split; intros H1; apply Qnot_le_lt; intros H2; apply (Qlt_not_le _ _ H1); tauto. Qed.

Lemma ratio_mul n d : (0 < d)%Z → ratio n d * inject_Z d == inject_Z n.
Proof.
  intros Hd%inject_pos. unfold ratio. rewrite Qmult_comm. apply Qmult_div_r. intros E. rewrite E in Hd. by apply Qlt_irrefl in Hd.
Qed.

Lemma ratio_0 d : ratio 0 d == 0.
Proof. unfold ratio, Qdiv. apply Qmult_0_l. Qed.

(** *** Rounding to an integer *)
Lemma rhe_between n d : (0 < d)%Z → (- d <= 2 * (round_half_even n d * d - n) <= d)%Z.
Proof.
  intros Hd. unfold round_half_even. pose proof (Z.div_mod n d ltac:(lia)). pose proof (Z.mod_pos_bound n d Hd).
  repeat case_match; to_prop; nia.
Qed.

Lemma rhe_le n d k : (0 < d)%Z → (n <= k * d)%Z → (round_half_even n d <= k)%Z.
Proof.
  intros Hd Hk. unfold round_half_even. pose proof (Z.div_mod n d ltac:(lia)). pose proof (Z.mod_pos_bound n d Hd).
  repeat case_match; to_prop; nia.
Qed.

Lemma rhe_ge n d k : (0 < d)%Z → (k * d <= n)%Z → (k <= round_half_even n d)%Z.
Proof.
  intros Hd Hk. unfold round_half_even. pose proof (Z.div_mod n d ltac:(lia)). pose proof (Z.mod_pos_bound n d Hd).
  repeat case_match; to_prop; nia.
Qed.

Lemma rhe_Q n d : (0 < d)%Z →
  ratio n d - (1 # 2) <= inject_Z (round_half_even n d) <= ratio n d + (1 # 2).
Proof.
  intros Hd. pose proof (rhe_between n d Hd) as [H1 H2]. set (r := round_half_even n d) in *.
  assert (G1 : inject_Z n <= (inject_Z r + (1 # 2)) * inject_Z d).
  { rewrite Zle_Qle, !inject_Z_mult, inject_Z_opp in H1. unfold Z.sub in H1.
    rewrite inject_Z_plus, inject_Z_mult, inject_Z_opp in H1. change (inject_Z 2) with 2 in H1. lra. }
  assert (G2 : (inject_Z r - (1 # 2)) * inject_Z d <= inject_Z n).
  { rewrite Zle_Qle, !inject_Z_mult in H2. unfold Z.sub in H2.
    rewrite inject_Z_plus, inject_Z_mult, inject_Z_opp in H2. change (inject_Z 2) with 2 in H2. lra. }
  apply ratio_le in G1; [|done]. apply ratio_ge in G2; [|done]. lra.
Qed.

Lemma rhe_Q_le n d k : (0 < d)%Z → ratio n d <= inject_Z k → (round_half_even n d <= k)%Z.
Proof. intros Hd Hk%ratio_le; [|done]. rewrite <- inject_Z_mult, <- Zle_Qle in Hk. by apply rhe_le. Qed.

Lemma rhe_Q_ge n d k : (0 < d)%Z → inject_Z k <= ratio n d → (k <= round_half_even n d)%Z.
Proof. intros Hd Hk%ratio_ge; [|done]. rewrite <- inject_Z_mult, <- Zle_Qle in Hk. by apply rhe_ge. Qed.

(** *** Rounding to a multiple of a power of two *)
Lemma on_grid_frac n d e :
  (0 < d)%Z → ∃ N D, on_grid n d e = round_half_even N D ∧ (0 < D)%Z ∧ ratio n d == ratio N D * 2 ^ e.
Proof.
  intros Hd. unfold on_grid. destruct (Z.leb_spec 0 e) as [He|He].
  - assert (0 < 2 ^ e)%Z by (apply Z.pow_pos_nonneg; lia).
    exists n, (d * 2 ^ e)%Z. split_and!; [done|nia|]. unfold ratio. rewrite inject_Z_mult, two_Z by done.
    pose proof (inject_pos d Hd). pose proof (inject_pos (2 ^ e) ltac:(done)). field. split; lra.
  - exists (n * 2 ^ (- e))%Z, d. split_and!; [done..|]. unfold ratio.
    rewrite inject_Z_mult, <- two_Z by lia. pose proof (inject_pos d Hd). pose proof (two_inv e).
    transitivity (inject_Z n * (2 ^ (- e) * 2 ^ e) / inject_Z d); [rewrite two_inv|]; field; lra.
Qed.

Lemma on_grid_close n d e : (0 < d)%Z →
  ratio n d - (1 # 2) * 2 ^ e <= inject_Z (on_grid n d e) * 2 ^ e <= ratio n d + (1 # 2) * 2 ^ e.
Proof.
  intros Hd. destruct (on_grid_frac n d e Hd) as (N & D & -> & HD & ->).
  pose proof (rhe_Q N D HD). pose proof (two_pos e). split; nra.
Qed.

Lemma on_grid_le n d e k : (0 < d)%Z → ratio n d <= inject_Z k * 2 ^ e → (on_grid n d e <= k)%Z.
Proof.
  intros Hd Hk. destruct (on_grid_frac n d e Hd) as (N & D & -> & HD & E). rewrite E in Hk.
  apply rhe_Q_le; [done|]. by apply Qmult_le_r in Hk; [|apply two_pos].
Qed.

Lemma on_grid_ge n d e k : (0 < d)%Z → inject_Z k * 2 ^ e <= ratio n d → (k <= on_grid n d e)%Z.
Proof.
  intros Hd Hk. destruct (on_grid_frac n d e Hd) as (N & D & -> & HD & E). rewrite E in Hk.
  apply rhe_Q_ge; [done|]. by apply Qmult_le_r in Hk; [|apply two_pos].
Qed.

(** *** The binade *)
Lemma two_half e : 2 ^ (e - 1) * 2 == 2 ^ e.
Proof. change 2 with (2 ^ 1) at 2. rewrite <- two_add. by replace (e - 1 + 1)%Z with e by lia. Qed.

Lemma log2_Q n : (0 < n)%Z → 2 ^ Z.log2 n <= inject_Z n < 2 ^ (Z.log2 n + 1).
Proof.
  intros Hn. pose proof (Z.log2_spec n Hn) as [H1 H2]. pose proof (Z.log2_nonneg n).
  rewrite !two_Z by lia. by rewrite <- Zle_Qle, <- Zlt_Qlt.
Qed.

Lemma at_least_two_power n d e : (0 < d)%Z →
  (if (0 <=? e)%Z then (d * 2 ^ e <=? n)%Z else (d <=? n * 2 ^ (- e))%Z) = true ↔ 2 ^ e <= ratio n d.
Proof.
  intros Hd. rewrite <- ratio_ge by done. destruct (Z.leb_spec 0 e) as [He|He]; rewrite Z.leb_le, Zle_Qle, inject_Z_mult.
  - rewrite two_Z by done. by rewrite Qmult_comm.
  - rewrite <- two_Z by lia. pose proof (two_inv e). pose proof (two_pos e). pose proof (two_pos (- e)).
    split; intros H'.
    + apply (Qmult_le_r _ _ (2 ^ e)) in H'; [|done]. rewrite <- Qmult_assoc, two_inv in H'. lra.
    + apply (Qmult_le_r _ _ (2 ^ (- e))) in H'; [|done].
      assert (X : 2 ^ e * inject_Z d * 2 ^ (- e) == inject_Z d * (2 ^ (- e) * 2 ^ e)) by ring.
      rewrite two_inv in X. lra.
Qed.

Lemma binade_spec n d : (0 < n)%Z → (0 < d)%Z → 2 ^ binade n d <= ratio n d < 2 ^ (binade n d + 1).
Proof.
  intros Hn Hd. unfold binade. set (e := (Z.log2 n - Z.log2 d)%Z).
  pose proof (log2_Q n Hn) as [Hn1 Hn2]. pose proof (log2_Q d Hd) as [Hd1 Hd2].
  assert (Hlow : 2 ^ (e - 1) <= ratio n d).
  { apply ratio_ge; [done|]. pose proof (two_pos (e - 1)).
    assert (2 ^ (e - 1) * 2 ^ (Z.log2 d + 1) == 2 ^ Z.log2 n) by (rewrite <- two_add; by f_equiv; unfold e; lia). nra. }
  assert (Hhigh : ratio n d < 2 ^ (e + 1)).
  { apply ratio_lt; [done|]. pose proof (two_pos (e + 1)).
    assert (2 ^ (e + 1) * 2 ^ Z.log2 d == 2 ^ (Z.log2 n + 1)) by (rewrite <- two_add; by f_equiv; unfold e; lia). nra. }
  destruct (if (0 <=? e)%Z then _ else _) eqn:E.
  - apply at_least_two_power in E; [|done]. done.
  - split; [done|]. replace (e - 1 + 1)%Z with e by lia. apply Qnot_le_lt. intros H%at_least_two_power; [|done]. congruence.
Qed.

(** *** Rounding *)
Lemma value_round n d : (0 < n)%Z →
  value (round n d) = inject_Z (on_grid n d (binade n d - 52)) * 2 ^ (binade n d - 52).
Proof. intros Hn. unfold round. by rewrite (proj2 (Z.eqb_neq n 0)) by lia. Qed.

Lemma mantissa n d : (0 < n)%Z → (0 < d)%Z → (2 ^ 52 <= on_grid n d (binade n d - 52) <= 2 ^ 53)%Z.
Proof.
  intros Hn Hd. pose proof (binade_spec n d Hn Hd) as [H1 H2]. split.
  - apply on_grid_ge; [done|]. rewrite <- two_Z, <- two_add by lia. by replace (52 + (binade n d - 52))%Z with (binade n d) by lia.
  - apply on_grid_le; [done|]. rewrite <- two_Z, <- two_add by lia.
    replace (53 + (binade n d - 52))%Z with (binade n d + 1)%Z by lia. lra.
Qed.

(** The relative error is at most [2^-53]. *)
Lemma round_close n d : (0 <= n)%Z → (0 < d)%Z →
  ratio n d * (1 - 2 ^ (-53)) <= value (round n d) <= ratio n d * (1 + 2 ^ (-53)).
Proof.
  intros Hn Hd. destruct (decide (n = 0%Z)) as [->|Hn0].
  { rewrite ratio_0, !Qmult_0_l. by split. }
  rewrite value_round by lia. pose proof (binade_spec n d ltac:(lia) Hd) as [H1 _].
  pose proof (on_grid_close n d (binade n d - 52) Hd) as [H2 H3].
  assert (E : (1 # 2) * 2 ^ (binade n d - 52) == 2 ^ binade n d * 2 ^ (-53)).
  { rewrite <- two_add. pose proof (two_half (binade n d - 52)). replace (binade n d + -53)%Z with (binade n d - 52 - 1)%Z by lia. lra. }
  rewrite E in H2, H3. pose proof (two_pos (-53)). split; nra.
Qed.

Lemma round_nonneg n d : (0 <= n)%Z → (0 < d)%Z → 0 <= value (round n d).
Proof.
  intros Hn Hd. destruct (decide (n = 0%Z)) as [->|]; [done|]. rewrite value_round by lia.
  pose proof (mantissa n d ltac:(lia) Hd) as [Hm _]. pose proof (two_pos (binade n d - 52)).
  apply Qmult_le_0_compat; [|lra]. change 0 with (inject_Z 0). rewrite <- Zle_Qle. lia.
Qed.

(** Rounding does not cross a double. *)
Lemma round_le n d m e : (0 <= n)%Z → (0 < d)%Z → (0 <= m < 2 ^ 53)%Z →
  ratio n d <= inject_Z m * 2 ^ e → value (round n d) <= inject_Z m * 2 ^ e.
Proof.
  intros Hn Hd Hm Hle. destruct (decide (n = 0%Z)) as [->|].
  { simpl value. apply Qmult_le_0_compat; [|apply Qlt_le_weak, two_pos]. change 0 with (inject_Z 0). rewrite <- Zle_Qle. lia. }
  rewrite value_round by lia. pose proof (binade_spec n d ltac:(lia) Hd) as [H1 _].
  set (b := binade n d) in *. destruct (decide (b - 52 <= e)%Z) as [He|He].
  - assert (E : inject_Z m * 2 ^ e == inject_Z (m * 2 ^ (e - (b - 52))) * 2 ^ (b - 52)).
    { rewrite inject_Z_mult, <- two_Z, <- Qmult_assoc, <- two_add by lia. by replace (e - (b - 52) + (b - 52))%Z with e by lia. }
    rewrite E in Hle |- *. apply Qmult_le_compat_r; [|apply Qlt_le_weak, two_pos].
    rewrite <- Zle_Qle. by apply on_grid_le.
  - exfalso. assert (Hm' : inject_Z m < 2 ^ 53) by (rewrite two_Z, <- Zlt_Qlt by lia; lia).
    pose proof (two_pos e). assert (H53 : 2 ^ 53 * 2 ^ e <= 2 ^ b) by (rewrite <- two_add; apply two_le; lia).
    apply (Qmult_lt_r _ _ (2 ^ e)) in Hm'; [|done]. lra.
Qed.

Lemma round_ge n d m e : (0 < n)%Z → (0 < d)%Z → (0 <= m <= 2 ^ 53)%Z →
  inject_Z m * 2 ^ e <= ratio n d → inject_Z m * 2 ^ e <= value (round n d).
Proof.
  intros Hn Hd Hm Hle. rewrite value_round by lia. pose proof (mantissa n d Hn Hd) as [H1 _].
  pose proof (binade_spec n d Hn Hd) as [H2 _].
  set (b := binade n d) in *. destruct (decide (b - 52 <= e)%Z) as [He|He].
  - assert (E : inject_Z m * 2 ^ e == inject_Z (m * 2 ^ (e - (b - 52))) * 2 ^ (b - 52)).
    { rewrite inject_Z_mult, <- two_Z, <- Qmult_assoc, <- two_add by lia. by replace (e - (b - 52) + (b - 52))%Z with e by lia. }
    rewrite E in Hle |- *. apply Qmult_le_compat_r; [|apply Qlt_le_weak, two_pos].
    rewrite <- Zle_Qle. by apply on_grid_ge.
  - rewrite Zle_Qle in H1. rewrite <- two_Z in H1 by lia.
    assert (Hm' : inject_Z m <= 2 ^ 53) by (rewrite two_Z, <- Zle_Qle by lia; lia).
    pose proof (two_pos e). pose proof (two_pos (b - 52)).
    assert (2 ^ 53 * 2 ^ e <= 2 ^ 52 * 2 ^ (b - 52)) by (rewrite <- !two_add; apply two_le; lia).
    apply (Qmult_le_r _ _ (2 ^ e)) in Hm'; [|done]. apply (Qmult_le_r _ _ (2 ^ (b - 52))) in H1; [|done]. lra.
Qed.

(** A number that is a double is not changed. *)
Lemma round_exact n d m e : (0 <= n)%Z → (0 < d)%Z → (0 <= m < 2 ^ 53)%Z →
  ratio n d == inject_Z m * 2 ^ e → value (round n d) == inject_Z m * 2 ^ e.
Proof.
  intros Hn Hd Hm E. apply Qle_antisym; [apply round_le; [done..|]; rewrite E; apply Qle_refl|].
  destruct (decide (n = 0%Z)) as [->|].
  { by rewrite <- E, ratio_0. }
  apply round_ge; [lia|done|lia|]. rewrite E. apply Qle_refl.
Qed.

(** *** The operations *)
Definition finite_nonneg (x : f64) : Prop := match x with Finite m _ => (0 <= m)%Z | _ => False end.
Definition finite_pos (x : f64) : Prop := match x with Finite m _ => (0 < m)%Z | _ => False end.

Lemma den_pos e : (0 < den e)%Z.
Proof. unfold den. destruct (Z.leb_spec 0 e); [done|]. apply Z.pow_pos_nonneg; lia. Qed.

Lemma num_nonneg m e : (0 <= m)%Z → (0 <= num m e)%Z.
Proof. intros Hm. unfold num. destruct (Z.leb_spec 0 e); [|done]. apply Z.mul_nonneg_nonneg; [done|]. by apply Z.pow_nonneg. Qed.

Lemma num_pos m e : (0 < m)%Z → (0 < num m e)%Z.
Proof. intros Hm. unfold num. destruct (Z.leb_spec 0 e); [|done]. apply Z.mul_pos_pos; [done|]. by apply Z.pow_pos_nonneg. Qed.

Lemma num_den m e : inject_Z (num m e) == value (Finite m e) * inject_Z (den e).
Proof.
  unfold num, den. cbn [value]. destruct (Z.leb_spec 0 e) as [He|He].
  - rewrite inject_Z_mult, two_Z by done. change (inject_Z 1) with 1. ring.
  - rewrite <- two_Z by lia. transitivity (inject_Z m * (2 ^ (- e) * 2 ^ e)); [rewrite two_inv|]; ring.
Qed.

Lemma round_pos n d : (0 < n)%Z → (0 < d)%Z → finite_pos (round n d).
Proof.
  intros Hn Hd. unfold round. rewrite (proj2 (Z.eqb_neq n 0)) by lia. simpl.
  pose proof (mantissa n d Hn Hd). lia.
Qed.

Lemma round_finite n d : (0 <= n)%Z → (0 < d)%Z → finite_nonneg (round n d).
Proof.
  intros Hn Hd. destruct (decide (n = 0%Z)) as [->|]; [done|].
  pose proof (round_pos n d ltac:(lia) Hd). destruct (round n d); simpl in *; [done..|lia].
Qed.

Lemma value_pos x : finite_pos x → 0 < value x.
Proof. destruct x as [| |m e]; [done..|]. intros Hm. simpl. apply Qmult_lt_0_compat; [by apply inject_pos|apply two_pos]. Qed.

Lemma value_nonneg x : finite_nonneg x → 0 <= value x.
Proof.
  destruct x as [| |m e]; [done..|]. intros Hm. simpl. apply Qmult_le_0_compat; [|apply Qlt_le_weak, two_pos].
  change 0 with (inject_Z 0). by rewrite <- Zle_Qle.
Qed.

(** Each operation rounds the exact result. *)
Lemma div_round x y :
  finite_nonneg x → finite_pos y →
  ∃ n d, div x y = round n d ∧ (0 <= n)%Z ∧ (0 < d)%Z ∧ ratio n d == value x / value y ∧ (finite_pos x → (0 < n)%Z).
Proof.
  destruct x as [| |m1 e1], y as [| |m2 e2]; try done. intros H1 H2. simpl in H1, H2.
  pose proof (den_pos e1). pose proof (den_pos e2). pose proof (num_nonneg m1 e1 H1). pose proof (num_pos m2 e2 H2).
  unfold div. rewrite (proj2 (Z.eqb_neq m2 0)) by lia.
  eexists _, _. split_and!; [done|nia..| |intros Hm%(num_pos _ e1); nia].
  unfold ratio. rewrite !inject_Z_mult, !num_den. pose proof (value_pos (Finite m2 e2) H2).
  pose proof (inject_pos (den e1) ltac:(done)). pose proof (inject_pos (den e2) ltac:(done)).
  field. split_and!; lra.
Qed.

Lemma mul_round x k :
  finite_nonneg x → (0 <= k)%Z →
  ∃ n d, mul_int x k = round n d ∧ (0 <= n)%Z ∧ (0 < d)%Z ∧ ratio n d == value x * inject_Z k.
Proof.
  destruct x as [| |m e]; try done. intros H1 H2. simpl in H1.
  pose proof (den_pos e). pose proof (num_nonneg m e H1).
  eexists _, _. split_and!; [done|nia|done|].
  unfold ratio. rewrite !inject_Z_mult, !num_den. pose proof (inject_pos (den e) ltac:(done)). field. lra.
Qed.

Lemma ratio_1 n : ratio n 1 == inject_Z n.
Proof. unfold ratio. change (inject_Z 1) with 1. field. Qed.

Lemma of_u64_close n : (0 <= n)%Z →
  inject_Z n * (1 - 2 ^ (-53)) <= value (of_u64 n) <= inject_Z n * (1 + 2 ^ (-53)).
Proof. intros Hn. rewrite <- (ratio_1 n). by apply round_close. Qed.

Lemma of_u64_exact n : (0 <= n < 2 ^ 53)%Z → value (of_u64 n) == inject_Z n.
Proof.
  intros Hn. assert (E : inject_Z n == inject_Z n * 2 ^ 0) by (simpl; ring). rewrite E.
  apply round_exact; [lia|done..|]. by rewrite ratio_1.
Qed.

Lemma ltb_Q x y : finite_nonneg x → finite_nonneg y → ltb x y = true ↔ value x < value y.
Proof.
  destruct x as [| |m1 e1], y as [| |m2 e2]; try done. intros _ _. unfold ltb. rewrite Z.ltb_lt, Zlt_Qlt, !inject_Z_mult, !num_den.
  pose proof (inject_pos _ (den_pos e1)) as H1. pose proof (inject_pos _ (den_pos e2)) as H2.
  set (v1 := value (Finite m1 e1)). set (v2 := value (Finite m2 e2)).
  set (a := inject_Z (den e1)) in *. set (b := inject_Z (den e2)) in *.
  assert (E1 : v1 * a * b == v1 * (a * b)) by ring. assert (E2 : v2 * b * a == v2 * (a * b)) by ring.
  rewrite E1, E2. apply Qmult_lt_r. by apply Qmult_lt_0_compat.
Qed.

Lemma value_int k : value (Finite k 0) == inject_Z k.
Proof. unfold value. change (2 ^ 0) with 1. ring. Qed.

(** A clamped number is in the range. *)
Lemma clamp_range x : finite_nonneg x →
  finite_nonneg (clamp (Finite 0 0) (Finite 1 0) x) ∧ value (clamp (Finite 0 0) (Finite 1 0) x) <= 1 ∧
  (value x <= 1 → clamp (Finite 0 0) (Finite 1 0) x = x).
Proof.
  intros Hx. unfold clamp. pose proof (value_int 0) as H0. pose proof (value_int 1) as H1.
  change (inject_Z 0) with 0 in H0. change (inject_Z 1) with 1 in H1. pose proof (value_nonneg x Hx).
  assert (ltb x (Finite 0 0) = false) as ->.
  { apply not_true_iff_false. rewrite ltb_Q, H0 by done. lra. }
  destruct (ltb (Finite 1 0) x) eqn:E.
  - apply ltb_Q in E; [|done..]. rewrite H1 in E. split_and!; [done|lra|]. intros ?. lra.
  - apply not_true_iff_false in E. rewrite ltb_Q, H1 in E by done. split_and!; [done|lra|done].
Qed.

(** Printing is off by at most half a tenth. *)
Lemma tenths_frac x : finite_nonneg x →
  ∃ n d, tenths x = round_half_even n d ∧ (0 < d)%Z ∧ ratio n d == value x * 10.
Proof.
  destruct x as [| |m e]; [done..|]. intros Hm. eexists _, _. split_and!; [done|apply den_pos|].
  unfold ratio. rewrite inject_Z_mult, num_den. change (inject_Z 10) with 10. pose proof (inject_pos _ (den_pos e)). field. lra.
Qed.

Lemma tenths_close x : finite_nonneg x →
  value x - (1 # 20) <= inject_Z (tenths x) / 10 <= value x + (1 # 20).
Proof.
  intros (n & d & -> & Hd & E)%tenths_frac. pose proof (rhe_Q n d Hd) as H. rewrite E in H.
  split; [apply Qle_shift_div_l|apply Qle_shift_div_r]; lra.
Qed.

Lemma tenths_le x k : finite_nonneg x → value x * 10 <= inject_Z k → (tenths x <= k)%Z.
Proof. intros (n & d & -> & Hd & E)%tenths_frac H. rewrite <- E in H. by apply rhe_Q_le. Qed.

Lemma tenths_nonneg x : finite_nonneg x → (0 <= tenths x)%Z.
Proof.
  intros Hx. pose proof (value_nonneg x Hx). destruct (tenths_frac x Hx) as (n & d & -> & Hd & E).
  apply rhe_Q_ge; [done|]. rewrite E. change (inject_Z 0) with 0. lra.
Qed.

(** The cast back to an integer. *)
Lemma as_u64_Q x n :
  finite_nonneg x → (0 <= n < 2 ^ 64 - 1)%Z →
  Config.f64_as_u64 x = n ↔ inject_Z n <= value x < inject_Z (n + 1).
Proof.
  destruct x as [| |m e]; [done..|]. intros Hm Hn. simpl in Hm. unfold Config.f64_as_u64.
  assert (Ht : Config.trunc m e = (num m e / den e)%Z).
  { unfold Config.trunc, num, den. destruct (Z.leb_spec 0 e); [by rewrite Z.div_1_r|].
    apply Z.quot_div_nonneg; [done|]. apply Z.pow_pos_nonneg; lia. }
  pose proof (den_pos e) as Hd. pose proof (num_nonneg m e Hm) as Hnum. rewrite Ht.
  pose proof (inject_pos _ Hd) as HdQ.
  assert (Hdiv : (0 <= num m e / den e)%Z) by (apply Z.div_pos; lia).
  assert (Hq : (num m e / den e = n)%Z ↔ (n * den e <= num m e < (n + 1) * den e)%Z).
  { pose proof (Z.div_mod (num m e) (den e) ltac:(lia)). pose proof (Z.mod_pos_bound (num m e) (den e) Hd).
    split; [intros; subst n; nia|]. intros. symmetry. apply (Z.div_unique_pos _ _ _ (num m e - n * den e)); lia. }
  transitivity (num m e / den e = n)%Z; [lia|]. rewrite Hq, Zle_Qle, Zlt_Qlt, !inject_Z_mult, num_den.
  by rewrite Qmult_le_r, Qmult_lt_r.
Qed.
End DoubleFacts.
