(* ===== verification/Screen.v ===== *)
(** * What the dashboard draws

    [src/tui/ui.rs], every [render_*] function: a frame is the list of the widgets drawn, in order,
    each with its area.  The widgets and the layout solver are third-party: a widget is what the code
    hands over, the solver ([Layout::split], [Rect::inner]) a class of operations.  Labels with a
    fraction are computed on the doubles of [Double]. *)
From Stdlib Require Import QArith Qpower Qround Lqa.
From stdpp Require Import pretty.
From S2P Require Import Prelude Paths Scheduler Backing Disk Db Manager CacheIo Preset Engine Fuse.
From S2P Require Import Discovery Config Instance Ipc Tui Double.
#[local] Open Scope Z_scope.

Record Rect := mkRect { rx : Z; ry : Z; rw : Z; rh : Z }.

Inductive Color := Black | Red | Green | Yellow | Cyan | DarkGray | White.
Record Style := mkStyle { fg : option Color; bg : option Color; bold : bool; underlined : bool }.
Record Span := mkSpan { span_text : string; span_style : Style }.

Inductive Constraint := Length (n : Z) | Min (n : Z) | Percentage (n : Z).

(** A title comes with borders on all sides. *)
Inductive Widget :=
  | Paragraph (lines : list (list Span)) (title : option string)
  | Block (title : string)
  | Gauge (color : Color) (ratio : f64) (label : string)
  | WidgetList (items : list (list Span)) (title : string)
  | Table (header : list Span) (rows : list (list string * Style)) (widths : list Constraint) (title : string)
  | Clear.

Definition Drawing : Type := list (Rect * Widget).

(** [Layout::vertical(..).split] and [Layout::horizontal(..).split], and a margin of one. *)
Class Layout : Type := {
  vertical : list Constraint → Rect → list Rect;
  horizontal : list Constraint → Rect → list Rect;
  inner : Rect → Rect;
}.

(** [libc::tm] *)
Record Tm := mkTm { tm_year : Z; tm_mon : Z; tm_mday : Z; tm_hour : Z; tm_min : Z; tm_sec : Z }.

Module Screen.
Import Ipc Tui Ui Double.

(** ** Formatting *)
Definition plain : Style := mkStyle None None false false.
Definition colored (c : Color) : Style := mkStyle (Some c) None false false.
Definition raw (s : string) : Span := mkSpan s plain.
Definition styled (s : string) (st : Style) : Span := mkSpan s st.

Definition GIB : Z := 1073741824.
Definition MIB : Z := 1048576.

Definition gb (bytes : Z) : f64 := div (of_u64 bytes) (of_u64 GIB).
Definition show_gb (bytes : Z) : string := fmt_1 (gb bytes).

Definition fmt_bytes (bytes : Z) : string :=
  if GIB <=? bytes then show_gb bytes ++ " GB"
  else if MIB <=? bytes then fmt_1 (div (of_u64 bytes) (of_u64 MIB)) ++ " MB"
  else pretty (bytes / 1024) ++ " KB".

Fixpoint spaces (n : nat) : string := match n with O => "" | S n => String " " (spaces n) end.
Fixpoint zeros (n : nat) : string := match n with O => "" | S n => String "0" (zeros n) end.

(** [{:0width}] *)
Definition padded (width : nat) (z : Z) : string := zeros (width - String.length (pretty z)) ++ pretty z.

Definition log_level_color (level : string) : Color :=
  let l := Text.trim level in
  if decide (l = "ERROR") then Red
  else if decide (l = "WARN") then Yellow
  else if decide (l = "INFO") then Cyan
  else if decide (l = "DEBUG") then DarkGray
  else if decide (l = "TRACE") then DarkGray
  else White.

Definition log_item (e : LogLine) : list Span :=
  [styled (ll_timestamp e ++ " ") (colored DarkGray);
   styled (ll_level e ++ " ") (colored (log_level_color (ll_level e)));
   raw (ll_message e)].

(** The fraction a gauge shows. *)
Definition fill (part whole : Z) : f64 :=
  if 0 <? whole then clamp (Finite 0 0) (Finite 1 0) (div (of_u64 part) (of_u64 whole)) else Finite 0 0.

Definition usage_color (ratio : f64) : Color :=
  if ltb (round 9 10) ratio then Red else if ltb (round 3 4) ratio then Yellow else Green.

Section screen.
Context `{MapOrder} `{Layout}.
(** The local zone and the two clocks. *)
Context (localtime : Z → Tm) (now instant : Z) (config : Config).

Definition fmt_time (t : Z) : string :=
  Instance.fmt_time (λ secs, let tm := localtime secs in (tm_hour tm, tm_min tm, tm_sec tm)) t.

Definition fmt_datetime (t : Z) : string :=
  let tm := localtime (Z.max 0 t) in
  padded 4 (tm_year tm + 1900) ++ "-" ++ padded 2 (tm_mon tm + 1) ++ "-" ++ padded 2 (tm_mday tm) ++ " "
  ++ padded 2 (tm_hour tm) ++ ":" ++ padded 2 (tm_min tm) ++ ":" ++ padded 2 (tm_sec tm).

Definition elapsed_secs (cp : CopyProgress) : Z := Z.max 0 (instant - cp_started_at cp).

Definition no_area : Rect := mkRect 0 0 0 0.
Definition nth_area (areas : list Rect) (i : nat) : Rect := default no_area (areas !! i).

(** ** The tab bar *)
Definition render_tab_bar (area : Rect) (active : Page) : Drawing :=
  let tabs := [(PStatus, "1 Status"); (PCache, "2 Cache"); (PCacheIo, "3 Cache I/O"); (PLogs, "4 Logs")] in
  let tab '(p, label) :=
    if decide (p = active) then styled ("[" ++ label ++ "]") (mkStyle (Some Black) (Some Cyan) true false)
    else styled (" " ++ label ++ " ") (colored DarkGray) in
  let spans := concat (imap (λ i t, if (i + 1 <? length tabs)%nat then [tab t; raw "  "] else [tab t]) tabs) in
  [(area, Paragraph [spans ++ [styled "  ←→/1-4: pages  q: quit" (colored DarkGray)]] None)].

(** ** Page 1: status *)
Definition window_str : string :=
  let w := schedule config in
  if decide (cache_window_start w = "") then "not configured"
  else cache_window_start w ++ " – " ++ cache_window_end w.

Definition max_bytes : Z := Config.gb_to_bytes (e_max_size_gb (eviction config)).
Definition min_free : Z := Config.gb_to_bytes (e_min_free_space_gb (eviction config)).

Definition usage_gauge (st : DashboardState) : Widget :=
  let used := atomics st cache_used_bytes in
  let ratio := fill used max_bytes in
  Gauge (usage_color ratio) ratio (show_gb used ++ " / " ++ show_gb max_bytes ++ " GB").

Definition three_lines : list Constraint := [Length 1; Length 1; Length 1].

Definition render_scheduler_and_cache (area : Rect) (st : DashboardState) : Drawing :=
  let cols := horizontal [Length 30; Min 0] area in
  let '(status_str, status_color) := if caching_allowed st then ("● OPEN", Green) else ("○ CLOSED", Red) in
  let sub := vertical three_lines (inner (nth_area cols 1)) in
  [(nth_area cols 0, Paragraph [[raw (" Window: " ++ window_str)];
                                [raw " Status: "; styled status_str (colored status_color)]] (Some " Scheduler "));
   (nth_area cols 1, Block " Cache Budget ");
   (nth_area sub 0, usage_gauge st);
   (nth_area sub 1, Paragraph [[raw (" Free: " ++ show_gb (atomics st cache_free_bytes)
                                     ++ " GB  (min " ++ show_gb min_free ++ " GB)")]] None);
   (nth_area sub 2, Paragraph [[raw (" Files: " ++ pretty (atomics st cache_file_count))]] None)].

Definition budget_str (st : DashboardState) : string :=
  if 0 <? atomics st budget_max_bytes
  then "Budget: " ++ show_gb (atomics st budget_used_bytes) ++ " / " ++ show_gb (atomics st budget_max_bytes) ++ " GB"
  else "Budget: unlimited".

Definition render_predictor (area : Rect) (st : DashboardState) : Drawing :=
  let preset_str := if decide (preset_name config = "") then "—" else preset_name config in
  [(area, Paragraph [[raw (" In-flight: " ++ pretty (atomics st in_flight_count)
                           ++ "   Deferred: " ++ pretty (atomics st deferred_count)
                           ++ "   " ++ budget_str st ++ "   Preset: " ++ preset_str)]] (Some " Action Engine "))].

Definition render_mounts (area : Rect) (st : DashboardState) : Drawing :=
  let item m :=
    let '(dot, color) := if mi_active m then ("●", Green) else ("○", Red) in
    [styled (" " ++ dot ++ " ") (colored color); raw (mi_target m)] in
  [(area, WidgetList (item <$> mounts st) (" Mounts (" ++ pretty (length (mounts st)) ++ ") "))].

Definition hit_rate (hits misses : Z) : string :=
  let total := u64_add hits misses in
  if 0 <? total then fmt_1 (mul_int (div (of_u64 hits) (of_u64 total)) 100) ++ "%" else "—".

Definition render_activity (area : Rect) (st : DashboardState) : Drawing :=
  let n c := pretty (atomics st c) in
  [(area, Paragraph
     [[raw " FUSE"];
      [raw ("   Opens: " ++ n fuse_opens ++ "   Hits: " ++ n cache_hits ++ " ("
            ++ hit_rate (atomics st cache_hits) (atomics st cache_misses) ++ ")   Misses: " ++ n cache_misses)];
      [raw ("   Bytes read: " ++ fmt_bytes (atomics st bytes_read) ++ "   Open handles: " ++ n open_handles)];
      [raw ""];
      [raw " Copies"];
      [raw ("   Completed: " ++ n completed_copies ++ "   Failed: " ++ n failed_copies)];
      [raw ""];
      [raw " Evictions"];
      [raw ("   Expired: " ++ n evictions_expired ++ "   Size-limit: " ++ n evictions_size)]]
     (Some " Activity "))].

Definition render_recent_logs (area : Rect) (st : DashboardState) : Drawing :=
  [(area, WidgetList (log_item <$> status_page_logs st)
     (" Recent Logs (" ++ pretty (length (recent_logs st)) ++ " total — see page 4) "))].

Definition render_status (area : Rect) (st : DashboardState) : Drawing :=
  let rows := vertical [Length 5; Length 3; Length 4; Min 5; Length 7] area in
  render_scheduler_and_cache (nth_area rows 0) st ++ render_predictor (nth_area rows 1) st
  ++ render_mounts (nth_area rows 2) st ++ render_activity (nth_area rows 3) st
  ++ render_recent_logs (nth_area rows 4) st.
(** ** Page 2: cached files *)
Definition list_title (st : DashboardState) (t : Tui) : string :=
  let shown := (" Cached Files   sort: [" ++ sort_label (cache_sort t) ++ "]   "
                ++ pretty (length (cached_files st)) ++ " files   " ++ show_gb (atomics st cache_used_bytes)
                ++ " GB   ")%string in
  if (0 <? base.size (checked t))%nat
  then shown ++ pretty (base.size (checked t)) ++ " selected   │  Space: toggle  Shift+↑↓: range  Enter: actions "
  else shown ++ "│  Space: select  Enter: actions  s: sort ".

(** A row of [Ui.cache_rows]. *)
Definition table_row (r : CachedFileInfo * bool * bool) : list string * Style :=
  let '(f, is_sel, is_checked) := r in
  let marker := if is_sel : bool then "▸" else " " in
  let checkbox := if is_checked : bool then "[x]" else "[ ]" in
  ([checkbox; (marker ++ " " ++ relative_text (cf_path f))%string; fmt_bytes (cf_size_bytes f);
    fmt_time (cf_cached_at f); fmt_duration_until now (cf_evicts_at f)],
   if is_sel then mkStyle None (Some DarkGray) false false else plain).

Definition render_cache_list (area : Rect) (st : DashboardState) (t : Tui) : Drawing :=
  let header s := styled s (mkStyle None None true true) in
  [(area, Table (header <$> ["  "; "File"; "Size"; "Cached At"; "Evicts In"])
            (table_row <$> cache_rows (Z.to_nat (rh area)) st t)
            [Length 5; Min 20; Length 10; Length 10; Length 10] (list_title st t))].

Definition detail_lines (st : DashboardState) (f : CachedFileInfo) : list (list Span) :=
  [[raw (" File:       " ++ relative_text (cf_path f))];
   [raw (" Mount:      " ++ default "—" (detail_mount st))];
   [raw (" Size:       " ++ fmt_bytes (cf_size_bytes f))];
   [raw (" Cached at:  " ++ fmt_datetime (cf_cached_at f) ++ "  (" ++ fmt_relative now (cf_cached_at f) ++ ")")];
   [raw (" Last read:  " ++ fmt_datetime (cf_last_hit_at f) ++ "  (" ++ fmt_relative now (cf_last_hit_at f) ++ ")")];
   [raw (" Evicts in:  " ++ fmt_duration_until now (cf_evicts_at f) ++ "  (" ++ fmt_datetime (cf_evicts_at f) ++ ")")]].

Definition render_cache_detail (area : Rect) (st : DashboardState) (t : Tui) : Drawing :=
  let lines := match sorted_files st (cache_sort t) !! cache_sel t with
               | Some f => detail_lines st f
               | None => [[raw " No files cached."]]
               end in
  let flash := match status_msg t with
               | Some (msg, _) => [[raw ""]; [styled (" ⏳ " ++ msg) (mkStyle (Some Yellow) None true false)]]
               | None => []
               end in
  [(area, Paragraph (lines ++ flash) (Some " Details "))].

Definition render_cache (area : Rect) (st : DashboardState) (t : Tui) : Drawing :=
  let chunks := vertical [Percentage 60; Percentage 40] area in
  render_cache_list (nth_area chunks 0) st t ++ render_cache_detail (nth_area chunks 1) st t.

Definition menu_area (area : Rect) : Rect :=
  mkRect (rx area + saturating_sub (rw area) 30 / 2) (ry area + saturating_sub (rh area) 6 / 2)
         (Z.min 30 (rw area)) (Z.min 6 (rh area)).

Definition render_action_menu (area : Rect) (sel : nat) : Drawing :=
  let item i label :=
    [styled ("  " ++ label ++ "  ")
       (if decide (i = sel) then mkStyle (Some Black) (Some Cyan) true false else plain)] in
  [(menu_area area, Clear);
   (menu_area area, WidgetList (imap item ["Evict files"; "Refresh lease"]) " Action  (↑↓ Enter Esc) ")].

(** ** Page 3: cache traffic *)
Definition render_cacheio_usage (area : Rect) (st : DashboardState) : Drawing :=
  let sub := vertical three_lines (inner area) in
  [(area, Block " Cache Usage ");
   (nth_area sub 0, usage_gauge st);
   (nth_area sub 1, Paragraph [[raw (" Free: " ++ show_gb (atomics st cache_free_bytes) ++ " GB")]] None);
   (nth_area sub 2, Paragraph [[raw (" Files: " ++ pretty (atomics st cache_file_count))]] None)].

Definition render_cacheio_pipeline (area : Rect) (st : DashboardState) : Drawing :=
  let n c := pretty (atomics st c) in
  let '(window_str, window_color) := if caching_allowed st then ("OPEN", Green) else ("CLOSED", Red) in
  let sub := vertical [Length 1; Length 1] (inner area) in
  [(area, Block " Pipeline ");
   (nth_area sub 0, Paragraph [[raw (" In-flight: " ++ n in_flight_count ++ "   Deferred: " ++ n deferred_count
        ++ "   Completed: " ++ n completed_copies ++ "   Failed: " ++ n failed_copies)]] None);
   (nth_area sub 1, Paragraph [[raw " Window: "; styled window_str (colored window_color);
        raw ("   Evictions — expired: " ++ n evictions_expired ++ "  size-limit: " ++ n evictions_size)]] None)].

(** The copies in the order they are drawn. *)
Definition sorted_copies (st : DashboardState) : list (path * CopyProgress) :=
  sort_by (λ a b, cp_started_at a.2 <=? cp_started_at b.2) (iter (active_copies st)).

(** [str::len] counts bytes. *)
Definition title_line (width : Z) (p : path) (cp : CopyProgress) : string :=
  let path_str := truncate_path_tail p 3 in
  let elapsed_label := (pretty (elapsed_secs cp) ++ "s")%string in
  let pad := saturating_sub width (Z.of_nat (String.length path_str + String.length elapsed_label + 1)) in
  path_str ++ spaces (Z.to_nat pad) ++ elapsed_label.

(** Cut to a whole number. *)
Definition percentage (part whole : Z) : Z := Config.f64_as_u64 (mul_int (fill part whole) 100).

Definition copy_label (cp : CopyProgress) : string :=
  if 0 <? cp_size_bytes cp then
    let pct := percentage (cp_bytes_copied cp) (cp_size_bytes cp) in
    fmt_bytes (cp_bytes_copied cp) ++ " / " ++ fmt_bytes (cp_size_bytes cp) ++ "  (" ++ pretty pct ++ "%)"
  else fmt_bytes (cp_bytes_copied cp) ++ " / ?".

(** Two rows and a spacer each, as long as they fit. *)
Fixpoint place_copies (area : Rect) (y : Z) (copies : list (path * CopyProgress)) : Drawing :=
  match copies with
  | [] => []
  | (p, cp) :: copies' =>
      if ry area + rh area <? y + 2 then []
      else [(mkRect (rx area) y (rw area) 1, Paragraph [[raw (title_line (rw area) p cp)]] None);
            (mkRect (rx area) (y + 1) (rw area) 1,
             Gauge Cyan (fill (cp_bytes_copied cp) (cp_size_bytes cp)) (copy_label cp))]
           ++ place_copies area (y + 3) copies'
  end.

Definition render_cacheio_inflight (area : Rect) (st : DashboardState) : Drawing :=
  let inner := inner area in
  (area, Block " In-flight Transfers ") ::
  match sorted_copies st with
  | [] => [(inner, Paragraph [[styled " No active copies." (colored DarkGray)]] None)]
  | sorted =>
      let max_visible := Z.to_nat (Z.max (rh inner / 3) 1) in
      place_copies inner (ry inner) (take max_visible sorted)
  end.

Definition render_cache_io (area : Rect) (st : DashboardState) : Drawing :=
  let rows := vertical [Length 5; Length 5; Min 10] area in
  render_cacheio_usage (nth_area rows 0) st ++ render_cacheio_pipeline (nth_area rows 1) st
  ++ render_cacheio_inflight (nth_area rows 2) st.

(** ** Page 4: logs *)
Definition render_logs (area : Rect) (st : DashboardState) (scroll : nat) : Drawing :=
  [(area, WidgetList (log_item <$> logs_page st scroll)
     (" Logs (" ++ pretty (length (recent_logs st)) ++ " entries  ↑↓: scroll  Home/End: jump) "))].

(** ** The frame *)
Definition render (area : Rect) (st : DashboardState) (t : Tui) : Drawing :=
  let chunks := vertical [Length 1; Min 0] area in
  render_tab_bar (nth_area chunks 0) (page t)
  ++ match page t with
     | PStatus => render_status (nth_area chunks 1) st
     | PCache =>
         render_cache (nth_area chunks 1) st t
         ++ match menu t with Some sel => render_action_menu (nth_area chunks 1) sel | None => [] end
     | PCacheIo => render_cache_io (nth_area chunks 1) st
     | PLogs => render_logs (nth_area chunks 1) st (log_scroll t)
     end.
End screen.
End Screen.

(** ** Facts *)
Module ScreenFacts.
Import Ipc Tui Ui Double DoubleFacts Screen.

(** *** Fractions *)
#[local] Open Scope Q_scope.

Lemma of_u64_finite n : (0 <= n)%Z → finite_nonneg (of_u64 n).
Proof. intros. by apply round_finite. Qed.

Lemma of_u64_pos n : (0 < n)%Z → finite_pos (of_u64 n).
Proof. intros. by apply round_pos. Qed.

Lemma fill_range part whole :
  (0 <= part)%Z → finite_nonneg (fill part whole) ∧ value (fill part whole) <= 1.
Proof.
  intros Hp. unfold fill. destruct (Z.ltb_spec 0 whole) as [Hw|Hw].
  - destruct (div_round (of_u64 part) (of_u64 whole)) as (n & d & -> & Hn & Hd & _); [by apply of_u64_finite|by apply of_u64_pos|].
    pose proof (clamp_range (round n d) (round_finite n d Hn Hd)) as (? & ? & _). done.
  - split; [done|]. rewrite value_int. done.
Qed.

(** The quotient of two numbers below [2^53] is the rounded quotient. *)
Lemma quotient_round part whole :
  (0 <= part < 2 ^ 53)%Z → (0 < whole < 2 ^ 53)%Z →
  ∃ n d, div (of_u64 part) (of_u64 whole) = round n d ∧ (0 <= n)%Z ∧ (0 < d)%Z ∧ ratio n d == ratio part whole.
Proof.
  intros Hp Hw. destruct (div_round (of_u64 part) (of_u64 whole)) as (n & d & E & Hn & Hd & Hr & _);
    [apply of_u64_finite; lia|apply of_u64_pos; lia|].
  exists n, d. split_and!; [done..|]. rewrite Hr, !of_u64_exact by lia. done.
Qed.

Lemma fill_done part whole :
  (0 <= part < 2 ^ 53)%Z → (0 < whole < 2 ^ 53)%Z → (whole <= part)%Z → value (fill part whole) == 1.
Proof.
  intros Hp Hw Hle. destruct (fill_range part whole ltac:(lia)) as [_ Hmax].
  unfold fill in *. rewrite (proj2 (Z.ltb_lt _ _)) in * by lia.
  destruct (quotient_round part whole Hp Hw) as (n & d & E & Hn & Hd & Hr). rewrite E in *.
  pose proof (value_int 1) as H1. change (inject_Z 1) with 1 in H1.
  assert (Hone : inject_Z 1 <= ratio n d).
  { rewrite Hr. apply ratio_ge; [lia|]. rewrite <- inject_Z_mult, <- Zle_Qle. lia. }
  assert (Hn0 : (0 < n)%Z).
  { destruct (decide (n = 0%Z)) as [->|]; [|lia]. by rewrite ratio_0 in Hone. }
  assert (Hge : inject_Z 1 * 2 ^ 0 <= value (round n d)) by (apply round_ge; [done..|]; by rewrite Qmult_1_r).
  change (inject_Z 1 * 2 ^ 0) with 1 in Hge.
  unfold clamp in *. assert (ltb (round n d) (Finite 0 0) = false) as E0.
  { apply not_true_iff_false. rewrite ltb_Q by (try done; apply round_finite; lia). rewrite value_int.
    change (inject_Z 0) with 0. lra. }
  rewrite E0 in *. destruct (ltb (Finite 1 0) (round n d)); [done|]. lra.
Qed.

Lemma fill_quotient part whole :
  (0 <= part < 2 ^ 53)%Z → (0 < whole < 2 ^ 53)%Z → (part < whole)%Z →
  ∃ n d, fill part whole = round n d ∧ (0 <= n)%Z ∧ (0 < d)%Z ∧ ratio n d == ratio part whole ∧
    value (round n d) <= 1 - 2 ^ (-53).
Proof.
  intros Hp Hw Hlt. destruct (quotient_round part whole Hp Hw) as (n & d & E & Hn & Hd & Hr).
  exists n, d. unfold fill. rewrite (proj2 (Z.ltb_lt _ _)), E by lia.
  assert (Hmax : value (round n d) <= inject_Z (2 ^ 53 - 1) * 2 ^ (-53)).
  { apply round_le; [done..|]. rewrite Hr. apply ratio_le; [lia|].
    assert (Hz : (part * 2 ^ 53 <= (2 ^ 53 - 1) * whole)%Z) by lia.
    rewrite Zle_Qle, !inject_Z_mult in Hz. rewrite <- two_Z in Hz by lia.
    pose proof (two_inv 53) as Hinv. change (- (53))%Z with (-53)%Z in Hinv.
    apply (Qmult_le_r _ _ (2 ^ (-53))) in Hz; [|done].
    assert (E1 : inject_Z part * 2 ^ 53 * 2 ^ (-53) == inject_Z part) by (rewrite <- Qmult_assoc; rewrite (Qmult_comm (2 ^ 53)), Hinv; ring).
    rewrite E1 in Hz. lra. }
  assert (Hm : inject_Z (2 ^ 53 - 1) * 2 ^ (-53) == 1 - 2 ^ (-53)) by done.
  rewrite Hm in Hmax. split_and!; try done.
  apply clamp_range; [by apply round_finite|]. pose proof (two_pos (-53)). lra.
Qed.

Lemma percentage_full part whole :
  (0 <= part < 2 ^ 53)%Z → (0 < whole < 2 ^ 53)%Z → (whole <= part)%Z → percentage part whole = 100%Z.
Proof.
  intros Hp Hw Hle. unfold percentage. destruct (fill_range part whole ltac:(lia)) as [Hf _].
  destruct (mul_round (fill part whole) 100 Hf ltac:(lia)) as (n & d & E & Hn & Hd & Hr). rewrite E.
  rewrite fill_done in Hr by done.
  assert (Hv : value (round n d) == inject_Z 100 * 2 ^ 0) by (apply round_exact; [done..|]; rewrite Hr; by vm_compute).
  apply as_u64_Q; [by apply round_finite|done|]. rewrite Hv. by split.
Qed.

(** Below one, a hundred times a double rounds to less than a hundred. *)
Lemma hundred_times x :
  finite_nonneg x → value x <= 1 - 2 ^ (-53) → finite_nonneg (mul_int x 100) ∧ value (mul_int x 100) < 100.
Proof.
  intros Hx Hmax. destruct (mul_round x 100 Hx ltac:(lia)) as (n & d & -> & Hn & Hd & Hr).
  split; [by apply round_finite|]. destruct (decide (n = 0%Z)) as [->|]; [done|].
  rewrite value_round by lia. pose proof (binade_spec n d ltac:(lia) Hd) as [Hb _].
  pose proof (on_grid_close n d (binade n d - 52) Hd) as [_ Hclose].
  rewrite Hr in Hb, Hclose. change (inject_Z 100) with 100 in *.
  assert (Hb6 : (binade n d <= 6)%Z).
  { destruct (decide (7 <= binade n d)%Z) as [Hb7|]; [|lia]. apply two_le in Hb7.
    change (2 ^ 7) with 128 in Hb7. pose proof (two_pos (-53)). lra. }
  assert (Hg : 2 ^ (binade n d - 52) <= 2 ^ (-46)) by (apply two_le; lia).
  assert (E : (1 # 2) * 2 ^ (-46) == 64 * 2 ^ (-53)) by done. pose proof (two_pos (-53)). lra.
Qed.

Lemma percentage_partial part whole :
  (0 <= part < 2 ^ 53)%Z → (0 < whole < 2 ^ 53)%Z → (part < whole)%Z →
  (0 <= percentage part whole < 100)%Z ∧
  inject_Z (percentage part whole) - 2 ^ (-45) <= ratio (100 * part) whole < inject_Z (percentage part whole + 1) + 2 ^ (-45).
Proof.
  intros Hp Hw Hlt. unfold percentage.
  destruct (fill_quotient part whole Hp Hw Hlt) as (n & d & -> & Hn & Hd & Hr & Hmax).
  pose proof (round_finite n d Hn Hd) as Hf. pose proof (round_close n d Hn Hd) as [Hc1 Hc2].
  destruct (hundred_times (round n d) Hf Hmax) as [Hf2 H100].
  destruct (mul_round (round n d) 100 Hf ltac:(lia)) as (n2 & d2 & E & Hn2 & Hd2 & Hr2). rewrite E in *.
  pose proof (round_close n2 d2 Hn2 Hd2) as [Hc3 Hc4]. rewrite Hr2 in Hc3, Hc4. rewrite Hr in Hc1, Hc2.
  set (y := round n2 d2) in *. pose proof (value_nonneg y Hf2) as Hy0.
  assert (Hpct : ∃ k, Config.f64_as_u64 y = k ∧ (0 <= k < 100)%Z ∧ inject_Z k <= value y < inject_Z (k + 1)).
  { exists (Config.f64_as_u64 y). split; [done|]. set (k := Qround.Qfloor (value y)).
    pose proof (Qround.Qfloor_le (value y)) as Hk1. pose proof (Qround.Qlt_floor (value y)) as Hk2. fold k in Hk1, Hk2.
    assert (Hk : (0 <= k < 100)%Z).
    { split; [apply Z.lt_succ_r; rewrite Zlt_Qlt; change (inject_Z 0) with 0; unfold Z.succ; lra|].
      rewrite Zlt_Qlt. change (inject_Z 100) with 100. lra. }
    assert (Ek : Config.f64_as_u64 y = k) by (apply as_u64_Q; [done|lia|done]). by rewrite Ek. }
  destruct Hpct as (k & -> & Hk & Hk1 & Hk2). split; [done|].
  assert (Hx : ratio (100 * part) whole == 100 * ratio part whole).
  { unfold ratio. rewrite inject_Z_mult. change (inject_Z 100) with 100. unfold Qdiv. ring. }
  assert (Hx1 : 0 <= ratio part whole <= 1).
  { split; [apply ratio_ge; [lia|]|apply ratio_le; [lia|]].
    - rewrite Qmult_0_l. change 0 with (inject_Z 0). rewrite <- Zle_Qle. lia.
    - rewrite Qmult_1_l, <- Zle_Qle. lia. }
  rewrite Hx. change (inject_Z 100) with 100 in *. set (x := ratio part whole) in *. set (v := value (round n d)) in *.
  assert (E45 : 2 ^ (-45) == 256 * 2 ^ (-53)) by done. rewrite E45.
  assert (Heps : 2 ^ (-53) <= 1 # 1024) by done. pose proof (two_pos (-53)) as Hpos.
  set (eps := 2 ^ (-53)) in *. clearbody eps x v. split; nra.
Qed.

(** *** The hit rate *)
Lemma hit_rate_shows hits misses :
  (0 <= hits)%Z → (0 <= misses)%Z → (0 < hits + misses < 2 ^ 53)%Z →
  ∃ k, hit_rate hits misses = (pretty (k / 10)%Z ++ "." ++ pretty (k mod 10)%Z ++ "%")%string ∧
    (0 <= k <= 1000)%Z ∧
    ratio (100 * hits) (hits + misses) - (1 # 20) - 2 ^ (-45) <= inject_Z k / 10
      <= ratio (100 * hits) (hits + misses) + (1 # 20) + 2 ^ (-45).
Proof.
  intros Hh Hm Ht. unfold hit_rate. rewrite u64_add_small, (proj2 (Z.ltb_lt _ _)) by lia.
  set (total := (hits + misses)%Z) in *.
  destruct (quotient_round hits total ltac:(lia) Ht) as (n & d & E & Hn & Hd & Hr). rewrite E.
  pose proof (round_finite n d Hn Hd) as Hf. pose proof (round_close n d Hn Hd) as [Hc1 Hc2]. rewrite Hr in Hc1, Hc2.
  destruct (mul_round (round n d) 100 Hf ltac:(lia)) as (n2 & d2 & E2 & Hn2 & Hd2 & Hr2). rewrite E2.
  pose proof (round_finite n2 d2 Hn2 Hd2) as Hf2. pose proof (round_close n2 d2 Hn2 Hd2) as [Hc3 Hc4]. rewrite Hr2 in Hc3, Hc4.
  change (inject_Z 100) with 100 in *.
  assert (Hx1 : 0 <= ratio hits total <= 1).
  { split; [apply ratio_ge; [lia|]|apply ratio_le; [lia|]].
    - rewrite Qmult_0_l. change 0 with (inject_Z 0). rewrite <- Zle_Qle. lia.
    - rewrite Qmult_1_l, <- Zle_Qle. lia. }
  assert (Hv1 : value (round n d) <= inject_Z 1 * 2 ^ 0).
  { apply round_le; [done..|]. rewrite Hr. change (inject_Z 1 * 2 ^ 0) with (1 * 1). lra. }
  change (inject_Z 1 * 2 ^ 0) with (1 * 1) in Hv1.
  assert (Hv2 : value (round n2 d2) <= inject_Z 100 * 2 ^ 0).
  { apply round_le; [done..|]. rewrite Hr2. change (inject_Z 100 * 2 ^ 0) with (100 * 1). lra. }
  change (inject_Z 100 * 2 ^ 0) with (100 * 1) in Hv2.
  exists (tenths (round n2 d2)). split; [|split; [split|]].
  - unfold fmt_1. destruct (round n2 d2); [done..|]. by rewrite !string_app_assoc.
  - by apply tenths_nonneg.
  - apply tenths_le; [done|]. change (inject_Z 1000) with 1000. lra.
  - pose proof (tenths_close _ Hf2) as [H3 H4].
    assert (Hx : ratio (100 * hits) total == 100 * ratio hits total).
    { unfold ratio. rewrite inject_Z_mult. change (inject_Z 100) with 100. unfold Qdiv. ring. }
    rewrite Hx. set (x := ratio hits total) in *. set (v := value (round n d)) in *. set (y := value (round n2 d2)) in *.
    set (z := inject_Z (tenths (round n2 d2)) / 10) in *.
    assert (E45 : 2 ^ (-45) == 256 * 2 ^ (-53)) by done. rewrite E45.
    assert (Heps : 2 ^ (-53) <= 1 # 1024) by done. pose proof (two_pos (-53)) as Hpos.
    set (eps := 2 ^ (-53)) in *. clearbody eps x v y z. clear -Hc1 Hc2 Hc3 Hc4 H3 H4 Heps Hpos Hx1. split; nra.
Qed.

(** *** Sizes *)
Lemma ratio_nonneg n d : (0 <= n)%Z → (0 < d)%Z → 0 <= ratio n d.
Proof. intros Hn Hd. apply ratio_ge; [done|]. rewrite Qmult_0_l. change 0 with (inject_Z 0). by rewrite <- Zle_Qle. Qed.

(** A size in a unit that is a double is off by a relative error of [2^-51]. *)
Lemma quotient_close bytes unit :
  (0 <= bytes)%Z → (0 < unit < 2 ^ 53)%Z →
  finite_nonneg (div (of_u64 bytes) (of_u64 unit)) ∧
  ratio bytes unit * (1 - 2 ^ (-51)) <= value (div (of_u64 bytes) (of_u64 unit)) <= ratio bytes unit * (1 + 2 ^ (-51)).
Proof.
  intros Hb Hu. destruct (div_round (of_u64 bytes) (of_u64 unit)) as (n & d & -> & Hn & Hd & Hr & _);
    [by apply of_u64_finite|apply of_u64_pos; lia|].
  split; [by apply round_finite|]. pose proof (round_close n d Hn Hd) as [H1 H2]. rewrite Hr in H1, H2.
  pose proof (of_u64_close bytes Hb) as [H3 H4]. rewrite (of_u64_exact unit) in H1, H2 by lia.
  pose proof (inject_pos unit ltac:(lia)) as Hu0.
  assert (Hq : value (of_u64 bytes) == value (of_u64 bytes) / inject_Z unit * inject_Z unit) by (field; lra).
  pose proof (ratio_mul bytes unit ltac:(lia)) as Hx. rewrite <- Hx in H3, H4. rewrite Hq in H3, H4.
  set (q := value (of_u64 bytes) / inject_Z unit) in *. set (x := ratio bytes unit) in *.
  assert (H5 : x * (1 - 2 ^ (-53)) <= q) by (apply (Qmult_le_r _ _ (inject_Z unit)); [done|]; lra).
  assert (H6 : q <= x * (1 + 2 ^ (-53))) by (apply (Qmult_le_r _ _ (inject_Z unit)); [done|]; lra).
  pose proof (ratio_nonneg bytes unit Hb ltac:(lia)) as Hx0. fold x in Hx0.
  assert (E : 2 ^ (-51) == 4 * 2 ^ (-53)) by done. rewrite E.
  assert (Heps : 2 ^ (-53) <= 1 # 1024) by done. pose proof (two_pos (-53)) as Hpos.
  set (eps := 2 ^ (-53)) in *. set (v := value (round n d)) in *. clearbody eps v x q. clear -H1 H2 H5 H6 Hx0 Heps Hpos.
  assert (0 <= x * eps) by nra. split; nra.
Qed.

(** What [{:.1}] prints of a size in a unit. *)
Definition shows (s : string) (k : Z) (unit : string) : Prop :=
  s = (pretty (k / 10)%Z ++ "." ++ pretty (k mod 10)%Z ++ " " ++ unit)%string.

Definition near (k bytes unit : Z) : Prop :=
  ratio bytes unit * (1 - 2 ^ (-51)) - (1 # 20) <= inject_Z k / 10 <= ratio bytes unit * (1 + 2 ^ (-51)) + (1 # 20).

Lemma tenths_near bytes unit :
  (0 <= bytes)%Z → (0 < unit < 2 ^ 53)%Z → near (tenths (div (of_u64 bytes) (of_u64 unit))) bytes unit.
Proof.
  intros Hb Hu. destruct (quotient_close bytes unit Hb Hu) as [Hf [H1 H2]].
  pose proof (tenths_close _ Hf) as [H3 H4]. unfold near. split; lra.
Qed.

Lemma fmt_1_shows n d unit :
  (fmt_1 (div (of_u64 n) (of_u64 d)) ++ " " ++ unit)%string
  = match div (of_u64 n) (of_u64 d) with
    | Finite _ _ => let k := tenths (div (of_u64 n) (of_u64 d)) in
                    (pretty (k / 10)%Z ++ "." ++ pretty (k mod 10)%Z ++ " " ++ unit)%string
    | Infinity true => ("-inf" ++ " " ++ unit)%string | Infinity false => ("inf" ++ " " ++ unit)%string
    | NaN => ("NaN" ++ " " ++ unit)%string
    end.
Proof. unfold fmt_1. destruct (div _ _) as [|[]|m e]; try done. by rewrite !string_app_assoc. Qed.

Lemma fmt_bytes_big bytes :
  (GIB <= bytes)%Z → shows (fmt_bytes bytes) (tenths (gb bytes)) "GB".
Proof.
  intros Hb. unfold fmt_bytes, show_gb, gb. rewrite (proj2 (Z.leb_le _ _)) by done.
  pose proof (quotient_close bytes GIB ltac:(unfold GIB in *; lia) ltac:(by vm_compute)) as [Hf _].
  change " GB"%string with (" " ++ "GB")%string. rewrite fmt_1_shows.
  by destruct (div (of_u64 bytes) (of_u64 GIB)).
Qed.

Lemma fmt_bytes_medium bytes :
  (MIB <= bytes < GIB)%Z → shows (fmt_bytes bytes) (tenths (div (of_u64 bytes) (of_u64 MIB))) "MB".
Proof.
  intros Hb. unfold fmt_bytes. rewrite (proj2 (Z.leb_gt _ _)), (proj2 (Z.leb_le _ _)) by lia.
  pose proof (quotient_close bytes MIB ltac:(unfold MIB in *; lia) ltac:(by vm_compute)) as [Hf _].
  change " MB"%string with (" " ++ "MB")%string. rewrite fmt_1_shows.
  by destruct (div (of_u64 bytes) (of_u64 MIB)).
Qed.

Lemma medium_bound bytes :
  (0 <= bytes < GIB)%Z → (tenths (div (of_u64 bytes) (of_u64 MIB)) <= 10240)%Z.
Proof.
  intros Hb. unfold GIB in Hb.
  destruct (quotient_round bytes MIB) as (n & d & -> & Hn & Hd & Hr); [lia|by vm_compute|].
  apply tenths_le; [by apply round_finite|].
  assert (Hv : value (round n d) <= inject_Z 1024 * 2 ^ 0).
  { apply round_le; [done..|]. rewrite Hr. apply ratio_le; [done|].
    change (2 ^ 0) with 1. rewrite Qmult_1_r, <- inject_Z_mult, <- Zle_Qle. unfold MIB. lia. }
  change (inject_Z 1024 * 2 ^ 0) with (1024 * 1) in Hv. change (inject_Z 10240) with 10240. lra.
Qed.

(** *** Areas *)
#[local] Open Scope Z_scope.

Definition sized (r : Rect) : Prop := 0 <= rw r ∧ 0 <= rh r.

Definition inside (r area : Rect) : Prop :=
  sized r ∧ rx area <= rx r ∧ ry area <= ry r ∧ rx r + rw r <= rx area + rw area ∧ ry r + rh r <= ry area + rh area.

#[export] Instance inside_trans : Transitive inside.
Proof. intros a b c. unfold inside, sized. lia. Qed.

(** What the layout solver promises: a part of the area for each constraint. *)
Class LayoutLaws `{Layout} : Prop := {
  vertical_parts cs area : sized area → length (vertical cs area) = length cs ∧ Forall (λ r, inside r area) (vertical cs area);
  horizontal_parts cs area : sized area → length (horizontal cs area) = length cs ∧ Forall (λ r, inside r area) (horizontal cs area);
  inner_inside area : sized area → inside (inner area) area;
}.

Definition gauge_ok (w : Widget) : Prop :=
  match w with Gauge _ ratio _ => finite_nonneg ratio ∧ Qle (value ratio) 1 | _ => True end.

(** A widget drawn within an area. *)
Definition drawable (area : Rect) (d : Rect * Widget) : Prop := inside d.1 area ∧ gauge_ok d.2.

Definition all_drawable (area : Rect) (f : Drawing) : Prop := Forall (drawable area) f.

Section areas.
Context `{MapOrder} `{LayoutLaws}.

Lemma inside_self r : sized r → inside r r.
Proof. unfold inside, sized. lia. Qed.

Lemma sized_inside r area : inside r area → sized r.
Proof. by intros [? _]. Qed.

Lemma nth_vertical cs area i : sized area → (i < length cs)%nat → inside (nth_area (vertical cs area) i) area.
Proof.
  intros Ha Hi. destruct (vertical_parts cs area Ha) as [Hl Hf]. unfold nth_area.
  destruct (lookup_lt_is_Some_2 (vertical cs area) i) as [r Hr]; [lia|]. rewrite Hr. exact (Forall_lookup_1 _ _ _ _ Hf Hr).
Qed.

Lemma nth_horizontal cs area i : sized area → (i < length cs)%nat → inside (nth_area (horizontal cs area) i) area.
Proof.
  intros Ha Hi. destruct (horizontal_parts cs area Ha) as [Hl Hf]. unfold nth_area.
  destruct (lookup_lt_is_Some_2 (horizontal cs area) i) as [r Hr]; [lia|]. rewrite Hr. exact (Forall_lookup_1 _ _ _ _ Hf Hr).
Qed.

Lemma drawable_within small area f : inside small area → all_drawable small f → all_drawable area f.
Proof. intros Hs Hf. apply (Forall_impl _ _ _ Hf). intros [r w] [Hr Hw]. split; [|done]. exact (inside_trans _ _ _ Hr Hs). Qed.

Lemma menu_inside area : sized area → inside (menu_area area) area.
Proof.
  unfold inside, sized, menu_area, saturating_sub. simpl. intros [Hw Hh].
  pose proof (Z.div_mod (Z.max 0 (rw area - 30)) 2 ltac:(lia)). pose proof (Z.mod_pos_bound (Z.max 0 (rw area - 30)) 2 ltac:(lia)).
  pose proof (Z.div_mod (Z.max 0 (rh area - 6)) 2 ltac:(lia)). pose proof (Z.mod_pos_bound (Z.max 0 (rh area - 6)) 2 ltac:(lia)).
  lia.
Qed.

(** *** The pages *)
Context (localtime : Z → Tm) (now instant : Z) (config : Config) (st : DashboardState) (t : Tui).
(** Counters and sizes are [u64]s. *)
Definition counted : Prop :=
  (∀ c, 0 <= atomics st c) ∧ map_Forall (λ _ cp, 0 <= cp_bytes_copied cp) (active_copies st).
Hypothesis Hst : counted.

Lemma usage_gauge_ok : gauge_ok (usage_gauge config st).
Proof. apply fill_range, Hst. Qed.

Lemma draw_scheduler_and_cache area : sized area → all_drawable area (render_scheduler_and_cache config area st).
Proof.
  intros Ha. unfold render_scheduler_and_cache. destruct (if caching_allowed st then _ else _) as [? ?].
  set (cols := horizontal [Length 30; Min 0] area).
  assert (H0c : inside (nth_area cols 0) area) by (apply nth_horizontal; simpl; [done|lia]).
  assert (H1c : inside (nth_area cols 1) area) by (apply nth_horizontal; simpl; [done|lia]).
  assert (Hin : inside (inner (nth_area cols 1)) area) by (etrans; [apply inner_inside|]; eauto using sized_inside).
  assert (Hsub : ∀ i, (i < 3)%nat → inside (nth_area (vertical three_lines (inner (nth_area cols 1))) i) area).
  { intros i Hi. etrans; [apply nth_vertical|done]; [by eapply sized_inside|done]. }
  repeat (constructor; [split; [first [done|apply Hsub; lia]|first [exact I|apply usage_gauge_ok]]|]). constructor.
Qed.
Lemma draw_one area w : sized area → gauge_ok w → all_drawable area [(area, w)].
Proof. intros Ha Hw. repeat constructor; [by apply inside_self..|done]. Qed.

Lemma draw_within area cs i (f : Rect → Drawing) :
  sized area → (i < length cs)%nat → (∀ r, sized r → all_drawable r (f r)) →
  all_drawable area (f (nth_area (vertical cs area) i)).
Proof.
  intros Ha Hi Hf. pose proof (nth_vertical cs area i Ha Hi) as Hr.
  eapply drawable_within; [exact Hr|]. apply Hf. by eapply sized_inside.
Qed.

Lemma all_drawable_app area f g : all_drawable area f → all_drawable area g → all_drawable area (f ++ g).
Proof. intros. by apply Forall_app. Qed.

(** A framed panel of one-line widgets. *)
Lemma draw_panel area cs title (ws : list Widget) :
  sized area → (length ws <= length cs)%nat → Forall gauge_ok ws →
  all_drawable area ((area, Block title) :: imap (λ i w, (nth_area (vertical cs (inner area)) i, w)) ws).
Proof.
  intros Ha Hl Hw. constructor; [split; [by apply inside_self|done]|].
  pose proof (inner_inside area Ha) as Hin. apply (drawable_within (inner area)); [done|].
  apply Forall_lookup_2. intros i [r w]. rewrite list_lookup_imap. intros (w' & Hi & Heq)%fmap_Some. simplify_eq.
  pose proof (lookup_lt_Some _ _ _ Hi). split; [|by eapply Forall_lookup_1].
  apply nth_vertical; [by eapply sized_inside|]. simpl. lia.
Qed.

Lemma draw_cacheio_usage area : sized area → all_drawable area (render_cacheio_usage config area st).
Proof.
  intros Ha. apply (draw_panel area three_lines _ [_; _; _]); [done|simpl; lia|].
  repeat constructor; try exact I; apply fill_range, Hst.
Qed.

Lemma draw_cacheio_pipeline area : sized area → all_drawable area (render_cacheio_pipeline area st).
Proof.
  intros Ha. unfold render_cacheio_pipeline. destruct (if caching_allowed st then _ else _) as [? ?].
  apply (draw_panel area [Length 1; Length 1] _ [_; _]); [done|simpl; lia|]. by repeat constructor.
Qed.

Lemma draw_copies area y copies :
  0 <= rw area → ry area <= y → Forall (λ c, 0 <= cp_bytes_copied c.2) copies →
  all_drawable area (place_copies instant area y copies).
Proof.
  intros Hw Hy Hc. revert y Hy. induction Hc as [|[p cp] copies Hcp _ IH]; intros y Hy; simpl; [constructor|].
  destruct (Z.ltb_spec (ry area + rh area) (y + 2)); [constructor|].
  constructor; [split; [|exact I]; unfold inside, sized; simpl; lia|].
  constructor; [split; [unfold inside, sized; simpl; lia|by apply fill_range]|]. apply IH. lia.
Qed.

Lemma sorted_copies_counted : Forall (λ c, 0 <= cp_bytes_copied c.2) (sorted_copies st).
Proof.
  apply Forall_forall. intros [p cp] Hin. unfold sorted_copies in Hin.
  rewrite sort_by_perm, iter_perm, elem_of_map_to_list in Hin. by apply (proj2 Hst p cp).
Qed.

Lemma draw_cacheio_inflight area : sized area → all_drawable area (render_cacheio_inflight instant area st).
Proof.
  intros Ha. unfold render_cacheio_inflight. pose proof (inner_inside area Ha) as Hin.
  constructor; [split; [by apply inside_self|done]|]. apply (drawable_within (inner area)); [done|].
  pose proof (sized_inside _ _ Hin) as Hs. pose proof sorted_copies_counted as Hc.
  destruct (sorted_copies st) as [|c l]; [by apply draw_one|].
  apply draw_copies; [apply Hs|lia|by apply Forall_take].
Qed.

(** Leaves what is drawn in one part of the area, for any area of its own. *)
Ltac in_part :=
  match goal with
  | |- all_drawable ?a ?d =>
      match d with
      | context [nth_area (vertical ?cs a) ?i] =>
          let d' := eval pattern (nth_area (vertical cs a) i) in d in
          change (all_drawable a d'); apply draw_within; [done|simpl; lia|]
      end
  end.

Lemma draw_status area : sized area → all_drawable area (render_status config area st).
Proof.
  intros Ha. unfold render_status.
  repeat apply all_drawable_app; in_part; intros r Hr; [by apply draw_scheduler_and_cache|by apply draw_one..].
Qed.

Lemma draw_cache area : sized area → all_drawable area (render_cache localtime now area st t).
Proof. intros Ha. unfold render_cache. apply all_drawable_app; in_part; intros r Hr; by apply draw_one. Qed.

Lemma draw_cache_io area : sized area → all_drawable area (render_cache_io instant config area st).
Proof.
  intros Ha. unfold render_cache_io. repeat apply all_drawable_app; in_part;
    eauto using draw_cacheio_usage, draw_cacheio_pipeline, draw_cacheio_inflight.
Qed.

Lemma draw_menu area sel : sized area → all_drawable area (render_action_menu area sel).
Proof. intros Ha. pose proof (menu_inside area Ha). do 2 (constructor; [by split|]). constructor. Qed.

Lemma draw_frame area : sized area → all_drawable area (render localtime now instant config area st t).
Proof.
  intros Ha. unfold render. apply all_drawable_app.
  { in_part. intros r Hr. by apply draw_one. }
  in_part. intros r Hr. destruct (page t).
  - by apply draw_status.
  - apply all_drawable_app; [by apply draw_cache|]. destruct (menu t); [by apply draw_menu|constructor].
  - by apply draw_cache_io.
  - by apply draw_one.
Qed.
End areas.
End ScreenFacts.

(** ** Properties *)
Module ScreenTheorems.
Import Ipc Tui Ui Double DoubleFacts Screen ScreenFacts.

(** C31.  A frame can always be drawn: on every page, for every state of the dashboard and every size
    of the terminal, down to nothing, each widget lies within the frame (the menu and the rows of the
    copies included, whose areas the code computes itself) and the fraction of each gauge is a number
    between 0 and 1, never a NaN, as the gauge requires. *)
Theorem frame_is_drawable `{MapOrder} `{LayoutLaws} localtime now instant config st t area :
  sized area → counted st →
  ∀ r w, (r, w) ∈ render localtime now instant config area st t →
    inside r area ∧ match w with Gauge _ ratio _ => finite_nonneg ratio ∧ Qle (value ratio) 1 | _ => True end.
Proof.
  intros Ha Hst r w Hin. exact (proj1 (Forall_forall _ _) (draw_frame localtime now instant config st t Hst area Ha) _ Hin).
Qed.

(** A size is printed to the nearest tenth of its unit: what [fmt_bytes] shows of a number of
    bytes is, in gigabytes from 2^30 on and in megabytes from 2^20 on, off by at most half a tenth
    and the rounding of two operations on doubles (a relative error of 2^-51), never more than
    1024.0 MB; and below that the whole number of kilobytes. *)
Theorem sizes_are_shown_to_a_tenth bytes :
  0 <= bytes < 2 ^ 64 →
  (GIB <= bytes → ∃ k, shows (fmt_bytes bytes) k "GB" ∧ near k bytes GIB) ∧
  (MIB <= bytes < GIB → ∃ k, shows (fmt_bytes bytes) k "MB" ∧ near k bytes MIB ∧ k <= 10240) ∧
  (bytes < MIB → ∃ k, fmt_bytes bytes = (pretty k ++ " KB")%string ∧ k * 1024 <= bytes < (k + 1) * 1024).
Proof.
  intros Hb. split_and!; intros Hr.
  - eexists. split; [by apply fmt_bytes_big|]. apply tenths_near; [lia|by vm_compute].
  - eexists. split_and!; [by apply fmt_bytes_medium|apply tenths_near; [lia|by vm_compute]|apply medium_bound; lia].
  - exists (bytes / 1024). unfold fmt_bytes, GIB, MIB in *.
    rewrite !(proj2 (Z.leb_gt _ _)) by lia. split; [done|].
    pose proof (Z.div_mod bytes 1024 ltac:(lia)). pose proof (Z.mod_pos_bound bytes 1024 ltac:(lia)). lia.
Qed.

(** The percentage of a copy in flight says 100 exactly when everything is copied: the two
    roundings of the quotient and of its product by 100 never lift a part to the whole.  Otherwise
    it is the percentage cut to a whole number, up to 2^-45 (so 29 bytes of 100 can show as 28).
    The hit rate is between 0.0% and 100.0% and off by half a tenth and 2^-45 at most. *)
Theorem percentages_are_right part whole hits misses :
  0 <= part < 2 ^ 53 → 0 < whole < 2 ^ 53 → 0 <= hits → 0 <= misses → 0 < hits + misses < 2 ^ 53 →
  (percentage part whole = 100 ↔ whole <= part) ∧
  (part < whole →
     Qle (inject_Z (percentage part whole) - 2 ^ (-45)) (ratio (100 * part) whole) ∧
     Qlt (ratio (100 * part) whole) (inject_Z (percentage part whole + 1) + 2 ^ (-45))) ∧
  ∃ k, hit_rate hits misses = (pretty (k / 10)%Z ++ "." ++ pretty (k mod 10)%Z ++ "%")%string ∧ 0 <= k <= 1000 ∧
    Qle (ratio (100 * hits) (hits + misses) - (1 # 20) - 2 ^ (-45)) (inject_Z k / 10) ∧
    Qle (inject_Z k / 10) (ratio (100 * hits) (hits + misses) + (1 # 20) + 2 ^ (-45)).
Proof.
  intros Hp Hw Hh Hm Ht. split; [|split].
  - split; [|by apply percentage_full]. intros H100.
    destruct (decide (whole <= part)) as [|Hlt]; [done|].
    destruct (percentage_partial part whole Hp Hw ltac:(lia)) as [Hlt' _]. lia.
  - intros Hlt. by apply percentage_partial.
  - by apply hit_rate_shows.
Qed.
(** ** Witnesses *)

(** A solver that serves the constraints in turn. *)
Definition wants (c : Constraint) (whole left : Z) : Z :=
  Z.max 0 (Z.min left (match c with Length n => n | Min _ => left | Percentage p => whole * p / 100 end)).

Fixpoint stack (cs : list Constraint) (whole left : Z) (part : Z → Z → Rect) (at_ : Z) : list Rect :=
  match cs with
  | [] => []
  | c :: cs' => let n := wants c whole left in part at_ n :: stack cs' whole (left - n) part (at_ + n)
  end.

#[local] Instance greedy : Layout := {
  vertical cs area := stack cs (rh area) (rh area) (λ y h, mkRect (rx area) y (rw area) h) (ry area);
  horizontal cs area := stack cs (rw area) (rw area) (λ x w, mkRect x (ry area) w (rh area)) (rx area);
  inner area := if (2 <=? rw area) && (2 <=? rh area)
                then mkRect (rx area + 1) (ry area + 1) (rw area - 2) (rh area - 2)
                else mkRect (rx area) (ry area) 0 0;
}.

Lemma stack_parts cs whole left part area at_ :
  (∀ x n, at_ <= x → 0 <= n → x + n <= at_ + left → inside (part x n) area) → 0 <= left →
  length (stack cs whole left part at_) = length cs ∧ Forall (λ r, inside r area) (stack cs whole left part at_).
Proof.
  revert left at_. induction cs as [|c cs IH]; intros left at_ Hpart Hl; simpl; [done|].
  assert (Hn : 0 <= wants c whole left <= left) by (unfold wants; lia).
  destruct (IH (left - wants c whole left) (at_ + wants c whole left)) as [IH1 IH2]; [|lia|].
  { intros x n ? ? ?. apply Hpart; lia. }
  split; [by rewrite IH1|]. constructor; [apply Hpart; lia|done].
Qed.

#[local] Instance greedy_laws : LayoutLaws.
Proof.
  split.
  - intros cs area [? ?]. apply stack_parts; [|done]. intros. unfold inside, sized. simpl. lia.
  - intros cs area [? ?]. apply stack_parts; [|done]. intros. unfold inside, sized. simpl. lia.
  - intros area [? ?]. unfold inner, greedy, inside, sized.
    destruct (2 <=? rw area) eqn:E1, (2 <=? rh area) eqn:E2; simpl; lia.
Qed.

Definition some_config : Config := h_config IpcTheorems.some_hello.
Definition copying : DashboardState :=
  on_copies (λ _, {[ ["Show"; "S01"; "e1.mkv"]%string := mkCopyProgress 4294967296 1073741824 2 ]})
    (store cache_used_bytes 3221225472 (dashboard some_config)).
Definition on_page (p : Page) : Tui := mkTui p 0 0 Newest ∅ None None.
Definition clock (_ : Z) : Tm := mkTm 126 0 2 3 4 5.

Lemma copying_counted : counted copying.
Proof.
  split.
  - intros c. pose proof (ConfigFacts.f64_as_u64_range
      (Config.times_gib (max_cache_pull_per_mount_gb (cache some_config)))) as Hr. int_bounds.
    change (atomics copying c) with (if decide (c = cache_used_bytes) then 3221225472
      else if decide (c = budget_max_bytes) then Config.gb_to_bytes (max_cache_pull_per_mount_gb (cache some_config)) else 0).
    unfold Config.gb_to_bytes. repeat case_decide; lia.
  - apply map_Forall_singleton. simpl. lia.
Qed.

Lemma frame_is_drawable_witness :
  ∃ ratio, (mkRect 1 13 78 1, Gauge Cyan ratio "1.0 GB / 4.0 GB  (25%)")
    ∈ render clock 9 9 some_config (mkRect 0 0 80 24) copying (on_page PCacheIo) ∧
  inside (mkRect 1 13 78 1) (mkRect 0 0 80 24) ∧ Qle (value ratio) 1.
Proof.
  exists (fill 1073741824 4294967296).
  assert (Hin : (mkRect 1 13 78 1, Gauge Cyan (fill 1073741824 4294967296) "1.0 GB / 4.0 GB  (25%)")
    ∈ render clock 9 9 some_config (mkRect 0 0 80 24) copying (on_page PCacheIo)).
  { apply (list_elem_of_lookup_2 _ 10). vm_compute. reflexivity. }
  destruct (frame_is_drawable clock 9 9 some_config copying (on_page PCacheIo) (mkRect 0 0 80 24)
    ltac:(done) copying_counted _ _ Hin) as [? [_ ?]]. done.
Defined.

Lemma sizes_are_shown_to_a_tenth_witness :
  fmt_bytes 1610612736 = "1.5 GB"%string ∧ ∃ k, shows (fmt_bytes 1610612736) k "GB" ∧ near k 1610612736 GIB.
Proof.
  split; [by vm_compute|]. destruct (sizes_are_shown_to_a_tenth 1610612736 ltac:(lia)) as [H _].
  apply H. unfold GIB. lia.
Defined.

Lemma percentages_are_right_witness :
  percentage 9007199254740990 9007199254740991 ≠ 100 ∧ percentage 29 100 = 28.
Proof.
  split; [|by vm_compute]. intros H%(percentages_are_right 9007199254740990 9007199254740991 1 1); lia.
Defined.

(** ** Where the drawing differs from its intent

    The elapsed time is meant to be aligned on the right, but the padding counts bytes while the
    terminal counts characters: for a shortened path, whose ellipsis has three bytes, it stands two
    columns to the left of where it is for a path that was not shortened. *)
Definition continuation (c : ascii) : bool := let n := nat_of_ascii c in (128 <=? n)%nat && (n <? 192)%nat.
Fixpoint columns (s : string) : nat :=
  match s with EmptyString => O | String c s' => ((if continuation c then 0 else 1) + columns s')%nat end.

Lemma elapsed_is_not_aligned :
  let cp := mkCopyProgress 10 5 0 in
  columns (title_line 7 40 ["tv"; "Show"; "e1.mkv"]%string cp) = 39%nat ∧
  columns (title_line 7 40 ["media"; "tv"; "Show"; "e1.mkv"]%string cp) = 37%nat.
Proof. by vm_compute. Qed.
End ScreenTheorems.
