(* ===== verification/Cli.v ===== *)
(** * The command line

    [src/main.rs] outside the daemon's start-up: which instance a command is for, the [discover]
    commands and what they print, the greeting of an instance and its pruning of old counts.
    Argument parsing and durations in words are third-party; standard input, the entries of a
    directory and what a connection receives are inputs. *)
From stdpp Require Import pretty.
From S2P Require Import Prelude Paths Scheduler Backing Disk Db Manager CacheIo Preset Engine Fuse.
From S2P Require Import Discovery Config Instance Daemon Ipc.

Inductive DiscoverAction :=
  | DiscStart
  | DiscStop
  | DiscStat (window : option string) (kind : option string) (top : Z).

(** What [timeout(3s, recv_msg)] gives. *)
Inductive Received := Arrived (f : Ipc.Frame DaemonMessage) | TimedOut.

Module Cli.
Import Text Instance Ipc.

(** ** Which instance *)
Definition resolve_socket (instance : option string) (socket : option path)
    (found : list (string * HelloPayload)) (line : string) : fallible path :=
  match socket, instance with
  | Some p, _ => Ok p
  | None, Some name => Ok (socket_path name)
  | None, None =>
      match found with
      | [] => Err "No running fscache instances found."%string
      | [(name, _)] => Ok (socket_path name)
      | _ =>
          match parse_unsigned usize_MAX (trim line) with
          | None => Err "invalid selection"%string
          | Some choice =>
              if (choice <? 1) || (Z.of_nat (length found) <? choice) then Err "selection out of range"%string
              else match found !! Z.to_nat (choice - 1) with
                   | Some (name, _) => Ok (socket_path name)
                   | None => Err "selection out of range"%string
                   end
          end
      end
  end.

(** [Path::file_stem]. *)
Definition file_stem (p : path) : option string :=
  name ← file_name p;
  match rsplit_dot name with
  | Some (before, _) => if decide (before = ""%string) then Some name else Some before
  | None => Some name
  end.

(** The names of the database files of the directory, if it can be read. *)
Definition db_names (entries : option (list path)) : list string :=
  omap (λ p, if decide (extension p = Some "db"%string) then file_stem p else None) (default [] entries).

Definition resolve_instance_name (instance : option string) (found : list (string * HelloPayload))
    (entries : option (list path)) : fallible string :=
  match instance with
  | Some name => Ok name
  | None =>
      match found with
      | [(name, _)] => Ok name
      | _ :: _ :: _ => Err ("Multiple instances running: " ++ join ", " found.*1)%string
      | [] =>
          match db_names entries with
          | [] => Err "No running fscache instances and no DB files found."%string
          | [name] => Ok name
          | names => Err ("Multiple DB files found: " ++ join ", " names)%string
          end
      end
  end.

(** ** Discovery commands *)
Section discover.
(** [humantime]. *)
Context (format_duration : Z → string) (parse_duration : string → option Z).

Definition format_recording (now : Z) (enabled : bool) (started_at : option Z) : string :=
  if negb enabled then "Recording: off"
  else match started_at with
       | None => "Recording: on"
       | Some at_ => "Recording: on (started " ++ format_duration (as_u64 (Z.max 0 (now - at_))) ++ " ago)"
       end.

(** The status, and what is left to read. *)
Fixpoint recv_discovery_status (reader : list Received) : fallible (bool * option Z) * list Received :=
  match reader with
  | Arrived (Msg (Event (DiscoveryStatus enabled started_at))) :: r => (Ok (enabled, started_at), r)
  | Arrived (Msg Goodbye) :: r | Arrived Eof :: r =>
      (Err "daemon disconnected before sending DiscoveryStatus"%string, r)
  | Arrived (Msg _) :: r => recv_discovery_status r
  | Arrived Garbage :: r => (Err "decode"%string, r)
  | TimedOut :: r | ([] as r) => (Err "timed out waiting for discovery status from daemon"%string, r)
  end.

(** [connect] with the answer of the socket; [None] when it cannot be opened. *)
Definition open_connection (reader : option (list Received)) : fallible (HelloPayload * list Received) :=
  match reader with
  | None => Err "connect"%string
  | Some (Arrived (Msg (Hello h)) :: r) => Ok (h, r)
  | Some (Arrived (Msg _) :: _) => Err "unexpected first message from daemon"%string
  | Some _ => Err "daemon closed connection before sending Hello"%string
  end.

Definition fetch_recording_line (now : Z) (instance : option string) (found : list (string * HelloPayload))
    (line : string) (serve : path → option (list Received)) : string :=
  match resolve_socket instance None found line with
  | Err _ => "Recording: unknown (daemon not running)"
  | Ok socket =>
      match open_connection (serve socket) with
      | Err _ => "Recording: unknown (daemon not running)"
      | Ok (_, reader) =>
          match (recv_discovery_status reader).1 with
          | Ok (enabled, started_at) => format_recording now enabled started_at
          | Err _ => "Recording: unknown"
          end
      end
  end.

(** [format!("{:<w$}")] and [{:>w$}]: a width counts characters. *)
Fixpoint char_count (s : string) : nat :=
  match s with
  | EmptyString => O
  | String c s' => ((if Discovery.is_cont c then 0 else 1) + char_count s')%nat
  end.
Fixpoint spaces (n : nat) : string := match n with O => "" | S n' => String " " (spaces n') end.
Definition left_aligned (w : nat) (s : string) : string := s ++ spaces (w - char_count s).
Definition right_aligned (w : nat) (s : string) : string := spaces (w - char_count s) ++ s.

Definition table_line (a b c d e : string) : string :=
  join "  " [left_aligned 32 a; right_aligned 8 b; right_aligned 8 c; right_aligned 8 d; right_aligned 8 e].

Definition stat_row (r : ProcessSummary) : string :=
  table_line (process_name r) (pretty (hit r)) (pretty (miss r)) (pretty (meta r)) (pretty (total r)).

Fixpoint rule (n : nat) : string := match n with O => "" | S n' => String "-" (rule n') end.

Section stat.
Context `{MapOrder}.

(** The lines printed. *)
Definition run_stat (now : Z) (instance : option string) (window kind : option string) (top : Z)
    (found : list (string * HelloPayload)) (line : string) (serve : path → option (list Received))
    (entries : option (list path)) (open_readonly : path → fallible CacheDb) : fallible (list string) :=
  let recording_line := fetch_recording_line now instance found line serve in
  match resolve_instance_name instance found entries with
  | Err _ => Ok [recording_line]
  | Ok name =>
      db ← open_readonly (db_path name);
      window_secs ← match window with
                    | Some w => match parse_duration w with Some s => Ok s | None => Err w end
                    | None => Ok 86400
                    end;
      let cutoff := as_i64 (now - as_i64 window_secs) in
      let rows := CacheDb.top_processes db cutoff kind top in
      let win := default "24h"%string window in
      Ok ([recording_line; ("Window: last " ++ win)%string; ""%string;
           table_line "PROCESS" "HIT" "MISS" "META" "TOTAL"; rule 72]
          ++ (match rows with [] => [("(no data in the last " ++ win ++ ")")%string] | _ => [] end)
          ++ (stat_row <$> rows))
  end.
End stat.

(** The message that is sent once the first status was read ([None] when it is not), and the
    result: the line printed. *)
Definition run_toggle (now : Z) (instance : option string) (msg : ClientMessage)
    (found : list (string * HelloPayload)) (line : string) (serve : path → option (list Received)) :
    option ClientMessage * fallible string :=
  match resolve_socket instance None found line with
  | Err e => (None, Err e)
  | Ok socket =>
      match open_connection (serve socket) with
      | Err e => (None, Err e)
      | Ok (_, reader) =>
          match recv_discovery_status reader with
          | (Err e, _) => (None, Err e)
          | (Ok _, reader) =>
              (Some msg,
               match (recv_discovery_status reader).1 with
               | Err e => Err e
               | Ok (enabled, started_at) => Ok (format_recording now enabled started_at)
               end)
          end
      end
  end.
End discover.

(** ** What an instance tells its clients, and its pruning *)
Definition make_hello (path_hash : string → Z) (version : string) (config : Config) : HelloPayload :=
  let base_cache_dir := components_of (cache_directory (paths config)) in
  mkHelloPayload version (instance_name (paths config))
    ((λ target, mkMountInfoWire target (mount_cache_dir path_hash base_cache_dir target) true)
       <$> target_directories (paths config))
    (db_path (instance_name (paths config)))
    (Config.with_resolved config).

(** A tick of the pruning task: an error is ignored. *)
Definition prune_tick `{MapOrder} (now window_days : Z) (db : CacheDb) : CacheDb :=
  match CacheDb.prune_process_access (as_i64 (as_i64 now - as_i64 (as_u64 (window_days * 86400)))) db with
  | Ok (db', _) => db'
  | Err _ => db
  end.
End Cli.

(** ** Facts *)
Module CliFacts.
Import Text Instance InstanceFacts Ipc IpcFacts Cli.

Lemma ends_with_app a b : ends_with b (a ++ b) = true.
Proof.
  unfold ends_with. rewrite string_length_app.
  replace (String.length a + String.length b - String.length b)%nat with (String.length a) by lia.
  rewrite substring_suffix. apply andb_true_iff. split; [apply Nat.leb_le; lia|by apply bool_decide_eq_true].
Qed.

(** A name has no dot, so its socket is the name and one [.sock]. *)
Lemma socket_name n :
  Config.validate_instance_name n = Ok tt →
  trim_suffix (String.length (n ++ ".sock")) ".sock" (n ++ ".sock") = n.
Proof.
  intros [Hn _]%valid_name. rewrite string_length_app, Nat.add_comm. cbn [String.length Nat.add trim_suffix].
  rewrite ends_with_app, string_length_app. change (String.length ".sock") with 5%nat.
  replace (String.length n + 5 - 5)%nat with (String.length n) by lia.
  rewrite substring_prefix.
  assert (ends_with ".sock" n = false) as ->; [|done].
  destruct (ends_with ".sock" n) eqn:E; [|done]. unfold ends_with in E.
  apply andb_true_iff in E as [_ E%bool_decide_eq_true].
  apply (substring_chars _ (String.length n - String.length ".sock") (String.length ".sock")) in Hn.
  by rewrite E in Hn.
Qed.

Lemma socket_path_name n :
  Config.validate_instance_name n = Ok tt → socket_path n = run_dir ++ [(n ++ ".sock")%string].
Proof.
  intros [Hn Hne]%valid_name. unfold socket_path. by rewrite join_str_plain by (by apply name_plain; [done|done|right; left]).
Qed.

Lemma hello_dirs h v c m :
  m ∈ (mi_cache_dir <$> h_mounts (make_hello h v c)) →
  length m = S (length (components_of (cache_directory (paths c)))).
Proof.
  unfold make_hello. cbn [h_mounts]. rewrite <- list_fmap_compose. intros (t & -> & _)%list_elem_of_fmap.
  cbn. unfold mount_cache_dir. rewrite join_str_plain.
  - rewrite length_app. cbn. lia.
  - rewrite <- (string_app_nil (mount_cache_name h t)).
    apply name_plain; [apply cache_name_chars|apply cache_name_nonempty|by left].
Qed.

(** *** Waiting for a status *)
Definition quiet (m : DaemonMessage) : Prop :=
  match m with Goodbye | Event (DiscoveryStatus _ _) => False | _ => True end.
Definition arrived (ms : list DaemonMessage) : list Received := (λ m, Arrived (Msg m)) <$> ms.

Lemma recv_skips ms r : Forall quiet ms → recv_discovery_status (arrived ms ++ r) = recv_discovery_status r.
Proof. induction 1 as [|m ms Hm _ IH]; [done|]. by destruct m as [|[]| |]. Qed.

Lemma quiet_logs ls : Forall quiet (Log <$> ls).
Proof. apply Forall_fmap, Forall_true. done. Qed.

(** The statuses a command broadcasts. *)
Definition news (s s' : DaemonState) : list DaemonMessage :=
  Event <$> drop (length (d_sent s)) (d_sent s').

Definition wanted (m : ClientMessage) : option bool :=
  match m with DiscoveryStart => Some true | DiscoveryStop => Some false | _ => None end.

Lemma toggle_news cwd t m b s :
  wanted m = Some b →
  let s' := (handle_message cwd t m s).1 in
  enabled (d_ctl s') = b ∧
  news s s' = if decide (enabled (d_ctl s) = b) then []
              else [Event (DiscoveryStatus (Discovery.status (d_ctl s')).1 (Discovery.status (d_ctl s')).2)].
Proof.
  intros Hw. destruct m; try done; injection Hw as <-; cbn [handle_message fst];
    unfold on_controller, Discovery.start, Discovery.stop; cbn [d_ctl];
    destruct (enabled (d_ctl s)) eqn:E; cbn [negb]; (split; [done|]); unfold news; cbn [d_sent].
  1,4: rewrite !drop_all; by rewrite drop_app_length.
  all: cbn [Discovery.broadcast_status broadcasts]; rewrite !drop_app_length; done.
Qed.
End CliFacts.

(** ** What the commands guarantee *)
Module CliTheorems.
Import Text Instance Ipc IpcFacts Cli CliFacts.


(** A running instance is found under its name, and its name leads back to its socket: among
    the files of the run directory (where the sockets are those of valid instance names) exactly
    the sockets that answer with a greeting are found, each under its instance's name, and the
    socket a name resolves to is the file it was found as.  Lock files are not probed. *)
Theorem discovered_instances_resolve entries probe :
  (∀ e, Some e ∈ entries → ends_with ".sock" e = true →
     ∃ n, Config.validate_instance_name n = Ok tt ∧ e = (n ++ ".sock")%string) →
  ∀ n h,
    ((n, h) ∈ discover_from_dir entries probe ↔
       Config.validate_instance_name n = Ok tt ∧ Some (n ++ ".sock")%string ∈ entries ∧
       ∃ rest, connect (probe (n ++ ".sock")%string) = Ok (h, rest)) ∧
    ((n, h) ∈ discover_from_dir entries probe →
       ∀ line, resolve_socket None None [(n, h)] line = Ok (run_dir ++ [(n ++ ".sock")%string])).
Proof.
  intros Hsock n h. assert (Hiff : (n, h) ∈ discover_from_dir entries probe ↔
    Config.validate_instance_name n = Ok tt ∧ Some (n ++ ".sock")%string ∈ entries ∧
    ∃ rest, connect (probe (n ++ ".sock")%string) = Ok (h, rest)).
  { unfold discover_from_dir. rewrite list_elem_of_omap. split.
    - intros ([e|] & He & Hf); [|done]. cbn in Hf.
      destruct (ends_with ".sock" e) eqn:Hend; [|done]. destruct (Hsock e He Hend) as (n' & Hn' & ->).
      destruct (connect (probe (n' ++ ".sock")%string)) as [[h' rest]|] eqn:Hc; [|done].
      rewrite socket_name in Hf by done. injection Hf as -> ->. eauto.
    - intros (Hn & He & rest & Hc). eexists. split; [exact He|]. cbn.
      by rewrite ends_with_app, Hc, socket_name. }
  split; [done|]. intros (Hn & _)%Hiff line. cbn. by rewrite socket_path_name.
Qed.

(** A socket is never guessed: an explicit socket or instance is used as it is; without one, a
    single running instance is taken, none is an error, and among several only an answer between
    1 and their number selects, by position. *)
Theorem socket_is_never_guessed instance socket found line p :
  resolve_socket instance socket found line = Ok p ↔
    socket = Some p ∨
    (socket = None ∧ ∃ name, p = socket_path name ∧
       (instance = Some name ∨
        (instance = None ∧ ∃ i h, found !! i = Some (name, h) ∧
           (length found = 1%nat ∨
            ((1 < length found)%nat ∧ parse_unsigned usize_MAX (trim line) = Some (Z.of_nat i + 1)))))).
Proof.
  unfold resolve_socket. destruct socket as [q|]; [naive_solver|].
  destruct instance as [name|]; [naive_solver|].
  destruct found as [|[n1 h1] [|[n2 h2] found]].
  - split; [done|]. intros [?|(_ & n & _ & [?|(_ & i & h & Hi & _)])]; done.
  - split.
    + intros [= <-]. right. split; [done|]. exists n1. split; [done|right]. split; [done|].
      exists 0%nat, h1. auto.
    + intros [?|(_ & n & -> & [?|(_ & i & h & Hi & _)])]; try done. by destruct i; simplify_eq/=.
  - set (l := (n1, h1) :: (n2, h2) :: found).
    assert (1 < length l)%nat by (cbn; lia).
    destruct (parse_unsigned usize_MAX (trim line)) as [c|] eqn:Hc; [|split; [done|]].
    + assert (Hl : ∀ i x, l !! i = Some x → (i < length l)%nat) by (intros i x; apply lookup_lt_Some).
      split.
      * destruct ((c <? 1) || (Z.of_nat (length l) <? c)) eqn:E; [done|].
        apply orb_false_iff in E as [E1 E2]. to_prop.
        destruct (l !! Z.to_nat (c - 1)) as [[n h]|] eqn:Hn; [|done]. intros [= <-]. right. split; [done|].
        exists n. split; [done|right]. split; [done|]. exists (Z.to_nat (c - 1)), h. split; [done|right].
        split; [done|]. f_equal. lia.
      * intros [?|(_ & n & -> & [?|(_ & i & h & Hi & [?|[_ [= ->]]])])].
        all: try done; try lia.
        assert (Hlt := Hl _ _ Hi).
        rewrite (proj2 (Z.ltb_ge _ 1)), (proj2 (Z.ltb_ge (Z.of_nat (length l)) _)) by lia. cbn [orb].
        replace (Z.to_nat (Z.of_nat i + 1 - 1)) with i by lia. by rewrite Hi.
    + intros [?|(_ & n & _ & [?|(_ & i & h & Hi & [?|[_ ?]])])]; done || lia.
Qed.

(** Pruning keeps the window: a tick of the pruning task deletes exactly the counts whose bucket
    began more than [window_days] days ago, and nothing else of the database. *)
Theorem pruning_keeps_the_window `{MapOrder} now window_days db :
  0 <= now < 2 ^ 62 → 0 <= window_days * 86400 < 2 ^ 62 → query_only (pragmas db) = false →
  let db' := prune_tick now window_days db in
  (∀ k, process_access (tables db') !! k =
     if decide (k.1.1 < now - window_days * 86400) then None else process_access (tables db) !! k) ∧
  cache_files (tables db') = cache_files (tables db) ∧ deferred_events (tables db') = deferred_events (tables db).
Proof.
  intros Hnow Hw Hdb. cbn zeta. unfold prune_tick, CacheDb.prune_process_access. rewrite Hdb.
  rewrite DbFacts.execute_writable by done. cbn [CacheDb.on_access process_access cache_files deferred_events].
  rewrite (as_u64_id (window_days * 86400)) by (int_bounds; lia).
  rewrite (as_i64_id now), (as_i64_id (window_days * 86400)), (as_i64_id (now - window_days * 86400))
    by (int_bounds; lia).
  split; [|done]. intros [[bk n] kind]. rewrite map_lookup_filter. cbn.
  destruct (process_access (tables db) !! (bk, n, kind)); cbn; repeat case_decide; done.
Qed.


Lemma discovered_instances_resolve_witness :
  let probe := λ _ : string, [(0, Msg (Hello IpcTheorems.some_hello))] in
  resolve_socket None None [("tv"%string, IpcTheorems.some_hello)] "" = Ok (run_dir ++ ["tv.sock"%string]).
Proof.
  intros probe.
  destruct (discovered_instances_resolve [Some "tv.lock"; Some "tv.sock"]%string probe) with (n := "tv"%string)
    (h := IpcTheorems.some_hello) as [Hiff Hres].
  - intros e He Hend. rewrite !elem_of_cons, elem_of_nil in He.
    destruct He as [[= ->]|[[= ->]|[]]]; [by vm_compute in Hend|]. exists "tv"%string. by vm_compute.
  - apply Hres, Hiff. split; [by vm_compute|]. split; [by right; left|]. by exists [].
Defined.

Definition AccessRow_of (n : Z) : AccessRow := mkAccessRow n 0 0 None None.
Definition two_counts : CacheDb :=
  CacheDb.execute (CacheDb.on_access (λ t,
    <[(100, "cat", "hit")%string := AccessRow_of 3]> (<[(900000, "cat", "hit")%string := AccessRow_of 4]> t))) DbWitnesses.fresh_db.

Lemma pruning_keeps_the_window_witness :
  process_access (tables (prune_tick 1000000 7 two_counts)) !! (100, "cat", "hit")%string = None ∧
  process_access (tables (prune_tick 1000000 7 two_counts)) !! (900000, "cat", "hit")%string = Some (AccessRow_of 4).
Proof.
  destruct (pruning_keeps_the_window 1000000 7 two_counts) as [Hp _]; [lia|lia|done|].
  split; rewrite Hp; vm_compute; reflexivity.
Defined.
End CliTheorems.
